(* ===== verification/_CoqProject ===== *)
-Q . S2P
Prelude.v
GoString.v
Utf8.v
GoTime.v
Decimal.v
Float64.v
Durations.v
Regexp.v
Admission.v
Wire.v
Masking.v
Builtin.v
Declared.v
Policy.v
Sweep.v
DryRun.v
Execution.v
Enforcement.v
Describe.v
Kube.v
Logs.v
Events.v
Runtime.v
Payloads.v
Session.v
SessionSteps.v
SessionSlots.v
SessionSafety.v
SessionExact.v
SessionMessages.v
SessionLiveness.v
SessionProgress.v
SessionDrain.v
Backoff.v
Supervisor.v
Sha256.v
KubeInventory.v
Snapshot.v
Diff.v
InventoryLocal.v
Sync.v
SyncProps.v
Relay.v
Encoding.v
Config.v
Transport.v
AuditTrail.v
Json.v
Identity.v
FileStore.v
Main.v
Typing.v
Frame.v
Process.v
Confinement.v
