(* ===== verification/Prelude.v ===== *)
(** * OpenCluster Relay: a verification library

    The relay (src/cmd/opencluster-relay, src/internal) holds one outbound stream to a control plane,
    receives jobs over it, runs the few read-only Kubernetes capabilities compiled in, sweeps every
    result with the operator's redaction policy, and keeps each result until the control plane
    acknowledges it. Beside the jobs it detects changes of declared intent on its own schedule.

    This library models those parts as Rocq functions and transition systems and proves what makes them
    correct. Go values keep their shape: structs are records, enumerations and oneofs inductive types,
    fallible functions return [result] or [option], effectful reads thread a world [W] chosen by the
    environment, loops that are not structural take fuel with a theorem that it is enough, and integers
    keep their width where it matters ([wrap_u], [wrap_s]). What is not under src/ (the Kubernetes
    clientset, the YAML decoder, the random source, the file system) is a parameter of the definitions
    that use it.

    ** The parts, and the file that models each

    - Shared: this file (automation, the result monad, machine integers, sorting), GoString and Utf8
      (Go's strings and runes), GoTime (time, durations, RFC 3339), Decimal, Float64 and Durations (digits,
      exact float64 products and how Go prints a duration, each proved to be read back), Regexp (Go's leftmost-first regular
      expressions, with a denotation and a matcher proved sound and complete), Sha256.
    - Wire: the messages of proto/opencluster/relay/v1.
    - Admission: internal/capabilities policy.go, fieldcap.go, identifier.go.
    - Redaction (internal/redaction): Masking and Builtin (rule.go, builtin.go), Declared (declared.go,
      paths.go), Policy (policy.go, parse.go), Sweep (sweep.go), DryRun (dryrun.go), Enforcement
      and Describe (enforcement.go). A rule's pattern is an interface, a record of its two matching functions;
      [of_re] implements it.
    - Execution: internal/capabilities budget.go and registry.go. The class [Echoes] is what every
      executor promises the session; the registry, the enforcement point and the capabilities are its
      instances.
    - Kube: internal/kube port.go, clientgo.go, kubeconfig.go. The classes [WorkloadReaderOk],
      [EventReaderOk] and [LogReaderOk] state what the client adapter promises to the capabilities; the
      adapter's theorems discharge them and the capabilities are proved against them.
    - Logs, Events, Runtime: internal/capabilities/kubernetes. Payloads joins them to the redaction
      table: every string they emit is declared, and a swept payload is the payload of the masked text.
    - Session (internal/session session.go, connection.go, unacked.go, sender.go): an executable
      transition system, one [label] per step of one goroutine up to its next blocking operation; a loop
      that has returned (a failed Send, Recv or enqueue) takes no more steps, and what can always come
      about is said of a [running] connection, none of whose loops has.
      SessionSteps reduces a step to what it may do to a connection ([evolves]) and to a worker
      ([descends]); SessionSlots accounts for the outstanding-work slots; SessionSafety holds the
      invariant and the safety theorems, SessionExact the stronger books of a first connection and the
      run on which a reconnect breaks them, SessionMessages the places every message on a connection
      and every job comes from, SessionLiveness the guarantee behind resend-until-ack, SessionProgress that a worker
      can always finish, SessionDrain that a drain comes to its end.
    - Backoff: backoff.go and the delays of run.go. Supervisor: run.go as a whole, the loop over the
      session's transition system and the backoff; its runs project to runs of the session.
    - Inventory: KubeInventory (internal/kube/inventory.go), Snapshot and Diff (internal/inventory
      snapshot.go, diff.go), InventoryLocal (local.go), Sync (sync.go: policies, ticks, acknowledgements
      and packing as an executable transition system) and SyncProps, its invariant and theorems. Relay is
      the product of the session and the synchronizer, with the calls one makes into the other; runs of
      the whole project to runs of each, so the theorems of both hold of it.
    - Encoding (strconv, net.SplitHostPort and base64, each with the language it accepts) and Config
      (internal/config/config.go). Transport (internal/transport/pinned.go) over Sha256 and Encoding.
    - Json (encoding/json: quoting, scanning, the value grammar), Identity (internal/identity identity.go,
      enroll.go) and FileStore (filestore.go). The class [StoreOk] is what a store promises enrollment; a
      store in memory and the file store over a file system with crashes are its instances.
    - AuditTrail (internal/audit/executor.go) and Main (cmd/opencluster-relay/main.go, with the metadata of
      internal/session/connector.go): how [run] puts all of it together. Typing: messages against the
      descriptors of Declared. The class [Yields] is what an executor promises of its payloads; the
      capabilities, the registry, the enforcement point and the audit decorator are its instances.
    - Process: what [run] serves, running. The session and its synchronizer over the world the executor
      and the observations read, as one transition system; its runs project to runs of Relay and of the
      session, and [chronicle] keeps with a run the assignments received and the runs of executors. Frame says what each part may do to that world (the classes [Confined] and
      [CancelledByCaller]); Confinement follows what lists return to the deltas on the stream.

    ** What the theorems show

    Redaction: masking replaces each region the rules claim, in its place, and nothing else; a sweep masks exactly the declared free
    text and reports it truthfully; an operator's policy only ever adds protection; without a policy
    nothing that can carry free text leaves; what the relay reports of its policy is what it enforces, and
    discloses no pattern. Capabilities: every read is bounded, typed and truthful about
    what it left out, and reports each of its failures by its cause ([log_report], [shows] and
    [runtime_report] say what, case by case). Session: capacity is never exceeded, only this relay's jobs run, results stay until
    acknowledged and can always be sent again, cancellation answers come before the results they cause,
    draining admits nothing. The reconnect loop runs one connection at a time, sleeps what the backoff
    says between attempts, and returns once it is told to. Inventory: differences replay to the snapshot they were taken against, and
    so does everything a scope has queued; its queue, its interval and the namespaces it lists are bounded
    under every interleaving of policies, ticks and acknowledgements, and it is not polled twice within
    the operator's floor unless a changed policy arrived in between. The session and the synchronizer
    together: every delta on a connection was observed and queued for its scope, and one that is pending
    stays so, and can be put on the stream again, until it is acknowledged or a fresh baseline is owed.
    Startup: which environments are
    accepted and what they mean; enrollment is all or nothing; whatever the moment of a crash, the
    credential file holds the old credential or the new one; pins are enforced exactly. Composition: the
    path of a job through registry, enforcement and audit, what the process serves when it serves, and that
    every result which leaves it is a well-typed message in the variant of its capability. The process as
    a whole, in every run of a started process and whatever the control plane and the cluster do: what
    reaches the stream was returned by the executor for an assignment received before, is well typed, the
    sweep of what was read in that run, and read in a permitted namespace alone; what is asked of
    the cluster stays in permitted namespaces; what inventory deltas tell of lies in them; every result has
    its line in the audit log or is one of the session's own refusals; and a job once admitted can always
    be brought to its answer.

    ** Bounds and fuel

    The free-text search takes as fuel one more than the number of messages of the schema and is proved
    insensitive to more; the regular expression search takes the length of its input; date parsing and
    duration parsing the length of their text. A JSON string takes one more than its length and a value
    twice its length and two (a step either consumes a byte or follows one that did), and nesting stops at
    Go's own limit; an unsigned 64-bit number has at most twenty digits; packing takes one step more than
    there are changes. The steps of the session and of the synchronizer are total functions and need none.

    ** Not modelled

    Generated protobuf code and its marshalling ([proto.Size] is a parameter), the gRPC stream behind the
    connector, x509 parsing, the TLS handshake around the certificate check, YAML decoding, the
    Kubernetes clientset (parameters of the definitions that use them), the sink of log lines and the
    wording of errors (an error is a constructor with what its text names), flag parsing and signals, the
    build gates, and the programs under test/. Go's data races and its memory model are out of scope: each
    label is atomic, and the code takes its locks around exactly the state a label touches. In Process the
    reads of one executor run, and those of one observation, are one step: other steps of the process do
    not fall between them, while the environment may still change the world before and after; a worker's
    context is arbitrary, so its deadline and its cancellation are whatever they may be. *)

From stdpp Require Export base tactics option list list_numbers gmap strings sorting fin_maps.
From Stdlib Require Export ZArith Lia.
From stdpp Require Import options.

(** ** Automation *)

(** [relay] collects the resolution hints that components export, [relay_rw] the rewriting rules. *)
Create HintDb relay.
Create Rewrite HintDb relay_rw.

(** Destruct the scrutinee of the first [match] or [if] found in the goal, keeping its equation. *)
Ltac case_goal :=
  match goal with
  | |- context [match ?x with _ => _ end] => destruct x eqn:?; simplify_eq/=
  end.

(** The same in a hypothesis. *)
Ltac case_hyp H :=
  match type of H with
  | context [match ?x with _ => _ end] => destruct x eqn:?; simplify_eq/=
  end.

(** Invert a successful computation in the option monad, guards on booleans included. *)
Ltac option_steps :=
  simplify_option_eq;
  repeat match goal with
  | H : (if ?b then _ else _) = Some _ |- _ => destruct b eqn:?; simplify_option_eq
  end.

(** Turn boolean tests into the propositions they decide. *)
Ltac bool_prop :=
  repeat match goal with
  | H : (_ && _) = true |- _ => apply andb_true_iff in H; destruct H
  | H : (_ || _) = false |- _ => apply orb_false_iff in H; destruct H
  | H : negb _ = true |- _ => apply negb_true_iff in H
  | H : negb _ = false |- _ => apply negb_false_iff in H
  | H : (_ <=? _)%Z = true |- _ => apply Z.leb_le in H
  | H : (_ <=? _)%Z = false |- _ => apply Z.leb_gt in H
  | H : (_ <? _)%Z = true |- _ => apply Z.ltb_lt in H
  | H : (_ <? _)%Z = false |- _ => apply Z.ltb_ge in H
  | H : (_ =? _)%Z = true |- _ => apply Z.eqb_eq in H
  | H : (_ =? _)%Z = false |- _ => apply Z.eqb_neq in H
  | H : (_ <=? _)%nat = true |- _ => apply Nat.leb_le in H
  | H : (_ <=? _)%nat = false |- _ => apply Nat.leb_gt in H
  | H : (_ <? _)%nat = true |- _ => apply Nat.ltb_lt in H
  | H : (_ <? _)%nat = false |- _ => apply Nat.ltb_ge in H
  | H : (_ =? _)%nat = true |- _ => apply Nat.eqb_eq in H
  | H : (_ =? _)%nat = false |- _ => apply Nat.eqb_neq in H
  | H : (_ =? _)%string = true |- _ => apply String.eqb_eq in H
  | H : (_ =? _)%string = false |- _ => apply String.eqb_neq in H
  | H : bool_decide _ = true |- _ => apply bool_decide_eq_true in H
  | H : bool_decide _ = false |- _ => apply bool_decide_eq_false in H
  end.

(** ** Fallible code: Go's [(value, error)] as a sum with its monad *)

Inductive result (E A : Type) : Type :=
  | Ok (a : A)
  | Err (e : E).
Arguments Ok {E A} a.
Arguments Err {E A} e.

#[export] Instance result_ret {E} : MRet (result E) := fun A a => Ok a.
#[export] Instance result_bind {E} : MBind (result E) := fun A B f m =>
  match m with Ok a => f a | Err e => Err e end.
#[export] Instance result_fmap {E} : FMap (result E) := fun A B f m =>
  match m with Ok a => Ok (f a) | Err e => Err e end.

Definition is_ok {E A} (m : result E A) : bool :=
  match m with Ok _ => true | Err _ => false end.

Lemma bind_Ok {E A B} (m : result E A) (f : A → result E B) b :
  m ≫= f = Ok b ↔ ∃ a, m = Ok a ∧ f a = Ok b.
Proof. destruct m; naive_solver. Qed.

Lemma bind_Err {E A B} (m : result E A) (f : A → result E B) e :
  m ≫= f = Err e ↔ m = Err e ∨ ∃ a, m = Ok a ∧ f a = Err e.
Proof. destruct m; naive_solver. Qed.

#[export] Hint Rewrite @bind_Ok @bind_Err : relay_rw.

(** State passing with failure: a computation that threads a store and may stop. *)
Definition stateE (S E A : Type) : Type := S → result E (A * S).
#[export] Instance stateE_ret {S E} : MRet (stateE S E) := fun A a s => Ok (a, s).
#[export] Instance stateE_bind {S E} : MBind (stateE S E) := fun A B f m s =>
  match m s with Ok (a, s') => f a s' | Err e => Err e end.

Lemma stateE_bind_eq {S E A B} (m : stateE S E A) (f : A → stateE S E B) s :
  (m ≫= f) s = match m s with Ok (a, s') => f a s' | Err e => Err e end.
Proof. done. Qed.

(** ** Machine integers: Go's conversions wrap modulo the width *)

Definition wrap_u (w : Z) (x : Z) : Z := x mod 2 ^ w.
Definition wrap_s (w : Z) (x : Z) : Z := (x + 2 ^ (w - 1)) mod 2 ^ w - 2 ^ (w - 1).

Abbreviation uint32 := (wrap_u 32).
Abbreviation int32 := (wrap_s 32).
Abbreviation int64 := (wrap_s 64).

Lemma uint32_id x : (0 ≤ x < 2 ^ 32)%Z → uint32 x = x.
Proof. intros. unfold wrap_u. by apply Z.mod_small. Qed.

Lemma uint32_idem x : uint32 (uint32 x) = uint32 x.
Proof. unfold wrap_u. by rewrite Zmod_mod. Qed.

Lemma uint32_add x y : uint32 (uint32 x + y) = uint32 (x + y).
Proof. unfold wrap_u. by rewrite Zplus_mod_idemp_l. Qed.

Lemma int64_id x : (- 2 ^ 63 ≤ x < 2 ^ 63)%Z → int64 x = x.
Proof. intros. unfold wrap_s. rewrite Z.mod_small; lia. Qed.

Lemma int32_id x : (- 2 ^ 31 ≤ x < 2 ^ 31)%Z → int32 x = x.
Proof. intros. unfold wrap_s. rewrite Z.mod_small; lia. Qed.

Lemma int64_range x : (- 2 ^ 63 ≤ int64 x < 2 ^ 63)%Z.
Proof.
  unfold wrap_s. pose proof (Z.mod_pos_bound (x + 2 ^ (64 - 1)) (2 ^ 64)).
  change (64 - 1)%Z with 63%Z in *. lia.
Qed.

(** A list is sorted when its elements are related in the order of their positions. *)
Lemma StronglySorted_lookup {A} (R : A → A → Prop) (l : list A) :
  (∀ i j x y, i < j → l !! i = Some x → l !! j = Some y → R x y) → StronglySorted R l.
Proof.
  induction l as [|x l IH]; intros HR; constructor.
  - apply IH. intros i j y z Hij Hi Hj. by apply (HR (S i) (S j)); [lia|..].
  - apply Forall_forall. intros y [j Hj]%list_elem_of_lookup. by apply (HR 0 (S j)); [lia|..].
Qed.

(** ** Sorting: [sort.SliceStable] and, on distinct keys, [sort.Slice] and [sort.Strings]

    [less] is Go's comparison function. Insertion before the first element that is not less keeps
    equal elements in their original order; on keys no two of which are equal the result is the only
    sorted permutation, so every Go sorting function returns it ([sort_unique]). *)

Section sorting.
Context {A : Type} (less : A → A → bool).

Fixpoint sort_insert (x : A) (l : list A) : list A :=
  match l with
  | [] => [x]
  | y :: l' => if less y x then y :: sort_insert x l' else x :: l
  end.

Fixpoint sort_stable (l : list A) : list A :=
  match l with [] => [] | x :: l' => sort_insert x (sort_stable l') end.

(** A strict weak order: what a Go comparison function must be for its sort to be meaningful. *)
Class StrictWeak : Prop := {
  sw_asym x y : less x y = true → less y x = false;
  sw_negtrans x y z : less y x = false → less z y = false → less z x = false;
}.

Definition not_greater (x y : A) : Prop := less y x = false.

Lemma sort_insert_perm x l : sort_insert x l ≡ₚ x :: l.
Proof.
  induction l as [|y l IH]; simpl; [done|].
  case_match; [|done]. rewrite IH. apply Permutation_swap.
Qed.

Lemma sort_perm l : sort_stable l ≡ₚ l.
Proof. induction l as [|x l IH]; simpl; [done|]. by rewrite sort_insert_perm, IH. Qed.

Lemma sort_elem x l : x ∈ sort_stable l ↔ x ∈ l.
Proof. by rewrite sort_perm. Qed.

Lemma sort_length l : length (sort_stable l) = length l.
Proof. by rewrite sort_perm. Qed.

Lemma sort_insert_sorted `{!StrictWeak} x l :
  StronglySorted not_greater l → StronglySorted not_greater (sort_insert x l).
Proof.
  induction 1 as [|y l Hl IH Hy]; simpl; [repeat constructor|].
  case_match eqn:E.
  - constructor; [done|]. rewrite sort_insert_perm. constructor; [|done].
    by apply sw_asym.
  - constructor; [by constructor|]. constructor; [done|].
    eapply Forall_impl; [exact Hy|]. intros z Hz. unfold not_greater in *.
    eapply sw_negtrans; eauto.
Qed.

Lemma sort_sorted `{!StrictWeak} l : StronglySorted not_greater (sort_stable l).
Proof. induction l; simpl; [constructor|]. by apply sort_insert_sorted. Qed.

(** Stability: elements that compare equal keep their order. *)
Lemma sort_insert_filter (P : A → Prop) `{!∀ x, Decision (P x)} x l :
  (∀ y, y ∈ l → P x → P y → less y x = false) →
  filter P (sort_insert x l) = filter P (x :: l).
Proof.
  induction l as [|y l IH]; simpl; intros HP; [done|].
  case_match eqn:E; [|done].
  rewrite (filter_cons _ y), IH by (intros; apply HP; by try right).
  rewrite !filter_cons. repeat case_decide; try done.
  rewrite HP in E; [done|by left|done..].
Qed.

Lemma sort_filter (P : A → Prop) `{!∀ x, Decision (P x)} l :
  (∀ x y, x ∈ l → y ∈ l → P x → P y → less y x = false) →
  filter P (sort_stable l) = filter P l.
Proof.
  induction l as [|x l IH]; simpl; intros HP; [done|].
  rewrite sort_insert_filter.
  - rewrite !filter_cons, IH; [done|]. intros; apply HP; by try right.
  - intros y Hy. apply HP; [by left|]. right. by apply sort_elem.
Qed.

Lemma sort_unique `{!StrictWeak} l1 l2 :
  (∀ x y, x ∈ l1 → y ∈ l1 → less x y = false → less y x = false → x = y) →
  l1 ≡ₚ l2 → sort_stable l1 = sort_stable l2.
Proof.
  intros Hanti Hp. eapply (StronglySorted_unique_strong not_greater).
  - intros x y Hx Hy. rewrite sort_elem in Hx. rewrite sort_elem, <-Hp in Hy.
    unfold not_greater. intros. apply Hanti; auto.
  - apply sort_sorted.
  - apply sort_sorted.
  - by rewrite !sort_perm.
Qed.

Lemma sort_sorted_id l : StronglySorted not_greater l → sort_stable l = l.
Proof.
  induction 1 as [|x l Hl IH Hx]; simpl; [done|]. rewrite IH.
  destruct Hx as [|y k Hxy _]; simpl; [done|]. by rewrite Hxy.
Qed.

Lemma sort_NoDup l : NoDup (sort_stable l) ↔ NoDup l.
Proof. by rewrite sort_perm. Qed.
End sorting.

(** Sorting commutes with a projection the comparison factors through. *)
Lemma sort_fmap {A B} (f : A → B) (less : A → A → bool) (less' : B → B → bool) l :
  (∀ x y, less x y = less' (f x) (f y)) →
  f <$> sort_stable less l = sort_stable less' (f <$> l).
Proof.
  intros Hless.
  assert (∀ x k, f <$> sort_insert less x k = sort_insert less' (f x) (f <$> k)) as Hins.
  { intros x k. induction k as [|y k IH]; csimpl; [done|].
    rewrite <-Hless. case_match; csimpl; [by rewrite IH|done]. }
  induction l as [|x l IH]; csimpl; [done|]. by rewrite Hins, IH.
Qed.

#[export] Hint Resolve sort_perm sort_sorted : relay.

(** ** Comparison by one component, then the next *)

(** [if f x != f y { return f x < f y }], followed by [rest]. *)
Definition lex_less {A B} `{EqDecision B} (f : A → B) (lt : B → B → bool) (rest : A → A → bool)
    (x y : A) : bool :=
  if decide (f x = f y) then rest x y else lt (f x) (f y).

(** A component's order must tell distinct values apart. *)
Class Separating {B} (lt : B → B → bool) : Prop :=
  separating x y : lt x y = false → lt y x = false → x = y.

#[export] Instance Zltb_weak : StrictWeak Z.ltb.
Proof. split; intros *; rewrite ?Z.ltb_lt, ?Z.ltb_ge; lia. Qed.
#[export] Instance Zltb_separating : Separating Z.ltb.
Proof. intros x y. rewrite !Z.ltb_ge. lia. Qed.

#[export] Instance lex_less_weak {A B} `{EqDecision B} (f : A → B) lt rest :
  StrictWeak lt → Separating lt → StrictWeak rest → StrictWeak (lex_less f lt rest).
Proof.
  intros Hw Hs Hr. unfold lex_less. split.
  - intros x y. destruct (decide (f x = f y)) as [E|E]; destruct (decide (f y = f x)); try congruence;
      by apply sw_asym.
  - intros x y z. repeat case_decide; try congruence; try by apply sw_negtrans.
    intros H2 H3. exfalso. apply H. apply Hs; congruence.
Qed.

Lemma lex_less_separating {A B} `{EqDecision B} (f : A → B) lt rest x y :
  Separating lt → lex_less f lt rest x y = false → lex_less f lt rest y x = false →
  f x = f y ∧ rest x y = false ∧ rest y x = false.
Proof.
  intros Hs. unfold lex_less. repeat case_decide; try congruence; [auto|].
  intros H1 H2. by pose proof (Hs _ _ H1 H2).
Qed.
