(* ===== verification/GoString.v ===== *)
(** * Go strings

    A Go string is a sequence of bytes; it is modelled by [string] (a list of 8-bit characters). This
    file gives the operations of the language and its standard library that the relay uses: slicing,
    [strings.Split], [strings.TrimSpace], [strings.Cut] and friends, the conversions [[]rune(s)] and
    [string(runes)], and the bytewise order of [<] and [sort.Strings]. *)

From S2P Require Export Prelude.
From Stdlib Require Import Ascii.
From Stdlib Require String.
From stdpp Require Import options.
Local Open Scope Z_scope.

#[local] Arguments String.append : simpl nomatch.

Abbreviation slen := String.length.
Abbreviation rune := Z (only parsing).

(** ** Slicing *)

Fixpoint str_take (n : nat) (s : string) : string :=
  match n, s with
  | S n', String a t => String a (str_take n' t)
  | _, _ => ""
  end.

Fixpoint str_drop (n : nat) (s : string) : string :=
  match n, s with
  | S n', String _ t => str_drop n' t
  | O, _ => s
  | S _, "" => ""
  end.

(** [s[i:j]] *)
Definition str_slice (i j : nat) (s : string) : string := str_take (j - i) (str_drop i s).

Definition str_concat (l : list string) : string := foldr String.append "" l.

Lemma str_app_nil_r s : s +:+ "" = s.
Proof. induction s as [|a s IH]; [done|]. by cbn; rewrite IH. Qed.
Lemma str_app_assoc s t u : s +:+ (t +:+ u) = (s +:+ t) +:+ u.
Proof. induction s as [|a s IH]; [done|]. cbn. by rewrite IH. Qed.
Lemma slen_app s t : slen (s +:+ t) = (slen s + slen t)%nat.
Proof. induction s as [|a s IH]; [done|]. cbn. by rewrite IH. Qed.
Lemma str_take_drop n s : str_take n s +:+ str_drop n s = s.
Proof.
  revert s. induction n as [|n IH]; intros [|a s]; try done. cbn. by rewrite IH.
Qed.
Lemma slen_take n s : slen (str_take n s) = (n `min` slen s)%nat.
Proof. revert s. induction n as [|n IH]; intros [|a s]; try done. cbn. by rewrite IH. Qed.
Lemma slen_drop n s : slen (str_drop n s) = (slen s - n)%nat.
Proof.
  revert s. induction n as [|n IH]; intros [|a s]; try done.
  cbn [str_drop slen]. rewrite IH. lia.
Qed.
Lemma str_drop_drop i j s : str_drop i (str_drop j s) = str_drop (j + i) s.
Proof. revert s. induction j as [|j IH]; intros [|a s]; try done; [by destruct i|apply IH]. Qed.
Lemma str_drop_ge n s : (slen s ≤ n)%nat → str_drop n s = "".
Proof. revert s. induction n; intros [|a s] ?; cbn in *; try done; [lia|auto with lia]. Qed.
Lemma str_take_ge n s : (slen s ≤ n)%nat → str_take n s = s.
Proof. revert s. induction n; intros [|a s] ?; cbn in *; try done; [lia|f_equal; auto with lia]. Qed.
Lemma str_take_take i j s : (i ≤ j)%nat → str_take i (str_take j s) = str_take i s.
Proof.
  revert i s. induction j as [|j IH]; intros i s Hij.
  { assert (i = 0%nat) as -> by lia. by destruct s. }
  destruct i as [|i]; [by destruct s|]. destruct s as [|c s]; simpl; [done|].
  f_equal. apply IH. lia.
Qed.

Lemma str_drop_app s t : str_drop (slen s) (s +:+ t) = t.
Proof. induction s as [|a s IH]; [done|]. apply IH. Qed.
Lemma str_take_app s t : str_take (slen s) (s +:+ t) = s.
Proof. induction s as [|a s IH]; [by destruct t|]. cbn. by rewrite IH. Qed.

Lemma str_concat_cons s l : str_concat (s :: l) = s +:+ str_concat l.
Proof. done. Qed.

Lemma str_concat_app l k : str_concat (l ++ k) = str_concat l +:+ str_concat k.
Proof.
  induction l as [|s l IH]; [done|]. cbn [str_concat foldr app].
  rewrite <-str_app_assoc. f_equal. apply IH.
Qed.

(** [strings.HasPrefix], [strings.TrimSuffix] *)
Definition has_prefix (s p : string) : bool := String.prefix p s.

Definition trim_suffix (s suffix : string) : string :=
  if (str_drop (slen s - slen suffix) s =? suffix)%string
  then str_take (slen s - slen suffix) s else s.

(** [strings.Split] with a one-byte separator: never empty. *)
Fixpoint split_on (c : ascii) (s : string) : list string :=
  match s with
  | "" => [""]
  | String a t =>
      if Ascii.eqb a c then "" :: split_on c t
      else match split_on c t with
           | [] => [String a ""]
           | h :: r => String a h :: r
           end
  end.

(** [strings.Join] *)
Abbreviation join := String.concat.

(** [strings.Cut] on a one-byte separator. *)
Fixpoint cut_on (c : ascii) (s : string) : option (string * string) :=
  match s with
  | "" => None
  | String a t =>
      if Ascii.eqb a c then Some ("", t)
      else match cut_on c t with
           | Some (before, after) => Some (String a before, after)
           | None => None
           end
  end.

(** [strings.Contains] for a one-byte needle, and [strings.IndexByte] as a cut. *)
Definition contains_byte (c : ascii) (s : string) : bool :=
  match cut_on c s with Some _ => true | None => false end.

Lemma split_on_nonempty c s : split_on c s ≠ [].
Proof. destruct s as [|a s]; simpl; [done|]. repeat case_match; done. Qed.

Lemma join_cons_cons sep s t l : join sep (s :: t :: l) = s +:+ sep +:+ join sep (t :: l).
Proof. done. Qed.

Lemma join_split c s : join (String c "") (split_on c s) = s.
Proof.
  induction s as [|a s IH]; [done|]. cbn [split_on].
  pose proof (split_on_nonempty c s). destruct (split_on c s) as [|h r] eqn:E; [done|].
  destruct (Ascii.eqb a c) eqn:Ec.
  - apply Ascii.eqb_eq in Ec as ->. rewrite join_cons_cons, IH. done.
  - destruct r as [|h' r]; cbn in *; by rewrite <-IH.
Qed.

Lemma cut_on_Some c s before after :
  cut_on c s = Some (before, after) → s = before +:+ String c after.
Proof.
  revert before. induction s as [|a s IH]; intros before; simpl; [done|].
  destruct (Ascii.eqb a c) eqn:Ec; intros.
  - apply Ascii.eqb_eq in Ec. by simplify_eq/=.
  - case_match; [|done]. case_match. simplify_eq/=. cbn. by rewrite (IH _ eq_refl).
Qed.

(** ** The bytewise order *)

Definition str_ltb (s t : string) : bool := String.ltb s t.

#[export] Instance str_ltb_weak : StrictWeak str_ltb.
Proof.
  assert (Hleb : ∀ x y, str_ltb x y = false ↔ String.leb y x = true).
  { intros x y. unfold str_ltb, String.ltb, String.leb.
    rewrite (String.compare_antisym x y); simpl. by destruct (String.compare y x). }
  split.
  - intros x y H. apply Hleb. unfold str_ltb, String.ltb, String.leb in *. by case_match.
  - intros x y z. rewrite !Hleb. intros H1 H2.
    apply Is_true_true. eapply (transitivity (R := String.le) (y := y)); by apply Is_true_true.
Qed.

Lemma str_ltb_anti x y : str_ltb x y = false → str_ltb y x = false → x = y.
Proof.
  unfold str_ltb, String.ltb. rewrite (String.compare_antisym y x).
  destruct (String.compare x y) eqn:E; try done. intros _ _. by apply String.compare_eq_iff.
Qed.

#[export] Instance str_ltb_separating : Separating str_ltb.
Proof. exact str_ltb_anti. Qed.

(** [sort.Strings] *)
Definition sort_strings (l : list string) : list string := sort_stable str_ltb l.

Lemma sort_strings_unique l1 l2 : l1 ≡ₚ l2 → sort_strings l1 = sort_strings l2.
Proof. apply sort_unique; [apply _|]. intros. by apply str_ltb_anti. Qed.

(** The sorted keys of a map, whatever order its iteration visits them in. *)
Definition sorted_keys {A} (m : gmap string A) : list string :=
  sort_strings (map_to_list m).*1.

Lemma elem_of_sorted_keys {A} (m : gmap string A) k : k ∈ sorted_keys m ↔ is_Some (m !! k).
Proof.
  unfold sorted_keys, sort_strings. rewrite sort_elem, list_elem_of_fmap. split.
  - intros [[k' v] [-> H]]. apply elem_of_map_to_list in H. by exists v.
  - intros [v H]. exists (k, v). by rewrite elem_of_map_to_list.
Qed.

Lemma NoDup_sorted_keys {A} (m : gmap string A) : NoDup (sorted_keys m).
Proof. unfold sorted_keys, sort_strings. rewrite sort_perm. apply NoDup_fst_map_to_list. Qed.

#[export] Hint Resolve NoDup_sorted_keys : relay.

(** ** Lines *)

Lemma split_on_app c s t :
  contains_byte c s = false → split_on c (s +:+ String c t) = s :: split_on c t.
Proof.
  unfold contains_byte. induction s as [|a s IH]; simpl.
  - by rewrite Ascii.eqb_refl.
  - destruct (Ascii.eqb a c) eqn:E; [done|]. intros H. rewrite IH; [done|].
    by destruct (cut_on c s) as [[]|].
Qed.

Lemma split_on_single c s : contains_byte c s = false → split_on c s = [s].
Proof.
  unfold contains_byte. induction s as [|a s IH]; simpl; [done|].
  destruct (Ascii.eqb a c) eqn:E; [done|]. intros H. rewrite IH; [done|].
  by destruct (cut_on c s) as [[]|].
Qed.

(** Lines ended by the separator and a rest without one. *)
Lemma split_on_lines c l rest :
  Forall (λ s, contains_byte c s = false) l → contains_byte c rest = false →
  split_on c (str_concat ((λ s, s +:+ String c "") <$> l) +:+ rest) = l ++ [rest].
Proof.
  intros Hl Hr. induction Hl as [|s l Hs _ IH]; [by apply split_on_single|].
  rewrite fmap_cons, str_concat_cons, <-!str_app_assoc. simpl.
  rewrite split_on_app by done. by rewrite IH.
Qed.
