(* ===== verification/Utf8.v ===== *)
(** * UTF-8: the conversions between Go strings and runes

    [decode] is the iteration Go performs for [[]rune(s)] and [range s]: each step consumes the bytes
    of one well-formed encoding, or one byte as U+FFFD when there is none. [encode_runes] is
    [string(runes)]. *)

From S2P Require Export GoString.
From Stdlib Require Import Ascii.
From Stdlib Require String.
From stdpp Require Import options.
Local Open Scope Z_scope.
#[local] Arguments String.append : simpl nomatch.

Definition byte (a : ascii) : Z := Z.of_N (N_of_ascii a).
Definition chr (z : Z) : ascii := ascii_of_N (Z.to_N z).

Lemma byte_chr z : 0 ≤ z < 256 → byte (chr z) = z.
Proof. intros. unfold byte, chr. rewrite N_ascii_embedding; lia. Qed.
Lemma byte_range a : 0 ≤ byte a < 256.
Proof. unfold byte. pose proof (N_ascii_bounded a). lia. Qed.

Definition RuneError : rune := 0xFFFD.

Definition valid_rune (r : rune) : bool :=
  ((0 <=? r) && (r <? 0xD800)) || ((0xE000 <=? r) && (r <=? 0x10FFFF)).

(** The next byte when it lies in [lo, hi]. *)
Definition next_in (lo hi : Z) (s : string) : option (Z * string) :=
  match s with
  | String a t => if (lo <=? byte a) && (byte a <=? hi) then Some (byte a, t) else None
  | "" => None
  end.

(** [utf8.DecodeRuneInString]: the first rune and its width in bytes. *)
Definition decode_first (s : string) : rune * nat :=
  match s with
  | "" => (RuneError, 0%nat)
  | String a t =>
      let b0 := byte a in
      if b0 <? 0x80 then (b0, 1%nat)
      else if (0xC2 <=? b0) && (b0 <=? 0xDF) then
        match next_in 0x80 0xBF t with
        | Some (b1, _) => ((b0 - 0xC0) * 64 + (b1 - 0x80), 2%nat)
        | None => (RuneError, 1%nat)
        end
      else if (0xE0 <=? b0) && (b0 <=? 0xEF) then
        match next_in (if b0 =? 0xE0 then 0xA0 else 0x80) (if b0 =? 0xED then 0x9F else 0xBF) t with
        | Some (b1, t1) =>
            match next_in 0x80 0xBF t1 with
            | Some (b2, _) => ((b0 - 0xE0) * 4096 + (b1 - 0x80) * 64 + (b2 - 0x80), 3%nat)
            | None => (RuneError, 1%nat)
            end
        | None => (RuneError, 1%nat)
        end
      else if (0xF0 <=? b0) && (b0 <=? 0xF4) then
        match next_in (if b0 =? 0xF0 then 0x90 else 0x80) (if b0 =? 0xF4 then 0x8F else 0xBF) t with
        | Some (b1, t1) =>
            match next_in 0x80 0xBF t1 with
            | Some (b2, t2) =>
                match next_in 0x80 0xBF t2 with
                | Some (b3, _) =>
                    ((b0 - 0xF0) * 262144 + (b1 - 0x80) * 4096 + (b2 - 0x80) * 64 + (b3 - 0x80), 4%nat)
                | None => (RuneError, 1%nat)
                end
            | None => (RuneError, 1%nat)
            end
        | None => (RuneError, 1%nat)
        end
      else (RuneError, 1%nat)
  end.

(** Each rune with the bytes it was read from; [skip] bytes belong to a rune already read. *)
Fixpoint decode_skip (skip : nat) (s : string) : list (rune * string) :=
  match s with
  | "" => []
  | String _ t =>
      match skip with
      | S k => decode_skip k t
      | O => let '(r, w) := decode_first s in (r, str_take w s) :: decode_skip (pred w) t
      end
  end.

Definition decode (s : string) : list (rune * string) := decode_skip 0 s.
Definition runes (s : string) : list rune := (decode s).*1.

(** [utf8.AppendRune] *)
Definition encode_rune (r : rune) : string :=
  if (0 <=? r) && (r <? 0x80) then String (chr r) ""
  else if (0x80 <=? r) && (r <? 0x800) then
    String (chr (0xC0 + r / 64)) (String (chr (0x80 + r mod 64)) "")
  else if valid_rune r && (r <? 0x10000) then
    String (chr (0xE0 + r / 4096)) (String (chr (0x80 + r / 64 mod 64))
      (String (chr (0x80 + r mod 64)) ""))
  else if valid_rune r then
    String (chr (0xF0 + r / 262144)) (String (chr (0x80 + r / 4096 mod 64))
      (String (chr (0x80 + r / 64 mod 64)) (String (chr (0x80 + r mod 64)) "")))
  else String (chr 0xEF) (String (chr 0xBF) (String (chr 0xBD) "")).

Definition encode_runes (rs : list rune) : string := str_concat (encode_rune <$> rs).

(** [utf8.ValidString] *)
Definition valid_utf8 (s : string) : bool := (encode_runes (runes s) =? s)%string.

(** [unicode.IsSpace] and [strings.TrimSpace] *)
Definition is_space (r : rune) : bool :=
  ((9 <=? r) && (r <=? 13)) || (r =? 0x20) || (r =? 0x85) || (r =? 0xA0) || (r =? 0x1680)
  || ((0x2000 <=? r) && (r <=? 0x200A)) || (r =? 0x2028) || (r =? 0x2029) || (r =? 0x202F)
  || (r =? 0x205F) || (r =? 0x3000).

Fixpoint drop_spaces (l : list (rune * string)) : list (rune * string) :=
  match l with
  | (r, c) :: l' => if is_space r then drop_spaces l' else l
  | [] => []
  end.

Definition trim_space (s : string) : string :=
  str_concat (reverse (drop_spaces (reverse (drop_spaces (decode s))))).*2.

Example decode_ex : runes (encode_runes [0x41; 0xE9; 0x20AC; 0x1F600]) = [0x41; 0xE9; 0x20AC; 0x1F600].
Proof. vm_compute. reflexivity. Qed.
Example decode_bad : runes (String (chr 0xC3) "A") = [RuneError; 0x41].
Proof. vm_compute. reflexivity. Qed.
Example trim_ex : trim_space "  a b	" = "a b".
Proof. vm_compute. reflexivity. Qed.

(** ** Decoding consumes every byte exactly once *)

Lemma decode_first_width s : s ≠ "" → (1 ≤ (decode_first s).2 ≤ slen s)%nat.
Proof.
  destruct s as [|a s]; [done|]. intros _. unfold decode_first, next_in.
  repeat case_match; simplify_eq/=; lia.
Qed.

Lemma decode_skip_drop k s : decode_skip k s = decode (str_drop k s).
Proof.
  revert k. induction s as [|a s IH]; intros [|k]; try done. apply IH.
Qed.

Lemma decode_step s :
  s ≠ "" →
  decode s = ((decode_first s).1, str_take (decode_first s).2 s)
             :: decode (str_drop (decode_first s).2 s).
Proof.
  intros Hs. pose proof (decode_first_width s Hs). destruct s as [|a s]; [done|].
  unfold decode at 1. cbn [decode_skip]. destruct (decode_first _) as [r [|w]]; simpl in *; [lia|].
  by rewrite decode_skip_drop.
Qed.

(** Induction along the decoding. *)
Lemma decode_ind (P : string → Prop) :
  P "" → (∀ s, s ≠ "" → P (str_drop (decode_first s).2 s) → P s) → ∀ s, P s.
Proof.
  intros H0 HS s. remember (slen s) as n eqn:E. revert s E.
  induction (lt_wf n) as [n _ IH]. intros s ->.
  destruct (decide (s = "")) as [->|Hs]; [done|].
  apply HS; [done|]. eapply IH; [|done].
  rewrite slen_drop. pose proof (decode_first_width s Hs). lia.
Qed.

Lemma decode_concat s : str_concat (decode s).*2 = s.
Proof.
  induction s as [|s Hs IH] using decode_ind; [done|].
  rewrite decode_step, fmap_cons, str_concat_cons, IH by done. apply str_take_drop.
Qed.

Lemma decode_chunk_nonempty s r c : (r, c) ∈ decode s → c ≠ "".
Proof.
  induction s as [|s Hs IH] using decode_ind; [by intros ?%not_elem_of_nil|].
  rewrite decode_step by done. intros [[= -> ->]|?]%elem_of_cons; [|auto].
  pose proof (decode_first_width s Hs). intros E%(f_equal slen).
  rewrite slen_take in E. simpl in E. lia.
Qed.

Lemma decode_length s : (length (decode s) ≤ slen s)%nat.
Proof.
  induction s as [|s Hs IH] using decode_ind; [done|].
  rewrite decode_step by done. simpl. rewrite slen_drop in IH.
  pose proof (decode_first_width s Hs). lia.
Qed.

(** ** Encoding and decoding are inverse on valid runes *)

Lemma next_in_chr lo hi z t :
  0 ≤ z < 256 → lo ≤ z ≤ hi → next_in lo hi (String (chr z) t) = Some (z, t).
Proof.
  intros Hz Hr. unfold next_in. rewrite byte_chr by done.
  by rewrite (proj2 (Z.leb_le lo z)), (proj2 (Z.leb_le z hi)) by lia.
Qed.

(** The bounds of every byte in the goal. *)
Ltac byte_bounds :=
  repeat match goal with
  | H : context [byte ?x] |- _ =>
      lazymatch goal with
      | _ : 0 <= byte x < 256 |- _ => fail
      | _ => pose proof (byte_range x)
      end
  end.

Lemma decode_first_valid s : valid_rune (decode_first s).1 = true.
Proof.
  destruct s as [|a s]; [done|]. unfold decode_first, next_in, valid_rune.
  pose proof (byte_range a).
  repeat case_match; simplify_eq/=; bool_prop; try done; byte_bounds; lia.
Qed.

Lemma runes_valid s : Forall (λ r, valid_rune r = true) (runes s).
Proof.
  unfold runes. induction s as [|s Hs IH] using decode_ind; [constructor|].
  rewrite decode_step by done. constructor; [apply decode_first_valid|done].
Qed.

Lemma encode_rune_nonempty r : encode_rune r ≠ "".
Proof. unfold encode_rune. by repeat case_match. Qed.

Lemma valid_rune_spec r :
  valid_rune r = true ↔ 0 ≤ r < 0xD800 ∨ 0xE000 ≤ r ≤ 0x10FFFF.
Proof. unfold valid_rune. lia. Qed.

(** Decide the integer comparisons of the goal, with division by constants. *)
Ltac decide_z :=
  repeat match goal with
  | |- context [?x <? ?y] =>
      first [rewrite (proj2 (Z.ltb_lt x y)) by (Z.to_euclidean_division_equations; lia)
            |rewrite (proj2 (Z.ltb_ge x y)) by (Z.to_euclidean_division_equations; lia)]
  | |- context [?x <=? ?y] =>
      first [rewrite (proj2 (Z.leb_le x y)) by (Z.to_euclidean_division_equations; lia)
            |rewrite (proj2 (Z.leb_gt x y)) by (Z.to_euclidean_division_equations; lia)]
  end.

Ltac next_chr :=
  rewrite next_in_chr;
    [|Z.to_euclidean_division_equations; lia
     |repeat case_match; bool_prop; Z.to_euclidean_division_equations; lia].

Lemma decode_first_encode r t :
  valid_rune r = true → decode_first (encode_rune r +:+ t) = (r, slen (encode_rune r)).
Proof.
  intros Hr. unfold encode_rune. rewrite Hr. apply valid_rune_spec in Hr.
  destruct (decide (r < 0x80)); [|destruct (decide (r < 0x800));
    [|destruct (decide (r < 0x10000))]].
  all: decide_z; cbn [andb]; unfold decode_first; cbn [String.append];
    rewrite byte_chr by (Z.to_euclidean_division_equations; lia); decide_z; cbn [andb].
  - done.
  - next_chr. cbn. f_equal. Z.to_euclidean_division_equations; lia.
  - next_chr. next_chr. cbn. f_equal. Z.to_euclidean_division_equations; lia.
  - next_chr. next_chr. next_chr. cbn. f_equal. Z.to_euclidean_division_equations; lia.
Qed.

Lemma decode_encode rs :
  Forall (λ r, valid_rune r = true) rs →
  decode (encode_runes rs) = (λ r, (r, encode_rune r)) <$> rs.
Proof.
  unfold encode_runes. induction 1 as [|r rs Hr _ IH]; [done|].
  rewrite fmap_cons, str_concat_cons. pose proof (encode_rune_nonempty r).
  rewrite decode_step by (by destruct (encode_rune r)).
  rewrite decode_first_encode by done; cbn [fst snd].
  by rewrite str_take_app, str_drop_app, IH.
Qed.

Lemma runes_encode rs : Forall (λ r, valid_rune r = true) rs → runes (encode_runes rs) = rs.
Proof.
  intros H. unfold runes. rewrite decode_encode by done.
  rewrite <-list_fmap_compose. apply list_fmap_id.
Qed.

Lemma runes_length s : length (runes s) = length (decode s).
Proof. apply length_fmap. Qed.

Lemma encode_runes_app r1 r2 : encode_runes (r1 ++ r2) = encode_runes r1 +:+ encode_runes r2.
Proof. unfold encode_runes. by rewrite fmap_app, str_concat_app. Qed.

#[export] Hint Resolve runes_valid : relay.
#[export] Hint Rewrite runes_length : relay_rw.
