(* ===== verification/GoTime.v ===== *)
(** * Instants, durations and the RFC 3339 parser

    A [time.Duration] is an int64 count of nanoseconds. A [time.Time] is the instant it denotes, in
    nanoseconds since the Unix epoch; its zero value is the first instant of year 1. A protobuf
    timestamp is an instant or absent ([nil]), and the getter of an absent one reads the epoch.
    [Parse_RFC3339Nano] is [time.Parse] for the layout the log reader uses, and [ParseDuration] is
    [time.ParseDuration], whose fractional part is float64 arithmetic. *)

From S2P Require Export Utf8.
From Stdlib Require Import Ascii.
From Stdlib Require String.
From Stdlib Require Import SpecFloat.
From stdpp Require Import options.
Local Open Scope Z_scope.

Abbreviation Duration := Z (only parsing).
Abbreviation Time := Z (only parsing).
Abbreviation Timestamp := (option Z) (only parsing).

Definition Nanosecond : Duration := 1.
Definition Millisecond : Duration := 1000000.
Definition Second : Duration := 1000000000.
Definition Minute : Duration := 60 * Second.
Definition Hour : Duration := 60 * Minute.

(** [time.Time{}] and its test *)
Definition zero_time : Time := - 62135596800 * Second.
Definition IsZero (t : Time) : bool := t =? zero_time.
Definition Before (t u : Time) : bool := t <? u.
Definition After (t u : Time) : bool := u <? t.

(** [timestamppb.New], [Timestamp.AsTime] *)
Definition timestamp_New (t : Time) : Timestamp := Some t.
Definition AsTime (t : Timestamp) : Time := default 0 t.

(** [durationpb]'s getter on an absent message *)
Definition AsDuration (d : option Duration) : Duration := default 0 d.

(** ** Calendar *)

Definition is_leap (year : Z) : bool :=
  (year mod 4 =? 0) && (negb (year mod 100 =? 0) || (year mod 400 =? 0)).

(** [daysIn] *)
Definition daysIn (month year : Z) : Z :=
  if month =? 2 then (if is_leap year then 29 else 28)
  else if (month =? 4) || (month =? 6) || (month =? 9) || (month =? 11) then 30 else 31.

(** Days since the Unix epoch of a proleptic Gregorian date. *)
Definition days_from_civil (year month day : Z) : Z :=
  let y := if month <=? 2 then year - 1 else year in
  let era := y / 400 in
  let yoe := y - era * 400 in
  let doy := (153 * (month + (if month <=? 2 then 9 else -3)) + 2) / 5 + day - 1 in
  let doe := yoe * 365 + yoe / 4 - yoe / 100 + doy in
  era * 146097 + doe - 719468.

(** [time.Date] in UTC *)
Definition Date (year month day hour min sec nsec : Z) : Time :=
  (days_from_civil year month day * 86400 + hour * 3600 + min * 60 + sec) * Second + nsec.

Example date_zero : Date 1 1 1 0 0 0 0 = zero_time.
Proof. reflexivity. Qed.
Example date_epoch : Date 1970 1 1 0 0 0 0 = 0.
Proof. reflexivity. Qed.
Example date_leap : Date 2024 2 29 12 30 15 5 = 1709209815 * Second + 5.
Proof. reflexivity. Qed.

(** ** [time.Parse(time.RFC3339Nano, _)] *)

Definition digit (a : ascii) : option Z :=
  if (0x30 <=? byte a) && (byte a <=? 0x39) then Some (byte a - 0x30) else None.

(** [getnum]: one or two digits, exactly two when [fixed]. *)
Definition getnum (s : string) (fixed : bool) : option (Z * string) :=
  match s with
  | String a t =>
      match digit a with
      | None => None
      | Some d =>
          match t with
          | String b u =>
              match digit b with
              | Some e => Some (d * 10 + e, u)
              | None => if fixed then None else Some (d, t)
              end
          | "" => if fixed then None else Some (d, t)
          end
      end
  | "" => None
  end.

(** The literal characters of the layout. *)
Definition skip_char (c : ascii) (s : string) : option string :=
  match s with
  | String a t => if Ascii.eqb a c then Some t else None
  | "" => None
  end.

Definition year4 (s : string) : option (Z * string) :=
  '(hi, s) ← getnum s true;
  '(lo, s) ← getnum s true;
  Some (hi * 100 + lo, s).

Fixpoint leading_digits (s : string) : list Z * string :=
  match s with
  | String a t =>
      match digit a with
      | Some d => let '(ds, r) := leading_digits t in (d :: ds, r)
      | None => ([], s)
      end
  | "" => ([], "")
  end.

Definition digits_value (ds : list Z) : Z := foldl (λ acc d, acc * 10 + d) 0 ds.

(** [parseNanoseconds]: digits past the ninth are dropped, missing ones are zeros. *)
Definition parse_nanos (ds : list Z) : Z :=
  let ds := take 9 ds in digits_value ds * 10 ^ (9 - Z.of_nat (length ds)).

(** The optional fraction: a period or a comma and at least one digit. *)
Definition fraction (s : string) : Z * string :=
  match s with
  | String a t =>
      if Ascii.eqb a "." || Ascii.eqb a "," then
        match leading_digits t with
        | ([], _) => (0, s)
        | (ds, r) => (parse_nanos ds, r)
        end
      else (0, s)
  | "" => (0, s)
  end.

(** The zone: [Z], or a sign with hours and minutes; seconds east of UTC. *)
Definition zone (s : string) : option (Z * string) :=
  match s with
  | String a t =>
      if Ascii.eqb a "Z" then Some (0, t)
      else
        '(hr, t) ← getnum t true;
        t ← skip_char ":" t;
        '(mm, t) ← getnum t true;
        if (24 <? hr) || (60 <? mm) then None
        else if Ascii.eqb a "+" then Some ((hr * 60 + mm) * 60, t)
        else if Ascii.eqb a "-" then Some (- ((hr * 60 + mm) * 60), t)
        else None
  | "" => None
  end.

Definition Parse_RFC3339Nano (value : string) : option Time :=
  '(year, s) ← year4 value;
  s ← skip_char "-" s;
  '(month, s) ← getnum s true;
  if (month <=? 0) || (12 <? month) then None else
  s ← skip_char "-" s;
  '(day, s) ← getnum s true;
  s ← skip_char "T" s;
  '(hour, s) ← getnum s false;
  if 24 <=? hour then None else
  s ← skip_char ":" s;
  '(min, s) ← getnum s true;
  if 60 <=? min then None else
  s ← skip_char ":" s;
  '(sec, s) ← getnum s true;
  if 60 <=? sec then None else
  let '(nsec, s) := fraction s in
  '(offset, s) ← zone s;
  if negb (s =? "")%string then None else
  if (day <? 1) || (daysIn month year <? day) then None else
  Some (Date year month day hour min sec nsec - offset * Second).

Example parse_ex : Parse_RFC3339Nano "2024-02-29T12:30:15.000000005Z" = Some (1709209815 * Second + 5).
Proof. vm_compute. reflexivity. Qed.
Example parse_zone : Parse_RFC3339Nano "1970-01-01T01:00:00.5+01:00" = Some 500000000.
Proof. vm_compute. reflexivity. Qed.
Example parse_bad : Parse_RFC3339Nano "2023-02-29T00:00:00Z" = None.
Proof. vm_compute. reflexivity. Qed.
Example parse_word : Parse_RFC3339Nano "panic:" = None.
Proof. vm_compute. reflexivity. Qed.

(** ** [time.ParseDuration] *)

Definition float64_of_Z (z : Z) : spec_float := binary_normalize 53 1024 z 0 false.
Definition float64_mul (x y : spec_float) : spec_float := SFmul 53 1024 x y.
Definition float64_div (x y : spec_float) : spec_float := SFdiv 53 1024 x y.

(** Truncation towards zero of a non-negative float. *)
Definition float64_trunc (x : spec_float) : Z :=
  match x with S754_finite false m e => Z.shiftl (Z.pos m) e | _ => 0 end.

(** [leadingInt]: the digits at the front, refused above 2^63. *)
Definition leadingInt (s : string) : option (Z * string) :=
  let '(ds, r) := leading_digits s in
  x ← foldl (λ acc d, x ← acc;
        if 2 ^ 63 / 10 <? x then None
        else let y := x * 10 + d in if 2 ^ 63 <? y then None else Some y) (Some 0) ds;
  Some (x, r).

(** [leadingFraction]: digits that would overflow are dropped; the scale counts the digits kept. *)
Definition leadingFraction (s : string) : Z * Z * string :=
  let '(ds, r) := leading_digits s in
  let '(x, k, _) := foldl (λ '(x, k, overflow) d,
        if overflow : bool then (x, k, true)
        else if (2 ^ 63 - 1) / 10 <? x then (x, k, true)
        else let y := x * 10 + d in
             if 2 ^ 63 <? y then (x, k, true) else (y, k + 1, false)) (0, 0, false) ds in
  (x, k, r).

Fixpoint unit_text (s : string) : string * string :=
  match s with
  | String a t =>
      if Ascii.eqb a "." || match digit a with Some _ => true | None => false end then ("", s)
      else let '(u, r) := unit_text t in (String a u, r)
  | "" => ("", "")
  end.

Definition unitMap (u : string) : option Z :=
  if (u =? "ns")%string then Some 1
  else if ((u =? "us") || (u =? encode_runes [0xB5; 0x73]) || (u =? encode_runes [0x3BC; 0x73]))%string
  then Some 1000
  else if (u =? "ms")%string then Some Millisecond
  else if (u =? "s")%string then Some Second
  else if (u =? "m")%string then Some Minute
  else if (u =? "h")%string then Some Hour
  else None.

(** One round of the loop: a number, its fraction, its unit. *)
Definition duration_term (s : string) : option (Z * string) :=
  match s with
  | "" => None
  | String a _ =>
      if negb (Ascii.eqb a "." || match digit a with Some _ => true | None => false end) then None else
      '(v, r) ← leadingInt s;
      let pre := negb (slen r =? slen s)%nat in
      let '(f, k, post, r') :=
        match r with
        | String b r1 =>
            if Ascii.eqb b "." then
              let '(f, k, r2) := leadingFraction r1 in (f, k, negb (slen r2 =? slen r1)%nat, r2)
            else (0, 0, false, r)
        | "" => (0, 0, false, r)
        end in
      if negb pre && negb post then None else
      let '(u, r'') := unit_text r' in
      if (u =? "")%string then None else
      unit ← unitMap u;
      if 2 ^ 63 / unit <? v then None else
      let v := v * unit in
      if 0 <? f then
        let v := wrap_u 64 (v + float64_trunc (float64_mul (float64_of_Z f)
          (float64_div (float64_of_Z unit) (float64_of_Z (10 ^ k))))) in
        if 2 ^ 63 <? v then None else Some (v, r'')
      else Some (v, r'')
  end.

(** Every round consumes a byte, so the length of the text is enough fuel ([duration_terms_fuel]). *)
Fixpoint duration_terms (fuel : nat) (s : string) (d : Z) : option Z :=
  match s with
  | "" => Some d
  | _ =>
      match fuel with
      | O => None
      | S fuel' =>
          '(v, r) ← duration_term s;
          let d := wrap_u 64 (d + v) in
          if 2 ^ 63 <? d then None else duration_terms fuel' r d
      end
  end.

Definition ParseDuration (s : string) : option Duration :=
  let '(neg, s) :=
    match s with
    | String a t =>
        if Ascii.eqb a "-" then (true, t) else if Ascii.eqb a "+" then (false, t) else (false, s)
    | "" => (false, s)
    end in
  if (s =? "0")%string then Some 0 else
  if (s =? "")%string then None else
  d ← duration_terms (slen s) s 0;
  if neg : bool then Some (- d)
  else if 2 ^ 63 - 1 <? d then None else Some d.

Example duration_ex1 : ParseDuration "1h15m30.918s" = Some (4530918 * Millisecond).
Proof. vm_compute. reflexivity. Qed.
Example duration_ex2 : ParseDuration "-.5m" = Some (- 30 * Second).
Proof. vm_compute. reflexivity. Qed.
Example duration_ex3 : ParseDuration "2" = None ∧ ParseDuration "1.x" = None ∧ ParseDuration "" = None.
Proof. vm_compute. done. Qed.

Lemma leading_digits_shorter s : (slen (leading_digits s).2 ≤ slen s)%nat.
Proof.
  induction s as [|a s IH]; [done|]. cbn. destruct (digit a); [|done]. destruct (leading_digits s). cbn in *. lia.
Qed.

Lemma unit_text_shorter s : (slen (unit_text s).1 + slen (unit_text s).2 = slen s)%nat.
Proof.
  induction s as [|a s IH]; [done|]. cbn. case_match; [done|]. destruct (unit_text s). cbn in *. lia.
Qed.

Lemma duration_term_shorter s v r : duration_term s = Some (v, r) → (slen r < slen s)%nat.
Proof.
  unfold duration_term. destruct s as [|a t]; [done|]. set (s := String a t). case_match; [done|].
  intros E. apply bind_Some in E as ([w r1] & E1 & E). cbv zeta in E.
  assert (Hr1 : (slen r1 ≤ slen s)%nat).
  { unfold leadingInt in E1. pose proof (leading_digits_shorter s). destruct (leading_digits s) as [ds u].
    apply bind_Some in E1 as (? & _ & [= _ <-]). done. }
  destruct (match r1 with "" => _ | _ => _ end) as [[[f k] post] r2] eqn:E2.
  assert (Hr2 : (slen r2 ≤ slen r1)%nat).
  { destruct r1 as [|b u]; [by injection E2 as <- <- <- <-|].
    destruct (Ascii.eqb b "."); [|by injection E2 as <- <- <- <-].
    pose proof (leading_digits_shorter u) as Hu. unfold leadingFraction in E2.
    destruct (leading_digits u) as [ds u']. destruct (foldl _ _ ds) as [[x y] z]. injection E2 as <- <- <- <-.
    cbn in *. lia. }
  destruct (_ && _); [done|]. pose proof (unit_text_shorter r2) as Hu. destruct (unit_text r2) as [u r3].
  destruct (String.eqb_spec u ""); [done|]. assert (r3 = r) as ->.
  { apply bind_Some in E as (? & _ & E). repeat (case_match; [done|]). by repeat case_match; simplify_eq. }
  destruct u; [done|]. cbn in *. lia.
Qed.

(** The loop never runs out: it consumes a byte a round. *)
Lemma duration_terms_fuel f g s d : (slen s ≤ f)%nat → (slen s ≤ g)%nat → duration_terms f s d = duration_terms g s d.
Proof.
  revert g s d. induction f as [|f IH]; intros [|g] [|a s] d Hf Hg; cbn in Hf, Hg; try lia; try done.
  cbn [duration_terms]. destruct (duration_term (String a s)) as [[v r]|] eqn:E; [|done].
  apply duration_term_shorter in E. cbn in E |- *. case_match; [done|]. apply IH; lia.
Qed.

Lemma duration_terms_range fuel s d v :
  0 ≤ d ≤ 2 ^ 63 → duration_terms fuel s d = Some v → 0 ≤ v ≤ 2 ^ 63.
Proof.
  revert s d. induction fuel as [|fuel IH]; intros [|a s] d Hd Hv; cbn [duration_terms] in Hv;
    simplify_eq; [done..|].
  destruct (duration_term (String a s)) as [[w r]|]; [|done]. simpl in Hv. case_hyp Hv. bool_prop.
  eapply IH; [|done]. unfold wrap_u in *.
  pose proof (Z.mod_pos_bound (d + w) (2 ^ 64)). lia.
Qed.

(** A parsed duration fits int64. *)
Lemma ParseDuration_range s d : ParseDuration s = Some d → - 2 ^ 63 ≤ d < 2 ^ 63.
Proof.
  unfold ParseDuration. destruct (match s with "" => _ | _ => _ end) as [neg t].
  case_match; [intros [= <-]; lia|]. case_match; [done|].
  destruct (duration_terms _ _ _) as [v|] eqn:E; simpl; [|done].
  apply duration_terms_range in E; [|lia].
  destruct neg; [intros [= <-]; lia|]. case_match; [done|]. bool_prop. intros [= <-]. lia.
Qed.
