(* ===== verification/Decimal.v ===== *)
(** * Decimal digits

    Unsigned numbers as Go prints them in base ten (strconv.AppendUint, the loop of time's fmtInt), and
    what reading the digits back yields. *)

From S2P Require Import Prelude GoString Utf8 GoTime.
From Stdlib Require Import Ascii.
From Stdlib Require String.
From stdpp Require Import options.
Local Open Scope Z_scope.
#[local] Arguments String.append : simpl nomatch.

Fixpoint uint_digits (fuel : nat) (n : Z) : list Z :=
  match fuel with
  | O => []
  | S f => if n <? 10 then [n] else uint_digits f (n / 10) ++ [n mod 10]
  end.

Definition digit_text (ds : list Z) : string := String.string_of_list_ascii ((λ d, chr (48 + d)) <$> ds).

(** [strconv.AppendUint] in base ten; twenty digits hold every uint64. *)
Definition FormatUint (n : Z) : string := digit_text (uint_digits 20 n).

Lemma digit_chr d : 0 ≤ d < 10 → digit (chr (48 + d)) = Some d.
Proof. intros Hd. unfold digit. rewrite byte_chr by lia. decide_z. cbn [andb]. f_equal. lia. Qed.

Lemma uint_digits_spec fuel n : 0 ≤ n < 10 ^ Z.of_nat fuel → (0 < fuel)%nat →
  Forall (λ d, 0 ≤ d < 10) (uint_digits fuel n) ∧ digits_value (uint_digits fuel n) = n
  ∧ ∃ d ds, uint_digits fuel n = d :: ds ∧ (d = 0 → n = 0 ∧ ds = []).
Proof.
  revert n. induction fuel as [|fuel IH]; intros n Hn Hf; [lia|]. cbn [uint_digits].
  destruct (Z.ltb_spec n 10) as [Hlt|Hge].
  { split; [repeat constructor; lia|]. split; [unfold digits_value; cbn; lia|]. by exists n, []. }
  assert (0 < fuel)%nat. { destruct fuel; [cbn in Hn; lia|lia]. }
  rewrite Nat2Z.inj_succ, Z.pow_succ_r in Hn by lia.
  destruct (IH (n / 10)) as (H1 & H2 & d & ds & H3 & H4); [Z.to_euclidean_division_equations; lia|done|].
  split_and!.
  - apply Forall_app. split; [done|]. repeat constructor; Z.to_euclidean_division_equations; lia.
  - unfold digits_value in *. rewrite foldl_snoc, H2. Z.to_euclidean_division_equations; lia.
  - rewrite H3. exists d, (ds ++ [n mod 10]). split; [done|]. intros [? _]%H4. Z.to_euclidean_division_equations; lia.
Qed.

Lemma digit_text_cons d ds : digit_text (d :: ds) = String (chr (48 + d)) (digit_text ds).
Proof. done. Qed.

(** The text does not go on with a digit. *)
Definition digits_end (s : string) : bool :=
  match s with "" => true | String a _ => match digit a with Some _ => false | None => true end end.

Lemma leading_digits_text ds s : Forall (λ d, 0 ≤ d < 10) ds → digits_end s = true →
  leading_digits (digit_text ds +:+ s) = (ds, s).
Proof.
  intros Hds Hs. induction Hds as [|d ds Hd _ IH].
  - change (digit_text [] +:+ s) with s. destruct s as [|a s]; [done|]. cbn in Hs |- *. by destruct (digit a).
  - rewrite digit_text_cons. change (String ?a ?t +:+ ?u) with (String a (t +:+ u)).
    cbn [leading_digits]. by rewrite digit_chr, IH.
Qed.

Lemma slen_digit_text ds : slen (digit_text ds) = length ds.
Proof. induction ds as [|d ds IH]; [done|]. rewrite digit_text_cons. cbn. by rewrite IH. Qed.

Lemma digits_value_snoc ds d : digits_value (ds ++ [d]) = digits_value ds * 10 + d.
Proof. unfold digits_value. by rewrite foldl_snoc. Qed.

Lemma digits_value_range ds : Forall (λ d, 0 ≤ d < 10) ds → 0 ≤ digits_value ds < 10 ^ Z.of_nat (length ds).
Proof.
  induction ds as [|d ds IH] using rev_ind; [done|]. intros [Hds [Hd _]%Forall_cons]%Forall_app.
  specialize (IH Hds).
  rewrite digits_value_snoc, length_app, Nat2Z.inj_add, Z.pow_add_r by lia.
  change (10 ^ Z.of_nat (length [d])) with 10. lia.
Qed.

Lemma digit_text_app l k : digit_text (l ++ k) = digit_text l +:+ digit_text k.
Proof. induction l as [|d l IH]; [done|]. cbn [app]. by rewrite !digit_text_cons, IH. Qed.
