(* ===== verification/Float64.v ===== *)
(** * Exact products of float64

    [time.ParseDuration] scales a fraction in float64 arithmetic (GoTime). Where every value involved is an
    integer below 2^53 nothing is rounded away: what is proved here of the specification of the standard
    library's floats. *)

From S2P Require Import Prelude GoTime.
From Stdlib Require Import SpecFloat.
From stdpp Require Import options.
Local Open Scope Z_scope.

Lemma digits2_log2 p : Z.pos (digits2_pos p) = Z.log2 (Z.pos p) + 1.
Proof.
  induction p as [p IH|p IH|]; [| |done]; cbn [digits2_pos]; rewrite Pos2Z.inj_succ, IH.
  - rewrite Pos2Z.inj_xI, Z.log2_succ_double; lia.
  - rewrite Pos2Z.inj_xO, Z.log2_double; lia.
Qed.

Lemma Zdigits2_log2 z : 0 < z → Zdigits2 z = Z.log2 z + 1.
Proof. destruct z; try lia. intros _. apply digits2_log2. Qed.

Definition exact (m : Z) : shr_record := {| shr_m := m; shr_r := false; shr_s := false |}.

(** Shifting out zeros loses nothing. *)
Lemma shr_exact n q : 0 < q → iter_pos shr_1 n (exact (q * 2 ^ Z.pos n)) = exact q.
Proof.
  revert q. induction n as [n IH|n IH|]; intros q Hq; cbn [iter_pos].
  - replace (q * 2 ^ Z.pos n~1) with (2 * (q * 2 ^ Z.pos n * 2 ^ Z.pos n)).
    2: { replace (Z.pos n~1) with (Z.pos n + Z.pos n + 1) by lia. rewrite !Z.pow_add_r by lia. lia. }
    assert (Hm : 0 < q * 2 ^ Z.pos n * 2 ^ Z.pos n) by lia.
    assert (shr_1 (exact (2 * (q * 2 ^ Z.pos n * 2 ^ Z.pos n))) = exact (q * 2 ^ Z.pos n * 2 ^ Z.pos n)) as ->.
    { by destruct (q * 2 ^ Z.pos n * 2 ^ Z.pos n). }
    rewrite IH by lia. by apply IH.
  - replace (q * 2 ^ Z.pos n~0) with (q * 2 ^ Z.pos n * 2 ^ Z.pos n).
    2: { replace (Z.pos n~0) with (Z.pos n + Z.pos n) by lia. rewrite Z.pow_add_r by lia. lia. }
    rewrite IH by lia. by apply IH.
  - rewrite Z.mul_comm. by destruct q.
Qed.

(** The float of an integer: its mantissa and exponent denote it. *)
Definition denotes (x : spec_float) (v : Z) : Prop :=
  ∃ p D, x = S754_finite false p (- D) ∧ 0 ≤ D ∧ Z.pos p = v * 2 ^ D.

Lemma denotes_trunc x v : denotes x v → float64_trunc x = v.
Proof.
  intros (p & D & -> & HD & Hp). cbn [float64_trunc]. rewrite Hp, Z.shiftl_div_pow2 by lia. rewrite Z.opp_involutive. apply Z.div_mul. lia.
Qed.

(** Rounding an integer below 2^53, however its mantissa is scaled. *)
Lemma round_denotes v D m :
  0 < v < 2 ^ 53 → 0 ≤ D → m = v * 2 ^ D → denotes (binary_round_aux 53 1024 false m (- D) loc_Exact) v.
Proof.
  intros Hv HD ->. set (t := 52 - Z.log2 v).
  assert (Ht : 0 ≤ t) by (unfold t; assert (Z.log2 v < 53) by (apply Z.log2_lt_pow2; lia); lia).
  assert (Hf : ∀ k, 0 ≤ k → fexp 53 1024 (Zdigits2 (v * 2 ^ k) + - k) = - t).
  { intros k Hk. rewrite Zdigits2_log2 by lia. rewrite Z.log2_mul_pow2 by lia. unfold fexp, emin, t.
    assert (0 ≤ Z.log2 v) by apply Z.log2_nonneg. lia. }
  unfold binary_round_aux, shr_fexp. change (shr_record_of_loc ?m loc_Exact) with (exact m). rewrite Hf by done.
  destruct (Z_lt_le_dec t D) as [Hlt|Hle].
  - unfold shr at 1. destruct (- t - - D) as [|n|n] eqn:En; try lia.
    assert (v * 2 ^ D = v * 2 ^ t * 2 ^ Z.pos n) as ->
      by (rewrite <- En, <- Z.mul_assoc, <- Z.pow_add_r by lia; do 2 f_equal; lia).
    rewrite shr_exact by lia. cbn [shr_m exact loc_of_shr_record round_nearest_even].
    change (shr_record_of_loc ?m loc_Exact) with (exact m).
    replace (- D + Z.pos n) with (- t) by lia. rewrite Hf by done. rewrite Z.sub_diag. cbn [shr shr_m exact].
    destruct (v * 2 ^ t) as [|p|p] eqn:Ep; try lia. rewrite (proj2 (Z.leb_le _ _)) by lia.
    exists p, t. by rewrite Ep.
  - unfold shr at 1. destruct (- t - - D) as [|n|n] eqn:En; try lia.
    all: cbn [shr_m exact loc_of_shr_record round_nearest_even];
      change (shr_record_of_loc ?m loc_Exact) with (exact m); rewrite Hf by done; rewrite En; cbn [shr shr_m exact];
      destruct (v * 2 ^ D) as [|p|p] eqn:Ep; try lia; rewrite (proj2 (Z.leb_le _ _)) by lia;
      exists p, D; by rewrite Ep.
Qed.

Lemma iter_xO d p : Z.pos (Pos.iter xO p d) = Z.pos p * 2 ^ Z.pos d.
Proof.
  induction d as [|d IH] using Pos.peano_ind; [cbn; lia|].
  rewrite Pos.iter_succ, Pos2Z.inj_xO, IH, Pos2Z.inj_succ, Z.pow_succ_r by lia. lia.
Qed.

Lemma float64_of_Z_denotes v : 0 < v < 2 ^ 53 → denotes (float64_of_Z v) v.
Proof.
  intros Hv. unfold float64_of_Z. destruct v as [|p|p]; try lia. cbn [binary_normalize]. unfold binary_round.
  set (k := fexp 53 1024 (Z.pos (digits2_pos p) + 0)).
  assert (Hk : k = Z.log2 (Z.pos p) - 52).
  { unfold k, fexp, emin. rewrite digits2_log2. assert (0 ≤ Z.log2 (Z.pos p)) by apply Z.log2_nonneg. lia. }
  assert (Z.log2 (Z.pos p) < 53) by (apply Z.log2_lt_pow2; lia).
  unfold shl_align. rewrite Z.sub_0_r. destruct k as [|k'|d]; [|lia|].
  - change 0 with (- 0) at 1. apply round_denotes; [done|lia|lia].
  - change (Z.neg d) with (- Z.pos d). apply round_denotes; [done|lia|apply iter_xO].
Qed.

Lemma float64_mul_denotes x y v w :
  denotes x v → denotes y w → 0 < v * w < 2 ^ 53 → denotes (float64_mul x y) (v * w).
Proof.
  intros (p & D & -> & HD & Hp) (q & E & -> & HE & Hq) Hvw. unfold float64_mul. cbn [SFmul xorb].
  replace (- D + - E) with (- (D + E)) by lia. apply round_denotes; [done|lia|].
  rewrite Pos2Z.inj_mul, Hp, Hq, Z.pow_add_r by lia. lia.
Qed.
