(* ===== verification/Durations.v ===== *)
(** * Durations as Go prints them (time.Duration.String)

    What the relay writes where it names a duration to its operator, and that reading the text back with
    [time.ParseDuration] (GoTime) gives the very duration, float64 arithmetic included. *)

From S2P Require Import Prelude GoString Utf8 GoTime Decimal Float64.
From Stdlib Require Import Ascii.
From Stdlib Require String.
From Stdlib Require Import SpecFloat.
From stdpp Require Import options.
Local Open Scope Z_scope.
#[local] Arguments String.append : simpl nomatch.

(** [fmtFrac]'s loop: from the last digit on, trailing zeros are not printed. *)
Fixpoint fmtFrac_loop (prec : nat) (print : bool) (v : Z) (acc : string) : bool * Z * string :=
  match prec with
  | O => (print, v, acc)
  | S prec' =>
      let digit := v mod 10 in
      let print := print || negb (digit =? 0) in
      fmtFrac_loop prec' print (v / 10) (if print then String (chr (48 + digit)) acc else acc)
  end.

Definition fmtFrac (v : Z) (prec : nat) (acc : string) : Z * string :=
  let '(print, v, acc) := fmtFrac_loop prec false v acc in (v, if print : bool then String "." acc else acc).

Definition fmtInt (v : Z) (acc : string) : string := FormatUint v +:+ acc.

(** "µs" *)
Definition micros : string := encode_runes [0xB5; 0x73].

(** [Duration.String] *)
Definition Duration_String (d : Duration) : string :=
  let u := wrap_u 64 (Z.abs d) in
  let text :=
    if u <? Second then
      if u =? 0 then "0s"
      else if u <? 1000 then fmtInt u "ns"
      else let '(v, acc) := if u <? Millisecond then fmtFrac u 3 micros else fmtFrac u 6 "ms" in fmtInt v acc
    else
      let '(v, acc) := fmtFrac u 9 "s" in
      let acc := fmtInt (v mod 60) acc in
      let v := v / 60 in
      if v =? 0 then acc else
      let acc := fmtInt (v mod 60) (String "m" acc) in
      let v := v / 60 in
      if v =? 0 then acc else fmtInt v (String "h" acc) in
  if d <? 0 then String "-" text else text.

Example String_ex1 : Duration_String (2 * Second) = "2s" ∧ Duration_String (1500 * Millisecond) = "1.5s"
  ∧ Duration_String 0 = "0s" ∧ Duration_String (250 * Millisecond) = "250ms".
Proof. by vm_compute. Qed.
Example String_ex2 : Duration_String (90 * Minute + 1) = "1h30m0.000000001s"
  ∧ Duration_String (-1100) = "-1.1" +:+ micros ∧ Duration_String (- 2 ^ 63) = "-2562047h47m16.854775808s".
Proof. by vm_compute. Qed.

(** ** The fraction *)

Definition frac_text (ds : list Z) (acc : string) : string :=
  match ds with [] => acc | _ => String "." (digit_text ds +:+ acc) end.

Lemma fmtFrac_loop_spec prec print v acc : 0 ≤ v →
  ∃ ds, fmtFrac_loop prec print v acc
      = (print || negb (v mod 10 ^ Z.of_nat prec =? 0), v / 10 ^ Z.of_nat prec, digit_text ds +:+ acc)
    ∧ Forall (λ d, 0 ≤ d < 10) ds ∧ (length ds ≤ prec)%nat ∧ (print = true → length ds = prec)
    ∧ (print = false → v mod 10 ^ Z.of_nat prec = 0 → ds = [])
    ∧ digits_value ds * 10 ^ (Z.of_nat prec - Z.of_nat (length ds)) = v mod 10 ^ Z.of_nat prec.
Proof.
  revert print v acc. induction prec as [|prec IH]; intros print v acc Hv.
  { exists []. change (10 ^ Z.of_nat 0) with 1. rewrite Z.mod_1_r, Z.div_1_r. cbn. rewrite orb_false_r. by split_and!. }
  cbn [fmtFrac_loop]. set (digit := v mod 10). set (print' := print || negb (digit =? 0)).
  destruct (IH print' (v / 10) (if print' then String (chr (48 + digit)) acc else acc))
    as (ds & E & Hds & Hl & Hp & Hz & Hval); [Z.to_euclidean_division_equations; lia|].
  rewrite E. assert (Hpow : 10 ^ Z.of_nat (S prec) = 10 * 10 ^ Z.of_nat prec)
    by (rewrite Nat2Z.inj_succ, Z.pow_succ_r; lia).
  assert (Hpos : 0 < 10 ^ Z.of_nat prec) by lia.
  assert (Hmod : v mod 10 ^ Z.of_nat (S prec) = (v / 10) mod 10 ^ Z.of_nat prec * 10 + digit).
  { rewrite Hpow, Z.rem_mul_r by lia. unfold digit. lia. }
  assert (Hdiv : v / 10 / 10 ^ Z.of_nat prec = v / 10 ^ Z.of_nat (S prec)) by (rewrite Hpow, Z.div_div by lia; done).
  assert (Hd : 0 ≤ digit < 10) by (unfold digit; apply Z.mod_pos_bound; lia).
  pose proof (Z.mod_pos_bound (v / 10) (10 ^ Z.of_nat prec) Hpos) as Hb.
  rewrite Hdiv, Hmod. exists (if print' then ds ++ [digit] else ds). destruct print' eqn:Ep.
  - assert (Hnz : print || negb ((v / 10) mod 10 ^ Z.of_nat prec * 10 + digit =? 0) = true).
    { unfold print' in Ep. destruct print; [done|]. cbn in Ep |- *. bool_prop. apply negb_true_iff, Z.eqb_neq. lia. }
    rewrite Hnz. split_and!.
    + f_equal. by rewrite digit_text_app, <- str_app_assoc.
    + apply Forall_app. split; [done|]. by apply Forall_singleton.
    + rewrite length_app. cbn. specialize (Hp eq_refl). lia.
    + intros _. rewrite length_app. cbn. specialize (Hp eq_refl). lia.
    + intros -> H. exfalso. cbn in Hnz. rewrite H in Hnz. done.
    + specialize (Hp eq_refl). rewrite digits_value_snoc, length_app. cbn [length].
      rewrite Hp in *. rewrite Z.sub_diag in Hval.
      replace (Z.of_nat (S prec) - Z.of_nat (prec + 1)) with 0 by lia. lia.
  - apply orb_false_iff in Ep as [-> Ed]. bool_prop. rewrite Ed, Z.add_0_r in *. cbn [orb]. split_and!.
    + do 2 f_equal. f_equal. apply eq_true_iff_eq. rewrite !Z.eqb_eq. lia.
    + done.
    + lia.
    + done.
    + intros _ H. apply Hz; [done|]. lia.
    + rewrite <- Hval. replace (Z.of_nat (S prec) - Z.of_nat (length ds)) with
        (Z.of_nat prec - Z.of_nat (length ds) + 1) by lia.
      rewrite Z.pow_add_r by lia. lia.
Qed.

Lemma fmtFrac_spec v prec acc : 0 ≤ v →
  ∃ ds, fmtFrac v prec acc = (v / 10 ^ Z.of_nat prec, frac_text ds acc)
    ∧ Forall (λ d, 0 ≤ d < 10) ds ∧ (length ds ≤ prec)%nat
    ∧ digits_value ds * 10 ^ (Z.of_nat prec - Z.of_nat (length ds)) = v mod 10 ^ Z.of_nat prec.
Proof.
  intros Hv. unfold fmtFrac. destruct (fmtFrac_loop_spec prec false v acc Hv) as (ds & -> & Hds & Hl & _ & Hz & Hval).
  exists ds. split_and!; [|done..]. f_equal. cbn [orb]. destruct (Z.eqb_spec (v mod 10 ^ Z.of_nat prec) 0) as [E|E].
  - by rewrite Hz.
  - destruct ds; [|done]. cbn in Hval. lia.
Qed.

(** ** Reading one term back *)

Definition starts_digit (s : string) : bool :=
  match s with "" => true | String a _ => match digit a with Some _ => true | None => false end end.

Lemma unit_text_app u rest : unit_text u = (u, "") → starts_digit rest = true → unit_text (u +:+ rest) = (u, rest).
Proof.
  intros Hu Hr. induction u as [|a u IH].
  - change ("" +:+ rest) with rest. destruct rest as [|a rest]; [done|]. cbn in Hr |- *.
    destruct (digit a); [|done]. by rewrite orb_true_r.
  - change (String a u +:+ rest) with (String a (u +:+ rest)). cbn [unit_text] in Hu |- *.
    destruct (_ || _); [done|]. destruct (unit_text u) as [u' r']. injection Hu as -> ->. by rewrite IH.
Qed.

Lemma digits_from_ge ds x : 0 ≤ x → Forall (λ d, 0 ≤ d < 10) ds → x ≤ foldl (λ acc d, acc * 10 + d) x ds.
Proof.
  intros Hx Hds. revert x Hx. induction Hds as [|d ds Hd _ IH]; intros x Hx; [cbn; lia|]. cbn [foldl].
  specialize (IH (x * 10 + d) ltac:(lia)). lia.
Qed.

Lemma leadingInt_text ds s :
  Forall (λ d, 0 ≤ d < 10) ds → digits_value ds ≤ 2 ^ 63 → digits_end s = true →
  leadingInt (digit_text ds +:+ s) = Some (digits_value ds, s).
Proof.
  intros Hds Hv Hs. unfold leadingInt. rewrite leading_digits_text by done. unfold digits_value in *.
  assert (H : ∀ x, 0 ≤ x → foldl (λ acc d, acc * 10 + d) x ds ≤ 2 ^ 63 →
    foldl (λ acc d, x ← acc; if 2 ^ 63 / 10 <? x then None
             else let y := x * 10 + d in if 2 ^ 63 <? y then None else Some y) (Some x) ds
    = Some (foldl (λ acc d, acc * 10 + d) x ds)).
  { clear Hv. induction Hds as [|d ds Hd Hds IH]; intros x Hx Hv; [done|]. cbn [foldl mbind option_bind] in *.
    pose proof (digits_from_ge ds (x * 10 + d) ltac:(lia) Hds).
    rewrite (proj2 (Z.ltb_ge _ _)) by (Z.to_euclidean_division_equations; lia).
    rewrite (proj2 (Z.ltb_ge _ _)) by lia. apply IH; lia. }
  by rewrite H.
Qed.

Lemma leadingFraction_text ds s :
  Forall (λ d, 0 ≤ d < 10) ds → (length ds ≤ 9)%nat → digits_end s = true →
  leadingFraction (digit_text ds +:+ s) = (digits_value ds, Z.of_nat (length ds), s).
Proof.
  intros Hds Hl Hs. unfold leadingFraction. rewrite leading_digits_text by done.
  assert (Hv : digits_value ds < 10 ^ 9).
  { apply digits_value_range in Hds as [_ Hlt]. eapply Z.lt_le_trans; [exact Hlt|]. apply Z.pow_le_mono_r; lia. }
  unfold digits_value in *.
  assert (H : ∀ x k, 0 ≤ x → foldl (λ acc d, acc * 10 + d) x ds < 10 ^ 9 →
    foldl (λ '(x, k, overflow) d,
        if overflow : bool then (x, k, true)
        else if (2 ^ 63 - 1) / 10 <? x then (x, k, true)
        else let y := x * 10 + d in
             if 2 ^ 63 <? y then (x, k, true) else (y, k + 1, false)) (x, k, false) ds
    = (foldl (λ acc d, acc * 10 + d) x ds, k + Z.of_nat (length ds), false)).
  { clear Hv Hl. induction Hds as [|d ds Hd Hds IH]; intros x k Hx Hv; [cbn; by rewrite Z.add_0_r|].
    cbn [foldl length] in *. pose proof (digits_from_ge ds (x * 10 + d) ltac:(lia) Hds).
    rewrite (proj2 (Z.ltb_ge _ _)) by (Z.to_euclidean_division_equations; lia).
    rewrite (proj2 (Z.ltb_ge _ _)) by lia. rewrite IH by lia. do 2 f_equal. lia. }
  by rewrite H.
Qed.

(** The units the printer uses. *)
Definition unit_of (u : string) (n : Z) : Prop :=
  (u = "ns" ∧ n = 1) ∨ (u = micros ∧ n = 1000) ∨ (u = "ms" ∧ n = Millisecond) ∨ (u = "s" ∧ n = Second)
  ∨ (u = "m" ∧ n = Minute) ∨ (u = "h" ∧ n = Hour).

Lemma unit_of_reads u n : unit_of u n →
  unit_text u = (u, "") ∧ unitMap u = Some n ∧ u ≠ "" ∧ digits_end u = true ∧ 0 < n
  ∧ match u with String a _ => Ascii.eqb a "." = false | "" => True end.
Proof. intros [[-> ->]|[[-> ->]|[[-> ->]|[[-> ->]|[[-> ->]|[-> ->]]]]]]; by vm_compute. Qed.

(** The ratio of two powers of ten up to the ninth, the divisor not above the other, is an exact float. *)
Definition ratio_exact (p k : Z) : bool :=
  match float64_div (float64_of_Z (10 ^ p)) (float64_of_Z (10 ^ k)) with
  | S754_finite false m e => (e <=? 0) && (Z.pos m =? 10 ^ (p - k) * 2 ^ (- e))
  | _ => false
  end.

Lemma ratios_exact : forallb (λ p, forallb (ratio_exact p) (seqZ 0 (p + 1))) (seqZ 0 10) = true.
Proof. vm_compute. reflexivity. Qed.

Lemma ratio_denotes p k : 0 ≤ k ≤ p → p ≤ 9 →
  denotes (float64_div (float64_of_Z (10 ^ p)) (float64_of_Z (10 ^ k))) (10 ^ (p - k)).
Proof.
  intros Hk Hp. pose proof ratios_exact as H. rewrite forallb_forall in H.
  specialize (H p). rewrite <- list_elem_of_In, elem_of_seqZ in H. specialize (H ltac:(lia)).
  rewrite forallb_forall in H. specialize (H k). rewrite <- list_elem_of_In, elem_of_seqZ in H.
  specialize (H ltac:(lia)). unfold ratio_exact in H. destruct (float64_div _ _) as [| | |[] m e]; try done.
  bool_prop. exists m, (- e). rewrite Z.opp_involutive. by split_and!; [|lia|].
Qed.

(** A fraction of a decimal unit is scaled without rounding. *)
Lemma fraction_exact f k p :
  0 < f < 10 ^ 9 → 0 ≤ k ≤ p → p ≤ 9 → f < 10 ^ k →
  float64_trunc (float64_mul (float64_of_Z f) (float64_div (float64_of_Z (10 ^ p)) (float64_of_Z (10 ^ k))))
  = f * 10 ^ (p - k).
Proof.
  intros Hf Hk Hp Hlt. apply denotes_trunc, float64_mul_denotes.
  - apply float64_of_Z_denotes. lia.
  - by apply ratio_denotes.
  - split; [lia|]. apply Z.lt_le_trans with (10 ^ k * 10 ^ (p - k)); [apply Z.mul_lt_mono_pos_r; lia|].
    rewrite <- Z.pow_add_r by lia. replace (k + (p - k)) with p by lia.
    apply Z.le_trans with (10 ^ 9); [apply Z.pow_le_mono_r; lia|lia].
Qed.

(** ** One printed term, read back *)

(** The unit is the given power of ten, where there is a fraction. *)
Definition scales (ds : list Z) (n : Z) : Prop :=
  ds = [] ∨ ∃ p, n = 10 ^ Z.of_nat p ∧ (length ds ≤ p ≤ 9)%nat.

(** What the term of [i], fraction [ds] and unit [n] says. *)
Definition term_value (i : Z) (ds : list Z) (n : Z) : Z :=
  i * n + digits_value ds * (n / 10 ^ Z.of_nat (length ds)).

(** The fraction of a term, as the parser's second step reads it. *)
Lemma frac_read ds u n rest :
  Forall (λ d, 0 ≤ d < 10) ds → unit_of u n → scales ds n →
  match frac_text ds (u +:+ rest) with
  | String b r1 => if Ascii.eqb b "." then
        let '(f, k, r2) := leadingFraction r1 in (f, k, negb (slen r2 =? slen r1)%nat, r2)
      else (0, 0, false, frac_text ds (u +:+ rest))
  | "" => (0, 0, false, frac_text ds (u +:+ rest))
  end = (digits_value ds, Z.of_nat (length ds), negb (bool_decide (ds = [])), u +:+ rest).
Proof.
  intros Hds Hu Hsc. destruct (unit_of_reads u n Hu) as (_ & _ & Hne & Hend & _ & Hdot).
  destruct ds as [|e ds]; cbn [frac_text].
  - destruct u as [|a u]; [done|]. change (String a u +:+ rest) with (String a (u +:+ rest)).
    cbv iota beta in Hdot |- *. by rewrite Hdot.
  - rewrite Ascii.eqb_refl, leadingFraction_text; [|done| |by destruct u].
    2: { destruct Hsc as [?|(p & _ & ?)]; [done|lia]. }
    do 3 f_equal. rewrite (slen_app (digit_text _)), slen_digit_text.
    by rewrite (proj2 (Nat.eqb_neq _ _)) by (cbn [length]; lia).
Qed.

Lemma duration_term_text i ds u n rest :
  0 ≤ i → Forall (λ d, 0 ≤ d < 10) ds → unit_of u n → scales ds n → term_value i ds n ≤ 2 ^ 63 →
  starts_digit rest = true →
  duration_term (fmtInt i (frac_text ds (u +:+ rest))) = Some (term_value i ds n, rest).
Proof.
  intros Hi Hds Hu Hsc Hv Hrest. destruct (unit_of_reads u n Hu) as (Hut & Hum & Hne & Hend & Hn & _).
  assert (Hfrac : 0 ≤ digits_value ds * (n / 10 ^ Z.of_nat (length ds))).
  { pose proof (digits_value_range ds Hds). assert (0 ≤ n / 10 ^ Z.of_nat (length ds)) by (apply Z.div_pos; lia). lia. }
  assert (Hin : i * n ≤ 2 ^ 63) by (unfold term_value in Hv; lia).
  assert (Hi63 : i ≤ 2 ^ 63) by nia.
  destruct (uint_digits_spec 20 i) as (Hid & Hiv & d & ids & Ei & _); [split; [lia|]|lia|].
  { apply Z.le_lt_trans with (2 ^ 63); [done|]. by vm_compute. }
  assert (Hend' : digits_end (frac_text ds (u +:+ rest)) = true).
  { destruct ds; [|done]. cbn [frac_text]. by destruct u. }
  set (r := frac_text ds (u +:+ rest)) in *. set (s := fmtInt i r).
  assert (Hs : leadingInt s = Some (i, r)).
  { unfold s, fmtInt, FormatUint. rewrite leadingInt_text by (rewrite ?Hiv; done). by rewrite Hiv. }
  assert (Hlen : (slen r =? slen s)%nat = false).
  { apply Nat.eqb_neq. unfold s, fmtInt, FormatUint. rewrite slen_app, slen_digit_text, Ei. cbn [length]. lia. }
  assert (Hhead : ∃ t, s = String (chr (48 + d)) t).
  { unfold s, fmtInt, FormatUint. rewrite Ei, digit_text_cons. by eexists. }
  destruct Hhead as [t Hhead]. assert (Hd : digit (chr (48 + d)) = Some d).
  { apply digit_chr. rewrite Ei in Hid. by apply Forall_cons in Hid as [? _]. }
  unfold duration_term. rewrite Hs. rewrite Hhead at 1. rewrite Hd, orb_true_r. cbn [negb mbind option_bind].
  rewrite Hlen. cbn [negb andb].
  pose proof (frac_read ds u n rest Hds Hu Hsc) as Hr. fold r in Hr.
  rewrite Hr, unit_text_app by done. rewrite (proj2 (String.eqb_neq u "")) by done. rewrite Hum. cbn [mbind option_bind].
  rewrite (proj2 (Z.ltb_ge _ _)) by (apply Z.div_le_lower_bound; lia).
  destruct (Z.ltb_spec 0 (digits_value ds)) as [Hpos|Hz].
  - destruct Hsc as [->|(p & -> & Hp)]; [done|].
    pose proof (digits_value_range ds Hds) as [_ Hlt].
    assert (H9 : 10 ^ Z.of_nat (length ds) ≤ 10 ^ 9) by (apply Z.pow_le_mono_r; lia).
    rewrite fraction_exact by lia.
    assert (Et : i * 10 ^ Z.of_nat p + digits_value ds * 10 ^ (Z.of_nat p - Z.of_nat (length ds))
      = term_value i ds (10 ^ Z.of_nat p)).
    { unfold term_value. do 2 f_equal. rewrite Z.pow_sub_r by lia. done. }
    rewrite Et. unfold wrap_u. assert (0 ≤ i * 10 ^ Z.of_nat p) by (apply Z.mul_nonneg_nonneg; lia).
    rewrite Z.mod_small by (unfold term_value in *; lia). by rewrite (proj2 (Z.ltb_ge _ _)) by lia.
  - assert (digits_value ds = 0) as E0 by (pose proof (digits_value_range ds Hds); lia).
    unfold term_value. by rewrite E0, Z.mul_0_l, Z.add_0_r.
Qed.

(** ** The round trip *)

Lemma duration_terms_step s v r d fuel :
  duration_term s = Some (v, r) → 0 ≤ d → 0 ≤ v → d + v ≤ 2 ^ 63 → (slen s ≤ fuel)%nat →
  duration_terms fuel s d = duration_terms (slen r) r (d + v).
Proof.
  intros Ht Hd Hv Hs Hf. pose proof (duration_term_shorter _ _ _ Ht) as Hr. destruct s as [|a t]; [done|].
  destruct fuel as [|fuel]; [cbn in Hf; lia|]. cbn [duration_terms]. rewrite Ht. cbn [mbind option_bind].
  unfold wrap_u. rewrite Z.mod_small by lia. rewrite (proj2 (Z.ltb_ge _ _)) by lia.
  apply duration_terms_fuel; [cbn in Hf, Hr; lia|lia].
Qed.

Lemma fmtInt_head i acc : 0 ≤ i < 10 ^ 20 → ∃ a t e, fmtInt i acc = String a t ∧ digit a = Some e.
Proof.
  intros Hi. destruct (uint_digits_spec 20 i Hi ltac:(lia)) as (Hid & _ & d & ids & E & _).
  rewrite E in Hid. apply Forall_cons in Hid as [Hd _].
  unfold fmtInt, FormatUint. rewrite E, digit_text_cons. eexists _, _, d. split; [reflexivity|by apply digit_chr].
Qed.

Lemma fmtInt_longer i acc : 0 ≤ i < 10 ^ 20 → acc ≠ "" → fmtInt i acc ≠ "0".
Proof.
  intros Hi Ha. destruct (uint_digits_spec 20 i Hi ltac:(lia)) as (_ & _ & d & ids & E & _).
  intros H%(f_equal slen). unfold fmtInt, FormatUint in H. rewrite slen_app, slen_digit_text, E in H. cbn in H.
  destruct acc; [done|]. cbn in H. lia.
Qed.

Section terms.
Context (i : Z) (u : string) (n d : Z).
Context (Hi : 0 ≤ i) (Hu : unit_of u n) (Hd : 0 ≤ d).

Lemma unit_positive : 0 < n.
Proof using Hu. by destruct (unit_of_reads u n Hu) as (_ & _ & _ & _ & ? & _). Qed.

(** The last term of a text. *)
Lemma reads_last ds :
  Forall (λ d, 0 ≤ d < 10) ds → scales ds n → d + term_value i ds n ≤ 2 ^ 63 →
  duration_terms (slen (fmtInt i (frac_text ds u))) (fmtInt i (frac_text ds u)) d = Some (d + term_value i ds n).
Proof using Hi Hu Hd.
  intros Hds Hsc Hv. pose proof unit_positive as Hn. assert (0 ≤ term_value i ds n).
  { unfold term_value. pose proof (digits_value_range ds Hds).
    assert (0 ≤ n / 10 ^ Z.of_nat (length ds)) by (apply Z.div_pos; lia). nia. }
  rewrite (duration_terms_step _ (term_value i ds n) "" d); [done| |done|done|done|done].
  rewrite <- (str_app_nil_r u) at 1. by apply duration_term_text; [..|lia|].
Qed.

(** A whole number of units before the rest. *)
Lemma reads_more rest :
  starts_digit rest = true → d + i * n ≤ 2 ^ 63 →
  duration_terms (slen (fmtInt i (u +:+ rest))) (fmtInt i (u +:+ rest)) d = duration_terms (slen rest) rest (d + i * n).
Proof using Hi Hu Hd.
  intros Hr Hv. pose proof unit_positive as Hn. assert (0 ≤ i * n) by nia.
  apply duration_terms_step; [|done..].
  pose proof (duration_term_text i [] u n rest Hi (Forall_nil_2 _) Hu (or_introl eq_refl)) as H'.
  unfold term_value in H'. change (digits_value []) with 0 in H'. rewrite Z.mul_0_l, Z.add_0_r in H'.
  apply H'; [lia|done].
Qed.
End terms.

Lemma fmtInt_starts i acc : 0 ≤ i < 10 ^ 20 → starts_digit (fmtInt i acc) = true.
Proof. intros Hi. destruct (fmtInt_head i acc Hi) as (a & t & e & -> & He). cbn. by rewrite He. Qed.

(** What a text without a sign says. *)
Definition says (text : string) (u : Z) : Prop :=
  duration_terms (slen text) text 0 = Some u
  ∧ (∃ a t e, text = String a t ∧ digit a = Some e) ∧ text ≠ "0".

Lemma fraction_value u p ds :
  digits_value ds * 10 ^ (Z.of_nat p - Z.of_nat (length ds)) = u mod 10 ^ Z.of_nat p → (length ds ≤ p)%nat →
  digits_value ds * (10 ^ Z.of_nat p / 10 ^ Z.of_nat (length ds)) = u mod 10 ^ Z.of_nat p.
Proof. intros <- Hl. by rewrite <- Z.pow_sub_r by lia. Qed.

(** Below a second: one unit, chosen by size. *)
Lemma small_says u p text n :
  0 < u < Second → n = 10 ^ Z.of_nat p → (p ≤ 9)%nat → unit_of text n →
  says (let '(v, acc) := fmtFrac u p text in fmtInt v acc) u.
Proof.
  intros Hu -> Hp Htext. destruct (fmtFrac_spec u p text) as (ds & -> & Hds & Hl & Hval); [lia|].
  assert (Hpos : 0 < 10 ^ Z.of_nat p) by lia.
  assert (Hq : 0 ≤ u / 10 ^ Z.of_nat p ≤ u) by (split; [apply Z.div_pos|apply Z.div_le_upper_bound]; nia).
  assert (Hv : term_value (u / 10 ^ Z.of_nat p) ds (10 ^ Z.of_nat p) = u).
  { unfold term_value. rewrite (fraction_value u) by done. pose proof (Z.div_mod u (10 ^ Z.of_nat p)). lia. }
  unfold Second in Hu. split_and!.
  - rewrite (reads_last _ _ (10 ^ Z.of_nat p) 0); rewrite ?Hv; try done; try lia. right. by exists p.
  - apply fmtInt_head. lia.
  - apply fmtInt_longer; [lia|]. destruct ds; [|done]. by destruct (unit_of_reads _ _ Htext) as (_ & _ & ? & _).
Qed.

(** What a text adds to the terms before it. *)
Definition adds (text : string) (w : Z) : Prop :=
  0 ≤ w ∧ starts_digit text = true
  ∧ ∀ d, 0 ≤ d → d + w ≤ 2 ^ 63 → duration_terms (slen text) text d = Some (d + w).

Lemma adds_seconds i ds w :
  0 ≤ i < 10 ^ 20 → 0 ≤ w → Forall (λ d, 0 ≤ d < 10) ds → (length ds ≤ 9)%nat →
  digits_value ds * (Second / 10 ^ Z.of_nat (length ds)) = w → adds (fmtInt i (frac_text ds "s")) (i * Second + w).
Proof.
  intros Hi Hw Hds Hl Hfrac. split; [unfold Second; lia|]. split; [by apply fmtInt_starts|]. intros d Hd Hle.
  rewrite (reads_last i "s" Second d); unfold term_value; rewrite ?Hfrac; try done; try lia.
  - right. right. right. by left.
  - right. by exists 9%nat.
Qed.

Lemma adds_unit i u n rest w :
  0 ≤ i < 10 ^ 20 → unit_of u n → adds rest w → adds (fmtInt i (u +:+ rest)) (i * n + w).
Proof.
  intros Hi Hu (Hw & Hs & Hr). pose proof (unit_positive u n Hu) as Hn. assert (0 ≤ i * n) by nia.
  split; [lia|]. split; [by apply fmtInt_starts|]. intros d Hd Hle.
  rewrite (reads_more i u n d) by (done || lia). rewrite Hr by lia. f_equal. lia.
Qed.

Lemma adds_says i acc w u :
  0 ≤ i < 10 ^ 20 → acc ≠ "" → adds (fmtInt i acc) w → w = u → u ≤ 2 ^ 63 → says (fmtInt i acc) u.
Proof.
  intros Hi Ha (_ & _ & Hr) -> Hu. split_and!; [by rewrite Hr by lia|by apply fmtInt_head|by apply fmtInt_longer].
Qed.

(** From a second on: hours, minutes, and seconds with their fraction. *)
Lemma large_says u : Second ≤ u ≤ 2 ^ 63 →
  says (let '(v, acc) := fmtFrac u 9 "s" in
        let acc := fmtInt (v mod 60) acc in
        if v / 60 =? 0 then acc else
        let acc := fmtInt ((v / 60) mod 60) (String "m" acc) in
        if v / 60 / 60 =? 0 then acc else fmtInt (v / 60 / 60) (String "h" acc)) u.
Proof.
  intros Hu. destruct (fmtFrac_spec u 9 "s") as (ds & -> & Hds & Hl & Hval); [unfold Second in Hu; lia|].
  change (10 ^ Z.of_nat 9) with Second in Hval |- *.
  assert (Hfrac : digits_value ds * (Second / 10 ^ Z.of_nat (length ds)) = u mod Second) by by apply (fraction_value u 9).
  pose proof (Z.mod_pos_bound u Second ltac:(done)) as Hmod. pose proof (Z.div_mod u Second ltac:(done)) as Hq.
  assert (Hqb : 0 ≤ u / Second < 10 ^ 19) by (unfold Second in *; Z.to_euclidean_division_equations; lia).
  set (q := u / Second) in *. pose proof (Z.mod_pos_bound q 60 ltac:(done)) as Hq60.
  pose proof (Z.div_mod q 60 ltac:(done)) as Hm. assert (0 ≤ q / 60 < 10 ^ 19) by (Z.to_euclidean_division_equations; lia).
  set (m := q / 60) in *. pose proof (Z.mod_pos_bound m 60 ltac:(done)) as Hm60.
  pose proof (Z.div_mod m 60 ltac:(done)) as Hh. assert (0 ≤ m / 60 < 10 ^ 19) by (Z.to_euclidean_division_equations; lia).
  assert (Hs : adds (fmtInt (q mod 60) (frac_text ds "s")) (q mod 60 * Second + u mod Second))
    by (apply adds_seconds; done || lia).
  cbv zeta. destruct (Z.eqb_spec m 0) as [E0|E0].
  { eapply adds_says; [lia|by destruct ds|exact Hs|lia|lia]. }
  change (String "m" ?x) with ("m" +:+ x). change (String "h" ?x) with ("h" +:+ x).
  assert (Hmin : adds (fmtInt (m mod 60) ("m" +:+ fmtInt (q mod 60) (frac_text ds "s")))
    (m mod 60 * Minute + (q mod 60 * Second + u mod Second)))
    by (apply adds_unit; [lia|right; right; right; right; by left|done]).
  unfold Minute in Hmin. destruct (Z.eqb_spec (m / 60) 0) as [E1|E1].
  { eapply adds_says; [lia|done|exact Hmin|lia|lia]. }
  assert (Hhour : unit_of "h" Hour) by by do 5 right.
  eapply adds_says; [lia|done|by eapply (adds_unit (m / 60) "h" Hour); [lia| |exact Hmin]| |lia].
  unfold Hour, Minute. lia.
Qed.

Lemma Duration_String_says u : 0 ≤ u ≤ 2 ^ 63 → says (Duration_String u) u.
Proof.
  intros Hu. unfold Duration_String. rewrite Z.abs_eq by lia. unfold wrap_u. rewrite Z.mod_small by lia.
  rewrite (proj2 (Z.ltb_ge u 0)) by lia. cbv zeta. destruct (Z.ltb_spec u Second) as [Hs|Hs]; [|apply large_says; lia].
  destruct (Z.eqb_spec u 0) as [->|Hz]; [by vm_compute; split_and!; [|eexists _, _, _|]|].
  destruct (Z.ltb_spec u 1000) as [Hn|Hn]; [|destruct (Z.ltb_spec u Millisecond) as [Hm|Hm]].
  - apply (small_says u 0 "ns" 1); [lia|done|lia|by left].
  - apply (small_says u 3 micros 1000); [lia|done|lia|]. right. by left.
  - apply (small_says u 6 "ms" Millisecond); [lia|done|lia|]. right. right. by left.
Qed.

(** Reading what is printed gives the duration, for every int64. *)
Lemma ParseDuration_String d : - 2 ^ 63 ≤ d < 2 ^ 63 → ParseDuration (Duration_String d) = Some d.
Proof.
  intros Hd. assert (Hsigned : ∀ u, 0 ≤ u ≤ 2 ^ 63 → Duration_String u ≠ "" ∧ Duration_String u ≠ "0"
    ∧ duration_terms (slen (Duration_String u)) (Duration_String u) 0 = Some u).
  { intros u Hu. destruct (Duration_String_says u Hu) as (? & (a & t & e & E & _) & ?). by rewrite E in *. }
  unfold ParseDuration. destruct (Z.ltb_spec d 0) as [Hneg|Hpos].
  - assert (E : Duration_String d = String "-" (Duration_String (- d))).
    { unfold Duration_String. rewrite Z.abs_opp, (proj2 (Z.ltb_lt d 0)), (proj2 (Z.ltb_ge (- d) 0)) by lia. done. }
    rewrite E. cbn [Ascii.eqb Bool.eqb]. destruct (Hsigned (- d)) as (H1 & H2 & H3); [lia|].
    rewrite (proj2 (String.eqb_neq _ _) H1), (proj2 (String.eqb_neq _ _) H2), H3. cbn. f_equal. lia.
  - destruct (Hsigned d) as (H1 & H2 & H3); [lia|]. destruct (Duration_String_says d) as (_ & (a & t & e & E & He) & _); [lia|].
    rewrite E in *. assert (Ascii.eqb a "-" = false ∧ Ascii.eqb a "+" = false) as [-> ->].
    { split; apply Ascii.eqb_neq; intros ->; by vm_compute in He. }
    rewrite (proj2 (String.eqb_neq _ _) H1), (proj2 (String.eqb_neq _ _) H2), H3. cbn [mbind option_bind].
    by rewrite (proj2 (Z.ltb_ge _ _)) by lia.
Qed.
