(* ===== verification/Regexp.v ===== *)
(** * Regular expressions with Go's leftmost-first search

    The relay's patterns are Go (RE2) regular expressions. [re] is their syntax after parsing: a
    character class, the assertions, sequence, preference-ordered alternative and a greedy or lazy
    star. [bt] is the backtracking reading of leftmost-first matching, [find] the search of
    [MatchString] and [FindAllStringIndex] the iteration over all matches. [den] is the denotation:
    what a pattern may consume; [bt_sound] and [bt_complete] say that the search finds a match exactly
    where the denotation has one.

    The star's body must not match the empty string ([wf_re]), as in every pattern of the relay: for
    other bodies Go's own rule about empty iterations is not modelled. *)

From S2P Require Export Utf8.
From Stdlib Require Import Ascii.
From Stdlib Require String.
From stdpp Require Import options.
Local Open Scope Z_scope.

(** A character class: ranges of runes, possibly negated. *)
Record cls := Cls { cls_neg : bool; cls_ranges : list (Z * Z) }.

Definition in_cls (c : cls) (r : rune) : bool :=
  xorb (cls_neg c) (existsb (λ '(lo, hi), (lo <=? r) && (r <=? hi)) (cls_ranges c)).

Inductive re : Type :=
  | REps
  | RClass (c : cls)
  | RBegin                     (* ^ : the beginning of the text *)
  | REnd                       (* $ : the end of the text *)
  | RWordB                     (* \b : an ASCII word boundary *)
  | RCat (r s : re)
  | RAlt (r s : re)            (* r is preferred *)
  | RStar (greedy : bool) (r : re).

(** Derived forms. *)
Definition ropt (r : re) : re := RAlt r REps.
Definition rplus (g : bool) (r : re) : re := RCat r (RStar g r).
Fixpoint rrep (n : nat) (r : re) : re :=
  match n with O => REps | S n' => RCat r (rrep n' r) end.
Definition rcats (l : list re) : re := foldr RCat REps l.
Fixpoint ralts (r : re) (l : list re) : re :=
  match l with [] => r | s :: l' => RAlt r (ralts s l') end.

Definition rchar (z : rune) : re := RClass (Cls false [(z, z)]).
Definition rlit (s : string) : re := rcats (rchar <$> runes s).

(** Whether a pattern may match the empty string; assertions count as such. *)
Fixpoint nullable (r : re) : bool :=
  match r with
  | REps | RBegin | REnd | RWordB | RStar _ _ => true
  | RClass _ => false
  | RCat r s => nullable r && nullable s
  | RAlt r s => nullable r || nullable s
  end.

Fixpoint wf_re (r : re) : bool :=
  match r with
  | RCat r s | RAlt r s => wf_re r && wf_re s
  | RStar _ r => negb (nullable r) && wf_re r
  | _ => true
  end.

(** The text ahead: each rune with its width in bytes. *)
Abbreviation input := (list (rune * nat)).

Definition word_char (r : rune) : bool :=
  ((48 <=? r) && (r <=? 57)) || ((65 <=? r) && (r <=? 90)) || (r =? 95)
  || ((97 <=? r) && (r <=? 122)).

Definition word_at (o : option rune) : bool :=
  match o with Some r => word_char r | None => false end.

Definition peek (inp : input) : option rune := fst <$> head inp.

(** Whether an assertion holds between the rune before and the text ahead. *)
Definition at_boundary (prev : option rune) (inp : input) : bool :=
  xorb (word_at prev) (word_at (peek inp)).

Section backtrack.
Context {X : Type}.
Abbreviation cont := (option rune → input → option X).

(** Iterate [body], each time on strictly less text. *)
Fixpoint star_loop (body : option rune → input → cont → option X) (greedy : bool) (fuel : nat)
    (prev : option rune) (inp : input) (k : cont) : option X :=
  match fuel with
  | O => k prev inp
  | S f =>
      let again := body prev inp
        (λ p i, if (length i <? length inp)%nat then star_loop body greedy f p i k else None) in
      if greedy
      then match again with Some x => Some x | None => k prev inp end
      else match k prev inp with Some x => Some x | None => again end
  end.

Fixpoint bt (r : re) (prev : option rune) (inp : input) (k : cont) {struct r} : option X :=
  match r with
  | REps => k prev inp
  | RClass c =>
      match inp with
      | (x, _) :: inp' => if in_cls c x then k (Some x) inp' else None
      | [] => None
      end
  | RBegin => match prev with None => k prev inp | Some _ => None end
  | REnd => match inp with [] => k prev inp | _ :: _ => None end
  | RWordB => if at_boundary prev inp then k prev inp else None
  | RCat r s => bt r prev inp (λ p i, bt s p i k)
  | RAlt r s =>
      match bt r prev inp k with
      | Some x => Some x
      | None => bt s prev inp k
      end
  | RStar greedy r => star_loop (bt r) greedy (length inp) prev inp k
  end.
End backtrack.

(** ** The search *)

Fixpoint widths (i : input) : nat :=
  match i with [] => 0 | (_, w) :: i' => w + widths i' end.

(** Where the match of [r] that starts here ends, if there is one. *)
Definition match_here (r : re) (prev : option rune) (inp : input) : option (option rune * input) :=
  bt r prev inp (λ p i, Some (p, i)).

(** The leftmost match: the text where it starts, and where it ends. *)
Fixpoint find (r : re) (prev : option rune) (inp : input)
    : option (input * (option rune * input)) :=
  match match_here r prev inp with
  | Some stop => Some (inp, stop)
  | None =>
      match inp with
      | [] => None
      | (x, _) :: inp' => find r (Some x) inp'
      end
  end.

Definition to_input (s : string) : input := (λ '(r, c), (r, slen c)) <$> decode s.

(** [Regexp.MatchString] *)
Definition MatchString (r : re) (s : string) : bool :=
  match find r None (to_input s) with Some _ => true | None => false end.

(** [Regexp.FindAllStringIndex(s, -1)]: successive matches; an empty one right after the previous
    match is not reported, and the search then moves one rune on. *)
Fixpoint find_all (fuel : nat) (r : re) (prev : option rune) (inp : input) (pos : nat)
    (prev_end : option nat) : list (nat * nat) :=
  match fuel with
  | O => []
  | S f =>
      match find r prev inp with
      | None => []
      | Some (start, (p, rest)) =>
          let b := (pos + (widths inp - widths start))%nat in
          let e := (pos + (widths inp - widths rest))%nat in
          if (e =? pos)%nat then
            (if bool_decide (prev_end = Some b) then [] else [(b, e)])
            ++ match inp with
               | [] => []
               | (x, w) :: inp' => find_all f r (Some x) inp' (pos + w) (Some e)
               end
          else (b, e) :: find_all f r p rest e (Some e)
      end
  end.

Definition FindAllStringIndex (r : re) (s : string) : list (nat * nat) :=
  let i := to_input s in find_all (S (length i)) r None i 0 None.

(** ** The denotation *)

Inductive den : re → option rune → input → option rune → input → Prop :=
  | DEps p i : den REps p i p i
  | DClass c p x w i : in_cls c x = true → den (RClass c) p ((x, w) :: i) (Some x) i
  | DBegin i : den RBegin None i None i
  | DEnd p : den REnd p [] p []
  | DWordB p i : at_boundary p i = true → den RWordB p i p i
  | DCat r s p i p1 i1 p2 i2 : den r p i p1 i1 → den s p1 i1 p2 i2 → den (RCat r s) p i p2 i2
  | DAltL r s p i p1 i1 : den r p i p1 i1 → den (RAlt r s) p i p1 i1
  | DAltR r s p i p1 i1 : den s p i p1 i1 → den (RAlt r s) p i p1 i1
  | DStarO g r p i : den (RStar g r) p i p i
  | DStarS g r p i p1 i1 p2 i2 :
      den r p i p1 i1 → den (RStar g r) p1 i1 p2 i2 → den (RStar g r) p i p2 i2.
#[export] Hint Constructors den : relay.

(** The rune before a position, given the one before the text consumed so far. *)
Definition prev_of (prev : option rune) (pre : input) : option rune :=
  foldl (λ _ '(x, _), Some x) prev pre.

Lemma prev_of_app prev k1 k2 : prev_of prev (k1 ++ k2) = prev_of (prev_of prev k1) k2.
Proof. apply foldl_app. Qed.

Lemma den_consumes r p i p' i' : den r p i p' i' → ∃ k, i = k ++ i' ∧ p' = prev_of p k.
Proof.
  induction 1; try (by exists []); try done.
  - by eexists [_].
  - destruct IHden1 as (k1 & -> & ->), IHden2 as (k2 & -> & ->).
    exists (k1 ++ k2). by rewrite prev_of_app, app_assoc.
  - destruct IHden1 as (k1 & -> & ->), IHden2 as (k2 & -> & ->).
    exists (k1 ++ k2). by rewrite prev_of_app, app_assoc.
Qed.

Lemma den_suffix r p i p' i' : den r p i p' i' → i' `suffix_of` i.
Proof. intros (k & -> & _)%den_consumes. by exists k. Qed.

Lemma suffix_length_le {A} (l k : list A) : l `suffix_of` k → (length l ≤ length k)%nat.
Proof. intros [x ->]. rewrite length_app. lia. Qed.

Lemma den_progress r p i p' i' :
  den r p i p' i' → nullable r = false → (length i' < length i)%nat.
Proof.
  induction 1; simpl; intros Hn; try done; [lia|..];
    repeat match goal with H : den _ _ _ _ _ |- _ =>
      apply den_suffix, suffix_length_le in H end.
  - apply andb_false_iff in Hn as [Hn|Hn]; naive_solver lia.
  - bool_prop; auto.
  - bool_prop; auto.
Qed.

Lemma bt_sound {X} r p i (k : option rune → input → option X) x :
  bt r p i k = Some x → ∃ p' i', den r p i p' i' ∧ k p' i' = Some x.
Proof.
  revert p i k x.
  induction r as [|c| | | |r IHr s IHs|r IHr s IHs|g r IH]; intros p i k x; simpl.
  1-5: repeat case_match; intros; simplify_eq; eauto with relay.
  - intros (p1 & i1 & H1 & (p2 & i2 & H2 & Hk)%IHs)%IHr. eauto with relay.
  - case_match eqn:E; [intros [= <-]; apply IHr in E as (?&?&?&?)|intros (?&?&?&?)%IHs];
      eauto with relay.
  - generalize (length i). intros n. revert p i x. induction n as [|n IHn]; intros p i x; simpl.
    { eauto with relay. }
    assert (∀ y, bt r p i (λ p' i', if (length i' <? length i)%nat
        then star_loop (bt r) g n p' i' k else None) = Some y →
      ∃ p' i', den (RStar g r) p i p' i' ∧ k p' i' = Some y) as Hagain.
    { intros y (p1 & i1 & H1 & Hk)%IH. case_match; [|done].
      apply IHn in Hk as (p2 & i2 & ? & ?). eauto with relay. }
    destruct g; case_match eqn:E; intros Hx; simplify_eq; eauto with relay.
Qed.

Lemma bt_complete {X} r p i p' i' (k : option rune → input → option X) :
  wf_re r = true → den r p i p' i' → k p' i' ≠ None → bt r p i k ≠ None.
Proof.
  revert p i p' i' k.
  induction r as [|c| | | |r IHr s IHs|r IHr s IHs|g r IH]; intros p i p' i' k Hwf Hd Hk; simpl in *.
  1-5: inv Hd; simpl; repeat case_match; congruence.
  - bool_prop. inv Hd. eapply IHr; eauto.
  - bool_prop. case_match eqn:E; [done|]. inv Hd; [|by eapply IHs; eauto].
    exfalso. by eapply IHr in E; eauto.
  - bool_prop. remember (RStar g r) as rs eqn:Ers.
    assert (length i ≤ length i)%nat as Hf by done. revert Hf. generalize (length i) at 2 3.
    revert Ers Hk.
    induction Hd as [| | | | | | | |g' r' p i|g' r' p i p1 i1 p2 i2 H1 _ H2 IH2];
      intros Ers Hk n Hn; simplify_eq/=.
    + destruct n; simpl; [done|]. destruct g; repeat case_match; congruence.
    + pose proof (den_progress _ _ _ _ _ H1 ltac:(done)).
      destruct n as [|n]; [lia|]. simpl.
      assert (bt r p i (λ p' i', if (length i' <? length i)%nat
        then star_loop (bt r) g n p' i' k else None) ≠ None).
      { eapply IH; [done|exact H1|].
        rewrite (proj2 (Nat.ltb_lt _ _)) by done. apply IH2; auto with lia. }
      destruct g; repeat case_match; congruence.
Qed.

(** A match exists somewhere in the text. *)
Definition occurs (r : re) (prev : option rune) (inp : input) : Prop :=
  ∃ pre i p' i', inp = pre ++ i ∧ den r (prev_of prev pre) i p' i'.

(** [find] reports an occurrence, and no earlier one exists. *)
Lemma find_sound r prev inp i p' i' :
  find r prev inp = Some (i, (p', i')) →
  ∃ pre, inp = pre ++ i ∧ den r (prev_of prev pre) i p' i'.
Proof.
  revert prev. induction inp as [|[x w] inp IH]; intros prev; simpl; unfold match_here;
    case_match eqn:E; intros Heq; simplify_eq/=.
  - apply bt_sound in E as (p1 & i1 & ? & ?); simplify_eq. by exists [].
  - apply bt_sound in E as (p1 & i1 & ? & ?); simplify_eq. by exists [].
  - apply IH in Heq as (pre & -> & Hd). by exists ((x, w) :: pre).
Qed.

Lemma find_leftmost r prev pre i p' i' :
  wf_re r = true → den r (prev_of prev pre) i p' i' →
  ∃ start stop, find r prev (pre ++ i) = Some (start, stop) ∧ i `suffix_of` start.
Proof.
  intros Hwf Hd. revert prev Hd. induction pre as [|[x w] pre IH]; intros prev Hd; simpl in *.
  - assert (match_here r prev i ≠ None) as Hm by (by eapply bt_complete).
    destruct i as [|[x w] i]; simpl; destruct (match_here r prev _); naive_solver.
  - destruct (match_here r prev _) as [stop|].
    + eexists _, stop. split; [done|]. by exists ((x, w) :: pre).
    + by apply IH.
Qed.

Lemma MatchString_iff r s :
  wf_re r = true → MatchString r s = true ↔ occurs r None (to_input s).
Proof.
  intros Hwf. unfold MatchString. split.
  - case_match eqn:E; [|done]. intros _. destruct p as [i [p' i']].
    apply find_sound in E as (pre & ? & ?). by eexists _, _, _, _.
  - intros (pre & i & p' & i' & -> & Hd).
    by edestruct find_leftmost as (? & ? & -> & _).
Qed.

(** ** Spans *)

Lemma widths_app i j : widths (i ++ j) = (widths i + widths j)%nat.
Proof. induction i as [|[x w] i IH]; simpl; lia. Qed.

Lemma widths_to_input s : widths (to_input s) = slen s.
Proof.
  unfold to_input. rewrite <-(decode_concat s) at 2.
  induction (decode s) as [|[r c] l IH]; [done|].
  rewrite !fmap_cons, str_concat_cons, slen_app. simpl. by rewrite IH.
Qed.

Lemma to_input_positive s : Forall (λ '(_, w), 0 < w)%nat (to_input s).
Proof.
  unfold to_input. rewrite Forall_fmap, Forall_forall. intros [r c] H. simpl.
  apply decode_chunk_nonempty in H. destruct c; simpl; [done|lia].
Qed.

Lemma find_split r prev inp i p' i' :
  find r prev inp = Some (i, (p', i')) →
  ∃ pre k, inp = pre ++ k ++ i' ∧ i = k ++ i' ∧ p' = prev_of prev (pre ++ k).
Proof.
  intros (pre & -> & Hd)%find_sound. apply den_consumes in Hd as (k & -> & ->).
  exists pre, k. by rewrite prev_of_app.
Qed.

Lemma find_all_bounds f r prev inp pos pe :
  Forall (λ '(b, e), pos ≤ b ≤ e ∧ e ≤ pos + widths inp)%nat (find_all f r prev inp pos pe).
Proof.
  revert prev inp pos pe. induction f as [|f IH]; intros prev inp pos pe; simpl; [constructor|].
  case_match eqn:E; [|constructor]. destruct p as [start [p rest]].
  apply find_split in E as (pre & k & -> & -> & ->). rewrite !widths_app.
  case_match eqn:Ee; bool_prop.
  - apply Forall_app. split; [case_match; repeat constructor; lia|].
    destruct (pre ++ k ++ rest) as [|[x w] inp] eqn:Ei; [constructor|].
    apply (f_equal widths) in Ei. rewrite !widths_app in Ei. simpl in Ei.
    eapply Forall_impl; [apply IH|]. intros [b e]. lia.
  - constructor; [lia|]. eapply Forall_impl; [apply IH|]. intros [b e]. lia.
Qed.

Lemma find_all_sorted f r prev inp pos pe :
  StronglySorted (λ x y, x.2 ≤ y.1)%nat (find_all f r prev inp pos pe).
Proof.
  revert prev inp pos pe. induction f as [|f IH]; intros prev inp pos pe; simpl; [constructor|].
  case_match eqn:E; [|constructor]. destruct p as [start [p rest]].
  case_match eqn:Ee; bool_prop.
  - apply StronglySorted_app_2.
    + intros x1 x2 Hx1 Hx2. destruct (bool_decide _); [by apply not_elem_of_nil in Hx1|].
      apply list_elem_of_singleton in Hx1 as ->. simpl.
      destruct inp as [|[x w] inp]; [by apply not_elem_of_nil in Hx2|].
      pose proof (find_all_bounds f r (Some x) inp (pos + w)
        (Some (pos + (widths ((x, w) :: inp) - widths rest)))%nat) as Hb.
      rewrite Forall_forall in Hb. apply Hb in Hx2. destruct x2. simpl in *. lia.
    + destruct (bool_decide _); repeat constructor.
    + destruct inp as [|[x w] inp]; [constructor|apply IH].
  - constructor; [apply IH|]. eapply Forall_impl; [apply find_all_bounds|]. intros [b e]. simpl. lia.
Qed.

(** The fuel of [FindAllStringIndex] is never exhausted: more gives the same spans. *)
Lemma find_all_fuel f g r prev inp pos pe :
  (length inp < f)%nat → (length inp < g)%nat →
  find_all f r prev inp pos pe = find_all g r prev inp pos pe.
Proof.
  revert g prev inp pos pe. induction f as [|f IH]; intros [|g] prev inp pos pe Hf Hg; try lia.
  simpl. case_match eqn:E; [|done]. destruct p as [start [p rest]].
  case_match eqn:Ee; bool_prop.
  - f_equal. destruct inp as [|[x w] inp]; [done|]. simpl in *. apply IH; lia.
  - f_equal. apply find_split in E as (pre & k & -> & -> & ->).
    assert (length (pre ++ k) ≠ 0)%nat.
    { intros Hnil%length_zero_iff_nil. apply app_nil in Hnil as [-> ->]. simpl in *. lia. }
    rewrite !length_app in *. apply IH; lia.
Qed.

(** Every occurrence of a pattern that cannot match the empty string starts inside a reported span. *)
Lemma find_all_covers f r prev pre i p' i' pos pe :
  wf_re r = true → nullable r = false → Forall (λ '(_, w), 0 < w)%nat (pre ++ i) →
  den r (prev_of prev pre) i p' i' → (length (pre ++ i) < f)%nat →
  Exists (λ '(b, e), b ≤ pos + widths pre < e)%nat (find_all f r prev (pre ++ i) pos pe).
Proof.
  intros Hwf Hnn. revert prev pre pos pe.
  induction f as [|f IH]; intros prev pre pos pe Hw Hd Hf; [lia|]. simpl.
  destruct (find_leftmost _ _ _ _ _ _ Hwf Hd) as (start & [p rest] & E & Hs). rewrite E.
  pose proof E as (pre0 & Hi & Hd0)%find_sound.
  pose proof (den_progress _ _ _ _ _ Hd0 Hnn) as Hprog.
  pose proof (den_progress _ _ _ _ _ Hd Hnn) as Hprog'.
  apply find_split in E as (pre' & k & Hi' & -> & ->).
  assert (pre' = pre0) as -> by (rewrite Hi in Hi'; by apply app_inv_tail in Hi').
  assert (0 < widths k)%nat as Hk.
  { destruct k as [|[x w] k]; simpl in *; [lia|].
    rewrite Hi, !Forall_app, Forall_cons in Hw. lia. }
  destruct Hs as [m Hm].
  assert (pre = pre0 ++ m) as -> by (apply (app_inv_tail i); by rewrite Hi, Hm, app_assoc).
  rewrite Hi, !widths_app in *. rewrite (proj2 (Nat.eqb_neq _ _)) by lia.
  destruct (decide (widths m < widths k)%nat) as [Hlt|Hge]; [left; lia|right].
  assert (∃ m', m = k ++ m') as [m' ->].
  { destruct (app_eq_inv m i k rest (eq_sym Hm)) as [(m' & -> & _)|(k' & -> & ->)]; [by exists m'|].
    rewrite widths_app in *. destruct k' as [|[x w] k']; [by exists []; rewrite !app_nil_r|].
    rewrite !Forall_app, Forall_cons in Hw. simpl in *. lia. }
  rewrite <-app_assoc in Hm. apply app_inv_head in Hm as ->. rewrite widths_app in *.
  rewrite !app_assoc in Hd. rewrite prev_of_app in Hd.
  eapply (IH _ _ _ _) in Hd.
  - eapply Exists_impl; [exact Hd|]. intros [b e]. lia.
  - rewrite !Forall_app in Hw. rewrite !Forall_app. naive_solver.
  - rewrite <-!app_assoc, !length_app in *. destruct k; simpl in *; lia.
Qed.

(** ** Reading anchored patterns *)

Lemma den_class_star g c p i p' i' :
  den (RStar g (RClass c)) p i p' i' ↔
  ∃ k, i = k ++ i' ∧ p' = prev_of p k ∧ Forall (λ '(x, _), in_cls c x = true) k.
Proof.
  split.
  - remember (RStar g (RClass c)) as r eqn:Er. intros Hd. revert Er.
    induction Hd as [| | | | | | | |g' r' p i|g' r' p i p1 i1 p2 i2 H1 _ H2 IH2]; intros Er;
      simplify_eq.
    + by exists [].
    + inv H1. destruct IH2 as (k & -> & -> & Hk); [done|]. exists ((x, w) :: k). by repeat constructor.
  - intros (k & -> & -> & Hk). revert p.
    induction Hk as [|[x w] k Hx Hk IH]; intros p; [constructor|].
    eapply DStarS; [by constructor|]. apply IH.
Qed.

(** Every class of the pattern lies inside [P]. *)
Fixpoint classes_in (P : rune → Prop) (r : re) : Prop :=
  match r with
  | RClass c => ∀ x, in_cls c x = true → P x
  | RCat r s | RAlt r s => classes_in P r ∧ classes_in P s
  | RStar _ r => classes_in P r
  | _ => True
  end.

Lemma den_classes P r p i p' i' :
  den r p i p' i' → classes_in P r → ∃ k, i = k ++ i' ∧ Forall (λ '(x, _), P x) k.
Proof.
  induction 1; simpl; intros Hc; try (by exists []).
  - eexists [_]. split; [done|]. repeat constructor. auto.
  - destruct Hc as [Hc1 Hc2]. destruct (IHden1 Hc1) as (k1 & -> & H1), (IHden2 Hc2) as (k2 & -> & H2).
    exists (k1 ++ k2). by rewrite app_assoc, Forall_app.
  - naive_solver.
  - naive_solver.
  - destruct (IHden1 Hc) as (k1 & -> & H1), (IHden2 Hc) as (k2 & -> & H2).
    exists (k1 ++ k2). by rewrite app_assoc, Forall_app.
Qed.

(** [^r$] *)
Definition anchored (r : re) : re := RCat RBegin (RCat r REnd).

Lemma MatchString_anchored r s :
  wf_re r = true → MatchString (anchored r) s = true ↔ ∃ p, den r None (to_input s) p [].
Proof.
  intros Hwf. rewrite MatchString_iff by (simpl; by rewrite Hwf). split.
  - intros (pre & i & p' & i' & Hi & Hd). unfold anchored in Hd.
    repeat match goal with H : den (RCat _ _) _ _ _ _ |- _ => inv H
      | H : den RBegin _ _ _ _ |- _ => inv H | H : den REnd _ _ _ _ |- _ => inv H end.
    assert (pre = []) as -> by (destruct pre as [|[? ?] pre] using rev_ind; [done|];
      rewrite prev_of_app in *; done).
    simpl in *. rewrite Hi. eauto.
  - intros [p Hd]. exists [], (to_input s), p, []. split; [done|].
    unfold anchored. repeat econstructor. done.
Qed.

Lemma runes_to_input s : (to_input s).*1 = runes s.
Proof.
  unfold runes, to_input. rewrite <-list_fmap_compose. apply list_fmap_ext. by intros ? [].
Qed.

(** A text accepted by an anchored pattern is made of runes of its classes only. *)
Lemma anchored_runes P r s :
  wf_re r = true → classes_in P r → MatchString (anchored r) s = true → Forall P (runes s).
Proof.
  intros Hwf Hc [p Hd]%MatchString_anchored; [|done].
  eapply den_classes in Hd as (k & Hk & HP); [|done].
  rewrite app_nil_r in Hk. rewrite <-runes_to_input, Hk, Forall_fmap.
  eapply Forall_impl; [exact HP|]. by intros [].
Qed.
