(* ===== verification/Admission.v ===== *)
(** * What every capability admits: local policy, field caps, identifiers

    Models internal/capabilities/policy.go ([Module LocalPolicy]), fieldcap.go ([Module FieldCap]) and
    identifier.go ([Module Identifier]). *)

From S2P Require Export Regexp GoTime.
From Stdlib Require Import Ascii.
From Stdlib Require String.
From stdpp Require Import options.
Local Open Scope Z_scope.

(** ** internal/capabilities/policy.go *)
Module LocalPolicy.
(** A Go [map[string]bool] used as a set: the keys bound to [true]. *)
Record t := { AllowedNamespaces : gset string }.

Definition AllowsNamespace (p : t) (namespace : string) : bool :=
  if bool_decide (size (AllowedNamespaces p) = 0%nat) then true
  else bool_decide (namespace ∈ AllowedNamespaces p).

(** [dispatched] is a uint32, the other arguments are int64. *)
Definition Lower (dispatched localCap minimum maximum : Z) : Z :=
  let effective := int64 dispatched in
  let effective := if effective <? minimum then minimum else effective in
  let effective := if maximum <? effective then maximum else effective in
  if (0 <? localCap) && (localCap <? effective) then localCap else effective.

(** The bound a read is held to: what was asked, moved into the compiled range, and the operator's cap
    below that when there is one. *)
Definition effective (asked localCap minimum maximum : Z) : Z :=
  let e := Z.min (Z.max asked minimum) maximum in
  if 0 <? localCap then Z.min localCap e else e.

Lemma Lower_min_max dispatched localCap minimum maximum :
  0 ≤ dispatched < 2 ^ 32 →
  Lower dispatched localCap minimum maximum = effective dispatched localCap minimum maximum.
Proof.
  intros H. unfold Lower, effective. rewrite int64_id by lia. cbv zeta.
  destruct (Z.ltb_spec dispatched minimum); destruct (Z.ltb_spec maximum minimum);
    destruct (Z.ltb_spec maximum dispatched); destruct (Z.ltb_spec 0 localCap);
    cbn [andb]; repeat case_match; bool_prop; lia.
Qed.

(** A positive range stays positive whatever the local cap, and the maximum holds. *)
Lemma Lower_range dispatched localCap minimum maximum :
  0 ≤ dispatched < 2 ^ 32 → 1 ≤ minimum ≤ maximum →
  1 ≤ Lower dispatched localCap minimum maximum ≤ maximum
  ∧ (0 < localCap → Lower dispatched localCap minimum maximum ≤ localCap).
Proof.
  intros Hd Hm. rewrite Lower_min_max by done. unfold effective. destruct (Z.ltb_spec 0 localCap); lia.
Qed.

(** The effective bound of a read: it never exceeds the capability's compiled maximum, never
    exceeds the operator's local cap when one is set, reaches the compiled minimum whenever the local
    cap allows it, and no dispatched value of the control plane can raise it above what the largest
    one gives. In particular the local cap wins over the compiled floor. *)
Theorem Lower_bounds dispatched localCap minimum maximum :
  0 ≤ dispatched < 2 ^ 32 → minimum ≤ maximum →
  Lower dispatched localCap minimum maximum ≤ maximum
  ∧ (0 < localCap → Lower dispatched localCap minimum maximum ≤ localCap)
  ∧ (localCap ≤ 0 ∨ minimum ≤ localCap → minimum ≤ Lower dispatched localCap minimum maximum)
  ∧ (0 < localCap ≤ minimum → Lower dispatched localCap minimum maximum = localCap)
  ∧ (∀ d, 0 ≤ d ≤ dispatched →
      Lower d localCap minimum maximum ≤ Lower dispatched localCap minimum maximum).
Proof.
  intros Hd Hm. rewrite Lower_min_max by done. unfold effective.
  repeat split; intros; repeat rewrite Lower_min_max by lia; unfold effective;
    destruct (Z.ltb_spec 0 localCap); lia.
Qed.

Lemma Lower_bounds_witness : Lower 7 3 5 50 = 3 ∧ Lower 7 3 5 50 ≤ 50.
Proof.
  split; [reflexivity|].
  exact (proj1 (Lower_bounds 7 3 5 50 ltac:(lia) ltac:(lia))).
Defined.
End LocalPolicy.

(** ** internal/capabilities/fieldcap.go *)
Module FieldCap.
Definition MaxIdentifierChars : nat := 253.
Definition MaxReasonChars : nat := 128.
Definition MaxImageChars : nat := 256.
Definition MaxQuantityChars : nat := 32.
Definition MaxMessageChars : nat := 1024.
Definition MaxLogLineChars : nat := Z.to_nat 8192.

Definition CapChars (value : string) (maxChars : nat) : string :=
  if (slen value <=? maxChars)%nat then value
  else
    let rs := runes value in
    if (length rs <=? maxChars)%nat then value
    else encode_runes (take maxChars rs).

Definition CapIdentifier (value : string) : string := CapChars value MaxIdentifierChars.
Definition CapReason (value : string) : string := CapChars value MaxReasonChars.
Definition CapImage (value : string) : string := CapChars value MaxImageChars.
Definition CapQuantity (value : string) : string := CapChars value MaxQuantityChars.
Definition CapMessage (value : string) : string := CapChars value MaxMessageChars.
Definition CapLogLine (value : string) : string := CapChars value MaxLogLineChars.

Lemma runes_le_bytes s : (length (runes s) ≤ slen s)%nat.
Proof. rewrite runes_length. apply decode_length. Qed.

(** The rune-level meaning of the cap, whichever path computed it. *)
Lemma CapChars_runes value n : runes (CapChars value n) = take n (runes value).
Proof.
  unfold CapChars. pose proof (runes_le_bytes value).
  repeat case_match; bool_prop; [by rewrite take_ge by lia..|].
  apply runes_encode, Forall_take. auto with relay.
Qed.

Lemma CapChars_id value n : (length (runes value) ≤ n)%nat → CapChars value n = value.
Proof. intros. unfold CapChars. repeat case_match; bool_prop; [done..|lia]. Qed.

Lemma CapChars_idemp value n : CapChars (CapChars value n) n = CapChars value n.
Proof. apply CapChars_id. rewrite CapChars_runes, length_take. lia. Qed.

(** Well-formed text is cut on a rune boundary: what remains is a byte prefix and well-formed. *)
Lemma CapChars_valid value n :
  valid_utf8 value = true →
  valid_utf8 (CapChars value n) = true ∧ ∃ rest, value = CapChars value n +:+ rest.
Proof.
  intros Hv. pose proof Hv as He. unfold valid_utf8 in He. apply String.eqb_eq in He.
  unfold CapChars. repeat case_match; try (split; [done|exists ""; by rewrite str_app_nil_r]).
  split.
  - unfold valid_utf8. apply String.eqb_eq. f_equal. apply runes_encode, Forall_take.
    auto with relay.
  - exists (encode_runes (drop n (runes value))).
    by rewrite <-encode_runes_app, take_drop.
Qed.

(** Every admitted source string is capped in characters: the result holds at most [n] runes, a
    text within the bound is returned unchanged, the runes kept are the first ones of the text,
    capping twice is capping once, and well-formed UTF-8 is never cut inside a character. *)
Theorem CapChars_correct value n :
  (length (runes (CapChars value n)) ≤ n)%nat
  ∧ runes (CapChars value n) = take n (runes value)
  ∧ ((length (runes value) ≤ n)%nat → CapChars value n = value)
  ∧ CapChars (CapChars value n) n = CapChars value n
  ∧ (valid_utf8 value = true →
      valid_utf8 (CapChars value n) = true ∧ ∃ rest, value = CapChars value n +:+ rest).
Proof.
  repeat split; intros; rewrite ?CapChars_runes, ?length_take; try lia;
    auto using CapChars_id, CapChars_idemp; by apply CapChars_valid.
Qed.

Example CapChars_ex : CapChars "héllo" 2 = "hé".
Proof. vm_compute. reflexivity. Qed.
Example CapChars_invalid : CapChars (String (chr 0xFF) "ab") 2 = encode_runes [RuneError; 0x61].
Proof. vm_compute. reflexivity. Qed.
End FieldCap.

(** ** internal/capabilities/identifier.go *)
Module Identifier.
Definition lower_alnum : cls := Cls false [(97, 122); (48, 57)].
Definition dash_lower_alnum : cls := Cls false [(45, 45); (97, 122); (48, 57)].

(** [[a-z0-9]([-a-z0-9]*[a-z0-9])?] *)
Definition label : re :=
  RCat (RClass lower_alnum)
    (ropt (RCat (RStar true (RClass dash_lower_alnum)) (RClass lower_alnum))).

Definition dns1123Label : re := anchored label.
Definition dns1123Subdomain : re := anchored (RCat label (RStar true (RCat (rchar 46) label))).
Definition kindLiteral : re :=
  anchored (RCat (RClass (Cls false [(65, 90); (97, 122)]))
              (RStar true (RClass (Cls false [(65, 90); (97, 122); (48, 57)])))).
Definition uidLiteral : re :=
  anchored (rplus true (RClass (Cls false [(97, 122); (65, 90); (48, 57); (45, 45)]))).

Definition maxNamespaceChars : nat := 63.

Definition ValidNamespace (value : string) : bool :=
  (0 <? slen value)%nat && (slen value <=? maxNamespaceChars)%nat && MatchString dns1123Label value.
Definition ValidObjectName (value : string) : bool :=
  (0 <? slen value)%nat && (slen value <=? FieldCap.MaxIdentifierChars)%nat
  && MatchString dns1123Subdomain value.
Definition ValidContainerName (value : string) : bool :=
  (0 <? slen value)%nat && (slen value <=? maxNamespaceChars)%nat && MatchString dns1123Label value.
Definition ValidKind (value : string) : bool :=
  (0 <? slen value)%nat && (slen value <=? maxNamespaceChars)%nat && MatchString kindLiteral value.
Definition ValidUID (value : string) : bool :=
  (0 <? slen value)%nat && (slen value <=? FieldCap.MaxIdentifierChars)%nat
  && MatchString uidLiteral value.

(** What the two configurations test instead, the length apart. *)
Lemma ValidNamespace_match n :
  ValidNamespace n = true ↔ MatchString dns1123Label n = true ∧ (slen n ≤ 63)%nat.
Proof.
  unfold ValidNamespace, maxNamespaceChars. rewrite !andb_true_iff, Nat.ltb_lt, Nat.leb_le.
  split; [tauto|]. intros [Hm ?]. destruct n; [by vm_compute in Hm|]. cbn [String.length] in *. split; [lia|done].
Qed.

Example valid_ns : ValidNamespace "kube-system" = true.
Proof. vm_compute. reflexivity. Qed.
Example invalid_ns : (ValidNamespace "", ValidNamespace "-a", ValidNamespace "a-",
  ValidNamespace "Prod", ValidNamespace "a.b") = (false, false, false, false, false).
Proof. vm_compute. reflexivity. Qed.
Example valid_name : ValidObjectName "api.prod-1" = true.
Proof. vm_compute. reflexivity. Qed.

(** The DNS-1123 label by hand: lower-case letters, digits and dashes, no dash at either end. *)
Definition label_shape (l : list rune) : Prop :=
  ∃ a, head l = Some a ∧ in_cls lower_alnum a = true
    ∧ (∃ b, last l = Some b ∧ in_cls lower_alnum b = true)
    ∧ Forall (λ x, in_cls dash_lower_alnum x = true) l.

Lemma lower_dash x : in_cls lower_alnum x = true → in_cls dash_lower_alnum x = true.
Proof. unfold in_cls. simpl. lia. Qed.

Lemma den_label p i :
  (∃ p', den label p i p' []) ↔ label_shape (i.*1).
Proof.
  split.
  - intros [p' Hd]. unfold label, ropt in Hd. inv Hd.
    match goal with H : den (RClass _) _ _ _ _ |- _ => inv H end.
    match goal with H : den (RAlt _ _) _ _ _ _ |- _ => inv H end.
    + match goal with H : den (RCat _ _) _ _ _ _ |- _ => inv H end.
      match goal with H : den (RStar _ _) _ _ _ _ |- _ =>
        apply den_class_star in H as (k & -> & -> & Hk) end.
      match goal with H : den (RClass _) _ _ _ _ |- _ => inv H end.
      exists x. split_and!; [done..| |].
      * exists x0. rewrite fmap_cons, fmap_app. simpl.
        split; [|done]. by rewrite app_comm_cons, last_snoc.
      * rewrite fmap_cons, fmap_app. constructor; [by apply lower_dash|].
        apply Forall_app. split; [|repeat constructor; by apply lower_dash].
        rewrite Forall_fmap. eapply Forall_impl; [exact Hk|]. by intros [].
    + match goal with H : den REps _ _ _ _ |- _ => inv H end.
      exists x. split_and!; [done..|by exists x|]. repeat constructor. by apply lower_dash.
  - intros (a & Ha & Hla & (b & Hb & Hlb) & Hall).
    destruct i as [|[x w] i]; simplify_eq/=. inv Hall.
    destruct i as [|[y v] i] using rev_ind.
    + eexists. unfold label, ropt. econstructor; [by constructor|]. apply DAltR. constructor.
    + assert (last ((a :: i.*1) ++ [y]) = Some b) as Hb' by (rewrite <-Hb; simpl; by rewrite fmap_app).
      rewrite last_snoc in Hb'. simplify_eq.
      eexists. unfold label, ropt. econstructor; [by constructor|]. apply DAltL.
      econstructor; [|by constructor]. apply den_class_star. exists i. split_and!; [done..|].
      rewrite fmap_app, Forall_app, Forall_fmap in H2. eapply Forall_impl; [apply H2|]. by intros [].
Qed.

(** A namespace is accepted exactly when it is a DNS-1123 label: between 1 and 63 bytes, made of
    lower-case letters, digits and dashes, and neither starting nor ending with a dash. *)
Theorem ValidNamespace_iff value :
  ValidNamespace value = true ↔ (1 ≤ slen value ≤ 63)%nat ∧ label_shape (runes value).
Proof.
  unfold ValidNamespace, maxNamespaceChars, dns1123Label.
  rewrite <-runes_to_input, <-den_label, !andb_true_iff, MatchString_anchored by done.
  rewrite Nat.ltb_lt, Nat.leb_le. split; intros; destruct_and!; split_and!; eauto; lia.
Qed.

(** The characters an accepted identifier can be made of: no separator of a selector or of a URL. *)
Definition safe_char (x : rune) : Prop :=
  48 ≤ x ≤ 57 ∨ 65 ≤ x ≤ 90 ∨ 97 ≤ x ≤ 122 ∨ x = 45 ∨ x = 46.

Ltac class_bounds := simpl; intros ?; unfold in_cls, safe_char; simpl; lia.

(** Whatever validator accepts it, an identifier is not empty, at most 253 bytes long, and holds
    only letters, digits, dashes and dots: none of the characters a label or field selector gives a
    meaning to (comma, equals sign, exclamation mark, parenthesis, blank) can be carried into one. *)
Theorem identifier_safe value :
  ValidNamespace value || ValidObjectName value || ValidContainerName value
    || ValidKind value || ValidUID value = true →
  (1 ≤ slen value ≤ 253)%nat ∧ Forall safe_char (runes value).
Proof.
  rewrite !orb_true_iff.
  unfold ValidNamespace, ValidObjectName, ValidContainerName, ValidKind, ValidUID,
    maxNamespaceChars, FieldCap.MaxIdentifierChars.
  rewrite !andb_true_iff, !Nat.ltb_lt, !Nat.leb_le.
  intros Hv. split; [destruct Hv as [[[[Hv|Hv]|Hv]|Hv]|Hv]; lia|].
  destruct Hv as [[[[Hv|Hv]|Hv]|Hv]|Hv]; destruct Hv as [_ Hm];
    (eapply anchored_runes; [|shelve|exact Hm]; done).
  Unshelve. all: repeat split; class_bounds.
Qed.

Lemma identifier_safe_witness :
  ValidKind "ReplicaSet" = true ∧ (1 ≤ slen "ReplicaSet" ≤ 253)%nat.
Proof.
  split; [vm_compute; reflexivity|].
  exact (proj1 (identifier_safe "ReplicaSet" ltac:(vm_compute; reflexivity))).
Defined.
End Identifier.
