(* ===== verification/Wire.v ===== *)
(** * The protocol's messages

    The records and enumerations of proto/opencluster/relay/v1, as the relay's Go code sees them
    through the generated types: an absent message is [None], a scalar has its zero value, a [oneof] is
    an inductive type. Proto3 enumerations are open, so the one the relay receives
    ([WorkloadKind]) has a constructor for numbers no name was given to.

    A capability result is carried in its reflective form [pmsg], the view [protoreflect] gives of a
    message: its full name and its populated fields in descriptor order. The typed results of the
    executors are turned into it by the [reflect] functions at the end. *)

From S2P Require Export GoTime.
From stdpp Require Import options.
Local Open Scope Z_scope.

(** ** Reflective messages *)

Inductive pval : Type :=
  | VScalar (z : Z)                   (* numbers, booleans, enumerations *)
  | VString (s : string)
  | VStrings (l : list string)
  | VMessage (m : pmsg)
  | VMessages (l : list pmsg)
  | VMap
with pmsg : Type :=
  | PMsg (full_name : string) (fields : list (string * pval)).

Definition msg_name (m : pmsg) : string := let 'PMsg n _ := m in n.
Definition msg_fields (m : pmsg) : list (string * pval) := let 'PMsg _ fs := m in fs.

(** Induction over messages and values together. *)
Section pmsg_induction.
Context (P : pmsg → Prop) (Q : pval → Prop).
Context (HM : ∀ n fs, Forall (λ x, Q x.2) fs → P (PMsg n fs)).
Context (HS : ∀ z, Q (VScalar z)) (HT : ∀ s, Q (VString s)) (HL : ∀ l, Q (VStrings l)).
Context (HV : ∀ m, P m → Q (VMessage m)) (HR : ∀ l, Forall P l → Q (VMessages l)) (HP : Q VMap).

Fixpoint pmsg_induction (m : pmsg) : P m :=
  match m with
  | PMsg n fs =>
      HM n fs ((fix go (l : list (string * pval)) : Forall (λ x, Q x.2) l :=
                  match l with
                  | [] => Forall_nil_2 _
                  | (f, v) :: l' => Forall_cons_2 (λ x, Q x.2) (f, v) l' (pval_induction v) (go l')
                  end) fs)
  end
with pval_induction (v : pval) : Q v :=
  match v with
  | VScalar z => HS z
  | VString s => HT s
  | VStrings l => HL l
  | VMessage m => HV m (pmsg_induction m)
  | VMessages l =>
      HR l ((fix go (l : list pmsg) : Forall P l :=
               match l with
               | [] => Forall_nil_2 _
               | m :: l' => Forall_cons_2 P m l' (pmsg_induction m) (go l')
               end) l)
  | VMap => HP
  end.
End pmsg_induction.

(** ** Capability arguments *)

Inductive WorkloadKind :=
  | WORKLOAD_KIND_UNSPECIFIED
  | WORKLOAD_KIND_DEPLOYMENT
  | WORKLOAD_KIND_STATEFULSET
  | WORKLOAD_KIND_DAEMONSET
  | WORKLOAD_KIND_UNRECOGNIZED (number : Z).

Record RuntimeArgs := {
  ra_Namespace : string;
  ra_WorkloadKind : WorkloadKind;
  ra_WorkloadName : string;
  ra_MaxPods : Z;
}.

Record InvolvedObjectMsg := {
  io_Kind : string;
  io_Name : string;
  io_Uid : string;
}.

Record EventsArgs := {
  ea_Namespace : string;
  ea_InvolvedObject : option InvolvedObjectMsg;
  ea_WindowStart : Timestamp;
  ea_WindowEnd : Timestamp;
  ea_MaxEvents : Z;
}.

Record LogsArgs := {
  la_Namespace : string;
  la_PodName : string;
  la_ContainerName : string;
  la_Previous : bool;
  la_MaxLines : Z;
  la_MaxBytes : Z;
  la_SinceTime : Timestamp;
}.

Inductive CapabilityArguments :=
  | Args_Runtime (a : RuntimeArgs)
  | Args_Events (a : EventsArgs)
  | Args_Logs (a : LogsArgs).

(** ** Jobs *)

Record CapabilityDescriptor := {
  CapabilityId : string;
  CapabilityVersion : Z;
}.
#[export] Instance CapabilityDescriptor_eq_dec : EqDecision CapabilityDescriptor.
Proof. solve_decision. Defined.

Record JobAssignment := {
  ja_JobId : string;
  ja_OrgId : string;
  ja_RegistrationId : string;
  ja_LeaseEpoch : Z;
  ja_CapabilityId : string;
  ja_CapabilityVersion : Z;
  ja_DeadlineBudget : option Duration;
  ja_IdempotencyKey : string;
  ja_CorrelationId : string;
  ja_Arguments : option CapabilityArguments;
}.

Inductive FailureKind :=
  | KIND_UNSPECIFIED
  | KIND_TIMEOUT
  | KIND_CANCELLED
  | KIND_UNSUPPORTED_CAPABILITY_VERSION
  | KIND_ARGUMENTS_REJECTED
  | KIND_RESULT_TOO_LARGE
  | KIND_IDENTITY_MISMATCH
  | KIND_LOCAL_POLICY_REFUSED
  | KIND_INTERNAL.
#[export] Instance FailureKind_eq_dec : EqDecision FailureKind.
Proof. solve_decision. Defined.

(** [JobResult.outcome]; the payload is a [CapabilityResult] message. Of a failure the relay fills in the
    kind alone. *)
Inductive Outcome :=
  | Outcome_Result (payload : pmsg)
  | Outcome_Failure (kind : FailureKind).

Record JobResult := {
  jr_JobId : string;
  jr_LeaseEpoch : Z;
  jr_Outcome : option Outcome;
  jr_ExecutionDurationMs : Z;
}.

Definition GetFailureKind (r : JobResult) : FailureKind :=
  match jr_Outcome r with
  | Some (Outcome_Failure k) => k
  | _ => KIND_UNSPECIFIED
  end.

Definition GetResult (r : JobResult) : option pmsg :=
  match jr_Outcome r with
  | Some (Outcome_Result p) => Some p
  | _ => None
  end.

(** ** Inventory synchronization *)

Inductive InventoryObjectKind :=
  | OBJECT_UNSPECIFIED | OBJECT_DEPLOYMENT | OBJECT_STATEFULSET | OBJECT_DAEMONSET
  | OBJECT_CONFIGMAP | OBJECT_SECRET.
#[export] Instance InventoryObjectKind_eq_dec : EqDecision InventoryObjectKind.
Proof. solve_decision. Defined.

Definition kind_number (k : InventoryObjectKind) : Z :=
  match k with
  | OBJECT_UNSPECIFIED => 0 | OBJECT_DEPLOYMENT => 1 | OBJECT_STATEFULSET => 2
  | OBJECT_DAEMONSET => 3 | OBJECT_CONFIGMAP => 4 | OBJECT_SECRET => 5
  end.

Lemma kind_number_inj k1 k2 : kind_number k1 = kind_number k2 → k1 = k2.
Proof. by destruct k1, k2. Qed.

Inductive InventoryChangeKind :=
  | CHANGE_UNSPECIFIED | CHANGE_CREATED | CHANGE_MODIFIED | CHANGE_DELETED.
#[export] Instance InventoryChangeKind_eq_dec : EqDecision InventoryChangeKind.
Proof. solve_decision. Defined.

Record InventoryFieldChange := {
  fc_Field : string;
  fc_Before : string;
  fc_After : string;
}.

Record InventoryObjectChange := {
  oc_Namespace : string;
  oc_Kind : InventoryObjectKind;
  oc_Name : string;
  oc_Uid : string;
  oc_ObservedRevision : string;
  oc_Change : InventoryChangeKind;
  oc_Fields : list InventoryFieldChange;
}.

Record InventoryDelta := {
  id_DeltaId : string;
  id_ConnectionId : string;
  id_PolicyRevision : Z;
  id_Baseline : bool;
  id_ObservedAt : Timestamp;
  id_Changes : list InventoryObjectChange;
}.

Record InventorySynchronizationPolicy := {
  ip_ConnectionId : string;
  ip_Revision : Z;
  ip_Namespaces : list string;
  ip_RequestedInterval : option Duration;
}.

Record InventoryScopeStatus := {
  is_ConnectionId : string;
  is_PolicyRevision : Z;
  is_LastCompletedAt : Timestamp;
  is_Faulted : bool;
  is_Truncated : bool;
}.

(** ** The two envelopes *)

Inductive CancelDisposition := DISPOSITION_ABORTED | DISPOSITION_ALREADY_COMPLETED.

Record InFlightJob := { ij_JobId : string; ij_LeaseEpoch : Z; ij_ElapsedMs : Z }.

Record Hello := {
  he_ProtocolVersion : Z;
  he_RelayVersion : string;
  he_Capabilities : list CapabilityDescriptor;
  he_ClusterFingerprint : string;
  he_LocalPolicyHash : string;
  he_MaxConcurrentJobs : Z;
  he_EndpointPinningDisabled : bool;
  he_InFlight : list InFlightJob;
}.

Record Heartbeat := {
  hb_Sequence : Z;
  hb_LocalPolicyHash : string;
  hb_InFlightCount : Z;
  hb_InventoryScopes : list InventoryScopeStatus;
}.

Record DrainState := { dr_Draining : bool; dr_InFlightCount : Z; dr_UnackedResultCount : Z }.

Inductive ProtocolErrorCode :=
  | CODE_UNSPECIFIED
  | CODE_MALFORMED_MESSAGE
  | CODE_UNKNOWN_FIELDS_REFUSED
  | CODE_UNSUPPORTED_PROTOCOL_VERSION
  | CODE_INTAKE_SHED.

Inductive RelayToControl :=
  | R_Hello (h : Hello)
  | R_Heartbeat (h : Heartbeat)
  | R_JobAck (job : string) (epoch : Z)
  | R_JobStarted (job : string) (epoch : Z)
  | R_JobResult (r : JobResult)
  | R_CancelAck (job : string) (epoch : Z) (d : CancelDisposition)
  | R_DrainState (d : DrainState)
  | R_RotationConfirm (rotation_id : string)
  | R_ProtocolError (code : ProtocolErrorCode) (detail : string)
  | R_InventoryDelta (d : InventoryDelta).

Record SessionAccepted := {
  sa_SessionId : string;
  sa_ProtocolVersion : Z;
  sa_HeartbeatInterval : option Duration;
  sa_MaxReceiveBytes : Z;
  sa_MaxSendBytes : Z;
}.

Inductive ResultDisposition :=
  | RESULT_DISPOSITION_UNSPECIFIED
  | DISPOSITION_RECORDED
  | DISPOSITION_ALREADY_RECORDED
  | DISPOSITION_STALE_STOP_RESENDING.

Inductive ControlToRelay :=
  | C_SessionAccepted (m : SessionAccepted)
  | C_JobAssignment (job : JobAssignment)
  | C_Cancellation (job : string) (epoch : Z)
  | C_ResultAck (job : string) (epoch : Z) (d : ResultDisposition)
  | C_CredentialRotation (rotation_id new_credential : string)
  | C_DrainInstruction (deadline : option Duration)
  | C_CapabilityRequirements (minimum_versions : list CapabilityDescriptor)
  | C_GracefulReconnect (retry_after : option Duration)
  | C_InventoryPolicy (p : InventorySynchronizationPolicy)
  | C_InventoryDeltaAck (delta : string)
  | C_Unset.                            (* no variant, or one this build does not know *)

(** ** Registration *)

Record RegisterRequest := {
  rq_ProtocolVersion : Z;
  rq_RelayVersion : string;
  rq_ClusterFingerprint : string;
  rq_Capabilities : list CapabilityDescriptor;
}.

Record RegisterResponse := {
  rp_OrgId : string;
  rp_RegistrationId : string;
  rp_Credential : string;
  rp_SpkiPins : list string;
  rp_ProtocolVersion : Z;
}.
