(* ===== verification/Masking.v ===== *)
(** * Rules, spans and masking (internal/redaction/rule.go)

    A rule is a named pattern. The masking code asks three things of Go's [regexp] package, stated by
    the record [Pattern]: a search, the list of all matches, and that the matches lie in the text in
    order ([of_re] discharges the laws for the engine of [Regexp.v]). On top of them: [NewRule],
    the merging of claimed spans, and [mask].

    [pieces] is the abstract reading of a masked text: kept runs and markers, the kept runs exactly the
    bytes no rule claimed. [segment]s read the original and the masked text side by side: each marker
    stands where the region it hides stood, and the regions are the maximal claimed ones. *)

From S2P Require Import Prelude GoString Utf8 Regexp.
From stdpp Require Import options.
#[local] Arguments String.append : simpl nomatch.

(** ** What masking asks of a compiled pattern *)

Record Pattern := {
  pat_MatchString : string → bool;
  pat_FindAllStringIndex : string → list (nat * nat);
  pat_bounds s : Forall (λ '(b, e), b ≤ e ∧ e ≤ slen s) (pat_FindAllStringIndex s);
}.

Lemma re_bounds r s : Forall (λ '(b, e), b ≤ e ∧ e ≤ slen s) (FindAllStringIndex r s).
Proof.
  eapply Forall_impl; [apply find_all_bounds|]. intros [b e].
  rewrite widths_to_input. lia.
Qed.

Definition of_re (r : re) : Pattern := {|
  pat_MatchString := MatchString r;
  pat_FindAllStringIndex := FindAllStringIndex r;
  pat_bounds := re_bounds r;
|}.

(** ** Rules *)

Record Rule := { rule_ID : string; rule_pattern : Pattern }.

Inductive rule_error := NoIdentifier | NotCompiled | MatchesEmpty.

(** [compile] is [regexp.Compile]. *)
Definition NewRule (compile : string → option Pattern) (id pattern : string)
    : result rule_error Rule :=
  if (trim_space id =? "")%string then Err NoIdentifier else
  match compile pattern with
  | None => Err NotCompiled
  | Some compiled =>
      if pat_MatchString compiled "" then Err MatchesEmpty
      else Ok {| rule_ID := id; rule_pattern := compiled |}
  end.

Definition marker (ruleID : string) : string := "[redacted:" +:+ ruleID +:+ "]".

(** ** Spans *)

Record span := Span { sp_start : nat; sp_end : nat; sp_rules : list string }.

(** The comparison [merge] sorts with: by start, longest first. *)
Definition span_less (s t : span) : bool :=
  if sp_start s =? sp_start t then sp_end t <? sp_end s else sp_start s <? sp_start t.

(** The merging loop, with [last] the span under construction. *)
Fixpoint collapse (last : span) (l : list span) : list span :=
  match l with
  | [] => [last]
  | next :: l' =>
      if sp_end last <? sp_start next then last :: collapse next l'
      else collapse
        (Span (sp_start last)
              (if sp_end last <? sp_end next then sp_end next else sp_end last)
              (sp_rules last ++ sp_rules next)) l'
  end.

(** [merge] is called with at least one claim. *)
Definition merge (claimed : list span) : list span :=
  match sort_stable span_less claimed with
  | [] => []
  | first :: rest => collapse first rest
  end.

(** ** Masking *)

Definition claims (rules : list Rule) (value : string) : list span :=
  rules ≫= λ rule,
    (λ '(b, e), Span b e [rule_ID rule]) <$> pat_FindAllStringIndex (rule_pattern rule) value.

(** The rebuilding loop. The slices are in range by [merge_regions]. *)
Fixpoint rebuild (value : string) (cursor : nat) (merged : list span) : string :=
  match merged with
  | [] => str_drop cursor value
  | region :: merged' =>
      str_slice cursor (sp_start region) value
      +:+ marker (hd "" (sp_rules region))
      +:+ rebuild value (sp_end region) merged'
  end.

Definition seen (merged : list span) (id : string) : bool :=
  existsb (λ region, bool_decide (id ∈ sp_rules region)) merged.

Definition mask (rules : list Rule) (value : string) : string * nat * list string :=
  if (value =? "")%string then (value, 0, []) else
  match claims rules value with
  | [] => (value, 0, [])
  | claimed =>
      let merged := merge claimed in
      (rebuild value 0 merged, length merged,
       filter (λ id, seen merged id = true) (rule_ID <$> rules))
  end.

(** ** Coverage: the bytes a list of spans claims *)

Definition covers (s : span) (x : nat) : bool := (sp_start s <=? x) && (x <? sp_end s).
Definition covered (l : list span) (x : nat) : bool := existsb (λ s, covers s x) l.

Lemma covered_true l x : covered l x = true ↔ ∃ s, s ∈ l ∧ sp_start s ≤ x < sp_end s.
Proof.
  unfold covered, covers. rewrite existsb_exists. setoid_rewrite <-list_elem_of_In.
  apply exist_proper. intros s. rewrite andb_true_iff, Nat.leb_le, Nat.ltb_lt. done.
Qed.

Lemma covered_perm l k x : l ≡ₚ k → covered l x = covered k x.
Proof.
  intros Hp. apply eq_true_iff_eq. rewrite !covered_true. by setoid_rewrite Hp.
Qed.

Lemma covered_app l k x : covered (l ++ k) x = covered l x || covered k x.
Proof. apply existsb_app. Qed.

(** A well-formed claim about a text of [n] bytes. *)
Definition span_wf (n : nat) (s : span) : Prop :=
  sp_start s ≤ sp_end s ∧ sp_end s ≤ n ∧ sp_rules s ≠ [].

Lemma claims_wf rules value : Forall (span_wf (slen value)) (claims rules value).
Proof.
  apply Forall_bind, Forall_true. intros rule. apply Forall_fmap.
  eapply Forall_impl; [apply pat_bounds|]. intros [b e] ?. unfold span_wf. simpl. naive_solver.
Qed.

#[export] Instance span_less_sw : StrictWeak span_less.
Proof.
  split; unfold span_less; intros;
    repeat match goal with H : context [if ?b then _ else _] |- _ => destruct b eqn:?
      | |- context [if ?b then _ else _] => destruct b eqn:? end; bool_prop;
    try apply Nat.ltb_ge; try lia.
Qed.

Lemma span_less_start s t : not_greater span_less s t → sp_start s ≤ sp_start t.
Proof. unfold not_greater, span_less. case_match; intros; bool_prop; lia. Qed.

Lemma sorted_starts s k :
  Forall (not_greater span_less s) k → Forall (λ t, sp_start s ≤ sp_start t) k.
Proof. intros Hk. eapply Forall_impl; [exact Hk|]. intros t. apply span_less_start. Qed.

(** Separated regions: in order, not touching, inside the text, each with a rule. *)
Fixpoint regions (lo n : nat) (l : list span) : Prop :=
  match l with
  | [] => True
  | r :: l' => lo ≤ sp_start r ∧ span_wf n r ∧ regions (S (sp_end r)) n l'
  end.

Lemma regions_mono lo lo' n l : lo ≤ lo' → regions lo' n l → regions lo n l.
Proof. destruct l; simpl; [done|]. intuition lia. Qed.

Lemma collapse_regions n lo last l :
  lo ≤ sp_start last → span_wf n last → Forall (span_wf n) l →
  Forall (λ s, sp_start last ≤ sp_start s) l → StronglySorted (not_greater span_less) l →
  regions lo n (collapse last l).
Proof.
  revert lo last. induction l as [|next l IH]; intros lo last Hlo Hlast Hwf Hle Hs; simpl.
  - done.
  - inv Hwf. inv Hle. inv Hs.
    assert (Forall (λ s, sp_start next ≤ sp_start s) l) by (by apply sorted_starts).
    case_match; bool_prop.
    + simpl. split_and!; [done..|]. apply IH; auto with lia.
    + apply IH; simpl; try done.
      destruct Hlast as (? & ? & Hl), H1 as (? & ? & ?). split_and!; simpl.
      * case_match; bool_prop; lia.
      * case_match; lia.
      * by destruct (sp_rules last).
Qed.

Lemma merge_regions n l : Forall (span_wf n) l → regions 0 n (merge l).
Proof.
  intros Hwf. unfold merge.
  pose proof (sort_sorted span_less l) as Hs. rewrite <-(sort_perm span_less l) in Hwf.
  destruct (sort_stable span_less l) as [|s k]; [done|]. inv Hs. inv Hwf.
  apply collapse_regions; try done; [lia|]. by apply sorted_starts.
Qed.

Lemma collapse_covered last l x :
  sp_start last ≤ sp_end last →
  Forall (λ s, sp_start last ≤ sp_start s ≤ sp_end s) l →
  StronglySorted (not_greater span_less) l →
  covered (collapse last l) x = covered (last :: l) x.
Proof.
  revert last. induction l as [|next l IH]; intros last Hlast Hwf Hs; simpl; [done|].
  inv Hwf. inv Hs.
  assert (Forall (λ s, sp_start next ≤ sp_start s ≤ sp_end s) l).
  { rewrite Forall_forall in *. intros s Hs. specialize (H2 _ Hs). specialize (H4 _ Hs).
    apply span_less_start in H4. lia. }
  case_match; bool_prop.
  - simpl. rewrite IH by (auto with lia). done.
  - rewrite IH; simpl; [|case_match; bool_prop; lia|done|done].
    rewrite orb_assoc. f_equal. unfold covers. simpl. apply eq_true_iff_eq.
    rewrite orb_true_iff, !andb_true_iff, !Nat.leb_le, !Nat.ltb_lt.
    case_match; bool_prop; lia.
Qed.

Lemma merge_covered n l x : Forall (span_wf n) l → covered (merge l) x = covered l x.
Proof.
  intros Hwf. unfold merge. rewrite <-(covered_perm _ _ x (sort_perm span_less l)).
  pose proof (sort_sorted span_less l) as Hs. rewrite <-(sort_perm span_less l) in Hwf.
  destruct (sort_stable span_less l) as [|s k]; [done|]. inv Hs. inv Hwf.
  apply collapse_covered; [by destruct H3| |done].
  rewrite Forall_forall in *. intros t Ht. specialize (H2 _ Ht). specialize (H4 _ Ht).
  apply span_less_start in H2. destruct H4. lia.
Qed.

(** Merging neither loses nor invents a rule identifier. *)
Lemma collapse_rules last l :
  collapse last l ≫= sp_rules = (last :: l) ≫= sp_rules.
Proof.
  revert last. induction l as [|next l IH]; intros last; simpl; [done|].
  case_match; simpl; rewrite IH; simpl; [done|]. by rewrite app_assoc.
Qed.

Lemma merge_rules l id : id ∈ merge l ≫= sp_rules ↔ id ∈ l ≫= sp_rules.
Proof.
  unfold merge. rewrite <-(sort_perm span_less l) at 2.
  destruct (sort_stable span_less l); [done|]. by rewrite collapse_rules.
Qed.

Lemma seen_true merged id : seen merged id = true ↔ id ∈ merged ≫= sp_rules.
Proof.
  unfold seen. rewrite existsb_exists, list_elem_of_bind. setoid_rewrite <-list_elem_of_In.
  apply exist_proper. intros r. rewrite bool_decide_eq_true. tauto.
Qed.

Lemma merge_nonempty l : l ≠ [] → merge l ≠ [].
Proof.
  intros Hl. unfold merge. destruct (sort_stable span_less l) as [|s k] eqn:E.
  - apply (f_equal length) in E. rewrite sort_length in E. by destruct l.
  - clear E. revert s. induction k as [|t k IH]; intros s; simpl; [done|]. case_match; [done|]. apply IH.
Qed.

(** ** The abstract reading of a masked text *)

Inductive piece := Kept (s : string) | Marked (id : string).

Definition piece_text (p : piece) : string :=
  match p with Kept s => s | Marked id => marker id end.
Definition piece_kept (p : piece) : string :=
  match p with Kept s => s | Marked _ => "" end.
Definition piece_mark (p : piece) : option string :=
  match p with Kept _ => None | Marked id => Some id end.
Definition piece_shape (p : piece) : option string :=
  match p with Kept s => Some s | Marked _ => None end.

Definition render (ps : list piece) : string := str_concat (piece_text <$> ps).
Definition kept (ps : list piece) : string := str_concat (piece_kept <$> ps).
Definition marks (ps : list piece) : list string := omap piece_mark ps.

Lemma render_cons p ps : render (p :: ps) = piece_text p +:+ render ps.
Proof. done. Qed.

Lemma kept_cons p ps : kept (p :: ps) = piece_kept p +:+ kept ps.
Proof. done. Qed.

#[local] Arguments render : simpl never.
#[local] Arguments kept : simpl never.
#[local] Arguments marker : simpl never.

(** The bytes of [s], whose first byte has position [pos], at the positions outside [cov]. *)
Fixpoint uncovered (cov : nat → bool) (pos : nat) (s : string) : string :=
  match s with
  | "" => ""
  | String.String c s' =>
      if cov pos then uncovered cov (S pos) s' else String.String c (uncovered cov (S pos) s')
  end.

Lemma uncovered_app cov pos s t :
  uncovered cov pos (s +:+ t) = uncovered cov pos s +:+ uncovered cov (pos + slen s) t.
Proof.
  revert pos. induction s as [|c s IH]; intros pos; simpl; [by rewrite Nat.add_0_r|].
  rewrite IH, Nat.add_succ_r. by case_match.
Qed.

Lemma uncovered_ext cov cov' pos s :
  (∀ x, pos ≤ x < pos + slen s → cov x = cov' x) → uncovered cov pos s = uncovered cov' pos s.
Proof.
  revert pos. induction s as [|c s IH]; simpl; intros pos Hx; [done|].
  rewrite (Hx pos) by lia. rewrite (IH (S pos)); [done|]. intros. apply Hx. lia.
Qed.

Lemma uncovered_none pos s : uncovered (λ _, false) pos s = s.
Proof. revert pos. induction s as [|c s IH]; intros pos; simpl; [done|]. by rewrite IH. Qed.

Lemma uncovered_all pos s : uncovered (λ _, true) pos s = "".
Proof. revert pos. induction s as [|c s IH]; intros pos; simpl; [done|]. by rewrite IH. Qed.

(** The pieces [rebuild] writes. *)
Fixpoint pieces (value : string) (cursor : nat) (merged : list span) : list piece :=
  match merged with
  | [] => [Kept (str_drop cursor value)]
  | r :: merged' =>
      Kept (str_slice cursor (sp_start r) value) :: Marked (hd "" (sp_rules r))
      :: pieces value (sp_end r) merged'
  end.

Lemma rebuild_render value cursor merged :
  rebuild value cursor merged = render (pieces value cursor merged).
Proof.
  revert cursor. induction merged as [|r m IH]; intros cursor; simpl.
  - by rewrite render_cons, str_app_nil_r.
  - by rewrite !render_cons, IH.
Qed.

Lemma pieces_marks value cursor merged :
  marks (pieces value cursor merged) = (λ r, hd "" (sp_rules r)) <$> merged.
Proof.
  unfold marks. revert cursor. induction merged as [|r m IH]; intros cursor; simpl; [done|].
  by rewrite IH.
Qed.

Lemma regions_covered_before lo n l x : regions lo n l → x < lo → covered l x = false.
Proof.
  revert lo. induction l as [|r l IH]; intros lo; simpl; [done|].
  intros (Hlo & (Hr & _ & _) & Hl) Hx. rewrite (IH _ Hl) by lia. unfold covers.
  rewrite (proj2 (Nat.leb_gt _ _)) by lia. done.
Qed.

(** What is kept is exactly what no region covers. *)
Lemma pieces_kept value cursor merged :
  regions cursor (slen value) merged →
  kept (pieces value cursor merged) =
  uncovered (covered merged) cursor (str_drop cursor value).
Proof.
  revert cursor. induction merged as [|r m IH]; intros cursor; simpl.
  { intros _. by rewrite kept_cons, str_app_nil_r, uncovered_none. }
  intros (Hlo & (Hse & Hn & _) & Hm). rewrite !kept_cons. simpl.
  rewrite IH by (by eapply regions_mono; [|done]; lia).
  rewrite <-(str_take_drop (sp_start r - cursor) (str_drop cursor value)).
  rewrite str_drop_drop, uncovered_app. fold (str_slice cursor (sp_start r) value).
  replace (cursor + (sp_start r - cursor)) with (sp_start r) by lia.
  rewrite <-(str_take_drop (sp_end r - sp_start r) (str_drop (sp_start r) value)).
  rewrite str_drop_drop, uncovered_app.
  replace (sp_start r + (sp_end r - sp_start r)) with (sp_end r) by lia.
  unfold str_slice. rewrite !slen_take, !slen_drop.
  replace (cursor + (sp_start r - cursor) `min` (slen value - cursor)) with (sp_start r) by lia.
  replace (sp_start r + (sp_end r - sp_start r) `min` (slen value - sp_start r))
    with (sp_end r) by lia.
  f_equal; [|symmetry; etrans;
    [apply (@f_equal _ _ (λ t, t +:+ _) _ "")|apply uncovered_ext]].
  - symmetry. etrans; [|apply uncovered_none]. apply uncovered_ext. intros x.
    rewrite slen_take, slen_drop. intros Hx. simpl. unfold covers.
    rewrite (regions_covered_before _ _ _ _ Hm) by lia. rewrite (proj2 (Nat.leb_gt _ _)) by lia. done.
  - etrans; [|apply (uncovered_all (sp_start r))]. apply uncovered_ext. intros x.
    rewrite slen_take, slen_drop. intros Hx. simpl. unfold covers.
    rewrite (proj2 (Nat.leb_le _ _)), (proj2 (Nat.ltb_lt _ _)) by lia. done.
  - intros x Hx. simpl. unfold covers.
    rewrite (proj2 (Nat.ltb_ge _ _)) by lia. by rewrite andb_false_r.
Qed.

(** ** Masking, as a whole *)

Lemma claims_cons rule rules value :
  claims (rule :: rules) value = claims [rule] value ++ claims rules value.
Proof. unfold claims. simpl. by rewrite app_nil_r. Qed.

Lemma claims_app rules extra value :
  claims (rules ++ extra) value = claims rules value ++ claims extra value.
Proof. apply bind_app. Qed.

(** An identifier claims something when a rule of that name has a match. *)
Definition claiming (rules : list Rule) (value : string) (id : string) : Prop :=
  ∃ rule, rule ∈ rules ∧ rule_ID rule = id ∧ pat_FindAllStringIndex (rule_pattern rule) value ≠ [].

Lemma claims_rules rules value id : id ∈ claims rules value ≫= sp_rules ↔ claiming rules value id.
Proof.
  unfold claims, claiming. rewrite list_elem_of_bind. split.
  - intros (s & Hid & (rule & Hs & Hr)%list_elem_of_bind).
    apply list_elem_of_fmap in Hs as ([b e] & -> & Hbe). simpl in Hid.
    apply list_elem_of_singleton in Hid as ->. exists rule. split_and!; [done..|].
    intros E. rewrite E in Hbe. by apply not_elem_of_nil in Hbe.
  - intros (rule & Hr & <- & Hne).
    destruct (pat_FindAllStringIndex (rule_pattern rule) value) as [|[b e] l] eqn:E; [done|].
    exists (Span b e [rule_ID rule]). split; [by left|].
    apply list_elem_of_bind. exists rule. split; [|done]. rewrite E. by left.
Qed.

Lemma mask_nonempty rules value :
  value ≠ "" → claims rules value ≠ [] →
  mask rules value =
    (rebuild value 0 (merge (claims rules value)), length (merge (claims rules value)),
     filter (λ id, seen (merge (claims rules value)) id = true) (rule_ID <$> rules)).
Proof.
  intros Hv Hc. unfold mask. case_match eqn:E; [by apply String.eqb_eq in E|].
  by destruct (claims rules value) eqn:?.
Qed.

Lemma mask_empty rules value :
  value = "" ∨ claims rules value = [] → mask rules value = (value, 0, []).
Proof. unfold mask. intros [-> | ->]; [done|]. by case_match. Qed.

(** The reported identifiers are identifiers of the policy, in its order. *)
Lemma mask_matched rules value : (mask rules value).2 `sublist_of` (rule_ID <$> rules).
Proof.
  destruct (decide (value = "" ∨ claims rules value = [])) as [He|[Hv Hc]%Decidable.not_or].
  - rewrite mask_empty by done. apply sublist_nil_l.
  - rewrite mask_nonempty by done. apply sublist_filter.
Qed.

(** *** Where the regions lie *)

(** Every claim lies within a region. *)
Lemma collapse_contains last l s :
  Forall (λ t, sp_start last ≤ sp_start t) l → StronglySorted (not_greater span_less) l → s ∈ last :: l →
  ∃ r, r ∈ collapse last l ∧ sp_start r ≤ sp_start s ∧ sp_end s ≤ sp_end r.
Proof.
  revert last s. induction l as [|next l IH]; intros last s Hle Hs Hin; simpl.
  - apply list_elem_of_singleton in Hin as ->. exists last. split; [by left|lia].
  - apply Forall_cons in Hle as [Hn Hle]. apply StronglySorted_inv in Hs as [H1 H2].
    assert (Hnext : Forall (λ t, sp_start next ≤ sp_start t) l) by (by apply sorted_starts).
    case_match; bool_prop.
    + apply elem_of_cons in Hin as [->|Hin]; [exists last; split; [by left|lia]|].
      destruct (IH next s Hnext H1 Hin) as (r & ? & ?). exists r. split; [by right|done].
    + set (grown := Span _ _ _). assert (Hg : Forall (λ t, sp_start grown ≤ sp_start t) l) by done.
      assert (Hin' : s = last ∨ s = next ∨ s ∈ l) by (rewrite !elem_of_cons in Hin; tauto).
      destruct Hin' as [->|[->|Hin']]; [| |by apply (IH grown s Hg H1); right].
      all: destruct (IH grown grown Hg H1) as (r & ? & H3 & H4); [by left|]; exists r; split; [done|];
        simpl in H3, H4; split; [lia|]; case_match; bool_prop; lia.
Qed.

Lemma merge_contains n l s :
  Forall (span_wf n) l → s ∈ l → ∃ r, r ∈ merge l ∧ sp_start r ≤ sp_start s ∧ sp_end s ≤ sp_end r.
Proof.
  intros _ Hin. unfold merge. pose proof (sort_sorted span_less l) as Hs.
  rewrite <-(sort_perm span_less l) in Hin. destruct (sort_stable span_less l) as [|f k]; [by apply not_elem_of_nil in Hin|].
  apply StronglySorted_inv in Hs as [? ?]. apply collapse_contains; [by apply sorted_starts|done|done].
Qed.

(** [s] is the claim a region starting where it starts is named after: no other that starts there is longer. *)
Definition leads (l : list span) (r s : span) : Prop :=
  s ∈ l ∧ sp_start s = sp_start r ∧ hd "" (sp_rules s) = hd "" (sp_rules r)
  ∧ ∀ c, c ∈ l → sp_start c = sp_start r → sp_end c ≤ sp_end s.

Lemma not_greater_end s t : not_greater span_less s t → sp_start t = sp_start s → sp_end t ≤ sp_end s.
Proof. unfold not_greater, span_less. intros H E. rewrite E, Nat.eqb_refl in H. bool_prop. lia. Qed.

(** [f] is the claim the span under construction began with. *)
Lemma collapse_leads f last l r :
  sp_start last = sp_start f → hd "" (sp_rules last) = hd "" (sp_rules f) → sp_rules last ≠ [] →
  sp_start last ≤ sp_end last → Forall (λ t, sp_start t ≤ sp_end t ∧ sp_rules t ≠ []) l →
  StronglySorted (not_greater span_less) (f :: l) → r ∈ collapse last l →
  ∃ s, leads (f :: l) r s ∧ (s = f ∨ sp_end last < sp_start s).
Proof.
  revert f last. induction l as [|next l IH]; intros f last Ef Eh Hne Hend Hwf Hs Hr; simpl in Hr.
  - apply list_elem_of_singleton in Hr as ->. exists f. split; [|by left]. split_and!; [by left|done|done|].
    intros c ->%list_elem_of_singleton _. done.
  - apply Forall_cons in Hwf as [[Hn Hnr] Hwf]. apply StronglySorted_inv in Hs as [Hnl Hf].
    assert (Hfl : StronglySorted (not_greater span_less) (f :: l)).
    { apply Forall_cons in Hf as [_ Hf]. constructor; [by apply StronglySorted_inv in Hnl as [? _]|done]. }
    assert (Hlast : ∀ c, c ∈ f :: next :: l → sp_start c = sp_start f → sp_end c ≤ sp_end f).
    { intros c Hc E. apply elem_of_cons in Hc as [->|Hc]; [done|]. rewrite Forall_forall in Hf.
      by apply not_greater_end; [apply Hf|]. }
    case_match eqn:Hgap; bool_prop.
    + apply elem_of_cons in Hr as [->|Hr].
      { exists f. split; [|by left]. split_and!; [by left|done|done|]. intros c Hc E. apply Hlast; [done|congruence]. }
      destruct (IH next next) as (s & (Hin & E1 & E2 & E3) & Hafter); try done.
      exists s. split.
      * split_and!; [by right|done|done|]. intros c [->|Hc]%elem_of_cons E; [|by apply E3].
        destruct Hafter as [->|?]; lia.
      * right. destruct Hafter as [->|?]; lia.
    + set (grown := Span _ _ _) in Hr.
      destruct (IH f grown) as (s & (Hin & E1 & E2 & E3) & Hafter); try done.
      { unfold grown. simpl. by destruct (sp_rules last). }
      { unfold grown. simpl. by destruct (sp_rules last). }
      { unfold grown. simpl. case_match; bool_prop; lia. }
      assert (Hge : sp_end last ≤ sp_end grown ∧ sp_end next ≤ sp_end grown)
        by (unfold grown; simpl; case_match; bool_prop; lia).
      exists s. split; [|destruct Hafter; [by left|right; lia]]. split_and!; [|done|done|].
      * apply elem_of_cons in Hin as [->|?]; [by left|by right; right].
      * intros c Hc E. destruct Hafter as [->|Hafter]; [apply Hlast; [done|congruence]|].
        apply elem_of_cons in Hc as [->|[->|Hc]%elem_of_cons]; [apply E3; [by left|done]|lia|].
        apply E3; [by right|done].
Qed.

Lemma merge_leads n l r : Forall (span_wf n) l → r ∈ merge l → ∃ s, leads l r s.
Proof.
  intros Hwf. unfold merge. pose proof (sort_sorted span_less l) as Hs.
  assert (Hperm := sort_perm span_less l). rewrite <-Hperm in Hwf.
  destruct (sort_stable span_less l) as [|f k]; [by intros ?%not_elem_of_nil|]. intros Hr.
  apply Forall_cons in Hwf as [(H1 & _ & H2) Hk].
  destruct (collapse_leads f f k r) as (s & (Hin & E1 & E2 & E3) & _); try done.
  { eapply Forall_impl; [exact Hk|]. by intros t (? & _ & ?). }
  exists s. split_and!; [by rewrite <-Hperm|done|done|]. intros c Hc. apply E3. by rewrite Hperm.
Qed.

(** *** The text in segments

    A kept run, then what a marker stands for, and the rule it names. *)

Record segment := { sg_kept : string; sg_hidden : string; sg_rule : string }.

Definition original (gs : list segment) (rest : string) : string :=
  str_concat ((λ g, sg_kept g +:+ sg_hidden g) <$> gs) +:+ rest.
Definition redacted (gs : list segment) (rest : string) : string :=
  str_concat ((λ g, sg_kept g +:+ marker (sg_rule g)) <$> gs) +:+ rest.

(** Where in the original the hidden parts lie, and the rule that stands there: start, end, rule. *)
Fixpoint extents (pos : nat) (gs : list segment) : list (nat * nat * string) :=
  match gs with
  | [] => []
  | g :: gs =>
      let b := pos + slen (sg_kept g) in
      let e := b + slen (sg_hidden g) in
      (b, e, sg_rule g) :: extents e gs
  end.

Fixpoint segments (value : string) (cursor : nat) (merged : list span) : list segment :=
  match merged with
  | [] => []
  | r :: merged =>
      {| sg_kept := str_slice cursor (sp_start r) value; sg_hidden := str_slice (sp_start r) (sp_end r) value;
         sg_rule := hd "" (sp_rules r) |} :: segments value (sp_end r) merged
  end.

Definition last_end (cursor : nat) (merged : list span) : nat := foldl (λ _ r, sp_end r) cursor merged.

Lemma last_end_cons cursor r merged : last_end cursor (r :: merged) = last_end (sp_end r) merged.
Proof. done. Qed.

Lemma original_cons g gs rest : original (g :: gs) rest = sg_kept g +:+ sg_hidden g +:+ original gs rest.
Proof. unfold original. csimpl. by rewrite !str_app_assoc. Qed.

Lemma redacted_cons g gs rest : redacted (g :: gs) rest = sg_kept g +:+ marker (sg_rule g) +:+ redacted gs rest.
Proof.
  unfold redacted. rewrite fmap_cons, str_concat_cons. generalize (marker (sg_rule g)) (str_concat ((λ g0, sg_kept g0 +:+ marker (sg_rule g0)) <$> gs)).
  intros t u. by rewrite !str_app_assoc.
Qed.

Lemma slen_slice b e value : b ≤ e → e ≤ slen value → slen (str_slice b e value) = e - b.
Proof. intros. unfold str_slice. rewrite slen_take, slen_drop. lia. Qed.

Lemma slice_rest b e value : b ≤ e → str_slice b e value +:+ str_drop e value = str_drop b value.
Proof.
  intros. unfold str_slice. replace (str_drop e value) with (str_drop (e - b) (str_drop b value)).
  - apply str_take_drop.
  - rewrite str_drop_drop. f_equal. lia.
Qed.

Lemma segments_original value cursor merged :
  regions cursor (slen value) merged →
  original (segments value cursor merged) (str_drop (last_end cursor merged) value) = str_drop cursor value.
Proof.
  revert cursor. induction merged as [|r m IH]; intros cursor; [done|]. cbn [segments regions]. intros (Hlo & (Hse & Hn & _) & Hm).
  rewrite original_cons, last_end_cons, IH by (by eapply regions_mono; [|done]; lia). simpl.
  by rewrite slice_rest, slice_rest by lia.
Qed.

Lemma segments_redacted value cursor merged :
  rebuild value cursor merged
  = redacted (segments value cursor merged) (str_drop (last_end cursor merged) value).
Proof.
  revert cursor. induction merged as [|r m IH]; intros cursor; [done|]. cbn [segments rebuild].
  by rewrite redacted_cons, last_end_cons, IH.
Qed.

Lemma segments_extents value cursor merged :
  cursor ≤ slen value → regions cursor (slen value) merged →
  extents cursor (segments value cursor merged) = (λ r, (sp_start r, sp_end r, hd "" (sp_rules r))) <$> merged.
Proof.
  revert cursor. induction merged as [|r m IH]; intros cursor Hc; simpl; [done|]. intros (Hlo & (Hse & Hn & _) & Hm).
  rewrite !slen_slice by lia. replace (cursor + (sp_start r - cursor)) with (sp_start r) by lia.
  replace (sp_start r + (sp_end r - sp_start r)) with (sp_end r) by lia. csimpl. f_equal.
  apply IH; [lia|]. by eapply regions_mono; [|done]; lia.
Qed.

Lemma segments_apart value cursor merged :
  regions (S cursor) (slen value) merged → Forall (λ g, sg_kept g ≠ "") (segments value cursor merged).
Proof.
  revert cursor. induction merged as [|r m IH]; intros cursor; simpl; [constructor|]. intros (Hlo & (Hse & Hn & _) & Hm).
  constructor; [|by apply IH]. simpl. intros E. apply (f_equal slen) in E. rewrite slen_slice in E by lia. simpl in E. lia.
Qed.

Lemma length_segments value cursor merged : length (segments value cursor merged) = length merged.
Proof. revert cursor. induction merged as [|r m IH]; intros cursor; simpl; [done|]. by rewrite IH. Qed.

(** The segments of a text with claims. *)
Lemma claims_rule rules value c : c ∈ claims rules value → sp_rules c = [hd "" (sp_rules c)].
Proof.
  unfold claims. intros (rule & Hc & _)%list_elem_of_bind. by apply list_elem_of_fmap in Hc as ([b e] & -> & _).
Qed.

Lemma mask_segments rules value :
  let m := merge (claims rules value) in
  ∃ gs rest, value = original gs rest ∧ rebuild value 0 m = redacted gs rest ∧ length gs = length m
     ∧ Forall (λ g, sg_kept g ≠ "") (tail gs)
     ∧ (value ≠ "" → ∀ c, c ∈ claims rules value →
          ∃ b e id, (b, e, id) ∈ extents 0 gs ∧ b ≤ sp_start c ∧ sp_end c ≤ e)
     ∧ (∀ b e id, (b, e, id) ∈ extents 0 gs →
          (∀ x, b ≤ x < e → covered (claims rules value) x = true)
          ∧ ∃ c, c ∈ claims rules value ∧ sp_start c = b ∧ sp_rules c = [id]
              ∧ ∀ c', c' ∈ claims rules value → sp_start c' = b → sp_end c' ≤ sp_end c).
Proof.
  intros m. pose proof (claims_wf rules value) as Hwf. pose proof (merge_regions _ _ Hwf) as Hreg. fold m in Hreg.
  assert (Hapart : Forall (λ g, sg_kept g ≠ "") (tail (segments value 0 m))).
  { clear -Hreg. destruct m as [|r l]; [constructor|]. destruct Hreg as (_ & _ & Hl). by apply segments_apart. }
  exists (segments value 0 m), (str_drop (last_end 0 m) value).
  rewrite (segments_extents value 0 m) by (done || lia). split_and!.
  - by rewrite segments_original by done.
  - apply segments_redacted.
  - apply length_segments.
  - exact Hapart.
  - intros _ c Hc. destruct (merge_contains _ _ c Hwf Hc) as (r & Hr & ? & ?).
    exists (sp_start r), (sp_end r), (hd "" (sp_rules r)). split; [|done]. apply list_elem_of_fmap. by exists r.
  - intros b e id (r & [= -> -> ->] & Hr)%list_elem_of_fmap. split.
    + intros x Hx. rewrite <-(merge_covered _ _ x Hwf). apply covered_true. by exists r.
    + destruct (merge_leads _ _ r Hwf Hr) as (c & Hc & E1 & E2 & E3). exists c.
      rewrite (claims_rule _ _ _ Hc), E2. by split_and!.
Qed.

(** C9: masking keeps exactly the bytes no rule claims, and puts one marker in the place of each maximal
    claimed region. The original is a sequence of segments, a kept run and a hidden part each, and a rest;
    the masked text is the same sequence with a marker for every hidden part and nothing else moved. Every
    claim of every rule lies within a hidden part, and no byte of a hidden part is unclaimed; two hidden
    parts never touch, so each is a maximal region; its marker names the rule of the longest claim that
    starts where it starts. There are as many as reported occurrences; the reported rules are those of the
    policy that claimed something, in policy order; a text nothing claims is unchanged. *)
Theorem mask_correct rules value :
  let '(masked, occurrences, matched) := mask rules value in
  (∃ gs rest, value = original gs rest ∧ masked = redacted gs rest ∧ length gs = occurrences
     ∧ Forall (λ g, sg_kept g ≠ "") (tail gs)
     ∧ (value ≠ "" → ∀ c, c ∈ claims rules value →
          ∃ b e id, (b, e, id) ∈ extents 0 gs ∧ b ≤ sp_start c ∧ sp_end c ≤ e)
     ∧ (∀ b e id, (b, e, id) ∈ extents 0 gs →
          (∀ x, b ≤ x < e → covered (claims rules value) x = true)
          ∧ ∃ c, c ∈ claims rules value ∧ sp_start c = b ∧ sp_rules c = [id]
              ∧ ∀ c', c' ∈ claims rules value → sp_start c' = b → sp_end c' ≤ sp_end c))
  ∧ (∃ ps, masked = render ps
     ∧ kept ps = uncovered (covered (claims rules value)) 0 value
     ∧ length (marks ps) = occurrences
     ∧ Forall (λ id, id ∈ matched) (marks ps))
  ∧ matched `sublist_of` (rule_ID <$> rules)
  ∧ (value ≠ "" → ∀ id, id ∈ matched ↔ claiming rules value id)
  ∧ (occurrences = 0 → masked = value)
  ∧ (value ≠ "" → occurrences = 0 → claims rules value = []).
Proof.
  destruct (decide (value = "" ∨ claims rules value = [])) as [He|[Hv Hc]%Decidable.not_or].
  - rewrite mask_empty by done. split_and!.
    + exists [], value. split_and!; try done; [|by intros b e id ?%not_elem_of_nil].
      intros Hv c Hc. destruct He as [?|He]; [done|]. rewrite He in Hc. by apply not_elem_of_nil in Hc.
    + exists [Kept value]. rewrite render_cons, kept_cons. simpl.
      rewrite !str_app_nil_r. split_and!; [done| |done|constructor].
      destruct He as [-> | ->]; [done|]. by rewrite uncovered_none.
    + apply sublist_nil_l.
    + intros Hv id. destruct He as [?|He]; [done|]. rewrite <-claims_rules, He. done.
    + done.
    + intros Hv _. by destruct He.
  - rewrite mask_nonempty by done. pose proof (claims_wf rules value) as Hwf.
    pose proof (merge_regions _ _ Hwf) as Hreg.
    assert (∀ id, id ∈ filter (λ id, seen (merge (claims rules value)) id = true) (rule_ID <$> rules)
      ↔ claiming rules value id) as Hids.
    { intros id. rewrite list_elem_of_filter, seen_true, merge_rules, claims_rules.
      split; [by intros []|]. intros Hcl. split; [done|].
      destruct Hcl as (rule & Hr & <- & _). by apply list_elem_of_fmap_2. }
    split_and!.
    + by apply mask_segments.
    + exists (pieces value 0 (merge (claims rules value))).
      rewrite rebuild_render, pieces_kept, pieces_marks, length_fmap by done. split_and!; try done.
      * apply uncovered_ext. intros x _. by apply merge_covered with (slen value).
      * apply Forall_fmap, Forall_forall. intros r Hr. simpl.
        rewrite Hids, <-claims_rules, <-merge_rules. apply list_elem_of_bind. exists r.
        split; [|done]. clear -Hreg Hr. revert Hreg Hr. generalize 0.
        induction (merge (claims rules value)) as [|r' m IH]; simpl; intros lo Hreg Hr.
        { by apply not_elem_of_nil in Hr. }
        destruct Hreg as (_ & (_ & _ & Hne) & Hm).
        apply elem_of_cons in Hr as [->|Hr]; [|by eapply IH].
        destruct (sp_rules r'); [done|by left].
    + apply sublist_filter.
    + done.
    + intros Hz%length_zero_iff_nil. by apply merge_nonempty in Hz.
    + intros _ Hz%length_zero_iff_nil. by apply merge_nonempty in Hz.
Qed.

(** ** The order of the rules *)

Definition extent (s : span) : nat * nat := (sp_start s, sp_end s).

Definition extent_less (x y : nat * nat) : bool :=
  if x.1 =? y.1 then y.2 <? x.2 else x.1 <? y.1.

Fixpoint extent_collapse (last : nat * nat) (l : list (nat * nat)) : list (nat * nat) :=
  match l with
  | [] => [last]
  | next :: l' =>
      if last.2 <? next.1 then last :: extent_collapse next l'
      else extent_collapse (last.1, if last.2 <? next.2 then next.2 else last.2) l'
  end.

Lemma collapse_extent last l :
  extent <$> collapse last l = extent_collapse (extent last) (extent <$> l).
Proof.
  revert last. induction l as [|next l IH]; intros last; csimpl; [done|].
  case_match; csimpl; by rewrite IH.
Qed.

#[export] Instance extent_less_sw : StrictWeak extent_less.
Proof.
  split; intros x y; unfold extent_less; intros;
    repeat match goal with H : context [if ?b then _ else _] |- _ => destruct b eqn:?
      | |- context [if ?b then _ else _] => destruct b eqn:? end; bool_prop;
    try apply Nat.ltb_ge; try lia.
Qed.

(** The merged regions depend on the claims' extents only, not on their order. *)
Lemma merge_extent l k :
  extent <$> l ≡ₚ extent <$> k → extent <$> merge l = extent <$> merge k.
Proof.
  intros Hp. assert (extent <$> sort_stable span_less l = extent <$> sort_stable span_less k) as Hs.
  { rewrite !(sort_fmap extent span_less extent_less) by done. apply sort_unique; [apply _| |done].
    intros [a b] [c d] _ _. unfold extent_less. simpl.
    destruct (a =? c) eqn:E1, (c =? a) eqn:E2; intros; bool_prop; f_equal; lia. }
  unfold merge. destruct (sort_stable span_less l), (sort_stable span_less k); try done.
  rewrite !collapse_extent. rewrite !fmap_cons in Hs. injection Hs as H1 H2 Hr.
  assert (extent s = extent s0) as -> by (unfold extent; by rewrite H1, H2). by rewrite Hr.
Qed.

Lemma pieces_shape value cursor m1 m2 :
  extent <$> m1 = extent <$> m2 →
  piece_shape <$> pieces value cursor m1 = piece_shape <$> pieces value cursor m2.
Proof.
  revert cursor m2. induction m1 as [|r m1 IH]; intros cursor [|r2 m2] Hm; try done.
  rewrite !fmap_cons in Hm. injection Hm as H1 H2 Hm. csimpl. rewrite H1, H2.
  by rewrite (IH _ _ Hm).
Qed.

Lemma claims_perm rules rules' value :
  rules ≡ₚ rules' → claims rules value ≡ₚ claims rules' value.
Proof. intros Hp. unfold claims. by rewrite Hp. Qed.

(** the order of a policy's rules decides only which identifier a marker shows and in which order the
    identifiers are reported: where the markers stand, what is kept between them, how many there are
    and which rules are reported do not depend on it. *)
Theorem mask_rule_order rules rules' value :
  rules ≡ₚ rules' →
  let '(masked, occurrences, matched) := mask rules value in
  let '(masked', occurrences', matched') := mask rules' value in
  occurrences = occurrences' ∧ matched ≡ₚ matched'
  ∧ ∃ ps ps', masked = render ps ∧ masked' = render ps'
      ∧ piece_shape <$> ps = piece_shape <$> ps'.
Proof.
  intros Hp. pose proof (claims_perm _ _ value Hp) as Hc.
  destruct (decide (value = "" ∨ claims rules value = [])) as [He|[Hv Hn]%Decidable.not_or].
  - rewrite !mask_empty; [|destruct He as [?|He]; [by left|right]|done].
    2: { rewrite He in Hc. by apply Permutation_nil_l in Hc. }
    split_and!; [done..|]. exists [Kept value], [Kept value].
    by rewrite render_cons, str_app_nil_r.
  - assert (claims rules' value ≠ []) as Hn'.
    { intros E. rewrite E in Hc. by apply Permutation_nil_r in Hc. }
    rewrite !mask_nonempty by done.
    assert (extent <$> merge (claims rules value) = extent <$> merge (claims rules' value)) as Hm
      by (apply merge_extent; by rewrite Hc).
    split_and!.
    + apply (f_equal length) in Hm. by rewrite !length_fmap in Hm.
    + rewrite Hp. erewrite (list_filter_iff (λ id, _ = _)); [done|].
      intros id. rewrite !seen_true, !merge_rules, Hc. done.
    + do 2 eexists. rewrite !rebuild_render. split_and!; [done..|]. by apply pieces_shape.
Qed.

(** A rule's occurrences start inside its claims. *)
Lemma claims_cover rules value rule r pre i p' i' :
  rule ∈ rules → rule_pattern rule = of_re r → wf_re r = true → nullable r = false →
  to_input value = pre ++ i → den r (prev_of None pre) i p' i' →
  covered (claims rules value) (widths pre) = true.
Proof.
  intros Hr Hp Hwf Hn Hi Hd.
  assert (Exists (λ '(b, e), b ≤ 0 + widths pre < e)
    (find_all (S (length (to_input value))) r None (pre ++ i) 0 None)) as Hex.
  { eapply find_all_covers; try done; [|rewrite Hi; lia]. rewrite <-Hi. apply to_input_positive. }
  rewrite <-Hi in Hex. fold (FindAllStringIndex r value) in Hex.
  apply Exists_exists in Hex as ([b e] & Hin & Hbe).
  apply covered_true. exists (Span b e [rule_ID rule]). split; [|done].
  apply list_elem_of_bind. exists rule. split; [|done]. rewrite Hp. simpl.
  apply list_elem_of_fmap. by exists (b, e).
Qed.

(** ** Constructing rules *)

Lemma NewRule_Ok compile id pattern rule :
  NewRule compile id pattern = Ok rule →
  rule_ID rule = id ∧ compile pattern = Some (rule_pattern rule).
Proof. unfold NewRule. intros Hn. repeat case_hyp Hn. done. Qed.

(** [NewRule] builds a rule exactly when the identifier is more than white space, the pattern
    compiles and does not match the empty string; it reports the first of these that fails. *)
Theorem NewRule_spec compile id pattern :
  match NewRule compile id pattern with
  | Ok rule => trim_space id ≠ "" ∧ rule_ID rule = id
      ∧ compile pattern = Some (rule_pattern rule)
      ∧ pat_MatchString (rule_pattern rule) "" = false
  | Err NoIdentifier => trim_space id = ""
  | Err NotCompiled => trim_space id ≠ "" ∧ compile pattern = None
  | Err MatchesEmpty => trim_space id ≠ ""
      ∧ ∃ p, compile pattern = Some p ∧ pat_MatchString p "" = true
  end.
Proof. unfold NewRule. repeat case_match; simplify_eq; bool_prop; naive_solver. Qed.

(** The refusal looks at the empty text only: [\b] passes it, although its matches elsewhere are empty,
    and a policy with such a rule marks word boundaries and masks nothing. *)
Example word_boundary_rule :
  is_ok (NewRule (λ _, Some (of_re RWordB)) "customer.b" "\b") = true
  ∧ mask [{| rule_ID := "b"; rule_pattern := of_re RWordB |}] "pw x"
    = ("[redacted:b]pw[redacted:b] [redacted:b]x[redacted:b]", 4, ["b"]).
Proof. split; vm_compute; reflexivity. Qed.
