(* ===== verification/Declared.v ===== *)
(** * What every string field of a result is (internal/redaction/declared.go, paths.go)

    The message descriptors of a capability result, transcribed from proto/opencluster/relay/v1, the
    table that classifies its string fields, the depth-first search that decides whether a capability
    may carry free text, and the enumeration of the dotted field names. *)

From S2P Require Import Prelude GoString Wire.
From stdpp Require Import options.
#[local] Arguments String.append : simpl nomatch.

(** ** Descriptors *)

Inductive field_kind :=
  | ScalarKind                                  (* numbers, booleans, enumerations *)
  | StringKind
  | MessageKind (full_name : string) (is_map : bool).

Record field_desc := Field { fd_Name : string; fd_Kind : field_kind; fd_IsList : bool }.

Definition descriptors := list (string * list field_desc).

(** [message.Fields()], in declaration order. *)
Definition fields_of (schema : descriptors) (message : string) : list field_desc :=
  match list_find (λ x, x.1 = message) schema with Some (_, (_, fs)) => fs | None => [] end.

Definition v1 (name : string) : string := "opencluster.relay.v1." +:+ name.
Definition Timestamp_name : string := "google.protobuf.Timestamp".
Definition Duration_name : string := "google.protobuf.Duration".

Definition scalar (name : string) : field_desc := Field name ScalarKind false.
Definition str (name : string) : field_desc := Field name StringKind false.
Definition strs (name : string) : field_desc := Field name StringKind true.
Definition msg (name full_name : string) : field_desc := Field name (MessageKind full_name false) false.
Definition msgs (name full_name : string) : field_desc := Field name (MessageKind full_name false) true.

(** The messages reachable from [CapabilityResult]. *)
Definition schema : descriptors := [
  (v1 "CapabilityResult",
    [msg "redaction" (v1 "RedactionReport");
     msg "kubernetes_workload_runtime_v1" (v1 "KubernetesWorkloadRuntimeResultV1");
     msg "kubernetes_namespace_events_v1" (v1 "KubernetesNamespaceEventsResultV1");
     msg "kubernetes_container_logs_v1" (v1 "KubernetesContainerLogsResultV1")]);
  (v1 "RedactionReport", [msgs "fields" (v1 "RedactedField")]);
  (v1 "RedactedField", [str "field_name"; scalar "masked_occurrence_count"; strs "rule_ids"]);
  (v1 "KubernetesWorkloadRuntimeResultV1",
    [scalar "outcome"; msg "workload" (v1 "KubernetesWorkloadSummary");
     msgs "pods" (v1 "KubernetesPodRuntime"); scalar "returned_pod_count"; scalar "complete";
     msg "read_at" Timestamp_name; scalar "applied_max_pods"]);
  (v1 "KubernetesWorkloadSummary",
    [str "kind"; str "name"; str "namespace"; str "uid"; scalar "desired_replicas";
     scalar "ready_replicas"; scalar "updated_replicas"; scalar "available_replicas";
     scalar "generation"; scalar "observed_generation"; msg "created_at" Timestamp_name;
     strs "container_images"; msgs "container_resources" (v1 "KubernetesContainerResources");
     str "selector_summary"]);
  (v1 "KubernetesContainerResources",
    [str "container"; str "cpu_request"; str "cpu_limit"; str "memory_request"; str "memory_limit"]);
  (v1 "KubernetesPodRuntime",
    [str "name"; str "phase"; str "node_name"; msg "started_at" Timestamp_name; scalar "ready";
     str "unscheduled_reason"; msgs "containers" (v1 "KubernetesContainerRuntime")]);
  (v1 "KubernetesContainerRuntime",
    [str "name"; str "image"; scalar "ready"; scalar "restart_count";
     msg "state" (v1 "KubernetesContainerState");
     msg "last_termination" (v1 "KubernetesContainerTermination")]);
  (v1 "KubernetesContainerState",
    [scalar "kind"; str "waiting_reason"; msg "running_since" Timestamp_name;
     msg "termination" (v1 "KubernetesContainerTermination")]);
  (v1 "KubernetesContainerTermination",
    [str "reason"; scalar "exit_code"; msg "finished_at" Timestamp_name]);
  (v1 "KubernetesNamespaceEventsResultV1",
    [scalar "outcome"; msgs "events" (v1 "KubernetesEvent"); scalar "returned_event_count";
     scalar "complete"; scalar "window_predates_retention";
     msg "applied_retention_horizon" Duration_name; msg "read_at" Timestamp_name;
     scalar "applied_max_events"]);
  (v1 "KubernetesEvent",
    [str "type"; str "reason"; str "message"; msg "involved_object" (v1 "KubernetesInvolvedObject");
     str "source_component"; scalar "count"; msg "first_seen_at" Timestamp_name;
     msg "last_seen_at" Timestamp_name]);
  (v1 "KubernetesInvolvedObject", [str "kind"; str "name"; str "uid"]);
  (v1 "KubernetesContainerLogsResultV1",
    [scalar "outcome"; msgs "lines" (v1 "KubernetesLogLine"); scalar "returned_line_count";
     scalar "returned_byte_count"; scalar "complete"; scalar "truncated_by_line_bound";
     scalar "truncated_by_byte_bound"; scalar "withheld_byte_count"; msg "read_at" Timestamp_name;
     scalar "applied_max_lines"; scalar "applied_max_bytes"]);
  (v1 "KubernetesLogLine", [msg "at" Timestamp_name; str "content"]);
  (Timestamp_name, [scalar "seconds"; scalar "nanos"]);
  (Duration_name, [scalar "seconds"; scalar "nanos"])
].

(** ** The table *)

Inductive Classification := Structural | FreeText.
#[export] Instance Classification_eq_dec : EqDecision Classification.
Proof. solve_decision. Defined.

Definition structural (names : list string) : list (string * Classification) :=
  (λ n, (n, Structural)) <$> names.

Definition declared : list (string * list (string * Classification)) := [
  (v1 "RedactedField", structural ["field_name"; "rule_ids"]);
  (v1 "KubernetesWorkloadSummary",
    structural ["kind"; "name"; "namespace"; "uid"; "container_images"; "selector_summary"]);
  (v1 "KubernetesContainerResources",
    structural ["container"; "cpu_request"; "cpu_limit"; "memory_request"; "memory_limit"]);
  (v1 "KubernetesPodRuntime", structural ["name"; "phase"; "node_name"; "unscheduled_reason"]);
  (v1 "KubernetesContainerRuntime", structural ["name"; "image"]);
  (v1 "KubernetesContainerState", structural ["waiting_reason"]);
  (v1 "KubernetesContainerTermination", structural ["reason"]);
  (v1 "KubernetesInvolvedObject", structural ["kind"; "name"; "uid"]);
  (v1 "KubernetesEvent",
    structural ["type"; "reason"; "source_component"] ++ [("message", FreeText)]);
  (v1 "KubernetesLogLine", [("content", FreeText)])
].

(** [classify]: [None] when nobody classified the field. *)
Definition classify (message field : string) : option Classification :=
  '(_, fields) ← snd <$> list_find (λ x, x.1 = message) declared;
  '(_, c) ← snd <$> list_find (λ x, x.1 = field) fields;
  Some c.

(** ** Which capabilities may carry free text *)

Definition capabilityResults : list (string * Z * string) := [
  ("kubernetes.workload.runtime", 1%Z, "kubernetes_workload_runtime_v1");
  ("kubernetes.namespace.events", 1%Z, "kubernetes_namespace_events_v1");
  ("kubernetes.container.logs", 1%Z, "kubernetes_container_logs_v1")
].

(** A string field that must be treated as free text. *)
Definition unsafe_string (message field : string) : bool :=
  match classify message field with Some Structural => false | _ => true end.

Section search.
Context (schema : descriptors).

(** The loop over the fields of one message; [visit] is the recursive call. The visited set is
    shared by the whole search, so it is threaded. *)
Definition any_field (visit : string → list string → bool * list string) (message : string) :
    list field_desc → list string → bool * list string :=
  fix go fields visited :=
    match fields with
    | [] => (false, visited)
    | field :: fields' =>
        match fd_Kind field with
        | StringKind =>
            if unsafe_string message (fd_Name field) then (true, visited) else go fields' visited
        | MessageKind name _ =>
            let '(carries, visited') := visit name visited in
            if carries then (true, visited') else go fields' visited'
        | ScalarKind => go fields' visited
        end
    end.

(** [messageCarriesFreeText]; running out of fuel would answer the safe [true]. *)
Fixpoint messageCarriesFreeText (fuel : nat) (message : string) (visited : list string)
    : bool * list string :=
  match fuel with
  | O => (true, visited)
  | S fuel' =>
      if bool_decide (message ∈ visited) then (false, visited)
      else any_field (messageCarriesFreeText fuel') message (fields_of schema message)
             (message :: visited)
  end.

(** ** The search is right *)

(** [y] is the type of a message field of [x]. *)
Definition refers (x y : string) : Prop :=
  ∃ f is_map, f ∈ fields_of schema x ∧ fd_Kind f = MessageKind y is_map.

(** No string field of [x] is free text or unclassified. *)
Definition safe_message (x : string) : Prop :=
  ∀ f, f ∈ fields_of schema x → fd_Kind f = StringKind → classify x (fd_Name f) = Some Structural.

Definition reaches : string → string → Prop := rtc refers.

(** What the search establishes of every message it newly visited. *)
Definition closed_in (visited : list string) (x : string) : Prop :=
  safe_message x ∧ ∀ y, refers x y → y ∈ visited.

Lemma any_field_false visit message fields V V' :
  (∀ n W W', visit n W = (false, W') →
     W ⊆ W' ∧ n ∈ W' ∧ ∀ x, x ∈ W' → x ∉ W → closed_in W' x) →
  any_field visit message fields V = (false, V') →
  V ⊆ V' ∧ (∀ x, x ∈ V' → x ∉ V → closed_in V' x)
  ∧ ∀ f, f ∈ fields →
      match fd_Kind f with
      | StringKind => classify message (fd_Name f) = Some Structural
      | MessageKind n _ => n ∈ V'
      | ScalarKind => True
      end.
Proof.
  intros Hvisit. revert V. induction fields as [|f fields IH]; intros V; simpl.
  { intros [= <-]. split_and!; [done|done|]. by intros f ?%not_elem_of_nil. }
  destruct (fd_Kind f) as [| |n is_map] eqn:Ek; intros Ho.
  - destruct (IH _ Ho) as (? & ? & Hf). split_and!; [done..|].
    intros g [->|Hg]%elem_of_cons; [by rewrite Ek|by apply Hf].
  - unfold unsafe_string in Ho. destruct (classify _ _) as [[]|] eqn:Ec; try done.
    destruct (IH _ Ho) as (? & ? & Hf). split_and!; [done..|].
    intros g [->|Hg]%elem_of_cons; [by rewrite Ek|by apply Hf].
  - destruct (visit n V) as [[] W] eqn:Ev; [done|].
    destruct (Hvisit _ _ _ Ev) as (HVW & Hn & Hc). destruct (IH _ Ho) as (HWV & Hc' & Hf).
    split_and!.
    + by etrans.
    + intros x Hx Hnx. destruct (decide (x ∈ W)) as [HxW|HxW]; [|by apply Hc'].
      destruct (Hc x HxW Hnx) as [Hs Hr]. split; [done|]. intros y Hy. apply HWV, Hr, Hy.
    + intros g [->|Hg]%elem_of_cons; [rewrite Ek; by apply HWV|by apply Hf].
Qed.

Lemma search_false fuel m V V' :
  messageCarriesFreeText fuel m V = (false, V') →
  V ⊆ V' ∧ m ∈ V' ∧ ∀ x, x ∈ V' → x ∉ V → closed_in V' x.
Proof.
  revert m V V'. induction fuel as [|fuel IH]; intros m V V'; simpl; [done|].
  case_bool_decide as Hm; [intros [= <-]; by split_and!|].
  intros Ha. pose proof Ha as (HV & Hc & Hf)%any_field_false; [|done].
  split_and!; [set_solver|apply HV; by left|].
  intros x Hx Hnx. destruct (decide (x = m)) as [->|Hne]; [|apply Hc; [done|set_solver]].
  split.
  - intros f Hin Hk. specialize (Hf f Hin). by rewrite Hk in Hf.
  - intros y (f & is_map & Hin & Hk). specialize (Hf f Hin). by rewrite Hk in Hf.
Qed.

Lemma search_sound fuel m :
  (messageCarriesFreeText fuel m []).1 = false → ∀ x, reaches m x → safe_message x.
Proof.
  destruct (messageCarriesFreeText fuel m []) as [b V] eqn:E. simpl. intros -> x Hx.
  apply search_false in E as (_ & Hm & Hc).
  assert (∀ z, z ∈ V → closed_in V z) as Hcl by (intros; apply Hc; set_solver).
  assert (x ∈ V) as HxV; [|by apply Hcl].
  induction Hx as [|a b c Hab _ IH]; [done|]. apply IH. by eapply (Hcl a).
Qed.
(** ** The fuel is enough *)

Definition unvisited (V : list string) : nat := length (filter (λ x, x ∉ V) schema.*1).

Lemma any_field_visited visit message fields V b V' :
  (∀ n W c W', visit n W = (c, W') → W ⊆ W') →
  any_field visit message fields V = (b, V') → V ⊆ V'.
Proof.
  intros Hvisit. revert V. induction fields as [|f fields IH]; intros V; simpl; [by intros [= _ <-]|].
  destruct (fd_Kind f) as [| |n ?]; [apply IH|case_match; [by intros [= _ <-]|apply IH]|].
  destruct (visit n V) as [[] W] eqn:Ev; apply Hvisit in Ev; [by intros [= _ <-]|].
  intros ?%IH. by etrans.
Qed.

Lemma search_visited fuel m V b V' : messageCarriesFreeText fuel m V = (b, V') → V ⊆ V'.
Proof.
  revert m V b V'. induction fuel as [|fuel IH]; intros m V b V'; simpl; [by intros [= _ <-]|].
  case_bool_decide; [by intros [= _ <-]|].
  intros Ha%any_field_visited; [|apply IH]. etrans; [|exact Ha]. by apply list_subseteq_cons.
Qed.

Lemma any_field_ext visit visit' message fields V :
  (∀ n W c W', visit n W = (c, W') → W ⊆ W') →
  (∀ n W, V ⊆ W → visit n W = visit' n W) →
  any_field visit message fields V = any_field visit' message fields V.
Proof.
  intros Hvisit. revert V. induction fields as [|f fields IH]; intros V Heq; simpl; [done|].
  destruct (fd_Kind f) as [| |n ?]; [by apply IH|case_match; [done|by apply IH]|].
  rewrite <-Heq by done. destruct (visit n V) as [[] W] eqn:Ev; [done|]. apply IH.
  intros n' W' HW. apply Heq. apply Hvisit in Ev. by etrans.
Qed.

Lemma unvisited_mono V W : V ⊆ W → unvisited W ≤ unvisited V.
Proof.
  intros HVW. unfold unvisited. generalize schema.*1 as l. induction l as [|x l IH]; [done|].
  rewrite !filter_cons. repeat case_decide; simpl; try lia. exfalso. naive_solver.
Qed.

Lemma unvisited_cons m V : m ∈ schema.*1 → m ∉ V → S (unvisited (m :: V)) ≤ unvisited V.
Proof.
  unfold unvisited. generalize schema.*1 as l. induction l as [|x l IH]; intros Hm Hn.
  { by apply not_elem_of_nil in Hm. }
  rewrite !filter_cons.
  assert (∀ k : list string, length (filter (λ y, y ∉ m :: V) k)
    ≤ length (filter (λ y, y ∉ V) k)) as Hle.
  { intros k. induction k as [|y k IHk]; [done|]. rewrite !filter_cons.
    repeat case_decide; simpl; try lia. exfalso. set_solver. }
  destruct (decide (x = m)) as [->|Hx].
  - rewrite decide_False by (intros Hf; apply Hf; by left). rewrite decide_True by done.
    simpl. specialize (Hle l). lia.
  - apply elem_of_cons in Hm as [->|Hm]; [done|].
    assert (S (length (filter (λ y, y ∉ m :: V) l)) ≤ length (filter (λ y, y ∉ V) l)) as Hl.
    { by apply IH. }
    repeat case_decide; simpl; try lia; exfalso; set_solver.
Qed.

Lemma fields_of_unknown m : m ∉ schema.*1 → fields_of schema m = [].
Proof.
  intros Hm. unfold fields_of. destruct (list_find _ _) as [[k [n fs]]|] eqn:E; [|done].
  apply list_find_Some in E as (Hk & Hn & _). simpl in Hn. subst. exfalso. apply Hm.
  apply list_elem_of_fmap. exists (m, fs). split; [done|]. by eapply list_elem_of_lookup_2.
Qed.

(** More fuel than unvisited messages changes nothing: the search never runs out. *)
Lemma search_fuel_enough f g m V :
  unvisited V < f → unvisited V < g →
  messageCarriesFreeText f m V = messageCarriesFreeText g m V.
Proof.
  revert g m V. induction f as [|f IH]; intros [|g] m V Hf Hg; try lia. simpl.
  case_bool_decide as Hm; [done|].
  destruct (decide (m ∈ schema.*1)) as [Hs|Hs]; [|by rewrite fields_of_unknown].
  pose proof (unvisited_cons _ _ Hs Hm). apply any_field_ext; [intros; by eapply search_visited|].
  intros n W HW. apply unvisited_mono in HW. apply IH; lia.
Qed.
End search.

(** The recursion enters each message of the schema at most once. *)
Definition search_fuel : nat := S (length schema).

(** The message type of a field of [CapabilityResult]. *)
Definition result_message (field : string) : option string :=
  match list_find (λ f, fd_Name f = field) (fields_of schema (v1 "CapabilityResult")) with
  | Some (_, Field _ (MessageKind name _) _) => Some name
  | _ => None
  end.

Definition carriesFreeText (id : string) (version : Z) : bool :=
  match list_find (λ c, c.1.1 = id ∧ c.1.2 = version) capabilityResults with
  | None => true
  | Some (_, (_, field)) =>
      match result_message field with
      | Some name => (messageCarriesFreeText schema search_fuel name []).1
      | None => true
      end
  end.

Lemma result_message_Some field name :
  result_message field = Some name →
  ∃ f is_map, f ∈ fields_of schema (v1 "CapabilityResult") ∧ fd_Name f = field
    ∧ fd_Kind f = MessageKind name is_map.
Proof.
  unfold result_message. generalize (fields_of schema (v1 "CapabilityResult")) as fs. intros fs.
  destruct (list_find _ fs) as [[k [n [| |name' m] l]]|] eqn:E; try done.
  intros [= <-]. apply list_find_Some in E as (Hk & Hn & _). apply list_elem_of_lookup_2 in Hk.
  by eexists _, m.
Qed.

(** a capability the enforcement point runs under a faulted policy cannot carry free text: it is one
    whose result field is known, and every string field of every message reachable from that field's
    type is declared structural. *)
Theorem carriesFreeText_sound id version :
  carriesFreeText id version = false →
  ∃ field f name is_map, (id, version, field) ∈ capabilityResults
    ∧ f ∈ fields_of schema (v1 "CapabilityResult") ∧ fd_Name f = field
    ∧ fd_Kind f = MessageKind name is_map
    ∧ ∀ x, reaches schema name x → safe_message schema x.
Proof.
  unfold carriesFreeText.
  destruct (list_find _ capabilityResults) as [[k [[id' v'] field]]|] eqn:E; [|done].
  apply list_find_Some in E as (Hk & [Hid Hv] & _). simpl in Hid, Hv. subst.
  destruct (result_message field) as [name|] eqn:Hr; [|done].
  apply result_message_Some in Hr as (f & is_map & Hf & Hn & Hkind). intros Hs.
  apply list_elem_of_lookup_2 in Hk. exists field, f, name, is_map. split_and!; try done.
  by eapply search_sound.
Qed.

(** of the compiled capabilities only the workload runtime read may run under a faulted policy; the
    search behind the answer ends by itself, whatever the message it starts from: fuel beyond the number
    of messages changes nothing. *)
Theorem carriesFreeText_table id version :
  (carriesFreeText id version = false ↔ id = "kubernetes.workload.runtime" ∧ version = 1%Z)
  ∧ ∀ m extra, messageCarriesFreeText schema (search_fuel + extra) m []
               = messageCarriesFreeText schema search_fuel m [].
Proof.
  split.
  - unfold carriesFreeText. split.
    + destruct (list_find _ capabilityResults) as [[k [[id' v'] field]]|] eqn:E; [|done].
      apply list_find_Some in E as (Hk & [Hid Hv] & _). simpl in Hid, Hv. subst.
      destruct k as [|[|[|k]]]; [| | |done]; injection Hk as <- <- <-; [done|..]; vm_compute; done.
    + intros [-> ->]. vm_compute. done.
  - intros m extra.
    assert (unvisited schema [] < search_fuel) by (vm_compute; lia).
    apply search_fuel_enough; lia.
Qed.

(** ** The dotted names *)

Record FieldPath := {
  fp_Path : string;
  fp_Message : string;
  fp_Field : string;
  fp_Classification : option Classification;   (* [None]: not [Declared] *)
}.

(** The path of a field below [prefix]. *)
Definition dotted (prefix name : string) : string :=
  if (prefix =? "")%string then name else prefix +:+ "." +:+ name.

(** [walkStrings]: [visiting] holds the messages on the way here, so a cycle ends the walk. *)
Fixpoint walkStrings (fuel : nat) (message prefix : string) (visiting : list string)
    : list FieldPath :=
  match fuel with
  | O => []
  | S fuel' =>
      if bool_decide (message ∈ visiting) then [] else
      fields_of schema message ≫= λ field,
        let path := dotted prefix (fd_Name field) in
        match fd_Kind field with
        | StringKind => [{| fp_Path := path; fp_Message := message; fp_Field := fd_Name field;
                            fp_Classification := classify message (fd_Name field) |}]
        | MessageKind _ true => []
        | MessageKind name false => walkStrings fuel' name path (message :: visiting)
        | ScalarKind => []
        end
  end.

(** The walk never runs out either: more fuel than messages not on the way changes nothing. *)
Lemma walk_fuel_enough f g m prefix V :
  unvisited schema V < f → unvisited schema V < g → walkStrings f m prefix V = walkStrings g m prefix V.
Proof.
  revert g m prefix V. induction f as [|f IH]; intros [|g] m prefix V Hf Hg; try lia. simpl.
  case_bool_decide as Hm; [done|].
  destruct (decide (m ∈ schema.*1)) as [Hs|Hs]; [|by rewrite fields_of_unknown].
  pose proof (unvisited_cons _ _ _ Hs Hm). apply list_bind_ext; [|done]. intros [? [| |n []]]; try done.
  apply IH; lia.
Qed.

Definition FieldPaths : list FieldPath :=
  sort_stable (λ f g, str_ltb (fp_Path f) (fp_Path g))
    (walkStrings search_fuel (v1 "CapabilityResult") "" []).

(** [declaredPaths], in sorted order. *)
Definition declaredPaths : list string :=
  omap (λ f, match fp_Classification f with Some _ => Some (fp_Path f) | None => None end) FieldPaths.

(** ** Building reflective messages: a field with its zero value is not populated *)

Definition scalar_field (name : string) (z : Z) : list (string * pval) :=
  if (z =? 0)%Z then [] else [(name, VScalar z)].
Definition bool_field (name : string) (b : bool) : list (string * pval) :=
  if b then [(name, VScalar 1)] else [].
Definition string_field (name s : string) : list (string * pval) :=
  if (s =? "")%string then [] else [(name, VString s)].
Definition strings_field (name : string) (l : list string) : list (string * pval) :=
  match l with [] => [] | _ => [(name, VStrings l)] end.
Definition message_field (name : string) (m : option pmsg) : list (string * pval) :=
  match m with None => [] | Some m => [(name, VMessage m)] end.
Definition messages_field (name : string) (l : list pmsg) : list (string * pval) :=
  match l with [] => [] | _ => [(name, VMessages l)] end.

(** Timestamps and durations have scalar fields only; no part of the relay looks into them. *)
Definition time_field (name : string) (t : Timestamp) : list (string * pval) :=
  message_field name ((λ t, PMsg Timestamp_name [("nanos", VScalar t)]) <$> t).
Definition duration_field (name : string) (d : Duration) : list (string * pval) :=
  message_field name (Some (PMsg Duration_name [("nanos", VScalar d)])).

#[global] Opaque declaredPaths carriesFreeText.

Lemma carriesFreeText_sound_witness :
  carriesFreeText "kubernetes.workload.runtime" 1 = false
  ∧ ∃ field f name is_map, ("kubernetes.workload.runtime", 1%Z, field) ∈ capabilityResults
    ∧ f ∈ fields_of schema (v1 "CapabilityResult") ∧ fd_Name f = field
    ∧ fd_Kind f = MessageKind name is_map
    ∧ ∀ x, reaches schema name x → safe_message schema x.
Proof.
  assert (E : carriesFreeText "kubernetes.workload.runtime" 1 = false) by (vm_compute; reflexivity).
  split; [exact E|]. exact (carriesFreeText_sound _ _ E).
Defined.
