(* ===== verification/Policy.v ===== *)
(** * The redaction policy (internal/redaction/policy.go, parse.go)

    The effective policy, the default one, and the parser of a customer's document. The YAML decoder
    and [regexp.Compile] are arguments: the decoder yields the document or what is wrong with it, and
    whether the stream ends there. The theorems say which documents are accepted and that what they
    yield only adds to the defaults. *)

From S2P Require Import Prelude GoString Utf8 GoTime Regexp Masking Builtin Declared.
From Stdlib Require Import Ascii.
From Stdlib Require String.
From stdpp Require Import options.
Local Open Scope Z_scope.
#[local] Arguments String.append : simpl nomatch.

(** ** Faults: [Fault.Reason], by the place that raises it *)

Inductive Fault :=
  | FaultUnreadable (path : string)
  | FaultEmpty (source : string)
  | FaultMalformed (source message : string)
  | FaultManyDocuments (source : string)
  | FaultVersion (source : string) (version : Z)
  | FaultPatternNoId (source : string)
  | FaultPatternReserved (source id : string)
  | FaultPatternTwice (source id : string)
  | FaultPatternNotCompiled (source id : string)
  | FaultUnknownField (source name : string)
  | FaultBudgetNotPositive (source : string)
  | FaultBudgetAbove (source : string) (budget : Duration)
  | FaultInputNotPositive (source : string)
  | FaultInputAbove (source : string) (bytes : Z)
  | FaultMapField (path : string)
  | FaultUnclassified (message field : string)
  | FaultInputExceeded (max : Z)
  | FaultOverBudget (budget : Duration).

(** ** The policy *)

Definition DefaultBudget : Duration := 2 * Second.
Definition DefaultMaxInputBytes : Z := Z.shiftl 4 20.

Record Policy := {
  p_rules : list Rule;
  p_alwaysMasked : gset string;
  p_budget : Duration;
  p_maxInput : Z;
  p_source : string;
}.

Definition Default : Policy := {|
  p_rules := BuiltIn;
  p_alwaysMasked := ∅;
  p_budget := DefaultBudget;
  p_maxInput := DefaultMaxInputBytes;
  p_source := "built-in defaults";
|}.

Definition Rules (p : Policy) : list string := rule_ID <$> p_rules p.
Definition AlwaysMasked (p : Policy) : list string := sort_strings (elements (p_alwaysMasked p)).

(** ** The decoded document *)

Record patternEntry := { pe_ID : string; pe_Pattern : string }.
Record limitsDocument := { ld_SweepBudget : string; ld_MaxInputBytes : Z }.
Record section := {
  sec_Version : Z;
  sec_Patterns : list patternEntry;
  sec_MaskedFields : list string;
  sec_Limits : option limitsDocument;
}.

(** What one call of the decoder returns. *)
Inductive decoded :=
  | DecodedEOF
  | DecodedError (message : string)
  | Decoded (redaction : section).

Definition policyVersion : Z := 1.
Definition maskedFieldRule : string := "policy.masked_field".

(** [firstLine] *)
Definition firstLine (message : string) : string :=
  match cut_on "010"%char message with
  | Some (before, _) => trim_space before
  | None => trim_space message
  end.

(** ** Fields and limits *)

Fixpoint maskedFields_loop (source : string) (masked : gset string) (fields : list string)
    : result Fault (gset string) :=
  match fields with
  | [] => Ok masked
  | field :: fields' =>
      let name := trim_space field in
      if bool_decide (name ∈ declaredPaths)
      then maskedFields_loop source ({[ name ]} ∪ masked) fields'
      else Err (FaultUnknownField source name)
  end.

Definition addMaskedFields (p : Policy) (fields : list string) (source : string)
    : result Fault Policy :=
  masked ← maskedFields_loop source (p_alwaysMasked p) fields;
  Ok {| p_rules := p_rules p; p_alwaysMasked := masked; p_budget := p_budget p;
        p_maxInput := p_maxInput p; p_source := p_source p |}.

Definition lowered_budget (budget : Duration) (text source : string) : result Fault Duration :=
  if (text =? "")%string then Ok budget else
  match ParseDuration text with
  | None => Err (FaultBudgetNotPositive source)
  | Some d =>
      if d <=? 0 then Err (FaultBudgetNotPositive source)
      else if DefaultBudget <? d then Err (FaultBudgetAbove source d)
      else Ok d
  end.

Definition lowered_input (maxInput : Z) (bytes : Z) (source : string) : result Fault Z :=
  if bytes =? 0 then Ok maxInput
  else if bytes <? 0 then Err (FaultInputNotPositive source)
  else if DefaultMaxInputBytes <? bytes then Err (FaultInputAbove source bytes)
  else Ok bytes.

Definition lowerLimits (p : Policy) (limits : option limitsDocument) (source : string)
    : result Fault Policy :=
  match limits with
  | None => Ok p
  | Some l =>
      budget ← lowered_budget (p_budget p) (ld_SweepBudget l) source;
      maxInput ← lowered_input (p_maxInput p) (ld_MaxInputBytes l) source;
      Ok {| p_rules := p_rules p; p_alwaysMasked := p_alwaysMasked p; p_budget := budget;
            p_maxInput := maxInput; p_source := p_source p |}
  end.

Lemma maskedFields_loop_Ok source masked fields masked' :
  maskedFields_loop source masked fields = Ok masked' ↔
  Forall (λ f, trim_space f ∈ declaredPaths) fields
  ∧ masked' = list_to_set (trim_space <$> fields) ∪ masked.
Proof.
  revert masked. induction fields as [|f fields IH]; intros masked; csimpl.
  { split; [intros [= <-]|intros [_ ->]]; [split; [constructor|set_solver]|f_equal; set_solver]. }
  case_bool_decide as Hf; [|split; [done|]; intros [Hall _]; by inv Hall].
  assert (list_to_set (trim_space <$> fields) ∪ ({[trim_space f]} ∪ masked)
    = ({[trim_space f]} ∪ list_to_set (trim_space <$> fields)) ∪ masked :> gset string) as Heq
    by (by rewrite !(assoc_L (∪)), (comm_L (∪) {[trim_space f]})).
  rewrite IH, Forall_cons, Heq. intuition.
Qed.

(** The bounds a document may set: absent, or positive and no higher than the default. *)
Definition limits_ok (l : limitsDocument) (budget : Duration) (maxInput : Z) : Prop :=
  ((ld_SweepBudget l = "" ∧ budget = DefaultBudget)
   ∨ (ld_SweepBudget l ≠ "" ∧ ParseDuration (ld_SweepBudget l) = Some budget
      ∧ 0 < budget ≤ DefaultBudget))
  ∧ ((ld_MaxInputBytes l = 0 ∧ maxInput = DefaultMaxInputBytes)
     ∨ (ld_MaxInputBytes l = maxInput ∧ 0 < maxInput ≤ DefaultMaxInputBytes)).

Lemma lowered_budget_Ok text source b :
  lowered_budget DefaultBudget text source = Ok b ↔
  (text = "" ∧ b = DefaultBudget)
  ∨ (text ≠ "" ∧ ParseDuration text = Some b ∧ 0 < b ≤ DefaultBudget).
Proof.
  unfold lowered_budget. repeat case_match; bool_prop; split; intros Ho; simplify_eq;
    naive_solver lia.
Qed.

Lemma lowered_input_Ok bytes source b :
  lowered_input DefaultMaxInputBytes bytes source = Ok b ↔
  (bytes = 0 ∧ b = DefaultMaxInputBytes) ∨ (bytes = b ∧ 0 < b ≤ DefaultMaxInputBytes).
Proof.
  unfold lowered_input. repeat case_match; bool_prop; split; intros Ho; simplify_eq;
    naive_solver lia.
Qed.

(** ** Patterns, and the whole document *)

Section parse.
Context (compile : string → option Pattern).

(** [addPatterns]' loop. *)
Fixpoint addPatterns_loop (source : string) (rules : list Rule) (seen : gset string)
    (entries : list patternEntry) : result Fault (list Rule) :=
  match entries with
  | [] => Ok rules
  | entry :: entries' =>
      let id := trim_space (pe_ID entry) in
      if (id =? "")%string then Err (FaultPatternNoId source)
      else if has_prefix id builtinPrefix then Err (FaultPatternReserved source id)
      else if bool_decide (id ∈ seen) then Err (FaultPatternTwice source id)
      else match NewRule compile id (pe_Pattern entry) with
           | Err _ => Err (FaultPatternNotCompiled source id)
           | Ok rule => addPatterns_loop source (rules ++ [rule]) ({[ id ]} ∪ seen) entries'
           end
  end.

Definition addPatterns (p : Policy) (entries : list patternEntry) (source : string)
    : result Fault Policy :=
  rules ← addPatterns_loop source (p_rules p) (list_to_set (rule_ID <$> p_rules p)) entries;
  Ok {| p_rules := rules; p_alwaysMasked := p_alwaysMasked p; p_budget := p_budget p;
        p_maxInput := p_maxInput p; p_source := p_source p |}.

(** [Parse], from the two decoder calls. *)
Definition Parse (first second : decoded) (source : string) : result Fault Policy :=
  match first with
  | DecodedEOF => Err (FaultEmpty source)
  | DecodedError message => Err (FaultMalformed source (firstLine message))
  | Decoded sec =>
      match second with
      | DecodedEOF =>
          if negb (sec_Version sec =? policyVersion)
          then Err (FaultVersion source (sec_Version sec)) else
          let policy := {| p_rules := p_rules Default; p_alwaysMasked := p_alwaysMasked Default;
            p_budget := p_budget Default; p_maxInput := p_maxInput Default; p_source := source |} in
          policy ← addPatterns policy (sec_Patterns sec) source;
          policy ← addMaskedFields policy (sec_MaskedFields sec) source;
          lowerLimits policy (sec_Limits sec) source
      | _ => Err (FaultManyDocuments source)
      end
  end.

(** ** Which documents are accepted *)

Definition entry_id (e : patternEntry) : string := trim_space (pe_ID e).

Definition entry_ok (e : patternEntry) : Prop :=
  entry_id e ≠ "" ∧ has_prefix (entry_id e) builtinPrefix = false
  ∧ is_ok (NewRule compile (entry_id e) (pe_Pattern e)) = true.

Definition entry_rule (e : patternEntry) (rule : Rule) : Prop :=
  NewRule compile (entry_id e) (pe_Pattern e) = Ok rule.

Lemma addPatterns_loop_Ok source rules seen entries rules' :
  addPatterns_loop source rules seen entries = Ok rules' ↔
  Forall entry_ok entries ∧ NoDup (entry_id <$> entries)
  ∧ (∀ e, e ∈ entries → entry_id e ∉ seen)
  ∧ ∃ extra, rules' = rules ++ extra ∧ Forall2 entry_rule entries extra.
Proof.
  revert rules seen rules'. induction entries as [|e entries IH]; intros rules seen rules'; csimpl.
  { split.
    - intros [= <-]. split_and!; try constructor; [by intros ? ?%not_elem_of_nil|].
      exists []. rewrite app_nil_r. by repeat constructor.
    - intros (_ & _ & _ & extra & -> & Hf). inv Hf. by rewrite app_nil_r. }
  fold (entry_id e). split.
  - intros Ho. repeat case_hyp Ho. bool_prop. apply IH in Ho as (Hall & Hnd & Hs & extra & -> & Hf).
    split_and!.
    + constructor; [|done]. split_and!; try done. by rewrite Heqr.
    + constructor; [|done]. intros (e' & He & Hin)%list_elem_of_fmap. apply (Hs e' Hin). set_solver.
    + intros e' [->|He]%elem_of_cons; [done|]. specialize (Hs e' He). set_solver.
    + exists (a :: extra). rewrite <-app_assoc. split; [done|]. by constructor.
  - intros (Hall & Hnd & Hs & extra & -> & Hf). inversion_clear Hf as [|? rule ? ? Hrule Hf']. inv Hall.
    apply NoDup_cons in Hnd as [Hfresh Hnd]. destruct H1 as (Hne & Hp & _). rewrite (proj2 (String.eqb_neq _ _)) by done. rewrite Hp.
    rewrite bool_decide_false by (apply Hs; by left). unfold entry_rule in Hrule. rewrite Hrule.
    apply IH. split_and!; [done..| |].
    + intros e' He. apply not_elem_of_union. split; [|apply Hs; by right].
      rewrite elem_of_singleton. intros Heq. apply Hfresh. rewrite <-Heq. by apply list_elem_of_fmap_2.
    + eexists. by rewrite <-app_assoc.
Qed.

Lemma Parse_Ok first second source p :
  Parse first second source = Ok p ↔
  ∃ sec extra,
    first = Decoded sec ∧ second = DecodedEOF ∧ sec_Version sec = policyVersion
    ∧ Forall entry_ok (sec_Patterns sec) ∧ NoDup (entry_id <$> sec_Patterns sec)
    ∧ Forall2 entry_rule (sec_Patterns sec) extra
    ∧ Forall (λ f, trim_space f ∈ declaredPaths) (sec_MaskedFields sec)
    ∧ p_rules p = BuiltIn ++ extra
    ∧ p_alwaysMasked p = list_to_set (trim_space <$> sec_MaskedFields sec)
    ∧ p_source p = source
    ∧ match sec_Limits sec with
      | None => p_budget p = DefaultBudget ∧ p_maxInput p = DefaultMaxInputBytes
      | Some l => limits_ok l (p_budget p) (p_maxInput p)
      end.
Proof.
  unfold Parse. destruct first as [|m|sec]; [naive_solver..|].
  destruct second; [|naive_solver..]. unfold addPatterns, addMaskedFields.
  destruct (sec_Version sec =? policyVersion) eqn:Ev; bool_prop; simpl; [|naive_solver].
  split.
  - intros (p1 & (rules & Hr & H1)%bind_Ok & (p2 & (m & Hm & H2)%bind_Ok & Hl)%bind_Ok)%bind_Ok.
    simplify_eq/=. apply addPatterns_loop_Ok in Hr as (Ha & Hn & _ & extra & -> & Hf).
    apply maskedFields_loop_Ok in Hm as (Hm & ->).
    exists sec, extra. rewrite union_empty_r_L in Hl. unfold lowerLimits in Hl.
    destruct (sec_Limits sec) as [l|]; [|simplify_eq/=; by split_and!].
    apply bind_Ok in Hl as (b & Hb & (i & Hi & Hp)%bind_Ok). simplify_eq/=.
    apply lowered_budget_Ok in Hb. apply lowered_input_Ok in Hi. by split_and!.
  - intros (sec' & extra & [= <-] & _ & _ & Ha & Hn & Hf & Hm & Hr & Hmask & Hs & Hl).
    apply bind_Ok. eexists. split.
    { apply bind_Ok. eexists. split; [|reflexivity]. apply addPatterns_loop_Ok.
      split_and!; [exact Ha|exact Hn| |].
      - intros e He. rewrite Forall_forall in Ha. destruct (Ha e He) as (_ & Hp & _).
        rewrite elem_of_list_to_set. intros Hin%builtin_prefixed. congruence.
      - by eexists. }
    apply bind_Ok. eexists. split.
    { apply bind_Ok. eexists. split; [|reflexivity]. by apply maskedFields_loop_Ok. }
    unfold lowerLimits. simpl. rewrite union_empty_r_L. destruct p. simpl in *. subst.
    destruct (sec_Limits sec) as [l|]; [|by destruct Hl; subst].
    destruct Hl as [Hb Hi]. apply bind_Ok. eexists. split; [by apply lowered_budget_Ok|].
    apply bind_Ok. eexists. split; [by apply lowered_input_Ok|]. done.
Qed.

(** [Parse] accepts exactly the documents that say something well formed: one document of the
    known version, every pattern with an identifier that is not reserved, not repeated and not a
    built-in one and a pattern that compiles and cannot match the empty text, every masked field a
    field some result carries, every limit positive and at most the default. The policy is then the
    defaults with exactly those rules, fields and limits. *)
Theorem Parse_accepts first second source p :
  Parse first second source = Ok p ↔
  ∃ sec extra,
    first = Decoded sec ∧ second = DecodedEOF ∧ sec_Version sec = policyVersion
    ∧ Forall entry_ok (sec_Patterns sec) ∧ NoDup (entry_id <$> sec_Patterns sec)
    ∧ Forall2 entry_rule (sec_Patterns sec) extra
    ∧ Forall (λ f, trim_space f ∈ declaredPaths) (sec_MaskedFields sec)
    ∧ p_rules p = BuiltIn ++ extra
    ∧ p_alwaysMasked p = list_to_set (trim_space <$> sec_MaskedFields sec)
    ∧ p_source p = source
    ∧ match sec_Limits sec with
      | None => p_budget p = DefaultBudget ∧ p_maxInput p = DefaultMaxInputBytes
      | Some l => limits_ok l (p_budget p) (p_maxInput p)
      end.
Proof. apply Parse_Ok. Qed.
End parse.

Lemma Parse_bounds compile first second source p :
  Parse compile first second source = Ok p →
  0 < p_budget p ≤ DefaultBudget ∧ 0 < p_maxInput p ≤ DefaultMaxInputBytes
  ∧ ∀ f, f ∈ p_alwaysMasked p → f ∈ declaredPaths.
Proof.
  intros (sec & extra & _ & _ & _ & _ & _ & _ & Hm & _ & Hmask & _ & Hl)%Parse_Ok.
  assert (0 < DefaultBudget) by done. assert (0 < DefaultMaxInputBytes) by done.
  assert (0 < p_budget p ≤ DefaultBudget ∧ 0 < p_maxInput p ≤ DefaultMaxInputBytes) as [Hb Hi].
  { destruct (sec_Limits sec) as [l|]; [|destruct Hl as [-> ->]; lia]. destruct Hl. lia. }
  split_and!; try (apply Hb || apply Hi).
  intros f. rewrite Hmask, elem_of_list_to_set. intros (g & -> & Hg)%list_elem_of_fmap.
  rewrite Forall_forall in Hm. by apply Hm.
Qed.

(** C34: a customer's policy can only add: whatever the built-in rules cover stays covered, in every text,
    the bounds are at most the defaults and positive, the rule identifiers are distinct, and only
    fields some result carries are excluded. *)
Theorem Parse_add_only compile first second source p :
  Parse compile first second source = Ok p →
  (∀ value x, covered (claims BuiltIn value) x = true → covered (claims (p_rules p) value) x = true)
  ∧ 0 < p_budget p ≤ DefaultBudget ∧ 0 < p_maxInput p ≤ DefaultMaxInputBytes
  ∧ NoDup (Rules p)
  ∧ (∀ id, id ∈ Rules p → id ∈ rule_ID <$> BuiltIn ∨ has_prefix id builtinPrefix = false)
  ∧ ∀ f, f ∈ p_alwaysMasked p → f ∈ declaredPaths.
Proof.
  intros Hp. destruct (Parse_bounds _ _ _ _ _ Hp) as (Hb & Hi & Hmasked).
  apply Parse_Ok in Hp as (sec & extra & _ & _ & _ & Ha & Hn & Hf & _ & Hr & _).
  assert (rule_ID <$> extra = entry_id <$> sec_Patterns sec) as Hids.
  { clear -Hf. induction Hf as [|e r es rs Her _ IH]; [done|]. csimpl. rewrite IH.
    by apply NewRule_Ok in Her as [-> _]. }
  assert (∀ id, id ∈ rule_ID <$> extra → has_prefix id builtinPrefix = false) as Hfree.
  { intros id. rewrite Hids. intros (e & -> & He)%list_elem_of_fmap.
    rewrite Forall_forall in Ha. by apply Ha. }
  split_and!; try (apply Hb || apply Hi).
  - intros value x Hx. rewrite Hr, claims_app, covered_app, Hx. done.
  - unfold Rules. rewrite Hr, fmap_app. apply NoDup_app. split_and!.
    + apply builtin_distinct.
    + intros id Hid%builtin_prefixed Hid'%Hfree. congruence.
    + by rewrite Hids.
  - intros id. unfold Rules. rewrite Hr, fmap_app, elem_of_app. intros [?|?]; [by left|right; auto].
  - exact Hmasked.
Qed.

(** A document with one pattern, one excluded field and lowered limits. *)
Definition sample_section : section := {|
  sec_Version := 1;
  sec_Patterns := [{| pe_ID := " acme.key "; pe_Pattern := "ak_[a-z]+" |}];
  sec_MaskedFields := ["kubernetes_container_logs_v1.lines.content"];
  sec_Limits := Some {| ld_SweepBudget := "1.5s"; ld_MaxInputBytes := 1024 |};
|}.
Definition sample_compile (pattern : string) : option Pattern :=
  if (pattern =? "ak_[a-z]+")%string
  then Some (of_re (rcats [rlit "ak_"; at_least 1 (class lower)])) else None.

Lemma Parse_add_only_witness :
  ∃ p, Parse sample_compile (Decoded sample_section) DecodedEOF "policy.yaml" = Ok p
    ∧ p_budget p ≤ DefaultBudget.
Proof.
  destruct (Parse sample_compile (Decoded sample_section) DecodedEOF "policy.yaml") as [p|e] eqn:E.
  - exists p. split; [done|].
    exact (proj2 (proj1 (proj2 (Parse_add_only sample_compile (Decoded sample_section) DecodedEOF
      "policy.yaml" p E)))).
  - exfalso. assert (is_ok (Parse sample_compile (Decoded sample_section) DecodedEOF "policy.yaml") = true)
      as Hok by (vm_compute; reflexivity). by rewrite E in Hok.
Defined.
