(* ===== verification/Sweep.v ===== *)
(** * The sweep of a result (internal/redaction/sweep.go)

    [message] walks a result in its reflective form and masks what the table calls free text or the
    policy excludes; it threads the byte count, the tallies and the clock readings, and stops with a
    fault. [swept] is its pure specification: the same walk without bounds, [visits] the values it hands
    to [value], in order, and [well_declared] what must hold for no fault about the shape.

    A fault leaves the message half masked in Go; here it leaves nothing, and the enforcer drops the
    result either way. Readings of the clock are a function from their index to a time. *)

From S2P Require Import Prelude GoString Wire Masking Builtin Declared Policy.
From stdpp Require Import options.
Local Open Scope Z_scope.
#[local] Arguments String.append : simpl nomatch.

(** ** State *)

Record tally := { t_order : nat; t_occurrences : Z; t_rules : gset string }.

Record sweep_state := {
  s_swept : Z;
  s_counts : gmap string tally;
  s_next : nat;
  s_readings : nat;            (* how often the clock was read *)
}.

Definition sweep_start : sweep_state :=
  {| s_swept := 0; s_counts := ∅; s_next := 0; s_readings := 1 |}.

Abbreviation sweepM := (stateE sweep_state Fault).

(** [record] *)
Definition record (path : string) (occurrences : Z) (rules : list string) (st : sweep_state)
    : sweep_state :=
  match s_counts st !! path with
  | Some entry =>
      {| s_swept := s_swept st;
         s_counts := <[path := {| t_order := t_order entry;
                                  t_occurrences := uint32 (t_occurrences entry + occurrences);
                                  t_rules := t_rules entry ∪ list_to_set rules |}]> (s_counts st);
         s_next := s_next st; s_readings := s_readings st |}
  | None =>
      {| s_swept := s_swept st;
         s_counts := <[path := {| t_order := s_next st; t_occurrences := uint32 occurrences;
                                  t_rules := list_to_set rules |}]> (s_counts st);
         s_next := S (s_next st); s_readings := s_readings st |}
  end.

Section sweep.
Context (p : Policy) (clock : nat → Time).

(** [time.Since(s.started) > s.policy.budget] *)
Definition over_budget : sweepM bool := λ st,
  Ok (p_budget p <? clock (s_readings st) - clock 0,
      {| s_swept := s_swept st; s_counts := s_counts st; s_next := s_next st;
         s_readings := S (s_readings st) |}).

Definition count_input (n : Z) : sweepM bool := λ st,
  let swept := s_swept st + n in
  Ok (p_maxInput p <? swept,
      {| s_swept := swept; s_counts := s_counts st; s_next := s_next st;
         s_readings := s_readings st |}).

Definition fault {A} (f : Fault) : sweepM A := λ _, Err f.
Definition tell (f : sweep_state → sweep_state) : sweepM () := λ st, Ok (tt, f st).

Definition value (v path : string) : sweepM string :=
  too_much ← count_input (Z.of_nat (slen v));
  if too_much : bool then fault (FaultInputExceeded (p_maxInput p)) else
  late ← over_budget;
  if late : bool then fault (FaultOverBudget (p_budget p)) else
  if bool_decide (path ∈ p_alwaysMasked p) then
    if (v =? "")%string then mret v else
    _ ← tell (record path 1 [maskedFieldRule]);
    mret (marker maskedFieldRule)
  else
    let '(masked, occurrences, matched) := mask (p_rules p) v in
    late ← over_budget;
    if late : bool then fault (FaultOverBudget (p_budget p)) else
    _ ← (if (0 <? occurrences)%nat
         then tell (record path (uint32 (Z.of_nat occurrences)) matched) else mret tt);
    mret masked.

(** Whether the field's text is swept at all. *)
Definition reads (c : Classification) (path : string) : bool :=
  bool_decide (c = FreeText) || bool_decide (path ∈ p_alwaysMasked p).

Fixpoint message (path : string) (m : pmsg) : sweepM pmsg :=
  match m with
  | PMsg descriptor fields =>
      fields' ← mapM (λ '(name, v),
        v' ← field descriptor name (dotted path name) v; mret (name, v')) fields;
      mret (PMsg descriptor fields')
  end
with field (descriptor name path : string) (v : pval) : sweepM pval :=
  match v with
  | VScalar _ => mret v
  | VString s =>
      match classify descriptor name with
      | None => fault (FaultUnclassified descriptor name)
      | Some c => if reads c path then s' ← value s path; mret (VString s') else mret v
      end
  | VStrings l =>
      match classify descriptor name with
      | None => fault (FaultUnclassified descriptor name)
      | Some c => if reads c path then l' ← mapM (λ s, value s path) l; mret (VStrings l') else mret v
      end
  | VMap => fault (FaultMapField path)
  | VMessage m => m' ← message path m; mret (VMessage m')
  | VMessages l => l' ← mapM (message path) l; mret (VMessages l')
  end.
End sweep.

(** ** The report *)

Record RedactedField := {
  rf_FieldName : string;
  rf_MaskedOccurrenceCount : Z;
  rf_RuleIds : list string;
}.

(** [s.counts[path].order]; only paths of the map are compared. *)
Definition order_of (counts : gmap string tally) (path : string) : nat :=
  match counts !! path with Some entry => t_order entry | None => 0%nat end.

Definition order_less (counts : gmap string tally) (x y : string) : bool :=
  (order_of counts x <? order_of counts y)%nat.

#[export] Instance order_less_sw counts : StrictWeak (order_less counts).
Proof. split; unfold order_less; intros; bool_prop; apply Nat.ltb_ge; lia. Qed.

(** [report]; [None] is the nil report. *)
Definition report (st : sweep_state) : option (list RedactedField) :=
  match (map_to_list (s_counts st)).*1 with
  | [] => None
  | paths =>
      Some (omap (λ path,
        entry ← s_counts st !! path;
        Some {| rf_FieldName := path; rf_MaskedOccurrenceCount := t_occurrences entry;
                rf_RuleIds := sort_strings (elements (t_rules entry)) |})
        (sort_stable (order_less (s_counts st)) paths))
  end.

(** A report in reflective form: the fields with a value, in descriptor order. *)
Definition reflect_redacted (f : RedactedField) : pmsg :=
  PMsg (v1 "RedactedField")
    ((if (rf_FieldName f =? "")%string then [] else [("field_name", VString (rf_FieldName f))])
     ++ (if rf_MaskedOccurrenceCount f =? 0 then []
         else [("masked_occurrence_count", VScalar (rf_MaskedOccurrenceCount f))])
     ++ match rf_RuleIds f with [] => [] | l => [("rule_ids", VStrings l)] end).

Definition reflect_report (r : list RedactedField) : pmsg :=
  PMsg (v1 "RedactionReport")
    match r with [] => [] | _ => [("fields", VMessages (reflect_redacted <$> r))] end.

(** [result.Redaction = report]; the field is the descriptor's first. *)
Definition set_redaction (r : option (list RedactedField)) (m : pmsg) : pmsg :=
  match m with
  | PMsg n fields =>
      PMsg n (match r with None => [] | Some r => [("redaction", VMessage (reflect_report r))] end
              ++ filter (λ x, x.1 ≠ "redaction") fields)
  end.

(** [Policy.Sweep] of a result that is not nil. *)
Definition Sweep (p : Policy) (clock : nat → Time) (result : pmsg)
    : Prelude.result Fault (pmsg * option (list RedactedField)) :=
  '(m, st) ← message p clock "" result sweep_start;
  let r := report st in
  Ok (set_redaction r m, r).

(** ** The specification: the walk without bounds *)

Section spec.
Context (p : Policy).

(** The text [value] yields, and what it reports. *)
Definition text (path v : string) : string :=
  if bool_decide (path ∈ p_alwaysMasked p)
  then if (v =? "")%string then v else marker maskedFieldRule
  else (mask (p_rules p) v).1.1.

Definition removed (path v : string) : nat * list string :=
  if bool_decide (path ∈ p_alwaysMasked p)
  then if (v =? "")%string then (0%nat, []) else (1%nat, [maskedFieldRule])
  else ((mask (p_rules p) v).1.2, (mask (p_rules p) v).2).

Definition swept_string (descriptor name path s : string) : string :=
  match classify descriptor name with
  | Some c => if reads p c path then text path s else s
  | None => s
  end.

Fixpoint swept (path : string) (m : pmsg) : pmsg :=
  match m with
  | PMsg descriptor fields =>
      PMsg descriptor ((λ '(name, v),
        (name, swept_field descriptor name (dotted path name) v)) <$> fields)
  end
with swept_field (descriptor name path : string) (v : pval) : pval :=
  match v with
  | VString s => VString (swept_string descriptor name path s)
  | VStrings l => VStrings (swept_string descriptor name path <$> l)
  | VMessage m => VMessage (swept path m)
  | VMessages l => VMessages (swept path <$> l)
  | VScalar _ | VMap => v
  end.

Definition visits_string (descriptor name path s : string) : list (string * string) :=
  match classify descriptor name with
  | Some c => if reads p c path then [(path, s)] else []
  | None => []
  end.

Fixpoint visits (path : string) (m : pmsg) : list (string * string) :=
  match m with
  | PMsg descriptor fields =>
      concat ((λ '(name, v), visits_field descriptor name (dotted path name) v) <$> fields)
  end
with visits_field (descriptor name path : string) (v : pval) : list (string * string) :=
  match v with
  | VString s => visits_string descriptor name path s
  | VStrings l => concat (visits_string descriptor name path <$> l)
  | VMessage m => visits path m
  | VMessages l => concat (visits path <$> l)
  | VScalar _ | VMap => []
  end.

(** Every string field was classified, and there is no map. *)
Fixpoint well_declared (m : pmsg) : bool :=
  match m with
  | PMsg descriptor fields => forallb (λ '(name, v), well_declared_field descriptor name v) fields
  end
with well_declared_field (descriptor name : string) (v : pval) : bool :=
  match v with
  | VScalar _ => true
  | VString _ | VStrings _ => match classify descriptor name with Some _ => true | None => false end
  | VMap => false
  | VMessage m => well_declared m
  | VMessages l => forallb well_declared l
  end.

(** The free text a result presents, in bytes. *)
Definition presented (l : list (string * string)) : Z :=
  foldr (λ x n, Z.of_nat (slen x.2) + n) 0 l.
End spec.

(** ** The walk follows the specification *)

Section proofs.
Context (p : Policy) (clock : nat → Time).

Abbreviation value := (value p clock).
Abbreviation message := (message p clock).
Abbreviation field := (field p clock).
Abbreviation visits := (visits p).
Abbreviation swept := (swept p).

Fixpoint visit_all (l : list (string * string)) : sweepM () :=
  match l with
  | [] => mret tt
  | (path, v) :: l' => _ ← value v path; visit_all l'
  end.

(** A computation that visits [l] and returns [out]. *)
Definition behaves {A} (c : sweepM A) (l : list (string * string)) (out : A) : Prop :=
  ∀ st, c st = (_ ← visit_all l; mret out) st.

Lemma visit_all_app l k st :
  visit_all (l ++ k) st = (_ ← visit_all l; visit_all k) st.
Proof.
  revert st. induction l as [|[path v] l IH]; intros st; simpl; [done|].
  rewrite !stateE_bind_eq. destruct (value v path st) as [[s st']|e]; [|done].
  by rewrite IH.
Qed.

Lemma behaves_ret {A} (out : A) : behaves (mret out) [] out.
Proof. done. Qed.

Lemma behaves_bind {A B} (c : sweepM A) (f : A → sweepM B) l k a b :
  behaves c l a → behaves (f a) k b → behaves (c ≫= f) (l ++ k) b.
Proof.
  intros Hc Hf st. rewrite !stateE_bind_eq, Hc, visit_all_app, !stateE_bind_eq.
  destruct (visit_all l st) as [[u st']|e]; [|done]. unfold mret at 1, stateE_ret. by rewrite Hf.
Qed.

Lemma behaves_fmap {A B} (c : sweepM A) (f : A → B) l a :
  behaves c l a → behaves (x ← c; mret (f x)) l (f a).
Proof. intros Hc. rewrite <-(app_nil_r l). by eapply behaves_bind. Qed.

Lemma behaves_mapM {A B} (f : A → sweepM B) vis out (l : list A) :
  Forall (λ x, behaves (f x) (vis x) (out x)) l →
  behaves (mapM f l) (concat (vis <$> l)) (out <$> l).
Proof.
  induction 1 as [|x l Hx _ IH]; simpl; [done|]. eapply behaves_bind; [exact Hx|].
  by eapply behaves_fmap in IH.
Qed.

Lemma value_text v path st s st' : value v path st = Ok (s, st') → s = text p path v.
Proof.
  unfold Sweep.value, text, count_input, over_budget, tell, fault.
  cbv [mbind stateE_bind mret stateE_ret].
  case_match eqn:E1; [done|]. case_match eqn:E2; [done|]. case_bool_decide.
  - case_match; by intros [= <- <-].
  - destruct (mask _ _) as [[m n] ids]. case_match eqn:E3; [done|].
    destruct (0 <? n)%nat; by intros [= <- <-].
Qed.

Lemma behaves_value v path : behaves (value v path) [(path, v)] (text p path v).
Proof.
  intros st. simpl. rewrite !stateE_bind_eq.
  destruct (value v path st) as [[s st']|e] eqn:E; [|done]. by apply value_text in E as ->.
Qed.

Lemma behaves_string descriptor name path s c :
  classify descriptor name = Some c →
  behaves (if reads p c path then value s path else mret s)
    (visits_string p descriptor name path s) (swept_string p descriptor name path s).
Proof.
  intros Hc. unfold visits_string, swept_string. rewrite Hc.
  destruct (reads p c path); [apply behaves_value|apply behaves_ret].
Qed.

Lemma behaves_visits_concat descriptor name path c (l : list string) :
  classify descriptor name = Some c → reads p c path = false →
  concat (visits_string p descriptor name path <$> l) = []
  ∧ swept_string p descriptor name path <$> l = l.
Proof.
  intros Hc Hr. unfold visits_string, swept_string. rewrite Hc, Hr. split.
  - by induction l.
  - by rewrite list_fmap_id.
Qed.

Lemma message_behaves m :
  ∀ path, well_declared m = true → behaves (message path m) (visits path m) (swept path m).
Proof.
  apply (pmsg_induction
    (λ m, ∀ path, well_declared m = true → behaves (message path m) (visits path m) (swept path m))
    (λ v, ∀ d n path, well_declared_field d n v = true →
      behaves (field d n path v) (visits_field p d n path v) (swept_field p d n path v))); clear m.
  - intros d fs IH path Hd. simpl in Hd |- *. apply behaves_fmap.
    apply behaves_mapM. rewrite forallb_forall in Hd. rewrite Forall_forall in *.
    intros [n v] Hin. specialize (IH _ Hin). apply list_elem_of_In in Hin. specialize (Hd _ Hin).
    simpl in *. apply (behaves_fmap _ (λ v', (n, v'))). by apply IH.
  - intros z d n path _. apply behaves_ret.
  - intros s d n path Hd. simpl in Hd |- *. destruct (classify d n) as [c|] eqn:Ec; [|done].
    pose proof (behaves_string d n path s c Ec) as Hb.
    destruct (reads p c path); by apply (behaves_fmap _ VString) in Hb.
  - intros l d n path Hd. simpl in Hd |- *. destruct (classify d n) as [c|] eqn:Ec; [|done].
    destruct (reads p c path) eqn:Er.
    + apply (behaves_fmap _ VStrings), behaves_mapM, Forall_true. intros s.
      pose proof (behaves_string d n path s c Ec) as Hb. by rewrite Er in Hb.
    + destruct (behaves_visits_concat d n path c l Ec Er) as [-> ->]. apply behaves_ret.
  - intros m IH d n path Hd. simpl in Hd |- *. by apply behaves_fmap, IH.
  - intros l IH d n path Hd. simpl in Hd |- *. apply behaves_fmap, behaves_mapM.
    rewrite forallb_forall in Hd. rewrite Forall_forall in *. intros m Hin. apply IH; [done|].
    apply Hd. by apply list_elem_of_In.
  - intros d n path Hd. done.
Qed.

(** A message that is not well declared is always a fault. *)
Definition fails {A} (c : sweepM A) : Prop := ∀ st, is_ok (c st) = false.

Lemma fails_bind {A B} (c : sweepM A) (f : A → sweepM B) : fails c → fails (c ≫= f).
Proof. intros Hc st. rewrite stateE_bind_eq. specialize (Hc st). by destruct (c st). Qed.

Lemma fails_mapM {A B} (f : A → sweepM B) l : Exists (λ x, fails (f x)) l → fails (mapM f l).
Proof.
  induction 1 as [x l Hx|x l _ IH]; simpl; [by apply fails_bind|].
  intros st. rewrite stateE_bind_eq. destruct (f x st) as [[y st']|e]; [|done].
  by apply fails_bind.
Qed.

Lemma message_fails m : ∀ path, well_declared m = false → fails (message path m).
Proof.
  apply (pmsg_induction
    (λ m, ∀ path, well_declared m = false → fails (message path m))
    (λ v, ∀ d n path, well_declared_field d n v = false → fails (field d n path v))); clear m.
  - intros d fs IH path Hd. simpl in Hd |- *. apply fails_bind, fails_mapM.
    rewrite Forall_forall in IH. apply Exists_exists.
    assert (∃ x, x ∈ fs ∧ well_declared_field d x.1 x.2 = false) as ([n v] & Hin & Hx).
    { clear IH. induction fs as [|[n v] fs IH]; [done|]. simpl in Hd.
      apply andb_false_iff in Hd as [Hd|Hd]; [eexists; split; [by left|done]|].
      destruct IH as (x & ? & ?); [done|]. exists x. split; [by right|done]. }
    exists (n, v). split; [done|]. simpl. apply fails_bind. by apply (IH (n, v)).
  - done.
  - intros s d n path Hd st. simpl in Hd |- *. by destruct (classify d n).
  - intros s d n path Hd st. simpl in Hd |- *. by destruct (classify d n).
  - intros m IH d n path Hd. simpl in Hd |- *. by apply fails_bind, IH.
  - intros l IH d n path Hd. simpl in Hd |- *. apply fails_bind, fails_mapM.
    rewrite Forall_forall in IH. apply Exists_exists.
    assert (∃ x, x ∈ l ∧ well_declared x = false) as (m & Hin & Hx).
    { clear IH. induction l as [|m l IH]; [done|]. simpl in Hd.
      apply andb_false_iff in Hd as [Hd|Hd]; [eexists; split; [by left|done]|].
      destruct IH as (x & ? & ?); [done|]. exists x. split; [by right|done]. }
    exists m. split; [done|]. by apply IH.
  - done.
Qed.

(** ** The bounds *)

(** What a successful visit does to the state. *)
Definition visited (path v : string) (st : sweep_state) : sweep_state :=
  let '(n, ids) := removed p path v in
  let st := {| s_swept := s_swept st + Z.of_nat (slen v); s_counts := s_counts st;
               s_next := s_next st;
               s_readings := s_readings st
                 + if bool_decide (path ∈ p_alwaysMasked p) then 1 else 2 |} in
  if (0 <? n)%nat then record path (uint32 (Z.of_nat n)) ids st else st.

Lemma value_Ok v path st s st' :
  value v path st = Ok (s, st') →
  st' = visited path v st ∧ s_swept st + Z.of_nat (slen v) ≤ p_maxInput p.
Proof.
  unfold Sweep.value, visited, removed, count_input, over_budget, tell, fault.
  cbv [mbind stateE_bind mret stateE_ret].
  case_match eqn:E1; [done|]. bool_prop. case_match eqn:E2; [done|]. case_bool_decide; simpl in *.
  - rewrite Nat.add_1_r.
    destruct (v =? "")%string; intros [= <- <-]; (split; [|done]); simpl; reflexivity.
  - destruct (mask _ _) as [[m n] ids]. case_match eqn:E3; [done|]. simpl.
    rewrite !Nat.add_succ_r, Nat.add_0_r.
    destruct (0 <? n)%nat; intros [= <- <-]; (split; [|done]); unfold record; simpl; [|done].
    by case_match.
Qed.

Lemma value_total v path st :
  (∀ i, clock i - clock 0 ≤ p_budget p) → s_swept st + Z.of_nat (slen v) ≤ p_maxInput p →
  value v path st = Ok (text p path v, visited path v st).
Proof.
  intros Hclock Hmax. destruct (value v path st) as [[s st']|e] eqn:E.
  { pose proof (value_text _ _ _ _ _ E) as ->. by apply value_Ok in E as [-> _]. }
  exfalso. revert E.
  unfold Sweep.value, count_input, over_budget, tell, fault.
  cbv [mbind stateE_bind mret stateE_ret]. simpl.
  rewrite (proj2 (Z.ltb_ge _ _)) by lia. rewrite (proj2 (Z.ltb_ge _ _)) by apply Hclock.
  case_bool_decide; [by case_match|]. destruct (mask _ _) as [[m n] ids].
  rewrite (proj2 (Z.ltb_ge _ _)) by apply Hclock. by destruct (0 <? n)%nat.
Qed.

Definition visited_all (l : list (string * string)) (st : sweep_state) : sweep_state :=
  foldl (λ st x, visited x.1 x.2 st) st l.

Lemma visited_swept path v st : s_swept (visited path v st) = s_swept st + Z.of_nat (slen v).
Proof.
  unfold visited. destruct (removed p path v). case_match; [|done]. unfold record. by case_match.
Qed.

Lemma presented_nonneg l : 0 ≤ presented l.
Proof. induction l as [|[path v] l IH]; simpl; lia. Qed.

Lemma visit_all_Ok l st st' :
  visit_all l st = Ok (tt, st') →
  st' = visited_all l st ∧ (l = [] ∨ s_swept st + presented l ≤ p_maxInput p).
Proof.
  revert st. induction l as [|[path v] l IH]; intros st; simpl.
  { intros [= <-]. by split; [|left]. }
  rewrite stateE_bind_eq. destruct (value v path st) as [[s st1]|e] eqn:E; [|done].
  apply value_Ok in E as [-> Hb]. intros [-> Hl]%IH. split; [done|right].
  rewrite visited_swept in Hl. destruct Hl as [->|Hl]; simpl; lia.
Qed.

Lemma visit_all_total l st :
  (∀ i, clock i - clock 0 ≤ p_budget p) → l = [] ∨ s_swept st + presented l ≤ p_maxInput p →
  visit_all l st = Ok (tt, visited_all l st).
Proof.
  intros Hclock. revert st. induction l as [|[path v] l IH]; intros st Hl; simpl; [done|].
  destruct Hl as [?|Hl]; [done|]. simpl in Hl. pose proof (presented_nonneg l).
  rewrite stateE_bind_eq, value_total by (done || lia). apply IH. right.
  rewrite visited_swept. lia.
Qed.

(** ** The tallies *)

(** What was removed, in the order it was met. *)
Definition removals (l : list (string * string)) : list (string * (nat * list string)) :=
  filter (λ x, x.2.1 ≠ 0%nat) ((λ x, (x.1, removed p x.1 x.2)) <$> l).

(** The paths in the order of their first appearance. *)
Definition first_paths {A} (h : list (string * A)) : list string :=
  foldl (λ ps x, if bool_decide (x.1 ∈ ps) then ps else ps ++ [x.1]) [] h.

Definition count_at (path : string) (h : list (string * (nat * list string))) : Z :=
  foldr (λ x n, (if bool_decide (x.1 = path) then Z.of_nat x.2.1 else 0) + n) 0 h.

Definition rules_at (path : string) (h : list (string * (nat * list string))) : gset string :=
  foldr (λ x s, (if bool_decide (x.1 = path) then list_to_set x.2.2 else ∅) ∪ s) ∅ h.

Record tallied (h : list (string * (nat * list string))) (st : sweep_state) : Prop := {
  ta_next : s_next st = length (first_paths h);
  ta_nodup : NoDup (first_paths h);
  ta_some i path : first_paths h !! i = Some path →
    s_counts st !! path = Some {| t_order := i; t_occurrences := uint32 (count_at path h);
                                  t_rules := rules_at path h |};
  ta_none path : path ∉ first_paths h →
    s_counts st !! path = None ∧ count_at path h = 0 ∧ rules_at path h = ∅;
}.

Lemma first_paths_snoc {A} (h : list (string * A)) x :
  first_paths (h ++ [x]) =
  if bool_decide (x.1 ∈ first_paths h) then first_paths h else first_paths h ++ [x.1].
Proof. unfold first_paths. by rewrite foldl_app. Qed.

Lemma count_at_snoc path h x :
  count_at path (h ++ [x]) = count_at path h + if bool_decide (x.1 = path) then Z.of_nat x.2.1 else 0.
Proof.
  unfold count_at. induction h as [|y h IH]; simpl; [lia|]. rewrite IH. lia.
Qed.

Lemma rules_at_snoc path h x :
  rules_at path (h ++ [x])
  = rules_at path h ∪ if bool_decide (x.1 = path) then list_to_set x.2.2 else ∅.
Proof.
  unfold rules_at. induction h as [|y h IH]; simpl; [by rewrite (comm_L (∪))|].
  by rewrite IH, (assoc_L (∪)).
Qed.

Lemma tallied_record h st path n ids :
  tallied h st → tallied (h ++ [(path, (n, ids))]) (record path (uint32 (Z.of_nat n)) ids st).
Proof.
  intros [Hnext Hnd Hsome Hnone]. unfold record.
  destruct (decide (path ∈ first_paths h)) as [Hin|Hin].
  - apply list_elem_of_lookup in Hin as [i Hi]. rewrite (Hsome i path Hi).
    assert (first_paths (h ++ [(path, (n, ids))]) = first_paths h) as Hfp.
    { rewrite first_paths_snoc, bool_decide_true; [done|]. by eapply list_elem_of_lookup_2. }
    split; rewrite ?Hfp; simpl; [done|done| |].
    + intros j q Hj. rewrite count_at_snoc, rules_at_snoc. simpl.
      destruct (decide (path = q)) as [<-|Hne].
      * rewrite lookup_insert_eq, !bool_decide_true by done.
        pose proof (NoDup_lookup _ _ _ _ Hnd Hi Hj) as <-. do 2 f_equal.
        rewrite uint32_add, (Z.add_comm _ (uint32 _)), uint32_add. f_equal. lia.
      * rewrite lookup_insert_ne, !bool_decide_false by done.
        rewrite Z.add_0_r, union_empty_r_L. by apply Hsome.
    + intros q Hq. assert (path ≠ q) by (intros <-; apply Hq; by eapply list_elem_of_lookup_2).
      rewrite lookup_insert_ne, count_at_snoc, rules_at_snoc by done. simpl.
      rewrite !bool_decide_false by done. rewrite Z.add_0_r, union_empty_r_L. by apply Hnone.
  - destruct (Hnone path Hin) as (Hp & Hc & Hr). rewrite Hp.
    assert (first_paths (h ++ [(path, (n, ids))]) = first_paths h ++ [path]) as Hfp.
    { rewrite first_paths_snoc, bool_decide_false; done. }
    split; rewrite ?Hfp; simpl.
    + rewrite length_app. simpl. lia.
    + apply NoDup_app. split_and!; [done| |apply NoDup_singleton].
      intros q Hq ->%list_elem_of_singleton. done.
    + intros j q Hj. rewrite count_at_snoc, rules_at_snoc. simpl.
      apply lookup_app_Some in Hj as [Hj|[Hge Hj]].
      * assert (path ≠ q) by (intros <-; apply Hin; by eapply list_elem_of_lookup_2).
        rewrite lookup_insert_ne, !bool_decide_false by done.
        rewrite Z.add_0_r, union_empty_r_L. by apply Hsome.
      * apply list_lookup_singleton_Some in Hj as [Hj <-].
        rewrite lookup_insert_eq, !bool_decide_true, Hc, Hr, union_empty_l_L by done.
        do 2 f_equal; [lia|]. by rewrite uint32_idem.
    + intros q Hq. rewrite not_elem_of_app, list_elem_of_singleton in Hq. destruct Hq as [Hq Hne].
      rewrite lookup_insert_ne, count_at_snoc, rules_at_snoc by done. simpl.
      rewrite !bool_decide_false by done. rewrite Z.add_0_r, union_empty_r_L. by apply Hnone.
Qed.

Lemma tallied_same h st st' :
  s_counts st' = s_counts st → s_next st' = s_next st → tallied h st → tallied h st'.
Proof. intros Hc Hn []. split; rewrite ?Hn, ?Hc; done. Qed.

Lemma visited_all_tallied l st h :
  tallied h st → tallied (h ++ removals l) (visited_all l st).
Proof.
  unfold removals. revert st h. induction l as [|[path v] l IH]; intros st h Ht; csimpl.
  { by rewrite app_nil_r. }
  rewrite filter_cons.
  change (visited_all ((path, v) :: l) st) with (visited_all l (visited path v st)).
  unfold visited. destruct (removed p path v) as [n ids]. simpl.
  destruct (0 <? n)%nat eqn:En; bool_prop.
  - rewrite decide_True by lia. rewrite cons_middle, app_assoc. apply IH.
    apply tallied_record. by apply (tallied_same h st).
  - rewrite decide_False by lia. apply IH. by apply (tallied_same h st).
Qed.

Lemma tallied_start : tallied [] sweep_start.
Proof. by repeat constructor. Qed.

(** The report in terms of what was removed. *)
Definition described (h : list (string * (nat * list string))) : list RedactedField :=
  (λ path, {| rf_FieldName := path; rf_MaskedOccurrenceCount := uint32 (count_at path h);
              rf_RuleIds := sort_strings (elements (rules_at path h)) |}) <$> first_paths h.

Lemma tallied_order h st i path :
  tallied h st → first_paths h !! i = Some path → order_of (s_counts st) path = i.
Proof. intros [_ _ Hsome _] Hi. unfold order_of. by rewrite (Hsome _ _ Hi). Qed.

Lemma tallied_keys h st : tallied h st → (map_to_list (s_counts st)).*1 ≡ₚ first_paths h.
Proof.
  intros [_ Hnd Hsome Hnone]. apply NoDup_Permutation; [apply NoDup_fst_map_to_list|done|].
  intros path. rewrite list_elem_of_fmap. split.
  - intros ([q t] & -> & Hin%elem_of_map_to_list). simpl in *.
    destruct (decide (q ∈ first_paths h)) as [|Hq]; [done|]. apply Hnone in Hq as [Hq _]. congruence.
  - intros [i Hi]%list_elem_of_lookup. eexists (path, _). split; [done|].
    by apply elem_of_map_to_list, Hsome.
Qed.

Lemma tallied_sorted h st :
  tallied h st → sort_stable (order_less (s_counts st)) (map_to_list (s_counts st)).*1 = first_paths h.
Proof.
  intros Ht. pose proof (tallied_keys _ _ Ht) as Hk.
  eapply (StronglySorted_unique_strong (not_greater (order_less (s_counts st)))).
  - intros x y [i Hi]%sort_elem%(elem_of_Permutation_proper _ _ _ Hk)%list_elem_of_lookup
      [j Hj]%list_elem_of_lookup.
    unfold not_greater, order_less. intros Hxy Hyx. bool_prop.
    rewrite (tallied_order _ _ _ _ Ht Hi), (tallied_order _ _ _ _ Ht Hj) in *.
    assert (i = j) as -> by lia. congruence.
  - apply sort_sorted, _.
  - apply StronglySorted_lookup. intros i j x y Hij Hi Hj. unfold not_greater, order_less.
    rewrite (tallied_order _ _ _ _ Ht Hi), (tallied_order _ _ _ _ Ht Hj).
    apply Nat.ltb_ge. lia.
  - by rewrite sort_perm.
Qed.

Lemma tallied_report h st :
  tallied h st → report st = match described h with [] => None | l => Some l end.
Proof.
  intros Ht. unfold report. pose proof (tallied_keys _ _ Ht) as Hk.
  assert (omap (λ path, entry ← s_counts st !! path;
      Some {| rf_FieldName := path; rf_MaskedOccurrenceCount := t_occurrences entry;
              rf_RuleIds := sort_strings (elements (t_rules entry)) |}) (first_paths h)
    = described h) as Hd.
  { unfold described. destruct Ht as [_ _ Hsome _].
    assert (∀ path, path ∈ first_paths h → ∃ i, s_counts st !! path =
      Some {| t_order := i; t_occurrences := uint32 (count_at path h); t_rules := rules_at path h |})
      as Hin by (intros path [i Hi]%list_elem_of_lookup; eauto).
    clear -Hin. induction (first_paths h) as [|path l IH]; csimpl; [done|].
    destruct (Hin path) as [i ->]; [by left|]. simpl. f_equal. apply IH. intros. apply Hin. by right. }
  pose proof (tallied_sorted _ _ Ht) as Hs.
  destruct (map_to_list (s_counts st)).*1 as [|k ks] eqn:E.
  - apply Permutation_nil_l in Hk. unfold described. by rewrite <-Hk.
  - rewrite Hs, Hd. destruct (described h) eqn:Ed; [|done]. unfold described in Ed.
    apply fmap_nil_inv in Ed. rewrite Ed in Hk. by apply Permutation_nil_r in Hk.
Qed.
End proofs.

(** ** The sweep as a whole *)

Lemma sweep_Ok p clock m m' r :
  Sweep p clock m = Ok (m', r) →
  well_declared m = true
  ∧ (visits p "" m = [] ∨ presented (visits p "" m) ≤ p_maxInput p)
  ∧ m' = set_redaction r (swept p "" m)
  ∧ r = match described (removals p (visits p "" m)) with [] => None | l => Some l end.
Proof.
  unfold Sweep. intros ([m1 st] & Hm & [= <- <-])%bind_Ok.
  destruct (well_declared m) eqn:Hd; [|by pose proof (message_fails p clock m "" Hd sweep_start) as Hf;
    rewrite Hm in Hf].
  rewrite (message_behaves p clock m "" Hd), stateE_bind_eq in Hm.
  destruct (visit_all _ _ _ _) as [[[] st']|e] eqn:Ev; [|done]. injection Hm as <- <-.
  apply visit_all_Ok in Ev as [-> Hb]. simpl in Hb. split_and!; [done|done|done|].
  rewrite (tallied_report _ _ (visited_all_tallied p _ _ _ tallied_start)). done.
Qed.

(** C8: a sweep that returns has masked the result as specified: every string field of the message was
    classified, at most the policy's maximum of free text was presented, each free-text or excluded
    field carries exactly the masked text of its original and every other field its original, and the
    report names the fields in the order they were first masked in, each with the number of spans
    removed from it (modulo 2^32) and the sorted identifiers of the rules that claimed them. *)
Theorem Sweep_masks p clock m m' r :
  Sweep p clock m = Ok (m', r) →
  well_declared m = true
  ∧ (visits p "" m = [] ∨ presented (visits p "" m) ≤ p_maxInput p)
  ∧ m' = set_redaction r (swept p "" m)
  ∧ r = match described (removals p (visits p "" m)) with [] => None | l => Some l end.
Proof. apply sweep_Ok. Qed.

(** the sweep refuses only for the reasons it has: a result all of whose string fields are classified,
    without map fields, that presents no more free text than the maximum is swept, if no reading of
    the clock is later than the budget. *)
Theorem Sweep_total p clock m :
  well_declared m = true → presented (visits p "" m) ≤ p_maxInput p →
  (∀ i, clock i - clock 0%nat ≤ p_budget p) →
  is_ok (Sweep p clock m) = true.
Proof.
  intros Hd Hb Hc. unfold Sweep.
  rewrite (message_behaves p clock m "" Hd), stateE_bind_eq, visit_all_total; [done..|by right].
Qed.

Definition sample_event : pmsg :=
  PMsg (v1 "CapabilityResult")
    [("kubernetes_namespace_events_v1",
      VMessage (PMsg (v1 "KubernetesNamespaceEventsResultV1")
        [("outcome", VScalar 1);
         ("events", VMessages
           [PMsg (v1 "KubernetesEvent")
              [("reason", VString "token=abcd"); ("message", VString "pull failed: token=abcdef")]])]))].

Lemma Sweep_total_witness :
  is_ok (Sweep Default (λ i, Z.of_nat (i `min` 3)) sample_event) = true.
Proof.
  apply Sweep_total.
  - vm_compute. reflexivity.
  - vm_compute. discriminate.
  - intros i. unfold Default, DefaultBudget, Second. simpl. lia.
Defined.

(** The reason is structural and stays; the message is free text. *)
Lemma Sweep_masks_witness :
  ∃ m' r, Sweep Default (λ _, 0) sample_event = Ok (m', Some r)
      ∧ m' = set_redaction (Some r) (swept Default "" sample_event)
      ∧ (rf_FieldName <$> r) = ["kubernetes_namespace_events_v1.events.message"].
Proof.
  destruct (Sweep Default (λ _, 0) sample_event) as [[m' r]|f] eqn:E.
  - pose proof (Sweep_masks Default (λ _, 0) sample_event m' r E) as (_ & _ & Hm & Hr).
    vm_compute in Hr. subst r. eexists _, _. split; [reflexivity|]. split; [exact Hm|reflexivity].
  - exfalso. assert (is_ok (Sweep Default (λ _, 0) sample_event) = true) as Hok
      by (vm_compute; reflexivity). by rewrite E in Hok.
Defined.
