(* ===== verification/DryRun.v ===== *)
(** * The dry run of a policy (internal/redaction/dryrun.go)

    [DryRun] masks a sample line by line. The theorems: what would leave the cluster is the
    concatenation of the masked lines, the occurrence total is the sum over the lines, and [ByRule]
    counts, for each rule, the lines it claimed something in. *)

From S2P Require Import Prelude GoString Masking Policy.
From Stdlib Require Import Ascii.
From Stdlib Require String.
From stdpp Require pretty.
From stdpp Require Import options.

Record PreviewLine := {
  pl_Number : nat;
  pl_Masked : string;
  pl_Occurrences : nat;
  pl_Rules : list string;
}.

Record Preview := {
  pv_Masked : string;
  pv_Occurrences : nat;
  pv_ByRule : gmap string nat;
  pv_Lines : list PreviewLine;
}.

Definition newline : ascii := "010".

(** [preview.ByRule[id]++] for each matched rule. *)
Definition count_rules (matched : list string) (byRule : gmap string nat) : gmap string nat :=
  foldl (λ m id, <[id := S (default 0 (m !! id))]> m) byRule matched.

(** One iteration of the loop over the lines: the preview so far and the rendered lines. *)
Definition preview_line (p : Policy) (acc : Preview * list string) (x : nat * string)
    : Preview * list string :=
  let '(preview, rendered) := acc in
  let '(index, line) := x in
  let '(masked, occurrences, matched) := mask (p_rules p) line in
  if occurrences =? 0 then (preview, rendered ++ [masked]) else
  ({| pv_Masked := pv_Masked preview;
      pv_Occurrences := pv_Occurrences preview + occurrences;
      pv_ByRule := count_rules matched (pv_ByRule preview);
      pv_Lines := pv_Lines preview ++ [{| pl_Number := S index; pl_Masked := masked;
                                          pl_Occurrences := occurrences; pl_Rules := matched |}] |},
   rendered ++ [masked]).

Definition DryRun (p : Policy) (sample : string) : Preview :=
  let start := {| pv_Masked := ""; pv_Occurrences := 0; pv_ByRule := ∅; pv_Lines := [] |} in
  let '(preview, rendered) :=
    foldl (preview_line p) (start, []) (imap pair (split_on newline sample)) in
  {| pv_Masked := join (String.String newline "") rendered;
     pv_Occurrences := pv_Occurrences preview; pv_ByRule := pv_ByRule preview;
     pv_Lines := pv_Lines preview |}.

(** [Preview.Render]: made from the masked text and the counts, never from the sample. *)
Definition text_line (l : string) : string := l +:+ String.String newline "".
Definition indented (l : string) : string := "  " +:+ text_line l.

Definition Render (p : Policy) (v : Preview) : string :=
  text_line ("policy: " +:+ p_source p)
  +:+ text_line ("rules in force: " +:+ pretty.pretty (length (Rules p)))
  +:+ str_concat (indented <$> Rules p)
  +:+ match AlwaysMasked p with
      | [] => ""
      | fields => text_line "fields excluded categorically:" +:+ str_concat (indented <$> fields)
      end
  +:+ text_line ""
  +:+ text_line ("masked " +:+ pretty.pretty (pv_Occurrences v) +:+ " occurrence(s) across "
                 +:+ pretty.pretty (length (pv_Lines v)) +:+ " line(s)")
  +:+ (if 0 <? pv_Occurrences v then
         text_line "by rule:"
         +:+ str_concat ((λ id, indented (id +:+ ": " +:+ pretty.pretty (default 0 (pv_ByRule v !! id))))
                           <$> sorted_keys (pv_ByRule v))
       else "")
  +:+ text_line ""
  +:+ text_line "what would leave the cluster:"
  +:+ str_concat (indented <$> split_on newline (pv_Masked v)).

(** ** What the preview reports *)

Definition line_mask (p : Policy) (line : string) : string := (mask (p_rules p) line).1.1.
Definition line_count (p : Policy) (line : string) : nat := (mask (p_rules p) line).1.2.
Definition line_rules (p : Policy) (line : string) : list string := (mask (p_rules p) line).2.

(** In how many of the lines the rule [id] claimed something. *)
Definition lines_claimed (p : Policy) (id : string) (lines : list string) : nat :=
  length (filter (λ l, id ∈ line_rules p l) lines).

Lemma count_rules_lookup matched m id :
  NoDup matched →
  default 0 (count_rules matched m !! id)
  = default 0 (m !! id) + (if bool_decide (id ∈ matched) then 1 else 0).
Proof.
  unfold count_rules. intros Hnd. revert m. induction Hnd as [|x l Hx _ IH]; intros m; cbn [foldl].
  { rewrite bool_decide_false by apply not_elem_of_nil. lia. }
  rewrite IH. destruct (decide (x = id)) as [->|Hne].
  - rewrite lookup_insert_eq, bool_decide_false, bool_decide_true by (done || by left). simpl. lia.
  - rewrite lookup_insert_ne by done.
    assert (bool_decide (id ∈ x :: l) = bool_decide (id ∈ l)) as ->; [|done].
    apply bool_decide_ext. rewrite elem_of_cons. naive_solver.
Qed.

Lemma mask_no_rules rules line : (mask rules line).1.2 = 0 → (mask rules line).2 = [].
Proof.
  unfold mask. case_match; [done|]. destruct (claims rules line) as [|c cs] eqn:E; [done|].
  simpl. intros Hl%length_zero_iff_nil. by apply merge_nonempty in Hl.
Qed.

Definition preview_ok (p : Policy) (lines : list string) (acc : Preview * list string) : Prop :=
  acc.2 = line_mask p <$> lines
  ∧ pv_Occurrences acc.1 = sum_list (line_count p <$> lines)
  ∧ ∀ id, default 0 (pv_ByRule acc.1 !! id) = lines_claimed p id lines.

Lemma preview_line_ok p lines acc i line :
  NoDup (rule_ID <$> p_rules p) → preview_ok p lines acc →
  preview_ok p (lines ++ [line]) (preview_line p acc (i, line)).
Proof.
  intros Hnd. destruct acc as [preview rendered]. intros (Hr & Ho & Hb). simpl in *.
  unfold preview_line, preview_ok. pose proof (mask_no_rules (p_rules p) line) as Hzero.
  pose proof (mask_matched (p_rules p) line) as Hsub.
  destruct (mask (p_rules p) line) as [[masked n] ids] eqn:Em. simpl in Hzero.
  assert (line_mask p line = masked ∧ line_count p line = n ∧ line_rules p line = ids) as (Hm & Hn & Hi)
    by (unfold line_mask, line_count, line_rules; by rewrite Em).
  assert (NoDup ids) as Hids by (by eapply sublist_NoDup).
  assert (∀ id, lines_claimed p id (lines ++ [line])
    = lines_claimed p id lines + if bool_decide (id ∈ ids) then 1 else 0) as Hcl.
  { intros id. unfold lines_claimed. rewrite filter_app, length_app. f_equal.
    rewrite filter_cons, Hi. case_decide; case_bool_decide; done. }
  split_and!.
  - case_match; simpl; by rewrite fmap_app, Hr, <-Hm.
  - rewrite fmap_app. case_match; bool_prop; simpl; rewrite sum_list_with_app; simpl; lia.
  - intros id. rewrite Hcl. case_match; bool_prop; simpl.
    + rewrite Hzero by done. rewrite bool_decide_false by apply not_elem_of_nil. rewrite Hb. lia.
    + by rewrite count_rules_lookup, Hb.
Qed.

Lemma preview_lines_ok p lines acc done_ :
  NoDup (rule_ID <$> p_rules p) → preview_ok p done_ acc →
  ∀ k, preview_ok p (done_ ++ lines) (foldl (preview_line p) acc (imap (λ i l, (k + i, l)) lines)).
Proof.
  intros Hnd. revert acc done_. induction lines as [|line lines IH]; intros acc done_ Ha k; simpl.
  { by rewrite app_nil_r. }
  rewrite cons_middle, app_assoc.
  erewrite imap_ext; [apply (IH _ _ (preview_line_ok _ _ _ _ _ Hnd Ha) (S k))|].
  intros i l _. simpl. by rewrite Nat.add_succ_r.
Qed.

(** the preview of a policy with distinct rule identifiers is faithful: the masked sample is the masked
    lines joined again (so every line shows exactly what a read would send), the total is the sum of
    the lines' occurrences, and [ByRule] holds for every rule the number of lines (not of spans) it
    claimed something in. *)
Theorem DryRun_faithful p sample :
  NoDup (rule_ID <$> p_rules p) →
  let preview := DryRun p sample in
  let lines := split_on newline sample in
  pv_Masked preview = join (String.String newline "") (line_mask p <$> lines)
  ∧ pv_Occurrences preview = sum_list (line_count p <$> lines)
  ∧ ∀ id, default 0 (pv_ByRule preview !! id) = lines_claimed p id lines.
Proof.
  intros Hnd. unfold DryRun.
  pose proof (preview_lines_ok p (split_on newline sample)
    ({| pv_Masked := ""; pv_Occurrences := 0; pv_ByRule := ∅; pv_Lines := [] |}, []) [] Hnd) as H.
  specialize (H ltac:(by split_and!) 0). simpl in H.
  change (imap (λ i l, (i, l)) (split_on newline sample)) with (imap pair (split_on newline sample)) in H.
  destruct (foldl _ _ _) as [preview rendered]. destruct H as (Hr & Ho & Hb).
  simpl in *. by rewrite <-Hr.
Qed.

Lemma DryRun_faithful_witness :
  let sample := "token=abcd password=efgh" +:+ String.String newline "plain" in
  pv_Occurrences (DryRun Default sample) = 2
  ∧ default 0 (pv_ByRule (DryRun Default sample) !! "builtin.credential_assignment") = 1.
Proof.
  intros sample. destruct (DryRun_faithful Default sample) as (_ & Ho & Hb).
  - vm_compute. apply (bool_decide_unpack _). vm_compute. exact I.
  - split; [rewrite Ho|rewrite Hb]; vm_compute; reflexivity.
Defined.
