(* ===== verification/Execution.v ===== *)
(** * Executing a job under its budget, and routing it

    Models internal/capabilities/budget.go ([Module Budget]) and registry.go ([Module Registry]). An
    executor is a function of its context, the job and a world it may change. A context's error is read
    off the world: who cancelled it, and what the clock says. [Echoes] is what every executor promises
    the session. *)

From S2P Require Import Prelude GoString Wire.
From stdpp Require Import options.
Local Open Scope Z_scope.

(** ** Contexts and executors *)

Inductive CtxError := Canceled | DeadlineExceeded.
#[export] Instance CtxError_eq_dec : EqDecision CtxError.
Proof. solve_decision. Defined.

(** [ctx.Err()], as a function of the world it is asked in. *)
Definition Ctx (W : Type) : Type := W → option CtxError.

(** [context.WithTimeout(parent, budget)], made in the world [start]. Between a parent's cancellation and
    the deadline Go keeps whichever came first; here the parent's error takes precedence, which no code
    of the relay can tell apart: it asks the parent first. *)
Definition WithTimeout {W} (clock : W → Time) (parent : Ctx W) (start : W) (budget : Duration) : Ctx W :=
  λ w, match parent w with
       | Some e => Some e
       | None => if clock start + budget <=? clock w then Some DeadlineExceeded else None
       end.

(** [Executor]: one capability job to a result; [None] is a nil result. *)
Definition Executor (W : Type) : Type := Ctx W → JobAssignment → W → option JobResult * W.

(** What an executor promises: a result, of the job it was given. *)
Class Echoes {W} (e : Executor W) : Prop :=
  echoes ctx job w : ∃ r w', e ctx job w = (Some r, w')
    ∧ jr_JobId r = ja_JobId job ∧ jr_LeaseEpoch r = ja_LeaseEpoch job.

(** ** internal/capabilities/budget.go *)
Module Budget.
Record Reading := { rd_Result : pmsg; rd_Reached : bool }.

Definition Failure (job : JobAssignment) (kind : FailureKind) : JobResult :=
  {| jr_JobId := ja_JobId job; jr_LeaseEpoch := ja_LeaseEpoch job;
     jr_Outcome := Some (Outcome_Failure kind); jr_ExecutionDurationMs := 0 |}.

Section run.
Context {W : Type} (clock : W → Time).

Definition exec_ctx (ctx : Ctx W) (job : JobAssignment) (w : W) : Ctx W :=
  let budget := AsDuration (ja_DeadlineBudget job) in
  if 0 <? budget then WithTimeout clock ctx w budget else ctx.

Definition Run (ctx : Ctx W) (job : JobAssignment) (read : Ctx W → W → Reading * W) (w : W)
    : option JobResult * W :=
  let execCtx := exec_ctx ctx job w in
  let '(reading, w') := read execCtx w in
  match ctx w' with
  | Some _ => (Some (Failure job KIND_CANCELLED), w')
  | None =>
      if bool_decide (execCtx w' = Some DeadlineExceeded) && negb (rd_Reached reading)
      then (Some (Failure job KIND_TIMEOUT), w')
      else (Some {| jr_JobId := ja_JobId job; jr_LeaseEpoch := ja_LeaseEpoch job;
                    jr_Outcome := Some (Outcome_Result (rd_Result reading));
                    jr_ExecutionDurationMs := 0 |}, w')
  end.

Lemma Run_echoes ctx job read w :
  ∃ r w', Run ctx job read w = (Some r, w')
    ∧ jr_JobId r = ja_JobId job ∧ jr_LeaseEpoch r = ja_LeaseEpoch job.
Proof. unfold Run. destruct (read _ w) as [rd w']. repeat case_match; by eexists _, _. Qed.

(** the three outcomes of a budgeted read exclude one another and say who ended it: cancelled
    exactly when the caller's own context has ended when the read returns; timed out exactly when it
    has not, the job has a positive budget that has elapsed, and the source was not reached; otherwise
    the read's result, even past the budget. A job without a budget never times out. *)
Theorem Run_taxonomy ctx job read w :
  let budget := AsDuration (ja_DeadlineBudget job) in
  let '(reading, w') := read (exec_ctx ctx job w) w in
  let timed_out := 0 < budget ∧ clock w + budget ≤ clock w' ∧ rd_Reached reading = false in
  ∃ r, Run ctx job read w = (Some r, w')
    ∧ jr_JobId r = ja_JobId job ∧ jr_LeaseEpoch r = ja_LeaseEpoch job
    ∧ (jr_Outcome r = Some (Outcome_Failure KIND_CANCELLED) ↔ ctx w' ≠ None)
    ∧ (jr_Outcome r = Some (Outcome_Failure KIND_TIMEOUT) ↔ ctx w' = None ∧ timed_out)
    ∧ (jr_Outcome r = Some (Outcome_Result (rd_Result reading)) ↔ ctx w' = None ∧ ¬ timed_out).
Proof.
  cbv zeta. destruct (read (exec_ctx ctx job w) w) as [reading w'] eqn:Er.
  unfold Run. rewrite Er. destruct (ctx w') as [e|] eqn:Ec.
  { eexists. split; [reflexivity|]. simpl.
    split_and!; try done; split; try done; by intros []. }
  assert (exec_ctx ctx job w w' = Some DeadlineExceeded ↔
    0 < AsDuration (ja_DeadlineBudget job)
    ∧ clock w + AsDuration (ja_DeadlineBudget job) ≤ clock w') as He.
  { unfold exec_ctx. destruct (Z.ltb_spec 0 (AsDuration (ja_DeadlineBudget job))).
    - unfold WithTimeout. rewrite Ec. case_match; bool_prop; split; try done; intros []; lia.
    - rewrite Ec. split; [done|]. intros []. lia. }
  destruct (bool_decide _ && _) eqn:Eb; (eexists; split; [reflexivity|]); simpl.
  - bool_prop. assert (exec_ctx ctx job w w' = Some DeadlineExceeded) as [??]%He by done.
    split_and!; try done; split; try done; intros [_ Hn]; by destruct Hn.
  - apply andb_false_iff in Eb. rewrite bool_decide_eq_false, negb_false_iff in Eb.
    split_and!; try done; split; try done.
    + intros (_ & Hb & Hl & Hr). destruct Eb as [Eb|Eb]; [|congruence]. exfalso. apply Eb. by apply He.
    + intros _. split; [done|]. intros (Hb & Hl & Hr).
      destruct Eb as [Eb|Eb]; [|congruence]. apply Eb. by apply He.
Qed.
End run.
End Budget.

(** ** internal/capabilities/registry.go *)
Module Registry.
Section registry.
Context {W : Type}.

Abbreviation registered := (string * Z)%type (only parsing).

Definition t : Type := gmap registered (Executor W).

Definition NewRegistry : t := ∅.

Definition Register (r : t) (d : CapabilityDescriptor) (executor : Executor W) : t :=
  <[(CapabilityId d, CapabilityVersion d) := executor]> r.

Definition descriptor_less (x y : CapabilityDescriptor) : bool :=
  if (CapabilityId x =? CapabilityId y)%string then CapabilityVersion x <? CapabilityVersion y
  else str_ltb (CapabilityId x) (CapabilityId y).

Definition Descriptors (r : t) : list CapabilityDescriptor :=
  sort_stable descriptor_less
    ((λ '((id, version), _), {| CapabilityId := id; CapabilityVersion := version |})
       <$> map_to_list r).

Definition Execute (r : t) : Executor W := λ ctx job w,
  match r !! (ja_CapabilityId job, ja_CapabilityVersion job) with
  | None => (Some (Budget.Failure job KIND_UNSUPPORTED_CAPABILITY_VERSION), w)
  | Some executor => executor ctx job w
  end.

#[global] Instance registry_echoes (r : t) :
  (∀ k e, r !! k = Some e → Echoes e) → Echoes (Execute r).
Proof.
  intros Hr ctx job w. unfold Execute. destruct (r !! _) as [e|] eqn:E.
  - apply (Hr _ _ E).
  - by eexists _, _.
Qed.

#[global] Instance descriptor_less_sw : StrictWeak descriptor_less.
Proof.
  pose proof str_ltb_weak as [Hasym Hneg]. split.
  - intros x y. unfold descriptor_less. rewrite (String.eqb_sym (CapabilityId y)).
    case_match; [rewrite !Z.ltb_lt, Z.ltb_ge; lia|apply Hasym].
  - intros x y z. unfold descriptor_less.
    destruct (String.eqb_spec (CapabilityId y) (CapabilityId x)) as [Exy|Exy],
      (String.eqb_spec (CapabilityId z) (CapabilityId y)) as [Eyz|Eyz],
      (String.eqb_spec (CapabilityId z) (CapabilityId x)) as [Exz|Exz];
      try congruence; rewrite ?Z.ltb_ge; intros H1 H2; try lia; try congruence; try by eauto.
    exfalso. apply Exy, str_ltb_anti; congruence.
Qed.

Lemma descriptor_less_anti x y :
  descriptor_less x y = false → descriptor_less y x = false → x = y.
Proof.
  unfold descriptor_less. rewrite (String.eqb_sym (CapabilityId y)).
  destruct x as [i v], y as [j u]. simpl. destruct (String.eqb_spec i j) as [->|Hne].
  - rewrite !Z.ltb_ge. intros. f_equal. lia.
  - intros H1 H2. by pose proof (str_ltb_anti _ _ H1 H2).
Qed.

Lemma elem_of_Descriptors (r : t) id version :
  {| CapabilityId := id; CapabilityVersion := version |} ∈ Descriptors r
  ↔ is_Some (r !! (id, version)).
Proof.
  unfold Descriptors. rewrite sort_elem, list_elem_of_fmap. split.
  - intros ([[i v] e] & Heq & Hin%elem_of_map_to_list). simplify_eq. by eexists.
  - intros [e He%elem_of_map_to_list]. by exists (id, version, e).
Qed.

(** the registry is closed: the advertised descriptors are exactly the registered keys, sorted and
    without repetition, whatever order they were registered in; a job is routed to an executor exactly
    when its capability and version are advertised, and refused as unsupported, untouched, when not. *)
Theorem registry_closed (r : t) ctx job w :
  let advertised := {| CapabilityId := ja_CapabilityId job;
                       CapabilityVersion := ja_CapabilityVersion job |} ∈ Descriptors r in
  NoDup (Descriptors r) ∧ StronglySorted (not_greater descriptor_less) (Descriptors r)
  ∧ (∀ l, l ≡ₚ Descriptors r → sort_stable descriptor_less l = Descriptors r)
  ∧ (advertised → ∃ executor,
       r !! (ja_CapabilityId job, ja_CapabilityVersion job) = Some executor
       ∧ Execute r ctx job w = executor ctx job w)
  ∧ (¬ advertised → Execute r ctx job w
       = (Some (Budget.Failure job KIND_UNSUPPORTED_CAPABILITY_VERSION), w)).
Proof.
  cbv zeta. rewrite elem_of_Descriptors. split_and!.
  - apply sort_NoDup, NoDup_fmap_2_strong, NoDup_map_to_list.
    intros [[i v] e] [[j u] f] H1%elem_of_map_to_list H2%elem_of_map_to_list ?. simplify_eq.
    do 2 f_equal; congruence.
  - apply sort_sorted, _.
  - intros l Hl. unfold Descriptors in *. rewrite sort_perm in Hl.
    apply sort_unique; [apply _| |done]. intros x y _ _. apply descriptor_less_anti.
  - intros [e He]. exists e. split; [exact He|]. unfold Execute. destruct (r !! _) as [e'|] eqn:E; [congruence|]. congruence.
  - intros Hn. unfold Execute. unfold Execute.
    destruct (r !! _) as [e|] eqn:E; [|done]. destruct Hn. by eexists.
Qed.
End registry.
End Registry.
