(* ===== verification/Enforcement.v ===== *)
(** * The enforcement point (internal/redaction/enforcement.go)

    A guard is a loaded policy or the fault that stops it; the enforcer is an executor around an
    executor ([Execution.Executor]); its own clock readings are a function of the world its inner
    executor leaves. *)

From S2P Require Import Prelude GoString Wire Execution Masking Builtin Declared Policy Sweep.
From stdpp Require Import options.
Local Open Scope Z_scope.

Record Guard := { g_policy : option Policy; g_fault : option Fault }.

Definition guard_of (r : Prelude.result Fault Policy) : Guard :=
  match r with
  | Ok p => {| g_policy := Some p; g_fault := None |}
  | Err f => {| g_policy := None; g_fault := Some f |}
  end.

(** [Load]: [read] is [os.ReadFile], [decode] the two calls of the YAML decoder. *)
Definition Load (read : string → option string) (decode : string → decoded * decoded)
    (compile : string → option Pattern) (path : string) : Guard :=
  if (path =? "")%string then guard_of (Ok Default) else
  match read path with
  | None => guard_of (Err (FaultUnreadable path))
  | Some raw => guard_of (let '(first, second) := decode raw in Parse compile first second path)
  end.

(** [refusal] *)
Definition refusal (job : JobAssignment) : JobResult :=
  {| jr_JobId := ja_JobId job; jr_LeaseEpoch := ja_LeaseEpoch job;
     jr_Outcome := Some (Outcome_Failure KIND_LOCAL_POLICY_REFUSED); jr_ExecutionDurationMs := 0 |}.

Section enforcer.
Context {W : Type} (clock : W → nat → Time).

Definition with_payload (r : JobResult) (m : pmsg) : JobResult :=
  {| jr_JobId := jr_JobId r; jr_LeaseEpoch := jr_LeaseEpoch r;
     jr_Outcome := Some (Outcome_Result m); jr_ExecutionDurationMs := jr_ExecutionDurationMs r |}.

(** [Enforcer.Execute] *)
Definition Enforce (guard : Guard) (inner : Executor W) : Executor W := λ ctx job w,
  if match g_fault guard with Some _ => true | None => false end
     && carriesFreeText (ja_CapabilityId job) (ja_CapabilityVersion job)
  then (Some (refusal job), w)
  else
    let '(result, w') := inner ctx job w in
    match result with
    | None => (None, w')
    | Some r =>
        match GetResult r with
        | None => (Some r, w')
        | Some payload =>
            let policy := default Default (g_policy guard) in
            match Sweep policy (clock w') payload with
            | Err _ => (Some (refusal job), w')
            | Ok (payload', _) => (Some (with_payload r payload'), w')
            end
        end
    end.

(** C7: the enforcement point fails closed, twice over. Under a faulted policy a capability that may carry
    free text is refused before the read: the inner executor is not run, so the world is as it was. Every
    other job runs the inner executor, and then nothing unswept passes: a payload is handed on only if it is
    what a successful sweep made of the inner executor's payload, and when that sweep fails, whatever the
    fault, what is handed on is the refusal, which has no payload. *)
Theorem Enforce_fails_closed guard inner ctx job w :
  (is_Some (g_fault guard) ∧ carriesFreeText (ja_CapabilityId job) (ja_CapabilityVersion job) = true →
     Enforce guard inner ctx job w = (Some (refusal job), w))
  ∧ (g_fault guard = None ∨ carriesFreeText (ja_CapabilityId job) (ja_CapabilityVersion job) = false →
     let policy := default Default (g_policy guard) in
     let '(o, w') := inner ctx job w in
     (Enforce guard inner ctx job w).2 = w'
     ∧ (∀ r m, (Enforce guard inner ctx job w).1 = Some r → GetResult r = Some m →
          ∃ r0 m0 rep, o = Some r0 ∧ GetResult r0 = Some m0 ∧ Sweep policy (clock w') m0 = Ok (m, rep))
     ∧ (∀ r0 m0 f, o = Some r0 → GetResult r0 = Some m0 → Sweep policy (clock w') m0 = Err f →
          (Enforce guard inner ctx job w).1 = Some (refusal job)))
  ∧ GetResult (refusal job) = None.
Proof.
  unfold Enforce. split_and!; [by intros [[f ->] ->]| |done].
  intros Hc. set (policy := default Default (g_policy guard)).
  assert (match g_fault guard with Some _ => true | None => false end
    && carriesFreeText (ja_CapabilityId job) (ja_CapabilityVersion job) = false) as ->
    by (destruct Hc as [-> | ->]; [done|apply andb_false_r]).
  destruct (inner ctx job w) as [[r0|] w']; [|done]. destruct (GetResult r0) as [m0|] eqn:E0.
  - destruct (Sweep policy (clock w') m0) as [[m1 rep]|f] eqn:Es; cbn; split_and!; try done.
    + intros r m [= <-] [= <-]. by exists r0, m0, rep.
    + intros r m f [= <-] E1. assert (m = m0) as -> by congruence. congruence.
    + by intros r m [= <-].
  - cbn. split_and!; [done|intros r m [= <-]; congruence|intros r m f [= <-]; congruence].
Qed.

Lemma Enforce_hands_on guard inner ctx job w r w' :
  Enforce guard inner ctx job w = (Some r, w') →
  (∃ r0 m rep, inner ctx job w = (Some r0, w') ∧ GetResult r0 = Some m
     ∧ well_declared m = true
     ∧ GetResult r = Some (set_redaction rep (swept (default Default (g_policy guard)) "" m))
     ∧ jr_JobId r = jr_JobId r0 ∧ jr_LeaseEpoch r = jr_LeaseEpoch r0)
  ∨ r = refusal job
  ∨ (inner ctx job w = (Some r, w') ∧ GetResult r = None).
Proof.
  unfold Enforce. case_match eqn:Ef; [intros [= <- <-]; by right; left|].
  destruct (inner ctx job w) as [[r0|] w0]; [|done].
  destruct (GetResult r0) as [m|] eqn:Em; [|intros [= -> <-]; by right; right].
  destruct (Sweep _ _ _) as [[m' rep]|f] eqn:Es; intros [= <- <-]; [|by right; left].
  left. apply sweep_Ok in Es as (Hd & _ & -> & _). by eexists r0, m, rep.
Qed.

(** C6: no result leaves unswept: whatever the enforcer returns that carries a payload carries the masked
    text of a payload the inner executor produced, with the report of the sweep attached; a payload
    the sweep refuses is replaced whole by a refusal; a typed failure passes through. *)
Theorem Enforce_swept guard inner ctx job w r w' :
  Enforce guard inner ctx job w = (Some r, w') →
  (∃ r0 m rep, inner ctx job w = (Some r0, w') ∧ GetResult r0 = Some m
     ∧ well_declared m = true
     ∧ GetResult r = Some (set_redaction rep (swept (default Default (g_policy guard)) "" m))
     ∧ jr_JobId r = jr_JobId r0 ∧ jr_LeaseEpoch r = jr_LeaseEpoch r0)
  ∨ r = refusal job
  ∨ (inner ctx job w = (Some r, w') ∧ GetResult r = None).
Proof. apply Enforce_hands_on. Qed.

#[export] Instance Enforce_echoes guard inner : Echoes inner → Echoes (Enforce guard inner).
Proof.
  intros He ctx job w. unfold Enforce. case_match; [by eexists _, _|].
  destruct (He ctx job w) as (r & w' & -> & Hj & Hl).
  destruct (GetResult r); [|by eexists _, _].
  destruct (Sweep _ _ _) as [[]|]; by eexists _, _.
Qed.
End enforcer.

(** a guard holds a policy or a fault, never both and never neither; an unconfigured path gives the
    built-in defaults, and a configured one never falls back to them: it gives the policy its document
    parses to or a fault. *)
Theorem Load_decides read decode compile path :
  let g := Load read decode compile path in
  (∃ p, g = {| g_policy := Some p; g_fault := None |}
     ∧ if (path =? "")%string then p = Default
       else ∃ raw, read path = Some raw
         ∧ Parse compile (decode raw).1 (decode raw).2 path = Ok p)
  ∨ (∃ f, g = {| g_policy := None; g_fault := Some f |} ∧ path ≠ "").
Proof.
  unfold Load. destruct (path =? "")%string eqn:Ep; bool_prop; [left; by eexists|].
  destruct (read path) as [raw|]; [|right; by eexists].
  destruct (decode raw) as [first second] eqn:Ed.
  destruct (Parse compile first second path) as [p|f] eqn:E; simpl; [left|right; by eexists].
  exists p. split; [done|]. exists raw. by rewrite Ed.
Qed.

Definition sample_job (id : string) : JobAssignment :=
  {| ja_JobId := "j1"; ja_OrgId := "o"; ja_RegistrationId := "r"; ja_LeaseEpoch := 3;
     ja_CapabilityId := id; ja_CapabilityVersion := 1; ja_DeadlineBudget := None; ja_IdempotencyKey := ""; ja_CorrelationId := "";
     ja_Arguments := None |}.

Definition sample_inner : Executor nat := λ _ job n,
  (Some {| jr_JobId := ja_JobId job; jr_LeaseEpoch := ja_LeaseEpoch job;
           jr_Outcome := Some (Outcome_Result sample_event); jr_ExecutionDurationMs := 0 |}, S n).

(** A payload that is no declared message does not sweep. *)
Definition undeclared_inner : Executor nat := λ _ job n,
  (Some {| jr_JobId := ja_JobId job; jr_LeaseEpoch := ja_LeaseEpoch job;
           jr_Outcome := Some (Outcome_Result (PMsg "unknown" [("x", VString "s")])); jr_ExecutionDurationMs := 0 |}, S n).

Lemma Enforce_fails_closed_witness :
  Enforce (λ _ _, 0) (guard_of (Err (FaultEmpty "p.yaml"))) sample_inner (λ _, None)
    (sample_job "kubernetes.container.logs") 7%nat
  = (Some (refusal (sample_job "kubernetes.container.logs")), 7%nat)
  ∧ (Enforce (λ _ _, 0) (guard_of (Ok Default)) undeclared_inner (λ _, None)
       (sample_job "kubernetes.container.logs") 7%nat).1
    = Some (refusal (sample_job "kubernetes.container.logs")).
Proof.
  split.
  - apply (Enforce_fails_closed (λ _ _, 0)). split; [by eexists|]. vm_compute. reflexivity.
  - destruct (Enforce_fails_closed (λ _ _, 0) (guard_of (Ok Default)) undeclared_inner (λ _, None)
      (sample_job "kubernetes.container.logs") 7%nat) as (_ & H & _).
    destruct (H (or_introl eq_refl)) as (_ & _ & Hf).
    destruct (Sweep Default (λ _, 0) (PMsg "unknown" [("x", VString "s")])) as [[m rep]|f] eqn:E; [vm_compute in E; discriminate E|].
    exact (Hf _ _ f eq_refl eq_refl E).
Defined.

Lemma Enforce_swept_witness :
  ∃ r, Enforce (λ _ _, 0) (guard_of (Ok Default)) sample_inner (λ _, None)
         (sample_job "kubernetes.namespace.events") 7%nat = (Some r, 8%nat) ∧ jr_JobId r = "j1".
Proof.
  destruct (Enforce (λ _ _, 0) (guard_of (Ok Default)) sample_inner (λ _, None)
    (sample_job "kubernetes.namespace.events") 7%nat) as [[r|] w] eqn:E.
  - assert (w = 8%nat) as ->.
    { change w with ((Some r, w).2). rewrite <-E. vm_compute. reflexivity. }
    exists r. split; [done|].
    destruct (Enforce_swept (λ _ _, 0) _ _ _ _ _ _ _ E)
      as [(r0 & m & rep & Hi & _ & _ & _ & Hj & _)|[->|[Hi _]]].
    + rewrite Hj. by injection Hi as <-.
    + done.
    + by injection Hi as <-.
  - exfalso. apply (f_equal (λ x, match x.1 with Some _ => true | None => false end)) in E.
    vm_compute in E. done.
Defined.
