(* ===== verification/Describe.v ===== *)
(** * What the relay says of its policy (internal/redaction/enforcement.go)

    [Guard.Describe] writes the policy in force, or the fault, to the relay's own diagnostics. What it writes
    determines the policy but for its patterns, and never discloses one. *)

From S2P Require Import Prelude GoString GoTime Durations Regexp Masking Builtin Declared Policy Enforcement.
From stdpp Require Import options.
Local Open Scope Z_scope.

(** One record of the log: the error or the information, with its attributes. *)
Inductive diagnostic :=
  | PolicyFaulted (reason : Fault)
  | PolicyInForce (source : string) (rule_count : nat) (rules masked_fields : list string)
      (sweep_budget : string) (max_input_bytes : Z).

(** [Guard.Describe]; [None] is the dereference of a nil policy. *)
Definition Describe (g : Guard) : option diagnostic :=
  match g_fault g with
  | Some fault => Some (PolicyFaulted fault)
  | None =>
      p ← g_policy g;
      Some (PolicyInForce (p_source p) (length (Rules p)) (Rules p) (AlwaysMasked p)
              (Duration_String (p_budget p)) (p_maxInput p))
  end.

(** ** The line can be read back *)

Lemma declared_trimmed f : f ∈ declaredPaths → trim_space f = f.
Proof.
  assert (H : forallb (λ f, (trim_space f =? f)%string) declaredPaths = true) by (vm_compute; reflexivity).
  rewrite forallb_forall in H. intros Hf%list_elem_of_In%H. by apply String.eqb_eq.
Qed.

(** A policy document with the fields and the limits of a line, and no pattern. *)
Definition transcribed (masked_fields : list string) (sweep_budget : string) (max_input_bytes : Z) : section :=
  {| sec_Version := policyVersion; sec_Patterns := []; sec_MaskedFields := masked_fields;
     sec_Limits := Some {| ld_SweepBudget := sweep_budget; ld_MaxInputBytes := max_input_bytes |} |}.

Lemma Duration_String_nonempty d : - 2 ^ 63 ≤ d < 2 ^ 63 → Duration_String d ≠ "".
Proof. intros Hd E. pose proof (ParseDuration_String d Hd) as H. by rewrite E in H. Qed.

Lemma transcribed_Ok compile p source :
  0 < p_budget p ≤ DefaultBudget → 0 < p_maxInput p ≤ DefaultMaxInputBytes →
  (∀ f, f ∈ p_alwaysMasked p → f ∈ declaredPaths) →
  Parse compile (Decoded (transcribed (AlwaysMasked p) (Duration_String (p_budget p)) (p_maxInput p))) DecodedEOF source
  = Ok {| p_rules := BuiltIn; p_alwaysMasked := p_alwaysMasked p; p_budget := p_budget p;
          p_maxInput := p_maxInput p; p_source := source |}.
Proof.
  intros Hb Hm Hf. assert (Hd : - 2 ^ 63 ≤ p_budget p < 2 ^ 63) by (unfold DefaultBudget, Second in Hb; lia).
  assert (Hin : ∀ f, f ∈ AlwaysMasked p ↔ f ∈ p_alwaysMasked p).
  { intros f. unfold AlwaysMasked, sort_strings. by rewrite sort_elem, elem_of_elements. }
  assert (Htrim : trim_space <$> AlwaysMasked p = AlwaysMasked p).
  { rewrite <- (list_fmap_id (AlwaysMasked p)) at 2. apply list_fmap_ext. intros _ f Hl%list_elem_of_lookup_2.
    apply declared_trimmed, Hf. by apply Hin. }
  apply Parse_Ok. eexists _, []. split; [reflexivity|]. cbn [transcribed sec_Version sec_Patterns sec_MaskedFields sec_Limits p_rules
    p_alwaysMasked p_source p_budget p_maxInput]. rewrite Htrim. split_and!; try done; try constructor.
  - apply Forall_forall. intros f Hl%Hin. rewrite declared_trimmed; auto.
  - apply set_eq. intros f. by rewrite elem_of_list_to_set, Hin.
  - right. split; [by apply Duration_String_nonempty|]. split; [by apply ParseDuration_String|done].
  - by right.
Qed.

Lemma Default_in_bounds : 0 < p_budget Default ≤ DefaultBudget ∧ 0 < p_maxInput Default ≤ DefaultMaxInputBytes.
Proof. by vm_compute. Qed.

(** C32: what the relay reports is what it enforces. Whatever was configured and whatever the file said,
    [Describe] writes one line. It names the fault, and then a path was configured; or the policy in force,
    by the rules it applies, the shipped ones first, and by bounds and masked fields that, copied into a
    policy file, parse to the very bounds and the very fields enforced. *)
Theorem Describe_verifiable read decode compile path :
  let g := Load read decode compile path in
  ∃ line, Describe g = Some line ∧
  match line with
  | PolicyFaulted fault => g_fault g = Some fault ∧ path ≠ ""
  | PolicyInForce source rule_count rules masked_fields sweep_budget max_input_bytes =>
      ∃ p, g = {| g_policy := Some p; g_fault := None |}
        ∧ source = p_source p ∧ rule_count = length (p_rules p) ∧ rules = rule_ID <$> p_rules p
        ∧ (rule_ID <$> BuiltIn) `prefix_of` rules
        ∧ Parse compile (Decoded (transcribed masked_fields sweep_budget max_input_bytes)) DecodedEOF source
          = Ok {| p_rules := BuiltIn; p_alwaysMasked := p_alwaysMasked p; p_budget := p_budget p;
                  p_maxInput := p_maxInput p; p_source := source |}
  end.
Proof.
  intros g. unfold g. clear g. unfold Load. destruct (String.eqb_spec path "") as [->|Hp].
  { eexists. split; [reflexivity|]. exists Default. split_and!; [done..| |].
    - done.
    - destruct Default_in_bounds. by apply transcribed_Ok. }
  destruct (read path) as [raw|]; [|by eexists]. destruct (decode raw) as [first second].
  destruct (Parse compile first second path) as [p|fault] eqn:E; [|by eexists].
  pose proof E as (sec & extra & _ & _ & _ & _ & _ & _ & _ & Hr & _)%Parse_Ok.
  apply Parse_bounds in E as (Hb & Hm & Hf). eexists. split; [reflexivity|]. exists p. split_and!; [done|done| | | |].
  - unfold Rules. by rewrite length_fmap.
  - done.
  - unfold Rules. rewrite Hr, fmap_app. by apply prefix_app_r.
  - by apply transcribed_Ok.
Qed.

(** ** The line discloses no pattern *)

(** The same document with other patterns under the same identifiers. *)
Definition with_patterns (f : string → string) (s : section) : section :=
  {| sec_Version := sec_Version s;
     sec_Patterns := (λ e, {| pe_ID := pe_ID e; pe_Pattern := f (pe_Pattern e) |}) <$> sec_Patterns s;
     sec_MaskedFields := sec_MaskedFields s; sec_Limits := sec_Limits s |}.

(** Two policies that differ in what their rules match, and in nothing else. *)
Definition same_but_patterns (x y : result Fault Policy) : Prop :=
  match x, y with
  | Ok p, Ok q => Rules p = Rules q ∧ p_alwaysMasked p = p_alwaysMasked q ∧ p_budget p = p_budget q
                  ∧ p_maxInput p = p_maxInput q ∧ p_source p = p_source q
  | Err e, Err e' => e = e'
  | _, _ => False
  end.

(** What follows the patterns does not look at them. *)
Lemma after_patterns_alike p l l' sec source :
  let with_rules l := {| p_rules := l; p_alwaysMasked := p_alwaysMasked p; p_budget := p_budget p;
                         p_maxInput := p_maxInput p; p_source := p_source p |} in
  rule_ID <$> l = rule_ID <$> l' →
  same_but_patterns
    (policy ← addMaskedFields (with_rules l) (sec_MaskedFields sec) source;
     lowerLimits policy (sec_Limits sec) source)
    (policy ← addMaskedFields (with_rules l') (sec_MaskedFields sec) source;
     lowerLimits policy (sec_Limits sec) source).
Proof.
  intros with_rules Hl. unfold addMaskedFields. cbn [with_rules p_alwaysMasked].
  destruct (maskedFields_loop _ _ _) as [masked|]; [|done]. cbn [mbind result_bind]. unfold lowerLimits.
  cbn [with_rules p_budget p_maxInput]. destruct (sec_Limits sec) as [limits|]; [|done].
  destruct (lowered_budget _ _ _); [|done]. cbn. by destruct (lowered_input _ _ _).
Qed.

(** And the line is made of what it looks at. *)
Lemma same_line x y : same_but_patterns x y → Describe (guard_of x) = Describe (guard_of y).
Proof.
  destruct x as [p|e], y as [q|e']; try done; cbn.
  - intros (Hr & Hm & Hb & Hi & Hs). unfold Describe. cbn. unfold AlwaysMasked. by rewrite Hr, Hm, Hb, Hi, Hs.
  - by intros ->.
Qed.

Section disclosure.
Context (compile : string → option Pattern) (f : string → string).

(** Both patterns of an entry make a rule, or neither does. *)
Definition alike (e : patternEntry) : Prop :=
  is_ok (NewRule compile (entry_id e) (f (pe_Pattern e))) = is_ok (NewRule compile (entry_id e) (pe_Pattern e)).

Lemma addPatterns_alike source rules rules' seen entries :
  rule_ID <$> rules = rule_ID <$> rules' → Forall alike entries →
  match addPatterns_loop compile source rules seen entries,
        addPatterns_loop compile source rules' seen
          ((λ e, {| pe_ID := pe_ID e; pe_Pattern := f (pe_Pattern e) |}) <$> entries) with
  | Ok l, Ok l' => rule_ID <$> l = rule_ID <$> l'
  | Err e, Err e' => e = e'
  | _, _ => False
  end.
Proof.
  intros Hr Ha. revert rules rules' seen Hr. induction Ha as [|e entries He _ IH]; intros rules rules' seen Hr; [done|].
  csimpl. fold (entry_id e). unfold alike in He. destruct (entry_id e =? "")%string; [done|].
  destruct (has_prefix _ _); [done|]. destruct (bool_decide _); [done|].
  destruct (NewRule compile (entry_id e) (pe_Pattern e)) as [r|] eqn:E1,
    (NewRule compile (entry_id e) (f (pe_Pattern e))) as [r'|] eqn:E2; try done.
  apply IH. apply NewRule_Ok in E1 as [E1 _], E2 as [E2 _]. rewrite !fmap_app, Hr. csimpl. by rewrite E1, E2.
Qed.

(** Whatever the patterns are, what differs is at most that one that makes no rule is named. *)
Definition names_uncompiled (source : string) (entries : list patternEntry) {A} (r : result Fault A) : Prop :=
  ∃ e, e ∈ entries ∧ r = Err (FaultPatternNotCompiled source (entry_id e)).

Lemma addPatterns_disclose source rules rules' seen entries :
  rule_ID <$> rules = rule_ID <$> rules' →
  let r := addPatterns_loop compile source rules seen entries in
  let r' := addPatterns_loop compile source rules' seen
              ((λ e, {| pe_ID := pe_ID e; pe_Pattern := f (pe_Pattern e) |}) <$> entries) in
  names_uncompiled source entries r ∨ names_uncompiled source entries r'
  ∨ match r, r' with
    | Ok l, Ok l' => rule_ID <$> l = rule_ID <$> l'
    | Err e, Err e' => e = e'
    | _, _ => False
    end.
Proof.
  revert rules rules' seen. unfold names_uncompiled.
  induction entries as [|e entries IH]; intros rules rules' seen Hr; [by right; right|].
  csimpl. fold (entry_id e). destruct (entry_id e =? "")%string; [by right; right|].
  destruct (has_prefix _ _); [by right; right|]. destruct (bool_decide _); [by right; right|].
  destruct (NewRule compile (entry_id e) (pe_Pattern e)) as [r|] eqn:E1;
    [|left; exists e; split; [by left|done]].
  destruct (NewRule compile (entry_id e) (f (pe_Pattern e))) as [r'|] eqn:E2;
    [|right; left; exists e; split; [by left|done]].
  apply NewRule_Ok in E1 as [E1 _], E2 as [E2 _].
  destruct (IH (rules ++ [r]) (rules' ++ [r']) ({[entry_id e]} ∪ seen)) as [(x & ? & ?)|[(x & ? & ?)|?]].
  - rewrite !fmap_app, Hr. csimpl. by rewrite E1, E2.
  - left. exists x. split; [by right|done].
  - right; left. exists x. split; [by right|done].
  - by right; right.
Qed.

Lemma Parse_alike sec second source :
  Forall alike (sec_Patterns sec) →
  same_but_patterns (Parse compile (Decoded sec) second source)
    (Parse compile (Decoded (with_patterns f sec)) second source).
Proof.
  intros Ha. unfold Parse. destruct second; try done. cbn [with_patterns sec_Version]. case_match; [done|].
  cbv zeta. unfold addPatterns. cbn [with_patterns p_rules sec_Patterns sec_MaskedFields sec_Limits].
  pose proof (addPatterns_alike source (p_rules Default) (p_rules Default)
    (list_to_set (rule_ID <$> p_rules Default)) (sec_Patterns sec) eq_refl Ha) as Hloop.
  destruct (addPatterns_loop _ _ _ _ _) as [l|], (addPatterns_loop _ _ _ _ (_ <$> _)) as [l'|]; try done.
  cbn [mbind result_bind]. by apply after_patterns_alike.
Qed.

Lemma Parse_disclose sec second source :
  let r := Parse compile (Decoded sec) second source in
  let r' := Parse compile (Decoded (with_patterns f sec)) second source in
  names_uncompiled source (sec_Patterns sec) r ∨ names_uncompiled source (sec_Patterns sec) r'
  ∨ same_but_patterns r r'.
Proof.
  unfold Parse. destruct second; try by right; right. cbn [with_patterns sec_Version].
  case_match; [by right; right|].
  cbv zeta. unfold addPatterns. cbn [with_patterns p_rules sec_Patterns sec_MaskedFields sec_Limits].
  destruct (addPatterns_disclose source (p_rules Default) (p_rules Default)
    (list_to_set (rule_ID <$> p_rules Default)) (sec_Patterns sec) eq_refl)
    as [(e & He & ->)|[(e & He & ->)|Hloop]]; [left; by exists e|right; left; by exists e|right; right].
  destruct (addPatterns_loop _ _ _ _ _) as [l|], (addPatterns_loop _ _ _ _ (_ <$> _)) as [l'|]; try done.
  cbn [mbind result_bind]. by apply after_patterns_alike.
Qed.
End disclosure.

(** C33: diagnosing the relay discloses no pattern. Of two policy files that differ only in what their
    patterns match, each of the two patterns of an entry making a rule or neither, the described lines are
    the very same: the policy's when they are accepted, and the same fault when they are not. And whatever
    the patterns are, the lines differ only when one of them is the fault that names, by its identifier,
    an entry whose pattern makes no rule. *)
Theorem Describe_discloses_no_pattern read1 read2 decode compile path f raw1 raw2 sec second :
  read1 path = Some raw1 → read2 path = Some raw2 →
  decode raw1 = (Decoded sec, second) → decode raw2 = (Decoded (with_patterns f sec), second) →
  let line1 := Describe (Load read1 decode compile path) in
  let line2 := Describe (Load read2 decode compile path) in
  (Forall (alike compile f) (sec_Patterns sec) → line1 = line2)
  ∧ (line1 = line2
     ∨ ∃ e, e ∈ sec_Patterns sec
         ∧ let uncompiled := Some (PolicyFaulted (FaultPatternNotCompiled path (entry_id e))) in
           line1 = uncompiled ∨ line2 = uncompiled).
Proof.
  intros H1 H2 D1 D2. unfold Load. destruct (path =? "")%string; [by split; [|left]|].
  rewrite H1, H2, D1, D2. split.
  - intros Ha. apply same_line, Parse_alike, Ha.
  - destruct (Parse_disclose compile f sec second path) as [(e & He & ->)|[(e & He & ->)|H]];
      [right; exists e; split; [done|by left]|right; exists e; split; [done|by right]|left].
    by apply same_line.
Qed.

(** The sample policy, and the same with another pattern for its rule. *)
Definition other_pattern (pattern : string) : string := "s3cr3t-[a-z]+".
Definition other_compile (pattern : string) : option Pattern :=
  if (pattern =? "s3cr3t-[a-z]+")%string
  then Some (of_re (rcats [rlit "s3cr3t-"; at_least 1 (class lower)])) else sample_compile pattern.

Definition sample_decode (raw : string) : decoded * decoded :=
  (Decoded (if (raw =? "b")%string then with_patterns other_pattern sample_section else sample_section), DecodedEOF).

Lemma Describe_discloses_no_pattern_witness :
  ∃ rules, Describe (Load (λ _, Some "a") sample_decode other_compile "/policy.yaml")
    = Some (PolicyInForce "/policy.yaml" 9 rules ["kubernetes_container_logs_v1.lines.content"] "1.5s" 1024)
  ∧ Describe (Load (λ _, Some "a") sample_decode other_compile "/policy.yaml")
    = Describe (Load (λ _, Some "b") sample_decode other_compile "/policy.yaml")
  ∧ last rules = Some "acme.key".
Proof.
  eexists. split_and!.
  - vm_compute. reflexivity.
  - apply (Describe_discloses_no_pattern _ _ _ _ _ other_pattern "a" "b" sample_section DecodedEOF);
      [reflexivity..|]. repeat constructor; vm_compute; reflexivity.
  - vm_compute. reflexivity.
Defined.
