(* ===== verification/Kube.v ===== *)
(** * The read-only Kubernetes port

    Models internal/kube/port.go and clientgo.go ([Module Port] and [Module Reader]) and kubeconfig.go
    ([Module Kubeconfig]). The Kubernetes objects are records of the fields the relay reads; the client
    is a parameter [Client], whose errors answer the questions client-go and [errors.Is] are asked
    about them. *)

From S2P Require Import Prelude GoString Utf8 GoTime Wire Execution.
From stdpp Require Import options.
Local Open Scope Z_scope.

Module Port.
(** ** Kubernetes objects *)

Record ContainerStateTerminated := { ct_Reason : string; ct_ExitCode : Z; ct_FinishedAt : Time }.

Record ContainerState := {
  cs_Running : option Time;                  (* StartedAt *)
  cs_Terminated : option ContainerStateTerminated;
  cs_Waiting : option string;                (* Reason *)
}.

Record ContainerStatus := {
  st_Name : string;
  st_Image : string;
  st_Ready : bool;
  st_RestartCount : Z;
  st_State : ContainerState;
  st_LastTerminated : option ContainerStateTerminated;
}.

Record PodCondition := { pc_Type : string; pc_Status : string; pc_Reason : string }.

Record Pod := {
  pod_Name : string;
  pod_NodeName : string;
  pod_Containers : list string;              (* Spec: the containers' names *)
  pod_InitContainers : list string;
  pod_EphemeralContainers : list string;
  pod_Phase : string;
  pod_StartTime : option Time;
  pod_Conditions : list PodCondition;
  pod_ContainerStatuses : list ContainerStatus;
  pod_InitContainerStatuses : list ContainerStatus;
  pod_EphemeralContainerStatuses : list ContainerStatus;
}.

Record Event := {
  ev_Type : string;
  ev_Reason : string;
  ev_Message : string;
  ev_InvolvedKind : string;
  ev_InvolvedName : string;
  ev_InvolvedUID : string;
  ev_SourceComponent : string;
  ev_Count : Z;
  ev_FirstTimestamp : Time;
  ev_LastTimestamp : Time;
  ev_EventTime : Time;
}.

Inductive LabelSelectorOperator := OpIn | OpNotIn | OpExists | OpDoesNotExist | OpUnknown.
#[global] Instance LabelSelectorOperator_eq_dec : EqDecision LabelSelectorOperator.
Proof. solve_decision. Defined.
Record LabelSelectorRequirement := {
  req_Key : string;
  req_Operator : LabelSelectorOperator;
  req_Values : list string;
}.
Record LabelSelector := {
  sel_MatchLabels : gmap string string;
  sel_MatchExpressions : list LabelSelectorRequirement;
}.

(** A container of a pod template; the resource maps hold rendered quantities. *)
Record Container := {
  co_Name : string;
  co_Image : string;
  co_Requests : gmap string string;
  co_Limits : gmap string string;
}.

Record ObjectMeta := {
  om_Name : string;
  om_Namespace : string;
  om_UID : string;
  om_Generation : Z;
  om_CreationTimestamp : Time;
}.

(** A Deployment or a StatefulSet. *)
Record Replicated := {
  rw_Meta : ObjectMeta;
  rw_Template : list Container;
  rw_Selector : option LabelSelector;
  rw_Replicas : option Z;
  rw_ReadyReplicas : Z;
  rw_UpdatedReplicas : Z;
  rw_AvailableReplicas : Z;
  rw_ObservedGeneration : Z;
}.

Record DaemonSet := {
  ds_Meta : ObjectMeta;
  ds_Template : list Container;
  ds_Selector : option LabelSelector;
  ds_DesiredNumberScheduled : Z;
  ds_NumberReady : Z;
  ds_UpdatedNumberScheduled : Z;
  ds_NumberAvailable : Z;
  ds_ObservedGeneration : Z;
}.

(** ** The port *)

Inductive ReadOutcome :=
  | OutcomeSuccess | OutcomeUnreachable | OutcomeUnauthorized | OutcomeWorkloadNotFound
  | OutcomeNamespaceNotFound | OutcomeSelectorUnrepresentable | OutcomePodNotFound.
#[global] Instance ReadOutcome_eq_dec : EqDecision ReadOutcome.
Proof. solve_decision. Defined.

(** What a read of the port fails with: a mapped outcome, a context error passed through, or a
    refusal that is not a [ReadError]. *)
Inductive Error :=
  | ReadError (outcome : ReadOutcome)
  | ContextError
  | Refused.

(** [outcomeOf], the same in every capability: [errors.As] to a [ReadError]. *)
Definition outcomeOf (e : Error) : ReadOutcome :=
  match e with ReadError o => o | ContextError | Refused => OutcomeUnreachable end.

Record PodPage := { pp_Pods : list Pod; pp_Truncated : bool }.
Record EventPage := { ep_Events : list Event; ep_Truncated : bool }.

Record InvolvedObject := { inv_Kind : string; inv_Name : string; inv_UID : string }.
Definition IsZero_involved (o : InvolvedObject) : bool :=
  (inv_Kind o =? "")%string && (inv_Name o =? "")%string && (inv_UID o =? "")%string.

Record LogRequest := {
  lr_Namespace : string;
  lr_Pod : string;
  lr_Container : string;
  lr_Previous : bool;
  lr_TailLines : Z;
  lr_ReadCeiling : Z;
  lr_Since : Time;
}.
Record LogRead := { lo_Raw : string; lo_Truncated : bool }.

(** The interfaces the capabilities read through. *)
Record WorkloadReader (W : Type) := {
  wr_GetDeployment : Ctx W → string → string → W → result Error Replicated * W;
  wr_GetStatefulSet : Ctx W → string → string → W → result Error Replicated * W;
  wr_GetDaemonSet : Ctx W → string → string → W → result Error DaemonSet * W;
  wr_ListPods : Ctx W → string → string → Z → W → result Error PodPage * W;
}.
Record EventReader (W : Type) := {
  er_ListEvents : Ctx W → string → InvolvedObject → Z → W → result Error EventPage * W;
}.
Record LogReader (W : Type) := {
  gr_GetPod : Ctx W → string → string → W → result Error Pod * W;
  gr_ContainerLogs : Ctx W → LogRequest → W → result Error LogRead * W;
}.
Arguments wr_GetDeployment {W}.
Arguments wr_GetStatefulSet {W}.
Arguments wr_GetDaemonSet {W}.
Arguments wr_ListPods {W}.
Arguments er_ListEvents {W}.
Arguments gr_GetPod {W}.
Arguments gr_ContainerLogs {W}.

(** What the port promises the capabilities: a failure never claims success. *)
Class WorkloadReaderOk {W} (r : WorkloadReader W) : Prop := {
  wro_deployment ctx ns n w e w' :
    wr_GetDeployment r ctx ns n w = (Err e, w') → outcomeOf e ≠ OutcomeSuccess;
  wro_statefulset ctx ns n w e w' :
    wr_GetStatefulSet r ctx ns n w = (Err e, w') → outcomeOf e ≠ OutcomeSuccess;
  wro_daemonset ctx ns n w e w' :
    wr_GetDaemonSet r ctx ns n w = (Err e, w') → outcomeOf e ≠ OutcomeSuccess;
  wro_pods ctx ns s l w e w' :
    wr_ListPods r ctx ns s l w = (Err e, w') → outcomeOf e ≠ OutcomeSuccess;
}.
Class EventReaderOk {W} (r : EventReader W) : Prop :=
  ero_events ctx ns i l w e w' :
    er_ListEvents r ctx ns i l w = (Err e, w') → outcomeOf e ≠ OutcomeSuccess.
Class LogReaderOk {W} (r : LogReader W) : Prop := {
  lro_pod ctx ns n w e w' : gr_GetPod r ctx ns n w = (Err e, w') → outcomeOf e ≠ OutcomeSuccess;
  lro_logs ctx q w e w' : gr_ContainerLogs r ctx q w = (Err e, w') → outcomeOf e ≠ OutcomeSuccess;
}.
End Port.

(** ** internal/kube/clientgo.go *)
Module Reader.
Import Port.

(** The answers [errors.Is] and apierrors give about a client error. *)
Record api_error := {
  is_Canceled : bool;
  is_DeadlineExceeded : bool;
  IsNotFound : bool;
  IsUnauthorized : bool;
  IsForbidden : bool;
}.

(** A log stream: what the server sends, and the error it ends with instead of an end of file. *)
Record log_stream := { ls_bytes : string; ls_error : option api_error }.

Record PodLogOptions := {
  lo_Container : string;
  lo_Previous : bool;
  lo_TailLines : Z;
  lo_LimitBytes : Z;
  lo_SinceTime : option Time;
}.

(** The typed clientset: Get and List of the reads used, with their continuation token, and the log
    subresource. [as_selector] is [fields.Set.AsSelector().String()]. *)
Record Client (W : Type) := {
  cl_Deployment : Ctx W → string → string → W → result api_error Replicated * W;
  cl_StatefulSet : Ctx W → string → string → W → result api_error Replicated * W;
  cl_DaemonSet : Ctx W → string → string → W → result api_error DaemonSet * W;
  cl_Pod : Ctx W → string → string → W → result api_error Pod * W;
  cl_Pods : Ctx W → string → string → Z → W → result api_error (list Pod * string) * W;
  cl_Events : Ctx W → string → option string → Z → W → result api_error (list Event * string) * W;
  cl_Logs : Ctx W → string → string → PodLogOptions → W → result api_error log_stream * W;
  cl_NamespaceUID : Ctx W → string → W → result api_error string * W;
  as_selector : gmap string string → string;
}.
Arguments cl_Deployment {W}.
Arguments cl_StatefulSet {W}.
Arguments cl_DaemonSet {W}.
Arguments cl_Pod {W}.
Arguments cl_Pods {W}.
Arguments cl_Events {W}.
Arguments cl_Logs {W}.
Arguments cl_NamespaceUID {W}.
Arguments as_selector {W}.

Definition mapReadErrorAs (e : api_error) (notFound : ReadOutcome) : Error :=
  if is_Canceled e || is_DeadlineExceeded e then ContextError
  else if IsNotFound e then ReadError notFound
  else if IsUnauthorized e || IsForbidden e then ReadError OutcomeUnauthorized
  else ReadError OutcomeUnreachable.

Definition mapReadError (e : api_error) : Error := mapReadErrorAs e OutcomeWorkloadNotFound.

Definition map_result {A} (f : api_error → Error) (r : result api_error A) : result Error A :=
  match r with Ok a => Ok a | Err e => Err (f e) end.

Section reader.
Context {W : Type} (c : Client W).

Definition GetDeployment (ctx : Ctx W) (namespace name : string) (w : W) :=
  let '(r, w') := cl_Deployment c ctx namespace name w in (map_result mapReadError r, w').
Definition GetStatefulSet (ctx : Ctx W) (namespace name : string) (w : W) :=
  let '(r, w') := cl_StatefulSet c ctx namespace name w in (map_result mapReadError r, w').
Definition GetDaemonSet (ctx : Ctx W) (namespace name : string) (w : W) :=
  let '(r, w') := cl_DaemonSet c ctx namespace name w in (map_result mapReadError r, w').

Definition GetPod (ctx : Ctx W) (namespace name : string) (w : W) : result Error Pod * W :=
  let '(r, w') := cl_Pod c ctx namespace name w in
  (map_result (λ e, mapReadErrorAs e OutcomePodNotFound) r, w').

Definition ListPods (ctx : Ctx W) (namespace selector : string) (limit : Z) (w : W)
    : result Error PodPage * W :=
  if (trim_space selector =? "")%string then (Err (ReadError OutcomeSelectorUnrepresentable), w)
  else if limit <? 1 then (Err Refused, w)
  else match cl_Pods c ctx namespace selector limit w with
       | (Err e, w') => (Err (mapReadError e), w')
       | (Ok (items, continue), w') =>
           (Ok {| pp_Pods := items; pp_Truncated := negb (continue =? "")%string |}, w')
       end.

Definition involvedObjectSelector (involved : InvolvedObject) : string :=
  if IsZero_involved involved then "" else
  let set (key value : string) (m : gmap string string) :=
    if (value =? "")%string then m else <[key := value]> m in
  as_selector c
    (set "involvedObject.uid" (inv_UID involved)
      (set "involvedObject.name" (inv_Name involved)
        (set "involvedObject.kind" (inv_Kind involved) ∅))).

Definition ListEvents (ctx : Ctx W) (namespace : string) (involved : InvolvedObject) (limit : Z)
    (w : W) : result Error EventPage * W :=
  if limit <? 1 then (Err Refused, w) else
  let selector := involvedObjectSelector involved in
  let option_selector := if (selector =? "")%string then None else Some selector in
  match cl_Events c ctx namespace option_selector limit w with
  | (Err e, w') => (Err (mapReadError e), w')
  | (Ok (items, continue), w') =>
      (Ok {| ep_Events := items; ep_Truncated := negb (continue =? "")%string |}, w')
  end.

(** [io.ReadAll(io.LimitReader(stream, n))]; a limit that is not positive is the end of the input at once. *)
Definition read_limited (s : log_stream) (n : Z) : result api_error string :=
  let limit := Z.to_nat n in
  if (limit <=? slen (ls_bytes s))%nat then Ok (str_take limit (ls_bytes s))
  else match ls_error s with None => Ok (ls_bytes s) | Some e => Err e end.

Lemma read_limited_prefix (s : log_stream) n :
  match read_limited s n with
  | Ok raw => ∃ rest, ls_bytes s = raw +:+ rest ∧ (slen raw ≤ Z.to_nat n)%nat ∧ (rest ≠ "" → slen raw = Z.to_nat n)
  | Err _ => True
  end.
Proof using.
  unfold read_limited. destruct (Nat.leb_spec (Z.to_nat n) (slen (ls_bytes s))).
  - exists (str_drop (Z.to_nat n) (ls_bytes s)). rewrite str_take_drop, slen_take. split_and!; [done|lia|lia].
  - destruct (ls_error s); [done|]. exists "". rewrite str_app_nil_r. split_and!; [done|lia|done].
Qed.

Definition log_options (request : LogRequest) : PodLogOptions := {|
  lo_Container := lr_Container request;
  lo_Previous := lr_Previous request;
  lo_TailLines := lr_TailLines request;
  lo_LimitBytes := int64 (lr_ReadCeiling request + 1);
  lo_SinceTime := if IsZero (lr_Since request) then None else Some (lr_Since request);
|}.

Definition ContainerLogs (ctx : Ctx W) (request : LogRequest) (w : W) : result Error LogRead * W :=
  if (lr_TailLines request <? 1) || (lr_ReadCeiling request <? 1) then (Err Refused, w) else
  let probe := int64 (lr_ReadCeiling request + 1) in
  match cl_Logs c ctx (lr_Namespace request) (lr_Pod request) (log_options request) w with
  | (Err e, w') => (Err (mapReadError e), w')
  | (Ok stream, w') =>
      match read_limited stream probe with
      | Err e => (Err (mapReadError e), w')
      | Ok raw =>
          if lr_ReadCeiling request <? Z.of_nat (slen raw)
          then (Ok {| lo_Raw := str_take (Z.to_nat (lr_ReadCeiling request)) raw;
                      lo_Truncated := true |}, w')
          else (Ok {| lo_Raw := raw; lo_Truncated := false |}, w')
      end
  end.

Definition ClusterFingerprint (ctx : Ctx W) (w : W) : result Error string * W :=
  let '(r, w') := cl_NamespaceUID c ctx "kube-system" w in (map_result mapReadError r, w').

(** The port the capabilities are given. *)
Definition workload_reader : WorkloadReader W := {|
  wr_GetDeployment := GetDeployment; wr_GetStatefulSet := GetStatefulSet;
  wr_GetDaemonSet := GetDaemonSet; wr_ListPods := ListPods |}.
Definition event_reader : EventReader W := {| er_ListEvents := ListEvents |}.
Definition log_reader : LogReader W := {| gr_GetPod := GetPod; gr_ContainerLogs := ContainerLogs |}.

(** The client-go reader keeps the port's promises. *)
Lemma mapped_not_success e o : o ≠ OutcomeSuccess → outcomeOf (mapReadErrorAs e o) ≠ OutcomeSuccess.
Proof. unfold mapReadErrorAs. by repeat case_match. Qed.

Lemma map_result_not_success {A} (r : result api_error A) o e :
  o ≠ OutcomeSuccess → map_result (λ e, mapReadErrorAs e o) r = Err e → outcomeOf e ≠ OutcomeSuccess.
Proof. destruct r as [a|e']; [done|]. intros Ho [= <-]. by apply mapped_not_success. Qed.

#[global] Instance workload_reader_ok : WorkloadReaderOk workload_reader.
Proof.
  split; intros *; simpl.
  - unfold GetDeployment. destruct (cl_Deployment _ _ _ _ _). intros [= Hr _].
    by eapply map_result_not_success in Hr.
  - unfold GetStatefulSet. destruct (cl_StatefulSet _ _ _ _ _). intros [= Hr _].
    by eapply map_result_not_success in Hr.
  - unfold GetDaemonSet. destruct (cl_DaemonSet _ _ _ _ _). intros [= Hr _].
    by eapply map_result_not_success in Hr.
  - unfold ListPods. case_match; [by intros [= <- _]|]. case_match; [by intros [= <- _]|].
    destruct (cl_Pods _ _ _ _ _ _) as [[[]|] ?]; [done|]. intros [= <- _].
    by apply mapped_not_success.
Qed.

#[global] Instance event_reader_ok : EventReaderOk event_reader.
Proof.
  intros ctx ns i l w e w'. simpl. unfold ListEvents. case_match; [by intros [= <- _]|].
  destruct (cl_Events _ _ _ _ _ _) as [[[]|] ?]; [done|]. intros [= <- _].
  by apply mapped_not_success.
Qed.

#[global] Instance log_reader_ok : LogReaderOk log_reader.
Proof.
  split; intros *; simpl.
  - unfold GetPod. destruct (cl_Pod _ _ _ _ _). intros [= Hr _].
    by eapply map_result_not_success in Hr.
  - unfold ContainerLogs. case_match; [by intros [= <- _]|].
    destruct (cl_Logs _ _ _ _ _ _) as [[stream|] ?].
    + destruct (read_limited _ _); [by case_match|]. intros [= <- _]. by apply mapped_not_success.
    + intros [= <- _]. by apply mapped_not_success.
Qed.

(** C39: a log read never holds more than its ceiling, whatever the server sends; unbounded requests are
    refused before the server is asked; and below the greatest int64, where one byte above the ceiling can
    still be asked for, what it returns is a prefix of the stream, the whole stream exactly when it is not
    marked truncated. *)
Theorem ContainerLogs_bounded ctx request w :
  match ContainerLogs ctx request w with
  | (Ok read, w') =>
      1 ≤ lr_TailLines request ∧ 1 ≤ lr_ReadCeiling request
      ∧ Z.of_nat (slen (lo_Raw read)) ≤ lr_ReadCeiling request
      ∧ ∃ stream, cl_Logs c ctx (lr_Namespace request) (lr_Pod request) (log_options request) w
          = (Ok stream, w')
        ∧ (lr_ReadCeiling request < 2 ^ 63 - 1 →
             lo_LimitBytes (log_options request) = lr_ReadCeiling request + 1
             ∧ ∃ rest, ls_bytes stream = lo_Raw read +:+ rest ∧ (lo_Truncated read = true ↔ rest ≠ ""))
  | (Err e, w') =>
      (e = Refused ∧ w' = w ∧ (lr_TailLines request < 1 ∨ lr_ReadCeiling request < 1))
      ∨ (e ≠ Refused ∧ 1 ≤ lr_TailLines request ∧ 1 ≤ lr_ReadCeiling request)
  end.
Proof.
  unfold ContainerLogs. destruct (_ || _) eqn:Eb.
  { left. apply orb_true_iff in Eb. rewrite !Z.ltb_lt in Eb. done. }
  bool_prop.
  assert (∀ e, mapReadError e ≠ Refused) as Hmap.
  { intros e. unfold mapReadError, mapReadErrorAs. by repeat case_match. }
  destruct (cl_Logs _ _ _ _ _ _) as [[stream|e] w']; [|right; auto].
  pose proof (read_limited_prefix stream (int64 (lr_ReadCeiling request + 1))) as Hread.
  destruct (read_limited _ _) as [raw|e]; [|right; auto]. destruct Hread as (rest & Hraw & Hle & Hrest).
  destruct (Z.ltb_spec (lr_ReadCeiling request) (Z.of_nat (slen raw))) as [Hlt|Hge]; cbn [lo_Raw lo_Truncated].
  - split_and!; [done|done|rewrite slen_take; lia|]. exists stream. split; [done|]. intros Hmax.
    split; [apply int64_id; lia|]. exists (str_drop (Z.to_nat (lr_ReadCeiling request)) raw +:+ rest).
    rewrite str_app_assoc, str_take_drop. split; [done|]. split; [|done]. intros _ E%(f_equal slen).
    rewrite slen_app, slen_drop in E. cbn in E. lia.
  - split_and!; [done|done|lia|]. exists stream. split; [done|]. intros Hmax.
    rewrite int64_id in Hrest by lia. split; [apply int64_id; lia|]. exists rest. split; [done|]. split; [done|].
    intros Hne%Hrest. lia.
Qed.

(** no list read is unbounded or unfiltered: a pod list with a blank selector or a non-positive limit
    and an event list with a non-positive limit are refused without contacting the API server; otherwise
    exactly one page of that limit is requested, and the page is reported complete exactly when
    the server gave no continuation token. *)
Theorem lists_bounded ctx namespace selector involved limit w :
  (trim_space selector = "" ∨ limit < 1 →
     ∃ e, ListPods ctx namespace selector limit w = (Err e, w))
  ∧ (limit < 1 → ListEvents ctx namespace involved limit w = (Err Refused, w))
  ∧ (∀ page w', ListPods ctx namespace selector limit w = (Ok page, w') →
       trim_space selector ≠ "" ∧ 1 ≤ limit
       ∧ ∃ continue, cl_Pods c ctx namespace selector limit w = (Ok (pp_Pods page, continue), w')
         ∧ (pp_Truncated page = false ↔ continue = ""))
  ∧ (∀ page w', ListEvents ctx namespace involved limit w = (Ok page, w') →
       1 ≤ limit
       ∧ ∃ sel continue, cl_Events c ctx namespace sel limit w = (Ok (ep_Events page, continue), w')
         ∧ (ep_Truncated page = false ↔ continue = "")).
Proof.
  split_and!.
  - unfold ListPods. intros [->|Hl]; [by eexists|]. case_match; [by eexists|].
    rewrite (proj2 (Z.ltb_lt _ _)) by done. by eexists.
  - unfold ListEvents. intros Hl. by rewrite (proj2 (Z.ltb_lt _ _)).
  - intros page w'. unfold ListPods. case_match eqn:Es; [done|]. case_match eqn:El; [done|].
    bool_prop. destruct (cl_Pods _ _ _ _ _ _) as [[[items cont]|e] w1] eqn:Ec; [|done].
    intros [= <- <-]. split_and!; [done|lia|]. exists cont. split; [done|]. simpl.
    by rewrite negb_false_iff, String.eqb_eq.
  - intros page w'. unfold ListEvents. case_match eqn:El; [done|]. bool_prop.
    destruct (cl_Events _ _ _ _ _ _) as [[[items cont]|e] w1] eqn:Ec; [|done].
    intros [= <- <-]. split; [lia|]. eexists _, cont. split; [done|]. simpl.
    by rewrite negb_false_iff, String.eqb_eq.
Qed.
End reader.

(** A ceiling of the greatest int64 has no byte above it: the limit wraps to a negative number, nothing is
    read, and the empty read is not marked truncated. *)
Example greatest_ceiling_reads_nothing :
  let client : Client nat :=
    {| cl_Deployment _ _ _ w := (Err {| is_Canceled := true; is_DeadlineExceeded := false; IsNotFound := false;
                                       IsUnauthorized := false; IsForbidden := false |}, w);
       cl_StatefulSet _ _ _ w := (Err {| is_Canceled := true; is_DeadlineExceeded := false; IsNotFound := false;
                                        IsUnauthorized := false; IsForbidden := false |}, w);
       cl_DaemonSet _ _ _ w := (Err {| is_Canceled := true; is_DeadlineExceeded := false; IsNotFound := false;
                                      IsUnauthorized := false; IsForbidden := false |}, w);
       cl_Pod _ _ _ w := (Err {| is_Canceled := true; is_DeadlineExceeded := false; IsNotFound := false;
                                IsUnauthorized := false; IsForbidden := false |}, w);
       cl_Pods _ _ _ _ w := (Ok ([], ""), w); cl_Events _ _ _ _ w := (Ok ([], ""), w);
       cl_Logs _ _ _ _ w := (Ok {| ls_bytes := "line"; ls_error := None |}, w);
       cl_NamespaceUID _ _ w := (Ok "uid", w); as_selector _ := "" |} in
  let request := {| lr_Namespace := "n"; lr_Pod := "p"; lr_Container := "c"; lr_Previous := false;
                    lr_Since := zero_time; lr_TailLines := 10; lr_ReadCeiling := 2 ^ 63 - 1 |} in
  lo_LimitBytes (log_options request) = - 2 ^ 63
  ∧ ContainerLogs client (λ _, None) request 0%nat = (Ok {| lo_Raw := ""; lo_Truncated := false |}, 0%nat).
Proof. by vm_compute. Qed.
End Reader.

(** ** internal/kube/kubeconfig.go *)
Module Kubeconfig.
Record AuthInfo := {
  au_Exec : bool;                      (* Exec != nil *)
  au_AuthProvider : bool;
  au_TokenFile : string;
  au_ClientCertificate : string;
  au_ClientKey : string;
  au_Username : string;
  au_Password : string;
  au_Impersonate : string;
  au_ImpersonateUID : string;
  au_ImpersonateGroups : list string;
  au_ImpersonateUserExtra : nat;       (* how many *)
}.

Record Cluster := {
  cu_CertificateAuthority : string;
  cu_ProxyURL : string;
  cu_InsecureSkipTLSVerify : bool;
  cu_Server : string;
}.

Record Context := { cx_Cluster : string; cx_AuthInfo : string }.

Record Config := {
  kc_AuthInfos : gmap string AuthInfo;
  kc_Clusters : gmap string Cluster;
  kc_Contexts : gmap string Context;
  kc_CurrentContext : string;
}.

Inductive construct :=
  | ExecPlugin | AuthProviderPlugin | TokenFile | CertificateFiles | BasicAuth | Impersonation
  | AuthorityFile | Proxy | InsecureTLS | PlaintextServer | SurvivingPlugin.

Inductive error := Missing | Inaccessible | Malformed | Unsupported (c : construct).

(** The two switches, as the first construct an entry uses. *)
Definition user_construct (u : AuthInfo) : option construct :=
  if au_Exec u then Some ExecPlugin
  else if au_AuthProvider u then Some AuthProviderPlugin
  else if negb (au_TokenFile u =? "")%string then Some TokenFile
  else if negb (au_ClientCertificate u =? "")%string || negb (au_ClientKey u =? "")%string
  then Some CertificateFiles
  else if negb (au_Username u =? "")%string || negb (au_Password u =? "")%string then Some BasicAuth
  else if negb (au_Impersonate u =? "")%string || negb (au_ImpersonateUID u =? "")%string
          || negb (bool_decide (au_ImpersonateGroups u = []))
          || (0 <? au_ImpersonateUserExtra u)%nat
  then Some Impersonation
  else None.

Definition cluster_construct (k : Cluster) : option construct :=
  if negb (cu_CertificateAuthority k =? "")%string then Some AuthorityFile
  else if negb (cu_ProxyURL k =? "")%string then Some Proxy
  else if cu_InsecureSkipTLSVerify k then Some InsecureTLS
  else if negb (has_prefix (cu_Server k) "https://") then Some PlaintextServer
  else None.

(** The first refusal over the values in some order; Go's map order is unspecified, so [users] and
    [clusters] are any listing of the maps. *)
Definition refuseUnsupportedConstructs (users : list AuthInfo) (clusters : list Cluster)
    : option construct :=
  match head (omap user_construct users) with
  | Some c => Some c
  | None => head (omap cluster_construct clusters)
  end.

Definition hasUsableCurrentContext (k : Config) : bool :=
  if (kc_CurrentContext k =? "")%string then false else
  match kc_Contexts k !! kc_CurrentContext k with
  | None => false
  | Some context =>
      bool_decide (is_Some (kc_Clusters k !! cx_Cluster context))
      && bool_decide (is_Some (kc_AuthInfos k !! cx_AuthInfo context))
  end.

(** What [clientcmd.LoadFromFile] fails with, as [errors.Is] sees it. *)
Inductive load_error := NotExist | Permission | OtherLoadError.
Definition classifyLoadError (e : load_error) : error :=
  match e with NotExist => Missing | Permission => Inaccessible | OtherLoadError => Malformed end.

(** [LoadKubeconfig], with the loader and the configuration builder as arguments: the builder says
    whether the configuration it built still has a credential plugin. *)
Definition LoadKubeconfig {R} (load : string → result load_error Config)
    (build : Config → option R) (has_plugin : R → bool) (path : string) : result error R :=
  match load path with
  | Err e => Err (classifyLoadError e)
  | Ok k =>
      match refuseUnsupportedConstructs (map_to_list (kc_AuthInfos k)).*2
              (map_to_list (kc_Clusters k)).*2 with
      | Some c => Err (Unsupported c)
      | None =>
          if negb (hasUsableCurrentContext k) then Err Malformed else
          match build k with
          | None => Err Malformed
          | Some config =>
              if has_plugin config then Err (Unsupported SurvivingPlugin) else Ok config
          end
      end
  end.

(** A self-contained entry: inline data only, no code execution, no escalation, TLS verified. *)
Definition inline_user (u : AuthInfo) : Prop :=
  au_Exec u = false ∧ au_AuthProvider u = false ∧ au_TokenFile u = ""
  ∧ au_ClientCertificate u = "" ∧ au_ClientKey u = "" ∧ au_Username u = "" ∧ au_Password u = ""
  ∧ au_Impersonate u = "" ∧ au_ImpersonateUID u = "" ∧ au_ImpersonateGroups u = []
  ∧ au_ImpersonateUserExtra u = 0%nat.

Definition tls_cluster (k : Cluster) : Prop :=
  cu_CertificateAuthority k = "" ∧ cu_ProxyURL k = "" ∧ cu_InsecureSkipTLSVerify k = false
  ∧ has_prefix (cu_Server k) "https://" = true.

Lemma user_construct_None u : user_construct u = None → inline_user u.
Proof.
  unfold user_construct. intros Hn. repeat case_hyp Hn. bool_prop. split_and!; try done. lia.
Qed.

Lemma cluster_construct_None k : cluster_construct k = None → tls_cluster k.
Proof. unfold cluster_construct. intros Hn. repeat case_hyp Hn. bool_prop. by split_and!. Qed.

Lemma head_omap_None {A B} (f : A → option B) l : head (omap f l) = None ↔ ∀ x, x ∈ l → f x = None.
Proof.
  induction l as [|x l IH]; csimpl; [split; [by intros _ y ?%not_elem_of_nil|done]|].
  destruct (f x) eqn:E; simpl.
  - split; [done|]. intros H. rewrite H in E; [done|by left].
  - rewrite IH. split; intros H; [intros y [->|Hy]%elem_of_cons; auto|intros; apply H; by right].
Qed.

Lemma refuse_None k :
  refuseUnsupportedConstructs (map_to_list (kc_AuthInfos k)).*2 (map_to_list (kc_Clusters k)).*2 = None
  → map_Forall (λ _, inline_user) (kc_AuthInfos k) ∧ map_Forall (λ _, tls_cluster) (kc_Clusters k).
Proof.
  unfold refuseUnsupportedConstructs. case_match eqn:Eu; [done|]. intros Ec.
  rewrite head_omap_None in Eu. rewrite head_omap_None in Ec. split.
  - intros name u Hu%elem_of_map_to_list. apply user_construct_None, Eu.
    apply list_elem_of_fmap. by exists (name, u).
  - intros name u Hu%elem_of_map_to_list. apply cluster_construct_None, Ec.
    apply list_elem_of_fmap. by exists (name, u).
Qed.

(** a kubeconfig that loads is self-contained as a whole: every user entry and every cluster entry of
    the file, selected or not, holds inline credentials only, runs no plugin, impersonates nobody and
    verifies TLS; its current context names entries of the file; and the configuration built from it
    carries no credential plugin. *)
Theorem LoadKubeconfig_safe {R} load build (has_plugin : R → bool) path config :
  LoadKubeconfig load build has_plugin path = Ok config →
  ∃ k context user cluster, load path = Ok k ∧ build k = Some config ∧ has_plugin config = false
    ∧ map_Forall (λ _, inline_user) (kc_AuthInfos k)
    ∧ map_Forall (λ _, tls_cluster) (kc_Clusters k)
    ∧ kc_Contexts k !! kc_CurrentContext k = Some context
    ∧ kc_AuthInfos k !! cx_AuthInfo context = Some user
    ∧ kc_Clusters k !! cx_Cluster context = Some cluster.
Proof.
  unfold LoadKubeconfig. intros Hl. destruct (load path) as [k|e]; [|done].
  destruct (refuseUnsupportedConstructs _ _) eqn:Er; [done|].
  apply refuse_None in Er as [Hu Hc].
  destruct (hasUsableCurrentContext k) eqn:Ex; [|done]. simpl in Hl.
  destruct (build k) as [r|] eqn:Eb; [|done]. destruct (has_plugin r) eqn:Ep; [done|].
  injection Hl as <-. unfold hasUsableCurrentContext in Ex. case_match; [done|].
  destruct (kc_Contexts k !! _) as [context|] eqn:Ek; [|done]. bool_prop.
  destruct H0 as [cluster ?], H1 as [user ?]. by exists k, context, user, cluster.
Qed.

Definition sample_config (server : string) : Config := {|
  kc_AuthInfos := {[ "u" := {| au_Exec := false; au_AuthProvider := false; au_TokenFile := "";
    au_ClientCertificate := ""; au_ClientKey := ""; au_Username := ""; au_Password := "";
    au_Impersonate := ""; au_ImpersonateUID := ""; au_ImpersonateGroups := [];
    au_ImpersonateUserExtra := 0 |} ]};
  kc_Clusters := {[ "c" := {| cu_CertificateAuthority := ""; cu_ProxyURL := "";
    cu_InsecureSkipTLSVerify := false; cu_Server := server |} ]};
  kc_Contexts := {[ "x" := {| cx_Cluster := "c"; cx_AuthInfo := "u" |} ]};
  kc_CurrentContext := "x";
|}.

Lemma LoadKubeconfig_safe_witness :
  LoadKubeconfig (λ _, Ok (sample_config "http://10.0.0.1")) (λ _, Some tt) (λ _, false) "k"
    = Err (Unsupported PlaintextServer)
  ∧ tls_cluster {| cu_CertificateAuthority := ""; cu_ProxyURL := "";
      cu_InsecureSkipTLSVerify := false; cu_Server := "https://10.0.0.1" |}.
Proof.
  split; [vm_compute; reflexivity|].
  destruct (LoadKubeconfig_safe (λ _, Ok (sample_config "https://10.0.0.1")) (λ _, Some tt)
    (λ _, false) "k" tt) as (k & context & user & cluster & Hk & _ & _ & _ & Hc & _).
  - vm_compute. reflexivity.
  - injection Hk as <-. by apply (Hc "c").
Defined.
End Kubeconfig.
