(* ===== verification/Logs.v ===== *)
(** * kubernetes.container.logs v1 (internal/capabilities/kubernetes/logs/executor.go)

    The container's resolution from the pod, the parsing of the fetched bytes into lines, the two
    bounds, and the executor. [LogsResult] is KubernetesContainerLogsResultV1, [reflect] its reflective
    form for the sweep. *)

From S2P Require Import Prelude GoString Utf8 GoTime Wire Admission Execution Kube Declared.
From Stdlib Require Import Ascii.
From Stdlib Require String.
From stdpp Require Import options.
Local Open Scope Z_scope.
#[local] Arguments String.append : simpl nomatch.

Module Logs.
Import Port.

Definition CapabilityID : string := "kubernetes.container.logs".
Definition CapabilityVersion : Z := 1.
Definition Descriptor : CapabilityDescriptor :=
  {| Wire.CapabilityId := CapabilityID; Wire.CapabilityVersion := CapabilityVersion |}.

Definition MinLogLines : Z := 10.
Definition MaxLogLines : Z := 2000.
Definition MinLogBytes : Z := 4 * 1024.
Definition MaxLogBytes : Z := 256 * 1024.
Definition readOverdraft : Z := 4.
Definition maxReadCeiling : Z := 4 * 1024 * 1024.

Record Options := {
  Policy : LocalPolicy.t;
  LocalMaxLines : Z;
  LocalMaxBytes : Z;
}.

(** ** The result *)

Inductive LogsOutcome :=
  | UNSPECIFIED | SUCCESS | UNREACHABLE | UNAUTHORIZED | POD_NOT_FOUND | CONTAINER_NOT_FOUND
  | PREVIOUS_CONTAINER_NOT_FOUND.
#[export] Instance LogsOutcome_eq_dec : EqDecision LogsOutcome.
Proof. solve_decision. Defined.

Definition outcome_number (o : LogsOutcome) : Z :=
  match o with
  | UNSPECIFIED => 0 | SUCCESS => 1 | UNREACHABLE => 2 | UNAUTHORIZED => 3 | POD_NOT_FOUND => 4
  | CONTAINER_NOT_FOUND => 5 | PREVIOUS_CONTAINER_NOT_FOUND => 6
  end.

Record LogLine := { At : Timestamp; Content : string }.

Record LogsResult := {
  lg_Outcome : LogsOutcome;
  lg_Lines : list LogLine;
  lg_ReturnedLineCount : Z;
  lg_ReturnedByteCount : Z;
  lg_Complete : bool;
  lg_TruncatedByLineBound : bool;
  lg_TruncatedByByteBound : bool;
  lg_WithheldByteCount : Z;
  lg_ReadAt : Timestamp;
  lg_AppliedMaxLines : Z;
  lg_AppliedMaxBytes : Z;
}.

(** ** Resolving the container *)

Definition declaresContainer (pod : Pod) (name : string) : bool :=
  existsb (String.eqb name) (pod_Containers pod)
  || existsb (String.eqb name) (pod_InitContainers pod)
  || existsb (String.eqb name) (pod_EphemeralContainers pod).

(** The first status of that name decides. *)
Definition hasPreviousInstance (pod : Pod) (name : string) : bool :=
  match list_find (λ status, st_Name status = name)
          (pod_ContainerStatuses pod ++ pod_InitContainerStatuses pod
           ++ pod_EphemeralContainerStatuses pod) with
  | Some (_, status) => match st_LastTerminated status with Some _ => true | None => false end
  | None => false
  end.

Definition resolveContainer (pod : Pod) (container : string) (previous : bool)
    : LogsOutcome * bool :=
  if negb (declaresContainer pod container) then (CONTAINER_NOT_FOUND, false)
  else if previous && negb (hasPreviousInstance pod container)
  then (PREVIOUS_CONTAINER_NOT_FOUND, false)
  else (SUCCESS, true).

(** ** Parsing *)

Record line := { ln_at : Time; ln_content : string; ln_bytes : Z }.

Definition splitTimestamp (entry : string) : Time * string :=
  match cut_on " "%char entry with
  | None => (zero_time, entry)
  | Some (prefix, rest) =>
      match Parse_RFC3339Nano prefix with
      | None => (zero_time, entry)
      | Some at_ => (at_, rest)
      end
  end.

Definition newline : ascii := "010".
Definition carriage_return : string := String.String "013" "".

(** One element of the loop; a blank entry is skipped. *)
Definition parseEntry (entry : string) : option line :=
  let entry := trim_suffix entry carriage_return in
  if (entry =? "")%string then None else
  let '(at_, content) := splitTimestamp entry in
  let content := FieldCap.CapLogLine content in
  Some {| ln_at := at_; ln_content := content; ln_bytes := Z.of_nat (slen content) |}.

(** The elements of the split that are lines: all but a last one that is empty, or that a truncated
    fetch cut short. *)
Definition splitLines (read : LogRead) : list string :=
  let split := split_on newline (lo_Raw read) in
  match last split with
  | Some "" => removelast split
  | Some _ => if lo_Truncated read then removelast split else split
  | None => split
  end.

Definition parseLines (read : LogRead) : list line := omap parseEntry (splitLines read).

(** ** The bounds *)

Record boundedLines := {
  bl_lines : list LogLine;
  bl_returnedBytes : Z;
  bl_withheldBytes : Z;
  bl_byLines : bool;
  bl_byBytes : bool;
}.

Definition sum_bytes (l : list line) : Z := foldr (λ e n, ln_bytes e + n) 0 l.

(** The walk backwards from the newest: how many lines fit, their total, and whether one did not. *)
Fixpoint walk (byteBound total : Z) (newest_first : list line) : nat * Z * bool :=
  match newest_first with
  | [] => (0%nat, total, false)
  | entry :: older =>
      if byteBound <? total + ln_bytes entry then (0%nat, total, true)
      else let '(n, total', stopped) := walk byteBound (total + ln_bytes entry) older in
           (S n, total', stopped)
  end.

Definition emit (entry : line) : LogLine :=
  {| At := if IsZero (ln_at entry) then None else timestamp_New (ln_at entry);
     Content := ln_content entry |}.

Definition applyBounds (parsed : list line) (fetchTruncated : bool) (lineBound byteBound : Z)
    : boundedLines :=
  let over := lineBound <? Z.of_nat (length parsed) in
  let cut := Z.to_nat (Z.of_nat (length parsed) - lineBound) in
  let dropped := if over then take cut parsed else [] in
  let keep := if over then drop cut parsed else parsed in
  let '(n, total, stopped) := walk byteBound 0 (reverse keep) in
  let first := (length keep - n)%nat in
  {| bl_lines := emit <$> drop first keep;
     bl_returnedBytes := total;
     bl_withheldBytes := sum_bytes dropped + sum_bytes (take first keep);
     bl_byLines := over;
     bl_byBytes := fetchTruncated || stopped |}.

(** ** The executor *)

Definition validArgs (args : option LogsArgs) : bool :=
  match args with
  | None => false
  | Some a => Identifier.ValidNamespace (la_Namespace a) && Identifier.ValidObjectName (la_PodName a)
              && Identifier.ValidContainerName (la_ContainerName a)
  end.

Definition wireOutcome (o : ReadOutcome) : LogsOutcome :=
  match o with
  | OutcomeSuccess => SUCCESS
  | OutcomeUnauthorized => UNAUTHORIZED
  | OutcomePodNotFound | OutcomeWorkloadNotFound | OutcomeNamespaceNotFound => POD_NOT_FOUND
  | OutcomeUnreachable | OutcomeSelectorUnrepresentable => UNREACHABLE
  end.

Definition fetchCeiling (byteBound : Z) : Z :=
  let ceiling := byteBound * readOverdraft in
  if maxReadCeiling <? ceiling then maxReadCeiling else ceiling.

Definition sinceFrom (since : Timestamp) : Time :=
  match since with None => zero_time | Some t => t end.

Definition GetKubernetesContainerLogsV1 (job : JobAssignment) : option LogsArgs :=
  match ja_Arguments job with Some (Args_Logs a) => Some a | _ => None end.

(** The reflective form, fields in descriptor order. *)
Definition reflect_line (l : LogLine) : pmsg :=
  PMsg (v1 "KubernetesLogLine") (time_field "at" (At l) ++ string_field "content" (Content l)).

Definition reflect (r : LogsResult) : pmsg :=
  PMsg (v1 "KubernetesContainerLogsResultV1")
    (scalar_field "outcome" (outcome_number (lg_Outcome r))
     ++ messages_field "lines" (reflect_line <$> lg_Lines r)
     ++ scalar_field "returned_line_count" (lg_ReturnedLineCount r)
     ++ scalar_field "returned_byte_count" (lg_ReturnedByteCount r)
     ++ bool_field "complete" (lg_Complete r)
     ++ bool_field "truncated_by_line_bound" (lg_TruncatedByLineBound r)
     ++ bool_field "truncated_by_byte_bound" (lg_TruncatedByByteBound r)
     ++ scalar_field "withheld_byte_count" (lg_WithheldByteCount r)
     ++ time_field "read_at" (lg_ReadAt r)
     ++ scalar_field "applied_max_lines" (lg_AppliedMaxLines r)
     ++ scalar_field "applied_max_bytes" (lg_AppliedMaxBytes r)).

Definition payload (r : LogsResult) : pmsg :=
  PMsg (v1 "CapabilityResult") [("kubernetes_container_logs_v1", VMessage (reflect r))].

Section executor.
Context {W : Type} (now : W → Time) (reader : LogReader W) (options : Options).

Definition line_bound (args : LogsArgs) : Z :=
  LocalPolicy.Lower (la_MaxLines args) (LocalMaxLines options) MinLogLines MaxLogLines.
Definition byte_bound (args : LogsArgs) : Z :=
  LocalPolicy.Lower (la_MaxBytes args) (LocalMaxBytes options) MinLogBytes MaxLogBytes.

(** A read that stopped with an outcome: the bounds travel all the same. *)
Definition basis (args : LogsArgs) (o : LogsOutcome) : LogsResult :=
  {| lg_Outcome := o; lg_Lines := []; lg_ReturnedLineCount := 0; lg_ReturnedByteCount := 0;
     lg_Complete := false; lg_TruncatedByLineBound := false; lg_TruncatedByByteBound := false;
     lg_WithheldByteCount := 0; lg_ReadAt := None;
     lg_AppliedMaxLines := uint32 (line_bound args);
     lg_AppliedMaxBytes := uint32 (byte_bound args) |}.

Definition log_request (args : LogsArgs) : LogRequest :=
  {| lr_Namespace := la_Namespace args; lr_Pod := la_PodName args;
     lr_Container := la_ContainerName args; lr_Previous := la_Previous args;
     lr_TailLines := line_bound args + 1; lr_ReadCeiling := fetchCeiling (byte_bound args);
     lr_Since := sinceFrom (la_SinceTime args) |}.

Definition read (ctx : Ctx W) (args : LogsArgs) (w : W) : LogsResult * W :=
  match gr_GetPod reader ctx (la_Namespace args) (la_PodName args) w with
  | (Err e, w1) => (basis args (wireOutcome (outcomeOf e)), w1)
  | (Ok pod, w1) =>
      match resolveContainer pod (la_ContainerName args) (la_Previous args) with
      | (outcome, false) => (basis args outcome, w1)
      | (_, true) =>
          match gr_ContainerLogs reader ctx (log_request args) w1 with
          | (Err e, w2) => (basis args (wireOutcome (outcomeOf e)), w2)
          | (Ok fetched, w2) =>
              let bounded := applyBounds (parseLines fetched) (lo_Truncated fetched)
                               (line_bound args) (byte_bound args) in
              ({| lg_Outcome := SUCCESS; lg_Lines := bl_lines bounded;
                  lg_ReturnedLineCount := int32 (Z.of_nat (length (bl_lines bounded)));
                  lg_ReturnedByteCount := bl_returnedBytes bounded;
                  lg_Complete := negb (bl_byLines bounded) && negb (bl_byBytes bounded);
                  lg_TruncatedByLineBound := bl_byLines bounded;
                  lg_TruncatedByByteBound := bl_byBytes bounded;
                  lg_WithheldByteCount := bl_withheldBytes bounded;
                  lg_ReadAt := timestamp_New (now w2);
                  lg_AppliedMaxLines := uint32 (line_bound args);
                  lg_AppliedMaxBytes := uint32 (byte_bound args) |}, w2)
          end
      end
  end.

Definition Execute : Executor W := λ ctx job w,
  match GetKubernetesContainerLogsV1 job with
  | None => (Some (Budget.Failure job KIND_ARGUMENTS_REJECTED), w)
  | Some args =>
      if negb (validArgs (Some args))
      then (Some (Budget.Failure job KIND_ARGUMENTS_REJECTED), w)
      else if negb (LocalPolicy.AllowsNamespace (Policy options) (la_Namespace args))
      then (Some (Budget.Failure job KIND_LOCAL_POLICY_REFUSED), w)
      else Budget.Run now ctx job (λ execCtx w,
             let '(result, w') := read execCtx args w in
             ({| Budget.rd_Result := payload result;
                 Budget.rd_Reached := negb (bool_decide (lg_Outcome result = UNREACHABLE)) |}, w')) w
  end.

#[global] Instance logs_echoes : Echoes Execute.
Proof.
  intros ctx job w. unfold Execute. destruct (GetKubernetesContainerLogsV1 job) as [args|];
    [|by eexists _, _]. case_match; [by eexists _, _|]. case_match; [by eexists _, _|].
  apply Budget.Run_echoes.
Qed.
End executor.

(** ** Parsing is right *)

(** how the fetched bytes are read: if they are lines each ended by a newline and a rest that has
    none, the lines are parsed in order, and the rest is one more line when the fetch was complete
    and is dropped when it was cut; a line is its content after the timestamp and one space when its
    first word is a timestamp, and the whole entry without a time when not. *)
Theorem parseLines_correct terminated rest truncated :
  Forall (λ l, contains_byte newline l = false) (rest :: terminated) →
  parseLines {| lo_Raw := str_concat ((λ l, l +:+ String.String newline "") <$> terminated) +:+ rest;
                lo_Truncated := truncated |}
  = omap parseEntry (terminated ++ if truncated then [] else [rest]).
Proof.
  intros Hall. inv Hall. unfold parseLines, splitLines. simpl.
  rewrite split_on_lines by done. rewrite last_snoc, removelast_last.
  destruct rest as [|a rest].
  - rewrite omap_app. destruct truncated; simpl; by rewrite app_nil_r.
  - destruct truncated; [by rewrite app_nil_r|done].
Qed.

Lemma parseLines_correct_witness :
  parseLines {| lo_Raw := "2024-02-29T12:30:15Z up" +:+ String.String newline "cut off";
                lo_Truncated := true |}
  = [{| ln_at := 1709209815 * Second; ln_content := "up"; ln_bytes := 2 |}].
Proof.
  pose proof (parseLines_correct ["2024-02-29T12:30:15Z up"] "cut off" true) as H.
  etrans; [|etrans; [apply H|]]; [vm_compute; reflexivity| |vm_compute; reflexivity].
  repeat constructor.
Defined.

(** ** The bounds are right *)

Lemma sum_bytes_app l k : sum_bytes (l ++ k) = sum_bytes l + sum_bytes k.
Proof. induction l as [|e l IH]; simpl; [done|]. rewrite IH. lia. Qed.

Lemma sum_bytes_reverse l : sum_bytes (reverse l) = sum_bytes l.
Proof.
  induction l as [|e l IH]; [done|]. rewrite reverse_cons, sum_bytes_app, IH. simpl. lia.
Qed.

Lemma walk_spec byteBound total l :
  let '(n, total', stopped) := walk byteBound total l in
  (n ≤ length l)%nat ∧ total' = total + sum_bytes (take n l)
  ∧ (total ≤ byteBound → total' ≤ byteBound)
  ∧ (stopped = false ↔ n = length l)
  ∧ (∀ e, l !! n = Some e → byteBound < total' + ln_bytes e).
Proof.
  revert total. induction l as [|e l IH]; intros total; simpl.
  { split_and!; try lia; done. }
  destruct (byteBound <? total + ln_bytes e) eqn:E; bool_prop.
  - split_and!; simpl; try lia. intros e' [= <-]. lia.
  - specialize (IH (total + ln_bytes e)).
    destruct (walk byteBound (total + ln_bytes e) l) as [[n total'] stopped].
    destruct IH as (Hn & Ht & Hb & Hs & He). simpl. split_and!; [lia|lia|lia| |done].
    rewrite Hs. lia.
Qed.

(** The lines kept: the last [k] of the parsed ones. *)
Definition newest (k : nat) (l : list line) : list line := drop (length l - k) l.

(** One line more from the end. *)
Lemma newest_more parsed cut n e :
  reverse (drop cut parsed) !! n = Some e → (n < length parsed - cut)%nat → newest (S n) parsed = e :: newest n parsed.
Proof.
  intros Ee Hn. rewrite reverse_lookup in Ee by (rewrite length_drop; lia).
  rewrite length_drop, lookup_drop in Ee. unfold newest.
  replace (length parsed - S n)%nat with (cut + (length parsed - cut - S n))%nat by lia.
  rewrite (drop_S _ _ _ Ee). do 2 f_equal. lia.
Qed.

Lemma bounds_newest parsed fetchTruncated lineBound byteBound :
  0 ≤ lineBound → 0 ≤ byteBound →
  let b := applyBounds parsed fetchTruncated lineBound byteBound in
  ∃ k, bl_lines b = emit <$> newest k parsed
    ∧ (k ≤ length parsed)%nat ∧ Z.of_nat k ≤ lineBound
    ∧ bl_returnedBytes b = sum_bytes (newest k parsed) ∧ bl_returnedBytes b ≤ byteBound
    ∧ bl_returnedBytes b + bl_withheldBytes b = sum_bytes parsed
    ∧ (k = length parsed ∨ Z.of_nat k = lineBound ∨ byteBound < sum_bytes (newest (S k) parsed))
    ∧ (bl_byLines b = true ↔ lineBound < Z.of_nat (length parsed))
    ∧ (bl_byBytes b = true ↔ fetchTruncated = true
         ∨ (Z.of_nat k < lineBound ∧ (k < length parsed)%nat)).
Proof.
  intros Hl Hb. unfold applyBounds.
  set (over := lineBound <? Z.of_nat (length parsed)).
  set (cut := if over then Z.to_nat (Z.of_nat (length parsed) - lineBound) else 0%nat).
  assert (Hdrop : (if over then take (Z.to_nat (Z.of_nat (length parsed) - lineBound)) parsed else [])
    = take cut parsed) by (unfold cut; by case_match).
  assert (Hkeep : (if over then drop (Z.to_nat (Z.of_nat (length parsed) - lineBound)) parsed
    else parsed) = drop cut parsed) by (unfold cut; by case_match).
  rewrite Hdrop, Hkeep.
  assert (Hcut : (cut ≤ length parsed)%nat ∧ (Z.of_nat (length parsed - cut) ≤ lineBound)
    ∧ (cut = 0%nat ∨ Z.of_nat (length parsed - cut) = lineBound)
    ∧ (over = true ↔ lineBound < Z.of_nat (length parsed)))
    by (unfold cut, over; destruct (Z.ltb_spec lineBound (Z.of_nat (length parsed))); lia).
  clearbody over cut. clear Hdrop Hkeep. destruct Hcut as (Hc1 & Hc2 & Hc3 & Hover).
  pose proof (walk_spec byteBound 0 (reverse (drop cut parsed))) as Hw.
  destruct (walk _ _ _) as [[n total] stopped].
  rewrite length_reverse, length_drop in Hw. destruct Hw as (Hn & Ht & Htb & Hs & He). simpl in *.
  rewrite take_reverse, sum_bytes_reverse, length_drop in Ht.
  assert (Hnew : drop (length (drop cut parsed) - n) (drop cut parsed) = newest n parsed).
  { unfold newest. rewrite drop_drop, length_drop. f_equal. lia. }
  exists n. rewrite Hnew, length_drop in *.
  assert (Hnew' : drop (length parsed - cut - n) (drop cut parsed) = newest n parsed) by done.
  split_and!; try lia.
  - done.
  - rewrite Ht, Hnew'. lia.
  - assert (sum_bytes parsed = sum_bytes (take cut parsed) + sum_bytes (drop cut parsed)) as ->
      by (by rewrite <-sum_bytes_app, take_drop).
    assert (sum_bytes (drop cut parsed)
      = sum_bytes (take (length parsed - cut - n) (drop cut parsed)) + sum_bytes (newest n parsed)) as ->
      by (by rewrite <-Hnew', <-sum_bytes_app, take_drop).
    rewrite Ht, Hnew'. lia.
  - destruct (decide (n = length parsed - cut)%nat) as [->|Hne]; [lia|right; right].
    destruct (reverse (drop cut parsed) !! n) as [e|] eqn:Ee.
    2: { apply lookup_ge_None in Ee. rewrite length_reverse, length_drop in Ee. lia. }
    specialize (He e eq_refl). rewrite (newest_more parsed cut n e) by (done || lia). simpl. rewrite <-Hnew'. lia.
  - done.
  - rewrite orb_true_iff. destruct stopped; [|].
    + split; [intros _; right|by right]. destruct Hs as [_ Hs].
      assert (n ≠ length parsed - cut)%nat by (intros ?; by apply Hs in H). lia.
    + destruct Hs as [Hs _]. specialize (Hs eq_refl). split; [intros [?|?]; [by left|done]|].
      intros [?|?]; [by left|lia].
Qed.

(** C36: the emission bounds: what is emitted is the longest run of newest lines that meets both bounds:
    exactly the last [k] lines, at most [lineBound] of them and at most [byteBound] bytes, where one
    more line would break a bound or does not exist; the byte counts add up to what was parsed; each
    truncation flag is set exactly when its bound cut something (or the fetch did). *)
Theorem applyBounds_newest parsed fetchTruncated lineBound byteBound :
  0 ≤ lineBound → 0 ≤ byteBound →
  let b := applyBounds parsed fetchTruncated lineBound byteBound in
  ∃ k, bl_lines b = emit <$> newest k parsed
    ∧ (k ≤ length parsed)%nat ∧ Z.of_nat k ≤ lineBound
    ∧ bl_returnedBytes b = sum_bytes (newest k parsed) ∧ bl_returnedBytes b ≤ byteBound
    ∧ bl_returnedBytes b + bl_withheldBytes b = sum_bytes parsed
    ∧ (k = length parsed ∨ Z.of_nat k = lineBound ∨ byteBound < sum_bytes (newest (S k) parsed))
    ∧ (bl_byLines b = true ↔ lineBound < Z.of_nat (length parsed))
    ∧ (bl_byBytes b = true ↔ fetchTruncated = true
         ∨ (Z.of_nat k < lineBound ∧ (k < length parsed)%nat)).
Proof. apply bounds_newest. Qed.

(** ** The read as a whole *)

Lemma parseEntry_bytes entry l : parseEntry entry = Some l → ln_bytes l = Z.of_nat (slen (ln_content l)).
Proof.
  unfold parseEntry. case_match; [done|]. destruct (splitTimestamp _). by intros [= <-].
Qed.

Definition content_bytes (l : list LogLine) : Z := foldr (λ x n, Z.of_nat (slen (Content x)) + n) 0 l.

Lemma content_bytes_emit l :
  Forall (λ e, ln_bytes e = Z.of_nat (slen (ln_content e))) l → content_bytes (emit <$> l) = sum_bytes l.
Proof. induction 1 as [|e l He _ IH]; csimpl; [done|]. rewrite He. by f_equal. Qed.

Lemma parsed_bytes fetched :
  Forall (λ e, ln_bytes e = Z.of_nat (slen (ln_content e))) (parseLines fetched).
Proof.
  apply Forall_forall. intros e (entry & _ & He)%list_elem_of_omap. by eapply parseEntry_bytes.
Qed.

(** What a failure of the reader is reported as. *)
Inductive reported_failure : Error → LogsOutcome → Prop :=
  | reported_unauthorized : reported_failure (ReadError OutcomeUnauthorized) UNAUTHORIZED
  | reported_missing o :
      o = OutcomePodNotFound ∨ o = OutcomeWorkloadNotFound ∨ o = OutcomeNamespaceNotFound →
      reported_failure (ReadError o) POD_NOT_FOUND
  | reported_unreachable e :
      e = ContextError ∨ e = Refused ∨ e = ReadError OutcomeUnreachable
        ∨ e = ReadError OutcomeSelectorUnrepresentable →
      reported_failure e UNREACHABLE.

Lemma logs_failure_reported e :
  outcomeOf e ≠ OutcomeSuccess → reported_failure e (wireOutcome (outcomeOf e)).
Proof. destruct e as [[]| |]; intros Ho; try done; constructor; tauto. Qed.

(** The containers a pod declares, and whether one of them has a previous instance: the first status of
    its name tells. *)
Definition container_names (pod : Pod) : list string :=
  pod_Containers pod ++ pod_InitContainers pod ++ pod_EphemeralContainers pod.

Definition has_previous (pod : Pod) (name : string) : Prop :=
  ∃ before status after,
    pod_ContainerStatuses pod ++ pod_InitContainerStatuses pod ++ pod_EphemeralContainerStatuses pod
      = before ++ status :: after
    ∧ (name ∉ st_Name <$> before) ∧ st_Name status = name ∧ st_LastTerminated status ≠ None.

Lemma existsb_eqb name (l : list string) : existsb (String.eqb name) l = true ↔ name ∈ l.
Proof.
  rewrite existsb_exists. split.
  - intros (x & Hx & ->%String.eqb_eq). by apply list_elem_of_In.
  - intros Hin. exists name. rewrite <-list_elem_of_In, String.eqb_refl. done.
Qed.

Lemma declaresContainer_iff pod name :
  declaresContainer pod name = true ↔ name ∈ container_names pod.
Proof.
  unfold declaresContainer, container_names.
  rewrite !orb_true_iff, !existsb_eqb, !elem_of_app. tauto.
Qed.

Lemma hasPreviousInstance_iff pod name : hasPreviousInstance pod name = true ↔ has_previous pod name.
Proof.
  unfold hasPreviousInstance, has_previous. set (l := _ ++ _). clearbody l. split.
  - destruct (list_find _ l) as [[i status]|] eqn:E; [|done].
    apply list_find_Some in E as (Hi & Hn & Hb). intros Ht.
    exists (take i l), status, (drop (S i) l). split_and!; [by rewrite take_drop_middle| |done|].
    + intros (x & -> & Hx)%list_elem_of_fmap.
      apply list_elem_of_lookup in Hx as [k Hk]. apply lookup_take_Some in Hk as [Hk Hlt].
      by eapply Hb.
    + intros Hl. by rewrite Hl in Ht.
  - intros (before & status & after & -> & Hb & Hn & Ht).
    assert (list_find (λ s, st_Name s = name) (before ++ status :: after)
      = Some (length before, status)) as ->.
    { apply list_find_Some. split_and!; [by apply list_lookup_middle|done|].
      intros k x Hk Hlt Hx. apply Hb, list_elem_of_fmap. exists x. split; [done|].
      rewrite lookup_app_l in Hk by done. by eapply list_elem_of_lookup_2. }
    by destruct (st_LastTerminated status).
Qed.

Section read_spec.
Context {W : Type} (now : W → Time) (reader : LogReader W) (options : Options).

(** The bounds a read is held to. *)
Definition lines_allowed (args : LogsArgs) : Z :=
  LocalPolicy.effective (la_MaxLines args) (LocalMaxLines options) 10 2000.
Definition bytes_allowed (args : LogsArgs) : Z :=
  LocalPolicy.effective (la_MaxBytes args) (LocalMaxBytes options) 4096 262144.

(** What is asked of the cluster. *)
Definition bounded_request (args : LogsArgs) : LogRequest :=
  {| lr_Namespace := la_Namespace args; lr_Pod := la_PodName args;
     lr_Container := la_ContainerName args; lr_Previous := la_Previous args;
     lr_TailLines := lines_allowed args + 1; lr_ReadCeiling := Z.min (4 * bytes_allowed args) 4194304;
     lr_Since := default zero_time (la_SinceTime args) |}.

(** The report of a read that stopped: the outcome and the bounds, and nothing else. *)
Definition nothing_read (args : LogsArgs) (o : LogsOutcome) : LogsResult :=
  {| lg_Outcome := o; lg_Lines := []; lg_ReturnedLineCount := 0; lg_ReturnedByteCount := 0;
     lg_Complete := false; lg_TruncatedByLineBound := false; lg_TruncatedByByteBound := false;
     lg_WithheldByteCount := 0; lg_ReadAt := None; lg_AppliedMaxLines := lines_allowed args;
     lg_AppliedMaxBytes := bytes_allowed args |}.

(** The report of a read that fetched [fetched] at [at_]: the newest lines that both bounds allow. *)
Record lines_read (args : LogsArgs) (fetched : LogRead) (at_ : Time) (r : LogsResult) : Prop := {
  lr_kept : ∃ k,
    lg_Lines r = emit <$> newest k (parseLines fetched) ∧ (k ≤ length (parseLines fetched))%nat
    ∧ Z.of_nat k ≤ lines_allowed args
    ∧ (k = length (parseLines fetched) ∨ Z.of_nat k = lines_allowed args
       ∨ bytes_allowed args < sum_bytes (newest (S k) (parseLines fetched)))
    ∧ (lg_TruncatedByByteBound r = true ↔ lo_Truncated fetched = true
       ∨ (Z.of_nat k < lines_allowed args ∧ (k < length (parseLines fetched))%nat));
  lr_outcome : lg_Outcome r = SUCCESS;
  lr_line_count : lg_ReturnedLineCount r = Z.of_nat (length (lg_Lines r));
  lr_byte_count : lg_ReturnedByteCount r = content_bytes (lg_Lines r);
  lr_byte_bound : lg_ReturnedByteCount r ≤ bytes_allowed args;
  lr_withheld : lg_ReturnedByteCount r + lg_WithheldByteCount r = sum_bytes (parseLines fetched);
  lr_by_lines : lg_TruncatedByLineBound r = true
    ↔ lines_allowed args < Z.of_nat (length (parseLines fetched));
  lr_complete : lg_Complete r = true
    ↔ lo_Truncated fetched = false ∧ lg_Lines r = emit <$> parseLines fetched;
  lr_read_at : lg_ReadAt r = timestamp_New at_;
  lr_applied_lines : lg_AppliedMaxLines r = lines_allowed args;
  lr_applied_bytes : lg_AppliedMaxBytes r = bytes_allowed args;
}.

(** What a read reports, case by case. *)
Inductive log_report (ctx : Ctx W) (args : LogsArgs) (w : W) : LogsResult → W → Prop :=
  | pod_unread e o w1 :
      gr_GetPod reader ctx (la_Namespace args) (la_PodName args) w = (Err e, w1) →
      reported_failure e o →
      log_report ctx args w (nothing_read args o) w1
  | container_missing pod w1 :
      gr_GetPod reader ctx (la_Namespace args) (la_PodName args) w = (Ok pod, w1) →
      la_ContainerName args ∉ container_names pod →
      log_report ctx args w (nothing_read args CONTAINER_NOT_FOUND) w1
  | previous_missing pod w1 :
      gr_GetPod reader ctx (la_Namespace args) (la_PodName args) w = (Ok pod, w1) →
      la_ContainerName args ∈ container_names pod →
      la_Previous args = true → ¬ has_previous pod (la_ContainerName args) →
      log_report ctx args w (nothing_read args PREVIOUS_CONTAINER_NOT_FOUND) w1
  | log_unread pod w1 e o w2 :
      gr_GetPod reader ctx (la_Namespace args) (la_PodName args) w = (Ok pod, w1) →
      la_ContainerName args ∈ container_names pod →
      (la_Previous args = true → has_previous pod (la_ContainerName args)) →
      gr_ContainerLogs reader ctx (bounded_request args) w1 = (Err e, w2) →
      reported_failure e o →
      log_report ctx args w (nothing_read args o) w2
  | log_read pod w1 fetched w2 r :
      gr_GetPod reader ctx (la_Namespace args) (la_PodName args) w = (Ok pod, w1) →
      la_ContainerName args ∈ container_names pod →
      (la_Previous args = true → has_previous pod (la_ContainerName args)) →
      gr_ContainerLogs reader ctx (bounded_request args) w1 = (Ok fetched, w2) →
      lines_read args fetched (now w2) r →
      log_report ctx args w r w2.

Section bounds.
Context (args : LogsArgs).
Context (Hlines : 0 ≤ la_MaxLines args < 2 ^ 32) (Hbytes : 0 ≤ la_MaxBytes args < 2 ^ 32).

Lemma bounds_allowed :
  line_bound options args = lines_allowed args ∧ byte_bound options args = bytes_allowed args.
Proof using Hbytes Hlines. split; by apply LocalPolicy.Lower_min_max. Qed.

Lemma bounds_range :
  1 ≤ lines_allowed args ≤ MaxLogLines ∧ 1 ≤ bytes_allowed args ≤ MaxLogBytes
  ∧ (0 < LocalMaxLines options → lines_allowed args ≤ LocalMaxLines options)
  ∧ (0 < LocalMaxBytes options → bytes_allowed args ≤ LocalMaxBytes options).
Proof using.
  unfold lines_allowed, bytes_allowed, LocalPolicy.effective, MaxLogLines, MaxLogBytes.
  destruct (Z.ltb_spec 0 (LocalMaxLines options)), (Z.ltb_spec 0 (LocalMaxBytes options)); lia.
Qed.

Lemma basis_nothing_read o : basis options args o = nothing_read args o.
Proof using Hbytes Hlines.
  destruct bounds_allowed as [El Eb]. pose proof bounds_range as (? & ? & _).
  assert (MaxLogLines = 2000 ∧ MaxLogBytes = 262144) as [? ?] by done.
  unfold basis, nothing_read. rewrite El, Eb, !uint32_id by lia. done.
Qed.

Lemma request_bounded : log_request options args = bounded_request args.
Proof using Hbytes Hlines.
  destruct bounds_allowed as [El Eb]. unfold log_request, bounded_request, fetchCeiling, sinceFrom.
  rewrite El, Eb. f_equal. change maxReadCeiling with 4194304. change readOverdraft with 4.
  destruct (Z.ltb_spec 4194304 (bytes_allowed args * 4)); lia.
Qed.
End bounds.

(** The two bounds applied to what was fetched make the report. *)
Lemma bounded_lines_read args fetched at_ :
  let b := applyBounds (parseLines fetched) (lo_Truncated fetched) (lines_allowed args) (bytes_allowed args) in
  lines_read args fetched at_
    {| lg_Outcome := SUCCESS; lg_Lines := bl_lines b;
       lg_ReturnedLineCount := int32 (Z.of_nat (length (bl_lines b)));
       lg_ReturnedByteCount := bl_returnedBytes b;
       lg_Complete := negb (bl_byLines b) && negb (bl_byBytes b);
       lg_TruncatedByLineBound := bl_byLines b; lg_TruncatedByByteBound := bl_byBytes b;
       lg_WithheldByteCount := bl_withheldBytes b; lg_ReadAt := timestamp_New at_;
       lg_AppliedMaxLines := uint32 (lines_allowed args);
       lg_AppliedMaxBytes := uint32 (bytes_allowed args) |}.
Proof using.
  pose proof (bounds_range args) as (Hl & Hb & _).
  assert (MaxLogLines = 2000 ∧ MaxLogBytes = 262144) as [? ?] by done.
  destruct (bounds_newest (parseLines fetched) (lo_Truncated fetched) (lines_allowed args)
    (bytes_allowed args) ltac:(lia) ltac:(lia))
    as (k & Hlines & Hk & Hkl & Hret & Hretb & Hwith & Hmax & Hby & Hbb).
  set (b := applyBounds _ _ _ _) in *. cbv zeta.
  assert (length (bl_lines b) = k) as Hlen
    by (rewrite Hlines, length_fmap; unfold newest; rewrite length_drop; lia).
  split; simpl; rewrite ?uint32_id by lia; try done.
  - by exists k.
  - rewrite Hlen, int32_id by lia. done.
  - rewrite Hlines, Hret. symmetry. apply content_bytes_emit, Forall_drop, parsed_bytes.
  - rewrite andb_true_iff, !negb_true_iff, <-!not_true_iff_false, Hby, Hbb, Hlines.
    split.
    + intros [Hnl Hnb]. split; [by destruct (lo_Truncated fetched); tauto|].
      f_equal. unfold newest. by replace (length (parseLines fetched) - k)%nat with 0%nat by lia.
    + intros [Ht Hall]. apply (f_equal length) in Hall. rewrite !length_fmap in Hall.
      unfold newest in Hall. rewrite length_drop in Hall. split; [lia|]. intros [?|?]; [congruence|lia].
Qed.

(** C35: what a log read reports, on every branch: a pod that could not be read and a log that could not
    be fetched by their cause (not authorised, no such pod, not reached), a container the pod does not
    declare and a previous instance that is not there each by its own outcome, and in all of these
    nothing but the outcome and the bounds applied; and a log that was fetched by the newest lines
    within both bounds, with the counts of what is sent and of what is withheld, each truncation flag
    set exactly when its bound (or the fetch) cut something, complete exactly when every line of an
    uncut fetch is sent, and the time of the read. The request made and the bounds applied are the
    asked ones moved into the compiled range and lowered to the operator's caps. *)
Theorem logs_read_reports `{!LogReaderOk reader} ctx args w :
  0 ≤ la_MaxLines args < 2 ^ 32 → 0 ≤ la_MaxBytes args < 2 ^ 32 →
  let '(r, w') := read now reader options ctx args w in
  log_report ctx args w r w'
  ∧ 1 ≤ lg_AppliedMaxLines r ≤ 2000 ∧ 1 ≤ lg_AppliedMaxBytes r ≤ 262144
  ∧ (0 < LocalMaxLines options → lg_AppliedMaxLines r ≤ LocalMaxLines options)
  ∧ (0 < LocalMaxBytes options → lg_AppliedMaxBytes r ≤ LocalMaxBytes options).
Proof.
  intros Hl Hb. pose proof (bounds_range args) as Hrange. unfold read.
  destruct (gr_GetPod _ _ _ _ _) as [[pod|e] w1] eqn:Eg.
  2: { rewrite basis_nothing_read by done. split; [|exact Hrange].
       eapply pod_unread; [done|]. eapply logs_failure_reported, lro_pod, Eg. }
  unfold resolveContainer.
  destruct (declaresContainer pod _) eqn:Ed; cbn [negb].
  2: { rewrite basis_nothing_read by done. split; [|exact Hrange]. eapply container_missing; [done|].
       by rewrite <-declaresContainer_iff, Ed. }
  apply declaresContainer_iff in Ed.
  destruct (la_Previous args && negb (hasPreviousInstance pod _)) eqn:Ep; cbn [negb].
  { rewrite basis_nothing_read by done. split; [|exact Hrange]. bool_prop.
    eapply previous_missing; [done..|]. rewrite <-hasPreviousInstance_iff. congruence. }
  assert (la_Previous args = true → has_previous pod (la_ContainerName args)) as Hprev.
  { intros Hp. rewrite Hp in Ep. apply hasPreviousInstance_iff. simpl in Ep. by bool_prop. }
  rewrite request_bounded by done.
  destruct (gr_ContainerLogs _ _ _ _) as [[fetched|e] w2] eqn:El.
  2: { rewrite basis_nothing_read by done. split; [|exact Hrange].
       eapply log_unread; [done..|]. eapply logs_failure_reported, lro_logs, El. }
  destruct (bounds_allowed args Hl Hb) as [-> ->]. split.
  - eapply log_read; [done..|]. apply bounded_lines_read.
  - assert (MaxLogLines = 2000 ∧ MaxLogBytes = 262144) as [? ?] by done. simpl.
    rewrite !uint32_id by lia. exact Hrange.
Qed.

(** arguments that are not identifiers and namespaces the operator excluded are refused with a typed
    failure before anything is read: the cluster is not contacted. *)
Theorem logs_refuses ctx job w :
  match GetKubernetesContainerLogsV1 job with
  | Some args =>
      (validArgs (Some args) = false → Execute now reader options ctx job w
         = (Some (Budget.Failure job KIND_ARGUMENTS_REJECTED), w))
      ∧ (validArgs (Some args) = true →
         LocalPolicy.AllowsNamespace (Policy options) (la_Namespace args) = false →
         Execute now reader options ctx job w
         = (Some (Budget.Failure job KIND_LOCAL_POLICY_REFUSED), w))
  | None => Execute now reader options ctx job w
            = (Some (Budget.Failure job KIND_ARGUMENTS_REJECTED), w)
  end.
Proof.
  unfold Execute. destruct (GetKubernetesContainerLogsV1 job) as [args|]; [|done]. split.
  - by intros ->.
  - intros -> ->. done.
Qed.
End read_spec.

(** ** A concrete cluster: one pod, one container, a log of three lines *)

Definition sample_pod : Pod :=
  {| pod_Name := "web-0"; pod_NodeName := "n1"; pod_Containers := ["app"]; pod_InitContainers := [];
     pod_EphemeralContainers := []; pod_Phase := "Running"; pod_StartTime := None;
     pod_Conditions := []; pod_ContainerStatuses := []; pod_InitContainerStatuses := [];
     pod_EphemeralContainerStatuses := [] |}.

Definition sample_log : string :=
  str_concat ((λ l, l +:+ String.String newline "")
    <$> ["1970-01-01T00:00:01Z one"; "1970-01-01T00:00:02Z two"; "three"]).

Definition no_api_error : Reader.api_error :=
  {| Reader.is_Canceled := false; Reader.is_DeadlineExceeded := false; Reader.IsNotFound := true;
     Reader.IsUnauthorized := false; Reader.IsForbidden := false |}.

Definition sample_client : Reader.Client nat :=
  {| Reader.cl_Deployment := λ _ _ _ w, (Err no_api_error, w);
     Reader.cl_StatefulSet := λ _ _ _ w, (Err no_api_error, w);
     Reader.cl_DaemonSet := λ _ _ _ w, (Err no_api_error, w);
     Reader.cl_Pod := λ _ _ name w, (if (name =? "web-0")%string then Ok sample_pod
                                     else Err no_api_error, S w);
     Reader.cl_Pods := λ _ _ _ _ w, (Ok ([sample_pod], ""), S w);
     Reader.cl_Events := λ _ _ _ _ w, (Ok ([], ""), S w);
     Reader.cl_Logs := λ _ _ _ _ w, (Ok {| Reader.ls_bytes := sample_log; Reader.ls_error := None |}, S w);
     Reader.cl_NamespaceUID := λ _ _ w, (Ok "uid", w);
     Reader.as_selector := λ _, "" |}.

Definition sample_args (pod : string) : LogsArgs :=
  {| la_Namespace := "shop"; la_PodName := pod; la_ContainerName := "app"; la_Previous := false;
     la_MaxLines := 2; la_MaxBytes := 0; la_SinceTime := None |}.
Definition sample_options : Options :=
  {| Policy := {| LocalPolicy.AllowedNamespaces := ∅ |}; LocalMaxLines := 2; LocalMaxBytes := 0 |}.

(** The local cap of two lines wins over the floor of ten. *)
Lemma logs_read_reports_witness :
  let '(r, _) := read (λ _, 0) (Reader.log_reader sample_client) sample_options (λ _, None)
                   (sample_args "web-0") 0%nat in
  lg_Outcome r = SUCCESS
  ∧ lg_Lines r = [{| At := Some (2 * Second); Content := "two" |}; {| At := None; Content := "three" |}]
  ∧ lg_Complete r = false ∧ lg_AppliedMaxLines r ≤ 2
  ∧ lg_ReturnedByteCount r + lg_WithheldByteCount r = sum_bytes (parseLines {| lo_Raw := sample_log; lo_Truncated := false |}).
Proof.
  pose proof (logs_read_reports (λ _, 0) (Reader.log_reader sample_client) sample_options (λ _, None)
    (sample_args "web-0") 0%nat ltac:(simpl; lia) ltac:(simpl; lia)) as Hr.
  destruct (read _ _ _ _ _ _) as [r w'] eqn:E. vm_compute in E. injection E as Er _.
  assert (lg_Outcome r = SUCCESS) as Hs by (rewrite <-Er; reflexivity).
  destruct Hr as (Hr & _ & _ & Hcap & _). split_and!; [exact Hs|rewrite <-Er; reflexivity..|exact (Hcap eq_refl)|].
  clear Er Hcap. destruct Hr as [e o w1 _ Ho|? ? ? Hc|? ? ? Hc|? ? e o ? ? ? ? ? Ho|pod w1 fetched w2 r Hp _ _ Hf Hr];
    try discriminate Hs; try (simpl in Hs; subst o; inversion Ho; fail).
  rewrite (lr_withheld _ _ _ _ _ Hr). vm_compute in Hp. injection Hp as _ <-. vm_compute in Hf.
  injection Hf as <- _. reflexivity.
Defined.

(** A name no container of the pod has, and a pod that is not there, are told apart. *)
Example missing_told_apart :
  let outcome a := lg_Outcome (read (λ _, 0) (Reader.log_reader sample_client) sample_options (λ _, None) a 0%nat).1 in
  outcome (sample_args "web-1") = POD_NOT_FOUND
  ∧ outcome {| la_Namespace := "shop"; la_PodName := "web-0"; la_ContainerName := "db"; la_Previous := false;
               la_MaxLines := 2; la_MaxBytes := 0; la_SinceTime := None |} = CONTAINER_NOT_FOUND
  ∧ outcome {| la_Namespace := "shop"; la_PodName := "web-0"; la_ContainerName := "app"; la_Previous := true;
               la_MaxLines := 2; la_MaxBytes := 0; la_SinceTime := None |} = PREVIOUS_CONTAINER_NOT_FOUND.
Proof. split_and!; vm_compute; reflexivity. Qed.

Lemma applyBounds_newest_witness :
  ∃ k, bl_lines (applyBounds [{| ln_at := 0; ln_content := "ab"; ln_bytes := 2 |};
                              {| ln_at := 0; ln_content := "c"; ln_bytes := 1 |}] false 5 2)
       = emit <$> newest k [{| ln_at := 0; ln_content := "ab"; ln_bytes := 2 |};
                            {| ln_at := 0; ln_content := "c"; ln_bytes := 1 |}] ∧ (k ≤ 2)%nat.
Proof.
  destruct (applyBounds_newest [{| ln_at := 0; ln_content := "ab"; ln_bytes := 2 |};
    {| ln_at := 0; ln_content := "c"; ln_bytes := 1 |}] false 5 2 ltac:(lia) ltac:(lia))
    as (k & Hl & Hk & _). exists k. split; [exact Hl|exact Hk].
Defined.

(** A byte that is no UTF-8 reaches the result's string field, which proto3 requires to be UTF-8:
    marshalling such a result fails. *)
Example invalid_utf8_content :
  let raw := String.String (chr 0xFF) (String.String newline "") in
  Content <$> bl_lines (applyBounds (parseLines {| lo_Raw := raw; lo_Truncated := false |}) false 10 4096)
    = [String.String (chr 0xFF) ""]
  ∧ valid_utf8 (String.String (chr 0xFF) "") = false.
Proof. split; vm_compute; reflexivity. Qed.
End Logs.
