(* ===== verification/Events.v ===== *)
(** * kubernetes.namespace.events v1 (internal/capabilities/kubernetes/events/executor.go)

    The occurrence interval of an event, the window, the order of the result, and the executor. *)

From S2P Require Import Prelude GoString Utf8 GoTime Wire Admission Execution Kube Declared.
From stdpp Require Import options.
Local Open Scope Z_scope.

Module Events.
Import Port.

Definition CapabilityID : string := "kubernetes.namespace.events".
Definition CapabilityVersion : Z := 1.
Definition Descriptor : CapabilityDescriptor :=
  {| Wire.CapabilityId := CapabilityID; Wire.CapabilityVersion := CapabilityVersion |}.

Definition MinEvents : Z := 10.
Definition MaxEvents : Z := 200.
Definition DefaultRetentionHorizon : Duration := Hour.

Record Options (W : Type) := {
  Policy : LocalPolicy.t;
  LocalMaxEvents : Z;
  RetentionHorizon : Duration;
  Now : option (W → Time);
}.
Arguments Policy {W}.
Arguments LocalMaxEvents {W}.
Arguments RetentionHorizon {W}.
Arguments Now {W}.

(** ** The result *)

Inductive EventsOutcome := UNSPECIFIED | SUCCESS | UNREACHABLE | UNAUTHORIZED.
#[export] Instance EventsOutcome_eq_dec : EqDecision EventsOutcome.
Proof. solve_decision. Defined.
Definition outcome_number (o : EventsOutcome) : Z :=
  match o with UNSPECIFIED => 0 | SUCCESS => 1 | UNREACHABLE => 2 | UNAUTHORIZED => 3 end.

Record KubernetesEvent := {
  ke_Type : string;
  ke_Reason : string;
  ke_Message : string;
  ke_InvolvedObject : InvolvedObjectMsg;
  ke_SourceComponent : string;
  ke_Count : Z;
  ke_FirstSeenAt : Timestamp;
  ke_LastSeenAt : Timestamp;
}.

Record EventsResult := {
  kr_Outcome : EventsOutcome;
  kr_Events : list KubernetesEvent;
  kr_ReturnedEventCount : Z;
  kr_Complete : bool;
  kr_WindowPredatesRetention : bool;
  kr_AppliedRetentionHorizon : Duration;
  kr_ReadAt : Timestamp;
  kr_AppliedMaxEvents : Z;
}.

(** ** Events and the window *)

Definition overlapsWindow (first last start end_ : Time) : bool :=
  negb (Before last start) && Before first end_.

Definition occurrence (source : Event) : Time * Time :=
  let first := ev_FirstTimestamp source in
  let last := ev_LastTimestamp source in
  let last := if IsZero last && negb (IsZero (ev_EventTime source)) then ev_EventTime source else last in
  let first := if IsZero first then last else first in
  let last := if IsZero last then first else last in
  (first, last).

Definition orUnknown (value : string) : string := if (value =? "")%string then "Unknown" else value.

Definition mapEvent (source : Event) (first last : Time) : KubernetesEvent :=
  {| ke_Type := FieldCap.CapReason (orUnknown (ev_Type source));
     ke_Reason := FieldCap.CapReason (ev_Reason source);
     ke_Message := FieldCap.CapMessage (ev_Message source);
     ke_InvolvedObject := {| io_Kind := FieldCap.CapIdentifier (ev_InvolvedKind source);
                             io_Name := FieldCap.CapIdentifier (ev_InvolvedName source);
                             io_Uid := FieldCap.CapIdentifier (ev_InvolvedUID source) |};
     ke_SourceComponent := FieldCap.CapIdentifier (ev_SourceComponent source);
     ke_Count := ev_Count source;
     ke_FirstSeenAt := if IsZero first then None else timestamp_New first;
     ke_LastSeenAt := if IsZero last then None else timestamp_New last |}.

(** The comparison of the sort: oldest first, then by reason. *)
Definition event_less (x y : KubernetesEvent) : bool :=
  let left := AsTime (ke_LastSeenAt x) in
  let right := AsTime (ke_LastSeenAt y) in
  if left =? right then str_ltb (ke_Reason x) (ke_Reason y) else Before left right.

(** The loop over the page. *)
Definition admit_event (start end_ : Time) (source : Event) : option KubernetesEvent :=
  let '(first, last) := occurrence source in
  if overlapsWindow first last start end_ then Some (mapEvent source first last) else None.

Definition admitted (start end_ : Time) (page : list Event) : list KubernetesEvent :=
  sort_stable event_less (omap (admit_event start end_) page).

(** ** The executor *)

Definition validNarrowing (involved : option InvolvedObjectMsg) : bool :=
  match involved with
  | None => true
  | Some i =>
      ((io_Kind i =? "")%string || Identifier.ValidKind (io_Kind i))
      && ((io_Name i =? "")%string || Identifier.ValidObjectName (io_Name i))
      && ((io_Uid i =? "")%string || Identifier.ValidUID (io_Uid i))
  end.

Definition validArgs (args : option EventsArgs) : bool :=
  match args with
  | None => false
  | Some a =>
      Identifier.ValidNamespace (ea_Namespace a)
      && match ea_WindowStart a, ea_WindowEnd a with
         | Some start, Some end_ => Before start end_
         | _, _ => false
         end
      && validNarrowing (ea_InvolvedObject a)
  end.

Definition involvedFrom (involved : option InvolvedObjectMsg) : InvolvedObject :=
  match involved with
  | None => {| inv_Kind := ""; inv_Name := ""; inv_UID := "" |}
  | Some i => {| inv_Kind := io_Kind i; inv_Name := io_Name i; inv_UID := io_Uid i |}
  end.

Definition wireOutcome (o : ReadOutcome) : EventsOutcome :=
  match o with
  | OutcomeSuccess => SUCCESS
  | OutcomeUnauthorized => UNAUTHORIZED
  | _ => UNREACHABLE
  end.

Definition reflect_involved (i : InvolvedObjectMsg) : pmsg :=
  PMsg (v1 "KubernetesInvolvedObject")
    (string_field "kind" (io_Kind i) ++ string_field "name" (io_Name i) ++ string_field "uid" (io_Uid i)).

Definition reflect_event (e : KubernetesEvent) : pmsg :=
  PMsg (v1 "KubernetesEvent")
    (string_field "type" (ke_Type e) ++ string_field "reason" (ke_Reason e)
     ++ string_field "message" (ke_Message e)
     ++ message_field "involved_object" (Some (reflect_involved (ke_InvolvedObject e)))
     ++ string_field "source_component" (ke_SourceComponent e)
     ++ scalar_field "count" (ke_Count e)
     ++ time_field "first_seen_at" (ke_FirstSeenAt e)
     ++ time_field "last_seen_at" (ke_LastSeenAt e)).

Definition reflect (r : EventsResult) : pmsg :=
  PMsg (v1 "KubernetesNamespaceEventsResultV1")
    (scalar_field "outcome" (outcome_number (kr_Outcome r))
     ++ messages_field "events" (reflect_event <$> kr_Events r)
     ++ scalar_field "returned_event_count" (kr_ReturnedEventCount r)
     ++ bool_field "complete" (kr_Complete r)
     ++ bool_field "window_predates_retention" (kr_WindowPredatesRetention r)
     ++ duration_field "applied_retention_horizon" (kr_AppliedRetentionHorizon r)
     ++ time_field "read_at" (kr_ReadAt r)
     ++ scalar_field "applied_max_events" (kr_AppliedMaxEvents r)).

Definition payload (r : EventsResult) : pmsg :=
  PMsg (v1 "CapabilityResult") [("kubernetes_namespace_events_v1", VMessage (reflect r))].

Definition GetKubernetesNamespaceEventsV1 (job : JobAssignment) : option EventsArgs :=
  match ja_Arguments job with Some (Args_Events a) => Some a | _ => None end.

Section executor.
Context {W : Type} (now : W → Time) (reader : EventReader W).

(** [NewExecutor]: the defaults of an operator who configured nothing. *)
Definition NewExecutor (o : Options W) : Options W :=
  {| Policy := Policy o; LocalMaxEvents := LocalMaxEvents o;
     RetentionHorizon := if RetentionHorizon o <=? 0 then DefaultRetentionHorizon
                         else RetentionHorizon o;
     Now := match Now o with None => Some now | Some f => Some f end |}.

Context (options : Options W).

Definition clock (w : W) : Time := match Now options with Some f => f w | None => now w end.

Definition applied_max (args : EventsArgs) : Z :=
  LocalPolicy.Lower (ea_MaxEvents args) (LocalMaxEvents options) MinEvents MaxEvents.

Definition read (ctx : Ctx W) (args : EventsArgs) (w : W) : EventsResult * W :=
  let windowStart := AsTime (ea_WindowStart args) in
  let predates := Before windowStart (clock w + - RetentionHorizon options) in
  match er_ListEvents reader ctx (ea_Namespace args) (involvedFrom (ea_InvolvedObject args))
          (applied_max args) w with
  | (Err e, w') =>
      ({| kr_Outcome := wireOutcome (outcomeOf e); kr_Events := []; kr_ReturnedEventCount := 0;
          kr_Complete := false; kr_WindowPredatesRetention := predates;
          kr_AppliedRetentionHorizon := RetentionHorizon options; kr_ReadAt := None;
          kr_AppliedMaxEvents := uint32 (applied_max args) |}, w')
  | (Ok page, w') =>
      let events := admitted windowStart (AsTime (ea_WindowEnd args)) (ep_Events page) in
      ({| kr_Outcome := SUCCESS; kr_Events := events;
          kr_ReturnedEventCount := int32 (Z.of_nat (length events));
          kr_Complete := negb (ep_Truncated page); kr_WindowPredatesRetention := predates;
          kr_AppliedRetentionHorizon := RetentionHorizon options;
          kr_ReadAt := timestamp_New (now w');
          kr_AppliedMaxEvents := uint32 (applied_max args) |}, w')
  end.

Definition Execute : Executor W := λ ctx job w,
  match GetKubernetesNamespaceEventsV1 job with
  | None => (Some (Budget.Failure job KIND_ARGUMENTS_REJECTED), w)
  | Some args =>
      if negb (validArgs (Some args))
      then (Some (Budget.Failure job KIND_ARGUMENTS_REJECTED), w)
      else if negb (LocalPolicy.AllowsNamespace (Policy options) (ea_Namespace args))
      then (Some (Budget.Failure job KIND_LOCAL_POLICY_REFUSED), w)
      else Budget.Run now ctx job (λ execCtx w,
             let '(result, w') := read execCtx args w in
             ({| Budget.rd_Result := payload result;
                 Budget.rd_Reached := negb (bool_decide (kr_Outcome result = UNREACHABLE)) |}, w')) w
  end.

#[global] Instance events_echoes : Echoes Execute.
Proof.
  intros ctx job w. unfold Execute. destruct (GetKubernetesNamespaceEventsV1 job) as [args|];
    [|by eexists _, _]. case_match; [by eexists _, _|]. case_match; [by eexists _, _|].
  apply Budget.Run_echoes.
Qed.
End executor.

(** ** The order *)

#[global] Instance event_less_sw : StrictWeak event_less.
Proof.
  pose proof str_ltb_weak as [Hasym Hneg]. split.
  - intros x y. unfold event_less, Before. rewrite (Z.eqb_sym (AsTime (ke_LastSeenAt y))).
    case_match; bool_prop; [apply Hasym|]. rewrite Z.ltb_lt, Z.ltb_ge. lia.
  - intros x y z. unfold event_less, Before.
    destruct (Z.eqb_spec (AsTime (ke_LastSeenAt y)) (AsTime (ke_LastSeenAt x))),
      (Z.eqb_spec (AsTime (ke_LastSeenAt z)) (AsTime (ke_LastSeenAt y))),
      (Z.eqb_spec (AsTime (ke_LastSeenAt z)) (AsTime (ke_LastSeenAt x)));
      rewrite ?Z.ltb_ge; intros; try lia; eauto.
Qed.

(** When an event occurred, whichever of its timestamps the cluster filled in. *)
Lemma occurrence_times source :
  let '(first, last) := occurrence source in
  (ev_LastTimestamp source ≠ zero_time → last = ev_LastTimestamp source)
  ∧ (ev_FirstTimestamp source ≠ zero_time → first = ev_FirstTimestamp source)
  ∧ (ev_LastTimestamp source = zero_time → ev_EventTime source ≠ zero_time →
       last = ev_EventTime source)
  ∧ (ev_FirstTimestamp source = zero_time → first = last).
Proof.
  unfold occurrence, IsZero.
  destruct (Z.eqb_spec (ev_LastTimestamp source) zero_time) as [El|El],
    (Z.eqb_spec (ev_EventTime source) zero_time) as [Ee|Ee],
    (Z.eqb_spec (ev_FirstTimestamp source) zero_time) as [Ef|Ef]; simpl;
    rewrite ?El, ?Z.eqb_refl; rewrite ?(proj2 (Z.eqb_neq _ _) El), ?(proj2 (Z.eqb_neq _ _) Ee);
    split_and!; intros; congruence.
Qed.

#[local] Opaque occurrence.

(** What a failure of the reader is reported as. *)
Inductive reported_failure : Error → EventsOutcome → Prop :=
  | reported_unauthorized : reported_failure (ReadError OutcomeUnauthorized) UNAUTHORIZED
  | reported_unreachable e : e ≠ ReadError OutcomeUnauthorized → reported_failure e UNREACHABLE.

Lemma events_failure_reported e :
  outcomeOf e ≠ OutcomeSuccess → reported_failure e (wireOutcome (outcomeOf e)).
Proof. destruct e as [[]| |]; intros Ho; try done; by constructor. Qed.

(** The events of a page that a window shows, in the order of the result. *)
Record shows (start end_ : Time) (page : list Event) (events : list KubernetesEvent) : Prop := {
  sh_members : events ≡ₚ (λ e, mapEvent e (occurrence e).1 (occurrence e).2)
    <$> filter (λ e, start ≤ (occurrence e).2 ∧ (occurrence e).1 < end_) page;
  sh_sorted : StronglySorted (not_greater event_less) events;
  sh_stable t reason :
    filter (λ e, AsTime (ke_LastSeenAt e) = t ∧ ke_Reason e = reason) events
    = filter (λ e, AsTime (ke_LastSeenAt e) = t ∧ ke_Reason e = reason)
        (omap (admit_event start end_) page);
}.

Lemma admitted_shows start end_ page : shows start end_ page (admitted start end_ page).
Proof.
  split; [|apply sort_sorted, _|].
  - unfold admitted. rewrite sort_perm.
    induction page as [|e l IH]; [done|]. csimpl. rewrite filter_cons.
    unfold admit_event at 1. destruct (occurrence e) as [first last] eqn:Eo. simpl.
    unfold overlapsWindow, Before.
    destruct (Z.ltb_spec last start), (Z.ltb_spec first end_); simpl;
      (first [rewrite decide_False by lia|rewrite decide_True by lia]); [done..|csimpl|done].
    rewrite Eo. by constructor.
  - intros t reason. apply sort_filter. intros x y _ _ [Hx Hrx] [Hy Hry].
    unfold event_less. rewrite Hx, Hy, Z.eqb_refl, Hrx, Hry.
    pose proof str_ltb_weak as [Hasym _]. destruct (str_ltb reason reason) eqn:E; [|done].
    by rewrite (Hasym _ _ E) in E.
Qed.

Section read_spec.
Context {W : Type} (now : W → Time) (reader : EventReader W) (options : Options W).

(** The bound a read is held to. *)
Definition events_allowed (args : EventsArgs) : Z :=
  LocalPolicy.effective (ea_MaxEvents args) (LocalMaxEvents options) 10 200.

(** C37: what an events read reports, on every branch. One page of at most the effective number of events
    is asked for. When it cannot be read, the report says why (not authorised, or not reached), and it
    holds no event, no count and no time and is not complete. When it is read, the events reported are
    exactly those of the page whose occurrence interval meets the half-open window, each once, oldest
    first with ties by reason and, for equal ones, in page order; their number and the time of the read
    are reported, and it is complete exactly when the page had no continuation. Whatever the outcome,
    the applied bound is the asked one moved into the compiled range and lowered to the operator's cap,
    and the retention judgement is about the window's start against the attested horizon. *)
Theorem events_read_reports `{!EventReaderOk reader} ctx args w :
  0 ≤ ea_MaxEvents args < 2 ^ 32 →
  let '(r, w') := read now reader options ctx args w in
  let start := AsTime (ea_WindowStart args) in
  (kr_WindowPredatesRetention r = true ↔ start < clock now options w - RetentionHorizon options)
  ∧ kr_AppliedRetentionHorizon r = RetentionHorizon options
  ∧ kr_AppliedMaxEvents r = events_allowed args ∧ 1 ≤ kr_AppliedMaxEvents r ≤ 200
  ∧ (0 < LocalMaxEvents options → kr_AppliedMaxEvents r ≤ LocalMaxEvents options)
  ∧ match er_ListEvents reader ctx (ea_Namespace args) (involvedFrom (ea_InvolvedObject args))
            (events_allowed args) w with
    | (Err e, w1) =>
        w' = w1 ∧ reported_failure e (kr_Outcome r) ∧ kr_Events r = [] ∧ kr_ReturnedEventCount r = 0
        ∧ kr_Complete r = false ∧ kr_ReadAt r = None
    | (Ok page, w1) =>
        w' = w1 ∧ kr_Outcome r = SUCCESS
        ∧ shows start (AsTime (ea_WindowEnd args)) (ep_Events page) (kr_Events r)
        ∧ (Z.of_nat (length (kr_Events r)) < 2 ^ 31 →
             kr_ReturnedEventCount r = Z.of_nat (length (kr_Events r)))
        ∧ (kr_Complete r = true ↔ ep_Truncated page = false)
        ∧ kr_ReadAt r = timestamp_New (now w1)
    end.
Proof.
  intros Hmax. unfold read.
  assert (applied_max options args = events_allowed args) as -> by (by apply LocalPolicy.Lower_min_max).
  assert (1 ≤ events_allowed args ≤ 200
    ∧ (0 < LocalMaxEvents options → events_allowed args ≤ LocalMaxEvents options)) as [Hr Hc].
  { unfold events_allowed, LocalPolicy.effective.
    destruct (Z.ltb_spec 0 (LocalMaxEvents options)); lia. }
  rewrite uint32_id by lia.
  destruct (er_ListEvents _ _ _ _ _ _) as [[page|e] w'] eqn:El; simpl.
  - split_and!; try done; try lia; [unfold Before; rewrite Z.ltb_lt; lia|apply admitted_shows| |].
    + intros Hlen. apply int32_id. lia.
    + by rewrite negb_true_iff.
  - split_and!; try done; try lia; [unfold Before; rewrite Z.ltb_lt; lia|].
    eapply events_failure_reported, ero_events, El.
Qed.
End read_spec.

(** A window that starts at the first instant of year 1 admits an event without any timestamp. *)
Example timeless_event_admitted :
  admit_event zero_time 0
    {| ev_Type := ""; ev_Reason := "r"; ev_Message := ""; ev_InvolvedKind := ""; ev_InvolvedName := "";
       ev_InvolvedUID := ""; ev_SourceComponent := ""; ev_Count := 0; ev_FirstTimestamp := zero_time;
       ev_LastTimestamp := zero_time; ev_EventTime := zero_time |} ≠ None.
Proof. vm_compute. done. Qed.

(** ** A concrete page *)

Definition sample_source (reason : string) (first last : Time) : Event :=
  {| ev_Type := "Warning"; ev_Reason := reason; ev_Message := "m"; ev_InvolvedKind := "Pod";
     ev_InvolvedName := "p"; ev_InvolvedUID := ""; ev_SourceComponent := "kubelet"; ev_Count := 1;
     ev_FirstTimestamp := first; ev_LastTimestamp := last; ev_EventTime := zero_time |}.

Definition sample_reader : EventReader nat :=
  {| er_ListEvents := λ _ _ _ _ w,
       (Ok {| ep_Events := [sample_source "Pulled" 50 60; sample_source "BackOff" 5 60;
                            sample_source "Old" 1 2; sample_source "Killing" 7 30];
              ep_Truncated := false |}, S w) |}.

#[global] Instance sample_reader_ok : EventReaderOk sample_reader.
Proof. intros ctx ns i l w e w'. done. Qed.

Definition sample_args : EventsArgs :=
  {| ea_Namespace := "shop"; ea_InvolvedObject := None; ea_WindowStart := Some 10;
     ea_WindowEnd := Some 100; ea_MaxEvents := 50 |}.

Lemma events_read_reports_witness :
  let r := (read (λ _, 200) sample_reader
              {| Policy := {| LocalPolicy.AllowedNamespaces := ∅ |}; LocalMaxEvents := 0;
                 RetentionHorizon := Hour; Now := None |} (λ _, None) sample_args 0%nat).1 in
  ke_Reason <$> kr_Events r = ["Killing"; "BackOff"; "Pulled"]
  ∧ StronglySorted (not_greater event_less) (kr_Events r)
  ∧ kr_ReturnedEventCount r = 3 ∧ kr_AppliedMaxEvents r = 50.
Proof.
  intros r. split; [vm_compute; reflexivity|].
  pose proof (events_read_reports (λ _, 200) sample_reader
    {| Policy := {| LocalPolicy.AllowedNamespaces := ∅ |}; LocalMaxEvents := 0;
       RetentionHorizon := Hour; Now := None |} (λ _, None) sample_args 0%nat ltac:(simpl; lia))
    as (_ & _ & Ha & _ & _ & _ & _ & Hs & Hn & _).
  split_and!; [exact (sh_sorted _ _ _ _ Hs)| |exact Ha].
  etrans; [apply Hn|]; vm_compute; reflexivity.
Defined.

(** The failures are told apart. *)
Example events_failures :
  let failing e : EventReader nat := {| er_ListEvents := λ _ _ _ _ w, (Err e, w) |} in
  let outcome e := kr_Outcome (read (λ _, 200) (failing e)
    {| Policy := {| LocalPolicy.AllowedNamespaces := ∅ |}; LocalMaxEvents := 0;
       RetentionHorizon := Hour; Now := None |} (λ _, None) sample_args 0%nat).1 in
  outcome (ReadError OutcomeUnauthorized) = UNAUTHORIZED ∧ outcome ContextError = UNREACHABLE.
Proof. split; reflexivity. Qed.
End Events.
