(* ===== verification/Runtime.v ===== *)
(** * kubernetes.workload.runtime v1 (internal/capabilities/kubernetes/runtime)

    The selector rendering (selector.go), the mapping of workloads and pods into the schema
    (workloadmap.go, podmap.go) and the executor (executor.go). Go visits a map in no particular order,
    so the listing of a selector's labels is a parameter [range]. *)

From S2P Require Import Prelude GoString Utf8 GoTime Wire Admission Execution Kube Declared.
From stdpp Require Import options.
Local Open Scope Z_scope.
#[local] Arguments String.append : simpl nomatch.

Module Runtime.
Import Port.

Definition CapabilityID : string := "kubernetes.workload.runtime".
Definition CapabilityVersion : Z := 1.
Definition Descriptor : CapabilityDescriptor :=
  {| Wire.CapabilityId := CapabilityID; Wire.CapabilityVersion := CapabilityVersion |}.

Definition MinWorkloadPods : Z := 5.
Definition MaxWorkloadPods : Z := 50.

(** ** selector.go *)

Definition renderRequirement (req : LabelSelectorRequirement) : option string :=
  match req_Operator req with
  | OpIn => Some (req_Key req +:+ " in (" +:+ join "," (req_Values req) +:+ ")")
  | OpNotIn => Some (req_Key req +:+ " notin (" +:+ join "," (req_Values req) +:+ ")")
  | OpExists => Some (req_Key req)
  | OpDoesNotExist => Some ("!" +:+ req_Key req)
  | OpUnknown => None
  end.

(** The order in which Go's range visits the labels. *)
Definition ranging : Type := gmap string string → list (string * string).
Definition visits_all (range : ranging) : Prop := ∀ m, range m ≡ₚ map_to_list m.

Definition RenderSelector (range : ranging) (selector : option LabelSelector) : option string :=
  s ← selector;
  let labels := (λ '(key, value), key +:+ "=" +:+ value) <$> range (sel_MatchLabels s) in
  exprs ← mapM renderRequirement (sel_MatchExpressions s);
  match labels ++ exprs with
  | [] => None
  | terms => Some (join "," terms)
  end.

(** ** workloadmap.go *)

Record ContainerResources := {
  cr_Container : string;
  cr_CpuRequest : string;
  cr_CpuLimit : string;
  cr_MemoryRequest : string;
  cr_MemoryLimit : string;
}.

Record WorkloadSummary := {
  ws_Kind : string;
  ws_Name : string;
  ws_Namespace : string;
  ws_Uid : string;
  ws_DesiredReplicas : Z;
  ws_ReadyReplicas : Z;
  ws_UpdatedReplicas : Z;
  ws_AvailableReplicas : Z;
  ws_Generation : Z;
  ws_ObservedGeneration : Z;
  ws_CreatedAt : Timestamp;
  ws_ContainerImages : list string;
  ws_ContainerResources : list ContainerResources;
  ws_SelectorSummary : string;
}.

Record counters := {
  c_desired : Z; c_ready : Z; c_updated : Z; c_available : Z; c_observedGeneration : Z;
}.

Definition quantityOf (l : gmap string string) (name : string) : string :=
  match l !! name with None => "" | Some quantity => FieldCap.CapQuantity quantity end.

Definition int32OrZero (v : option Z) : Z := default 0 v.

(** podmap.go: the zero time is absent. *)
Definition mapTime (t : Time) : Timestamp := if IsZero t then None else timestamp_New t.

Section mapping.
Context (range : ranging).

Definition container_resources (c : Container) : ContainerResources :=
  {| cr_Container := FieldCap.CapIdentifier (co_Name c);
     cr_CpuRequest := quantityOf (co_Requests c) "cpu";
     cr_CpuLimit := quantityOf (co_Limits c) "cpu";
     cr_MemoryRequest := quantityOf (co_Requests c) "memory";
     cr_MemoryLimit := quantityOf (co_Limits c) "memory" |}.

Definition summary (kind : string) (meta : ObjectMeta) (template : list Container)
    (selector : option LabelSelector) (c : counters) : WorkloadSummary :=
  {| ws_Kind := kind;
     ws_Name := FieldCap.CapIdentifier (om_Name meta);
     ws_Namespace := FieldCap.CapIdentifier (om_Namespace meta);
     ws_Uid := FieldCap.CapIdentifier (om_UID meta);
     ws_DesiredReplicas := c_desired c; ws_ReadyReplicas := c_ready c;
     ws_UpdatedReplicas := c_updated c; ws_AvailableReplicas := c_available c;
     ws_Generation := om_Generation meta; ws_ObservedGeneration := c_observedGeneration c;
     ws_CreatedAt := mapTime (om_CreationTimestamp meta);
     ws_ContainerImages := (λ c, FieldCap.CapImage (co_Image c)) <$> template;
     ws_ContainerResources := container_resources <$> template;
     ws_SelectorSummary :=
       match RenderSelector range selector with
       | Some rendered => FieldCap.CapImage rendered
       | None => ""
       end |}.

Definition replicated_counters (w : Replicated) : counters :=
  {| c_desired := int32OrZero (rw_Replicas w); c_ready := rw_ReadyReplicas w;
     c_updated := rw_UpdatedReplicas w; c_available := rw_AvailableReplicas w;
     c_observedGeneration := rw_ObservedGeneration w |}.

Definition MapDeploymentSummary (w : Replicated) : WorkloadSummary :=
  summary "deployment" (rw_Meta w) (rw_Template w) (rw_Selector w) (replicated_counters w).
Definition MapStatefulSetSummary (w : Replicated) : WorkloadSummary :=
  summary "statefulset" (rw_Meta w) (rw_Template w) (rw_Selector w) (replicated_counters w).
Definition MapDaemonSetSummary (w : DaemonSet) : WorkloadSummary :=
  summary "daemonset" (ds_Meta w) (ds_Template w) (ds_Selector w)
    {| c_desired := ds_DesiredNumberScheduled w; c_ready := ds_NumberReady w;
       c_updated := ds_UpdatedNumberScheduled w; c_available := ds_NumberAvailable w;
       c_observedGeneration := ds_ObservedGeneration w |}.
End mapping.

(** ** podmap.go *)

Inductive StateKind := KIND_RUNNING | KIND_WAITING | KIND_TERMINATED.
Definition state_number (k : StateKind) : Z :=
  match k with KIND_RUNNING => 1 | KIND_WAITING => 2 | KIND_TERMINATED => 3 end.

Record Termination := { tm_Reason : string; tm_ExitCode : Z; tm_FinishedAt : Timestamp }.

Record StateMsg := {
  sm_Kind : StateKind;
  sm_WaitingReason : string;
  sm_RunningSince : Timestamp;
  sm_Termination : option Termination;
}.

Record ContainerRuntime := {
  rt_Name : string;
  rt_Image : string;
  rt_Ready : bool;
  rt_RestartCount : Z;
  rt_State : StateMsg;
  rt_LastTermination : option Termination;
}.

Record PodRuntime := {
  pr_Name : string;
  pr_Phase : string;
  pr_NodeName : string;
  pr_StartedAt : Timestamp;
  pr_Ready : bool;
  pr_UnscheduledReason : string;
  pr_Containers : list ContainerRuntime;
}.

Definition mapTermination (t : option ContainerStateTerminated) : option Termination :=
  t ← t;
  let reason := if (ct_Reason t =? "")%string then "Unknown" else ct_Reason t in
  Some {| tm_Reason := FieldCap.CapReason reason; tm_ExitCode := ct_ExitCode t;
          tm_FinishedAt := mapTime (ct_FinishedAt t) |}.

Definition mapState (s : ContainerState) : StateMsg :=
  match cs_Running s with
  | Some startedAt =>
      {| sm_Kind := KIND_RUNNING; sm_WaitingReason := ""; sm_RunningSince := mapTime startedAt;
         sm_Termination := None |}
  | None =>
      match cs_Terminated s with
      | Some t =>
          {| sm_Kind := KIND_TERMINATED; sm_WaitingReason := ""; sm_RunningSince := None;
             sm_Termination := mapTermination (Some t) |}
      | None =>
          {| sm_Kind := KIND_WAITING;
             sm_WaitingReason := match cs_Waiting s with
                                 | Some reason => FieldCap.CapReason reason
                                 | None => ""
                                 end;
             sm_RunningSince := None; sm_Termination := None |}
      end
  end.

Definition mapContainer (s : ContainerStatus) : ContainerRuntime :=
  {| rt_Name := FieldCap.CapIdentifier (st_Name s); rt_Image := FieldCap.CapImage (st_Image s);
     rt_Ready := st_Ready s; rt_RestartCount := st_RestartCount s; rt_State := mapState (st_State s);
     rt_LastTermination := mapTermination (st_LastTerminated s) |}.

Definition unscheduledReason (conditions : list PodCondition) : string :=
  match list_find (λ c, pc_Type c = "PodScheduled" ∧ pc_Status c = "False") conditions with
  | Some (_, c) => pc_Reason c
  | None => ""
  end.

Definition podReady (conditions : list PodCondition) : bool :=
  match list_find (λ c, pc_Type c = "Ready") conditions with
  | Some (_, c) => (pc_Status c =? "True")%string
  | None => false
  end.

Definition MapPod (pod : Pod) : PodRuntime :=
  let phase := if (pod_Phase pod =? "")%string then "Unknown" else pod_Phase pod in
  {| pr_Name := FieldCap.CapIdentifier (pod_Name pod);
     pr_Phase := FieldCap.CapReason phase;
     pr_NodeName := FieldCap.CapIdentifier (pod_NodeName pod);
     pr_StartedAt := t ← pod_StartTime pod; mapTime t;
     pr_Ready := podReady (pod_Conditions pod);
     pr_UnscheduledReason := FieldCap.CapReason (unscheduledReason (pod_Conditions pod));
     pr_Containers := mapContainer <$> pod_ContainerStatuses pod |}.

(** ** executor.go *)

Inductive ReadOutcomeMsg :=
  | UNSPECIFIED | SUCCESS | UNREACHABLE | UNAUTHORIZED | WORKLOAD_NOT_FOUND | NAMESPACE_NOT_FOUND
  | SELECTOR_UNREPRESENTABLE.
#[export] Instance ReadOutcomeMsg_eq_dec : EqDecision ReadOutcomeMsg.
Proof. solve_decision. Defined.
Definition outcome_number (o : ReadOutcomeMsg) : Z :=
  match o with
  | UNSPECIFIED => 0 | SUCCESS => 1 | UNREACHABLE => 2 | UNAUTHORIZED => 3
  | WORKLOAD_NOT_FOUND => 4 | NAMESPACE_NOT_FOUND => 5 | SELECTOR_UNREPRESENTABLE => 6
  end.

Definition wireOutcome (o : ReadOutcome) : ReadOutcomeMsg :=
  match o with
  | OutcomeSuccess => SUCCESS
  | OutcomeUnauthorized => UNAUTHORIZED
  | OutcomeWorkloadNotFound => WORKLOAD_NOT_FOUND
  | OutcomeNamespaceNotFound => NAMESPACE_NOT_FOUND
  | OutcomeSelectorUnrepresentable => SELECTOR_UNREPRESENTABLE
  | OutcomeUnreachable | OutcomePodNotFound => UNREACHABLE
  end.

Record RuntimeResult := {
  ru_Outcome : ReadOutcomeMsg;
  ru_Workload : option WorkloadSummary;
  ru_Pods : list PodRuntime;
  ru_ReturnedPodCount : Z;
  ru_Complete : bool;
  ru_ReadAt : Timestamp;
  ru_AppliedMaxPods : Z;
}.

Record Options := { Policy : LocalPolicy.t; LocalMaxPods : Z }.

Definition validArgs (args : option RuntimeArgs) : bool :=
  match args with
  | None => false
  | Some a =>
      match ra_WorkloadKind a with
      | WORKLOAD_KIND_UNSPECIFIED => false
      | _ => Identifier.ValidNamespace (ra_Namespace a) && Identifier.ValidObjectName (ra_WorkloadName a)
      end
  end.

Definition GetKubernetesWorkloadRuntimeV1 (job : JobAssignment) : option RuntimeArgs :=
  match ja_Arguments job with Some (Args_Runtime a) => Some a | _ => None end.

(** Reflective forms. *)
Definition reflect_resources (c : ContainerResources) : pmsg :=
  PMsg (v1 "KubernetesContainerResources")
    (string_field "container" (cr_Container c) ++ string_field "cpu_request" (cr_CpuRequest c)
     ++ string_field "cpu_limit" (cr_CpuLimit c) ++ string_field "memory_request" (cr_MemoryRequest c)
     ++ string_field "memory_limit" (cr_MemoryLimit c)).

Definition reflect_workload (w : WorkloadSummary) : pmsg :=
  PMsg (v1 "KubernetesWorkloadSummary")
    (string_field "kind" (ws_Kind w) ++ string_field "name" (ws_Name w)
     ++ string_field "namespace" (ws_Namespace w) ++ string_field "uid" (ws_Uid w)
     ++ scalar_field "desired_replicas" (ws_DesiredReplicas w)
     ++ scalar_field "ready_replicas" (ws_ReadyReplicas w)
     ++ scalar_field "updated_replicas" (ws_UpdatedReplicas w)
     ++ scalar_field "available_replicas" (ws_AvailableReplicas w)
     ++ scalar_field "generation" (ws_Generation w)
     ++ scalar_field "observed_generation" (ws_ObservedGeneration w)
     ++ time_field "created_at" (ws_CreatedAt w)
     ++ strings_field "container_images" (ws_ContainerImages w)
     ++ messages_field "container_resources" (reflect_resources <$> ws_ContainerResources w)
     ++ string_field "selector_summary" (ws_SelectorSummary w)).

Definition reflect_termination (t : Termination) : pmsg :=
  PMsg (v1 "KubernetesContainerTermination")
    (string_field "reason" (tm_Reason t) ++ scalar_field "exit_code" (tm_ExitCode t)
     ++ time_field "finished_at" (tm_FinishedAt t)).

Definition reflect_state (s : StateMsg) : pmsg :=
  PMsg (v1 "KubernetesContainerState")
    (scalar_field "kind" (state_number (sm_Kind s)) ++ string_field "waiting_reason" (sm_WaitingReason s)
     ++ time_field "running_since" (sm_RunningSince s)
     ++ message_field "termination" (reflect_termination <$> sm_Termination s)).

Definition reflect_container (c : ContainerRuntime) : pmsg :=
  PMsg (v1 "KubernetesContainerRuntime")
    (string_field "name" (rt_Name c) ++ string_field "image" (rt_Image c)
     ++ bool_field "ready" (rt_Ready c) ++ scalar_field "restart_count" (rt_RestartCount c)
     ++ message_field "state" (Some (reflect_state (rt_State c)))
     ++ message_field "last_termination" (reflect_termination <$> rt_LastTermination c)).

Definition reflect_pod (p : PodRuntime) : pmsg :=
  PMsg (v1 "KubernetesPodRuntime")
    (string_field "name" (pr_Name p) ++ string_field "phase" (pr_Phase p)
     ++ string_field "node_name" (pr_NodeName p) ++ time_field "started_at" (pr_StartedAt p)
     ++ bool_field "ready" (pr_Ready p) ++ string_field "unscheduled_reason" (pr_UnscheduledReason p)
     ++ messages_field "containers" (reflect_container <$> pr_Containers p)).

Definition reflect (r : RuntimeResult) : pmsg :=
  PMsg (v1 "KubernetesWorkloadRuntimeResultV1")
    (scalar_field "outcome" (outcome_number (ru_Outcome r))
     ++ message_field "workload" (reflect_workload <$> ru_Workload r)
     ++ messages_field "pods" (reflect_pod <$> ru_Pods r)
     ++ scalar_field "returned_pod_count" (ru_ReturnedPodCount r)
     ++ bool_field "complete" (ru_Complete r)
     ++ time_field "read_at" (ru_ReadAt r)
     ++ scalar_field "applied_max_pods" (ru_AppliedMaxPods r)).

Definition payload (r : RuntimeResult) : pmsg :=
  PMsg (v1 "CapabilityResult") [("kubernetes_workload_runtime_v1", VMessage (reflect r))].

Section executor.
Context {W : Type} (range : ranging) (now : W → Time) (reader : WorkloadReader W) (options : Options).

Definition effectiveMaxPods (dispatched : Z) : Z :=
  LocalPolicy.Lower dispatched (LocalMaxPods options) MinWorkloadPods MaxWorkloadPods.

(** The summary and the selector of the workload, or the outcome of the failed read. *)
Definition fetchWorkload (ctx : Ctx W) (args : RuntimeArgs) (w : W)
    : result ReadOutcome (WorkloadSummary * option LabelSelector) * W :=
  let namespace := ra_Namespace args in
  let name := ra_WorkloadName args in
  match ra_WorkloadKind args with
  | WORKLOAD_KIND_DEPLOYMENT =>
      match wr_GetDeployment reader ctx namespace name w with
      | (Err e, w') => (Err (outcomeOf e), w')
      | (Ok d, w') => (Ok (MapDeploymentSummary range d, rw_Selector d), w')
      end
  | WORKLOAD_KIND_STATEFULSET =>
      match wr_GetStatefulSet reader ctx namespace name w with
      | (Err e, w') => (Err (outcomeOf e), w')
      | (Ok d, w') => (Ok (MapStatefulSetSummary range d, rw_Selector d), w')
      end
  | WORKLOAD_KIND_DAEMONSET =>
      match wr_GetDaemonSet reader ctx namespace name w with
      | (Err e, w') => (Err (outcomeOf e), w')
      | (Ok d, w') => (Ok (MapDaemonSetSummary range d, ds_Selector d), w')
      end
  | WORKLOAD_KIND_UNSPECIFIED | WORKLOAD_KIND_UNRECOGNIZED _ => (Err OutcomeUnreachable, w)
  end.

(** A read that stopped with an outcome. *)
Definition stopped (args : RuntimeArgs) (o : ReadOutcomeMsg) (workload : option WorkloadSummary)
    : RuntimeResult :=
  {| ru_Outcome := o; ru_Workload := workload; ru_Pods := []; ru_ReturnedPodCount := 0;
     ru_Complete := false; ru_ReadAt := None;
     ru_AppliedMaxPods := uint32 (effectiveMaxPods (ra_MaxPods args)) |}.

Definition read (ctx : Ctx W) (args : RuntimeArgs) (w : W) : RuntimeResult * W :=
  let appliedMax := effectiveMaxPods (ra_MaxPods args) in
  match fetchWorkload ctx args w with
  | (Err outcome, w1) => (stopped args (wireOutcome outcome) None, w1)
  | (Ok (workload, selector), w1) =>
      match RenderSelector range selector with
      | None => (stopped args SELECTOR_UNREPRESENTABLE (Some workload), w1)
      | Some rendered =>
          match wr_ListPods reader ctx (ra_Namespace args) rendered appliedMax w1 with
          | (Err e, w2) => (stopped args (wireOutcome (outcomeOf e)) (Some workload), w2)
          | (Ok page, w2) =>
              let pods := MapPod <$> pp_Pods page in
              ({| ru_Outcome := SUCCESS; ru_Workload := Some workload; ru_Pods := pods;
                  ru_ReturnedPodCount := int32 (Z.of_nat (length pods));
                  ru_Complete := negb (pp_Truncated page);
                  ru_ReadAt := timestamp_New (now w2);
                  ru_AppliedMaxPods := uint32 appliedMax |}, w2)
          end
      end
  end.

Definition Execute : Executor W := λ ctx job w,
  match GetKubernetesWorkloadRuntimeV1 job with
  | None => (Some (Budget.Failure job KIND_ARGUMENTS_REJECTED), w)
  | Some args =>
      if negb (validArgs (Some args))
      then (Some (Budget.Failure job KIND_ARGUMENTS_REJECTED), w)
      else if negb (LocalPolicy.AllowsNamespace (Policy options) (ra_Namespace args))
      then (Some (Budget.Failure job KIND_LOCAL_POLICY_REFUSED), w)
      else Budget.Run now ctx job (λ execCtx w,
             let '(result, w') := read execCtx args w in
             ({| Budget.rd_Result := payload result;
                 Budget.rd_Reached := bool_decide (ru_Outcome result = SUCCESS) |}, w')) w
  end.

#[global] Instance runtime_echoes : Echoes Execute.
Proof.
  intros ctx job w. unfold Execute. destruct (GetKubernetesWorkloadRuntimeV1 job) as [args|];
    [|by eexists _, _]. case_match; [by eexists _, _|]. case_match; [by eexists _, _|].
  apply Budget.Run_echoes.
Qed.
End executor.

(** ** The selector *)

Definition representable (s : LabelSelector) : Prop :=
  Forall (λ r, req_Operator r ≠ OpUnknown) (sel_MatchExpressions s)
  ∧ (sel_MatchLabels s ≠ ∅ ∨ sel_MatchExpressions s ≠ []).

(** The terms a selector stands for. *)
Definition selector_terms (s : LabelSelector) : list string :=
  ((λ '(key, value), key +:+ "=" +:+ value) <$> map_to_list (sel_MatchLabels s))
  ++ omap renderRequirement (sel_MatchExpressions s).

Lemma renderRequirement_Some r : req_Operator r ≠ OpUnknown ↔ is_Some (renderRequirement r).
Proof. unfold renderRequirement. destruct (req_Operator r); split; try done; by eexists. Qed.

Lemma mapM_requirements l :
  mapM renderRequirement l =
  if decide (Forall (λ r, req_Operator r ≠ OpUnknown) l) then Some (omap renderRequirement l) else None.
Proof.
  induction l as [|r l IH]; [done|]. simpl. rewrite IH.
  destruct (renderRequirement r) as [t|] eqn:E; simpl.
  - assert (req_Operator r ≠ OpUnknown) by (apply renderRequirement_Some; by eexists).
    repeat case_decide; try done; exfalso; rewrite Forall_cons in *; tauto.
  - rewrite decide_False; [done|]. intros Hall. inv Hall.
    apply renderRequirement_Some in H1 as [? ?]. congruence.
Qed.

(** an enumeration is never broader than its workload: a selector is rendered exactly when it is there,
    has a term and no operator this build does not know, and then all of its terms take part, each
    once; otherwise it is refused. *)
Theorem RenderSelector_refuses range selector :
  visits_all range →
  match RenderSelector range selector with
  | Some rendered => ∃ s terms, selector = Some s ∧ representable s
      ∧ rendered = join "," terms ∧ terms ≡ₚ selector_terms s ∧ terms ≠ []
  | None => ∀ s, selector = Some s → ¬ representable s
  end.
Proof.
  intros Hr. unfold RenderSelector. destruct selector as [s|]; [|done]. simpl.
  rewrite mapM_requirements. case_decide as Hall; simpl; [|by intros s' [= <-] []].
  set (labels := _ <$> range _).
  assert (labels ≡ₚ (λ '(key, value), key +:+ "=" +:+ value) <$> map_to_list (sel_MatchLabels s)) as Hl
    by (apply fmap_Permutation, Hr).
  destruct (labels ++ omap renderRequirement (sel_MatchExpressions s)) as [|t ts] eqn:E.
  - intros s' [= <-] [_ Hne]. apply app_nil in E as [E1 E2]. rewrite E1 in Hl.
    apply Permutation_nil_l in Hl. symmetry in Hl. apply fmap_nil_inv, map_to_list_empty_iff in Hl.
    destruct Hne as [?|Hne]; [done|]. apply Hne. destruct (sel_MatchExpressions s) as [|r rs]; [done|].
    inv Hall. apply renderRequirement_Some in H1 as [x Hx]. csimpl in E2. by rewrite Hx in E2.
  - exists s, (t :: ts). split_and!; [done| |done| |done].
    + split; [done|]. destruct (decide (sel_MatchLabels s = ∅)) as [He|]; [right|by left].
      intros Hn. rewrite Hn, app_nil_r in E. rewrite He, map_to_list_empty in Hl.
      apply Permutation_nil_r in Hl. congruence.
    + rewrite <-E. unfold selector_terms. by rewrite Hl.
Qed.

Definition sample_selector : LabelSelector :=
  {| sel_MatchLabels := {[ "app" := "web"; "tier" := "fe" ]};
     sel_MatchExpressions := [{| req_Key := "env"; req_Operator := OpIn; req_Values := ["a"; "b"] |}] |}.

Lemma RenderSelector_refuses_witness :
  ∃ rendered terms, RenderSelector map_to_list (Some sample_selector) = Some rendered
    ∧ rendered = join "," terms ∧ terms ≡ₚ ["app=web"; "tier=fe"; "env in (a,b)"].
Proof.
  pose proof (RenderSelector_refuses map_to_list (Some sample_selector) (λ m, reflexivity _)) as H.
  destruct (RenderSelector map_to_list (Some sample_selector)) as [rendered|] eqn:E.
  - destruct H as (s & terms & [= <-] & _ & Hj & Ht & _). exists rendered, terms.
    split_and!; [done|done|]. rewrite Ht. vm_compute. reflexivity.
  - exfalso. apply (H _ eq_refl). split; [|by left]. by repeat constructor.
Defined.

(** ** The read *)

(** What a failure of the reader is reported as. *)
Inductive reported_failure : Error → ReadOutcomeMsg → Prop :=
  | reported_unauthorized : reported_failure (ReadError OutcomeUnauthorized) UNAUTHORIZED
  | reported_no_workload : reported_failure (ReadError OutcomeWorkloadNotFound) WORKLOAD_NOT_FOUND
  | reported_no_namespace : reported_failure (ReadError OutcomeNamespaceNotFound) NAMESPACE_NOT_FOUND
  | reported_selector :
      reported_failure (ReadError OutcomeSelectorUnrepresentable) SELECTOR_UNREPRESENTABLE
  | reported_unreachable e :
      e = ContextError ∨ e = Refused ∨ e = ReadError OutcomeUnreachable
        ∨ e = ReadError OutcomePodNotFound →
      reported_failure e UNREACHABLE.

Lemma runtime_failure_reported e :
  outcomeOf e ≠ OutcomeSuccess → reported_failure e (wireOutcome (outcomeOf e)).
Proof. destruct e as [[]| |]; intros Ho; try done; constructor; tauto. Qed.

Section read_spec.
Context {W : Type} (range : ranging) (now : W → Time) (reader : WorkloadReader W) (options : Options).
Implicit Types (ctx : Ctx W) (args : RuntimeArgs) (w : W).

(** The workload read for its kind, with its selector; a kind that names none is not read. *)
Inductive fetches ctx args w : result Error (WorkloadSummary * option LabelSelector) → W → Prop :=
  | fetches_deployment r w1 :
      ra_WorkloadKind args = WORKLOAD_KIND_DEPLOYMENT →
      wr_GetDeployment reader ctx (ra_Namespace args) (ra_WorkloadName args) w = (r, w1) →
      fetches ctx args w
        match r with Err e => Err e | Ok d => Ok (MapDeploymentSummary range d, rw_Selector d) end w1
  | fetches_statefulset r w1 :
      ra_WorkloadKind args = WORKLOAD_KIND_STATEFULSET →
      wr_GetStatefulSet reader ctx (ra_Namespace args) (ra_WorkloadName args) w = (r, w1) →
      fetches ctx args w
        match r with Err e => Err e | Ok d => Ok (MapStatefulSetSummary range d, rw_Selector d) end w1
  | fetches_daemonset r w1 :
      ra_WorkloadKind args = WORKLOAD_KIND_DAEMONSET →
      wr_GetDaemonSet reader ctx (ra_Namespace args) (ra_WorkloadName args) w = (r, w1) →
      fetches ctx args w
        match r with Err e => Err e | Ok d => Ok (MapDaemonSetSummary range d, ds_Selector d) end w1
  | fetches_nothing :
      ra_WorkloadKind args = WORKLOAD_KIND_UNSPECIFIED
        ∨ (∃ n, ra_WorkloadKind args = WORKLOAD_KIND_UNRECOGNIZED n) →
      fetches ctx args w (Err (ReadError OutcomeUnreachable)) w.

(** The fetch is one of these, and the outcome it fails with is that of the reader's error. *)
Lemma fetchWorkload_fetches `{!WorkloadReaderOk reader} ctx args w :
  let '(r, w1) := fetchWorkload range reader ctx args w in
  match r with
  | Ok found => fetches ctx args w (Ok found) w1
  | Err o => ∃ e, fetches ctx args w (Err e) w1 ∧ outcomeOf e = o ∧ o ≠ OutcomeSuccess
  end.
Proof.
  unfold fetchWorkload. destruct (ra_WorkloadKind args) eqn:Ek.
  - eexists. split_and!; [apply fetches_nothing; by left|done..].
  - destruct (wr_GetDeployment _ _ _ _ _) as [[d|e] w1] eqn:E; [exact (fetches_deployment _ _ _ _ _ Ek E)|].
    exists e. split_and!; [exact (fetches_deployment _ _ _ _ _ Ek E)|done|by eapply wro_deployment].
  - destruct (wr_GetStatefulSet _ _ _ _ _) as [[d|e] w1] eqn:E; [exact (fetches_statefulset _ _ _ _ _ Ek E)|].
    exists e. split_and!; [exact (fetches_statefulset _ _ _ _ _ Ek E)|done|by eapply wro_statefulset].
  - destruct (wr_GetDaemonSet _ _ _ _ _) as [[d|e] w1] eqn:E; [exact (fetches_daemonset _ _ _ _ _ Ek E)|].
    exists e. split_and!; [exact (fetches_daemonset _ _ _ _ _ Ek E)|done|by eapply wro_daemonset].
  - eexists. split_and!; [apply fetches_nothing; eauto|done..].
Qed.

(** The bound a read is held to. *)
Definition pods_allowed args : Z :=
  LocalPolicy.effective (ra_MaxPods args) (LocalMaxPods options) 5 50.

(** The report of a read that stopped: the outcome, the bound, and the workload if it was found. *)
Definition nothing_read args (o : ReadOutcomeMsg) (workload : option WorkloadSummary) : RuntimeResult :=
  {| ru_Outcome := o; ru_Workload := workload; ru_Pods := []; ru_ReturnedPodCount := 0;
     ru_Complete := false; ru_ReadAt := None; ru_AppliedMaxPods := pods_allowed args |}.

(** The text of a selector: all of its terms, each once. *)
Definition renders (selector : option LabelSelector) (rendered : string) : Prop :=
  ∃ s terms, selector = Some s ∧ representable s ∧ rendered = join "," terms
    ∧ terms ≡ₚ selector_terms s.

(** What a read reports, case by case. *)
Inductive runtime_report ctx args w : RuntimeResult → W → Prop :=
  | workload_unread e o w1 :
      fetches ctx args w (Err e) w1 → reported_failure e o →
      runtime_report ctx args w (nothing_read args o None) w1
  | selector_refused summary selector w1 :
      fetches ctx args w (Ok (summary, selector)) w1 →
      (∀ s, selector = Some s → ¬ representable s) →
      runtime_report ctx args w (nothing_read args SELECTOR_UNREPRESENTABLE (Some summary)) w1
  | pods_unread summary selector w1 rendered e o w2 :
      fetches ctx args w (Ok (summary, selector)) w1 → renders selector rendered →
      wr_ListPods reader ctx (ra_Namespace args) rendered (pods_allowed args) w1 = (Err e, w2) →
      reported_failure e o →
      runtime_report ctx args w (nothing_read args o (Some summary)) w2
  | pods_read summary selector w1 rendered page w2 count :
      fetches ctx args w (Ok (summary, selector)) w1 → renders selector rendered →
      wr_ListPods reader ctx (ra_Namespace args) rendered (pods_allowed args) w1 = (Ok page, w2) →
      (Z.of_nat (length (pp_Pods page)) < 2 ^ 31 → count = Z.of_nat (length (pp_Pods page))) →
      runtime_report ctx args w
        {| ru_Outcome := SUCCESS; ru_Workload := Some summary; ru_Pods := MapPod <$> pp_Pods page;
           ru_ReturnedPodCount := count; ru_Complete := negb (pp_Truncated page);
           ru_ReadAt := timestamp_New (now w2); ru_AppliedMaxPods := pods_allowed args |} w2.

(** C38: what a workload read reports, on every branch: a workload that could not be read and pods that
    could not be listed by their cause (not authorised, no such workload or namespace, a selector the
    API does not take, not reached), a workload without a selector that can be rendered as such, and in
    all of these no pod, no count, no time and not complete, with the workload where it was found; and
    otherwise the workload of the asked kind with the one page of at most the effective number of pods
    listed in its namespace with the selector that has all of its terms: the page's pods in order, their
    number, the time of the read, complete exactly when the page had no continuation. The applied bound
    is the asked one moved into the compiled range and lowered to the operator's cap. *)
Theorem runtime_read_reports `{!WorkloadReaderOk reader} ctx args w :
  visits_all range → 0 ≤ ra_MaxPods args < 2 ^ 32 →
  let '(r, w') := read range now reader options ctx args w in
  runtime_report ctx args w r w'
  ∧ 1 ≤ ru_AppliedMaxPods r ≤ 50
  ∧ (0 < LocalMaxPods options → ru_AppliedMaxPods r ≤ LocalMaxPods options).
Proof.
  intros Hv Hmax.
  assert (effectiveMaxPods options (ra_MaxPods args) = pods_allowed args) as Ha
    by (by apply LocalPolicy.Lower_min_max).
  assert (1 ≤ pods_allowed args ≤ 50
    ∧ (0 < LocalMaxPods options → pods_allowed args ≤ LocalMaxPods options)) as Hr.
  { unfold pods_allowed, LocalPolicy.effective. destruct (Z.ltb_spec 0 (LocalMaxPods options)); lia. }
  assert (∀ o wl, stopped options args o wl = nothing_read args o wl) as Hstop.
  { intros o wl. unfold stopped, nothing_read. rewrite Ha, uint32_id by lia. done. }
  unfold read. pose proof (fetchWorkload_fetches ctx args w) as Hf.
  destruct (fetchWorkload _ _ _ _ _) as [[[summary selector]|o] w1].
  2: { destruct Hf as (e & Hf & <- & Ho). rewrite Hstop. split; [|exact Hr].
       eapply workload_unread; [exact Hf|by apply runtime_failure_reported]. }
  pose proof (RenderSelector_refuses range selector Hv) as Hs.
  destruct (RenderSelector range selector) as [rendered|].
  2: { rewrite Hstop. split; [|exact Hr]. by eapply selector_refused. }
  assert (renders selector rendered) as Hren by (unfold renders; naive_solver).
  rewrite Ha, uint32_id by lia.
  destruct (wr_ListPods _ _ _ _ _ _) as [[page|e] w2] eqn:El.
  - split; [|exact Hr]. eapply pods_read; [done..|]. intros Hlen. rewrite length_fmap. apply int32_id. lia.
  - rewrite Hstop. split; [|exact Hr]. eapply pods_unread; [done..|].
    eapply runtime_failure_reported, wro_pods, El.
Qed.
End read_spec.

Definition sample_reader : WorkloadReader nat :=
  let found := {| rw_Meta := {| om_Name := "web"; om_Namespace := "shop"; om_UID := "u"; om_Generation := 1;
                                om_CreationTimestamp := zero_time |};
                  rw_Template := []; rw_Selector := Some sample_selector; rw_Replicas := None;
                  rw_ReadyReplicas := 0; rw_UpdatedReplicas := 0; rw_AvailableReplicas := 0;
                  rw_ObservedGeneration := 0 |} in
  {| wr_GetDeployment := λ _ _ _ w, (Ok found, S w);
     wr_GetStatefulSet := λ _ _ _ w, (Err (ReadError OutcomeWorkloadNotFound), S w);
     wr_GetDaemonSet := λ _ _ _ w, (Err (ReadError OutcomeUnauthorized), S w);
     wr_ListPods := λ _ _ _ _ w, (Ok {| pp_Pods := []; pp_Truncated := false |}, S w) |}.
#[global] Instance sample_workloads_ok : WorkloadReaderOk sample_reader.
Proof. split; intros *; simpl; try done; by intros [= <- _]. Qed.

Definition sample_options : Options :=
  {| Policy := {| LocalPolicy.AllowedNamespaces := ∅ |}; LocalMaxPods := 0 |}.
Definition sample_args (kind : WorkloadKind) : RuntimeArgs :=
  {| ra_Namespace := "shop"; ra_WorkloadKind := kind; ra_WorkloadName := "web"; ra_MaxPods := 9 |}.

(** The three kinds, one of which is found, one is not and one may not be read. *)
Lemma runtime_read_reports_witness :
  let r kind := (read map_to_list (λ _, 5) sample_reader sample_options (λ _, None) (sample_args kind) 0%nat).1 in
  ru_Outcome (r WORKLOAD_KIND_DEPLOYMENT) = SUCCESS
  ∧ ru_Outcome (r WORKLOAD_KIND_STATEFULSET) = WORKLOAD_NOT_FOUND
  ∧ ru_Outcome (r WORKLOAD_KIND_DAEMONSET) = UNAUTHORIZED
  ∧ runtime_report map_to_list (λ _, 5) sample_reader sample_options (λ _, None)
      (sample_args WORKLOAD_KIND_STATEFULSET) 0%nat (r WORKLOAD_KIND_STATEFULSET) 1%nat.
Proof.
  intros r. split_and!; [vm_compute; reflexivity..|].
  pose proof (runtime_read_reports map_to_list (λ _, 5) sample_reader sample_options (λ _, None)
    (sample_args WORKLOAD_KIND_STATEFULSET) 0%nat (λ m, reflexivity _) ltac:(simpl; lia)) as [Hr _].
  exact Hr.
Defined.

(** A kind number this build has no name for passes the validation and is reported as unreachable. *)
Example unrecognised_kind {W} (reader : WorkloadReader W) options ctx (w : W) n :
  let args := {| ra_Namespace := "shop"; ra_WorkloadKind := WORKLOAD_KIND_UNRECOGNIZED n;
                 ra_WorkloadName := "web"; ra_MaxPods := 9 |} in
  validArgs (Some args) = true
  ∧ ru_Outcome (read map_to_list (λ _, 5) reader options ctx args w).1 = UNREACHABLE.
Proof. split; [vm_compute; reflexivity|done]. Qed.
End Runtime.
