(* ===== verification/Payloads.v ===== *)
(** * The results of the capabilities under the sweep

    What the redaction components promise about an arbitrary message, for the messages the three
    capabilities build: all their string fields are classified, so the sweep never refuses one for its
    shape; the workload runtime result has no free text; of a log result the sweep masks the lines'
    content and of an events result the events' messages, and nothing else. *)

From S2P Require Import Prelude GoString Wire Declared Builtin Policy Masking Sweep Logs Events Runtime.
From stdpp Require Import options.

(** ** Fields *)

Definition declared_fields (descriptor : string) (fields : list (string * pval)) : bool :=
  forallb (λ '(name, v), well_declared_field descriptor name v) fields.

Lemma well_declared_eq d fields : well_declared (PMsg d fields) = declared_fields d fields.
Proof. done. Qed.

Lemma declared_app d l k : declared_fields d (l ++ k) = declared_fields d l && declared_fields d k.
Proof. apply forallb_app. Qed.

Lemma declared_scalar d n z : declared_fields d (scalar_field n z) = true.
Proof. unfold scalar_field. by case_match. Qed.
Lemma declared_bool d n b : declared_fields d (bool_field n b) = true.
Proof. by destruct b. Qed.
Lemma declared_time d n t : declared_fields d (time_field n t) = true.
Proof. by destruct t. Qed.
Lemma declared_duration d n t : declared_fields d (duration_field n t) = true.
Proof. done. Qed.
Lemma declared_string d n s c : classify d n = Some c → declared_fields d (string_field n s) = true.
Proof. intros Hc. unfold string_field. case_match; [done|]. simpl. by rewrite Hc. Qed.
Lemma declared_strings d n l c : classify d n = Some c → declared_fields d (strings_field n l) = true.
Proof. intros Hc. unfold strings_field. destruct l; [done|]. simpl. by rewrite Hc. Qed.
Lemma declared_message d n m :
  (∀ x, m = Some x → well_declared x = true) → declared_fields d (message_field n m) = true.
Proof. intros Hm. destruct m as [x|]; [|done]. simpl. by rewrite Hm. Qed.
Lemma declared_messages d n l :
  (∀ x, x ∈ l → well_declared x = true) → declared_fields d (messages_field n l) = true.
Proof.
  intros Hm. assert (forallb well_declared l = true) as Hl.
  { apply forallb_forall. intros x Hx. apply Hm. by apply list_elem_of_In. }
  unfold messages_field. destruct l; [done|]. simpl in *. by rewrite Hl.
Qed.

#[export] Hint Resolve declared_scalar declared_bool declared_time declared_duration : relay.

(** Splits a message into its fields and closes those without a message inside. *)
Ltac declared_fields :=
  rewrite ?well_declared_eq, ?declared_app;
  repeat match goal with |- (_ && _)%bool = true => apply andb_true_iff; split end;
  auto with relay;
  try (eapply declared_string; reflexivity); try (eapply declared_strings; reflexivity).

Lemma line_declared l : well_declared (Logs.reflect_line l) = true.
Proof. unfold Logs.reflect_line. declared_fields. Qed.

Lemma event_declared e : well_declared (Events.reflect_event e) = true.
Proof.
  unfold Events.reflect_event. declared_fields. apply declared_message. intros x [= <-].
  unfold Events.reflect_involved. declared_fields.
Qed.

Lemma termination_declared t : well_declared (Runtime.reflect_termination t) = true.
Proof. unfold Runtime.reflect_termination. declared_fields. Qed.

Lemma termination_opt_declared d n t :
  declared_fields d (message_field n (Runtime.reflect_termination <$> t)) = true.
Proof. apply declared_message. intros x (? & _ & ->)%fmap_Some. apply termination_declared. Qed.

Lemma container_declared c : well_declared (Runtime.reflect_container c) = true.
Proof.
  unfold Runtime.reflect_container. declared_fields; [|apply termination_opt_declared].
  apply declared_message. intros x [= <-]. unfold Runtime.reflect_state. declared_fields.
  apply termination_opt_declared.
Qed.

Lemma pod_declared p : well_declared (Runtime.reflect_pod p) = true.
Proof.
  unfold Runtime.reflect_pod. declared_fields. apply declared_messages.
  intros x (c & -> & _)%list_elem_of_fmap. apply container_declared.
Qed.

Lemma workload_declared w : well_declared (Runtime.reflect_workload w) = true.
Proof.
  unfold Runtime.reflect_workload. declared_fields. apply declared_messages.
  intros x (c & -> & _)%list_elem_of_fmap. unfold Runtime.reflect_resources. declared_fields.
Qed.

Lemma payload_declared n d fields :
  declared_fields d fields = true →
  well_declared (PMsg (v1 "CapabilityResult") [(n, VMessage (PMsg d fields))]) = true.
Proof. intros Hf. simpl. unfold declared_fields in Hf. by rewrite Hf. Qed.

(** no result of a compiled capability is refused for its shape: every string field any of the three
    results can carry, with any contents, was classified. *)
Theorem payloads_declared r1 r2 r3 :
  well_declared (Runtime.payload r1) = true
  ∧ well_declared (Events.payload r2) = true
  ∧ well_declared (Logs.payload r3) = true.
Proof.
  split_and!; apply payload_declared.
  - declared_fields.
    + apply declared_message. intros x (w & _ & ->)%fmap_Some. apply workload_declared.
    + apply declared_messages. intros x (p & -> & _)%list_elem_of_fmap. apply pod_declared.
  - declared_fields. apply declared_messages. intros x (e & -> & _)%list_elem_of_fmap.
    apply event_declared.
  - declared_fields. apply declared_messages. intros x (l & -> & _)%list_elem_of_fmap.
    apply line_declared.
Qed.

(** ** What the sweep changes *)

Section swept.
Context (p : Policy).

Definition swept_fields (path descriptor : string) (fields : list (string * pval)) :=
  (λ '(name, v), (name, swept_field p descriptor name (dotted path name) v)) <$> fields.

Lemma swept_eq path d fields : swept p path (PMsg d fields) = PMsg d (swept_fields path d fields).
Proof. done. Qed.

Lemma swept_fields_app path d l k :
  swept_fields path d (l ++ k) = swept_fields path d l ++ swept_fields path d k.
Proof. apply fmap_app. Qed.

Lemma swept_scalar path d n z : swept_fields path d (scalar_field n z) = scalar_field n z.
Proof. unfold scalar_field. by case_match. Qed.
Lemma swept_bool path d n b : swept_fields path d (bool_field n b) = bool_field n b.
Proof. by destruct b. Qed.
Lemma swept_time path d n t : swept_fields path d (time_field n t) = time_field n t.
Proof. by destruct t. Qed.
Lemma swept_duration path d n t : swept_fields path d (duration_field n t) = duration_field n t.
Proof. done. Qed.
Lemma swept_messages path d n l :
  swept_fields path d (messages_field n l) = messages_field n (swept p (dotted path n) <$> l).
Proof. by destruct l. Qed.

Lemma mask_nonempty_text value : value ≠ "" → (mask (p_rules p) value).1.1 ≠ "".
Proof.
  intros Hv. destruct (decide (claims (p_rules p) value = [])) as [He|He].
  - by rewrite mask_empty by (by right).
  - rewrite mask_nonempty by done. simpl. pose proof (merge_nonempty _ He) as Hm.
    destruct (merge _) as [|r m]; [done|]. simpl. intros Hn%(f_equal slen).
    rewrite !slen_app in Hn. unfold marker in Hn. rewrite !slen_app in Hn. simpl in Hn. lia.
Qed.

Lemma swept_content path d n s :
  classify d n = Some FreeText → dotted path n ∉ p_alwaysMasked p →
  swept_fields path d (string_field n s) = string_field n (mask (p_rules p) s).1.1.
Proof.
  intros Hc Hp. unfold string_field. destruct (String.eqb_spec s "") as [->|Hs]; [done|].
  rewrite (proj2 (String.eqb_neq _ _)) by (by apply mask_nonempty_text).
  unfold swept_fields. csimpl. unfold swept_string, reads, text. rewrite Hc.
  rewrite (bool_decide_true (FreeText = FreeText)) by done. simpl.
  by rewrite bool_decide_false by done.
Qed.
End swept.

Definition content_path : string := "kubernetes_container_logs_v1.lines.content".

(** The result with every line's content masked. *)
Definition mask_line (p : Policy) (l : Logs.LogLine) : Logs.LogLine :=
  {| Logs.At := Logs.At l; Logs.Content := (mask (p_rules p) (Logs.Content l)).1.1 |}.

Definition mask_lines (p : Policy) (r : Logs.LogsResult) : Logs.LogsResult :=
  {| Logs.lg_Outcome := Logs.lg_Outcome r; Logs.lg_Lines := mask_line p <$> Logs.lg_Lines r;
     Logs.lg_ReturnedLineCount := Logs.lg_ReturnedLineCount r;
     Logs.lg_ReturnedByteCount := Logs.lg_ReturnedByteCount r;
     Logs.lg_Complete := Logs.lg_Complete r;
     Logs.lg_TruncatedByLineBound := Logs.lg_TruncatedByLineBound r;
     Logs.lg_TruncatedByByteBound := Logs.lg_TruncatedByByteBound r;
     Logs.lg_WithheldByteCount := Logs.lg_WithheldByteCount r;
     Logs.lg_ReadAt := Logs.lg_ReadAt r;
     Logs.lg_AppliedMaxLines := Logs.lg_AppliedMaxLines r;
     Logs.lg_AppliedMaxBytes := Logs.lg_AppliedMaxBytes r |}.

(** what the sweep does to a log result: the content of every line becomes the masked text of what the
    container wrote, line by line, and no other part of the result changes: outcome, times, counts and
    completeness are as the read reported them. *)
Theorem logs_swept p r :
  content_path ∉ p_alwaysMasked p →
  swept p "" (Logs.payload r) = Logs.payload (mask_lines p r).
Proof.
  intros Hp. unfold Logs.payload, Logs.reflect.
  change (swept p "" (PMsg (v1 "CapabilityResult") [("kubernetes_container_logs_v1", VMessage ?m)]))
    with (PMsg (v1 "CapabilityResult") [("kubernetes_container_logs_v1",
           VMessage (swept p "kubernetes_container_logs_v1" m))]).
  rewrite swept_eq, !swept_fields_app.
  rewrite !swept_scalar, !swept_bool, !swept_time, swept_messages.
  change (dotted "kubernetes_container_logs_v1" "lines") with "kubernetes_container_logs_v1.lines".
  assert (swept p "kubernetes_container_logs_v1.lines" <$> (Logs.reflect_line <$> Logs.lg_Lines r)
    = Logs.reflect_line <$> (mask_line p <$> Logs.lg_Lines r)) as ->; [|done].
  rewrite <-!list_fmap_compose. apply list_fmap_ext. intros _ l _.
  unfold compose, Logs.reflect_line. rewrite swept_eq, swept_fields_app, swept_time.
  by rewrite swept_content.
Qed.

Lemma logs_swept_witness :
  swept Default "" (Logs.payload (Logs.basis Logs.sample_options (Logs.sample_args "p") Logs.SUCCESS))
  = Logs.payload (mask_lines Default
      (Logs.basis Logs.sample_options (Logs.sample_args "p") Logs.SUCCESS)).
Proof. apply logs_swept. apply not_elem_of_empty. Defined.
