(* ===== verification/Session.v ===== *)
(** * The session (internal/session: session.go, connection.go, unacked.go, sender.go)

    The relay's side of the control-plane stream as a transition system. The state is what survives a
    reconnect (the unacked buffer, the outstanding slots, the in-flight roster), the workers, and one
    record per connection generation: its job registry, the messages enqueued on its sender in order,
    how many of them are on the stream, and where its loops stand.

    [perform] is executable: it takes one [label], the choice the environment makes next (a message
    received, a worker moving on, the sender writing, a tick), and does what the code does up to its
    next blocking operation; [None] when that choice is not available. A blocking [enqueue] is a step of
    its own: it is accepted when the buffer has room and may be dropped once the connection's context is
    done. An executor's result is chosen by the environment, within what [Executes] allows. *)

From S2P Require Import Prelude GoString GoTime Wire.
From stdpp Require Import options.

(** ** Configuration (session.go) *)

Record Config := {
  OrgID : string;
  RegistrationID : string;
  Capabilities : list CapabilityDescriptor;
  MaxConcurrentJobs : Z;
  RelayVersion : string;
  ClusterFingerprint : string;
  LocalPolicyHash : string;
  OutboundBuffer : nat;
  HasInventory : bool;              (* an inventory was attached *)
}.

(** [New]: at least one slot; the configuration then advertises it. *)
Definition New (c : Config) : Config * nat :=
  if (MaxConcurrentJobs c <? 1)%Z then
    ({| OrgID := OrgID c; RegistrationID := RegistrationID c; Capabilities := Capabilities c;
        MaxConcurrentJobs := 1; RelayVersion := RelayVersion c;
        ClusterFingerprint := ClusterFingerprint c; LocalPolicyHash := LocalPolicyHash c;
        OutboundBuffer := OutboundBuffer c; HasInventory := HasInventory c |}, 1)
  else (c, Z.to_nat (MaxConcurrentJobs c)).

(** ** Workers: the goroutine of [dispatchAssignment], by what it does next *)

Inductive Phase :=
  | PAck                               (* enqueue the job ack *)
  | PStarted                           (* enqueue job started *)
  | PExecute                           (* the executor runs *)
  | PClear (r : JobResult)             (* clearInFlight *)
  | PDecide (r : JobResult)            (* isCancelled and not wasExplicit? *)
  | PAbandon                           (* releaseSlot *)
  | PAdd (r : JobResult)               (* unacked.add *)
  | PEnqueue (r : JobResult)           (* enqueue the result *)
  | PRemove.                           (* deferred jobs.remove *)

Record Worker := {
  wk_conn : nat;                       (* the connection that admitted it *)
  wk_job : JobAssignment;
  wk_phase : Phase;
  wk_cancelled : bool;                 (* its own context was cancelled *)
}.

(** ** Connections *)

(** The receive loop: at [Recv], or inside a handler: enqueuing (then possibly cancelling a job),
    cancelling, or about to reserve a slot for an assignment that passed the checks; or returned, because
    [Recv] failed. *)
Inductive RecvState :=
  | RIdle
  | RLeft
  | REnqueue (m : RelayToControl) (cancel_next : option string)
  | RCancel (job : string)
  | RAdmit (job : JobAssignment).

(** [drainWatcher]: before a deadline, at the top of its loop, enqueuing its report, comparing the
    count with zero, waiting for its tick or timeout, returned. *)
Inductive WatchState :=
  | WWaiting
  | WReport (deadline : Duration)
  | WEnqueue (deadline : Duration) (m : RelayToControl)
  | WLook (deadline : Duration)
  | WSelect (deadline : Duration)
  | WDone.

(** [resendLoop]: what it still has to enqueue of the retained results, after which it asks the inventory;
    of the pending deltas, after which it waits for its tick; or returned, because an enqueue failed. *)
Inductive ResendState :=
  | RsResults (l : list RelayToControl)
  | RsDeltas (l : list RelayToControl)
  | RsLeft.

Record Conn := {
  cn_hello : RelayToControl;           (* sent before the loops start *)
  cn_cancels : gmap string nat;        (* jobRegistry.cancels: the worker whose context it cancels *)
  cn_explicit : gset string;           (* jobRegistry.explicit *)
  cn_history : list RelayToControl;    (* everything accepted by [enqueue], oldest first *)
  cn_sent : nat;                       (* how many of them the sender has handed to the stream's Send *)
  cn_sending : bool;                   (* the sender has not returned: no Send has failed *)
  cn_recv : RecvState;
  cn_resend : ResendState;
  cn_draining : bool;
  cn_deadline : option Duration;       (* the drainDeadline channel *)
  cn_watch : WatchState;
  cn_sequence : Z;                     (* the heartbeat sequence *)
  cn_beating : bool;                   (* the heartbeat loop has not returned: no enqueue of its has failed *)
  cn_done : bool;                      (* its context is cancelled *)
  cn_ended : bool;                     (* runConnection returned *)
}.

Definition queue (c : Conn) : list RelayToControl := drop (cn_sent c) (cn_history c).
Definition written (c : Conn) : list RelayToControl := take (cn_sent c) (cn_history c).

(** ** Session state *)

Inductive InventoryCall :=
  | ApplyPolicyCall (p : InventorySynchronizationPolicy)
  | AckCall (delta : string).

Record State := {
  ss_unacked : gmap string JobResult;
  ss_outstanding : nat;                (* slots taken: the length of the channel *)
  ss_inFlight : gmap string Z;
  ss_workers : gmap nat Worker;
  ss_next : nat;                       (* the next worker's number *)
  ss_conns : gmap nat Conn;
  ss_generations : nat;                (* connections so far; the current one is the last *)
  ss_inventory : list InventoryCall;   (* calls into the inventory, in order *)
}.

Definition initial : State :=
  {| ss_unacked := ∅; ss_outstanding := 0; ss_inFlight := ∅; ss_workers := ∅; ss_next := 0;
     ss_conns := ∅; ss_generations := 0; ss_inventory := [] |}.

(** Field updates. *)
Definition set_unacked (u : gmap string JobResult) (s : State) : State :=
  {| ss_unacked := u; ss_outstanding := ss_outstanding s; ss_inFlight := ss_inFlight s;
     ss_workers := ss_workers s; ss_next := ss_next s; ss_conns := ss_conns s;
     ss_generations := ss_generations s; ss_inventory := ss_inventory s |}.
Definition set_outstanding (n : nat) (s : State) : State :=
  {| ss_unacked := ss_unacked s; ss_outstanding := n; ss_inFlight := ss_inFlight s;
     ss_workers := ss_workers s; ss_next := ss_next s; ss_conns := ss_conns s;
     ss_generations := ss_generations s; ss_inventory := ss_inventory s |}.
Definition set_inFlight (f : gmap string Z) (s : State) : State :=
  {| ss_unacked := ss_unacked s; ss_outstanding := ss_outstanding s; ss_inFlight := f;
     ss_workers := ss_workers s; ss_next := ss_next s; ss_conns := ss_conns s;
     ss_generations := ss_generations s; ss_inventory := ss_inventory s |}.
Definition set_workers (w : gmap nat Worker) (s : State) : State :=
  {| ss_unacked := ss_unacked s; ss_outstanding := ss_outstanding s; ss_inFlight := ss_inFlight s;
     ss_workers := w; ss_next := ss_next s; ss_conns := ss_conns s;
     ss_generations := ss_generations s; ss_inventory := ss_inventory s |}.
Definition set_conn (i : nat) (c : Conn) (s : State) : State :=
  {| ss_unacked := ss_unacked s; ss_outstanding := ss_outstanding s; ss_inFlight := ss_inFlight s;
     ss_workers := ss_workers s; ss_next := ss_next s; ss_conns := <[i := c]> (ss_conns s);
     ss_generations := ss_generations s; ss_inventory := ss_inventory s |}.
Definition call_inventory (x : InventoryCall) (s : State) : State :=
  {| ss_unacked := ss_unacked s; ss_outstanding := ss_outstanding s; ss_inFlight := ss_inFlight s;
     ss_workers := ss_workers s; ss_next := ss_next s; ss_conns := ss_conns s;
     ss_generations := ss_generations s; ss_inventory := ss_inventory s ++ [x] |}.
Definition add_worker (w : Worker) (s : State) : State :=
  {| ss_unacked := ss_unacked s; ss_outstanding := ss_outstanding s; ss_inFlight := ss_inFlight s;
     ss_workers := <[ss_next s := w]> (ss_workers s); ss_next := S (ss_next s);
     ss_conns := ss_conns s; ss_generations := ss_generations s; ss_inventory := ss_inventory s |}.

Definition with_registry (cancels : gmap string nat) (explicit : gset string) (c : Conn) : Conn :=
  {| cn_hello := cn_hello c; cn_cancels := cancels; cn_explicit := explicit; cn_history := cn_history c;
     cn_sent := cn_sent c; cn_sending := cn_sending c; cn_recv := cn_recv c; cn_resend := cn_resend c;
     cn_draining := cn_draining c; cn_deadline := cn_deadline c; cn_watch := cn_watch c;
     cn_sequence := cn_sequence c; cn_beating := cn_beating c; cn_done := cn_done c;
     cn_ended := cn_ended c |}.
Definition with_history (h : list RelayToControl) (c : Conn) : Conn :=
  {| cn_hello := cn_hello c; cn_cancels := cn_cancels c; cn_explicit := cn_explicit c; cn_history := h;
     cn_sent := cn_sent c; cn_sending := cn_sending c; cn_recv := cn_recv c; cn_resend := cn_resend c;
     cn_draining := cn_draining c; cn_deadline := cn_deadline c; cn_watch := cn_watch c;
     cn_sequence := cn_sequence c; cn_beating := cn_beating c; cn_done := cn_done c;
     cn_ended := cn_ended c |}.
Definition with_sent (n : nat) (c : Conn) : Conn :=
  {| cn_hello := cn_hello c; cn_cancels := cn_cancels c; cn_explicit := cn_explicit c;
     cn_history := cn_history c; cn_sent := n; cn_sending := cn_sending c; cn_recv := cn_recv c;
     cn_resend := cn_resend c; cn_draining := cn_draining c; cn_deadline := cn_deadline c;
     cn_watch := cn_watch c; cn_sequence := cn_sequence c; cn_beating := cn_beating c; cn_done := cn_done c;
     cn_ended := cn_ended c |}.
Definition with_sending (sending : bool) (c : Conn) : Conn :=
  {| cn_hello := cn_hello c; cn_cancels := cn_cancels c; cn_explicit := cn_explicit c;
     cn_history := cn_history c; cn_sent := cn_sent c; cn_sending := sending; cn_recv := cn_recv c;
     cn_resend := cn_resend c; cn_draining := cn_draining c; cn_deadline := cn_deadline c;
     cn_watch := cn_watch c; cn_sequence := cn_sequence c; cn_beating := cn_beating c; cn_done := cn_done c;
     cn_ended := cn_ended c |}.
Definition with_recv (r : RecvState) (c : Conn) : Conn :=
  {| cn_hello := cn_hello c; cn_cancels := cn_cancels c; cn_explicit := cn_explicit c;
     cn_history := cn_history c; cn_sent := cn_sent c; cn_sending := cn_sending c; cn_recv := r;
     cn_resend := cn_resend c; cn_draining := cn_draining c; cn_deadline := cn_deadline c;
     cn_watch := cn_watch c; cn_sequence := cn_sequence c; cn_beating := cn_beating c; cn_done := cn_done c;
     cn_ended := cn_ended c |}.
Definition with_resend (l : ResendState) (c : Conn) : Conn :=
  {| cn_hello := cn_hello c; cn_cancels := cn_cancels c; cn_explicit := cn_explicit c;
     cn_history := cn_history c; cn_sent := cn_sent c; cn_sending := cn_sending c; cn_recv := cn_recv c;
     cn_resend := l; cn_draining := cn_draining c; cn_deadline := cn_deadline c; cn_watch := cn_watch c;
     cn_sequence := cn_sequence c; cn_beating := cn_beating c; cn_done := cn_done c;
     cn_ended := cn_ended c |}.
Definition with_drain (draining : bool) (deadline : option Duration) (w : WatchState) (c : Conn) : Conn :=
  {| cn_hello := cn_hello c; cn_cancels := cn_cancels c; cn_explicit := cn_explicit c;
     cn_history := cn_history c; cn_sent := cn_sent c; cn_sending := cn_sending c; cn_recv := cn_recv c;
     cn_resend := cn_resend c; cn_draining := draining; cn_deadline := deadline; cn_watch := w;
     cn_sequence := cn_sequence c; cn_beating := cn_beating c; cn_done := cn_done c;
     cn_ended := cn_ended c |}.
Definition with_heartbeat (n : Z) (beating : bool) (c : Conn) : Conn :=
  {| cn_hello := cn_hello c; cn_cancels := cn_cancels c; cn_explicit := cn_explicit c;
     cn_history := cn_history c; cn_sent := cn_sent c; cn_sending := cn_sending c; cn_recv := cn_recv c;
     cn_resend := cn_resend c; cn_draining := cn_draining c; cn_deadline := cn_deadline c;
     cn_watch := cn_watch c; cn_sequence := n; cn_beating := beating; cn_done := cn_done c;
     cn_ended := cn_ended c |}.
Definition with_end (done_ ended : bool) (c : Conn) : Conn :=
  {| cn_hello := cn_hello c; cn_cancels := cn_cancels c; cn_explicit := cn_explicit c;
     cn_history := cn_history c; cn_sent := cn_sent c; cn_sending := cn_sending c; cn_recv := cn_recv c;
     cn_resend := cn_resend c; cn_draining := cn_draining c; cn_deadline := cn_deadline c;
     cn_watch := cn_watch c; cn_sequence := cn_sequence c; cn_beating := cn_beating c; cn_done := done_;
     cn_ended := ended |}.

(** ** Messages (connection.go) *)

Definition ack (jobID : string) (epoch : Z) : RelayToControl := R_JobAck jobID epoch.
Definition started (jobID : string) (epoch : Z) : RelayToControl := R_JobStarted jobID epoch.
Definition heartbeat (sequence : Z) (scopes : list InventoryScopeStatus) : RelayToControl :=
  R_Heartbeat {| hb_Sequence := sequence; hb_LocalPolicyHash := ""; hb_InFlightCount := 0;
                 hb_InventoryScopes := scopes |}.
Definition resultMessage (r : JobResult) : RelayToControl := R_JobResult r.
Definition intakeShed : RelayToControl := R_ProtocolError CODE_INTAKE_SHED "".

Definition typed_refusal (jobID : string) (epoch : Z) (kind : FailureKind) : JobResult :=
  {| jr_JobId := jobID; jr_LeaseEpoch := epoch; jr_Outcome := Some (Outcome_Failure kind);
     jr_ExecutionDurationMs := 0 |}.
Definition identityMismatch (jobID : string) (epoch : Z) : JobResult :=
  typed_refusal jobID epoch KIND_IDENTITY_MISMATCH.
Definition unsupportedCapability (jobID : string) (epoch : Z) : JobResult :=
  typed_refusal jobID epoch KIND_UNSUPPORTED_CAPABILITY_VERSION.

Definition isCancelled (r : JobResult) : bool := bool_decide (GetFailureKind r = KIND_CANCELLED).

Definition drainStateMessage (outstanding : nat) : RelayToControl :=
  R_DrainState {| dr_Draining := true; dr_InFlightCount := uint32 (Z.of_nat outstanding);
                  dr_UnackedResultCount := 0 |}.

Definition drainReportInterval (deadline : Duration) : Duration :=
  let interval := (deadline ÷ 4)%Z in
  if ((interval <=? 0) || (Second <? interval))%Z then Second else interval.

Definition inFlightRoster (s : State) : list InFlightJob :=
  (λ '(j, e), {| ij_JobId := j; ij_LeaseEpoch := e; ij_ElapsedMs := 0 |}) <$> map_to_list (ss_inFlight s).

Definition helloMessage (cfg : Config) (s : State) : RelayToControl :=
  R_Hello {| he_ProtocolVersion := 1; he_RelayVersion := RelayVersion cfg;
             he_Capabilities := Capabilities cfg; he_ClusterFingerprint := ClusterFingerprint cfg;
             he_LocalPolicyHash := LocalPolicyHash cfg; he_MaxConcurrentJobs := MaxConcurrentJobs cfg; he_EndpointPinningDisabled := false;
             he_InFlight := inFlightRoster s |}.

(** [awaitAccepted]: the first message must be the acceptance. *)
Definition awaitAccepted (m : ControlToRelay) : option SessionAccepted :=
  match m with C_SessionAccepted accepted => Some accepted | _ => None end.

Definition supportsAssignment (cfg : Config) (job : JobAssignment) : bool :=
  existsb (λ d, (CapabilityId d =? ja_CapabilityId job)%string
                && (CapabilityVersion d =? ja_CapabilityVersion job)%Z) (Capabilities cfg).

(** ** Slots (session.go) and the unacked buffer (unacked.go) *)

Definition acquireSlot (capacity : nat) (s : State) : option State :=
  if (ss_outstanding s <? capacity)%nat then Some (set_outstanding (S (ss_outstanding s)) s) else None.

Definition releaseSlot (s : State) : State := set_outstanding (pred (ss_outstanding s)) s.

(** [markInFlight] and [clearInFlight]: the roster of the next hello. *)
Definition markInFlight (j : string) (epoch : Z) (s : State) : State :=
  set_inFlight (<[j := epoch]> (ss_inFlight s)) s.
Definition clearInFlight (j : string) (s : State) : State := set_inFlight (delete j (ss_inFlight s)) s.

Definition unacked_add (r : JobResult) (s : State) : State :=
  set_unacked (<[jr_JobId r := r]> (ss_unacked s)) s.

Definition unacked_has (j : string) (s : State) : bool := bool_decide (is_Some (ss_unacked s !! j)).

(** [unacked.ack], and the release that follows when it removed an entry. *)
Definition settle (j : string) (s : State) : State :=
  if unacked_has j s then releaseSlot (set_unacked (delete j (ss_unacked s)) s) else s.

Definition unacked_pending (s : State) : list JobResult := (map_to_list (ss_unacked s)).*2.

(** ** The job registry (connection.go) *)

Definition jobs_has (j : string) (c : Conn) : bool := bool_decide (is_Some (cn_cancels c !! j)).

Definition jobs_add (j : string) (worker : nat) (c : Conn) : Conn :=
  with_registry (<[j := worker]> (cn_cancels c)) (cn_explicit c) c.

Definition cancel_worker (id : nat) (s : State) : State :=
  match ss_workers s !! id with
  | Some w => set_workers (<[id := {| wk_conn := wk_conn w; wk_job := wk_job w;
                                     wk_phase := wk_phase w; wk_cancelled := true |}]> (ss_workers s)) s
  | None => s
  end.

Definition jobs_remove (i : nat) (j : string) (s : State) : State :=
  match ss_conns s !! i with
  | Some c => set_conn i (with_registry (delete j (cn_cancels c)) (cn_explicit c ∖ {[ j ]}) c) s
  | None => s
  end.

(** [jobRegistry.cancel]: mark the cancellation explicit and cancel the job's context. *)
Definition jobs_cancel (i : nat) (j : string) (s : State) : State :=
  match ss_conns s !! i with
  | Some c =>
      match cn_cancels c !! j with
      | Some id => cancel_worker id (set_conn i (with_registry (cn_cancels c) ({[ j ]} ∪ cn_explicit c) c) s)
      | None => s
      end
  | None => s
  end.

Definition wasExplicit (j : string) (c : Conn) : bool := bool_decide (j ∈ cn_explicit c).


(** ** Enqueue (sender.go) *)

(** [sender.enqueue]: accepted while the buffer has room, given up once the context is done; when both
    hold the select takes either. (Buffers of size zero, which the relay does not configure, hand over
    directly and have no accepting step here.) *)
Definition enqueue (cfg : Config) (accept : bool) (m : RelayToControl) (c : Conn) : option Conn :=
  if accept then
    if (length (queue c) <? OutboundBuffer cfg)%nat then Some (with_history (cn_history c ++ [m]) c) else None
  else if cn_done c then Some c else None.

(** ** The receive loop's handlers *)

Definition dispatchAssignment (cfg : Config) (i : nat) (c : Conn) (job : JobAssignment) (s : State) : State :=
  let jobID := ja_JobId job in
  let epoch := ja_LeaseEpoch job in
  let respond m := set_conn i (with_recv (REnqueue m None) c) s in
  if jobs_has jobID c || unacked_has jobID s then respond (ack jobID epoch)
  else if negb (ja_OrgId job =? OrgID cfg)%string || negb (ja_RegistrationId job =? RegistrationID cfg)%string
  then respond (resultMessage (identityMismatch jobID epoch))
  else if negb (supportsAssignment cfg job)
  then respond (resultMessage (unsupportedCapability jobID epoch))
  else set_conn i (with_recv (RAdmit job) c) s.

(** Its second half: reserve a slot or shed; register the job and start its worker. *)
Definition startJob (capacity : nat) (i : nat) (c : Conn) (job : JobAssignment) (s : State) : State :=
  match acquireSlot capacity s with
  | None => set_conn i (with_recv (REnqueue intakeShed None) c) s
  | Some s =>
      let s := set_conn i (with_recv RIdle (jobs_add (ja_JobId job) (ss_next s) c)) s in
      let s := markInFlight (ja_JobId job) (ja_LeaseEpoch job) s in
      add_worker {| wk_conn := i; wk_job := job; wk_phase := PAck; wk_cancelled := false |} s
  end.

Definition handleCancellation (i : nat) (c : Conn) (jobID : string) (epoch : Z) (s : State) : State :=
  let disposition := if unacked_has jobID s then DISPOSITION_ALREADY_COMPLETED else DISPOSITION_ABORTED in
  set_conn i (with_recv (REnqueue (R_CancelAck jobID epoch disposition) (Some jobID)) c) s.

(** [receiveLoop]: one message, up to the handler's first blocking or reserving operation. *)
Definition receive (cfg : Config) (i : nat) (c : Conn) (m : ControlToRelay) (s : State) : State :=
  match m with
  | C_JobAssignment job =>
      if cn_draining c then set_conn i (with_recv (REnqueue intakeShed None) c) s
      else dispatchAssignment cfg i c job s
  | C_ResultAck j _ _ => settle j s
  | C_Cancellation j e => handleCancellation i c j e s
  | C_DrainInstruction d =>
      let deadline := match cn_deadline c with Some x => Some x | None => Some (AsDuration d) end in
      set_conn i (with_drain true deadline (cn_watch c) c) s
  | C_InventoryPolicy p => if HasInventory cfg then call_inventory (ApplyPolicyCall p) s else s
  | C_InventoryDeltaAck d => if HasInventory cfg then call_inventory (AckCall d) s else s
  | C_SessionAccepted _ | C_CredentialRotation _ _ | C_CapabilityRequirements _ | C_GracefulReconnect _
  | C_Unset => s
  end.

(** The handler's continuation. *)
Definition handler (cfg : Config) (capacity : nat) (i : nat) (c : Conn) (accept : bool) (s : State)
    : option State :=
  match cn_recv c with
  | RIdle | RLeft => None
  | REnqueue m next =>
      c ← enqueue cfg accept m c;
      Some (set_conn i (with_recv (match next with Some j => RCancel j | None => RIdle end) c) s)
  | RCancel j => Some (jobs_cancel i j (set_conn i (with_recv RIdle c) s))
  | RAdmit job => Some (startJob capacity i c job s)
  end.

(** ** Workers *)

Definition set_phase (id : nat) (w : Worker) (p : Phase) (s : State) : State :=
  set_workers (<[id := {| wk_conn := wk_conn w; wk_job := wk_job w; wk_phase := p;
                          wk_cancelled := wk_cancelled w |}]> (ss_workers s)) s.

(** A worker's enqueue on the sender of the connection that admitted it. *)
Definition worker_enqueue (cfg : Config) (id : nat) (w : Worker) (accept : bool) (m : RelayToControl)
    (next : Phase) (s : State) : option State :=
  c ← ss_conns s !! wk_conn w;
  c ← enqueue cfg accept m c;
  Some (set_phase id w next (set_conn (wk_conn w) c s)).

(** The executor answers for the job it was given. *)
Definition echoes_job (job : JobAssignment) (r : JobResult) : bool :=
  (jr_JobId r =? ja_JobId job)%string && (jr_LeaseEpoch r =? ja_LeaseEpoch job)%Z.

Inductive WorkerChoice :=
  | Proceed                            (* the next statement *)
  | Enqueued (accept : bool)           (* how its enqueue ended *)
  | Executed (r : JobResult).          (* what the executor returned *)

Definition worker_step (cfg : Config) (id : nat) (w : Worker) (choice : WorkerChoice) (s : State)
    : option State :=
  let jobID := ja_JobId (wk_job w) in
  let epoch := ja_LeaseEpoch (wk_job w) in
  match wk_phase w, choice with
  | PAck, Enqueued a => worker_enqueue cfg id w a (ack jobID epoch) PStarted s
  | PStarted, Enqueued a => worker_enqueue cfg id w a (started jobID epoch) PExecute s
  | PExecute, Executed r => if echoes_job (wk_job w) r then Some (set_phase id w (PClear r) s) else None
  | PClear r, Proceed => Some (set_phase id w (PDecide r) (clearInFlight jobID s))
  | PDecide r, Proceed =>
      c ← ss_conns s !! wk_conn w;
      Some (set_phase id w (if isCancelled r && negb (wasExplicit jobID c) then PAbandon else PAdd r) s)
  | PAbandon, Proceed => Some (set_phase id w PRemove (releaseSlot s))
  | PAdd r, Proceed => Some (set_phase id w (PEnqueue r) (unacked_add r s))
  | PEnqueue r, Enqueued a => worker_enqueue cfg id w a (resultMessage r) PRemove s
  | PRemove, Proceed =>
      let s := jobs_remove (wk_conn w) jobID s in
      Some (set_workers (delete id (ss_workers s)) s)
  | _, _ => None
  end.

(** ** The drain watcher *)

Inductive WatchChoice :=
  | Advance                            (* the next statement *)
  | Reported (accept : bool)           (* how the enqueue of its report ended *)
  | Tick                               (* report.C *)
  | Timeout.                           (* timeout.C *)

Definition watch_step (cfg : Config) (i : nat) (c : Conn) (choice : WatchChoice) (s : State)
    : option State :=
  let at_ w c := set_conn i (with_drain (cn_draining c) (cn_deadline c) w c) s in
  match cn_watch c, choice with
  | WWaiting, Advance =>
      deadline ← cn_deadline c;
      Some (set_conn i (with_drain true None (WReport deadline) c) s)
  | WReport d, Advance => Some (at_ (WEnqueue d (drainStateMessage (ss_outstanding s))) c)
  | WEnqueue d m, Reported a => c ← enqueue cfg a m c; Some (at_ (WLook d) c)
  | WLook d, Advance =>
      if (ss_outstanding s =? 0)%nat then Some (at_ WDone (with_end true (cn_ended c) c))
      else Some (at_ (WSelect d) c)
  | WSelect d, Tick => Some (at_ (WReport d) c)
  | WSelect d, Timeout => Some (at_ WDone (with_end true (cn_ended c) c))
  | _, _ => None
  end.

(** ** The whole session *)

Inductive label :=
  | LConnect (reply : ControlToRelay)        (* Run: a stream opens, hello is sent, the reply comes *)
  | LReceive (m : ControlToRelay)
  | LHandler (accept : bool)
  | LWorker (id : nat) (choice : WorkerChoice)
  | LSend (ok : bool)                        (* the sender takes the oldest queued message; how its Send ended *)
  | LResendTick (order : list string)        (* its results, in the order a map iteration happens to take *)
  | LResendPending (deltas : list InventoryDelta)
  | LResend (accept : bool)
  | LHeartbeat (scopes : list InventoryScopeStatus) (accept : bool)
  | LWatch (choice : WatchChoice)
  | LFail (recv : bool)                      (* Recv fails, or the process is told to stop *)
  | LEnd.                                    (* group.Wait returns; jobs.cancelAll *)

(** The connection whose loops run: the latest, until it has ended. *)
Definition live (s : State) : option (nat * Conn) :=
  let i := pred (ss_generations s) in
  c ← ss_conns s !! i;
  if cn_ended c then None else Some (i, c).

(** The connection whose loops all run: none has returned, and its context is not done. *)
Definition running (s : State) : option (nat * Conn) :=
  '(i, c) ← live s;
  if cn_done c then None else Some (i, c).

Definition newConn (hello : RelayToControl) : Conn :=
  {| cn_hello := hello; cn_cancels := ∅; cn_explicit := ∅; cn_history := []; cn_sent := 0;
     cn_sending := true; cn_recv := RIdle; cn_resend := RsDeltas []; cn_draining := false; cn_deadline := None;
     cn_watch := WWaiting; cn_sequence := 0; cn_beating := true; cn_done := false; cn_ended := false |}.

(** [Run] and the start of [runConnection]: nothing of a refused session remains. *)
Definition connect (cfg : Config) (reply : ControlToRelay) (s : State) : State :=
  match awaitAccepted reply with
  | None => s
  | Some _ =>
      {| ss_unacked := ss_unacked s; ss_outstanding := ss_outstanding s; ss_inFlight := ss_inFlight s;
         ss_workers := ss_workers s; ss_next := ss_next s;
         ss_conns := <[ss_generations s := newConn (helloMessage cfg s)]> (ss_conns s);
         ss_generations := S (ss_generations s); ss_inventory := ss_inventory s |}
  end.

(** The context of every job in the registry is cancelled, and the registry emptied. *)
Definition cancelAll (i : nat) (c : Conn) (s : State) : State :=
  let s := map_fold (λ _ id, cancel_worker id) s (cn_cancels c) in
  set_conn i (with_registry ∅ (cn_explicit c) c) s.

(** What a resend tick offers first: the retained results, in the order Go's map iteration happens to take. *)
Definition resend_batch (order : list string) (s : State) : list RelayToControl :=
  resultMessage <$> omap (λ j, ss_unacked s !! j) order.

(** [sender.run]: the oldest queued message is handed to [Send], unless an earlier one failed; a failure ends
    the loop, and with it the connection's context. Once the context is done the select may still take a
    message that is ready, or return, so this step is then possible and nothing relies on it: what is
    said to come about is said of a [running] connection. *)
Definition sender_run (i : nat) (c : Conn) (ok : bool) (s : State) : option State :=
  if cn_sending c && (cn_sent c <? length (cn_history c))%nat then
    let c := with_sent (S (cn_sent c)) c in
    Some (set_conn i (if ok then c else with_end true (cn_ended c) (with_sending false c)) s)
  else None.

(** [resendLoop]: a tick takes the retained results; when they are enqueued the inventory is asked for its
    pending deltas; each message is enqueued, and a failure ends the loop. (As in the sender, a tick that
    is ready may still be taken, and a message accepted, once the context is done.) *)
Definition resend_tick (i : nat) (c : Conn) (order : list string) (s : State) : option State :=
  match cn_resend c with
  | RsDeltas [] =>
      if bool_decide (NoDup order ∧ list_to_set order =@{gset string} dom (ss_unacked s))
      then Some (set_conn i (with_resend (RsResults (resend_batch order s)) c) s) else None
  | _ => None
  end.

Definition resend_pending (cfg : Config) (i : nat) (c : Conn) (deltas : list InventoryDelta) (s : State)
    : option State :=
  match cn_resend c with
  | RsResults [] =>
      let offered := if HasInventory cfg then R_InventoryDelta <$> deltas else [] in
      Some (set_conn i (with_resend (RsDeltas offered) c) s)
  | _ => None
  end.

Definition resend_next (cfg : Config) (i : nat) (c : Conn) (accept : bool) (s : State) : option State :=
  match cn_resend c with
  | RsResults (m :: rest) =>
      c ← enqueue cfg accept m c;
      Some (set_conn i (with_resend (if accept then RsResults rest else RsLeft) c) s)
  | RsDeltas (m :: rest) =>
      c ← enqueue cfg accept m c;
      Some (set_conn i (with_resend (if accept then RsDeltas rest else RsLeft) c) s)
  | _ => None
  end.

(** [heartbeatLoop]: one tick; without an inventory there are no scopes to report. *)
Definition heartbeat_tick (cfg : Config) (i : nat) (c : Conn) (scopes : list InventoryScopeStatus)
    (accept : bool) (s : State) : option State :=
  if cn_beating c then
    let sequence := wrap_u 64 (cn_sequence c + 1) in
    let scopes := if HasInventory cfg then scopes else [] in
    c ← enqueue cfg accept (heartbeat sequence scopes) c;
    Some (set_conn i (with_heartbeat sequence accept c) s)
  else None.

(** The connection's context is cancelled: from outside, or by the receive loop's return. *)
Definition fail (i : nat) (c : Conn) (recv : bool) (s : State) : option State :=
  if recv then
    match cn_recv c with
    | RIdle => Some (set_conn i (with_end true (cn_ended c) (with_recv RLeft c)) s)
    | _ => None
    end
  else Some (set_conn i (with_end true (cn_ended c) c) s).

(** [group.Wait] returns once the context is done and the loops have left: those still at a select or at
    [Recv] leave with it. *)
Definition finish (i : nat) (c : Conn) (s : State) : option State :=
  match cn_recv c with
  | RIdle | RLeft => if cn_done c then Some (cancelAll i (with_end true true c) s) else None
  | _ => None
  end.

Definition perform (cfg : Config) (capacity : nat) (l : label) (s : State) : option State :=
  match l with
  | LConnect reply => match live s with None => Some (connect cfg reply s) | Some _ => None end
  | LWorker id choice => w ← ss_workers s !! id; worker_step cfg id w choice s
  | _ =>
      '(i, c) ← live s;
      match l with
      | LReceive m => match cn_recv c with RIdle => Some (receive cfg i c m s) | _ => None end
      | LHandler accept => handler cfg capacity i c accept s
      | LSend ok => sender_run i c ok s
      | LResendTick order => resend_tick i c order s
      | LResendPending deltas => resend_pending cfg i c deltas s
      | LResend accept => resend_next cfg i c accept s
      | LHeartbeat scopes accept => heartbeat_tick cfg i c scopes accept s
      | LWatch choice => watch_step cfg i c choice s
      | LFail recv => fail i c recv s
      | LEnd => finish i c s
      | LConnect _ | LWorker _ _ => None
      end
  end.

Fixpoint run_labels (cfg : Config) (capacity : nat) (ls : list label) (s : State) : option State :=
  match ls with
  | [] => Some s
  | l :: ls => s ← perform cfg capacity l s; run_labels cfg capacity ls s
  end.

(** States a session built with [New] can be in. *)
Inductive reachable (config : Config) : State → Prop :=
  | reachable_initial : reachable config initial
  | reachable_step s l s' :
      reachable config s →
      perform (New config).1 (New config).2 l s = Some s' →
      reachable config s'.
