(* ===== verification/SessionSteps.v ===== *)
(** * How one step of the session changes its connections and workers

    [evolves] is everything a step may do to a connection record, [progress] everything it may do to a
    worker. The invariants of the session are then read off these two relations instead of being proved
    by a case analysis of [perform] each. *)

From S2P Require Import Prelude GoString GoTime Wire Session.
From stdpp Require Import options.

(** ** Connections *)

Definition admissible (cfg : Config) (job : JobAssignment) : Prop :=
  ja_OrgId job = OrgID cfg ∧ ja_RegistrationId job = RegistrationID cfg
  ∧ supportsAssignment cfg job = true.

Definition is_cancel_ack (j : string) (m : RelayToControl) : Prop := ∃ e d, m = R_CancelAck j e d.

(** What a connection has on record about a cancellation it is carrying out. *)
Definition cancel_recorded (j : string) (c : Conn) : Prop :=
  (∃ m, m ∈ cn_history c ∧ is_cancel_ack j m) ∨ cn_done c = true.

Record evolves (cfg : Config) (c c' : Conn) : Prop := {
  ev_history : cn_history c' = cn_history c
    ∨ (∃ m, cn_history c' = cn_history c ++ [m] ∧ cn_sent c' = cn_sent c
            ∧ length (queue c) < OutboundBuffer cfg);
  ev_sent : cn_sent c' = cn_sent c ∨ (cn_sent c' = S (cn_sent c) ∧ cn_sent c < length (cn_history c));
  ev_done : cn_done c = true → cn_done c' = true;
  ev_ended : cn_ended c' = true → cn_ended c = true ∨ cn_done c = true;
  ev_stays_ended : cn_ended c = true → cn_ended c' = true;
  ev_draining : cn_draining c = true → cn_draining c' = true;
  ev_drained : cn_draining c' = true → cn_draining c = true ∨ cn_recv c' = RIdle ∨ is_Some (cn_deadline c);
  ev_deadline : is_Some (cn_deadline c') → is_Some (cn_deadline c) ∨ cn_draining c' = true;
  ev_admit job : cn_recv c' = RAdmit job →
    cn_recv c = RAdmit job ∨ (cn_draining c = false ∧ cn_draining c' = false ∧ admissible cfg job);
  ev_explicit j : j ∈ cn_explicit c' → j ∈ cn_explicit c ∨ cn_recv c = RCancel j;
  ev_cancel j : cn_recv c' = RCancel j →
    cn_recv c = RCancel j ∨ (∃ m, cn_recv c = REnqueue m (Some j) ∧ (m ∈ cn_history c' ∨ cn_done c = true));
  ev_next m j : cn_recv c' = REnqueue m (Some j) →
    cn_recv c = REnqueue m (Some j) ∨ is_cancel_ack j m;
  ev_waiting : cn_draining c' = true → cn_watch c' = WWaiting →
    is_Some (cn_deadline c') ∨ (cn_draining c = true ∧ cn_watch c = WWaiting ∧ cn_deadline c' = cn_deadline c);
  ev_watched : cn_watch c' = WDone → cn_watch c = WDone ∨ cn_done c' = true;
  ev_sending : cn_sending c' = false → cn_sending c = false ∨ cn_done c' = true;
  ev_resending : cn_resend c' = RsLeft → cn_resend c = RsLeft ∨ cn_done c' = true;
}.

Ltac evolve := split; simpl; try by auto; try (by intros; eauto); try (by intros; simplify_eq); try (by intros [? [=]]).

Lemma evolves_refl cfg c : evolves cfg c c.
Proof. evolve. Qed.

(** An accepted or abandoned enqueue, with whatever else the enqueuing loop then does to its own state. *)
Lemma enqueue_Some cfg a m c c' :
  enqueue cfg a m c = Some c' →
  (c' = with_history (cn_history c ++ [m]) c ∧ length (queue c) < OutboundBuffer cfg)
  ∨ (c' = c ∧ cn_done c = true).
Proof. unfold enqueue. intros H. destruct a; option_steps; bool_prop; auto. Qed.

Lemma enqueue_given_up cfg a m c c' : enqueue cfg a m c = Some c' → a = true ∨ cn_done c = true.
Proof. unfold enqueue. destruct a; [by left|]. intros H. option_steps. by right. Qed.

Lemma enqueue_evolves cfg a m c c' : enqueue cfg a m c = Some c' → evolves cfg c c'.
Proof.
  intros [[-> Hq] | [-> Hd]]%enqueue_Some; [|apply evolves_refl].
  split; simpl; try by auto. right. by exists m.
Qed.

(** [tracks]: the connections of [s'] are those of [s], each evolved. *)
Definition tracks (cfg : Config) (s s' : State) : Prop :=
  (∀ i, option_Forall2 (evolves cfg) (ss_conns s !! i) (ss_conns s' !! i))
  ∧ ss_generations s' = ss_generations s.

Lemma evolves_option_refl cfg (x : option Conn) : option_Forall2 (evolves cfg) x x.
Proof. destruct x; constructor. apply evolves_refl. Qed.

Lemma tracks_same cfg s s' :
  ss_conns s' = ss_conns s → ss_generations s' = ss_generations s → tracks cfg s s'.
Proof. intros E ?. split; [|done]. intros i. rewrite E. apply evolves_option_refl. Qed.

Lemma tracks_set cfg i c c' s s' :
  ss_conns s !! i = Some c → evolves cfg c c' →
  ss_conns s' = <[i := c']> (ss_conns s) ∧ ss_generations s' = ss_generations s →
  tracks cfg s s'.
Proof.
  intros Hc He [E ?]. split; [|done]. intros k. rewrite E.
  destruct (decide (i = k)) as [<- | Hne].
  - rewrite lookup_insert_eq, Hc. by constructor.
  - rewrite lookup_insert_ne by done. apply evolves_option_refl.
Qed.

Lemma cancel_worker_generations id s : ss_generations (cancel_worker id s) = ss_generations s.
Proof. unfold cancel_worker. by case_match. Qed.

Lemma cancel_worker_conns id s : ss_conns (cancel_worker id s) = ss_conns s.
Proof. unfold cancel_worker. by case_match. Qed.

Lemma evolves_recv cfg r c :
  (∀ job, r = RAdmit job → cn_draining c = false ∧ admissible cfg job) →
  (∀ j, r ≠ RCancel j) → (∀ m j, r = REnqueue m (Some j) → is_cancel_ack j m) →
  evolves cfg c (with_recv r c).
Proof.
  intros H1 H2 H3. evolve; [|by intros j H; destruct (H2 j)].
  intros job ->. right. by destruct (H1 job eq_refl).
Qed.

Lemma receive_tracks cfg i c m s :
  ss_conns s !! i = Some c → cn_recv c = RIdle → tracks cfg s (receive cfg i c m s).
Proof.
  intros Hc Hr. destruct m; simpl; try by apply tracks_same.
  - destruct (cn_draining c) eqn:D.
    + eapply tracks_set; [done| |done]. by apply evolves_recv.
    + unfold dispatchAssignment. repeat case_match; (eapply tracks_set; [done| |done]);
        apply evolves_recv; try done.
      intros ? [= <-]. bool_prop. done.
  - unfold handleCancellation. eapply tracks_set; [done| |done]. apply evolves_recv; try done.
    intros ? ? [= <- <-]. by eexists _, _.
  - unfold settle. case_match; by apply tracks_same.
  - eapply tracks_set; [done| |done]. split; simpl; try by auto. intros _ _. left. by case_match.
  - case_match; by apply tracks_same.
  - case_match; by apply tracks_same.
Qed.

Lemma handler_tracks cfg capacity i c a s s' :
  ss_conns s !! i = Some c → handler cfg capacity i c a s = Some s' → tracks cfg s s'.
Proof.
  intros Hc. unfold handler. destruct (cn_recv c) as [| |m next|j|job] eqn:R; intros H; option_steps.
  - apply enqueue_Some in Heqo as [[-> Hq] | [-> Hd]].
    + eapply tracks_set; [done| |done]. split; simpl; try by auto; try (by destruct next).
      * right. by exists m.
      * intros j. destruct next as [j'|]; [|done]. intros [= ->]. right. exists m. split; [done|].
        left. set_solver.
    + eapply tracks_set; [done| |done]. split; simpl; try by auto; try (by destruct next).
      intros j. destruct next as [j'|]; [|done]. intros [= ->]. right. exists m. auto.
  - unfold jobs_cancel. simpl. rewrite lookup_insert_eq. simpl. case_match.
    + eapply tracks_set; [done| |rewrite cancel_worker_conns, cancel_worker_generations; simpl; by rewrite insert_insert_eq].
      evolve. intros k. rewrite elem_of_union, elem_of_singleton. naive_solver.
    + eapply tracks_set; [done| |done]. by apply evolves_recv.
  - unfold startJob. case_match eqn:A; (eapply tracks_set; [done| |]);
      [|unfold acquireSlot in A; option_steps; done| |done]; evolve.
Qed.

Lemma worker_step_tracks cfg id w choice s s' :
  worker_step cfg id w choice s = Some s' → tracks cfg s s'.
Proof.
  unfold worker_step, worker_enqueue. destruct (wk_phase w), choice; intros H; try done; option_steps;
    try by apply tracks_same.
  1, 2, 3: eapply tracks_set; [done| |done]; by eapply enqueue_evolves.
  unfold jobs_remove. case_match; [|by apply tracks_same].
  eapply tracks_set; [done| |done]. evolve. set_solver.
Qed.

Lemma watch_step_tracks cfg i c choice s s' :
  ss_conns s !! i = Some c → watch_step cfg i c choice s = Some s' → tracks cfg s s'.
Proof.
  intros Hc. unfold watch_step. destruct (cn_watch c), choice; intros H; try done; option_steps;
    (eapply tracks_set; [done| |done]).
  3: match goal with H : enqueue _ _ _ _ = Some _ |- _ => apply enqueue_Some in H as [[-> ?] | [-> ?]] end.
  all: evolve.
Qed.

Lemma cancelAll_conns i c s :
  ss_conns (cancelAll i c s) = <[i := with_registry ∅ (cn_explicit c) c]> (ss_conns s).
Proof.
  unfold cancelAll. simpl. f_equal.
  apply (map_fold_weak_ind (λ s' _, ss_conns s' = ss_conns s)); [done|].
  intros. by rewrite cancel_worker_conns.
Qed.

Lemma cancelAll_unacked i c s : ss_unacked (cancelAll i c s) = ss_unacked s.
Proof.
  unfold cancelAll. simpl.
  apply (map_fold_weak_ind (λ s' _, ss_unacked s' = ss_unacked s)); [done|].
  intros k id m s' _ <-. unfold cancel_worker. by case_match.
Qed.

Lemma cancelAll_generations i c s : ss_generations (cancelAll i c s) = ss_generations s.
Proof.
  unfold cancelAll. simpl.
  apply (map_fold_weak_ind (λ s' _, ss_generations s' = ss_generations s)); [done|].
  intros. by rewrite cancel_worker_generations.
Qed.

Lemma live_Some s i c :
  live s = Some (i, c) → i = pred (ss_generations s) ∧ ss_conns s !! i = Some c ∧ cn_ended c = false.
Proof. unfold live. intros H. option_steps. done. Qed.

(** A step either starts a connection or lets the existing ones evolve. *)
Lemma perform_tracks cfg capacity l s s' :
  perform cfg capacity l s = Some s' →
  tracks cfg s s'
  ∨ (live s = None ∧ ss_generations s' = S (ss_generations s) ∧ ss_workers s' = ss_workers s
     ∧ ss_unacked s' = ss_unacked s
     ∧ ss_conns s' = <[ss_generations s := newConn (helloMessage cfg s)]> (ss_conns s)).
Proof.
  unfold perform, sender_run, resend_tick, resend_pending, resend_next, heartbeat_tick, fail, finish. destruct l; intros H;
    try (destruct (live s) as [[i c]|] eqn:L; [|done]; simpl in H;
         apply live_Some in L as (-> & Hc & He); left).
  - destruct (live s); option_steps. unfold connect. case_match; [|by left; apply tracks_same]. by right.
  - destruct (cn_recv c) eqn:R; option_steps. by apply receive_tracks.
  - by eapply handler_tracks.
  - left. destruct (ss_workers s !! id) eqn:E; [|done]. simpl in H. by eapply worker_step_tracks.
  - option_steps. bool_prop. eapply tracks_set; [done| |done]. destruct ok; evolve.
  - destruct (cn_resend c) as [[|? ?]|[|? ?]|]; option_steps; (eapply tracks_set; [done| |done]); evolve.
  - destruct (cn_resend c) as [[|? ?]|[|? ?]|]; option_steps; (eapply tracks_set; [done| |done]); evolve.
  - destruct (cn_resend c) as [[|? ?]|[|? ?]|]; option_steps;
      (eapply tracks_set; [done| |done]);
      match goal with H : enqueue _ _ _ _ = Some _ |- _ =>
        pose proof (enqueue_given_up _ _ _ _ _ H) as [-> | ?]; apply enqueue_Some in H as [[-> ?] | [-> ?]] end;
      evolve.
  - option_steps;
      (eapply tracks_set; [done| |done]);
      match goal with H : enqueue _ _ _ _ = Some _ |- _ => apply enqueue_Some in H as [[-> ?] | [-> ?]] end;
      evolve.
  - by eapply watch_step_tracks.
  - destruct recv; [destruct (cn_recv c) eqn:R|]; option_steps; (eapply tracks_set; [done| |done]); evolve.
  - destruct (cn_recv c) eqn:R; option_steps;
      (eapply tracks_set; [done| |by rewrite cancelAll_conns, cancelAll_generations]); evolve.
Qed.

(** ** Workers *)

(** One step of a worker's program. *)
Inductive moves (s : State) (w : Worker) : Phase → Prop :=
  | moves_ack : wk_phase w = PAck → moves s w PStarted
  | moves_started : wk_phase w = PStarted → moves s w PExecute
  | moves_execute r : wk_phase w = PExecute → echoes_job (wk_job w) r = true → moves s w (PClear r)
  | moves_clear r : wk_phase w = PClear r → moves s w (PDecide r)
  | moves_abandon r : wk_phase w = PDecide r → isCancelled r = true → moves s w PAbandon
  | moves_keep r c : wk_phase w = PDecide r → ss_conns s !! wk_conn w = Some c →
      (isCancelled r = true → ja_JobId (wk_job w) ∈ cn_explicit c) → moves s w (PAdd r)
  | moves_abandoned : wk_phase w = PAbandon → moves s w PRemove
  | moves_add r : wk_phase w = PAdd r → moves s w (PEnqueue r)
  | moves_deliver r : wk_phase w = PEnqueue r → moves s w PRemove.

(** What worker [id] of [s'] was in [s]. *)
Definition descends (s s' : State) : Prop :=
  ∀ id w', ss_workers s' !! id = Some w' →
    (∃ w, ss_workers s !! id = Some w ∧ wk_conn w' = wk_conn w ∧ wk_job w' = wk_job w
          ∧ (wk_phase w' = wk_phase w ∨ moves s w (wk_phase w')))
    ∨ (id = ss_next s ∧ ss_next s' = S (ss_next s) ∧ wk_phase w' = PAck
       ∧ ∃ c, live s = Some (wk_conn w', c) ∧ cn_recv c = RAdmit (wk_job w')).

Lemma descends_same s s' : ss_workers s' = ss_workers s → descends s s'.
Proof. intros E id w'. rewrite E. left. exists w'. auto. Qed.

Lemma descends_set s s' id w p :
  ss_workers s !! id = Some w → moves s w p → ss_workers s' = ss_workers s →
  descends s (set_phase id w p s').
Proof.
  intros Hw Hm E k w'. simpl. rewrite E. intros [[<- <-] | [Hne Hk]]%lookup_insert_Some; left.
  - exists w. auto.
  - exists w'. auto.
Qed.

Lemma cancel_worker_descends s s' id : descends s s' → descends s (cancel_worker id s').
Proof.
  intros H. unfold cancel_worker. destruct (ss_workers s' !! id) as [w|] eqn:E; [|done].
  intros k w'. simpl. intros [[<- <-] | [Hne Hk]]%lookup_insert_Some; [|by apply H].
  by apply H in E.
Qed.

Lemma cancelAll_descends i c s s' : descends s s' → descends s (cancelAll i c s').
Proof.
  intros H. unfold cancelAll.
  enough (descends s (map_fold (λ _ id, cancel_worker id) s' (cn_cancels c))); [done|].
  apply (map_fold_weak_ind (λ x _, descends s x)); [done|].
  intros. by apply cancel_worker_descends.
Qed.

Lemma worker_step_descends cfg id w choice s s' :
  ss_workers s !! id = Some w → worker_step cfg id w choice s = Some s' → descends s s'.
Proof.
  intros Hw. unfold worker_step, worker_enqueue.
  destruct (wk_phase w) eqn:P, choice; intros H; try done; option_steps;
    try (apply descends_set; [done| |done]).
  - by constructor.
  - by constructor.
  - by constructor.
  - by constructor.
  - case_match eqn:D; bool_prop; [by econstructor|]. econstructor; [done|done|].
    intros HC. rewrite HC in D. simpl in D. unfold wasExplicit in D. by bool_prop.
  - by constructor.
  - by constructor.
  - by econstructor.
  - unfold jobs_remove. intros k w'. simpl. intros H. left. exists w'.
    case_match; simpl in H; apply lookup_delete_Some in H as [_ H]; auto.
Qed.

Lemma perform_descends cfg capacity l s s' : perform cfg capacity l s = Some s' → descends s s'.
Proof.
  unfold perform, sender_run, resend_tick, resend_pending, resend_next, heartbeat_tick, fail, finish. destruct l; intros H;
    try (destruct (live s) as [[i c]|] eqn:L; [|done]; simpl in H; pose proof L as (-> & Hc & He)%live_Some).
  - destruct (live s); option_steps. apply descends_same. unfold connect. by case_match.
  - destruct (cn_recv c) eqn:R; option_steps. apply descends_same.
    destruct m; simpl; repeat case_match; try done; unfold dispatchAssignment, settle; by repeat case_match.
  - unfold handler in H. destruct (cn_recv c) eqn:R; option_steps.
    + by apply descends_same.
    + unfold jobs_cancel. simpl. rewrite lookup_insert_eq. case_match; [|by apply descends_same].
      apply cancel_worker_descends. by apply descends_same.
    + unfold startJob, acquireSlot. case_match; option_steps; [|by apply descends_same].
      intros k w'. simpl. intros [[<- <-] | [Hne Hk]]%lookup_insert_Some; [right|left; exists w'; auto].
      repeat split. by exists c.
  - destruct (ss_workers s !! id) eqn:E; [|done]. simpl in H. by eapply worker_step_descends.
  - option_steps; by apply descends_same.
  - destruct (cn_resend c) as [[|? ?]|[|? ?]|]; option_steps; by apply descends_same.
  - destruct (cn_resend c) as [[|? ?]|[|? ?]|]; option_steps; by apply descends_same.
  - destruct (cn_resend c) as [[|? ?]|[|? ?]|]; option_steps; by apply descends_same.
  - option_steps; by apply descends_same.
  - apply descends_same. unfold watch_step in H. destruct (cn_watch c), choice; try done; by option_steps.
  - destruct recv; [destruct (cn_recv c) eqn:?|]; option_steps; by apply descends_same.
  - destruct (cn_recv c) eqn:R; option_steps; apply cancelAll_descends; by apply descends_same.
Qed.
