(* ===== verification/SessionSlots.v ===== *)
(** * Outstanding work: what the slots of a session account for

    A slot is held by a worker from its admission until its result is retained or abandoned, and by
    each retained result. [account] classifies the steps by what they do to the slots; the bound and the
    fate of lost slots follow by induction on reachability. *)

From S2P Require Import Prelude GoString GoTime Wire Session.
From stdpp Require Import options.

(** ** Holders *)

(** A worker holds its slot until it abandons the job or its result is retained. *)
Definition holding (p : Phase) : bool :=
  match p with PEnqueue _ | PRemove => false | _ => true end.

Definition holds (x : nat * Worker) : Prop := holding (wk_phase x.2) = true.
#[global] Instance holds_dec x : Decision (holds x).
Proof. unfold holds. apply _. Defined.

Definition holders (s : State) : nat := size (filter holds (ss_workers s)).

(** Units of outstanding work: jobs a worker holds plus results awaiting an acknowledgement. *)
Definition held (s : State) : nat := holders s + size (ss_unacked s).

Lemma holders_insert_new (ws : gmap nat Worker) id w :
  ws !! id = None →
  size (filter holds (<[id := w]> ws)) = Nat.b2n (holding (wk_phase w)) + size (filter holds ws).
Proof.
  intros Hid. destruct (holding (wk_phase w)) eqn:E.
  - rewrite map_filter_insert_True by done. rewrite map_size_insert_None; [done|].
    apply map_lookup_filter_None. by left.
  - rewrite map_filter_insert_False by (unfold holds; simpl; congruence).
    by rewrite delete_id by done.
Qed.

Lemma holders_delete (ws : gmap nat Worker) id w :
  ws !! id = Some w →
  size (filter holds ws) = Nat.b2n (holding (wk_phase w)) + size (filter holds (delete id ws)).
Proof.
  intros Hid. rewrite <- (insert_delete_id ws id w Hid) at 1.
  apply holders_insert_new, lookup_delete_eq.
Qed.

Lemma holders_insert (ws : gmap nat Worker) id w w' :
  ws !! id = Some w →
  size (filter holds (<[id := w']> ws)) + Nat.b2n (holding (wk_phase w))
  = size (filter holds ws) + Nat.b2n (holding (wk_phase w')).
Proof.
  intros Hid. rewrite <- (insert_delete_eq ws id).
  rewrite holders_insert_new by apply lookup_delete_eq.
  rewrite (holders_delete ws id w Hid). lia.
Qed.

Lemma cancel_worker_frame id s :
  ss_unacked (cancel_worker id s) = ss_unacked s
  ∧ ss_outstanding (cancel_worker id s) = ss_outstanding s
  ∧ ss_inFlight (cancel_worker id s) = ss_inFlight s
  ∧ ss_conns (cancel_worker id s) = ss_conns s
  ∧ ss_next (cancel_worker id s) = ss_next s
  ∧ ss_generations (cancel_worker id s) = ss_generations s
  ∧ holders (cancel_worker id s) = holders s.
Proof.
  unfold cancel_worker, holders. destruct (ss_workers s !! id) as [w|] eqn:E; [|done].
  repeat split. simpl. pose proof (holders_insert _ _ _ {| wk_conn := wk_conn w; wk_job := wk_job w;
    wk_phase := wk_phase w; wk_cancelled := true |} E). simpl in *. lia.
Qed.

(** What the counting sees of a state. *)
Definition counts (s : State) : nat * nat * nat := (holders s, size (ss_unacked s), ss_outstanding s).

Lemma cancel_worker_counts id s : counts (cancel_worker id s) = counts s.
Proof. destruct (cancel_worker_frame id s) as (H1 & H2 & _ & _ & _ & _ & H3). unfold counts. congruence. Qed.

Lemma set_conn_counts i c s : counts (set_conn i c s) = counts s.
Proof. done. Qed.

Lemma jobs_cancel_counts i j s : counts (jobs_cancel i j s) = counts s.
Proof. unfold jobs_cancel. repeat case_match; try done. by rewrite cancel_worker_counts. Qed.

Lemma jobs_remove_counts i j s : counts (jobs_remove i j s) = counts s.
Proof. unfold jobs_remove. by case_match. Qed.

Lemma jobs_remove_workers i j s : ss_workers (jobs_remove i j s) = ss_workers s.
Proof. unfold jobs_remove. by case_match. Qed.

Lemma cancelAll_counts i c s : counts (cancelAll i c s) = counts s.
Proof.
  unfold cancelAll. rewrite set_conn_counts.
  apply (map_fold_weak_ind (λ s' _, counts s' = counts s)); [done|].
  intros. by rewrite cancel_worker_counts.
Qed.

Lemma set_phase_counts id w p s :
  ss_workers s !! id = Some w →
  holders (set_phase id w p s) + Nat.b2n (holding (wk_phase w)) = holders s + Nat.b2n (holding p).
Proof. intros E. unfold holders. simpl. by rewrite (holders_insert _ _ _ _ E). Qed.

(** ** What a step does to the slots *)

Inductive account (capacity : nat) (s s' : State) : Prop :=
  | account_same :                     (* nothing moves, or the slot passes from worker to result *)
      held s' = held s → ss_outstanding s' = ss_outstanding s → account capacity s s'
  | account_take :
      held s' = S (held s) → ss_outstanding s' = S (ss_outstanding s) →
      ss_outstanding s < capacity → account capacity s s'
  | account_free :
      held s = S (held s') → ss_outstanding s' = pred (ss_outstanding s) → account capacity s s'
  | account_lost id w r :              (* a result replaces one already retained *)
      ss_workers s !! id = Some w → wk_phase w = PAdd r → is_Some (ss_unacked s !! jr_JobId r) →
      held s = S (held s') → ss_outstanding s' = ss_outstanding s → account capacity s s'.

Lemma account_counts capacity s s' : counts s' = counts s → account capacity s s'.
Proof. unfold counts. intros [= E1 E2 E3]. apply account_same; unfold held; congruence. Qed.

Lemma settle_account capacity j s : account capacity s (settle j s).
Proof.
  unfold settle, unacked_has. case_bool_decide as E; [|by apply account_counts].
  apply account_free; [|done]. unfold held, holders. simpl.
  rewrite map_size_delete_Some by done.
  assert (size (ss_unacked s) ≠ 0); [|lia].
  intros Z. apply map_size_empty_inv in Z. rewrite Z in E. destruct E as [r E]. by rewrite lookup_empty in E.
Qed.

Lemma receive_account cfg capacity i c m s : account capacity s (receive cfg i c m s).
Proof.
  destruct m; simpl; try apply settle_account; try by apply account_counts.
  - apply account_counts. unfold dispatchAssignment. by repeat case_match.
  - apply account_counts. by case_match.
  - apply account_counts. by case_match.
Qed.

Lemma handler_account cfg capacity i c a s s' :
  (∀ id, ss_next s ≤ id → ss_workers s !! id = None) →
  handler cfg capacity i c a s = Some s' → account capacity s s'.
Proof.
  intros Hnext. unfold handler. destruct (cn_recv c) as [| |m next|j|job]; intros H; option_steps.
  - by apply account_counts.
  - apply account_counts. by rewrite jobs_cancel_counts.
  - unfold startJob, acquireSlot. case_match eqn:E; option_steps; [|by apply account_counts].
    bool_prop. apply account_take; [|done|done].
    unfold held, holders. simpl. rewrite holders_insert_new by (apply Hnext; lia). simpl. lia.
Qed.

(** A worker changing phase without touching the buffer or the slots. *)
Lemma phase_account capacity id w p s s' :
  ss_workers s !! id = Some w → holding p = holding (wk_phase w) →
  ss_workers s' = ss_workers s → ss_unacked s' = ss_unacked s → ss_outstanding s' = ss_outstanding s →
  account capacity s (set_phase id w p s').
Proof.
  intros Hw Hp E1 E2 E3. apply account_same; [|done].
  pose proof (set_phase_counts id w p s' ltac:(congruence)) as H. rewrite Hp in H.
  unfold held. simpl. rewrite E2. unfold holders in *. rewrite E1 in H. lia.
Qed.

Lemma worker_enqueue_account cfg capacity id w a m next s s' :
  ss_workers s !! id = Some w → holding next = holding (wk_phase w) →
  worker_enqueue cfg id w a m next s = Some s' → account capacity s s'.
Proof.
  intros Hw Hn. unfold worker_enqueue. intros H. option_steps. by apply phase_account.
Qed.

Lemma worker_step_account cfg capacity id w choice s s' :
  ss_workers s !! id = Some w →
  worker_step cfg id w choice s = Some s' → account capacity s s'.
Proof.
  intros Hw. unfold worker_step. destruct (wk_phase w) as [| | |r|r| |r|r|] eqn:P, choice as [|a|r'];
    intros H; try done; option_steps.
  1, 2, 8: (eapply worker_enqueue_account; [done| |done]; by rewrite P).
  - apply phase_account; try done. by rewrite P.
  - apply phase_account; try done. by rewrite P.
  - apply phase_account; try done. rewrite P. by case_match.
  - pose proof (set_phase_counts id w PRemove (releaseSlot s) Hw) as H. rewrite P in H. simpl in H.
    apply account_free; [|done]. unfold held. simpl. unfold holders in *. simpl in *. lia.
  - pose proof (set_phase_counts id w (PEnqueue r) (unacked_add r s) Hw) as H. rewrite P in H. simpl in H.
    destruct (ss_unacked s !! jr_JobId r) as [old|] eqn:O.
    + eapply account_lost; [done|done|by eexists| |done].
      unfold held. simpl. rewrite map_size_insert_Some by (by rewrite O).
      unfold holders in *. simpl in *. lia.
    + apply account_same; [|done]. unfold held. simpl. rewrite map_size_insert_None by done.
      unfold holders in *. simpl in *. lia.
  - apply account_counts. unfold counts, holders.
    pose proof (jobs_remove_counts (wk_conn w) (ja_JobId (wk_job w)) s) as [= E1 E2 E3].
    unfold holders in E1. simpl. rewrite jobs_remove_workers in *. rewrite <- E2, <- E3.
    rewrite (holders_delete (ss_workers s) id w) by done. rewrite P. done.
Qed.

Lemma watch_step_account cfg capacity i c choice s s' :
  watch_step cfg i c choice s = Some s' → account capacity s s'.
Proof.
  unfold watch_step. intros H. apply account_counts.
  destruct (cn_watch c), choice; option_steps; try done.
Qed.

(** Workers are numbered below [ss_next]. *)
Definition numbered (s : State) : Prop := ∀ id, ss_next s ≤ id → ss_workers s !! id = None.

Lemma perform_account cfg capacity l s s' :
  numbered s → perform cfg capacity l s = Some s' → account capacity s s'.
Proof.
  intros Hn. unfold perform, sender_run, resend_tick, resend_pending, resend_next, heartbeat_tick, fail, finish. destruct l; intros H;
    try (destruct (live s) as [[i c]|]; [|done]; simpl in H).
  - destruct (live s); option_steps. apply account_counts. unfold connect. by case_match.
  - destruct (cn_recv c); option_steps. apply receive_account.
  - by eapply handler_account.
  - destruct (ss_workers s !! id) eqn:E; [|done]. simpl in H. by eapply worker_step_account.
  - option_steps; by apply account_counts.
  - destruct (cn_resend c) as [[|? ?]|[|? ?]|]; option_steps; by apply account_counts.
  - destruct (cn_resend c) as [[|? ?]|[|? ?]|]; option_steps; by apply account_counts.
  - destruct (cn_resend c) as [[|? ?]|[|? ?]|]; option_steps; by apply account_counts.
  - option_steps; by apply account_counts.
  - by eapply watch_step_account.
  - destruct recv; [destruct (cn_recv c) eqn:?|]; option_steps; by apply account_counts.
  - destruct (cn_recv c); option_steps; apply account_counts; by rewrite cancelAll_counts.
Qed.
