(* ===== verification/SessionSafety.v ===== *)
(** * What the session guarantees in every reachable state

    The invariant of the session, preserved by every step, and the safety theorems read off it: the
    bound on outstanding work, who may execute, drain, retention of results and the order of
    cancellation answers. *)

From S2P Require Import Prelude GoString GoTime Wire Session SessionSteps SessionSlots.
From stdpp Require Import options.

(** ** The invariant *)

(** The result a worker has in hand. *)
Definition phase_result (p : Phase) : option JobResult :=
  match p with PClear r | PDecide r | PAdd r | PEnqueue r => Some r | _ => None end.

(** The worker has decided to deliver this result. *)
Definition delivering (p : Phase) : option JobResult :=
  match p with PAdd r | PEnqueue r => Some r | _ => None end.

Record conn_ok (cfg : Config) (c : Conn) : Prop := {
  co_ended : cn_ended c = true → cn_done c = true;
  co_admit job : cn_recv c = RAdmit job → admissible cfg job ∧ cn_draining c = false;
  co_deadline : is_Some (cn_deadline c) → cn_draining c = true;
  co_sent : cn_sent c ≤ length (cn_history c);
  co_queue : length (queue c) ≤ OutboundBuffer cfg;
  co_next m j : cn_recv c = REnqueue m (Some j) → is_cancel_ack j m;
  co_cancel j : cn_recv c = RCancel j → cancel_recorded j c;
  co_explicit j : j ∈ cn_explicit c → cancel_recorded j c;
  co_waiting : cn_draining c = true → cn_watch c = WWaiting → is_Some (cn_deadline c);
  co_watched : cn_watch c = WDone → cn_done c = true;
  co_sending : cn_sending c = false → cn_done c = true;
  co_resending : cn_resend c = RsLeft → cn_done c = true;
}.

Record worker_ok (cfg : Config) (s : State) (w : Worker) : Prop := {
  wo_admissible : admissible cfg (wk_job w);
  wo_echoes r : phase_result (wk_phase w) = Some r → echoes_job (wk_job w) r = true;
  wo_cancelled r : delivering (wk_phase w) = Some r → isCancelled r = true →
    ∃ c, ss_conns s !! wk_conn w = Some c ∧ cancel_recorded (ja_JobId (wk_job w)) c;
}.

Record session_ok (cfg : Config) (s : State) : Prop := {
  so_conns i : is_Some (ss_conns s !! i) ↔ i < ss_generations s;
  so_old i c : ss_conns s !! i = Some c → S i < ss_generations s → cn_ended c = true;
  so_conn i c : ss_conns s !! i = Some c → conn_ok cfg c;
  so_numbered : numbered s;
  so_worker id w : ss_workers s !! id = Some w → worker_ok cfg s w;
}.

Lemma cancel_recorded_evolves cfg j c c' :
  evolves cfg c c' → cancel_recorded j c → cancel_recorded j c'.
Proof.
  intros He [(m & Hm & Ha) | Hd]; [left|right; by eapply ev_done].
  exists m. split; [|done].
  destruct (ev_history _ _ _ He) as [-> | (x & -> & _)]; [done|]. set_solver.
Qed.

Lemma evolves_queue cfg c c' :
  evolves cfg c c' → cn_sent c ≤ length (cn_history c) → length (queue c) ≤ OutboundBuffer cfg →
  cn_sent c' ≤ length (cn_history c') ∧ length (queue c') ≤ OutboundBuffer cfg.
Proof.
  unfold queue. intros He Hs Hq. rewrite length_drop in *.
  destruct (ev_history _ _ _ He) as [Hh | (m & Hh & Hm & Hr)];
    destruct (ev_sent _ _ _ He) as [Ht | [Ht Hl]]; rewrite Hh, Ht, ?length_app in *; simpl in *;
    unfold queue in *; rewrite ?length_drop in *; lia.
Qed.

Lemma evolves_ok cfg c c' : evolves cfg c c' → conn_ok cfg c → conn_ok cfg c'.
Proof.
  intros He Hc. pose proof (evolves_queue _ _ _ He (co_sent _ _ Hc) (co_queue _ _ Hc)) as [Hs Hq].
  pose proof (λ j, cancel_recorded_evolves _ j _ _ He) as Hrec.
  split; try done.
  - intros E. eapply ev_done; [done|].
    destruct (ev_ended _ _ _ He E); [by apply (co_ended _ _ Hc)|done].
  - intros job E. destruct (ev_admit _ _ _ He job E) as [E' | (_ & Hd & Ha)]; [|done].
    destruct (co_admit _ _ Hc job E') as [Ha Hd]. split; [done|].
    destruct (cn_draining c') eqn:D; [|done].
    destruct (ev_drained _ _ _ He D) as [Hd' | [Hr | Hd']]; [congruence|congruence|].
    apply (co_deadline _ _ Hc) in Hd'. congruence.
  - intros E. destruct (ev_deadline _ _ _ He E) as [E' | E']; [|done].
    by apply (ev_draining _ _ _ He), (co_deadline _ _ Hc).
  - intros m j E. destruct (ev_next _ _ _ He m j E) as [E' | E']; [by eapply co_next|done].
  - intros j E. destruct (ev_cancel _ _ _ He j E) as [E' | (m & E' & [Hm | Hd])].
    + by apply Hrec, (co_cancel _ _ Hc).
    + left. exists m. split; [done|]. by eapply co_next.
    + right. by eapply ev_done.
  - intros j E. apply Hrec. destruct (ev_explicit _ _ _ He j E) as [E' | E'];
      [by apply (co_explicit _ _ Hc)|by apply (co_cancel _ _ Hc)].
  - intros D Hw. destruct (ev_waiting _ _ _ He D Hw) as [?|(? & ? & ->)]; [done|]. by apply (co_waiting _ _ Hc).
  - intros Hw. destruct (ev_watched _ _ _ He Hw) as [?%(co_watched _ _ Hc)|?]; [|done]. by eapply ev_done.
  - intros Hw. destruct (ev_sending _ _ _ He Hw) as [?%(co_sending _ _ Hc)|?]; [|done]. by eapply ev_done.
  - intros Hw. destruct (ev_resending _ _ _ He Hw) as [?%(co_resending _ _ Hc)|?]; [|done]. by eapply ev_done.
Qed.

Lemma newConn_ok cfg hello : conn_ok cfg (newConn hello).
Proof. split; simpl; try done; lia. Qed.

(** The connections of [s'] carry over what those of [s] recorded. *)
Definition records_kept (s s' : State) : Prop :=
  ∀ i c j, ss_conns s !! i = Some c → cancel_recorded j c →
    ∃ c', ss_conns s' !! i = Some c' ∧ cancel_recorded j c'.

Lemma moves_ok cfg s s' w w' :
  session_ok cfg s → records_kept s s' → worker_ok cfg s w →
  wk_conn w' = wk_conn w → wk_job w' = wk_job w →
  wk_phase w' = wk_phase w ∨ moves s w (wk_phase w') → worker_ok cfg s' w'.
Proof.
  intros Hok Hk [Wa We Wc] E1 E2 Hm.
  assert (Hkeep : ∀ r, delivering (wk_phase w) = Some r → isCancelled r = true →
    ∃ c, ss_conns s' !! wk_conn w = Some c ∧ cancel_recorded (ja_JobId (wk_job w)) c).
  { intros r H1 H2. destruct (Wc r H1 H2) as (c & Hc & Hr). by eapply Hk. }
  split; rewrite ?E1, ?E2; [done| |]; revert Hm; generalize (wk_phase w') as p;
    intros p [-> | Hm]; [by apply We| |by apply Hkeep|]; intros r Hr;
    destruct Hm as [|P|r' P HE|r' P|r' P HI|r' c P Hc HI|P|r' P|r' P]; simplify_eq/=; try done.
  - apply We. by rewrite P.
  - apply We. by rewrite P.
  - apply We. by rewrite P.
  - intros HC. eapply Hk; [done|]. by apply (co_explicit cfg); [eapply so_conn|apply HI].
  - intros HC. by eapply Hkeep; [rewrite P|].
Qed.

Lemma tracks_records cfg s s' : tracks cfg s s' → records_kept s s'.
Proof.
  intros [Ht _] i c j Hc Hr. specialize (Ht i). rewrite Hc in Ht. inversion Ht; subst.
  eexists. split; [done|]. by eapply cancel_recorded_evolves.
Qed.

Lemma connect_records cfg hello s s' :
  session_ok cfg s → ss_conns s' = <[ss_generations s := newConn hello]> (ss_conns s) → records_kept s s'.
Proof.
  intros Hok E i c j Hc Hr. exists c. split; [|done]. rewrite E, lookup_insert_ne; [done|].
  assert (i < ss_generations s); [|lia]. apply (so_conns _ _ Hok). by eexists.
Qed.

(** Workers stay sound when those of [s'] descend from those of [s]. *)
Lemma descends_ok cfg s s' :
  session_ok cfg s → descends s s' → records_kept s s' →
  ∀ id w, ss_workers s' !! id = Some w → worker_ok cfg s' w.
Proof.
  intros Hok Hd Hk id w' Hw'. destruct (Hd _ _ Hw') as
    [(w & Hw & E1 & E2 & Hm) | (-> & _ & Hp & c & (-> & Hc & _)%live_Some & Hr)].
  - eapply moves_ok; try done. by eapply so_worker.
  - split; try (rewrite Hp; done). eapply co_admit; [by eapply so_conn|done].
Qed.

Lemma descends_numbered s s' :
  numbered s → ss_next s ≤ ss_next s' → descends s s' → numbered s'.
Proof.
  intros Hn Hle Hd id Hid. destruct (ss_workers s' !! id) as [w'|] eqn:E; [|done].
  destruct (Hd _ _ E) as [(w & Hw & _) | (-> & Hs & _)]; [|lia].
  rewrite Hn in Hw; [done|lia].
Qed.

Lemma cancelAll_next i c s : ss_next (cancelAll i c s) = ss_next s.
Proof.
  unfold cancelAll. simpl. apply (map_fold_weak_ind (λ s' _, ss_next s' = ss_next s)); [done|].
  intros k id m s' _ <-. unfold cancel_worker. by case_match.
Qed.

(** A worker is started only by a receive loop about to admit. *)
Lemma perform_next cfg capacity l s s' :
  perform cfg capacity l s = Some s' →
  ss_next s' = ss_next s
  ∨ (ss_next s' = S (ss_next s) ∧ ∃ i c job, live s = Some (i, c) ∧ cn_recv c = RAdmit job).
Proof.
  unfold perform, sender_run, resend_tick, resend_pending, resend_next, heartbeat_tick, fail, finish. destruct l; intros H;
    try (destruct (live s) as [[i c]|] eqn:L; [|done]; simpl in H).
  - destruct (live s); option_steps. left. unfold connect. by case_match.
  - destruct (cn_recv c) eqn:R; option_steps. left.
    destruct m; simpl; repeat case_match; try done; unfold dispatchAssignment, settle; by repeat case_match.
  - unfold handler in H. destruct (cn_recv c) eqn:R; option_steps; [by left| |].
    + left. unfold jobs_cancel, cancel_worker. simpl. by repeat case_match.
    + unfold startJob, acquireSlot. case_match; option_steps; [right|by left].
      split; [done|]. by eexists _, _, _.
  - left. destruct (ss_workers s !! id) eqn:E; [|done]. simpl in H.
    unfold worker_step, worker_enqueue in H. destruct (wk_phase w), choice; option_steps; try done.
    unfold jobs_remove. by case_match.
  - by option_steps; left.
  - by destruct (cn_resend c) as [[|? ?]|[|? ?]|]; option_steps; left.
  - by destruct (cn_resend c) as [[|? ?]|[|? ?]|]; option_steps; left.
  - by destruct (cn_resend c) as [[|? ?]|[|? ?]|]; option_steps; left.
  - by option_steps; left.
  - left. unfold watch_step in H. destruct (cn_watch c), choice; by option_steps.
  - by destruct recv; [destruct (cn_recv c)|]; option_steps; left.
  - destruct (cn_recv c) eqn:R; option_steps; left; exact (cancelAll_next i (with_end true true c) s).
Qed.

Lemma perform_ok cfg capacity l s s' :
  session_ok cfg s → perform cfg capacity l s = Some s' → session_ok cfg s'.
Proof.
  intros Hok H. pose proof (perform_descends _ _ _ _ _ H) as Hd.
  assert (Hn : numbered s').
  { eapply descends_numbered; [by eapply so_numbered| |done].
    destruct (perform_next _ _ _ _ _ H) as [-> | [-> _]]; lia. }
  destruct (perform_tracks _ _ _ _ _ H) as [Ht | (Hl & Hg & Hw & _ & Hc)].
  - pose proof (tracks_records _ _ _ Ht) as Hk. destruct Ht as [Ht Hg]. split.
    + intros i. rewrite Hg, <- (so_conns _ _ Hok). specialize (Ht i). inversion Ht; naive_solver.
    + intros i c' Hc' Hlt. rewrite Hg in Hlt. specialize (Ht i). rewrite Hc' in Ht. inversion Ht as [c ? He E|]; subst.
      eapply ev_stays_ended; [done|]. by eapply so_old.
    + intros i c' Hc'. specialize (Ht i). rewrite Hc' in Ht. inversion Ht as [c ? He E|]; subst.
      eapply evolves_ok; [done|]. by eapply so_conn.
    + done.
    + by eapply descends_ok.
  - pose proof (connect_records _ _ _ _ Hok Hc) as Hk. split.
    + intros i. rewrite Hg, Hc, lookup_insert_is_Some, (so_conns _ _ Hok). lia.
    + intros i c. rewrite Hc, Hg. intros [[<- <-] | [Hne Hi]]%lookup_insert_Some Hlt; [lia|].
      destruct (decide (S i < ss_generations s)) as [|Hge]; [by eapply so_old|].
      unfold live in Hl. replace i with (pred (ss_generations s)) in Hi by lia. rewrite Hi in Hl.
      simpl in Hl. by destruct (cn_ended c).
    + intros i c. rewrite Hc. intros [[<- <-] | [Hne Hi]]%lookup_insert_Some; [apply newConn_ok|].
      by eapply so_conn.
    + done.
    + by eapply descends_ok.
Qed.

Lemma initial_ok cfg : session_ok cfg initial.
Proof. split; try done. intros i. simpl. rewrite lookup_empty. split; [by intros [? [=]]|lia]. Qed.

Lemma reachable_ok config s : reachable config s → session_ok (New config).1 s.
Proof. induction 1; [apply initial_ok|]. by eapply perform_ok. Qed.

(** ** Outstanding work *)

Lemma account_bound capacity s s' :
  account capacity s s' → held s ≤ ss_outstanding s ≤ capacity →
  held s' ≤ ss_outstanding s' ≤ capacity
  ∧ ss_outstanding s - held s ≤ ss_outstanding s' - held s'.
Proof. intros [] ?; lia. Qed.

Lemma reachable_slots config s :
  reachable config s → held s ≤ ss_outstanding s ≤ (New config).2.
Proof.
  induction 1 as [|s l s' Hr IH H].
  - unfold held, holders. simpl. rewrite map_filter_empty, !map_size_empty. lia.
  - eapply account_bound; [|done]. eapply perform_account; [|done].
    by eapply so_numbered, reachable_ok.
Qed.

(** C10: whatever the control plane sends and however workers, sender and reconnects interleave, the jobs
    being worked on and the results awaiting acknowledgement never together exceed the slots taken, and
    those never exceed the advertised concurrency, which is at least one. *)
Theorem outstanding_bounded config s :
  reachable config s →
  holders s + size (ss_unacked s) ≤ ss_outstanding s
  ∧ (Z.of_nat (ss_outstanding s) ≤ MaxConcurrentJobs (New config).1)%Z
  ∧ (1 ≤ MaxConcurrentJobs (New config).1)%Z.
Proof.
  intros [H1 H2]%reachable_slots. split; [done|].
  unfold New in *. destruct (MaxConcurrentJobs config <? 1)%Z eqn:E; simpl in *; bool_prop; lia.
Qed.

(** a slot that no worker and no retained result accounts for is never recovered: no step of the
    session makes the difference smaller. *)
Theorem lost_slots_stay_lost config s l s' :
  reachable config s → perform (New config).1 (New config).2 l s = Some s' →
  ss_outstanding s - held s ≤ ss_outstanding s' - held s'.
Proof.
  intros Hr H. eapply account_bound; [|by apply reachable_slots].
  eapply perform_account; [|done]. by eapply so_numbered, reachable_ok.
Qed.

(** ** Who executes *)

(** C13: every job a worker has in hand was addressed to this relay's own organisation and registration
    and names a capability at a version the relay advertised, and any result in the worker's hands is
    for that job under its lease epoch; there is no other way to start a worker. *)
Theorem workers_admissible config s id w :
  reachable config s → ss_workers s !! id = Some w →
  let cfg := (New config).1 in
  let job := wk_job w in
  ja_OrgId job = OrgID cfg ∧ ja_RegistrationId job = RegistrationID cfg
  ∧ (∃ d, d ∈ Capabilities cfg ∧ CapabilityId d = ja_CapabilityId job
          ∧ CapabilityVersion d = ja_CapabilityVersion job)
  ∧ (∀ r, phase_result (wk_phase w) = Some r →
      jr_JobId r = ja_JobId job ∧ jr_LeaseEpoch r = ja_LeaseEpoch job).
Proof.
  intros Hr Hw. cbv zeta. apply reachable_ok in Hr. destruct (so_worker _ _ Hr _ _ Hw) as [(H1 & H2 & H3) He _].
  repeat split; try done.
  - unfold supportsAssignment in H3. apply existsb_exists in H3 as (d & Hd & E). bool_prop.
    exists d. split; [by apply list_elem_of_In|]. auto.
  - apply He in H. unfold echoes_job in H. by bool_prop.
  - apply He in H. unfold echoes_job in H. by bool_prop.
Qed.

(** ** Cancellation *)

(** C14: a worker about to retain or send a cancelled result, whose connection is still up, has a
    CancelAck for its job ahead of it in that connection's outbound sequence: the acknowledgement of a
    cancellation precedes the result it caused, and a job cut off by anything but an explicit
    cancellation reports nothing. *)
Theorem cancel_ack_precedes_result config s id w r c :
  reachable config s → ss_workers s !! id = Some w →
  wk_phase w = PAdd r ∨ wk_phase w = PEnqueue r → isCancelled r = true →
  ss_conns s !! wk_conn w = Some c → cn_done c = false →
  ∃ k e d, cn_history c !! k = Some (R_CancelAck (jr_JobId r) e d)
           ∧ k < length (cn_history c).
Proof.
  intros Hr Hw Hp HC Hc Hd. apply reachable_ok in Hr. pose proof (so_worker _ _ Hr _ _ Hw) as Ho.
  assert (Hj : jr_JobId r = ja_JobId (wk_job w)).
  { pose proof (wo_echoes _ _ _ Ho r) as E. destruct Hp as [P | P]; rewrite P in E;
      specialize (E eq_refl); unfold echoes_job in E; by bool_prop. }
  destruct (wo_cancelled _ _ _ Ho r) as (c' & Hc' & [(m & Hm & e & d & ->) | Hx]); [| |simplify_eq..].
  - destruct Hp as [P | P]; by rewrite P.
  - done.
  - apply list_elem_of_lookup in Hm as [k Hk]. exists k, e, d. rewrite Hj. split; [done|].
    by eapply lookup_lt_Some.
  - congruence.
Qed.

(** ** Drain *)

(** from the moment a connection has been told to drain it admits nothing: no step of the session
    starts a worker while the live connection is draining, and a draining connection stays so. *)
Theorem drain_admits_nothing config s i c l s' :
  reachable config s → live s = Some (i, c) → cn_draining c = true →
  perform (New config).1 (New config).2 l s = Some s' →
  ss_next s' = ss_next s ∧ (∀ id, is_Some (ss_workers s' !! id) → is_Some (ss_workers s !! id))
  ∧ ∃ c', ss_conns s' !! i = Some c' ∧ cn_draining c' = true.
Proof.
  intros Hr Hl Hd H. apply reachable_ok in Hr. pose proof (live_Some _ _ _ Hl) as (Hi & Hc & _).
  assert (Hno : ∀ job, cn_recv c ≠ RAdmit job).
  { intros job E. apply (co_admit _ _ (so_conn _ _ Hr _ _ Hc)) in E as [_ E]. congruence. }
  split; [|split].
  - destruct (perform_next _ _ _ _ _ H) as [E | (_ & k & x & job & Hl' & Hx)]; [done|].
    rewrite Hl in Hl'. simplify_eq. by destruct (Hno job).
  - intros id [w' Hw']. destruct (perform_descends _ _ _ _ _ H _ _ Hw') as
      [(w & -> & _) | (_ & _ & _ & x & Hl' & Hx)]; [by eexists|].
    rewrite Hl in Hl'. simplify_eq. by edestruct Hno.
  - destruct (perform_tracks _ _ _ _ _ H) as [[Ht _] | (Hn & _)]; [|congruence].
    specialize (Ht i). rewrite Hc in Ht. inversion Ht as [? c' He E|]; subst.
    exists c'. split; [done|]. by eapply ev_draining.
Qed.

(** ** Retention *)

(** C11: a retained result leaves the buffer only by the control plane's acknowledgement of that job; the
    one other thing that can happen to it is being replaced by a newer result for the same job. No
    reconnect, cancellation, drain or failure touches it. *)
Theorem result_retained cfg capacity s l s' j r :
  ss_unacked s !! j = Some r → perform cfg capacity l s = Some s' →
  ss_unacked s' !! j = Some r
  ∨ (∃ epoch d, l = LReceive (C_ResultAck j epoch d))
  ∨ ∃ id w r', l = LWorker id Proceed ∧ ss_workers s !! id = Some w ∧ wk_phase w = PAdd r'
      ∧ jr_JobId r' = j ∧ ss_unacked s' !! j = Some r'.
Proof.
  intros Hj. unfold perform, sender_run, resend_tick, resend_pending, resend_next, heartbeat_tick, fail, finish. destruct l; intros H;
    try (destruct (live s) as [[i c]|] eqn:L; [|done]; simpl in H).
  - left. destruct (live s); option_steps. unfold connect. by case_match.
  - destruct (cn_recv c) eqn:R; option_steps.
    destruct m as [ |job| |j' e d| | | | | | |]; simpl; try (left; by repeat case_match).
    + left. unfold dispatchAssignment. by repeat case_match.
    + destruct (decide (j' = j)) as [-> | Hne]; [eauto|left]. unfold settle. case_match; [|done].
      simpl. by rewrite lookup_delete_ne.
  - left. unfold handler in H. destruct (cn_recv c) eqn:R; option_steps; [done| |].
    + unfold jobs_cancel, cancel_worker. simpl. by repeat case_match.
    + unfold startJob, acquireSlot. by case_match; option_steps.
  - destruct (ss_workers s !! id) as [w|] eqn:E; [|done]. simpl in H.
    unfold worker_step, worker_enqueue in H. destruct (wk_phase w) eqn:P, choice; option_steps;
      try (left; done).
    + destruct (decide (jr_JobId r0 = j)) as [<- | Hne].
      * right. right. exists id, w, r0. repeat split; try done. simpl. by rewrite lookup_insert_eq.
      * left. simpl. by rewrite lookup_insert_ne.
    + left. unfold jobs_remove. simpl. by case_match.
  - by option_steps; left.
  - by destruct (cn_resend c) as [[|? ?]|[|? ?]|]; option_steps; left.
  - by destruct (cn_resend c) as [[|? ?]|[|? ?]|]; option_steps; left.
  - by destruct (cn_resend c) as [[|? ?]|[|? ?]|]; option_steps; left.
  - by option_steps; left.
  - left. unfold watch_step in H. destruct (cn_watch c), choice; by option_steps.
  - by destruct recv; [destruct (cn_recv c)|]; option_steps; left.
  - destruct (cn_recv c) eqn:R; option_steps; left;
      exact (eq_trans (f_equal (.!! j) (cancelAll_unacked i (with_end true true c) s)) Hj).
Qed.

(** ** Concrete runs *)

Lemma run_labels_reachable config ls s s' :
  reachable config s → run_labels (New config).1 (New config).2 ls s = Some s' → reachable config s'.
Proof.
  revert s. induction ls as [|l ls IH]; intros s Hr H; simpl in H; [by simplify_eq|].
  destruct (perform _ _ l s) as [s1|] eqn:E; [|done]. simpl in H.
  eapply IH; [|done]. by eapply reachable_step.
Qed.

Definition sample_config : Config :=
  {| OrgID := "org"; RegistrationID := "reg";
     Capabilities := [{| CapabilityId := "logs"; CapabilityVersion := 1 |}]; MaxConcurrentJobs := 2;
     RelayVersion := "v1"; ClusterFingerprint := "fp"; LocalPolicyHash := ""; OutboundBuffer := 8;
     HasInventory := false |}.

Definition sample_job : JobAssignment :=
  {| ja_JobId := "j1"; ja_OrgId := "org"; ja_RegistrationId := "reg"; ja_LeaseEpoch := 7;
     ja_CapabilityId := "logs"; ja_CapabilityVersion := 1; ja_DeadlineBudget := None; ja_IdempotencyKey := ""; ja_CorrelationId := "";
     ja_Arguments := None |}.

Definition sample_result : JobResult := typed_refusal "j1" 7 KIND_ARGUMENTS_REJECTED.
Definition sample_cancelled : JobResult := typed_refusal "j1" 7 KIND_CANCELLED.

(** Connect, and admit [sample_job]; the new worker is number [n]. *)
Definition sample_admit : list label := [LReceive (C_JobAssignment sample_job); LHandler true].
Definition sample_start (n : nat) : list label :=
  [LWorker n (Enqueued true); LWorker n (Enqueued true)].
Definition sample_retain (n : nat) (r : JobResult) : list label :=
  [LWorker n (Executed r); LWorker n Proceed; LWorker n Proceed; LWorker n Proceed].
Definition sample_leave (n : nat) : list label := [LWorker n (Enqueued true); LWorker n Proceed].

Definition sample_accepted : ControlToRelay :=
  C_SessionAccepted {| sa_SessionId := "s"; sa_ProtocolVersion := 1; sa_HeartbeatInterval := None;
                       sa_MaxReceiveBytes := 0; sa_MaxSendBytes := 0 |}.

Definition sample_running : list label :=
  LConnect sample_accepted :: sample_admit ++ sample_start 0.

Definition sample_run (ls : list label) : State :=
  default initial (run_labels (New sample_config).1 (New sample_config).2 ls initial).

Lemma sample_reachable ls :
  is_Some (run_labels (New sample_config).1 (New sample_config).2 ls initial) →
  reachable sample_config (sample_run ls).
Proof.
  intros [s' H]. unfold sample_run. rewrite H. eapply run_labels_reachable; [|done].
  apply reachable_initial.
Qed.

(** ** Witnesses *)

Lemma outstanding_bounded_witness :
  let s := sample_run sample_running in
  ss_outstanding s = 1 ∧ holders s + size (ss_unacked s) ≤ ss_outstanding s.
Proof.
  split; [by vm_compute|].
  apply (outstanding_bounded sample_config). apply sample_reachable. vm_compute. by eexists.
Defined.

Lemma lost_slots_stay_lost_witness :
  let s := sample_run sample_running in
  ∃ s', perform (New sample_config).1 (New sample_config).2 (LSend true) s = Some s'
        ∧ ss_outstanding s - held s ≤ ss_outstanding s' - held s'.
Proof.
  eexists. split; [by vm_compute|].
  apply (lost_slots_stay_lost sample_config _ (LSend true)); [|by vm_compute].
  apply sample_reachable. vm_compute. by eexists.
Defined.

Lemma workers_admissible_witness :
  let s := sample_run sample_running in
  ∃ w, ss_workers s !! 0 = Some w ∧ ja_OrgId (wk_job w) = OrgID (New sample_config).1.
Proof.
  eexists. split; [by vm_compute|].
  eapply (workers_admissible sample_config (sample_run sample_running) 0); [|by vm_compute].
  apply sample_reachable. vm_compute. by eexists.
Defined.

(** An explicit cancellation of a running job, and the result it produces. *)
Definition sample_cancel : list label :=
  [LReceive (C_Cancellation "j1" 7); LHandler true; LHandler true] ++ sample_retain 0 sample_cancelled.

Lemma cancel_ack_precedes_result_witness :
  ∃ c k e d, ss_conns (sample_run (sample_running ++ sample_cancel)) !! 0 = Some c
             ∧ cn_history c !! k = Some (R_CancelAck (jr_JobId sample_cancelled) e d)
             ∧ k < length (cn_history c).
Proof.
  set (s := sample_run (sample_running ++ sample_cancel)).
  assert (Hc : is_Some (ss_conns s !! 0)) by (vm_compute; by eexists).
  destruct Hc as [c Hc]. exists c.
  assert (Hw : is_Some (ss_workers s !! 0)) by (vm_compute; by eexists).
  destruct Hw as [w Hw].
  destruct (cancel_ack_precedes_result sample_config s 0 w sample_cancelled c) as (k & e & d & H1 & H2).
  - apply sample_reachable. vm_compute. by eexists.
  - done.
  - right. vm_compute in Hw. by simplify_eq.
  - by vm_compute.
  - vm_compute in Hw. by simplify_eq.
  - vm_compute in Hc. by simplify_eq.
  - by exists k, e, d.
Defined.

Definition sample_drain : list label := [LReceive (C_DrainInstruction (Some 5%Z))].

Lemma drain_admits_nothing_witness :
  let s := sample_run (sample_running ++ sample_drain) in
  ∃ i c s', live s = Some (i, c)
    ∧ perform (New sample_config).1 (New sample_config).2 (LReceive (C_JobAssignment sample_job)) s = Some s'
    ∧ ss_next s' = ss_next s.
Proof.
  intros s. eexists _, _, _. split; [by vm_compute|]. split; [by vm_compute|].
  eapply (drain_admits_nothing sample_config s _ _ (LReceive (C_JobAssignment sample_job)));
    [|by vm_compute|by vm_compute|by vm_compute].
  apply sample_reachable. vm_compute. by eexists.
Defined.

Lemma result_retained_witness :
  let s := sample_run (sample_running ++ sample_retain 0 sample_result) in
  ∃ s', perform (New sample_config).1 (New sample_config).2 (LFail false) s = Some s'
        ∧ ss_unacked s' !! "j1" = Some sample_result.
Proof.
  intros s. eexists. split; [by vm_compute|].
  destruct (result_retained (New sample_config).1 (New sample_config).2 s (LFail false) _ "j1" sample_result
    ltac:(by vm_compute) ltac:(by vm_compute)) as [H | [H | (id & w & r' & H & _)]]; [exact H|done|done].
Defined.
