(* ===== verification/SessionExact.v ===== *)
(** * Before the first reconnect, the books are exact

    While a session has had a single connection, every slot taken is a job in hand or a retained result,
    no job has two workers, no job in hand has a retained result, and the in-flight roster lists exactly
    the jobs still executing. A reconnect ends this: the registry of the new connection does not know the
    workers of the old one. [slot_leak_trace] shows the slot that is then lost. *)

From S2P Require Import Prelude GoString GoTime Wire Session SessionSteps SessionSlots SessionSafety.
From stdpp Require Import options.

(** ** The invariant, on the parts of the state it reads *)

Definition executing (p : Phase) : bool :=
  match p with PAck | PStarted | PExecute | PClear _ => true | _ => false end.

Definition jobs_of (s : State) : gmap nat (JobAssignment * Phase) :=
  (λ w, (wk_job w, wk_phase w)) <$> ss_workers s.

Record exact_on (ws : gmap nat (JobAssignment * Phase)) (u : gmap string JobResult)
    (f : gmap string Z) (oc : option Conn) : Prop := {
  ex_none : oc = None → ws = ∅;
  ex_registered c id job p : oc = Some c → cn_ended c = false → ws !! id = Some (job, p) →
    cn_cancels c !! ja_JobId job = Some id;
  ex_unique id1 id2 job1 job2 p1 p2 : ws !! id1 = Some (job1, p1) → ws !! id2 = Some (job2, p2) →
    ja_JobId job1 = ja_JobId job2 → id1 = id2;
  ex_fresh id job p : ws !! id = Some (job, p) → holding p = true → u !! ja_JobId job = None;
  ex_admit c job : oc = Some c → cn_recv c = RAdmit job →
    u !! ja_JobId job = None ∧ ∀ id job' p, ws !! id = Some (job', p) → ja_JobId job' ≠ ja_JobId job;
  ex_roster j e : f !! j = Some e ↔
    ∃ id job p, ws !! id = Some (job, p) ∧ ja_JobId job = j ∧ ja_LeaseEpoch job = e ∧ executing p = true;
}.

Definition exact (s : State) : Prop :=
  exact_on (jobs_of s) (ss_unacked s) (ss_inFlight s) (ss_conns s !! 0).

Section exact_on.
Context {ws : gmap nat (JobAssignment * Phase)} {u : gmap string JobResult} {f : gmap string Z}.

Lemma exact_conn c c' :
  exact_on ws u f (Some c) →
  (∀ job, cn_recv c' = RAdmit job → cn_recv c = RAdmit job) →
  (cn_ended c' = false → cn_ended c = false ∧ cn_cancels c' = cn_cancels c) →
  exact_on ws u f (Some c').
Proof.
  intros [H1 H2 H3 H4 H5 H6] Hr He. split; try done.
  - intros ? id job p [= <-] E Hw. apply He in E as [E1 E2]. rewrite E2. by eapply H2.
  - intros ? job [= <-] E. eapply H5; [done|]. by apply Hr.
Qed.

Lemma exact_dispatch c job :
  exact_on ws u f (Some c) → cn_ended c = false →
  cn_cancels c !! ja_JobId job = None → u !! ja_JobId job = None →
  exact_on ws u f (Some (with_recv (RAdmit job) c)).
Proof.
  intros [H1 H2 H3 H4 H5 H6] He Hc Hu. split; try done.
  - intros ? id job' p [= <-]. simpl. by apply H2.
  - intros ? job' [= <-]. simpl. intros [= <-]. split; [done|].
    intros id job' p Hw E. eapply H2 in Hw; [|done|done]. congruence.
Qed.

Lemma exact_settle oc j : exact_on ws u f oc → exact_on ws (delete j u) f oc.
Proof.
  intros [H1 H2 H3 H4 H5 H6]. split; try done.
  - intros id job p Hw Hp. apply lookup_delete_None. right. by eapply H4.
  - intros c job E1 E2. destruct (H5 _ _ E1 E2). split; [|done]. apply lookup_delete_None. by right.
Qed.

Lemma exact_admit n c job :
  exact_on ws u f (Some c) → cn_recv c = RAdmit job → ws !! n = None →
  exact_on (<[n := (job, PAck)]> ws) u (<[ja_JobId job := ja_LeaseEpoch job]> f)
    (Some (with_recv RIdle (jobs_add (ja_JobId job) n c))).
Proof.
  intros [H1 H2 H3 H4 H5 H6] Hr Hn. destruct (H5 _ _ eq_refl Hr) as [Hu Hw]. split; try done.
  - intros ? id job' p [= <-] He. simpl. intros [[<- [= <- <-]] | [Hne Hid]]%lookup_insert_Some.
    + by rewrite lookup_insert_eq.
    + rewrite lookup_insert_ne; [by eapply H2|]. intros E. by eapply Hw.
  - intros id1 id2 job1 job2 p1 p2 [[<- [= <- <-]] | [Hn1 E1]]%lookup_insert_Some
      [[<- [= <- <-]] | [Hn2 E2]]%lookup_insert_Some E; try done.
    + by destruct (Hw _ _ _ E2).
    + by destruct (Hw _ _ _ E1).
    + by eapply H3.
  - intros id job' p [[<- [= <- <-]] | [Hne Hid]]%lookup_insert_Some Hp; [done|by eapply H4].
  - by intros ? job' [= <-].
  - intros j e. rewrite lookup_insert_Some, H6. split.
    + intros [[<- <-] | [Hne (id & job' & p & Hid & E)]].
      * exists n, job, PAck. by rewrite lookup_insert_eq.
      * exists id, job', p. rewrite lookup_insert_ne by congruence. done.
    + intros (id & job' & p & [[<- [= <- <-]] | [Hne Hid]]%lookup_insert_Some & E1 & E2 & E3); [auto|].
      right. split; [|by exists id, job', p]. intros E. eapply Hw; [done|congruence].
Qed.

(** A worker moves on, leaving the roster and the buffer alone. *)
Lemma exact_phase oc id job p p' :
  exact_on ws u f oc → ws !! id = Some (job, p) →
  (holding p' = true → holding p = true) → executing p' = executing p →
  exact_on (<[id := (job, p')]> ws) u f oc.
Proof.
  intros [H1 H2 H3 H4 H5 H6] Hw Hh He.
  assert (Hback : ∀ k job' q, <[id := (job, p')]> ws !! k = Some (job', q) →
    ∃ q', ws !! k = Some (job', q') ∧ (holding q = true → holding q' = true) ∧ executing q = executing q').
  { intros k job' q [[<- [= <- <-]] | [Hne Hk]]%lookup_insert_Some; eauto. }
  split.
  - intros E. apply H1 in E. subst. by rewrite lookup_empty in Hw.
  - intros c k job' q E1 E2 (q' & Hk & _)%Hback. by eapply H2.
  - intros k1 k2 j1 j2 q1 q2 (? & Hk1 & _)%Hback (? & Hk2 & _)%Hback. by eapply H3.
  - intros k job' q (q' & Hk & Hq & _)%Hback ?. eapply H4; eauto.
  - intros c job' E1 E2. destruct (H5 _ _ E1 E2) as [? Hx]. split; [done|].
    intros k job'' q (q' & Hk & _)%Hback. by eapply Hx.
  - intros j e. rewrite H6. split.
    + intros (k & job' & q & Hk & E1 & E2 & E3). destruct (decide (id = k)) as [<- | Hne].
      * simplify_eq. eexists id, _, p'. rewrite lookup_insert_eq, He. auto.
      * exists k, job', q. by rewrite lookup_insert_ne.
    + intros (k & job' & q & (q' & Hk & _ & Hq)%Hback & E1 & E2 & E3).
      exists k, job', q'. rewrite <- Hq. auto.
Qed.
End exact_on.

Section exact_steps.
Context {ws : gmap nat (JobAssignment * Phase)} {u : gmap string JobResult} {f : gmap string Z}.

Lemma exact_clear oc id job r :
  exact_on ws u f oc → ws !! id = Some (job, PClear r) →
  exact_on (<[id := (job, PDecide r)]> ws) u (delete (ja_JobId job) f) oc.
Proof.
  intros [H1 H2 H3 H4 H5 H6] Hw. split.
  - intros E. apply H1 in E. subst. by rewrite lookup_empty in Hw.
  - intros c k job' q E1 E2 [[<- [= <- <-]] | [_ Hk]]%lookup_insert_Some; by eapply H2.
  - intros k1 k2 j1 j2 q1 q2 [[<- [= <- <-]] | [_ Hk1]]%lookup_insert_Some
      [[<- [= <- <-]] | [_ Hk2]]%lookup_insert_Some; by eauto.
  - intros k job' q [[<- [= <- <-]] | [_ Hk]]%lookup_insert_Some Hq; by eapply H4.
  - intros c job' E1 E2. destruct (H5 _ _ E1 E2) as [? Hx]. split; [done|].
    intros k job'' q [[<- [= <- <-]] | [_ Hk]]%lookup_insert_Some; by eapply Hx.
  - intros j e. rewrite lookup_delete_Some, H6. split.
    + intros [Hne (k & job' & q & Hk & <- & E2 & E3)]. exists k, job', q.
      rewrite lookup_insert_ne; [done|]. intros <-. simplify_eq.
    + intros (k & job' & q & [[<- [= <- <-]] | [Hne Hk]]%lookup_insert_Some & <- & E2 & E3); [done|].
      split; [|by exists k, job', q]. intros E. by destruct (Hne (H3 _ _ _ _ _ _ Hw Hk E)).
Qed.

Lemma exact_retain oc id job r :
  exact_on ws u f oc → ws !! id = Some (job, PAdd r) → jr_JobId r = ja_JobId job →
  exact_on (<[id := (job, PEnqueue r)]> ws) (<[jr_JobId r := r]> u) f oc.
Proof.
  intros He Hw ->. pose proof (exact_phase oc id job _ (PEnqueue r) He Hw ltac:(done) eq_refl) as
    [H1 H2 H3 H4 H5 H6]. split; try done.
  - intros k job' q Hk Hq. rewrite lookup_insert_ne; [by eapply H4|]. intros E.
    assert (id = k) as <-; [|by rewrite lookup_insert_eq in Hk; simplify_eq].
    eapply H3; [by rewrite lookup_insert_eq|done|done].
  - intros c job' E1 E2. destruct (H5 _ _ E1 E2) as [? Hx]. split; [|done].
    rewrite lookup_insert_ne; [done|]. eapply Hx. by rewrite lookup_insert_eq.
Qed.

Lemma exact_leave oc id job p :
  exact_on ws u f oc → ws !! id = Some (job, p) → executing p = false →
  exact_on (delete id ws) u f oc.
Proof.
  intros [H1 H2 H3 H4 H5 H6] Hw Hp. split.
  - intros E. apply H1 in E. subst. by rewrite lookup_empty in Hw.
  - intros c k job' q E1 E2 [_ Hk]%lookup_delete_Some; by eapply H2.
  - intros k1 k2 j1 j2 q1 q2 [_ Hk1]%lookup_delete_Some [_ Hk2]%lookup_delete_Some. by eapply H3.
  - intros k job' q [_ Hk]%lookup_delete_Some Hq; by eapply H4.
  - intros c job' E1 E2. destruct (H5 _ _ E1 E2) as [? Hx]. split; [done|].
    intros k job'' q [_ Hk]%lookup_delete_Some; by eapply Hx.
  - intros j e. rewrite H6. split; intros (k & job' & q & Hk & E).
    + exists k, job', q. rewrite lookup_delete_ne; [done|]. intros <-. simplify_eq. naive_solver congruence.
    + apply lookup_delete_Some in Hk as [_ Hk]. by exists k, job', q.
Qed.

(** [jobs.remove] of a job no worker has any more. *)
Lemma exact_unregister c j :
  exact_on ws u f (Some c) → (∀ id job p, ws !! id = Some (job, p) → ja_JobId job ≠ j) →
  exact_on ws u f (Some (with_registry (delete j (cn_cancels c)) (cn_explicit c ∖ {[ j ]}) c)).
Proof.
  intros [H1 H2 H3 H4 H5 H6] Hj. split; try done.
  - intros ? id job p [= <-] He Hw. simpl. rewrite lookup_delete_ne; [by eapply H2|].
    intros E. by eapply Hj.
  - intros ? job [= <-]. simpl. by apply H5.
Qed.
End exact_steps.

(** ** Preservation *)

Lemma jobs_of_lookup s id w :
  ss_workers s !! id = Some w → jobs_of s !! id = Some (wk_job w, wk_phase w).
Proof. intros H. unfold jobs_of. by rewrite lookup_fmap, H. Qed.

Lemma jobs_of_cancel id s : jobs_of (cancel_worker id s) = jobs_of s.
Proof.
  unfold cancel_worker, jobs_of. destruct (ss_workers s !! id) as [w|] eqn:E; [|done]. simpl.
  rewrite fmap_insert. simpl. apply insert_id. by rewrite lookup_fmap, E.
Qed.

Lemma exact_cancel_worker id s : exact s → exact (cancel_worker id s).
Proof.
  unfold exact. rewrite jobs_of_cancel, cancel_worker_conns.
  destruct (cancel_worker_frame id s) as (-> & _ & -> & _). done.
Qed.

(** Replacing the record of connection [i]. *)
Lemma exact_set_conn i c c' s :
  exact s → ss_conns s !! i = Some c →
  (∀ job, cn_recv c' = RAdmit job → cn_recv c = RAdmit job) →
  (cn_ended c' = false → cn_ended c = false ∧ cn_cancels c' = cn_cancels c) →
  exact (set_conn i c' s).
Proof.
  unfold exact. simpl. intros He Hc Hr Hs. destruct (decide (i = 0)) as [-> | Hne].
  - rewrite lookup_insert_eq. rewrite Hc in He. by eapply exact_conn.
  - by rewrite lookup_insert_ne.
Qed.

Lemma exact_enqueue cfg a m i c c' s :
  exact s → ss_conns s !! i = Some c → enqueue cfg a m c = Some c' → exact (set_conn i c' s).
Proof.
  intros He Hc [[-> _] | [-> _]]%enqueue_Some; by eapply exact_set_conn.
Qed.

(** With the enqueuing loop's own state updated too. *)
Lemma exact_enqueue_then cfg a m i c c1 c2 s :
  exact s → ss_conns s !! i = Some c → enqueue cfg a m c = Some c1 →
  (∀ job, cn_recv c2 = RAdmit job → cn_recv c1 = RAdmit job) →
  cn_ended c2 = cn_ended c1 → cn_cancels c2 = cn_cancels c1 →
  exact (set_conn i c2 s).
Proof.
  intros He Hc [[-> _] | [-> _]]%enqueue_Some H1 H2 H3; eapply exact_set_conn; eauto; simpl in *; congruence.
Qed.

Lemma exact_set_phase id w p s :
  exact s → ss_workers s !! id = Some w →
  (holding p = true → holding (wk_phase w) = true) → executing p = executing (wk_phase w) →
  exact (set_phase id w p s).
Proof.
  unfold exact. intros He Hw. simpl. intros. unfold jobs_of in *. simpl. rewrite fmap_insert. simpl.
  eapply exact_phase; [done| |done|done]. by apply jobs_of_lookup.
Qed.

Lemma receive_exact cfg c m s :
  exact s → ss_conns s !! 0 = Some c → cn_ended c = false → exact (receive cfg 0 c m s).
Proof.
  intros He Hc Hl.
  assert (Hset : ∀ r, (∀ job, r ≠ RAdmit job) → exact (set_conn 0 (with_recv r c) s)).
  { intros r Hr. eapply exact_set_conn; [done|done| |done]. intros job E. by destruct (Hr job). }
  destruct m; simpl; try done.
  - destruct (cn_draining c); [by apply Hset|]. unfold dispatchAssignment.
    destruct (jobs_has _ c || unacked_has _ s) eqn:Hk; [by apply Hset|].
    repeat case_match; try by apply Hset.
    unfold exact in *. simpl. rewrite lookup_insert_eq. rewrite Hc in He.
    apply orb_false_iff in Hk as [H1 H2]. unfold jobs_has, unacked_has in H1, H2. bool_prop.
    apply exact_dispatch; try done; by apply eq_None_not_Some.
  - by apply Hset.
  - unfold settle. case_match; [|done]. by apply exact_settle.
  - by eapply exact_set_conn.
  - by case_match.
  - by case_match.
Qed.

Lemma handler_exact cfg capacity c a s s' :
  exact s → numbered s → ss_conns s !! 0 = Some c → cn_ended c = false →
  handler cfg capacity 0 c a s = Some s' → exact s'.
Proof.
  intros He Hn Hc Hl. unfold handler. destruct (cn_recv c) as [| |m next|j|job] eqn:R; intros H; option_steps.
  - eapply exact_enqueue_then; [done|done|done| |done|done]. simpl. by destruct next.
  - assert (He' : exact (set_conn 0 (with_recv RIdle c) s)) by by eapply exact_set_conn.
    unfold jobs_cancel. simpl. rewrite lookup_insert_eq. case_match; [|done].
    apply exact_cancel_worker. eapply exact_set_conn;
      [done|simpl; by rewrite lookup_insert_eq|done|done].
  - unfold startJob, acquireSlot. case_match; option_steps.
    + unfold exact, jobs_of in *. simpl. rewrite fmap_insert, lookup_insert_eq. simpl. rewrite Hc in He.
      apply exact_admit; [done|done|]. by rewrite lookup_fmap, Hn.
    + by eapply exact_set_conn.
Qed.

Lemma worker_step_exact cfg id w choice s s' :
  exact s → worker_ok cfg s w → ss_workers s !! id = Some w →
  worker_step cfg id w choice s = Some s' → exact s'.
Proof.
  intros He Ho Hw. pose proof (jobs_of_lookup _ _ _ Hw) as Hj. unfold worker_step, worker_enqueue.
  destruct (wk_phase w) as [| | |r|r| |r|r|] eqn:P, choice; intros H; try done; option_steps.
  1, 2, 8: apply exact_set_phase; [by eapply exact_enqueue|done|by rewrite P|by rewrite P].
  - apply exact_set_phase; [done|done|by rewrite P|by rewrite P].
  - unfold exact, jobs_of in *. simpl. rewrite fmap_insert. simpl.
    by apply (exact_clear _ _ _ r).
  - apply exact_set_phase; [done|done|by rewrite P|rewrite P; by case_match].
  - apply (exact_set_phase id w PRemove s); [done|done|by rewrite P|by rewrite P].
  - pose proof (wo_echoes _ _ _ Ho r) as E. rewrite P in E. specialize (E eq_refl).
    unfold echoes_job in E. bool_prop.
    unfold exact, jobs_of in *. simpl. rewrite fmap_insert. simpl. by apply exact_retain.
  - assert (Hd : exact (set_workers (delete id (ss_workers s)) s)).
    { unfold exact, jobs_of in *. simpl. rewrite fmap_delete. by eapply exact_leave. }
    unfold jobs_remove. case_match eqn:Hc; [|done].
    unfold exact in *. simpl in *. destruct (decide (wk_conn w = 0)) as [E | Hne].
    + rewrite E in *. rewrite lookup_insert_eq. rewrite Hc in Hd. apply exact_unregister; [done|].
      intros k job p. unfold jobs_of. simpl. rewrite fmap_delete. intros [Hne Hk]%lookup_delete_Some Ej.
      apply Hne. by eapply (ex_unique _ _ _ _ He id k); [exact Hj|exact Hk|].
    + by rewrite lookup_insert_ne.
Qed.

Lemma watch_step_exact cfg c choice s s' :
  exact s → ss_conns s !! 0 = Some c → watch_step cfg 0 c choice s = Some s' → exact s'.
Proof.
  intros He Hc. unfold watch_step. destruct (cn_watch c), choice; intros H; try done; option_steps;
    first [by eapply exact_set_conn | by eapply exact_enqueue_then].
Qed.

Lemma cancelAll_exact c0 c s :
  exact s → ss_conns s !! 0 = Some c0 → cn_ended c = true → (∀ job, cn_recv c ≠ RAdmit job) → exact (cancelAll 0 c s).
Proof.
  intros He Hc Hn Hr. unfold cancelAll.
  assert (Hf : exact (map_fold (λ _ id, cancel_worker id) s (cn_cancels c))
    ∧ ss_conns (map_fold (λ _ id, cancel_worker id) s (cn_cancels c)) = ss_conns s).
  { apply (map_fold_weak_ind (λ x _, exact x ∧ ss_conns x = ss_conns s)); [done|].
    intros j id m x _ [H1 H2]. by rewrite cancel_worker_conns; split; [apply exact_cancel_worker|]. }
  destruct Hf as [H1 H2]. eapply exact_set_conn; [done|by rewrite H2| |]; simpl; congruence.
Qed.

Lemma perform_exact cfg capacity l s s' :
  session_ok cfg s → exact s → ss_generations s' ≤ 1 → perform cfg capacity l s = Some s' → exact s'.
Proof.
  intros Hok He Hg H. pose proof (perform_tracks _ _ _ _ _ H) as Ht.
  destruct Ht as [[_ Hg'] | (Hl & Hg' & Hw & Hu & Hc)].
  2:{ assert (ss_generations s = 0) as Z by lia. rewrite Z in Hc.
      assert (ss_conns s !! 0 = None) as Hnone.
      { apply eq_None_not_Some. rewrite (so_conns _ _ Hok). lia. }
      unfold perform, sender_run, resend_tick, resend_pending, resend_next, heartbeat_tick, fail, finish in H. destruct l; try by rewrite Hl in H.
      - rewrite Hl in H. simplify_eq. unfold connect in *. case_match; [|by simpl in *; lia].
        unfold exact in *. simpl. rewrite Z, lookup_insert_eq.
        pose proof (ex_none _ _ _ _ He Hnone) as Hws. destruct He as [H1 H2 H3 H4 H5 H6].
        split; try done; [|by intros ? ? [= <-]].
        intros c id job p _ _ Hid. change (jobs_of s !! id = Some (job, p)) in Hid. by rewrite Hws in Hid.
      - destruct (ss_workers s !! id) as [w|] eqn:E; [|done]. simpl in H.
        pose proof (ex_none _ _ _ _ He Hnone) as Hws. apply jobs_of_lookup in E. by rewrite Hws in E. }
  unfold perform, sender_run, resend_tick, resend_pending, resend_next, heartbeat_tick, fail, finish in H. destruct l;
    try (destruct (live s) as [[i c]|] eqn:L; [|done]; simpl in H;
         apply live_Some in L as (-> & Hc & Hl);
         replace (pred (ss_generations s)) with 0 in * by lia).
  - destruct (live s); option_steps. unfold connect in *. case_match; [simpl in *; lia|done].
  - destruct (cn_recv c) eqn:R; option_steps. by apply receive_exact.
  - eapply handler_exact; try done. by eapply so_numbered.
  - destruct (ss_workers s !! id) eqn:E; [|done]. simpl in H. eapply worker_step_exact; try done.
    by eapply so_worker.
  - option_steps; destruct ok; by eapply exact_set_conn.
  - destruct (cn_resend c) as [[|? ?]|[|? ?]|]; option_steps; by eapply exact_set_conn.
  - destruct (cn_resend c) as [[|? ?]|[|? ?]|]; option_steps; by eapply exact_set_conn.
  - destruct (cn_resend c) as [[|? ?]|[|? ?]|]; option_steps; by eapply exact_enqueue_then.
  - option_steps; by eapply exact_enqueue_then.
  - by eapply watch_step_exact.
  - destruct recv; [destruct (cn_recv c) eqn:R|]; option_steps; by eapply exact_set_conn.
  - destruct (cn_recv c) eqn:R; option_steps;
    (eapply (cancelAll_exact _ (with_end true true c)); try done; simpl; congruence).
Qed.

(** ** The theorems *)

Lemma exact_initial : exact initial.
Proof.
  split; try done. intros j e. simpl. rewrite lookup_empty. split; [done|].
  intros (id & job & p & H & _). unfold jobs_of in H. simpl in H. by rewrite fmap_empty, lookup_empty in H.
Qed.

Lemma reachable_exact config s :
  reachable config s → ss_generations s ≤ 1 → exact s ∧ held s = ss_outstanding s.
Proof.
  induction 1 as [|s l s' Hr IH H]; intros Hg; [by split; [apply exact_initial|]|].
  pose proof (reachable_ok _ _ Hr) as Hok.
  assert (Hg' : ss_generations s ≤ 1).
  { destruct (perform_tracks _ _ _ _ _ H) as [[_ E] | (_ & E & _)]; lia. }
  destruct (IH Hg') as [He Hh]. split; [by eapply perform_exact|].
  pose proof (reachable_slots _ _ Hr) as [_ Hcap].
  destruct (perform_account _ _ _ _ _ (so_numbered _ _ Hok) H) as [|?|?|id w r Hw Hp [r' Hx] _ _]; try lia.
  exfalso. pose proof (so_worker _ _ Hok _ _ Hw) as Ho.
  pose proof (wo_echoes _ _ _ Ho r) as Ec. rewrite Hp in Ec. specialize (Ec eq_refl).
  unfold echoes_job in Ec. bool_prop.
  pose proof (ex_fresh _ _ _ _ He _ _ _ (jobs_of_lookup _ _ _ Hw)) as Hf. rewrite Hp in Hf.
  specialize (Hf eq_refl). congruence.
Qed.

(** C18: until the first reconnect the session's books are exact. The slots taken are the jobs in hand
    plus the retained results; no two workers have the same job; no job in hand has a retained result;
    and the roster a hello would carry lists exactly the jobs still executing, with their lease epochs. *)
Theorem first_connection_exact config s :
  reachable config s → ss_generations s ≤ 1 →
  ss_outstanding s = holders s + size (ss_unacked s)
  ∧ (∀ id1 id2 w1 w2, ss_workers s !! id1 = Some w1 → ss_workers s !! id2 = Some w2 →
       ja_JobId (wk_job w1) = ja_JobId (wk_job w2) → id1 = id2)
  ∧ (∀ id w, ss_workers s !! id = Some w → holding (wk_phase w) = true →
       ss_unacked s !! ja_JobId (wk_job w) = None)
  ∧ (∀ j e, {| ij_JobId := j; ij_LeaseEpoch := e; ij_ElapsedMs := 0 |} ∈ inFlightRoster s ↔
       ∃ id w, ss_workers s !! id = Some w ∧ ja_JobId (wk_job w) = j ∧ ja_LeaseEpoch (wk_job w) = e
               ∧ executing (wk_phase w) = true).
Proof.
  intros Hr Hg. destruct (reachable_exact _ _ Hr Hg) as [He Hh]. split; [by rewrite <- Hh|]. split; [|split].
  - intros id1 id2 w1 w2 H1%jobs_of_lookup H2%jobs_of_lookup. by eapply ex_unique.
  - intros id w H1%jobs_of_lookup. by eapply ex_fresh.
  - intros j e. unfold inFlightRoster. rewrite list_elem_of_fmap. split.
    + intros ([j' e'] & [= -> ->] & Hin%elem_of_map_to_list).
      apply (ex_roster _ _ _ _ He) in Hin as (id & job & p & Hw & <- & <- & Hp).
      unfold jobs_of in Hw. rewrite lookup_fmap in Hw.
      destruct (ss_workers s !! id) as [w|] eqn:E; [|done]. simpl in Hw. simplify_eq. by exists id, w.
    + intros (id & w & Hw & <- & <- & Hp). eexists (_, _). split; [done|].
      apply elem_of_map_to_list, (ex_roster _ _ _ _ He). eexists id, _, _.
      by split; [apply jobs_of_lookup|].
Qed.

Lemma first_connection_exact_witness :
  let s := sample_run sample_running in
  ss_outstanding s = 1 ∧ ss_outstanding s = holders s + size (ss_unacked s).
Proof.
  split; [by vm_compute|].
  apply (first_connection_exact sample_config).
  - apply sample_reachable. vm_compute. by eexists.
  - vm_compute. lia.
Defined.

(** Two connections: the job is redelivered while the first worker still executes it, executed again,
    answered twice, and acknowledged once. *)
Definition reexecution : list label :=
  sample_running ++ [LFail false; LEnd; LConnect sample_accepted] ++ sample_admit ++ sample_start 1.
Definition slot_leak : list label :=
  reexecution ++ sample_retain 0 sample_result ++ sample_leave 0
  ++ sample_retain 1 sample_result ++ sample_leave 1 ++ [LReceive (C_ResultAck "j1" 7 DISPOSITION_RECORDED)].

(** after a reconnect a redelivered job that is still executing is executed a second time, by two
    workers at once, since the new connection's registry does not know the old worker; and when both
    have answered and the control plane has acknowledged the job, nothing is in hand or retained, yet a
    slot remains taken. *)
Theorem redelivery_reexecutes :
  (∃ s w0 w1, reachable sample_config s ∧ ss_workers s !! 0 = Some w0 ∧ ss_workers s !! 1 = Some w1
     ∧ wk_job w0 = wk_job w1 ∧ wk_phase w0 = PExecute ∧ wk_phase w1 = PExecute)
  ∧ ∃ s, reachable sample_config s ∧ ss_workers s = ∅ ∧ ss_unacked s = ∅ ∧ ss_outstanding s = 1.
Proof.
  split.
  - exists (sample_run reexecution). eexists _, _. split.
    { apply sample_reachable. vm_compute. by eexists. }
    by vm_compute.
  - exists (sample_run slot_leak). split.
    { apply sample_reachable. vm_compute. by eexists. }
    by vm_compute.
Qed.

(** Acknowledgements and redeliveries are matched by job alone. While a result of a job is retained, an
    assignment of the same job under any other lease is acknowledged and not executed. *)
Theorem dedup_ignores_epoch config s i c job r s' :
  live s = Some (i, c) → cn_draining c = false → ss_unacked s !! ja_JobId job = Some r →
  perform (New config).1 (New config).2 (LReceive (C_JobAssignment job)) s = Some s' →
  s' = set_conn i (with_recv (REnqueue (ack (ja_JobId job) (ja_LeaseEpoch job)) None) c) s.
Proof.
  intros Hl Hd Hu H. cbn in H. rewrite Hl in H. cbn in H. destruct (cn_recv c); try done. rewrite Hd in H.
  injection H as <-. unfold dispatchAssignment, unacked_has. rewrite Hu, bool_decide_eq_true_2 by done.
  by rewrite orb_true_r.
Qed.

(** An acknowledgement of an older lease's result releases the newer one: it is lost before it was ever
    written, though the control plane never acknowledged it. *)
Definition sample_renewed : JobAssignment :=
  {| ja_JobId := "j1"; ja_OrgId := "org"; ja_RegistrationId := "reg"; ja_LeaseEpoch := 8;
     ja_CapabilityId := "logs"; ja_CapabilityVersion := 1; ja_DeadlineBudget := None; ja_IdempotencyKey := "";
     ja_CorrelationId := ""; ja_Arguments := None |}.
Definition renewed_result : JobResult := typed_refusal "j1" 8 KIND_TIMEOUT.

(** Both leases run, the older result is retained and resent, then the newer one replaces it. *)
Definition superseded_retained : list label :=
  sample_running ++ [LFail false; LEnd; LConnect sample_accepted; LReceive (C_JobAssignment sample_renewed); LHandler true]
  ++ sample_start 1 ++ sample_retain 0 sample_result ++ [LWorker 0 (Enqueued false); LWorker 0 Proceed]
  ++ [LResendTick ["j1"]; LResend true; LSend true; LSend true; LSend true] ++ sample_retain 1 renewed_result.
Definition stale_ack : list label :=
  [LReceive (C_ResultAck "j1" 7 DISPOSITION_RECORDED); LFail false; LWorker 1 (Enqueued false); LWorker 1 Proceed; LEnd].

Definition never_carried (r : JobResult) (s : State) : bool :=
  forallb (λ '(_, c), forallb (λ m, match m with R_JobResult x => negb (jr_LeaseEpoch x =? jr_LeaseEpoch r)%Z | _ => true end)
    (cn_history c)) (map_to_list (ss_conns s)).

Theorem stale_ack_loses_newer :
  (∃ s, reachable sample_config s ∧ ss_unacked s !! "j1" = Some renewed_result
     ∧ match live s with Some (_, c) => sample_result ∈ omap (λ m, match m with R_JobResult r => Some r | _ => None end) (written c)
       | None => False end)
  ∧ ∃ s, reachable sample_config s ∧ ss_unacked s = ∅ ∧ ss_workers s = ∅ ∧ never_carried renewed_result s = true.
Proof.
  split.
  - exists (sample_run superseded_retained). split.
    { apply sample_reachable. vm_compute. by eexists. }
    split; [by vm_compute|]. vm_compute. by left.
  - exists (sample_run (superseded_retained ++ stale_ack)). split.
    { apply sample_reachable. vm_compute. by eexists. }
    by vm_compute.
Qed.
