(* ===== verification/SessionMessages.v ===== *)
(** * Where the messages of a connection come from (internal/session/connection.go)

    Everything a connection carries was put there by one of a few places in the code: [origin] lists
    them. What is promised of every result or every inventory delta on the stream is then read off the
    place it came from ([perform_offers], [perform_results]). *)

From S2P Require Import Prelude GoString GoTime Wire Session SessionSteps SessionSlots SessionSafety SessionExact.
From stdpp Require Import options.

(** ** What a connection carries *)

Definition received_by (r : RecvState) (m : RelayToControl) : Prop :=
  match r with REnqueue m' _ => m = m' | _ => False end.
Definition resent_by (r : ResendState) (m : RelayToControl) : Prop :=
  match r with RsResults l | RsDeltas l => m ∈ l | RsLeft => False end.
Definition watched_by (w : WatchState) (m : RelayToControl) : Prop :=
  match w with WEnqueue _ m' => m = m' | _ => False end.

(** Everything enqueued on a connection or in the hands of one of its loops. *)
Definition offers (c : Conn) (m : RelayToControl) : Prop :=
  m ∈ cn_history c ∨ received_by (cn_recv c) m ∨ resent_by (cn_resend c) m ∨ watched_by (cn_watch c) m.

(** Neither a result nor a delta, and no confirmation of a rotation, which the session never sends. *)
Definition plain (m : RelayToControl) : bool :=
  match m with R_JobResult _ | R_InventoryDelta _ | R_RotationConfirm _ => false | _ => true end.

(** A result some worker holds, or the buffer retains. *)
Definition in_hand (s : State) (r : JobResult) : Prop :=
  (∃ j, ss_unacked s !! j = Some r)
  ∨ ∃ id job p, jobs_of s !! id = Some (job, p) ∧ phase_result p = Some r.

(** The places a message can come from in a step [l] from [s]. *)
Inductive origin (cfg : Config) (s : State) (l : label) : RelayToControl → Prop :=
  | origin_plain m : plain m = true → origin cfg s l m
  | origin_mismatch job epoch : origin cfg s l (resultMessage (identityMismatch job epoch))
  | origin_unsupported job epoch : origin cfg s l (resultMessage (unsupportedCapability job epoch))
  | origin_in_hand r : in_hand s r → origin cfg s l (resultMessage r)
  | origin_pending deltas d : l = LResendPending deltas → HasInventory cfg = true → d ∈ deltas →
      origin cfg s l (R_InventoryDelta d).

(** What the connections of [s'] carry, those of [s] carried, or it comes from one of these places. *)
Definition brings (cfg : Config) (l : label) (s s' : State) : Prop :=
  ∀ i c' m, ss_conns s' !! i = Some c' → offers c' m →
    (∃ c, ss_conns s !! i = Some c ∧ offers c m) ∨ origin cfg s l m.

Lemma brings_same cfg l s s' : ss_conns s' = ss_conns s → brings cfg l s s'.
Proof. intros E i c' m. rewrite E. eauto. Qed.

Lemma brings_set cfg l i c c' s s' :
  ss_conns s !! i = Some c → (∀ m, offers c' m → offers c m ∨ origin cfg s l m) →
  ss_conns s' = <[i := c']> (ss_conns s) → brings cfg l s s'.
Proof.
  intros Hc Hm E k c2 m. rewrite E. intros [[<- <-]|[Hne H]]%lookup_insert_Some; [|eauto].
  intros [?|?]%Hm; eauto.
Qed.

Ltac carry :=
  let H := fresh in
  intros ? H; unfold offers in *; simpl in *;
  rewrite ?elem_of_app, ?list_elem_of_singleton, ?elem_of_cons, ?elem_of_nil in *;
  destruct_or?; try done; simplify_eq; try (left; by auto); try (right; by constructor).

Ltac enqueued :=
  match goal with H : enqueue _ _ _ _ = Some _ |- _ => apply enqueue_Some in H as [[-> ?] | [-> ?]] end.

(** ** One step *)

Section origins.
Context (cfg : Config) (l : label).

Lemma receive_brings i c m s :
  ss_conns s !! i = Some c → cn_recv c = RIdle → brings cfg l s (receive cfg i c m s).
Proof using.
  intros Hc Hr. destruct m; simpl; try by apply brings_same.
  - destruct (cn_draining c); [eapply brings_set; [done| |done]; carry|].
    unfold dispatchAssignment. repeat case_match; (eapply brings_set; [done| |done]); carry.
  - eapply brings_set; [done| |done]. carry.
  - unfold settle. case_match; by apply brings_same.
  - eapply brings_set; [done| |done]. carry.
  - case_match; by apply brings_same.
  - case_match; by apply brings_same.
Qed.

Lemma handler_brings capacity i c a s s' :
  ss_conns s !! i = Some c → handler cfg capacity i c a s = Some s' → brings cfg l s s'.
Proof using.
  intros Hc. unfold handler. destruct (cn_recv c) as [| |m next|j|job] eqn:R; intros H; option_steps.
  - eapply brings_set; [done| |done]. enqueued; destruct next; carry; left; rewrite R; simpl; auto.
  - unfold jobs_cancel. simpl. rewrite lookup_insert_eq. simpl. case_match.
    + eapply brings_set; [done| |rewrite cancel_worker_conns; simpl; by rewrite insert_insert_eq]. carry.
    + eapply brings_set; [done| |done]. carry.
  - unfold startJob. case_match eqn:A; (eapply brings_set; [done| |]);
      [|unfold acquireSlot in A; option_steps; done| |done]; carry.
Qed.

Lemma worker_step_brings id w choice s s' :
  ss_workers s !! id = Some w → worker_step cfg id w choice s = Some s' → brings cfg l s s'.
Proof using.
  intros Hw. unfold worker_step, worker_enqueue. destruct (wk_phase w) eqn:P, choice; intros H; try done; option_steps;
    try by apply brings_same.
  1, 2: eapply brings_set; [done| |done]; enqueued; carry.
  - eapply brings_set; [done| |done]; enqueued; carry. right. apply origin_in_hand. right.
    eexists id, _, _. split; [by apply jobs_of_lookup|by rewrite P].
  - unfold jobs_remove. case_match; [|by apply brings_same]. eapply brings_set; [done| |done]. carry.
Qed.

Lemma watch_step_brings i c choice s s' :
  ss_conns s !! i = Some c → watch_step cfg i c choice s = Some s' → brings cfg l s s'.
Proof using.
  intros Hc. unfold watch_step. destruct (cn_watch c) eqn:Ew, choice; intros H; try done; option_steps;
    (eapply brings_set; [done| |done]).
  3: enqueued.
  all: carry; left; rewrite Ew; simpl; auto.
Qed.
End origins.

(** Every message on a connection comes from one of the places [origin] lists. *)
Lemma perform_offers cfg capacity l s s' : perform cfg capacity l s = Some s' → brings cfg l s s'.
Proof.
  unfold perform, sender_run, resend_tick, resend_pending, resend_next, heartbeat_tick, fail, finish. destruct l; intros H;
    try (destruct (live s) as [[i c]|] eqn:L; [|done]; simpl in H;
         apply live_Some in L as (-> & Hc & He)).
  - destruct (live s); option_steps. unfold connect. case_match; [|by apply brings_same].
    intros i c' m. simpl. intros [[<- <-]|[Hne Hi]]%lookup_insert_Some; [|eauto].
    unfold offers. simpl. rewrite !elem_of_nil. naive_solver.
  - destruct (cn_recv c) eqn:R; option_steps. by apply receive_brings.
  - by eapply handler_brings.
  - destruct (ss_workers s !! id) eqn:E; [|done]. simpl in H. by eapply worker_step_brings.
  - option_steps. eapply brings_set; [done| |done]. destruct ok; carry.
  - destruct (cn_resend c) as [[|? ?]|[|? ?]|] eqn:R; option_steps; (eapply brings_set; [done| |done]); carry;
      unfold resend_batch in *;
      match goal with H : _ ∈ _ <$> _ |- _ => apply list_elem_of_fmap in H as (r & -> & (j & _ & Hj)%list_elem_of_omap) end;
      right; apply origin_in_hand; left; by exists j.
  - destruct (cn_resend c) as [[|? ?]|[|? ?]|] eqn:R; option_steps; (eapply brings_set; [done| |done]);
      destruct (HasInventory cfg) eqn:HI; carry;
      match goal with H : _ ∈ _ <$> _ |- _ => apply list_elem_of_fmap in H as (d & -> & Hd) end;
      right; by eapply origin_pending.
  - destruct (cn_resend c) as [[|? ?]|[|? ?]|] eqn:R; option_steps;
      (eapply brings_set; [done| |done]); enqueued; destruct accept; carry;
      left; rewrite R; simpl; rewrite elem_of_cons; auto.
  - option_steps; (eapply brings_set; [done| |done]); enqueued; carry.
  - by eapply watch_step_brings.
  - destruct recv; [destruct (cn_recv c) eqn:R|]; option_steps; (eapply brings_set; [done| |done]); carry.
  - destruct (cn_recv c) eqn:R; option_steps; (eapply brings_set; [done| |by rewrite cancelAll_conns]); carry.
Qed.

(** ** Which results there are *)

Lemma in_hand_same s s' r :
  ss_unacked s' ⊆ ss_unacked s → jobs_of s' = jobs_of s → in_hand s' r → in_hand s r.
Proof.
  intros Hu Hj [[j Hr]|H]; [left|right].
  - exists j. by eapply lookup_weaken.
  - by rewrite <- Hj.
Qed.

Lemma in_hand_phase s id w p s' r :
  ss_workers s !! id = Some w → ss_workers s' = ss_workers s → ss_unacked s' = ss_unacked s →
  in_hand (set_phase id w p s') r → in_hand s r ∨ phase_result p = Some r.
Proof.
  intros Hw Ew Eu [[j Hr]|(k & job & q & Hk & Hq)].
  - left. left. exists j. by rewrite <- Eu.
  - revert Hk. unfold jobs_of. cbn [ss_workers set_phase set_workers]. rewrite Ew, fmap_insert. cbn.
    intros [[<- [= <- <-]]|[_ Hk]]%lookup_insert_Some; [by right|].
    left. right. by exists k, job, q.
Qed.

(** A worker that goes on with the result it has. *)
Lemma in_hand_keep s id w p s' r :
  ss_workers s !! id = Some w → ss_workers s' = ss_workers s → ss_unacked s' = ss_unacked s →
  (∀ x, phase_result p = Some x → phase_result (wk_phase w) = Some x) →
  in_hand (set_phase id w p s') r → in_hand s r.
Proof.
  intros Hw Ew Eu Hp Hr. destruct (in_hand_phase _ _ _ _ _ _ Hw Ew Eu Hr) as [?|H]; [done|]. right. eexists id, _, _.
  split; [by apply jobs_of_lookup|]. by apply Hp.
Qed.

Lemma worker_step_in_hand cfg id w choice s s' r :
  ss_workers s !! id = Some w → worker_step cfg id w choice s = Some s' → in_hand s' r →
  in_hand s r ∨ (choice = Executed r ∧ wk_phase w = PExecute ∧ echoes_job (wk_job w) r = true).
Proof.
  intros Hw. unfold worker_step, worker_enqueue. destruct (wk_phase w) as [| | |x|x| |x|x|] eqn:P, choice;
    intros H; try done; option_steps; intros Hr;
    try (left; eapply in_hand_keep; [exact Hw| | | |exact Hr]; [done|done|rewrite P; cbn; congruence]).
  - destruct (in_hand_phase s id w _ s r Hw eq_refl eq_refl Hr) as [?|[= ->]]; [by left|by right].
  - left. eapply in_hand_keep; [exact Hw| | | |exact Hr]; [done|done|]. rewrite P. by case_match.
  - left. destruct Hr as [[j Hr]|(k & job & q & Hk & Hq)].
    + cbn in Hr. apply lookup_insert_Some in Hr as [[_ <-]|[_ Hr]]; [|left; by exists j].
      right. eexists id, _, _. split; [by apply jobs_of_lookup|by rewrite P].
    + eapply in_hand_keep; [exact Hw|done|done| |right; exists k, job, q; split; [exact Hk|exact Hq]].
      rewrite P. done.
  - left. destruct Hr as [[j Hr]|(k & job & q & Hk & Hq)].
    + left. exists j. revert Hr. unfold jobs_remove. by case_match.
    + right. exists k, job, q. split; [|done]. revert Hk. unfold jobs_of. cbn. rewrite fmap_delete, jobs_remove_workers.
      by intros [_ ?]%lookup_delete_Some.
Qed.

(** A result comes into being in one way: an executor returns it to its worker. *)
Lemma perform_in_hand cfg capacity l s s' r :
  perform cfg capacity l s = Some s' → in_hand s' r →
  in_hand s r ∨ ∃ id w, l = LWorker id (Executed r) ∧ ss_workers s !! id = Some w ∧ wk_phase w = PExecute
    ∧ echoes_job (wk_job w) r = true.
Proof.
  unfold perform, sender_run, resend_tick, resend_pending, resend_next, heartbeat_tick, fail, finish. destruct l; intros H Hr;
    try (destruct (live s) as [[i c]|] eqn:L; [|done]; simpl in H;
         apply live_Some in L as (-> & Hc & He)).
  - left. destruct (live s); option_steps. revert Hr. unfold connect. by case_match.
  - left. destruct (cn_recv c) eqn:R; option_steps. revert Hr. apply in_hand_same.
    + destruct m; simpl; repeat case_match; try done; unfold dispatchAssignment, settle; repeat case_match; try done.
      simpl. apply delete_subseteq.
    + destruct m; simpl; repeat case_match; try done; unfold dispatchAssignment, settle; by repeat case_match.
  - left. unfold handler in H. destruct (cn_recv c) as [| | | |job] eqn:R; option_steps.
    + done.
    + revert Hr. unfold jobs_cancel. simpl. rewrite lookup_insert_eq. simpl. case_match; [|by apply in_hand_same].
      apply in_hand_same; [|by rewrite jobs_of_cancel].
      match goal with |- ss_unacked (cancel_worker ?n ?x) ⊆ _ => by destruct (cancel_worker_frame n x) as (-> & _) end.
    + revert Hr. unfold startJob, acquireSlot. case_match; option_steps; [|by apply in_hand_same].
      intros [Hu|(k & job' & q & Hk & Hq)]; [by left|right]. revert Hk. unfold jobs_of. simpl. rewrite fmap_insert.
      intros [[_ [= _ <-]]|[_ Hk]]%lookup_insert_Some; [done|]. by exists k, job', q.
  - destruct (ss_workers s !! id) as [w|] eqn:E; [|done]. simpl in H.
    destruct (worker_step_in_hand _ _ _ _ _ _ _ E H Hr) as [?|(-> & ? & ?)]; [by left|right; by exists id, w].
  - left. by option_steps.
  - left. by destruct (cn_resend c) as [[|? ?]|[|? ?]|]; option_steps.
  - left. by destruct (cn_resend c) as [[|? ?]|[|? ?]|]; option_steps.
  - left. by destruct (cn_resend c) as [[|? ?]|[|? ?]|]; option_steps.
  - left. by option_steps.
  - left. unfold watch_step in H. destruct (cn_watch c), choice; by option_steps.
  - left. by destruct recv; [destruct (cn_recv c)|]; option_steps.
  - left. assert (Ha : s' = cancelAll (pred (ss_generations s)) (with_end true true c) s)
      by (by destruct (cn_recv c) eqn:R; option_steps). subst s'. revert Hr. apply in_hand_same.
    + unfold cancelAll. simpl. apply (map_fold_weak_ind (λ x _, ss_unacked x ⊆ ss_unacked s)); [done|].
      intros k n m x _ Hx. by destruct (cancel_worker_frame n x) as (-> & _).
    + unfold cancelAll. match goal with |- jobs_of (set_conn _ _ ?x) = _ => change (jobs_of x = jobs_of s) end.
      apply (map_fold_weak_ind (λ x _, jobs_of x = jobs_of s)); [done|].
      intros k n m x _ Hx. by rewrite jobs_of_cancel.
Qed.

(** ** Promises of every result *)

(** [P] holds of every result in hand and of every one on a connection. *)
Definition results_are (P : JobResult → Prop) (s : State) : Prop :=
  (∀ r, in_hand s r → P r) ∧ ∀ i c r, ss_conns s !! i = Some c → offers c (resultMessage r) → P r.

Lemma results_are_initial P : results_are P initial.
Proof.
  split; [|done]. intros r [[j Hr]|(id & job & p & H & _)]; [done|].
  revert H. unfold jobs_of. simpl. by rewrite fmap_empty, lookup_empty.
Qed.

Lemma results_are_weaken (P Q : JobResult → Prop) s : (∀ r, P r → Q r) → results_are P s → results_are Q s.
Proof. intros Hpq [H1 H2]. split; eauto. Qed.

(** It stays so when it holds of what executors return and of the session's own refusals. *)
Lemma perform_results (P : JobResult → Prop) cfg capacity l s s' :
  (∀ job epoch, P (identityMismatch job epoch)) → (∀ job epoch, P (unsupportedCapability job epoch)) →
  (∀ id w r, l = LWorker id (Executed r) → ss_workers s !! id = Some w → wk_phase w = PExecute →
     echoes_job (wk_job w) r = true → P r) →
  results_are P s → perform cfg capacity l s = Some s' → results_are P s'.
Proof.
  intros Hm Hu Hx [Hh Hc] H. split.
  - intros r [?|(id & w & ? & ? & ? & ?)]%(perform_in_hand _ _ _ _ _ _ H); eauto.
  - intros i c r Hi [(c0 & ? & ?)|Ho]%(perform_offers _ _ _ _ _ H _ _ _ Hi); [eauto|].
    inversion Ho; simplify_eq/=; eauto.
Qed.

(** ** Where the jobs come from *)

(** A job a receive loop of [s'] is about to admit, one of [s] was, or the step receives its assignment. *)
Definition admits (l : label) (s s' : State) : Prop :=
  ∀ i c' job, ss_conns s' !! i = Some c' → cn_recv c' = RAdmit job →
    (∃ c, ss_conns s !! i = Some c ∧ cn_recv c = RAdmit job) ∨ l = LReceive (C_JobAssignment job).

Lemma admits_same l s s' : ss_conns s' = ss_conns s → admits l s s'.
Proof. intros E i c' job. rewrite E. eauto. Qed.

Lemma admits_set l i c c' s s' :
  ss_conns s !! i = Some c →
  (∀ job, cn_recv c' = RAdmit job → cn_recv c = RAdmit job ∨ l = LReceive (C_JobAssignment job)) →
  ss_conns s' = <[i := c']> (ss_conns s) → admits l s s'.
Proof.
  intros Hc Hr E k c2 job. rewrite E. intros [[<- <-]|[Hne H]]%lookup_insert_Some; [|eauto].
  intros [?|?]%Hr; eauto.
Qed.

(** Only the receipt of an assignment brings a job to a receive loop. *)
Lemma perform_admits cfg capacity l s s' : perform cfg capacity l s = Some s' → admits l s s'.
Proof.
  unfold perform, sender_run, resend_tick, resend_pending, resend_next, heartbeat_tick, fail, finish.
  destruct l as [reply|m|a|id choice|ok|order|deltas|a|scopes a|choice|recv|]; intros H;
    try (destruct (live s) as [[i c]|] eqn:L; [|done]; simpl in H; apply live_Some in L as (-> & Hc & He)).
  - destruct (live s); option_steps. unfold connect. case_match; [|by apply admits_same].
    intros i c' job. simpl. intros [[<- <-]|[Hne Hi]]%lookup_insert_Some; [done|eauto].
  - destruct (cn_recv c) eqn:R; option_steps. destruct m; simpl; try by apply admits_same.
    + destruct (cn_draining c); [by eapply admits_set; [done| |done]|]. unfold dispatchAssignment.
      repeat case_match; (eapply admits_set; [done| |done]); cbn; try done. intros job' [= ->]. by right.
    + by eapply admits_set; [done| |done].
    + unfold settle. case_match; by apply admits_same.
    + eapply admits_set; [done| |done]. cbn. by left.
    + case_match; by apply admits_same.
    + case_match; by apply admits_same.
  - unfold handler in H. destruct (cn_recv c) as [| |m next|j|job] eqn:R; option_steps.
    + eapply admits_set; [done| |done]. enqueued; by destruct next.
    + unfold jobs_cancel. simpl. rewrite lookup_insert_eq. simpl. case_match.
      * by eapply admits_set; [done| |rewrite cancel_worker_conns; simpl; by rewrite insert_insert_eq].
      * by eapply admits_set; [done| |done].
    + unfold startJob. case_match eqn:A; (eapply admits_set; [done| |]);
        [|unfold acquireSlot in A; option_steps; done| |done]; done.
  - destruct (ss_workers s !! id) as [w|] eqn:E; [|done]. simpl in H. revert H.
    unfold worker_step, worker_enqueue. destruct (wk_phase w), choice; intros H; try done; option_steps;
      try by apply admits_same.
    1, 2, 3: eapply admits_set; [done| |done]; enqueued; cbn; by left.
    unfold jobs_remove. case_match; [|by apply admits_same]. eapply admits_set; [done| |done]. cbn. by left.
  - option_steps. eapply admits_set; [done| |done]. destruct ok; cbn; by left.
  - destruct (cn_resend c) as [[|? ?]|[|? ?]|]; option_steps; (eapply admits_set; [done| |done]); cbn; by left.
  - destruct (cn_resend c) as [[|? ?]|[|? ?]|]; option_steps; (eapply admits_set; [done| |done]); cbn; by left.
  - destruct (cn_resend c) as [[|? ?]|[|? ?]|]; option_steps; (eapply admits_set; [done| |done]); enqueued; cbn; by left.
  - option_steps; (eapply admits_set; [done| |done]); enqueued; cbn; by left.
  - unfold watch_step in H. destruct (cn_watch c), choice; try done; option_steps;
      (eapply admits_set; [done| |done]); try enqueued; cbn; by left.
  - destruct recv; [destruct (cn_recv c) eqn:R|]; option_steps; (eapply admits_set; [done| |done]); cbn; try done; by left.
  - destruct (cn_recv c) eqn:R; option_steps; (eapply admits_set; [done| |by rewrite cancelAll_conns]); cbn; by left.
Qed.

(** ** What is received and not acted on *)

(** a rotated credential is neither kept nor confirmed, and a server-directed reconnect changes nothing: the
    session drops these messages, and no connection of any reachable state ever carries a confirmation. *)
Theorem rotation_unanswered config s :
  reachable config s →
  (∀ i c id, ss_conns s !! i = Some c → R_RotationConfirm id ∉ cn_history c)
  ∧ ∀ id new after s',
      perform (New config).1 (New config).2 (LReceive (C_CredentialRotation id new)) s = Some s'
      ∨ perform (New config).1 (New config).2 (LReceive (C_GracefulReconnect after)) s = Some s' → s' = s.
Proof.
  intros Hr. split.
  - enough (∀ i c id, ss_conns s !! i = Some c → ¬ offers c (R_RotationConfirm id)) as H.
    { intros i c id Hc Hin. apply (H i c id Hc). by left. }
    induction Hr as [|s l s' _ IH H]; [done|]. intros i c id Hc [(c0 & Hc0 & Ho)|Ho]%(perform_offers _ _ _ _ _ H _ _ _ Hc).
    + by eapply IH.
    + inversion Ho; done.
  - intros id new after s' H. cbn in H. destruct (live s) as [[i c]|]; [|by destruct H]. cbn in H.
    destruct (cn_recv c); destruct H; simplify_eq; done.
Qed.
