(* ===== verification/SessionLiveness.v ===== *)
(** * A retained result can always be sent again

    From any reachable state with a running connection, the resend loop and the sender alone, whatever they
    still have queued, bring every retained result onto the stream: the guarantee behind resend-until-ack. *)

From S2P Require Import Prelude GoString GoTime Wire Session SessionSteps SessionSafety.
From stdpp Require Import options.

(** The steps of the sender and of the resend loop, when [deltas] is what the inventory has pending. *)
Definition outbound (deltas : list InventoryDelta) (l : label) : Prop :=
  match l with
  | LSend true | LResend true | LResendTick _ => True
  | LResendPending offered => offered = deltas
  | _ => False
  end.

Section outbound.
Context (cfg : Config) (capacity : nat) (deltas : list InventoryDelta).

Lemma run_labels_app ls1 ls2 s :
  run_labels cfg capacity (ls1 ++ ls2) s
  = run_labels cfg capacity ls1 s ≫= run_labels cfg capacity ls2.
Proof.
  revert s. induction ls1 as [|l ls1 IH]; intros s; [done|]. simpl.
  destruct (perform cfg capacity l s); [apply IH|done].
Qed.

Lemma set_conn_set_conn i c1 c2 s : set_conn i c2 (set_conn i c1 s) = set_conn i c2 s.
Proof. unfold set_conn. simpl. by rewrite insert_insert_eq. Qed.

Lemma set_conn_id i c s : ss_conns s !! i = Some c → set_conn i c s = s.
Proof. intros H. unfold set_conn. rewrite insert_id by done. by destruct s. Qed.

Lemma live_set_conn i c c' s :
  live s = Some (i, c) → cn_ended c' = false → live (set_conn i c' s) = Some (i, c').
Proof.
  intros (-> & Hc & _)%live_Some He. unfold live. simpl. rewrite lookup_insert_eq. simpl. by rewrite He.
Qed.

(** A running connection, whose sender has not returned. *)
Record up (s : State) (i : nat) (c : Conn) : Prop := {
  up_live : live s = Some (i, c);
  up_done : cn_done c = false;
  up_sending : cn_sending c = true;
}.

Lemma running_Some s i c : running s = Some (i, c) ↔ live s = Some (i, c) ∧ cn_done c = false.
Proof using.
  unfold running. destruct (live s) as [[k x]|]; simpl; [|by split; [|intros []]]. destruct (cn_done x) eqn:E.
  - split; [done|]. intros [[= <- <-] H]. congruence.
  - split; [by intros [= <- <-]|]. by intros [[= <- <-] _].
Qed.

Lemma up_running s i c : up s i c → running s = Some (i, c).
Proof using. intros [Hl Hd _]. by apply running_Some. Qed.

Lemma running_up s i c : session_ok cfg s → running s = Some (i, c) → up s i c.
Proof using.
  intros Hok [Hl Hd]%running_Some. split; [done..|]. destruct (cn_sending c) eqn:E; [done|].
  pose proof (live_Some _ _ _ Hl) as (_ & Hc & _). apply (co_sending _ _ (so_conn _ _ Hok _ _ Hc)) in E. congruence.
Qed.

Lemma up_set_conn i c c' s :
  up s i c → cn_ended c' = cn_ended c → cn_done c' = cn_done c → cn_sending c' = cn_sending c →
  up (set_conn i c' s) i c'.
Proof using.
  intros [Hl Hd Hs] E1 E2 E3. pose proof (live_Some _ _ _ Hl) as (_ & _ & He).
  split; [|congruence..]. eapply live_set_conn; [done|congruence].
Qed.

(** [s] with its live connection replaced by [c'] can be reached by outbound steps. *)
Definition sends (i : nat) (s : State) (c' : Conn) : Prop :=
  ∃ ls, Forall (outbound deltas) ls ∧ run_labels cfg capacity ls s = Some (set_conn i c' s).

Lemma sends_step i c s l c1 :
  live s = Some (i, c) → outbound deltas l → perform cfg capacity l s = Some (set_conn i c1 s) → sends i s c1.
Proof using. intros Hl Ho H. exists [l]. split; [by repeat constructor|]. simpl. by rewrite H. Qed.

Lemma sends_trans i s c1 c2 : sends i s c1 → sends i (set_conn i c1 s) c2 → sends i s c2.
Proof.
  intros (ls1 & H1 & R1) (ls2 & H2 & R2). exists (ls1 ++ ls2). split; [by apply Forall_app|].
  rewrite run_labels_app, R1. simpl. by rewrite R2, set_conn_set_conn.
Qed.

Lemma sender_sends i c s :
  up s i c → cn_sent c < length (cn_history c) →
  perform cfg capacity (LSend true) s = Some (set_conn i (with_sent (S (cn_sent c)) c) s).
Proof using.
  intros [Hl _ Hs] Hlt. simpl. rewrite Hl. simpl. unfold sender_run. rewrite Hs.
  destruct (Nat.ltb_spec (cn_sent c) (length (cn_history c))); [done|lia].
Qed.

(** The sender alone empties its queue. *)
Lemma send_queue i c s :
  up s i c → cn_sent c ≤ length (cn_history c) →
  ∃ ls, Forall (.= LSend true) ls
    ∧ run_labels cfg capacity ls s = Some (set_conn i (with_sent (length (cn_history c)) c) s).
Proof using.
  remember (length (cn_history c) - cn_sent c) as n eqn:Hn. revert c s Hn.
  induction n as [|n IH]; intros c s Hn Hu Hle.
  - exists []. split; [done|]. simpl. f_equal. symmetry.
    assert (length (cn_history c) = cn_sent c) as -> by lia.
    assert (with_sent (cn_sent c) c = c) as -> by by destruct c.
    apply set_conn_id. by destruct Hu as [(_ & ? & _)%live_Some _ _].
  - set (c1 := with_sent (S (cn_sent c)) c).
    destruct (IH c1 (set_conn i c1 s)) as (ls & Hls & H); [simpl; lia|by eapply up_set_conn|simpl; lia|].
    exists (LSend true :: ls). split; [by constructor|]. cbn [run_labels].
    rewrite (sender_sends i c s Hu) by lia. cbn [mbind option_bind]. fold c1. by rewrite H, set_conn_set_conn.
Qed.

Lemma send_all i c s :
  up s i c → cn_sent c ≤ length (cn_history c) → sends i s (with_sent (length (cn_history c)) c).
Proof using.
  intros Hu Hle. destruct (send_queue i c s Hu Hle) as (ls & Hls & H). exists ls. split; [|done].
  eapply Forall_impl; [exact Hls|]. by intros l ->.
Qed.

(** What the resend loop has in hand, in either half of its round. *)
Definition half (K : list RelayToControl → ResendState) : Prop := K = RsResults ∨ K = RsDeltas.

Lemma resend_half r : r ≠ RsLeft → ∃ K l, half K ∧ r = K l.
Proof using.
  intros Hr. destruct r as [l|l|]; [exists RsResults, l|exists RsDeltas, l|done]; (split; [|done]); [by left|by right].
Qed.

(** With an empty queue, the resend loop and the sender together put all of it on the stream. *)
Lemma resend_all K i l c s :
  half K → 0 < OutboundBuffer cfg →
  up s i c → cn_resend c = K l → cn_sent c = length (cn_history c) →
  sends i s (with_resend (K []) (with_sent (length (cn_history c ++ l)) (with_history (cn_history c ++ l) c))).
Proof using.
  intros HK Hb. revert c s. induction l as [|m l IH]; intros c s Hu Hr Hs.
  - exists []. split; [done|]. simpl. f_equal. symmetry. rewrite app_nil_r.
    assert (with_resend (K []) (with_sent (length (cn_history c)) (with_history (cn_history c) c)) = c) as ->.
    { destruct c. simpl in *. by subst. }
    apply set_conn_id. by destruct Hu as [(_ & ? & _)%live_Some _ _].
  - pose proof (up_live _ _ _ Hu) as Hl.
    set (c1 := with_resend (K l) (with_history (cn_history c ++ [m]) c)).
    assert (Hu1 : up (set_conn i c1 s) i c1) by by eapply up_set_conn.
    eapply (sends_trans i s c1).
    { eapply sends_step; [done|by instantiate (1 := LResend true)|]. simpl. rewrite Hl. simpl.
      unfold resend_next. rewrite Hr. unfold enqueue, queue. rewrite length_drop, Hs, Nat.sub_diag.
      destruct (Nat.ltb_spec 0 (OutboundBuffer cfg)); [|lia]. by destruct HK as [-> | ->]. }
    set (c2 := with_sent (S (cn_sent c)) c1).
    eapply (sends_trans i _ c2).
    { eapply sends_step; [exact (up_live _ _ _ Hu1)|by instantiate (1 := LSend true)|].
      apply (sender_sends i c1 _ Hu1). simpl. rewrite length_app. simpl. lia. }
    rewrite set_conn_set_conn.
    refine (eq_rect _ (sends i (set_conn i c2 s)) (IH c2 _ _ _ _) _ _); simpl; try done.
    + by eapply up_set_conn.
    + rewrite length_app. simpl. lia.
    + unfold with_resend, with_sent, with_history. simpl. by rewrite <- app_assoc.
Qed.

(** [c'] is [c] with more sent, all of it written, and its resend loop where [r] says. *)
Record sent_more (c : Conn) (r : ResendState) (c' : Conn) (more : list RelayToControl) : Prop := {
  sm_history : cn_history c' = cn_history c ++ more;
  sm_sent : cn_sent c' = length (cn_history c');
  sm_resend : cn_resend c' = r;
}.

(** A step of the resend loop alone, then everything it took in hand. *)
Lemma sends_round l K i c s batch c1 :
  half K → 0 < OutboundBuffer cfg → up s i c → outbound deltas l →
  cn_sent c = length (cn_history c) →
  perform cfg capacity l s = Some (set_conn i c1 s) → c1 = with_resend (K batch) c →
  ∃ c', sends i s c' ∧ up (set_conn i c' s) i c' ∧ sent_more c (K []) c' batch.
Proof using.
  intros HK Hb Hu Ho Hs H ->. pose proof (up_live _ _ _ Hu) as Hl.
  set (c1 := with_resend (K batch) c) in *.
  assert (Hu1 : up (set_conn i c1 s) i c1) by by eapply up_set_conn.
  pose proof (resend_all K i _ c1 _ HK Hb Hu1 eq_refl Hs) as H2.
  eexists. split; [eapply sends_trans; [by eapply sends_step|exact H2]|]. split; [by eapply up_set_conn|done].
Qed.

(** The retained results are offered, when the loop waits for its tick. *)
Lemma sends_results i c s order :
  0 < OutboundBuffer cfg → up s i c → cn_sent c = length (cn_history c) → cn_resend c = RsDeltas [] →
  NoDup order → list_to_set order =@{gset string} dom (ss_unacked s) →
  ∃ c', sends i s c' ∧ up (set_conn i c' s) i c' ∧ sent_more c (RsResults []) c' (resend_batch order s).
Proof using.
  intros Hb Hu Hs Hr Hn Hd. eapply (sends_round (LResendTick order) RsResults); try done; [by left|].
  simpl. rewrite (up_live _ _ _ Hu). simpl. unfold resend_tick. rewrite Hr, bool_decide_eq_true_2; done.
Qed.

(** The pending deltas are offered, when the results have been. *)
Lemma sends_deltas i c s :
  0 < OutboundBuffer cfg → up s i c → cn_sent c = length (cn_history c) → cn_resend c = RsResults [] →
  ∃ c', sends i s c' ∧ up (set_conn i c' s) i c'
    ∧ sent_more c (RsDeltas []) c' (if HasInventory cfg then R_InventoryDelta <$> deltas else []).
Proof using.
  intros Hb Hu Hs Hr. eapply (sends_round (LResendPending deltas) RsDeltas); try done; [by right|].
  simpl. rewrite (up_live _ _ _ Hu). simpl. unfold resend_pending. by rewrite Hr.
Qed.

Lemma sent_more_trans c r1 c1 m1 r2 c2 m2 :
  sent_more c r1 c1 m1 → sent_more c1 r2 c2 m2 → sent_more c r2 c2 (m1 ++ m2).
Proof using. intros [H1 _ _] [H2 ? ?]. split; [by rewrite H2, H1, app_assoc|done..]. Qed.

(** Whatever it was doing, the loop gets back to its ticker. *)
Lemma sends_idle i c s :
  0 < OutboundBuffer cfg → up s i c → cn_sent c ≤ length (cn_history c) → cn_resend c ≠ RsLeft →
  ∃ c' more, sends i s c' ∧ up (set_conn i c' s) i c' ∧ sent_more c (RsDeltas []) c' more.
Proof using.
  intros Hb Hu Hle Hleft. pose proof (send_all i c s Hu Hle) as H1.
  set (c1 := with_sent (length (cn_history c)) c) in *.
  assert (Hu1 : up (set_conn i c1 s) i c1) by by eapply up_set_conn.
  destruct (resend_half (cn_resend c) Hleft) as (K & l & HK & Hr).
  pose proof (resend_all K i l c1 _ HK Hb Hu1 Hr eq_refl) as H2. set (c2 := with_resend _ _) in H2.
  pose proof (sends_trans _ _ _ _ H1 H2) as H12.
  assert (Hu2 : up (set_conn i c2 s) i c2) by by eapply up_set_conn.
  destruct HK as [-> | ->]; [|by exists c2, l].
  destruct (sends_deltas i c2 (set_conn i c2 s) Hb Hu2 eq_refl eq_refl) as (c3 & H3 & Hu3 & Hm).
  rewrite set_conn_set_conn in Hu3. exists c3, (l ++ if HasInventory cfg then R_InventoryDelta <$> deltas else []).
  split; [by eapply sends_trans|]. split; [done|]. by apply (sent_more_trans c (RsResults []) c2).
Qed.

(** A whole round: everything retained, then everything pending. *)
Lemma sends_all i c s :
  0 < OutboundBuffer cfg → session_ok cfg s → running s = Some (i, c) →
  ∃ c' before order, sends i s c' ∧ running (set_conn i c' s) = Some (i, c')
    ∧ list_to_set order =@{gset string} dom (ss_unacked s)
    ∧ sent_more c (RsDeltas []) c' (before ++ resend_batch order s
        ++ if HasInventory cfg then R_InventoryDelta <$> deltas else []).
Proof using.
  intros Hb Hok Hrun. pose proof (running_up _ _ _ Hok Hrun) as Hu. apply running_Some in Hrun as [Hl Hdone].
  pose proof (live_Some _ _ _ Hl) as (_ & Hc & _). pose proof (so_conn _ _ Hok _ _ Hc) as Hco.
  assert (Hleft : cn_resend c ≠ RsLeft) by (intros ?%(co_resending _ _ Hco); congruence).
  destruct (sends_idle i c s Hb Hu (co_sent _ _ Hco) Hleft) as (c1 & before & H1 & Hu1 & Hm1).
  set (order := elements (dom (ss_unacked s))).
  destruct (sends_results i c1 (set_conn i c1 s) order Hb Hu1 (sm_sent _ _ _ _ Hm1) (sm_resend _ _ _ _ Hm1))
    as (c2 & H2 & Hu2 & Hm2); [apply NoDup_elements|apply list_to_set_elements_L|].
  rewrite set_conn_set_conn in Hu2.
  assert (H12 : sends i s c2) by by eapply sends_trans.
  destruct (sends_deltas i c2 (set_conn i c2 s) Hb Hu2 (sm_sent _ _ _ _ Hm2) (sm_resend _ _ _ _ Hm2))
    as (c3 & H3 & Hu3 & Hm3). rewrite set_conn_set_conn in Hu3.
  exists c3, before, order. split; [by eapply sends_trans|]. split; [by apply up_running|].
  split; [apply list_to_set_elements_L|]. eapply sent_more_trans; [done|]. by eapply sent_more_trans.
Qed.

(** What was sent since is on the stream. *)
Lemma sent_more_written c r c' more m :
  sent_more c r c' more → cn_sent c ≤ length (cn_history c) → m ∈ more → m ∈ drop (cn_sent c) (written c').
Proof using.
  intros [H Hs _] Hle Hm. unfold written. rewrite Hs, firstn_all, H, drop_app_le by done.
  apply elem_of_app. by right.
Qed.
End outbound.

(** C12: from every reachable state with a running connection and a buffer of at least one message, steps of
    the sender and the resend loop alone, none of whose sends and enqueues fails, whatever the inventory has
    pending, bring any retained result onto the stream anew, and leave the connection running and the
    buffer of retained results as it was: a result the control plane has not acknowledged is never stuck
    while its connection runs. *)
Theorem retained_result_resent config deltas s i c j r :
  reachable config s → 0 < OutboundBuffer (New config).1 →
  running s = Some (i, c) → ss_unacked s !! j = Some r →
  ∃ ls s' c', Forall (outbound deltas) ls
    ∧ run_labels (New config).1 (New config).2 ls s = Some s'
    ∧ running s' = Some (i, c') ∧ resultMessage r ∈ drop (cn_sent c) (written c')
    ∧ ss_unacked s' = ss_unacked s.
Proof.
  intros Hok%reachable_ok Hb Hrun Hj.
  destruct (sends_all _ (New config).2 deltas i c s Hb Hok Hrun) as (c' & before & order & (ls & Ho & H) & Hl' & Hd & Hm).
  apply running_Some in Hrun as [Hl _]. pose proof (live_Some _ _ _ Hl) as (_ & Hc & _).
  pose proof (co_sent _ _ (so_conn _ _ Hok _ _ Hc)) as Hs.
  exists ls, (set_conn i c' s), c'. split_and!; try done. eapply sent_more_written; [done|done|].
  rewrite !elem_of_app. right. left. apply list_elem_of_fmap. exists r. split; [done|].
  apply list_elem_of_omap. exists j. split; [|done].
  apply (elem_of_list_to_set (C := gset string)). rewrite Hd. apply elem_of_dom. by eexists.
Qed.

Lemma retained_result_resent_witness :
  let s := sample_run (sample_running ++ sample_retain 0 sample_result) in
  ∃ i c, running s = Some (i, c) ∧
  ∃ ls s' c', Forall (outbound []) ls
    ∧ run_labels (New sample_config).1 (New sample_config).2 ls s = Some s'
    ∧ running s' = Some (i, c') ∧ resultMessage sample_result ∈ drop (cn_sent c) (written c')
    ∧ ss_unacked s' = ss_unacked s.
Proof.
  intros s. eexists _, _. split; [by vm_compute|].
  eapply (retained_result_resent sample_config [] s _ _ "j1").
  - apply sample_reachable. vm_compute. by eexists.
  - vm_compute. lia.
  - by vm_compute.
  - by vm_compute.
Defined.

(** Once a Send has failed nothing more is sent on that connection: the hypothesis that it runs is needed. *)
Example failed_send_ends_sending :
  let s := sample_run (sample_running ++ sample_retain 0 sample_result ++ [LSend false]) in
  (fst <$> live s, running s, perform (New sample_config).1 (New sample_config).2 (LSend true) s) = (Some 0, None, None).
Proof. vm_compute. reflexivity. Qed.
