(* ===== verification/SessionProgress.v ===== *)
(** * A worker on a running connection can always come to its end (internal/session/connection.go)

    From any state with a running connection, the worker of one of its jobs with the sender's help, and no
    other step, gets to its executor; and once the executor has returned, either hands the result over,
    retained and written to the stream, or abandons it because it was cancelled by no one's request. *)

From S2P Require Import Prelude GoString GoTime Wire Session SessionSteps SessionSafety SessionLiveness.
From stdpp Require Import options.

Section progress.
Context (cfg : Config) (capacity : nat) (Hbuffer : 0 < OutboundBuffer cfg).
Context (id : nat) (job : JobAssignment) (i : nat).

(** The sender's steps and the worker's own. *)
Definition own_step (l : label) : Prop :=
  l = LSend true ∨ l = LWorker id Proceed ∨ l = LWorker id (Enqueued true).

Definition goes (s s' : State) : Prop := ∃ ls, Forall own_step ls ∧ run_labels cfg capacity ls s = Some s'.

Definition worker_at (p : Phase) (b : bool) : Worker :=
  {| wk_conn := i; wk_job := job; wk_phase := p; wk_cancelled := b |}.

(** The worker stands at [p], its connection running. *)
Record stands (p : Phase) (s : State) (c : Conn) : Prop := {
  sd_up : up s i c;
  sd_sent : cn_sent c ≤ length (cn_history c);
  sd_worker : ∃ b, ss_workers s !! id = Some (worker_at p b);
}.

Lemma goes_refl s : goes s s.
Proof using. by exists []. Qed.

Lemma goes_trans s1 s2 s3 : goes s1 s2 → goes s2 s3 → goes s1 s3.
Proof using.
  intros (ls1 & H1 & R1) (ls2 & H2 & R2). exists (ls1 ++ ls2). split; [by apply Forall_app|].
  by rewrite run_labels_app, R1.
Qed.

Lemma goes_worker w choice s s' :
  ss_workers s !! id = Some w → choice = Proceed ∨ choice = Enqueued true →
  worker_step cfg id w choice s = Some s' → goes s s'.
Proof using.
  intros Hw Hc H. exists [LWorker id choice]. split.
  - apply Forall_singleton. right. destruct Hc as [->| ->]; auto.
  - simpl. rewrite Hw. simpl. by rewrite H.
Qed.

(** The sender empties the queue. *)
Lemma goes_sent p s c :
  stands p s c → let c' := with_sent (length (cn_history c)) c in
  goes s (set_conn i c' s) ∧ stands p (set_conn i c' s) c'.
Proof using.
  intros [Hu Hs Hw]. destruct (send_queue cfg capacity i c s Hu Hs) as (ls & Ho & H). split.
  - exists ls. split; [|done]. eapply Forall_impl; [exact Ho|]. by left.
  - split; [by eapply up_set_conn|done|exact Hw].
Qed.

(** A step that moves the worker on and leaves the connections alone. *)
Lemma goes_proceed p next s s1 c :
  stands p s c → ss_conns s1 = ss_conns s → ss_generations s1 = ss_generations s → ss_workers s1 = ss_workers s →
  (∀ b, worker_step cfg id (worker_at p b) Proceed s = Some (set_phase id (worker_at p b) next s1)) →
  ∃ s', goes s s' ∧ stands next s' c ∧ ss_unacked s' = ss_unacked s1 ∧ ss_outstanding s' = ss_outstanding s1.
Proof using.
  intros [[Hl Hd Hsd] Hs (b & Hw)] Ec Eg Ew H. eexists. split; [eapply goes_worker; [exact Hw|by left|apply H]|].
  split; [|done]. split; [|done|].
  - split; [|done..]. unfold live. cbn. rewrite Ec, Eg. exact Hl.
  - exists b. cbn. apply lookup_insert_eq.
Qed.

(** A step that enqueues: with the queue emptied first there is room. *)
Lemma goes_enqueue p next m s c :
  stands p s c →
  (∀ b s, worker_step cfg id (worker_at p b) (Enqueued true) s
     = worker_enqueue cfg id (worker_at p b) true m next s) →
  ∃ s' c', goes s s' ∧ stands next s' c' ∧ cn_history c' = cn_history c ++ [m]
    ∧ cn_sent c' = length (cn_history c) ∧ ss_unacked s' = ss_unacked s ∧ ss_outstanding s' = ss_outstanding s
    ∧ cn_explicit c' = cn_explicit c.
Proof using Hbuffer.
  intros Hst H. destruct (goes_sent _ _ _ Hst) as [Hg [Hu1 _ (b & Hw1)]].
  set (c1 := with_sent (length (cn_history c)) c) in *. set (s1 := set_conn i c1 s) in *.
  pose proof (live_Some _ _ _ (up_live _ _ _ Hu1)) as (_ & Hc1 & _).
  set (c2 := with_history (cn_history c ++ [m]) c1).
  assert (Hu2 : up (set_conn i c2 s1) i c2) by by eapply up_set_conn.
  exists (set_phase id (worker_at p b) next (set_conn i c2 s1)), c2. split_and!; [| |done..].
  - eapply goes_trans; [exact Hg|]. eapply goes_worker; [exact Hw1|by right|]. rewrite H.
    unfold worker_enqueue. cbn [wk_conn worker_at]. rewrite Hc1. cbn [mbind option_bind]. unfold enqueue, queue.
    cbn [c1 cn_sent cn_history with_sent]. rewrite drop_all. cbn [length].
    destruct (Nat.ltb_spec 0 (OutboundBuffer cfg)); [done|lia].
  - split; [by destruct Hu2; split|cbn; rewrite length_app; lia|]. exists b. cbn. apply lookup_insert_eq.
Qed.

(** To the executor. *)
Lemma goes_to_executor p s c :
  stands p s c → p = PAck ∨ p = PStarted ∨ p = PExecute →
  ∃ s' c', goes s s' ∧ stands PExecute s' c' ∧ cn_history c `prefix_of` cn_history c'
    ∧ ss_unacked s' = ss_unacked s ∧ ss_outstanding s' = ss_outstanding s ∧ cn_explicit c' = cn_explicit c.
Proof using Hbuffer.
  assert (Hstarted : ∀ s c, stands PStarted s c →
    ∃ s' c', goes s s' ∧ stands PExecute s' c' ∧ cn_history c `prefix_of` cn_history c'
      ∧ ss_unacked s' = ss_unacked s ∧ ss_outstanding s' = ss_outstanding s ∧ cn_explicit c' = cn_explicit c).
  { intros s1 c1 Hst. destruct (goes_enqueue _ PExecute (started (ja_JobId job) (ja_LeaseEpoch job)) _ _ Hst (λ b s, eq_refl))
      as (s' & c' & ? & ? & Eh & _ & ? & ? & ?).
    exists s', c'. split_and!; try done. rewrite Eh. by eexists. }
  intros Hst [->|[->| ->]]; [|by apply Hstarted|].
  - destruct (goes_enqueue _ PStarted (ack (ja_JobId job) (ja_LeaseEpoch job)) _ _ Hst (λ b s, eq_refl))
      as (s1 & c1 & Hg & Hst1 & Eh & _ & Eu & Eo & Ee).
    destruct (Hstarted _ _ Hst1) as (s' & c' & Hg' & Hst' & Hp & Eu' & Eo' & Ee'). exists s', c'.
    split_and!; [by eapply goes_trans|done| |congruence..]. rewrite Eh in Hp. etrans; [|exact Hp]. by eexists.
  - exists s, c. by split_and!; [apply goes_refl|..].
Qed.

(** Off the roster, the registry and the set of workers. *)
Lemma goes_away s c :
  stands PRemove s c →
  ∃ s' c', goes s s' ∧ up s' i c' ∧ ss_workers s' !! id = None ∧ cn_history c' = cn_history c
    ∧ cn_sent c' = length (cn_history c)
    ∧ ss_unacked s' = ss_unacked s ∧ ss_outstanding s' = ss_outstanding s.
Proof using.
  intros Hst. destruct (goes_sent _ _ _ Hst) as [Hg [Hu1 _ (b & Hw1)]].
  set (c1 := with_sent (length (cn_history c)) c) in *. set (s1 := set_conn i c1 s) in *.
  pose proof (live_Some _ _ _ (up_live _ _ _ Hu1)) as (_ & Hc1 & _).
  set (c2 := with_registry (delete (ja_JobId job) (cn_cancels c1)) (cn_explicit c1 ∖ {[ ja_JobId job ]}) c1).
  assert (Hu2 : up (set_conn i c2 s1) i c2) by by eapply up_set_conn.
  exists (set_workers (delete id (ss_workers s1)) (set_conn i c2 s1)), c2.
  split_and!; [|by destruct Hu2; split|apply lookup_delete_eq|done..].
  eapply goes_trans; [exact Hg|]. eapply goes_worker; [exact Hw1|by left|].
  unfold worker_step. cbn [wk_phase worker_at wk_conn wk_job]. unfold jobs_remove. by rewrite Hc1.
Qed.

(** From the executor's answer. *)
Lemma goes_from_result r s c :
  stands (PClear r) s c →
  ∃ s' c', goes s s' ∧ up s' i c' ∧ ss_workers s' !! id = None ∧
    ((isCancelled r = true ∧ (ja_JobId job ∉ cn_explicit c)
        ∧ ss_unacked s' = ss_unacked s ∧ ss_outstanding s' = pred (ss_outstanding s))
     ∨ (ss_unacked s' = <[jr_JobId r := r]> (ss_unacked s)
        ∧ resultMessage r ∈ drop (length (cn_history c)) (written c'))).
Proof using Hbuffer.
  intros Hst. destruct (goes_proceed _ (PDecide r) s (clearInFlight (ja_JobId job) s) c Hst eq_refl eq_refl eq_refl (λ b, eq_refl))
    as (s1 & Hg1 & Hst1 & Eu1 & Eo1).
  pose proof (live_Some _ _ _ (up_live _ _ _ (sd_up _ _ _ Hst1))) as (_ & Hc1 & _).
  assert (Hd : ∀ b, worker_step cfg id (worker_at (PDecide r) b) Proceed s1
    = Some (set_phase id (worker_at (PDecide r) b)
        (if isCancelled r && negb (wasExplicit (ja_JobId job) c) then PAbandon else PAdd r) s1)).
  { intros b. unfold worker_step. cbn. by rewrite Hc1. }
  destruct (goes_proceed _ _ s1 s1 c Hst1 eq_refl eq_refl eq_refl Hd) as (s2 & Hg2 & Hst2 & Eu2 & Eo2).
  assert (Hg : goes s s2) by by eapply goes_trans.
  assert (Eu : ss_unacked s2 = ss_unacked s) by (cbn in *; congruence).
  assert (Eo : ss_outstanding s2 = ss_outstanding s) by (cbn in *; congruence).
  clear Hd Hg1 Hg2 Eu1 Eu2 Eo1 Eo2 Hst1 Hc1 Hst.
  destruct (isCancelled r && negb (wasExplicit (ja_JobId job) c)) eqn:Hab.
  - destruct (goes_proceed _ PRemove s2 (releaseSlot s2) c Hst2 eq_refl eq_refl eq_refl (λ b, eq_refl))
      as (s3 & Hg3 & Hst3 & Eu3 & Eo3).
    destruct (goes_away _ _ Hst3) as (s4 & c4 & Hg4 & Hl4 & Hw4 & _ & _ & Eu4 & Eo4).
    exists s4, c4. split_and!; [by eapply goes_trans; [exact Hg|eapply goes_trans]|done|done|]. left.
    unfold wasExplicit in Hab. bool_prop. cbn in *. split_and!; congruence.
  - destruct (goes_proceed _ (PEnqueue r) s2 (unacked_add r s2) c Hst2 eq_refl eq_refl eq_refl (λ b, eq_refl))
      as (s3 & Hg3 & Hst3 & Eu3 & Eo3).
    destruct (goes_enqueue _ PRemove (resultMessage r) _ _ Hst3 (λ b s, eq_refl))
      as (s4 & c4 & Hg4 & Hst4 & Eh4 & _ & Eu4 & _ & _).
    destruct (goes_away _ _ Hst4) as (s5 & c5 & Hg5 & Hl5 & Hw5 & Eh5 & Es5 & Eu5 & _).
    exists s5, c5. split_and!; [|done|done|].
    { eapply goes_trans; [exact Hg|]. eapply goes_trans; [exact Hg3|]. by eapply goes_trans. }
    right. split; [cbn in *; congruence|]. unfold written. rewrite Es5, Eh5, firstn_all, Eh4, drop_app_length. by left.
Qed.
End progress.
