(* ===== verification/SessionDrain.v ===== *)
(** * A draining connection can always come to its end

    From any reachable state with a live connection that has been told to drain, the drain watcher with
    the sender's help, and no other step, ends the connection: at once when nothing is outstanding, else at the deadline. *)

From S2P Require Import Prelude GoString GoTime Wire Session SessionSteps SessionSafety SessionLiveness.
From stdpp Require Import options.

Section drain.
Context (cfg : Config) (capacity : nat) (Hbuffer : 0 < OutboundBuffer cfg).

(** The steps of the sender and of the watcher, with its deadline or before it. *)
Definition draining_step (deadline : bool) (l : label) : Prop :=
  l = LSend true ∨ ∃ choice, l = LWatch choice ∧ (choice = Timeout → deadline = true).

Definition drains (deadline : bool) (i : nat) (s : State) (c' : Conn) : Prop :=
  ∃ ls, Forall (draining_step deadline) ls ∧ run_labels cfg capacity ls s = Some (set_conn i c' s).

(** A drain that has to wait for its deadline is one with work outstanding. *)
Definition completes (i : nat) (c : Conn) (s : State) : Prop :=
  ∃ c', drains (negb (ss_outstanding s =? 0)) i s c' ∧ live (set_conn i c' s) = Some (i, c') ∧ cn_done c' = true
        ∧ cn_draining c' = cn_draining c.

Lemma drains_trans b i s c1 c2 : drains b i s c1 → drains b i (set_conn i c1 s) c2 → drains b i s c2.
Proof using.
  intros (ls1 & H1 & R1) (ls2 & H2 & R2). exists (ls1 ++ ls2). split; [by apply Forall_app|].
  rewrite run_labels_app, R1. simpl. by rewrite R2, set_conn_set_conn.
Qed.

Lemma drains_sends b i c s :
  up s i c → cn_sent c ≤ length (cn_history c) → drains b i s (with_sent (length (cn_history c)) c).
Proof using.
  intros Hu Hs. destruct (send_queue cfg capacity i c s Hu Hs) as (ls & H & R). exists ls. split; [|done]. eapply Forall_impl; [exact H|]. by left.
Qed.

Lemma drains_watch b i c s choice c1 :
  live s = Some (i, c) → (choice = Timeout → b = true) →
  watch_step cfg i c choice s = Some (set_conn i c1 s) → drains b i s c1.
Proof using.
  intros Hl Hb H. exists [LWatch choice]. split; [apply Forall_singleton; right; by exists choice|].
  simpl. rewrite Hl. simpl. by rewrite H.
Qed.

Lemma completes_after i c c1 s :
  drains (negb (ss_outstanding s =? 0)) i s c1 → cn_draining c1 = cn_draining c →
  completes i c1 (set_conn i c1 s) → completes i c s.
Proof using.
  intros H1 Hd (c2 & H2 & Hl & Hdone & Hd2). exists c2. rewrite set_conn_set_conn in Hl.
  split_and!; [by eapply drains_trans|done|done|congruence].
Qed.

(** One step of the watcher, after which the rest completes. *)
Lemma completes_watch i c s choice c1 :
  live s = Some (i, c) → (choice = Timeout → ss_outstanding s ≠ 0) → cn_draining c1 = cn_draining c →
  cn_ended c1 = false → watch_step cfg i c choice s = Some (set_conn i c1 s) →
  (cn_done c1 = true ∨ completes i c1 (set_conn i c1 s)) → completes i c s.
Proof using.
  intros Hl Ht Hd He H Hc. assert (Hs : drains (negb (ss_outstanding s =? 0)) i s c1).
  { eapply drains_watch; [done| |done]. intros ?%Ht. by apply negb_true_iff, Nat.eqb_neq. }
  destruct Hc as [Hdone|Hc]; [|by eapply completes_after].
  exists c1. split_and!; [done|by eapply live_set_conn|done|done].
Qed.

(** The watcher from each of its places on, in the order it comes to them. *)
Lemma completes_timeout i c s d :
  live s = Some (i, c) → cn_watch c = WSelect d → ss_outstanding s ≠ 0 → completes i c s.
Proof using.
  intros Hl Hw Ho. pose proof (live_Some _ _ _ Hl) as (_ & _ & He).
  eapply (completes_watch i c s Timeout); [done|done| | |unfold watch_step; rewrite Hw; done|by left]; done.
Qed.

Lemma completes_look i c s d : live s = Some (i, c) → cn_watch c = WLook d → completes i c s.
Proof using.
  intros Hl Hw. pose proof (live_Some _ _ _ Hl) as (_ & _ & He). destruct (ss_outstanding s =? 0) eqn:E.
  - eapply (completes_watch i c s Advance); [done|done| | |unfold watch_step; rewrite Hw, E; done|by left]; done.
  - eapply (completes_watch i c s Advance); [done|done| | |unfold watch_step; rewrite Hw, E; done|right]; [done..|].
    eapply completes_timeout; [by eapply live_set_conn|done|]. by apply Nat.eqb_neq.
Qed.

Lemma completes_enqueue i c s d m :
  up s i c → cn_sent c ≤ length (cn_history c) → cn_watch c = WEnqueue d m → completes i c s.
Proof using Hbuffer.
  intros Hu Hs Hw. pose proof (live_Some _ _ _ (up_live _ _ _ Hu)) as (_ & _ & He).
  pose proof (drains_sends (negb (ss_outstanding s =? 0)) i c s Hu Hs) as H1. set (c1 := with_sent (length (cn_history c)) c) in *.
  eapply completes_after; [done|done|].
  assert (Hl1 : live (set_conn i c1 s) = Some (i, c1)) by (eapply live_set_conn; [exact (up_live _ _ _ Hu)|done]).
  eapply (completes_watch i c1 _ (Reported true)); [done|done| | | |right].
  3: { unfold watch_step. simpl. rewrite Hw. unfold enqueue, queue. simpl. rewrite drop_all. simpl.
       destruct (Nat.ltb_spec 0 (OutboundBuffer cfg)); [simpl; done|lia]. }
  - done.
  - done.
  - eapply completes_look; [by eapply live_set_conn|done].
Qed.

Lemma completes_report i c s d :
  up s i c → cn_sent c ≤ length (cn_history c) → cn_watch c = WReport d → completes i c s.
Proof using Hbuffer.
  intros Hu Hs Hw. pose proof (live_Some _ _ _ (up_live _ _ _ Hu)) as (_ & _ & He).
  eapply (completes_watch i c s Advance); [exact (up_live _ _ _ Hu)|done| | |unfold watch_step; rewrite Hw; done|right];
    [done..|].
  eapply completes_enqueue; [by eapply up_set_conn|done|done].
Qed.

Lemma completes_select i c s d :
  up s i c → cn_sent c ≤ length (cn_history c) → cn_watch c = WSelect d → completes i c s.
Proof using Hbuffer.
  intros Hu Hs Hw. pose proof (up_live _ _ _ Hu) as Hl. pose proof (live_Some _ _ _ Hl) as (_ & _ & He).
  destruct (decide (ss_outstanding s = 0)) as [Ho|Ho]; [|by eapply completes_timeout].
  eapply (completes_watch i c s Tick); [done|done| | |unfold watch_step; rewrite Hw; done|right]; [done..|].
  eapply completes_report; [by eapply up_set_conn|done|done].
Qed.

Lemma completes_draining i c s :
  conn_ok cfg c → up s i c → cn_draining c = true → completes i c s.
Proof using Hbuffer.
  intros Hc Hu Hd. pose proof (co_sent _ _ Hc) as Hs. pose proof (up_live _ _ _ Hu) as Hl.
  pose proof (live_Some _ _ _ Hl) as (_ & _ & He).
  destruct (cn_watch c) as [|d|d m|d|d|] eqn:Hw.
  - destruct (co_waiting _ _ Hc Hd Hw) as [d Hdl].
    eapply (completes_watch i c s Advance); [done|done| | |unfold watch_step; rewrite Hw, Hdl; done|right]; [done..|].
    eapply completes_report; [by eapply up_set_conn|done|done].
  - by eapply completes_report.
  - by eapply completes_enqueue.
  - by eapply completes_look.
  - by eapply completes_select.
  - apply (co_watched _ _ Hc) in Hw. pose proof (up_done _ _ _ Hu). congruence.
Qed.
End drain.

(** The watcher ends a connection in two ways only. *)
Lemma watch_ends cfg i c choice s s' c' :
  watch_step cfg i c choice s = Some s' → ss_conns s' !! i = Some c' → cn_done c = false → cn_done c' = true →
  ss_outstanding s = 0 ∨ choice = Timeout.
Proof.
  unfold watch_step. destruct (cn_watch c), choice; intros H Hc Hn Hd; try done; try (by right); option_steps;
    rewrite ?lookup_insert_eq in *; simplify_eq/=; bool_prop; auto; try congruence.
  match goal with H : enqueue _ _ _ _ = Some _ |- _ => apply enqueue_Some in H as [[-> ?] | [-> ?]] end;
    simpl in *; congruence.
Qed.

(** C15: a drain comes to its end, and not before its time. From every reachable state whose live
    connection has been told to drain, steps of the watcher and the sender alone bring
    the connection to its end, touching nothing but that connection: no job, no retained result and no
    slot is given up for it; with nothing outstanding the deadline is not waited for. And the watcher
    never ends a connection with work outstanding before the deadline. *)
Theorem drain_completes config s i c :
  reachable config s → 0 < OutboundBuffer (New config).1 →
  live s = Some (i, c) → cn_draining c = true →
  (∃ ls c', Forall (draining_step (negb (ss_outstanding s =? 0))) ls
    ∧ run_labels (New config).1 (New config).2 ls s = Some (set_conn i c' s)
    ∧ live (set_conn i c' s) = Some (i, c') ∧ cn_done c' = true)
  ∧ ∀ choice s' c', perform (New config).1 (New config).2 (LWatch choice) s = Some s' →
      live s' = Some (i, c') → cn_done c = false → cn_done c' = true →
      ss_outstanding s = 0 ∨ choice = Timeout.
Proof.
  intros Hr Hb Hl Hd. pose proof (live_Some _ _ _ Hl) as (_ & Hc & _). split.
  - destruct (cn_done c) eqn:Hn.
    { exists [], c. by rewrite set_conn_id. }
    apply reachable_ok in Hr.
    assert (Hu : up s i c) by (eapply running_up; [exact Hr|by apply running_Some]).
    destruct (completes_draining _ (New config).2 Hb i c s (so_conn _ _ Hr _ _ Hc) Hu Hd)
      as (c' & (ls & Ho & H) & Hl' & Hdone & _).
    by exists ls, c'.
  - intros choice s' c' H (_ & Hc' & _)%live_Some. simpl in H. rewrite Hl in H. simpl in H. by eapply watch_ends.
Qed.

Lemma drain_completes_witness :
  let s := sample_run (sample_running ++ sample_drain) in
  ss_outstanding s = 1 ∧ ∃ i c, live s = Some (i, c) ∧
  ∃ ls c', run_labels (New sample_config).1 (New sample_config).2 ls s = Some (set_conn i c' s)
    ∧ cn_done c' = true.
Proof.
  intros s. split; [by vm_compute|]. eexists _, _. split; [by vm_compute|].
  edestruct (drain_completes sample_config s) as [(ls & c' & _ & H & _ & Hd) _];
    [| |by vm_compute|by vm_compute|by exists ls, c'].
  - apply sample_reachable. vm_compute. by eexists.
  - vm_compute. lia.
Defined.
