(* ===== verification/Backoff.v ===== *)
(** * Reconnect backoff (internal/session: backoff.go, run.go)

    [Run]'s loop as far as its timing goes: what each connection attempt came to decides the delay before
    the next one. The whole loop, with what the attempts do to the session, is in Supervisor.v. Durations are int64;
    the doubling wraps. The random source is a parameter. *)

From S2P Require Import Prelude GoString GoTime.
From stdpp Require Import options.
Local Open Scope Z_scope.

Section backoff.
(** [rand.Rand.Int63n] at its next draw; it panics for [n <= 0]. *)
Context (Int63n : nat → Z → Z).

Record backoffConfig := { bc_base : Duration; bc_max : Duration }.

Record backoff := { bo_config : backoffConfig; bo_current : Duration }.

Definition newBackoff (config : backoffConfig) : backoff := {| bo_config := config; bo_current := 0 |}.

(** The un-jittered ceiling's next value. *)
Definition advance (b : backoff) : Duration :=
  if bo_current b =? 0 then bc_base (bo_config b)
  else
    let current := int64 (bo_current b * 2) in
    if bc_max (bo_config b) <? current then bc_max (bo_config b) else current.

(** [None]: the source's [Int63n] panics. *)
Definition fullJitter (draw : nat) (d : Duration) : option Duration :=
  if d <=? 0 then Some 0
  else if int64 (d + 1) <=? 0 then None
  else Some (Int63n draw (int64 (d + 1))).

Definition next (draw : nat) (b : backoff) : option Duration * backoff :=
  let b' := {| bo_config := bo_config b; bo_current := advance b |} in
  (fullJitter draw (bo_current b'), b').

Definition reset (b : backoff) : backoff := {| bo_config := bo_config b; bo_current := 0 |}.

(** ** run.go *)

Definition reconnect_config (ReconnectBase ReconnectMax : Duration) : backoffConfig :=
  let base := if ReconnectBase <=? 0 then Second else ReconnectBase in
  let max := if ReconnectMax <? base then 30 * Second else ReconnectMax in
  {| bc_base := base; bc_max := max |}.

(** What an attempt came to: no stream, a stream whose session was refused, or a session that was
    established and later ended. *)
Inductive attempt := NoStream | Refused | Established.

(** [Run]'s loop over its attempts: the delays slept, in order; [None] if the process panicked. *)
Fixpoint run_delays (draw : nat) (b : backoff) (attempts : list attempt) : option (list Duration) :=
  match attempts with
  | [] => Some []
  | a :: attempts =>
      let b := match a with Established => reset b | _ => b end in
      let '(delay, b) := next draw b in
      d ← delay;
      ds ← run_delays (S draw) b attempts;
      Some (d :: ds)
  end.

Definition Run_delays (ReconnectBase ReconnectMax : Duration) (attempts : list attempt)
    : option (list Duration) :=
  run_delays 0 (newBackoff (reconnect_config ReconnectBase ReconnectMax)) attempts.

(** ** Properties *)

(** The documented contract of [Int63n]. *)
Context (Int63n_range : ∀ draw n, 0 < n → 0 ≤ Int63n draw n < n).

(** The ceiling after [n] failures in a row since the last reset. *)
Definition ceiling (c : backoffConfig) (n : nat) : Duration :=
  match n with
  | O => 0
  | S k => if bc_max c <? bc_base c then if (k =? 0)%nat then bc_base c else bc_max c
           else Z.min (bc_base c * 2 ^ Z.of_nat k) (bc_max c)
  end.

Lemma advance_ceiling c n :
  0 < bc_base c ≤ 2 ^ 61 → 0 < bc_max c ≤ 2 ^ 61 →
  advance {| bo_config := c; bo_current := ceiling c n |} = ceiling c (S n).
Proof.
  intros Hb Hm. unfold advance. simpl bo_config. simpl bo_current.
  destruct n as [|k].
  - simpl ceiling. rewrite Z.mul_1_r. destruct (Z.ltb_spec (bc_max c) (bc_base c)); simpl; lia.
  - assert (Hp : 0 < 2 ^ Z.of_nat k) by lia.
    assert (Hpos : 0 < ceiling c (S k) ≤ 2 ^ 61).
    { simpl. destruct (Z.ltb_spec (bc_max c) (bc_base c)); [by case_match; lia|]. nia. }
    rewrite int64_id by lia. destruct (Z.eqb_spec (ceiling c (S k)) 0) as [E|_]; [lia|].
    unfold ceiling in *. destruct (Z.ltb_spec (bc_max c) (bc_base c)) as [Hl|Hl].
    + simpl (S k =? 0)%nat. cbv iota. destruct (k =? 0)%nat; case_match; bool_prop; lia.
    + rewrite Nat2Z.inj_succ, Z.pow_succ_r by lia. case_match; bool_prop; lia.
Qed.

Lemma ceiling_range c n :
  0 < bc_base c → 0 < bc_max c → 0 ≤ ceiling c n ≤ Z.max (bc_base c) (bc_max c).
Proof.
  intros Hb Hm. destruct n as [|k]; simpl; [lia|].
  assert (0 < 2 ^ Z.of_nat k) by lia. destruct (Z.ltb_spec (bc_max c) (bc_base c)); [by case_match; lia|]. nia.
Qed.

(** How many attempts since the last established session. *)
Definition since (n : nat) (a : attempt) : nat := match a with Established => 1 | _ => S n end.

Fixpoint ceilings (c : backoffConfig) (n : nat) (attempts : list attempt) : list Duration :=
  match attempts with
  | [] => []
  | a :: attempts => ceiling c (since n a) :: ceilings c (since n a) attempts
  end.

Lemma run_delays_ceilings c attempts n draw :
  0 < bc_base c ≤ 2 ^ 61 → 0 < bc_max c ≤ 2 ^ 61 →
  ∃ ds, run_delays draw {| bo_config := c; bo_current := ceiling c n |} attempts = Some ds
        ∧ Forall2 (λ d x, 0 ≤ d ≤ x) ds (ceilings c n attempts).
Proof using Int63n_range.
  intros Hb Hm. revert n draw. induction attempts as [|a attempts IH]; intros n draw; [by eexists|].
  cbn [run_delays ceilings].
  set (b := match a with Established => _ | _ => _ end).
  assert (Ha : advance b = ceiling c (since n a)).
  { subst b. destruct a; cbn [since]; try by apply advance_ceiling. apply (advance_ceiling c 0 Hb Hm). }
  assert (Hc : bo_config b = c) by by subst b; destruct a.
  unfold next. rewrite Ha, Hc. cbv beta iota zeta. simpl bo_current.
  destruct (IH (since n a) (S draw)) as (ds & Hds & Hall).
  pose proof (ceiling_range c (since n a) ltac:(lia) ltac:(lia)) as Hr.
  assert (∃ d, fullJitter draw (ceiling c (since n a)) = Some d ∧ 0 ≤ d ≤ ceiling c (since n a))
    as (d & Hd & Hrange).
  { unfold fullJitter. rewrite int64_id by lia.
    destruct (Z.leb_spec (ceiling c (since n a)) 0); [exists 0; split; [done|lia]|].
    destruct (Z.leb_spec (ceiling c (since n a) + 1) 0); [lia|].
    eexists. split; [done|].
    pose proof (Int63n_range draw (ceiling c (since n a) + 1)). lia. }
  rewrite Hd, Hds. simpl. eexists. split; [done|]. by constructor.
Qed.
End backoff.

(** The delays stay below their ceilings. *)
Lemma Run_delays_bounded Int63n ReconnectBase ReconnectMax attempts :
  (∀ draw n, 0 < n → 0 ≤ Int63n draw n < n) →
  ReconnectBase ≤ 2 ^ 61 → ReconnectMax ≤ 2 ^ 61 →
  ∃ ds, Run_delays Int63n ReconnectBase ReconnectMax attempts = Some ds
        ∧ Forall2 (λ d x, 0 ≤ d ≤ x) ds (ceilings (reconnect_config ReconnectBase ReconnectMax) 0 attempts).
Proof.
  intros HI Hb Hm. apply (run_delays_ceilings Int63n HI _ attempts 0%nat 0%nat);
    unfold reconnect_config, Second in *; simpl; repeat case_match; bool_prop; lia.
Qed.

(** for configured delays of at most 2^61 ns (some 73 years; unset or negative ones take the
    defaults), [Run] never panics and sleeps before every attempt, between zero and a ceiling that is the
    base delay after the first failure, doubles with each further failure in a row, never exceeds the
    effective maximum when that is at least the base, and starts over after an established session. *)
Theorem Run_backs_off Int63n ReconnectBase ReconnectMax attempts :
  (∀ draw n, 0 < n → 0 ≤ Int63n draw n < n) →
  ReconnectBase ≤ 2 ^ 61 → ReconnectMax ≤ 2 ^ 61 →
  let c := reconnect_config ReconnectBase ReconnectMax in
  (∃ ds, Run_delays Int63n ReconnectBase ReconnectMax attempts = Some ds
         ∧ Forall2 (λ d x, 0 ≤ d ≤ x) ds (ceilings c 0 attempts))
  ∧ (∀ k, bc_base c ≤ bc_max c → ceiling c (S k) = Z.min (bc_base c * 2 ^ Z.of_nat k) (bc_max c)).
Proof.
  intros HI Hb Hm c. split; [by apply Run_delays_bounded|].
  intros k Hle. unfold ceiling. destruct (Z.ltb_spec (bc_max c) (bc_base c)); [lia|done].
Qed.

Lemma Run_backs_off_witness :
  ∃ ds, Run_delays (λ _ n, n - 1) Second (4 * Second) [NoStream; NoStream; Refused; NoStream; Established] = Some ds
        ∧ Forall2 (λ d x, 0 ≤ d ≤ x) ds
            (ceilings (reconnect_config Second (4 * Second)) 0 [NoStream; NoStream; Refused; NoStream; Established]).
Proof.
  refine (proj1 (Run_backs_off (λ _ n, n - 1) Second (4 * Second) _ _ _ _)).
  - intros; lia.
  - vm_compute. congruence.
  - vm_compute. congruence.
Defined.

Example growing_delays :
  Run_delays (λ _ n, n - 1) Second (4 * Second) [NoStream; NoStream; Refused; NoStream; Established]
  = Some [Second; 2 * Second; 4 * Second; 4 * Second; Second].
Proof. by vm_compute. Qed.

(** A base above thirty seconds with no maximum configured: the effective maximum is below the base, and
    the second delay's ceiling is smaller than the first's. *)
Example maximum_below_base :
  let c := reconnect_config (60 * Second) 0 in
  bc_max c < bc_base c ∧ ceilings c 0 [NoStream; NoStream] = [60 * Second; 30 * Second].
Proof. by vm_compute. Qed.
