(* ===== verification/Supervisor.v ===== *)
(** * The reconnect supervisor (internal/session/run.go)

    [Run] as a whole: the session of Session.v and the backoff of Backoff.v under the loop that connects,
    serves one connection to its end, sleeps, and connects again until the process is told to stop. A
    worker outlives the connection that admitted it, so the session moves at every place of the loop. *)

From S2P Require Import Prelude GoString GoTime Wire Session SessionSteps SessionSafety SessionLiveness Backoff.
From stdpp Require Import options.

(** Where [Run] stands. *)
Inductive stage :=
  | Checking                           (* about to look at its context *)
  | Connecting                         (* in [connect], or waiting for SessionAccepted *)
  | Serving                            (* in [runConnection]'s group *)
  | Sleeping (d : Duration)
  | Returned
  | Panicked.

Record Supervisor := {
  sp_stage : stage;
  sp_stopped : bool;                   (* the process context is cancelled *)
  sp_backoff : backoff;
  sp_draws : nat;                      (* numbers drawn from the random source *)
  sp_session : State;
  sp_attempts : list attempt;          (* what the attempts came to, and the delays they were followed by *)
  sp_delays : list Duration;
}.

Inductive move :=
  | Stop                               (* the process is told to stop *)
  | Check
  | Unreachable                        (* [connect] fails *)
  | Rejected                           (* hello cannot be sent, or the reply is no SessionAccepted *)
  | Accepted (reply : ControlToRelay)
  | Step (l : label)                   (* a goroutine of the session *)
  | ConnectionOver                     (* [runConnection] returns *)
  | Wake                               (* the timer *)
  | Interrupted.                       (* the sleep is cut short *)

Section supervisor.
Context (Int63n : nat → Z → Z) (cfg : Config) (capacity : nat) (ReconnectBase ReconnectMax : Duration).

Definition Start : Supervisor :=
  {| sp_stage := Checking; sp_stopped := false;
     sp_backoff := newBackoff (reconnect_config ReconnectBase ReconnectMax); sp_draws := 0;
     sp_session := initial; sp_attempts := []; sp_delays := [] |}.

Definition at_stage (p : stage) (r : Supervisor) : Supervisor :=
  {| sp_stage := p; sp_stopped := sp_stopped r; sp_backoff := sp_backoff r; sp_draws := sp_draws r;
     sp_session := sp_session r; sp_attempts := sp_attempts r; sp_delays := sp_delays r |}.

Definition with_session (s : State) (r : Supervisor) : Supervisor :=
  {| sp_stage := sp_stage r; sp_stopped := sp_stopped r; sp_backoff := sp_backoff r; sp_draws := sp_draws r;
     sp_session := s; sp_attempts := sp_attempts r; sp_delays := sp_delays r |}.

(** [sleep(ctx, b.next())] *)
Definition sleep_next (a : attempt) (r : Supervisor) : Supervisor :=
  let b := match a with Established => reset (sp_backoff r) | _ => sp_backoff r end in
  let '(delay, b) := next Int63n (sp_draws r) b in
  {| sp_stage := match delay with Some d => Sleeping d | None => Panicked end;
     sp_stopped := sp_stopped r; sp_backoff := b; sp_draws := S (sp_draws r); sp_session := sp_session r;
     sp_attempts := sp_attempts r ++ [a];
     sp_delays := sp_delays r ++ match delay with Some d => [d] | None => [] end |}.

(** After [runConnection]: [Run] looks at the process context before it sleeps. *)
Definition connection_over (a : attempt) (r : Supervisor) : Supervisor :=
  if sp_stopped r then at_stage Returned r else sleep_next a r.

(** The context of the live connection, if there is one, is a child of the process context. *)
Definition told_to_stop (s : State) : State := default s (perform cfg capacity (LFail false) s).

Definition supervise (m : move) (r : Supervisor) : option Supervisor :=
  match m, sp_stage r with
  | Stop, p =>
      let r := {| sp_stage := p; sp_stopped := true; sp_backoff := sp_backoff r; sp_draws := sp_draws r;
                  sp_session := told_to_stop (sp_session r);
                  sp_attempts := sp_attempts r; sp_delays := sp_delays r |} in
      Some r
  | Check, Checking => Some (at_stage (if sp_stopped r then Returned else Connecting) r)
  | Unreachable, Connecting => Some (sleep_next NoStream r)
  | Rejected, Connecting => Some (connection_over Refused r)
  | Accepted reply, Connecting =>
      match awaitAccepted reply with
      | None => None
      | Some _ =>
          s ← perform cfg capacity (LConnect reply) (sp_session r);
          Some (at_stage Serving (with_session (if sp_stopped r then told_to_stop s else s) r))
      end
  | Step (LConnect _), _ => None
  | Step l, _ => s ← perform cfg capacity l (sp_session r); Some (with_session s r)
  | ConnectionOver, Serving =>
      match live (sp_session r) with Some _ => None | None => Some (connection_over Established r) end
  | Wake, Sleeping _ => Some (at_stage Checking r)
  | Interrupted, Sleeping _ => if sp_stopped r then Some (at_stage Returned r) else None
  | _, _ => None
  end.
End supervisor.

Fixpoint supervise_all (Int63n : nat → Z → Z) (cfg : Config) (capacity : nat) (ms : list move) (r : Supervisor)
    : option Supervisor :=
  match ms with
  | [] => Some r
  | m :: ms => r ← supervise Int63n cfg capacity m r; supervise_all Int63n cfg capacity ms r
  end.

(** States of a process that runs a session built with [New]. *)
Inductive supervised (Int63n : nat → Z → Z) (config : Config) (ReconnectBase ReconnectMax : Duration)
    : Supervisor → Prop :=
  | supervised_start : supervised Int63n config ReconnectBase ReconnectMax (Start ReconnectBase ReconnectMax)
  | supervised_move r m r' :
      supervised Int63n config ReconnectBase ReconnectMax r →
      supervise Int63n (New config).1 (New config).2 m r = Some r' →
      supervised Int63n config ReconnectBase ReconnectMax r'.

(** ** The delays are those of the backoff *)

Section delays.
Context (Int63n : nat → Z → Z).

Definition resets (a : attempt) (b : backoff) : backoff := match a with Established => reset b | _ => b end.

(** The backoff after an attempt; no draw changes it. *)
Definition after (b : backoff) (a : attempt) : backoff :=
  {| bo_config := bo_config b; bo_current := advance (resets a b) |}.

Lemma next_after draw a b :
  next Int63n draw (resets a b) = (fullJitter Int63n draw (bo_current (after b a)), after b a).
Proof. unfold next, after. by destruct a. Qed.

Lemma run_delays_cons draw b a l :
  run_delays Int63n draw b (a :: l)
  = (d ← fullJitter Int63n draw (bo_current (after b a)); ds ← run_delays Int63n (S draw) (after b a) l; Some (d :: ds)).
Proof. cbn [run_delays]. fold (resets a b). by rewrite next_after. Qed.

Lemma run_delays_snoc draw b l a :
  run_delays Int63n draw b (l ++ [a])
  = (ds ← run_delays Int63n draw b l;
     d ← fullJitter Int63n (draw + length l) (bo_current (after (foldl after b l) a)); Some (ds ++ [d])).
Proof.
  revert draw b. induction l as [|x l IH]; intros draw b.
  - cbn [app foldl length]. rewrite run_delays_cons, Nat.add_0_r. cbn. by destruct (fullJitter _ _ _).
  - cbn [app foldl length]. rewrite !run_delays_cons, IH. cbn. destruct (fullJitter Int63n draw _); [|done]. cbn.
    destruct (run_delays _ _ _ l); [|done]. cbn. rewrite <- Nat.add_succ_comm. by destruct (fullJitter _ _ _).
Qed.

(** What a supervisor has slept so far. *)
Record timed (ReconnectBase ReconnectMax : Duration) (r : Supervisor) : Prop := {
  tm_draws : sp_draws r = length (sp_attempts r);
  tm_backoff : sp_backoff r
    = foldl after (newBackoff (reconnect_config ReconnectBase ReconnectMax)) (sp_attempts r);
  tm_delays : Run_delays Int63n ReconnectBase ReconnectMax (sp_attempts r)
    = match sp_stage r with Panicked => None | _ => Some (sp_delays r) end;
  tm_sleeping d : sp_stage r = Sleeping d → last (sp_delays r) = Some d;
}.

Lemma sleep_next_timed base max a r :
  sp_stage r ≠ Panicked → timed base max r → timed base max (sleep_next Int63n a r).
Proof.
  intros Hp [Hd Hb Hds _]. unfold sleep_next. fold (resets a (sp_backoff r)). rewrite next_after.
  assert (Hr : Run_delays Int63n base max (sp_attempts r ++ [a])
    = (d ← fullJitter Int63n (sp_draws r) (bo_current (after (sp_backoff r) a)); Some (sp_delays r ++ [d]))).
  { unfold Run_delays in *. rewrite run_delays_snoc, Hds, Hb, Hd. by destruct (sp_stage r). }
  destruct (fullJitter _ _ _) as [d|] eqn:E; split; cbn [sp_draws sp_attempts sp_backoff sp_stage sp_delays].
  1, 5: by rewrite length_app, Nat.add_1_r, Hd.
  1, 4: by rewrite foldl_snoc, Hb.
  - by rewrite Hr.
  - intros d' [= <-]. apply last_snoc.
  - by rewrite Hr.
  - done.
Qed.

Lemma at_stage_timed base max p r :
  sp_stage r ≠ Panicked → p ≠ Panicked → (∀ d, p ≠ Sleeping d) → timed base max r → timed base max (at_stage p r).
Proof.
  intros Hp Hq Hs [Hd Hb Hds _]. split; cbn [at_stage sp_draws sp_attempts sp_backoff sp_stage sp_delays]; try done.
  - rewrite Hds. by destruct (sp_stage r), p.
  - intros d ->. by destruct (Hs d).
Qed.

Lemma with_session_timed base max s r : timed base max r → timed base max (with_session s r).
Proof. by intros []. Qed.

Lemma connection_over_timed base max a r :
  sp_stage r ≠ Panicked → timed base max r → timed base max (connection_over Int63n a r).
Proof.
  intros Hp Ht. unfold connection_over. destruct (sp_stopped r); [by apply at_stage_timed|by apply sleep_next_timed].
Qed.

Lemma supervise_timed cfg capacity base max m r r' :
  supervise Int63n cfg capacity m r = Some r' → timed base max r → timed base max r'.
Proof.
  intros H Ht. assert (Hstep : ∀ l, (s ← perform cfg capacity l (sp_session r); Some (with_session s r)) = Some r' →
    timed base max r').
  { intros l (s & _ & [= <-])%bind_Some. by apply with_session_timed. }
  unfold supervise in H. destruct m as [| | | |reply|l| | |]; destruct (sp_stage r) eqn:E; try done; try (injection H as <-).
  all: try (by destruct Ht; split; rewrite <- ?E).
  all: try (by apply at_stage_timed; rewrite ?E; try done; destruct (sp_stopped r)).
  all: try (by apply sleep_next_timed; rewrite ?E).
  all: try (by apply connection_over_timed; rewrite ?E).
  all: try (by destruct l; eauto).
  - destruct (awaitAccepted reply); [|done]. apply bind_Some in H as (x & _ & [= <-]).
    apply at_stage_timed; [cbn [with_session sp_stage]; by rewrite E|done|done|]. by apply with_session_timed.
  - destruct (live _); [done|]. injection H as <-. apply connection_over_timed; [by rewrite E|done].
  - destruct (sp_stopped r); [|done]. injection H as <-. apply at_stage_timed; [by rewrite E|done..].
Qed.
End delays.

(** ** The session under the loop *)

Section session.
Context (cfg : Config) (capacity : nat).

Lemma tracks_live s s' i c' :
  tracks cfg s s' → live s' = Some (i, c') → ∃ c, live s = Some (i, c) ∧ evolves cfg c c'.
Proof using.
  intros [Hc Hg] (-> & Hi & He)%live_Some. rewrite Hg in *. specialize (Hc (pred (ss_generations s))). rewrite Hi in Hc.
  inversion Hc as [c x Hev E Ex|]. simplify_eq. exists c. split; [|done]. unfold live. rewrite <- E. simpl.
  destruct (cn_ended c) eqn:Ec; [|done]. by rewrite (ev_stays_ended _ _ _ Hev Ec) in He.
Qed.

Definition connects (l : label) : bool := match l with LConnect _ => true | _ => false end.

Lemma step_tracks l s s' : connects l = false → perform cfg capacity l s = Some s' → tracks cfg s s'.
Proof using.
  intros Hl H. destruct (perform_tracks _ _ _ _ _ H) as [?|(Hn & _)]; [done|].
  destruct l; try done; unfold perform in H; try (by rewrite Hn in H).
  destruct (ss_workers s !! id); [|done]. by eapply worker_step_tracks.
Qed.

(** Every connection still running has been told to stop. *)
Definition all_told (s : State) : Prop := ∀ i c, live s = Some (i, c) → cn_done c = true.

Lemma tracks_none s s' : tracks cfg s s' → live s = None → live s' = None.
Proof using.
  intros Ht Hn. destruct (live s') as [[i c']|] eqn:E; [|done]. destruct (tracks_live _ _ _ _ Ht E) as (c & Hc & _). congruence.
Qed.

Lemma tracks_told s s' : tracks cfg s s' → all_told s → all_told s'.
Proof using.
  intros Ht Ha i c' E. destruct (tracks_live _ _ _ _ Ht E) as (c & Hc & Hev). eapply ev_done; [done|by eapply Ha].
Qed.

Lemma told_to_stop_spec s :
  all_told (told_to_stop cfg capacity s)
  ∧ ((live s = None ∧ told_to_stop cfg capacity s = s)
     ∨ perform cfg capacity (LFail false) s = Some (told_to_stop cfg capacity s)).
Proof using.
  unfold told_to_stop. cbn [perform]. destruct (live s) as [[i c]|] eqn:E; cbn [mbind option_bind].
  - split; [|by right]. cbn. pose proof (live_Some _ _ _ E) as (_ & _ & He). intros j d H.
    rewrite (live_set_conn i c _ s E) in H by done. by simplify_eq.
  - split; [|by left]. intros j d H. cbn in H. congruence.
Qed.
End session.

Section supervised.
Context (Int63n : nat → Z → Z) (config : Config) (base max : Duration).
Let cfg := (New config).1.
Let capacity := (New config).2.

Record well_supervised (r : Supervisor) : Prop := {
  ws_reachable : reachable config (sp_session r);
  ws_live : sp_stage r ≠ Serving → live (sp_session r) = None;
  ws_told : sp_stopped r = true → all_told (sp_session r);
}.

Lemma told_to_stop_reachable s : reachable config s → reachable config (told_to_stop cfg capacity s).
Proof using.
  intros Hr. destruct (told_to_stop_spec cfg capacity s) as (_ & [[_ ->]|H]); [done|]. by econstructor.
Qed.

Lemma told_to_stop_none s : live s = None → live (told_to_stop cfg capacity s) = None.
Proof using.
  intros Hn. destruct (told_to_stop_spec cfg capacity s) as (_ & [[_ ->]|H]); [done|].
  eapply tracks_none; [|done]. by eapply (step_tracks _ _ (LFail false)).
Qed.

Lemma at_stage_well p r :
  well_supervised r → (p = Serving ∨ sp_stage r ≠ Serving ∨ live (sp_session r) = None) → well_supervised (at_stage p r).
Proof using.
  intros [Hr Hl Ht] Hp. split; cbn [at_stage sp_session sp_stage sp_stopped]; try done.
  intros Hn. destruct Hp as [?|[?|?]]; auto; done.
Qed.

Lemma sleep_next_well a r :
  well_supervised r → (sp_stage r ≠ Serving ∨ live (sp_session r) = None) → well_supervised (sleep_next Int63n a r).
Proof using.
  intros [Hr Hl Ht] Hp. unfold sleep_next. destruct (next _ _ _) as [d b].
  split; cbn [sp_session sp_stage sp_stopped]; try done. intros _. destruct Hp; auto.
Qed.

Lemma connection_over_well a r :
  well_supervised r → (sp_stage r ≠ Serving ∨ live (sp_session r) = None) → well_supervised (connection_over Int63n a r).
Proof using.
  intros Hw Hp. unfold connection_over. destruct (sp_stopped r); [apply at_stage_well; auto|by apply sleep_next_well].
Qed.

Lemma step_well l r r' :
  connects l = false → (s ← perform cfg capacity l (sp_session r); Some (with_session s r)) = Some r' →
  well_supervised r → well_supervised r'.
Proof using.
  intros Hl (s' & Hs & [= <-])%bind_Some [Hr Hlive Ht]. pose proof (step_tracks _ _ _ _ _ Hl Hs) as Htr.
  split; cbn [with_session sp_session sp_stage sp_stopped].
  - by econstructor.
  - intros Hn. eapply tracks_none; [done|by apply Hlive].
  - intros Hst. eapply tracks_told; [done|by apply Ht].
Qed.

Lemma accepted_well reply s r :
  perform cfg capacity (LConnect reply) (sp_session r) = Some s → well_supervised r →
  well_supervised (at_stage Serving (with_session (if sp_stopped r then told_to_stop cfg capacity s else s) r)).
Proof using.
  intros Hs [Hr _ _]. assert (Hs' : reachable config s) by by econstructor.
  split; cbn [at_stage with_session sp_session sp_stage sp_stopped]; [|done|].
  - destruct (sp_stopped r); [by apply told_to_stop_reachable|done].
  - intros ->. by destruct (told_to_stop_spec cfg capacity s).
Qed.

Lemma supervise_well m r r' :
  supervise Int63n cfg capacity m r = Some r' → well_supervised r → well_supervised r'.
Proof using.
  intros H Hw. unfold supervise in H. destruct m as [| | | |reply|l| | |].
  - injection H as <-. destruct Hw as [Hr Hl Ht]. split; cbn [sp_session sp_stage sp_stopped].
    + by apply told_to_stop_reachable.
    + intros Hn. by apply told_to_stop_none, Hl.
    + intros _. by destruct (told_to_stop_spec cfg capacity (sp_session r)).
  - destruct (sp_stage r) eqn:E; try done. injection H as <-. apply at_stage_well; [done|]. right. left. by rewrite E.
  - destruct (sp_stage r) eqn:E; try done. injection H as <-. apply sleep_next_well; [done|]. left. by rewrite E.
  - destruct (sp_stage r) eqn:E; try done. injection H as <-. apply connection_over_well; [done|]. left. by rewrite E.
  - destruct (sp_stage r) eqn:E; try done. destruct (awaitAccepted reply); [|done].
    apply bind_Some in H as (x & Hx & [= <-]). by eapply accepted_well.
  - destruct l; try done; destruct (sp_stage r); by (eapply step_well; [|exact H|]).
  - destruct (sp_stage r) eqn:E; try done. destruct (live _) eqn:El; [done|]. injection H as <-.
    apply connection_over_well; [done|by right].
  - destruct (sp_stage r) eqn:E; try done. injection H as <-. apply at_stage_well; [done|]. right. left. by rewrite E.
  - destruct (sp_stage r) eqn:E; try done. destruct (sp_stopped r); [|done]. injection H as <-.
    apply at_stage_well; [done|]. right. left. by rewrite E.
Qed.

Lemma supervised_ok r :
  supervised Int63n config base max r → well_supervised r ∧ timed Int63n base max r.
Proof using.
  induction 1 as [|r m r' _ [Hw Ht] H].
  - split; split; try done. constructor.
  - split; [by eapply supervise_well|by eapply supervise_timed].
Qed.
End supervised.

(** ** A connection that was told to stop comes to its end *)

Section ending.
Context (cfg : Config) (capacity : nat).

(** Steps of the session that open no stream lead from [s] to a state without a live connection. *)
Definition can_end (s : State) : Prop :=
  ∃ ls s', Forall (λ l, connects l = false) ls ∧ run_labels cfg capacity ls s = Some s' ∧ live s' = None.

Lemma can_end_step l s s' : connects l = false → perform cfg capacity l s = Some s' → can_end s' → can_end s.
Proof using.
  intros Hl Hs (ls & s2 & Hls & Hr & Hn). exists (l :: ls), s2. split; [by constructor|]. simpl. by rewrite Hs.
Qed.

Lemma live_at i c s s' :
  live s = Some (i, c) → ss_generations s' = ss_generations s → ∀ c', ss_conns s' !! i = Some c' → cn_ended c' = false →
  live s' = Some (i, c').
Proof using. intros (-> & _)%live_Some Hg c' Hc He. unfold live. rewrite Hg, Hc. simpl. by rewrite He. Qed.

Lemma can_end_out i c s :
  live s = Some (i, c) → cn_recv c = RIdle ∨ cn_recv c = RLeft → cn_done c = true → can_end s.
Proof using.
  intros Hl Hr Hd. eapply (can_end_step LEnd);
    [done|unfold perform, finish; rewrite Hl; simpl; rewrite Hd; by destruct Hr as [-> | ->]|].
  eexists [], _. split; [constructor|]. split; [done|]. apply live_Some in Hl as (-> & _).
  unfold live. rewrite cancelAll_generations, cancelAll_conns, lookup_insert_eq. done.
Qed.

Lemma can_end_idle i c s : live s = Some (i, c) → cn_recv c = RIdle → cn_done c = true → can_end s.
Proof using. intros. eapply can_end_out; by eauto. Qed.

Lemma can_end_handler i c s a s' c' :
  live s = Some (i, c) → handler cfg capacity i c a s = Some s' → live s' = Some (i, c') → can_end s' → can_end s.
Proof using.
  intros Hl H _. apply (can_end_step (LHandler a)); [done|]. unfold perform. rewrite Hl. done.
Qed.

Lemma can_end_cancel i c s j : live s = Some (i, c) → cn_recv c = RCancel j → cn_done c = true → can_end s.
Proof using.
  intros Hl Hr Hd. pose proof (live_Some _ _ _ Hl) as (_ & _ & He).
  set (s' := jobs_cancel i j (set_conn i (with_recv RIdle c) s)).
  assert (Hs : handler cfg capacity i c true s = Some s') by (unfold handler; by rewrite Hr).
  assert (Hl' : ∃ c', live s' = Some (i, c') ∧ cn_recv c' = RIdle ∧ cn_done c' = true).
  { unfold s', jobs_cancel. simpl. rewrite lookup_insert_eq. simpl.
    destruct (cn_cancels c !! j) as [id|]; eexists; split.
    - eapply live_at; [exact Hl|by rewrite cancel_worker_generations| |].
      + rewrite cancel_worker_conns. apply lookup_insert_eq.
      + exact He.
    - split; [reflexivity|exact Hd].
    - eapply live_set_conn; [exact Hl|exact He].
    - split; [reflexivity|exact Hd]. }
  destruct Hl' as (c' & Hl' & Hr' & Hd'). eapply can_end_handler; [done..|]. by eapply can_end_idle.
Qed.

Lemma can_end_enqueue i c s m next :
  live s = Some (i, c) → cn_recv c = REnqueue m next → cn_done c = true → can_end s.
Proof using.
  intros Hl Hr Hd. pose proof (live_Some _ _ _ Hl) as (_ & _ & He).
  set (c' := with_recv (match next with Some j => RCancel j | None => RIdle end) c).
  assert (Hs : handler cfg capacity i c false s = Some (set_conn i c' s))
    by (unfold handler, enqueue; rewrite Hr, Hd; done).
  assert (Hl' : live (set_conn i c' s) = Some (i, c')) by (by eapply live_set_conn).
  eapply can_end_handler; [done..|]. destruct next as [j|]; [by eapply can_end_cancel|by eapply can_end_idle].
Qed.

Lemma can_end_admit i c s job : live s = Some (i, c) → cn_recv c = RAdmit job → cn_done c = true → can_end s.
Proof using.
  intros Hl Hr Hd. pose proof (live_Some _ _ _ Hl) as (_ & _ & He).
  assert (Hs : handler cfg capacity i c true s = Some (startJob capacity i c job s)) by (unfold handler; by rewrite Hr).
  unfold startJob in Hs. destruct (acquireSlot capacity s) as [s1|] eqn:Ea.
  - unfold acquireSlot in Ea. option_steps. eapply can_end_handler; [done|exact Hs| |].
    + eapply live_at; [exact Hl|done|apply lookup_insert_eq|exact He].
    + eapply can_end_idle; [eapply live_at; [exact Hl|done|apply lookup_insert_eq|exact He]|done|done].
  - assert (Hl' : live (set_conn i (with_recv (REnqueue intakeShed None) c) s)
      = Some (i, with_recv (REnqueue intakeShed None) c)) by (by eapply live_set_conn).
    eapply can_end_handler; [done|exact Hs|done|]. by eapply can_end_enqueue.
Qed.

Lemma told_can_end s : all_told s → can_end s.
Proof using.
  intros Ht. destruct (live s) as [[i c]|] eqn:El.
  - pose proof (Ht i c El) as Hd. destruct (cn_recv c) eqn:Er.
    + by eapply can_end_idle.
    + eapply can_end_out; by eauto.
    + by eapply can_end_enqueue.
    + by eapply can_end_cancel.
    + by eapply can_end_admit.
  - by exists [], s.
Qed.
End ending.

(** ** The whole *)

(** How many of its own moves [Run] can still make once it is told to stop. *)
Definition moves_left (p : stage) : nat :=
  match p with Connecting => 4 | Serving => 3 | Sleeping _ => 2 | Checking => 1 | Returned | Panicked => 0 end.

Definition own_move (m : move) : bool := match m with Stop | Step _ => false | _ => true end.

Lemma sleep_next_left Int63n a r : moves_left (sp_stage (sleep_next Int63n a r)) ≤ 2.
Proof. unfold sleep_next. destruct (next _ _ _) as [[d|] b]; cbn; lia. Qed.

Lemma stopped_moves Int63n cfg capacity m r r' :
  supervise Int63n cfg capacity m r = Some r' → sp_stopped r = true →
  sp_stopped r' = true
  ∧ if own_move m then moves_left (sp_stage r') < moves_left (sp_stage r) else sp_stage r' = sp_stage r.
Proof.
  intros H Hst. assert (Hsleep : ∀ a, sp_stopped (sleep_next Int63n a r) = true).
  { intros a. unfold sleep_next. by destruct (next _ _ _). }
  unfold supervise in H. destruct m as [| | | |reply|l| | |].
  - by injection H as <-.
  - destruct (sp_stage r); try done. injection H as <-. rewrite Hst. cbn. split; [done|lia].
  - destruct (sp_stage r); try done. injection H as <-. split; [done|]. cbn [own_move].
    pose proof (sleep_next_left Int63n NoStream r). cbn [moves_left]. lia.
  - destruct (sp_stage r); try done. injection H as <-. unfold connection_over. rewrite Hst. cbn. split; [done|lia].
  - destruct (sp_stage r); try done. destruct (awaitAccepted reply); [|done].
    apply bind_Some in H as (x & Hx & [= <-]). cbn. split; [done|lia].
  - destruct l; try done; destruct (sp_stage r) eqn:E; apply bind_Some in H as (x & Hx & [= <-]); done.
  - destruct (sp_stage r); try done. destruct (live _); [done|]. injection H as <-. unfold connection_over. rewrite Hst.
    cbn. split; [done|lia].
  - destruct (sp_stage r); try done. injection H as <-. cbn. split; [done|lia].
  - destruct (sp_stage r); try done. rewrite Hst in H. injection H as <-. cbn. split; [done|lia].
Qed.

Lemma supervise_steps Int63n cfg capacity ls r s' :
  Forall (λ l, connects l = false) ls → run_labels cfg capacity ls (sp_session r) = Some s' →
  supervise_all Int63n cfg capacity (Step <$> ls) r = Some (with_session s' r).
Proof.
  intros Hls. revert r. induction Hls as [|l ls Hl _ IH]; intros r.
  - intros [= <-]. by destruct r.
  - cbn [run_labels]. intros (s1 & Hs & H)%bind_Some. cbn [fmap list_fmap supervise_all].
    assert (supervise Int63n cfg capacity (Step l) r = Some (with_session s1 r)) as ->.
    { destruct l; try done; cbn [supervise]; rewrite Hs; done. }
    cbn [mbind option_bind]. by rewrite (IH (with_session s1 r)).
Qed.

Lemma supervise_all_app Int63n cfg capacity l1 l2 r :
  supervise_all Int63n cfg capacity (l1 ++ l2) r
  = (r' ← supervise_all Int63n cfg capacity l1 r; supervise_all Int63n cfg capacity l2 r').
Proof.
  revert r. induction l1 as [|m l1 IH]; intros r; [done|]. cbn [app supervise_all].
  destruct (supervise _ _ _ m r); [|done]. cbn. apply IH.
Qed.

(** C17: the whole of [Run]. Under the loop the session is one of Session.v's, so all that is proved there
    holds; no second stream is opened while a connection runs; every attempt is followed by a sleep, and
    given a random source that keeps its contract and configured delays of at most 2^61 ns the process never
    panics and each sleep lies between zero and the ceiling that the attempts so far, refused sessions
    included and established ones starting over, give it. *)
Theorem Run_supervises Int63n config base max r :
  supervised Int63n config base max r →
  reachable config (sp_session r)
  ∧ (sp_stage r ≠ Serving → live (sp_session r) = None)
  ∧ Run_delays Int63n base max (sp_attempts r)
    = match sp_stage r with Panicked => None | _ => Some (sp_delays r) end
  ∧ ((∀ draw n, (0 < n → 0 ≤ Int63n draw n < n)%Z) → (base ≤ 2 ^ 61)%Z → (max ≤ 2 ^ 61)%Z →
     sp_stage r ≠ Panicked
     ∧ Forall2 (λ d x, 0 ≤ d ≤ x)%Z (sp_delays r) (ceilings (reconnect_config base max) 0 (sp_attempts r))
     ∧ ∀ d, sp_stage r = Sleeping d → last (sp_delays r) = Some d).
Proof.
  intros Hs. apply supervised_ok in Hs as [[Hr Hl Ht] [Hd Hb Hds Hsl]]. split_and!; [done..|].
  intros HI Hbase Hmax. destruct (Run_delays_bounded Int63n base max (sp_attempts r) HI Hbase Hmax) as (ds & E & Hall).
  rewrite E in Hds. destruct (sp_stage r) eqn:Ep; try done; injection Hds as ->; (split; [discriminate|]); (split; [exact Hall|]); exact Hsl.
Qed.

(** C16: a process told to stop stops. From then on no attempt is begun: each further move of [Run]'s own
    brings it nearer its return, four at the most, whatever the streams, the workers and the timers do
    meanwhile; and from every such state it can return, a connection whose handlers are blocked included,
    without a message accepted or an executor answering. *)
Theorem Run_stops Int63n config base max r :
  supervised Int63n config base max r → sp_stopped r = true → sp_stage r ≠ Panicked →
  (∀ m r', supervise Int63n (New config).1 (New config).2 m r = Some r' →
     sp_stopped r' = true ∧ (sp_stage r ≠ Connecting → sp_stage r' ≠ Connecting)
     ∧ if own_move m then moves_left (sp_stage r') < moves_left (sp_stage r) ≤ 4 else sp_stage r' = sp_stage r)
  ∧ ∃ ms r', supervise_all Int63n (New config).1 (New config).2 ms r = Some r' ∧ sp_stage r' = Returned.
Proof.
  intros Hs Hst Hp. apply supervised_ok in Hs as [[Hr Hl Ht] _]. split.
  - intros m r' H. destruct (stopped_moves _ _ _ _ _ _ H Hst) as [Hst' Hm]. split; [done|].
    assert (moves_left (sp_stage r) ≤ 4) by (destruct (sp_stage r); cbn; lia).
    destruct (own_move m); [|by rewrite Hm]. split; [|lia]. intros Hn E. rewrite E in Hm.
    cbn [moves_left] in Hm. lia.
  - destruct (sp_stage r) eqn:E.
    + exists [Check]. eexists. cbn [supervise_all supervise]. rewrite E, Hst. by split.
    + exists [Rejected]. eexists. cbn [supervise_all supervise]. rewrite E. unfold connection_over. rewrite Hst. by split.
    + destruct (told_can_end (New config).1 (New config).2 _ (Ht Hst)) as (ls & s' & Hls & Hrun & Hn).
      exists ((Step <$> ls) ++ [ConnectionOver]), (at_stage Returned (with_session s' r)). split; [|done].
      rewrite supervise_all_app, (supervise_steps _ _ _ _ _ s') by done. cbn [mbind option_bind supervise_all supervise].
      cbn [with_session sp_stage sp_session]. rewrite E, Hn. unfold connection_over. cbn [with_session sp_stopped].
      by rewrite Hst.
    + exists [Interrupted]. eexists. cbn [supervise_all supervise]. rewrite E, Hst. by split.
    + exists [], r. by split.
    + done.
Qed.

(** ** A concrete run *)

Definition sample_random (_ : nat) (n : Z) : Z := (n - 1)%Z.

Definition sample_supervise (ms : list move) : Supervisor :=
  default (Start 0 0) (supervise_all sample_random (New sample_config).1 (New sample_config).2 ms (Start 0 0)).

Lemma supervise_all_supervised Int63n config base max ms r r' :
  supervised Int63n config base max r →
  supervise_all Int63n (New config).1 (New config).2 ms r = Some r' → supervised Int63n config base max r'.
Proof.
  revert r. induction ms as [|m ms IH]; intros r Hr; cbn [supervise_all]; [by intros [= <-]|].
  intros (r1 & H1 & H)%bind_Some. eapply IH; [|done]. by econstructor.
Qed.

Lemma sample_supervised ms : supervised sample_random sample_config 0 0 (sample_supervise ms).
Proof.
  unfold sample_supervise. destruct (supervise_all _ _ _ _ _) as [r|] eqn:E; [|constructor].
  eapply supervise_all_supervised; [|exact E]. constructor.
Qed.

(** No stream twice, a refused session, an established one that is told to stop over an assignment. *)
Definition sample_moves : list move :=
  [Check; Unreachable; Wake; Check; Unreachable; Wake; Check; Rejected; Wake; Check;
   Accepted sample_accepted; Step (LReceive (C_JobAssignment sample_job))].

Lemma Run_supervises_witness :
  sp_delays (sample_supervise sample_moves) = [Second; 2 * Second; 4 * Second]%Z
  ∧ Forall2 (λ d x, 0 ≤ d ≤ x)%Z (sp_delays (sample_supervise sample_moves))
      (ceilings (reconnect_config 0 0) 0 [NoStream; NoStream; Refused]).
Proof.
  split; [vm_compute; reflexivity|].
  destruct (Run_supervises _ _ _ _ _ (sample_supervised sample_moves)) as (_ & _ & _ & H).
  assert (E : sp_attempts (sample_supervise sample_moves) = [NoStream; NoStream; Refused]) by (vm_compute; reflexivity).
  rewrite <- E. apply H; [unfold sample_random; intros; lia|lia|lia].
Defined.

Lemma Run_stops_witness :
  ∃ ms r', supervise_all sample_random (New sample_config).1 (New sample_config).2 ms
      (sample_supervise (sample_moves ++ [Stop])) = Some r' ∧ sp_stage r' = Returned.
Proof.
  apply (Run_stops sample_random sample_config 0 0 _ (sample_supervised (sample_moves ++ [Stop]))).
  - vm_compute. reflexivity.
  - vm_compute. discriminate.
Defined.
