(* ===== verification/Sha256.v ===== *)
(** * SHA-256 (Go's crypto/sha256) and hexadecimal

    FIPS 180-4 on 32-bit words, executable, used by the inventory's revision digests. *)

From S2P Require Import Prelude GoString Utf8.
From stdpp Require Import options.
Local Open Scope Z_scope.

Definition word (x : Z) : Z := wrap_u 32 x.
Definition rotr (n x : Z) : Z := Z.lor (Z.shiftr x n) (word (Z.shiftl x (32 - n))).

Definition Ch (x y z : Z) : Z := Z.lxor (Z.land x y) (Z.land (2 ^ 32 - 1 - x) z).
Definition Maj (x y z : Z) : Z := Z.lxor (Z.lxor (Z.land x y) (Z.land x z)) (Z.land y z).
Definition Sigma0 (x : Z) : Z := Z.lxor (Z.lxor (rotr 2 x) (rotr 13 x)) (rotr 22 x).
Definition Sigma1 (x : Z) : Z := Z.lxor (Z.lxor (rotr 6 x) (rotr 11 x)) (rotr 25 x).
Definition sigma0 (x : Z) : Z := Z.lxor (Z.lxor (rotr 7 x) (rotr 18 x)) (Z.shiftr x 3).
Definition sigma1 (x : Z) : Z := Z.lxor (Z.lxor (rotr 17 x) (rotr 19 x)) (Z.shiftr x 10).

(** The constants are not tabulated but computed from their definition: the first 32 bits of the
    fractional parts of the cube roots of the first 64 primes, and of the square roots of the first 8. *)
Definition prime (n : nat) : bool :=
  forallb (λ d, negb (n mod (S (S d)) =? 0)%nat) (seq 0 (n - 2)).
Definition primes : list Z := Z.of_nat <$> List.filter prime (seq 2 310).

(** The integer cube root, found bit by bit from the top. *)
Fixpoint cube_root (bits : nat) (n acc : Z) : Z :=
  match bits with
  | O => acc
  | S bits =>
      let try := acc + 2 ^ Z.of_nat bits in
      cube_root bits n (if try * try * try <=? n then try else acc)
  end.

Definition round_constants : list Z :=
  Eval vm_compute in (λ p, word (cube_root 36 (p * 2 ^ 96) 0)) <$> primes.
Definition initial_hash : list Z :=
  Eval vm_compute in (λ p, word (Z.sqrt (p * 2 ^ 64))) <$> take 8 primes.

(** The message schedule, newest word first: the 16 words of a block, then [n] more. *)
Fixpoint schedule (n : nat) (rev_words : list Z) : list Z :=
  match n with
  | O => rev_words
  | S n =>
      let at_ k := nth k rev_words 0 in
      schedule n (word (sigma1 (at_ 1%nat) + at_ 6%nat + sigma0 (at_ 14%nat) + at_ 15%nat) :: rev_words)
  end.

Definition round (h : list Z) (kw : Z * Z) : list Z :=
  match h with
  | [a; b; c; d; e; f; g; x] =>
      let t1 := x + Sigma1 e + Ch e f g + kw.1 + kw.2 in
      let t2 := Sigma0 a + Maj a b c in
      [word (t1 + t2); a; b; c; word (d + t1); e; f; g]
  | _ => h
  end.

Definition compress (h block : list Z) : list Z :=
  let words := rev (schedule 48 (rev block)) in
  zip_with (λ x y, word (x + y)) h (foldl round h (zip round_constants words)).

(** Bytes to big-endian words, words to blocks. *)
Fixpoint words_of (n : nat) (bytes : list Z) : list Z :=
  match n, bytes with
  | S n, a :: b :: c :: d :: rest => (a * 2 ^ 24 + b * 2 ^ 16 + c * 2 ^ 8 + d) :: words_of n rest
  | _, _ => []
  end.

Fixpoint blocks (n : nat) (words : list Z) (h : list Z) : list Z :=
  match n with
  | O => h
  | S n => blocks n (drop 16 words) (compress h (take 16 words))
  end.

Definition big_endian (n : nat) (x : Z) : list Z :=
  (λ k, Z.land (Z.shiftr x (8 * Z.of_nat k)) 255) <$> rev (seq 0 n).

Definition padded (bytes : list Z) : list Z :=
  let n := length bytes in
  bytes ++ [128] ++ replicate ((119 - n mod 64) mod 64)%nat 0 ++ big_endian 8 (8 * Z.of_nat n).

Definition bytes_of (s : string) : list Z := (λ c, Z.of_nat (Ascii.nat_of_ascii c)) <$> String.list_ascii_of_string s.

(** [sha256.Sum256]. *)
Definition Sum256 (s : string) : list Z :=
  let p := padded (bytes_of s) in
  blocks (length p / 64) (words_of (length p / 4) p) initial_hash ≫= big_endian 4.

(** [hex.EncodeToString]. *)
Definition hex_digit (x : Z) : string :=
  String (Ascii.ascii_of_nat (Z.to_nat (if x <? 10 then 48 + x else 87 + x))) EmptyString.
Definition EncodeToString (bytes : list Z) : string :=
  str_concat ((λ b, hex_digit (Z.shiftr b 4) +:+ hex_digit (Z.land b 15)) <$> bytes).

Lemma slen_EncodeToString bytes : slen (EncodeToString bytes) = (2 * length bytes)%nat.
Proof.
  unfold EncodeToString. induction bytes as [|b bytes IH]; [done|]. rewrite fmap_cons. rewrite str_concat_cons.
  rewrite !slen_app, IH. simpl. lia.
Qed.

Example sha256_empty : EncodeToString (Sum256 "")
  = "e3b0c44298fc1c149afbf4c8996fb92427ae41e4649b934ca495991b7852b855".
Proof. by vm_compute. Qed.

Example sha256_two_blocks :
  EncodeToString (Sum256 "abcdbcdecdefdefgefghfghighijhijkijkljklmklmnlmnomnopnopq")
  = "248d6a61d20638b8e5c026930c3e6039a33ce45964ff2167f6ecedd419db06c1".
Proof. by vm_compute. Qed.
