(* ===== verification/KubeInventory.v ===== *)
(** * The inventory reads (internal/kube/inventory.go)

    Workloads reduced to declared intent, ConfigMaps and Secrets to identity and version. The client is a
    parameter ([InventoryClient]), and so is the JSON encoding of a pod template, which is only hashed. *)

From S2P Require Import Prelude GoString GoTime Execution Kube Sha256.
From stdpp Require Import options pretty.
Local Open Scope Z_scope.
Import Port Reader.

(** ** API objects, as far as they are read *)

(** What an environment variable or a projected source can refer to. *)
Record ConfigSource := { cs_ConfigMap : option string; cs_Secret : option string }.

Record TemplateContainer := {
  tc_Container : Container;
  tc_Env : list (option ConfigSource);     (* ValueFrom of each variable *)
  tc_EnvFrom : list ConfigSource;
}.

Record Volume := {
  vo_Source : ConfigSource;
  vo_Projected : option (list ConfigSource);
}.

Record PodSpec := {
  sp_InitContainers : list TemplateContainer;
  sp_Containers : list TemplateContainer;
  sp_Volumes : list Volume;
  sp_ImagePullSecrets : list string;
}.

Record Workload := {
  wl_Meta : ObjectMeta;
  wl_Annotations : gmap string string;
  wl_Replicas : option Z;
  wl_Spec : PodSpec;
}.

Record Metadata := { md_Namespace : string; md_Name : string; md_UID : string; md_ResourceVersion : string }.

Inductive Resource := configMapResource | secretResource.

(** Typed and metadata-only lists: one page of at most the limit, with its continuation token; and
    [json.Marshal] of a pod spec. *)
Record InventoryClient (W : Type) := {
  ic_Deployments : Ctx W → string → Z → W → result api_error (list Workload * string) * W;
  ic_StatefulSets : Ctx W → string → Z → W → result api_error (list Workload * string) * W;
  ic_DaemonSets : Ctx W → string → Z → W → result api_error (list Workload * string) * W;
  ic_Metadata : Ctx W → Resource → string → Z → W → result api_error (list Metadata * string) * W;
  ic_Marshal : PodSpec → option string;
}.
Arguments ic_Deployments {W}.
Arguments ic_StatefulSets {W}.
Arguments ic_DaemonSets {W}.
Arguments ic_Metadata {W}.
Arguments ic_Marshal {W}.

(** ** Declared intent *)

Record ContainerIntent := {
  ci_Name : string;
  ci_Init : bool;
  ci_Image : string;
  ci_RequestsCPU : string;
  ci_RequestsMemory : string;
  ci_LimitsCPU : string;
  ci_LimitsMemory : string;
}.

Record WorkloadIntent := {
  wi_Kind : string;
  wi_Namespace : string;
  wi_Name : string;
  wi_UID : string;
  wi_Generation : Z;
  wi_ControllerRevision : string;
  wi_Replicas : string;
  wi_Containers : list ContainerIntent;
  wi_ConfigMapRefs : list string;
  wi_SecretRefs : list string;
  wi_TemplateHash : string;
}.

Record InventoryPage := { ip_Workloads : list WorkloadIntent; ip_Truncated : bool }.

Record ConfigVersion := {
  cv_Namespace : string;
  cv_Name : string;
  cv_UID : string;
  cv_ResourceVersion : string;
}.

Record ConfigVersionPage := { cp_Versions : list ConfigVersion; cp_Truncated : bool }.

Definition quantity (l : gmap string string) (name : string) : string := default "" (l !! name).

Definition declaredReplicas (replicas : option Z) : string :=
  match replicas with None => "" | Some n => pretty n end.

Definition containerIntent (init : bool) (c : TemplateContainer) : ContainerIntent :=
  let k := tc_Container c in
  {| ci_Name := co_Name k; ci_Init := init; ci_Image := co_Image k;
     ci_RequestsCPU := quantity (co_Requests k) "cpu";
     ci_RequestsMemory := quantity (co_Requests k) "memory";
     ci_LimitsCPU := quantity (co_Limits k) "cpu";
     ci_LimitsMemory := quantity (co_Limits k) "memory" |}.

(** ** References *)

Definition note (name : option string) (set : gset string) : gset string :=
  match name with Some n => {[ n ]} ∪ set | None => set end.

(** The two sets a walk adds to: ConfigMap names and Secret names. *)
Definition note_source (sets : gset string * gset string) (s : ConfigSource) : gset string * gset string :=
  (note (cs_ConfigMap s) sets.1, note (cs_Secret s) sets.2).

Definition note_container (sets : gset string * gset string) (c : TemplateContainer)
    : gset string * gset string :=
  let sets := foldl (λ sets env, match env with Some s => note_source sets s | None => sets end)
                    sets (tc_Env c) in
  foldl note_source sets (tc_EnvFrom c).

Definition note_volume (sets : gset string * gset string) (v : Volume) : gset string * gset string :=
  let sets := note_source sets (vo_Source v) in
  match vo_Projected v with Some sources => foldl note_source sets sources | None => sets end.

Definition sortedNames (set : gset string) : list string := sort_strings (elements set).

Definition referencedConfigs (spec : PodSpec) : list string * list string :=
  let sets := foldl note_container (∅, ∅) (sp_InitContainers spec ++ sp_Containers spec) in
  let sets := foldl note_volume sets (sp_Volumes spec) in
  let secrets := foldl (λ set name, {[ name ]} ∪ set) sets.2 (sp_ImagePullSecrets spec) in
  (sortedNames sets.1, sortedNames secrets).

(** ** The lister *)

Section lister.
Context {W : Type} (c : InventoryClient W).

Definition hashTemplate (spec : PodSpec) : string :=
  match ic_Marshal c spec with
  | None => "unhashable"
  | Some encoded => EncodeToString (take 6 (Sum256 encoded))
  end.

Definition templateIntent (kind : string) (w : Workload) : WorkloadIntent :=
  let spec := wl_Spec w in
  let meta := wl_Meta w in
  {| wi_Kind := kind; wi_Namespace := om_Namespace meta; wi_Name := om_Name meta; wi_UID := om_UID meta;
     wi_Generation := om_Generation meta; wi_ControllerRevision := ""; wi_Replicas := "";
     wi_Containers := (containerIntent true <$> sp_InitContainers spec)
                      ++ (containerIntent false <$> sp_Containers spec);
     wi_ConfigMapRefs := (referencedConfigs spec).1; wi_SecretRefs := (referencedConfigs spec).2;
     wi_TemplateHash := hashTemplate spec |}.

Definition statefulSetIntent (w : Workload) : WorkloadIntent :=
  let i := templateIntent "statefulset" w in
  {| wi_Kind := wi_Kind i; wi_Namespace := wi_Namespace i; wi_Name := wi_Name i; wi_UID := wi_UID i;
     wi_Generation := wi_Generation i; wi_ControllerRevision := wi_ControllerRevision i;
     wi_Replicas := declaredReplicas (wl_Replicas w); wi_Containers := wi_Containers i;
     wi_ConfigMapRefs := wi_ConfigMapRefs i; wi_SecretRefs := wi_SecretRefs i;
     wi_TemplateHash := wi_TemplateHash i |}.

Definition deploymentIntent (w : Workload) : WorkloadIntent :=
  let i := templateIntent "deployment" w in
  {| wi_Kind := wi_Kind i; wi_Namespace := wi_Namespace i; wi_Name := wi_Name i; wi_UID := wi_UID i;
     wi_Generation := wi_Generation i;
     wi_ControllerRevision := default "" (wl_Annotations w !! "deployment.kubernetes.io/revision");
     wi_Replicas := declaredReplicas (wl_Replicas w); wi_Containers := wi_Containers i;
     wi_ConfigMapRefs := wi_ConfigMapRefs i; wi_SecretRefs := wi_SecretRefs i;
     wi_TemplateHash := wi_TemplateHash i |}.

Definition daemonSetIntent (w : Workload) : WorkloadIntent := templateIntent "daemonset" w.

(** One typed list, added to the page so far. *)
Definition list_into (list : W → result api_error (list Workload * string) * W)
    (intent : Workload → WorkloadIntent) (page : InventoryPage) (w : W) : result Error InventoryPage * W :=
  match list w with
  | (Err e, w) => (Err (mapReadError e), w)
  | (Ok (items, continue), w) =>
      (Ok {| ip_Workloads := ip_Workloads page ++ (intent <$> items);
             ip_Truncated := ip_Truncated page || negb (continue =? "")%string |}, w)
  end.

Definition ListWorkloadIntents (ctx : Ctx W) (namespace : string) (limit : Z) (w : W)
    : result Error InventoryPage * W :=
  if limit <? 1 then (Err Refused, w)
  else
    match list_into (ic_Deployments c ctx namespace limit) deploymentIntent
            {| ip_Workloads := []; ip_Truncated := false |} w with
    | (Err e, w) => (Err e, w)
    | (Ok page, w) =>
        match list_into (ic_StatefulSets c ctx namespace limit) statefulSetIntent page w with
        | (Err e, w) => (Err e, w)
        | (Ok page, w) => list_into (ic_DaemonSets c ctx namespace limit) daemonSetIntent page w
        end
    end.

Definition version_of (m : Metadata) : ConfigVersion :=
  {| cv_Namespace := md_Namespace m; cv_Name := md_Name m; cv_UID := md_UID m;
     cv_ResourceVersion := md_ResourceVersion m |}.

Definition listVersions (ctx : Ctx W) (resource : Resource) (namespace : string) (limit : Z) (w : W)
    : result Error ConfigVersionPage * W :=
  if limit <? 1 then (Err Refused, w)
  else
    match ic_Metadata c ctx resource namespace limit w with
    | (Err e, w) => (Err (mapReadError e), w)
    | (Ok (items, continue), w) =>
        (Ok {| cp_Versions := version_of <$> items; cp_Truncated := negb (continue =? "")%string |}, w)
    end.

Definition ListConfigMapVersions (ctx : Ctx W) := listVersions ctx configMapResource.
Definition ListSecretVersions (ctx : Ctx W) := listVersions ctx secretResource.
End lister.

(** ** What the references are *)

(** Every place of a pod spec that can refer to a ConfigMap or a Secret by name, pull secrets apart. *)
Definition container_sources (c : TemplateContainer) : list ConfigSource := omap id (tc_Env c) ++ tc_EnvFrom c.
Definition volume_sources (v : Volume) : list ConfigSource := vo_Source v :: default [] (vo_Projected v).
Definition all_sources (spec : PodSpec) : list ConfigSource :=
  ((sp_InitContainers spec ++ sp_Containers spec) ≫= container_sources)
  ++ (sp_Volumes spec ≫= volume_sources).

Lemma foldl_bind {A B C} (f : A → B → A) (g : C → list B) (h : A → C → A) a l :
  (∀ a c, h a c = foldl f a (g c)) → foldl h a l = foldl f a (l ≫= g).
Proof.
  intros Hh. revert a. induction l as [|c l IH]; intros a; [done|].
  cbn [foldl]. rewrite Hh, IH, bind_cons, foldl_app. done.
Qed.

Lemma note_container_sources sets c : note_container sets c = foldl note_source sets (container_sources c).
Proof.
  unfold note_container, container_sources. rewrite foldl_app. f_equal.
  revert sets. induction (tc_Env c) as [|[s|] l IH]; intros sets; [done| |]; cbn; apply IH.
Qed.

Lemma note_volume_sources sets v : note_volume sets v = foldl note_source sets (volume_sources v).
Proof. unfold note_volume, volume_sources. by destruct (vo_Projected v). Qed.

Lemma elem_of_sources l sets n :
  (n ∈ (foldl note_source sets l).1 ↔ n ∈ sets.1 ∨ ∃ s, s ∈ l ∧ cs_ConfigMap s = Some n)
  ∧ (n ∈ (foldl note_source sets l).2 ↔ n ∈ sets.2 ∨ ∃ s, s ∈ l ∧ cs_Secret s = Some n).
Proof.
  revert sets. induction l as [|s l IH]; intros sets; cbn [foldl].
  - split; split; [auto| |auto|]; intros [?|(? & []%not_elem_of_nil & _)]; done.
  - destruct (IH (note_source sets s)) as [-> ->]. unfold note_source, note. cbn.
    setoid_rewrite elem_of_cons. split; case_match; set_solver.
Qed.

Lemma elem_of_pulls l (set : gset string) n : n ∈ foldl (λ set name, {[ name ]} ∪ set) set l ↔ n ∈ set ∨ n ∈ l.
Proof. revert set. induction l as [|x l IH]; intros set; cbn; [set_solver|]. rewrite IH. set_solver. Qed.

Lemma sortedNames_spec set :
  (∀ n, n ∈ sortedNames set ↔ n ∈ set) ∧ NoDup (sortedNames set)
  ∧ StronglySorted (not_greater str_ltb) (sortedNames set).
Proof.
  unfold sortedNames, sort_strings. split_and!.
  - intros n. by rewrite sort_elem, elem_of_elements.
  - apply sort_NoDup, NoDup_elements.
  - apply sort_sorted, _.
Qed.

(** the references of a pod template are complete and exact: a ConfigMap is listed precisely when an
    environment variable, an envFrom, a volume or a projected source of any container or init container
    names it, a Secret also when it is a pull secret; both lists are sorted and without repetition, so
    one template always renders one list. *)
Theorem referencedConfigs_exact spec :
  let '(configMaps, secrets) := referencedConfigs spec in
  (∀ n, n ∈ configMaps ↔ ∃ s, s ∈ all_sources spec ∧ cs_ConfigMap s = Some n)
  ∧ (∀ n, n ∈ secrets ↔ (∃ s, s ∈ all_sources spec ∧ cs_Secret s = Some n) ∨ n ∈ sp_ImagePullSecrets spec)
  ∧ NoDup configMaps ∧ NoDup secrets
  ∧ StronglySorted (not_greater str_ltb) configMaps ∧ StronglySorted (not_greater str_ltb) secrets.
Proof.
  unfold referencedConfigs. cbv zeta.
  rewrite (foldl_bind note_source container_sources note_container) by apply note_container_sources.
  rewrite (foldl_bind note_source volume_sources note_volume) by apply note_volume_sources.
  rewrite <- foldl_app. fold (all_sources spec).
  destruct (sortedNames_spec (foldl note_source (∅, ∅) (all_sources spec)).1) as (H1 & H2 & H3).
  destruct (sortedNames_spec (foldl (λ set name, {[ name ]} ∪ set)
    (foldl note_source (∅, ∅) (all_sources spec)).2 (sp_ImagePullSecrets spec))) as (H4 & H5 & H6).
  split_and!; try done.
  - intros n. rewrite H1, (proj1 (elem_of_sources _ _ _)). set_solver.
  - intros n. rewrite H4, elem_of_pulls, (proj2 (elem_of_sources _ _ _)). set_solver.
Qed.

(** Every list asks for one page of the limit, and refuses a limit that would be none. *)
Lemma listVersions_bounded {W} (c : InventoryClient W) ctx resource namespace limit w page w' :
  listVersions c ctx resource namespace limit w = (Ok page, w') →
  1 ≤ limit ∧ ∃ items continue,
    ic_Metadata c ctx resource namespace limit w = (Ok (items, continue), w')
    ∧ cp_Versions page = version_of <$> items ∧ (cp_Truncated page = false ↔ continue = "").
Proof.
  unfold listVersions. case_match eqn:E; [done|]. bool_prop.
  destruct (ic_Metadata c ctx resource namespace limit w) as [[[items cont]|e] w1]; [|done].
  intros [= <- <-]. split; [lia|]. exists items, cont. split_and!; [done|done|]. simpl.
  by rewrite negb_false_iff, String.eqb_eq.
Qed.
