(* ===== verification/Snapshot.v ===== *)
(** * Inventory snapshots (internal/inventory/snapshot.go)

    What one tick sees of a scope: for every object incarnation its revision and watched fields. *)

From S2P Require Import Prelude GoString Wire Sha256 KubeInventory.
From stdpp Require Import options pretty.
Local Open Scope Z_scope.

(** ** Keys *)

Record ObjectKey := {
  key_Kind : InventoryObjectKind;
  key_Namespace : string;
  key_Name : string;
  key_UID : string;
}.
#[export] Instance ObjectKey_eq_dec : EqDecision ObjectKey.
Proof. solve_decision. Defined.

Definition number_kind (n : Z) : InventoryObjectKind :=
  match n with
  | 1 => OBJECT_DEPLOYMENT | 2 => OBJECT_STATEFULSET | 3 => OBJECT_DAEMONSET
  | 4 => OBJECT_CONFIGMAP | 5 => OBJECT_SECRET | _ => OBJECT_UNSPECIFIED
  end.

#[export] Instance ObjectKey_countable : Countable ObjectKey.
Proof.
  refine (inj_countable'
    (λ k, (kind_number (key_Kind k), key_Namespace k, key_Name k, key_UID k))
    (λ '(n, ns, name, uid),
      {| key_Kind := number_kind n; key_Namespace := ns; key_Name := name; key_UID := uid |}) _).
  by intros [[] ns name uid].
Defined.

Definition key_less : ObjectKey → ObjectKey → bool :=
  lex_less key_Namespace str_ltb
    (lex_less (λ k, kind_number (key_Kind k)) Z.ltb
      (lex_less key_Name str_ltb (λ a b, str_ltb (key_UID a) (key_UID b)))).

#[export] Instance key_less_weak : StrictWeak key_less.
Proof.
  unfold key_less. repeat (apply lex_less_weak; [apply _|apply _|]).
  destruct str_ltb_weak as [H1 H2]. split; eauto.
Qed.

Lemma key_less_separating a b : key_less a b = false → key_less b a = false → a = b.
Proof.
  unfold key_less. intros H1 H2.
  destruct (lex_less_separating _ _ _ _ _ _ H1 H2) as (E1 & H3 & H4).
  destruct (lex_less_separating _ _ _ _ _ _ H3 H4) as (E2%kind_number_inj & H5 & H6).
  destruct (lex_less_separating _ _ _ _ _ _ H5 H6) as (E3 & H7 & H8).
  pose proof (str_ltb_anti _ _ H7 H8). destruct a, b. simpl in *. congruence.
Qed.

(** ** States *)

Record ObjectState := { Revision : string; Fields : gmap string string }.

Abbreviation Snapshot := (gmap ObjectKey ObjectState).

Definition workloadKinds (kind : string) : InventoryObjectKind :=
  if (kind =? "deployment")%string then OBJECT_DEPLOYMENT
  else if (kind =? "statefulset")%string then OBJECT_STATEFULSET
  else if (kind =? "daemonset")%string then OBJECT_DAEMONSET
  else OBJECT_UNSPECIFIED.

Definition setIfPresent (fields : gmap string string) (name value : string) : gmap string string :=
  if (value =? "")%string then fields else <[name := value]> fields.

Definition nul : string := String Ascii.zero "".

(** What [digestFields] hashes: names and values in the names' order, each ended by a zero byte. *)
Definition digest_input (fields : gmap string string) : string :=
  str_concat ((λ name, name +:+ nul +:+ default "" (fields !! name) +:+ nul) <$> sorted_keys fields).

Definition digestFields (fields : gmap string string) : string :=
  str_take 12 (EncodeToString (Sum256 (digest_input fields))).

Definition container_fields (fields : gmap string string) (c : ContainerIntent) : gmap string string :=
  let l := if ci_Init c then "initContainers" else "containers" in
  let prefix := "spec.template.spec." +:+ l +:+ "[" +:+ ci_Name c +:+ "]" in
  let fields := <[prefix +:+ ".image" := ci_Image c]> fields in
  let fields := setIfPresent fields (prefix +:+ ".resources.requests.cpu") (ci_RequestsCPU c) in
  let fields := setIfPresent fields (prefix +:+ ".resources.requests.memory") (ci_RequestsMemory c) in
  let fields := setIfPresent fields (prefix +:+ ".resources.limits.cpu") (ci_LimitsCPU c) in
  setIfPresent fields (prefix +:+ ".resources.limits.memory") (ci_LimitsMemory c).

Definition workload_fields (intent : WorkloadIntent) : gmap string string :=
  let fields := setIfPresent ∅ "spec.replicas" (wi_Replicas intent) in
  let fields := setIfPresent fields "metadata.annotations[deployment.kubernetes.io/revision]"
                  (wi_ControllerRevision intent) in
  let fields := foldl container_fields fields (wi_Containers intent) in
  let fields := setIfPresent fields "references.configMaps" (String.concat "," (wi_ConfigMapRefs intent)) in
  let fields := setIfPresent fields "references.secrets" (String.concat "," (wi_SecretRefs intent)) in
  <["spec.template" := wi_TemplateHash intent]> fields.

Definition workloadState (intent : WorkloadIntent) : ObjectKey * ObjectState :=
  let fields := workload_fields intent in
  ({| key_Kind := workloadKinds (wi_Kind intent); key_Namespace := wi_Namespace intent;
      key_Name := wi_Name intent; key_UID := wi_UID intent |},
   {| Revision := "g" +:+ pretty (wi_Generation intent) +:+ "." +:+ digestFields fields;
      Fields := fields |}).

Definition configState (kind : InventoryObjectKind) (version : ConfigVersion) : ObjectKey * ObjectState :=
  ({| key_Kind := kind; key_Namespace := cv_Namespace version; key_Name := cv_Name version;
      key_UID := cv_UID version |},
   {| Revision := cv_ResourceVersion version;
      Fields := {[ "metadata.resourceVersion" := cv_ResourceVersion version ]} |}).

Definition sortedKeys (snapshot : Snapshot) : list ObjectKey :=
  sort_stable key_less (map_to_list snapshot).*1.

(** ** Keys in order *)

Lemma elem_of_sortedKeys s k : k ∈ sortedKeys s ↔ is_Some (s !! k).
Proof.
  unfold sortedKeys. rewrite sort_elem, list_elem_of_fmap. split.
  - intros [[k' v] [-> H%elem_of_map_to_list]]. by exists v.
  - intros [v H]. exists (k, v). by rewrite elem_of_map_to_list.
Qed.

Lemma NoDup_sortedKeys s : NoDup (sortedKeys s).
Proof. apply sort_NoDup, NoDup_fst_map_to_list. Qed.

#[export] Hint Resolve NoDup_sortedKeys : relay.

Lemma length_sortedKeys (s : Snapshot) : length (sortedKeys s) = size s.
Proof. unfold sortedKeys. by rewrite sort_length, length_fmap, length_map_to_list. Qed.

(** The keys do not depend on the order the map is iterated in. *)
Lemma sortedKeys_order s l : l ≡ₚ (map_to_list s).*1 → sort_stable key_less l = sortedKeys s.
Proof. intros Hl. apply sort_unique; [apply _| |done]. intros x y _ _. apply key_less_separating. Qed.

(** ** The digest's preimage *)

(** No zero byte occurs in a name or a value. *)
Definition zero_free (fields : gmap string string) : Prop :=
  map_Forall (λ name value, contains_byte Ascii.zero name = false ∧ contains_byte Ascii.zero value = false)
    fields.

Definition digest_items (fields : gmap string string) : list string :=
  sorted_keys fields ≫= λ name, [name; default "" (fields !! name)].

Lemma digest_input_items fields :
  digest_input fields = str_concat ((λ s, s +:+ nul) <$> digest_items fields) +:+ "".
Proof.
  unfold digest_input, digest_items. rewrite str_app_nil_r.
  induction (sorted_keys fields) as [|n l IH]; [done|].
  rewrite bind_cons, fmap_app, str_concat_app, fmap_cons, str_concat_cons, IH.
  f_equal. cbn [fmap list_fmap]. rewrite !str_concat_cons. cbn [str_concat foldr].
  by rewrite str_app_nil_r, <- !str_app_assoc.
Qed.

Lemma digest_items_inj f g : digest_items f = digest_items g → f = g.
Proof.
  unfold digest_items. intros E.
  assert (Hk : sorted_keys f = sorted_keys g
    ∧ (∀ n, n ∈ sorted_keys f → default "" (f !! n) = default "" (g !! n))).
  { revert E. generalize (sorted_keys f) (sorted_keys g). intros l1.
    induction l1 as [|n l1 IH]; intros [|m l2]; cbn; try done.
    { intros _. split; [done|]. by intros n ?%not_elem_of_nil. }
    intros [= <- E1 E2]. destruct (IH _ E2) as [-> H]. split; [done|].
    intros k [-> | Hk]%elem_of_cons; [done|by apply H]. }
  destruct Hk as [Hk Hv]. apply map_eq. intros n.
  assert (is_Some (f !! n) ↔ is_Some (g !! n)) as Hs by (by rewrite <- !elem_of_sorted_keys, Hk).
  specialize (Hv n). rewrite elem_of_sorted_keys in Hv.
  destruct (f !! n) as [x|], (g !! n) as [y|]; simpl in *; try done.
  - f_equal. by apply Hv.
  - by destruct (proj1 Hs ltac:(by eexists)).
  - by destruct (proj2 Hs ltac:(by eexists)).
Qed.

(** the revision's digest is taken over everything watched: two field maps with the same digest
    input are the same map, whatever their sizes, as long as no name or value holds a zero byte. *)
Theorem digest_input_injective f g :
  zero_free f → zero_free g → digest_input f = digest_input g → f = g.
Proof.
  intros Hf Hg E. apply digest_items_inj.
  assert (Hitems : ∀ h, zero_free h → split_on Ascii.zero (digest_input h) = digest_items h ++ [""]).
  { intros h Hh. rewrite digest_input_items. apply split_on_lines; [|done].
    apply Forall_forall. intros s (n & Hs & Hn)%list_elem_of_bind.
    apply elem_of_sorted_keys in Hn as [v Hv]. rewrite Hv in Hs. destruct (Hh _ _ Hv).
    by apply elem_of_cons in Hs as [-> | ->%list_elem_of_singleton]. }
  apply (f_equal (split_on Ascii.zero)) in E. rewrite !Hitems in E by done.
  by apply app_inj_tail in E as [-> _].
Qed.

Lemma digest_input_injective_witness :
  let f : gmap string string := <["a" := "1"]> (<["b" := ""]> ∅) in
  let g : gmap string string := <["b" := ""]> (<["a" := "1"]> ∅) in
  digest_input f = digest_input g ∧ f = g.
Proof.
  intros f g. assert (E : digest_input f = digest_input g) by (vm_compute; reflexivity).
  split; [exact E|]. apply (digest_input_injective f g); [| |exact E];
    apply map_Forall_to_list; vm_compute; repeat constructor.
Defined.

Lemma slen_digestFields fields : (slen (digestFields fields) ≤ 12)%nat.
Proof. unfold digestFields. rewrite slen_take. lia. Qed.
