(* ===== verification/Diff.v ===== *)
(** * Differences between snapshots (internal/inventory/diff.go)

    [Diff] and [Baseline] render what moved as wire changes. Their meaning is fixed by a consumer that
    replays changes on its own view of the cluster ([apply_change]): replaying a difference on the view
    of the previous snapshot gives the view of the current one. *)

From S2P Require Import Prelude GoString Utf8 Wire Snapshot.
From stdpp Require Import options.

(** ** diff.go *)

Definition objectChange (key : ObjectKey) (revision : string) (kind : InventoryChangeKind)
    (fields : list InventoryFieldChange) : InventoryObjectChange :=
  {| oc_Namespace := key_Namespace key; oc_Kind := key_Kind key; oc_Name := key_Name key;
     oc_Uid := key_UID key; oc_ObservedRevision := revision; oc_Change := kind; oc_Fields := fields |}.

Definition maxFieldValueBytes : nat := 512.
Definition clip_marker : string := "...clipped".

(** [clip] cuts bytes, not characters. *)
Definition clip (value : string) : string :=
  if (slen value <=? maxFieldValueBytes)%nat then value
  else str_take (maxFieldValueBytes - slen clip_marker) value +:+ clip_marker.

Definition sortedFieldNames (a b : gmap string string) : list string :=
  sort_strings (elements (dom a ∪ dom b)).

(** A map read as Go reads it: a missing key is the empty string. *)
Definition at_ (fields : gmap string string) (name : string) : string := default "" (fields !! name).

Definition fieldValues (fields : gmap string string) : list InventoryFieldChange :=
  (λ name, {| fc_Field := name; fc_Before := ""; fc_After := clip (at_ fields name) |})
    <$> sortedFieldNames fields ∅.

Definition isTemplateField (name : string) : bool :=
  (slen "spec.template." <? slen name)%nat && (str_take (slen "spec.template.") name =? "spec.template.")%string.

Definition template_name : string := "spec.template".

(** The names the walk itemizes: those that moved, the template digest apart. *)
Definition itemized (before after : gmap string string) : list string :=
  filter (λ name, at_ before name ≠ at_ after name ∧ name ≠ template_name) (sortedFieldNames before after).

Definition fieldDifferences (before after : gmap string string) : list InventoryFieldChange :=
  let names := itemized before after in
  let changes := (λ name, {| fc_Field := name; fc_Before := clip (at_ before name);
                             fc_After := clip (at_ after name) |}) <$> names in
  let templateItemized := existsb isTemplateField names in
  if negb (at_ before template_name =? at_ after template_name)%string && negb templateItemized
  then changes ++ [{| fc_Field := template_name; fc_Before := at_ before template_name;
                      fc_After := at_ after template_name |}]
  else changes.

Definition created_change (key : ObjectKey) (state : ObjectState) : InventoryObjectChange :=
  objectChange key (Revision state) CHANGE_CREATED (fieldValues (Fields state)).

(** The first loop's body: what happened to an object that is there now. *)
Definition present_change (previous current : Snapshot) (key : ObjectKey) : option InventoryObjectChange :=
  state ← current !! key;
  match previous !! key with
  | None => Some (created_change key state)
  | Some before =>
      if (Revision before =? Revision state)%string then None
      else Some (objectChange key (Revision state) CHANGE_MODIFIED
                   (fieldDifferences (Fields before) (Fields state)))
  end.

(** The second loop's. *)
Definition deleted_change (current : Snapshot) (key : ObjectKey) : option InventoryObjectChange :=
  match current !! key with
  | None => Some (objectChange key "" CHANGE_DELETED [])
  | Some _ => None
  end.

Definition Diff (previous current : Snapshot) : list InventoryObjectChange :=
  omap (present_change previous current) (sortedKeys current)
  ++ omap (deleted_change current) (sortedKeys previous).

Definition Baseline (snapshot : Snapshot) : list InventoryObjectChange :=
  omap (λ key, created_change key <$> snapshot !! key) (sortedKeys snapshot).

(** A baseline lists every object once. *)
Lemma length_Baseline snapshot : length (Baseline snapshot) = size snapshot.
Proof.
  unfold Baseline. rewrite <- length_sortedKeys. assert (H := elem_of_sortedKeys snapshot).
  assert (Hl : Forall (λ k, is_Some (snapshot !! k)) (sortedKeys snapshot)).
  { apply Forall_forall. intros k. apply H. }
  clear H. induction Hl as [|k l [st Hk] _ IH]; [done|]. cbn. rewrite Hk. cbn. by rewrite IH.
Qed.

(** ** Clipping *)

Lemma clip_short v : slen v ≤ 512 → clip v = v.
Proof. unfold clip, maxFieldValueBytes. intros H. by rewrite (proj2 (Nat.leb_le _ _)). Qed.

Lemma slen_clip v : slen (clip v) ≤ 512.
Proof.
  unfold clip, maxFieldValueBytes. destruct (Nat.leb_spec (slen v) 512); [done|].
  rewrite slen_app, slen_take. change (slen clip_marker) with 10. lia.
Qed.

Lemma clip_empty v : clip v = "" ↔ v = "".
Proof.
  split; [|by intros ->]. unfold clip, maxFieldValueBytes. destruct (Nat.leb_spec (slen v) 512); [done|].
  intros E%(f_equal slen). rewrite slen_app, slen_take in E. change (slen clip_marker) with 10 in E.
  change (slen "") with 0 in E. lia.
Qed.

(** A value of well-formed UTF-8 can be cut inside a character. *)
Example clip_splits_a_character :
  let value := "a" +:+ str_concat (replicate 300 (encode_rune 233)) in
  valid_utf8 value = true ∧ valid_utf8 (clip value) = false.
Proof. by vm_compute. Qed.

(** ** Replaying *)

Section replay.
Context {K X C : Type} `{Countable K} (key : C → K) (f : C → option X → option X).

Definition replay (m : gmap K X) (cs : list C) : gmap K X :=
  foldl (λ m c, partial_alter (f c) (key c) m) m cs.

Lemma replay_other m cs k : k ∉ key <$> cs → replay m cs !! k = m !! k.
Proof.
  revert m. induction cs as [|c cs IH]; intros m; [done|]. rewrite fmap_cons, not_elem_of_cons.
  intros [H1 H2]. unfold replay. cbn [foldl]. fold (replay (partial_alter (f c) (key c) m) cs).
  by rewrite IH, lookup_partial_alter_ne.
Qed.

Lemma replay_key m cs c : NoDup (key <$> cs) → c ∈ cs → replay m cs !! key c = f c (m !! key c).
Proof.
  revert m. induction cs as [|c' cs IH]; intros m; [by intros _ ?%not_elem_of_nil|].
  rewrite fmap_cons, NoDup_cons. intros [H1 H2] Hc. unfold replay. cbn [foldl].
  fold (replay (partial_alter (f c') (key c') m) cs).
  apply elem_of_cons in Hc as [<- | Hc].
  - by rewrite replay_other, lookup_partial_alter_eq.
  - rewrite IH by done. rewrite lookup_partial_alter_ne; [done|].
    intros E. apply H1. rewrite E. by apply list_elem_of_fmap_2.
Qed.
End replay.

(** ** A consumer of the changes *)

(** What the wire shows of a value: nothing for the empty string, else its clipped form. *)
Definition show (v : string) : option string := if (v =? "")%string then None else Some (clip v).

(** A consumer's view of an object: its revision and its shown fields, the template digest apart. *)
Definition shown_fields (fields : gmap string string) : gmap string string :=
  map_imap (λ name v, if (name =? template_name)%string then None else show v) fields.

Definition shown (state : ObjectState) : string * gmap string string :=
  (Revision state, shown_fields (Fields state)).

(** Adopting one field change, and one object change. *)
Definition adopt_field (c : InventoryFieldChange) (_ : option string) : option string :=
  if (fc_After c =? "")%string then None else Some (fc_After c).

Definition adopt_fields (view : gmap string string) (cs : list InventoryFieldChange) : gmap string string :=
  replay fc_Field adopt_field view (filter (λ c, fc_Field c ≠ template_name) cs).

Definition key_of (c : InventoryObjectChange) : ObjectKey :=
  {| key_Kind := oc_Kind c; key_Namespace := oc_Namespace c; key_Name := oc_Name c; key_UID := oc_Uid c |}.

Definition adopt (c : InventoryObjectChange) (old : option (string * gmap string string))
    : option (string * gmap string string) :=
  match oc_Change c with
  | CHANGE_CREATED => Some (oc_ObservedRevision c, adopt_fields ∅ (oc_Fields c))
  | CHANGE_MODIFIED =>
      Some (oc_ObservedRevision c, adopt_fields (default ∅ (snd <$> old)) (oc_Fields c))
  | CHANGE_DELETED => None
  | CHANGE_UNSPECIFIED => old
  end.

Abbreviation ledger := (gmap ObjectKey (string * gmap string string)).

Definition apply_changes (view : ledger) (cs : list InventoryObjectChange) : ledger :=
  replay key_of adopt view cs.

(** ** Fields *)

Lemma shown_fields_lookup fields name :
  shown_fields fields !! name
  = if (name =? template_name)%string then None else show (at_ fields name).
Proof.
  unfold shown_fields, at_. rewrite map_lookup_imap.
  by destruct (fields !! name); simpl; destruct (name =? template_name)%string.
Qed.

Lemma adopt_show v : (if (clip v =? "")%string then None else Some (clip v)) = show v.
Proof.
  unfold show. destruct (String.eqb_spec (clip v) ""), (String.eqb_spec v ""); try done.
  - by rewrite clip_empty in e.
  - by rewrite <- clip_empty in e.
Qed.

Lemma NoDup_sortedFieldNames a b : NoDup (sortedFieldNames a b).
Proof. unfold sortedFieldNames, sort_strings. apply sort_NoDup, NoDup_elements. Qed.

Lemma elem_of_sortedFieldNames a b n : n ∈ sortedFieldNames a b ↔ is_Some (a !! n) ∨ is_Some (b !! n).
Proof.
  unfold sortedFieldNames, sort_strings.
  by rewrite sort_elem, elem_of_elements, elem_of_union, !elem_of_dom.
Qed.

(** A name outside both maps moved nowhere. *)
Lemma elem_of_itemized before after n :
  n ∈ itemized before after ↔ at_ before n ≠ at_ after n ∧ n ≠ template_name.
Proof.
  unfold itemized. rewrite list_elem_of_filter, elem_of_sortedFieldNames. unfold at_.
  split; [tauto|]. intros [H1 H2]. split; [done|].
  destruct (before !! n), (after !! n); try done; eauto.
Qed.

(** Replaying changes made from distinct names, one of which may be the template digest. *)
Lemma adopt_fields_map view names (f : string → InventoryFieldChange) n :
  NoDup names → (∀ x, fc_Field (f x) = x) →
  adopt_fields view (f <$> names) !! n
  = if decide (n ∈ names ∧ n ≠ template_name) then adopt_field (f n) None else view !! n.
Proof.
  intros Hn Hf. unfold adopt_fields.
  assert (E : filter (λ c, fc_Field c ≠ template_name) (f <$> names)
              = f <$> filter (λ x, x ≠ template_name) names).
  { clear Hn. induction names as [|x names IH]; [done|]. rewrite fmap_cons, !filter_cons, Hf, IH.
    by case_decide. }
  rewrite E.
  assert (Hk : fc_Field <$> (f <$> filter (λ x, x ≠ template_name) names)
               = filter (λ x, x ≠ template_name) names).
  { rewrite <- list_fmap_compose. clear -Hf. induction (filter _ names) as [|x l IH]; [done|].
    rewrite fmap_cons, IH. simpl. by rewrite Hf. }
  case_decide as D.
  - rewrite <- (Hf n) at 1. rewrite replay_key; [done| |].
    + rewrite Hk. by apply NoDup_filter.
    + apply list_elem_of_fmap_2, list_elem_of_filter. tauto.
  - rewrite replay_other; [done|]. rewrite Hk, list_elem_of_filter. tauto.
Qed.

Lemma adopt_fieldValues fields : adopt_fields ∅ (fieldValues fields) = shown_fields fields.
Proof.
  apply map_eq. intros n. unfold fieldValues.
  rewrite adopt_fields_map; [|apply NoDup_sortedFieldNames|done].
  rewrite shown_fields_lookup, lookup_empty.
  unfold adopt_field. simpl. rewrite adopt_show.
  case_decide as D; rewrite elem_of_sortedFieldNames in D.
  - destruct D as [_ D]. by destruct (String.eqb_spec n template_name).
  - destruct (String.eqb_spec n template_name) as [->|Hne]; [done|].
    unfold at_. destruct (fields !! n) eqn:E; [|done].
    exfalso. apply D. split; [|done]. left. by eexists.
Qed.

(** The template digest is a hint, not a field of the view. *)
Lemma adopt_fields_template view cs c :
  fc_Field c = template_name → adopt_fields view (cs ++ [c]) = adopt_fields view cs.
Proof.
  intros Hc. unfold adopt_fields. rewrite filter_app.
  assert (filter (λ c, fc_Field c ≠ template_name) [c] = []) as ->; [|by rewrite app_nil_r].
  cbn. by rewrite decide_False by tauto.
Qed.

Lemma adopt_fieldDifferences before after :
  adopt_fields (shown_fields before) (fieldDifferences before after) = shown_fields after.
Proof.
  apply map_eq. intros n. unfold fieldDifferences.
  set (f := λ name, {| fc_Field := name; fc_Before := clip (at_ before name); fc_After := clip (at_ after name) |}).
  assert (E : adopt_fields (shown_fields before) (f <$> itemized before after) !! n = shown_fields after !! n).
  { rewrite adopt_fields_map; [|apply NoDup_filter, NoDup_sortedFieldNames|done].
    rewrite !shown_fields_lookup. unfold adopt_field. simpl. rewrite adopt_show.
    case_decide as D; [|].
    - destruct D as [_ D]. destruct (String.eqb_spec n template_name); done.
    - destruct (String.eqb_spec n template_name); [done|].
      rewrite elem_of_itemized in D. destruct (decide (at_ before n = at_ after n)) as [->|]; [done|].
      exfalso. tauto. }
  case_match; [|done]. by rewrite adopt_fields_template.
Qed.

(** ** Objects *)

Lemma key_of_objectChange key r k fs : key_of (objectChange key r k fs) = key.
Proof. by destruct key. Qed.

Lemma key_of_present previous current k c : present_change previous current k = Some c → key_of c = k.
Proof.
  unfold present_change, created_change. intros H. destruct (current !! k); [|done]. simpl in H.
  repeat case_match; simplify_eq; apply key_of_objectChange.
Qed.

Lemma key_of_deleted current k c : deleted_change current k = Some c → key_of c = k.
Proof. unfold deleted_change. intros H. repeat case_match; simplify_eq. apply key_of_objectChange. Qed.

(** The keys of the changes made from distinct keys. *)
Lemma keys_omap (f : ObjectKey → option InventoryObjectChange) (ks : list ObjectKey) :
  (∀ k c, f k = Some c → key_of c = k) →
  key_of <$> omap f ks = filter (λ k, is_Some (f k)) ks.
Proof.
  intros Hf. induction ks as [|k ks IH]; [done|]. rewrite filter_cons. cbn.
  destruct (f k) as [c|] eqn:E; cbn.
  - rewrite decide_True by (by eexists). rewrite (Hf _ _ E). by f_equal.
  - rewrite decide_False by (by intros [? ?]). done.
Qed.

Lemma NoDup_Diff_keys previous current : NoDup (key_of <$> Diff previous current).
Proof.
  unfold Diff. rewrite fmap_app, !keys_omap by eauto using key_of_present, key_of_deleted.
  apply NoDup_app. split_and!.
  - apply NoDup_filter, NoDup_sortedKeys.
  - intros k [[c Hc] _]%list_elem_of_filter [[c' Hc'] _]%list_elem_of_filter.
    unfold present_change, deleted_change in *. by destruct (current !! k).
  - apply NoDup_filter, NoDup_sortedKeys.
Qed.

(** The change made for a key, if any. *)
Definition change_for (previous current : Snapshot) (k : ObjectKey) : option InventoryObjectChange :=
  match current !! k, previous !! k with
  | Some _, _ => present_change previous current k
  | None, Some _ => deleted_change current k
  | None, None => None
  end.

Lemma elem_of_Diff previous current c :
  c ∈ Diff previous current ↔ change_for previous current (key_of c) = Some c.
Proof.
  unfold Diff. rewrite elem_of_app, !list_elem_of_omap. unfold change_for. split.
  - intros [(k & Hk & Hc) | (k & Hk & Hc)].
    + rewrite (key_of_present _ _ _ _ Hc). apply elem_of_sortedKeys in Hk as [s ->]. done.
    + rewrite (key_of_deleted _ _ _ Hc). apply elem_of_sortedKeys in Hk as [s ->].
      pose proof Hc as Hd. unfold deleted_change in Hd. by destruct (current !! k).
  - destruct (current !! key_of c) eqn:E; [left|destruct (previous !! key_of c) eqn:E'; [right|done]];
      exists (key_of c); (split; [apply elem_of_sortedKeys; by eexists|done]).
Qed.

Lemma key_of_change_for previous current k c : change_for previous current k = Some c → key_of c = k.
Proof.
  unfold change_for. destruct (current !! k), (previous !! k); try done;
    eauto using key_of_present, key_of_deleted.
Qed.

(** Replaying a difference, object by object. *)
Lemma Diff_replays' previous current :
  (∀ k a b, previous !! k = Some a → current !! k = Some b → Revision a = Revision b →
     shown_fields (Fields a) = shown_fields (Fields b)) →
  apply_changes (shown <$> previous) (Diff previous current) = shown <$> current.
Proof.
  intros Hrev. apply map_eq. intros k. rewrite lookup_fmap.
  pose proof (NoDup_Diff_keys previous current) as Hn.
  destruct (change_for previous current k) as [c|] eqn:E.
  - assert (Hk : key_of c = k) by by eapply key_of_change_for.
    assert (Hin : c ∈ Diff previous current) by (rewrite elem_of_Diff; by rewrite Hk).
    rewrite <- Hk. unfold apply_changes. rewrite replay_key by done. rewrite Hk, lookup_fmap.
    clear Hk Hin.
    unfold change_for, present_change, deleted_change, created_change in E.
    destruct (current !! k) as [st|] eqn:Ec; simpl in E.
    + destruct (previous !! k) as [be|] eqn:Ep; simpl in E; [case_match; [done|]|]; simplify_eq.
      * unfold adopt, shown. cbn -[fieldDifferences shown_fields adopt_fields]. by rewrite adopt_fieldDifferences.
      * unfold adopt, shown. cbn -[fieldValues shown_fields adopt_fields]. by rewrite adopt_fieldValues.
    + destruct (previous !! k); simplify_eq. done.
  - assert (Hout : k ∉ key_of <$> Diff previous current).
    { intros (c & -> & Hc)%list_elem_of_fmap. apply elem_of_Diff in Hc. congruence. }
    unfold apply_changes. rewrite replay_other by done. rewrite lookup_fmap.
    unfold change_for, present_change, deleted_change in E.
    destruct (current !! k) as [st|] eqn:Ec; simpl in E.
    + destruct (previous !! k) as [be|] eqn:Ep; simpl in E; [|done].
      case_match eqn:Er; [|done]. bool_prop. simpl. unfold shown. do 2 f_equal; [done|by eapply Hrev].
    + by destruct (previous !! k).
Qed.

(** C25: replaying a difference on a consumer's view of the previous snapshot yields its view of the
    current one, object by object: revisions, and every watched field as the wire shows it (empty as
    absent, long values clipped; the template digest is only ever a hint). Asked of the snapshots is
    only that a revision identifies the shown fields of its object. *)
Theorem Diff_replays previous current :
  (∀ k a b, previous !! k = Some a → current !! k = Some b → Revision a = Revision b →
     shown_fields (Fields a) = shown_fields (Fields b)) →
  apply_changes (shown <$> previous) (Diff previous current) = shown <$> current.
Proof. apply Diff_replays'. Qed.

Lemma change_for_None previous current k :
  change_for previous current k = None ↔ Revision <$> previous !! k = Revision <$> current !! k.
Proof.
  unfold change_for, present_change, deleted_change.
  destruct (current !! k) as [st|], (previous !! k) as [be|]; simpl; try by split.
  destruct (String.eqb_spec (Revision be) (Revision st)) as [->|Hne]; [done|].
  split; [done|]. intros [= E]. done.
Qed.

Lemma Baseline_Diff current : Baseline current = Diff ∅ current.
Proof.
  unfold Diff, Baseline. change (sortedKeys ∅) with (@nil ObjectKey). cbn [omap list_omap].
  rewrite app_nil_r. apply list_omap_ext, Forall_Forall2_diag, Forall_forall. intros k _.
  unfold present_change. rewrite lookup_empty. by destruct (current !! k).
Qed.

Lemma Baseline_replays current : apply_changes ∅ (Baseline current) = shown <$> current.
Proof.
  rewrite Baseline_Diff, <- (Diff_replays' ∅ current); [|by intros; rewrite lookup_empty in *].
  by rewrite fmap_empty.
Qed.

Lemma elem_of_Diff_kinds previous current c :
  c ∈ Diff previous current →
  (oc_Change c = CHANGE_CREATED ↔ previous !! key_of c = None)
  ∧ (oc_Change c = CHANGE_DELETED ↔ current !! key_of c = None)
  ∧ default "" (Revision <$> current !! key_of c) = oc_ObservedRevision c.
Proof.
  intros Hc. apply elem_of_Diff in Hc. revert Hc. generalize (key_of c). intros k.
  unfold change_for, present_change, deleted_change, created_change.
  destruct (current !! k) as [st|], (previous !! k) as [be|]; simpl; try done; [case_match; [done|]|..];
    intros [= <-]; simpl; done.
Qed.

(** a baseline replayed on an empty view is the view of the whole snapshot; and a difference is empty
    exactly when the same incarnations are there under the same revisions, lists every object at most
    once, and reports an object that was deleted and recreated under one name as two objects. *)
Theorem Baseline_and_Diff_lists previous current :
  apply_changes ∅ (Baseline current) = shown <$> current
  ∧ (Diff previous current = [] ↔ ∀ k, Revision <$> previous !! k = Revision <$> current !! k)
  ∧ NoDup (key_of <$> Diff previous current)
  ∧ (∀ c, c ∈ Diff previous current →
       (oc_Change c = CHANGE_CREATED ↔ previous !! key_of c = None)
       ∧ (oc_Change c = CHANGE_DELETED ↔ current !! key_of c = None)
       ∧ default "" (Revision <$> current !! key_of c) = oc_ObservedRevision c).
Proof.
  split_and!; [|split| |].
  - apply Baseline_replays.
  - intros E k. apply change_for_None. destruct (change_for previous current k) as [c|] eqn:Hc; [|done].
    assert (key_of c = k) as Hk by by eapply key_of_change_for.
    rewrite <- Hk in Hc. apply elem_of_Diff in Hc. rewrite E in Hc. by apply not_elem_of_nil in Hc.
  - intros H. apply elem_of_nil_inv. intros c Hc. apply elem_of_Diff in Hc.
    by rewrite (proj2 (change_for_None _ _ _)) in Hc.
  - apply NoDup_Diff_keys.
  - apply elem_of_Diff_kinds.
Qed.

Lemma StronglySorted_filter {A} (R : A → A → Prop) (P : A → Prop) `{!∀ x, Decision (P x)} l :
  StronglySorted R l → StronglySorted R (filter P l).
Proof.
  induction 1 as [|x l _ IH Hx]; [constructor|]. rewrite filter_cons. case_decide; [|done].
  constructor; [done|]. rewrite Forall_forall in *. intros y [_ Hy]%list_elem_of_filter. by apply Hx.
Qed.

(** a modification itemizes exactly the watched fields whose value moved, each once and in sorted
    order, with both values clipped to 512 bytes; the template digest is added precisely when it moved
    and no field inside the template was itemized. *)
Theorem fieldDifferences_exact before after :
  let changes := fieldDifferences before after in
  NoDup (fc_Field <$> changes)
  ∧ StronglySorted (not_greater str_ltb) (itemized before after)
  ∧ (∀ n, n ≠ template_name →
       n ∈ fc_Field <$> changes ↔ at_ before n ≠ at_ after n)
  ∧ (template_name ∈ fc_Field <$> changes ↔
       at_ before template_name ≠ at_ after template_name
       ∧ ∀ n, isTemplateField n = true → at_ before n = at_ after n)
  ∧ (∀ c, c ∈ changes → fc_Field c ≠ template_name →
       fc_Before c = clip (at_ before (fc_Field c)) ∧ fc_After c = clip (at_ after (fc_Field c))
       ∧ slen (fc_Before c) ≤ 512 ∧ slen (fc_After c) ≤ 512).
Proof.
  cbv zeta. set (f := λ name, {| fc_Field := name; fc_Before := clip (at_ before name);
                                 fc_After := clip (at_ after name) |}).
  assert (Hf : fc_Field <$> (f <$> itemized before after) = itemized before after).
  { induction (itemized before after) as [|n l IH]; [done|]. rewrite !fmap_cons, IH. done. }
  set (extra := negb (at_ before template_name =? at_ after template_name)%string
                && negb (existsb isTemplateField (itemized before after))).
  assert (Hextra : extra = true ↔ at_ before template_name ≠ at_ after template_name
    ∧ ∀ n, isTemplateField n = true → at_ before n = at_ after n).
  { unfold extra. rewrite andb_true_iff, !negb_true_iff, String.eqb_neq. apply and_iff_compat_l.
    rewrite <- not_true_iff_false, existsb_exists. split.
    - intros Hno n Hn. destruct (decide (at_ before n = at_ after n)) as [|Hne]; [done|].
      exfalso. apply Hno. exists n. split; [|done]. apply list_elem_of_In, elem_of_itemized.
      split; [done|]. by intros ->.
    - intros Hall (n & Hin & Hn). apply list_elem_of_In, elem_of_itemized in Hin as [Hne _].
      by apply Hne, Hall. }
  assert (Hc : fieldDifferences before after = (f <$> itemized before after)
    ++ if extra then [{| fc_Field := template_name; fc_Before := at_ before template_name;
                         fc_After := at_ after template_name |}] else []).
  { unfold fieldDifferences. fold f extra. destruct extra; [done|]. by rewrite app_nil_r. }
  assert (Hnames : fc_Field <$> fieldDifferences before after
                   = itemized before after ++ if extra then [template_name] else []).
  { rewrite Hc, fmap_app, Hf. by destruct extra. }
  assert (Hnot : template_name ∉ itemized before after) by (rewrite elem_of_itemized; tauto).
  split_and!.
  - rewrite Hnames. apply NoDup_app. split_and!; [apply NoDup_filter, NoDup_sortedFieldNames| |].
    + intros n Hn. destruct extra; [|apply not_elem_of_nil].
      rewrite list_elem_of_singleton. intros ->. done.
    + destruct extra; [apply NoDup_singleton|apply NoDup_nil_2].
  - unfold itemized. apply StronglySorted_filter. apply sort_sorted, _.
  - intros n Hn. rewrite Hnames, elem_of_app, elem_of_itemized. destruct extra.
    + rewrite list_elem_of_singleton. tauto.
    + split; [intros [?|?%not_elem_of_nil]; tauto|auto].
  - rewrite Hnames, elem_of_app, <- Hextra. destruct extra.
    + rewrite list_elem_of_singleton. tauto.
    + split; [intros [?|?%not_elem_of_nil]; tauto|done].
  - intros c. rewrite Hc, elem_of_app. intros [(n & -> & Hn)%list_elem_of_fmap | H] Hne.
    + simpl. auto using slen_clip.
    + destruct extra; [|by apply not_elem_of_nil in H]. apply list_elem_of_singleton in H as ->. done.
Qed.

(** ** A concrete tick *)

Definition sample_key : ObjectKey :=
  {| key_Kind := OBJECT_DEPLOYMENT; key_Namespace := "prod"; key_Name := "api"; key_UID := "u1" |}.
Definition sample_before : Snapshot :=
  {[ sample_key := {| Revision := "g1.aa"; Fields := {[ "spec.replicas" := "2"; "spec.template" := "t1" ]} |} ]}.
Definition sample_after : Snapshot :=
  {[ sample_key := {| Revision := "g2.bb"; Fields := {[ "spec.replicas" := "3"; "spec.template" := "t1" ]} |} ]}.

Lemma Diff_replays_witness :
  length (Diff sample_before sample_after) = 1
  ∧ apply_changes (shown <$> sample_before) (Diff sample_before sample_after) = shown <$> sample_after.
Proof.
  split; [by vm_compute|]. apply (Diff_replays sample_before sample_after).
  unfold sample_before, sample_after. intros k a b Ha Hb.
  apply lookup_singleton_Some in Ha as [_ <-]. apply lookup_singleton_Some in Hb as [_ <-]. by intros [=].
Defined.
