(* ===== verification/InventoryLocal.v ===== *)
(** * The operator's inventory configuration (internal/inventory/local.go)

    [ParseLocal] from the decoded document on. The YAML decoder is a parameter: each of its two calls
    yields the end of the input, an error, or a document. *)

From S2P Require Import Prelude GoString Utf8 GoTime Admission Policy.
From stdpp Require Import options.
Local Open Scope Z_scope.

(** ** Data *)

Definition localVersion : Z := 1.
Definition defaultMinimumInterval : Duration := 30 * Second.

Record Local := {
  lo_Enabled : bool;
  lo_Namespaces : option (gset string);
  lo_MinimumInterval : Duration;
}.

Record inventory_section := {
  is_Version : Z;
  is_Enabled : option bool;
  is_Namespaces : list string;
  is_MinimumInterval : string;
}.

Inductive inventory_document :=
  | DocumentEOF
  | DocumentError (message : string)
  | Document (inventory : inventory_section).

Inductive local_error :=
  | LocalUnreadable (path : string)
  | LocalEmpty (source : string)
  | LocalMalformed (source message : string)
  | LocalManyDocuments (source : string)
  | LocalVersion (source : string) (version : Z)
  | LocalNotANamespace (source namespace : string)
  | LocalIntervalNotPositive (source : string).

Definition DefaultLocal : Local :=
  {| lo_Enabled := true; lo_Namespaces := None; lo_MinimumInterval := defaultMinimumInterval |}.

(** ** Parsing *)

Definition namespaceLabel (namespace : string) : bool := MatchString Identifier.dns1123Label namespace.

Fixpoint namespaces_loop (source : string) (set : gset string) (entries : list string)
    : result local_error (gset string) :=
  match entries with
  | [] => Ok set
  | entry :: entries =>
      let namespace := trim_space entry in
      if negb (namespaceLabel namespace) || (63 <? slen namespace)%nat
      then Err (LocalNotANamespace source namespace)
      else namespaces_loop source ({[ namespace ]} ∪ set) entries
  end.

Definition local_namespaces (source : string) (entries : list string)
    : result local_error (option (gset string)) :=
  match entries with
  | [] => Ok None
  | _ => set ← namespaces_loop source ∅ entries; Ok (Some set)
  end.

Definition local_interval (source text : string) : result local_error Duration :=
  if (text =? "")%string then Ok defaultMinimumInterval
  else
    match ParseDuration text with
    | None => Err (LocalIntervalNotPositive source)
    | Some interval => if interval <=? 0 then Err (LocalIntervalNotPositive source) else Ok interval
    end.

Definition ParseLocal (first second : inventory_document) (source : string) : result local_error Local :=
  match first with
  | DocumentEOF => Err (LocalEmpty source)
  | DocumentError message => Err (LocalMalformed source (firstLine message))
  | Document sec =>
      match second with
      | DocumentEOF =>
          if negb (is_Version sec =? localVersion) then Err (LocalVersion source (is_Version sec)) else
          namespaces ← local_namespaces source (is_Namespaces sec);
          interval ← local_interval source (is_MinimumInterval sec);
          Ok {| lo_Enabled := default (lo_Enabled DefaultLocal) (is_Enabled sec);
                lo_Namespaces := namespaces; lo_MinimumInterval := interval |}
      | _ => Err (LocalManyDocuments source)
      end
  end.

Definition LoadLocal (read : string → option string)
    (decode : string → inventory_document * inventory_document) (path : string) : result local_error Local :=
  if (path =? "")%string then Ok DefaultLocal
  else
    match read path with
    | None => Err (LocalUnreadable path)
    | Some raw => let '(first, second) := decode raw in ParseLocal first second path
    end.

(** ** Properties *)

Lemma namespaces_loop_Ok source set entries set' :
  namespaces_loop source set entries = Ok set' ↔
  Forall (λ e, Identifier.ValidNamespace (trim_space e) = true) entries
  ∧ set' = list_to_set (trim_space <$> entries) ∪ set.
Proof.
  revert set. induction entries as [|e entries IH]; intros set; cbn [namespaces_loop].
  - rewrite fmap_nil, list_to_set_nil, (left_id_L ∅ (∪)). split; [intros [= <-]; auto|].
    by intros [_ ->].
  - rewrite Forall_cons, Identifier.ValidNamespace_match. fold (namespaceLabel (trim_space e)). destruct (negb _ || _) eqn:E.
    + split; [done|]. intros [[[H1 H2] _] _]. rewrite H1 in E. simpl in E. bool_prop. lia.
    + bool_prop. rewrite IH, fmap_cons, list_to_set_cons. split; intros [H1 ->].
      * split; [done|]. set_solver.
      * split; [tauto|]. set_solver.
Qed.

(** which inventory documents are accepted, and the constraints they yield: one document of this
    version, every entry a namespace name, the interval empty or a positive duration. The watched set is
    exactly the listed names, or unnarrowed when none is listed; the floor is the written one or the
    built-in one, so it is always positive; an absent switch means enabled. *)
Theorem ParseLocal_accepts first second source local :
  ParseLocal first second source = Ok local ↔
  ∃ sec, first = Document sec ∧ second = DocumentEOF ∧ is_Version sec = localVersion
    ∧ Forall (λ e, Identifier.ValidNamespace (trim_space e) = true) (is_Namespaces sec)
    ∧ (is_MinimumInterval sec = "" ∧ lo_MinimumInterval local = 30 * Second
       ∨ is_MinimumInterval sec ≠ "" ∧ 0 < lo_MinimumInterval local
         ∧ ParseDuration (is_MinimumInterval sec) = Some (lo_MinimumInterval local))
    ∧ lo_Enabled local = default true (is_Enabled sec)
    ∧ lo_Namespaces local = match is_Namespaces sec with
                            | [] => None
                            | _ => Some (list_to_set (trim_space <$> is_Namespaces sec))
                            end.
Proof.
  assert (Hns : ∀ entries o, local_namespaces source entries = Ok o ↔
    Forall (λ e, Identifier.ValidNamespace (trim_space e) = true) entries
    ∧ o = match entries with [] => None | _ => Some (list_to_set (trim_space <$> entries)) end).
  { intros entries o. unfold local_namespaces. destruct entries as [|e entries].
    - split; [intros [= <-]; auto|]. by intros [_ ->].
    - rewrite bind_Ok. setoid_rewrite namespaces_loop_Ok. rewrite (right_id_L ∅ (∪)).
      split; [intros (? & [? ->] & [= <-]); auto|]. intros [? ->]. by eexists. }
  assert (Hi : ∀ text d, local_interval source text = Ok d ↔
    text = "" ∧ d = 30 * Second ∨ text ≠ "" ∧ 0 < d ∧ ParseDuration text = Some d).
  { intros text d. unfold local_interval, defaultMinimumInterval.
    destruct (String.eqb_spec text "") as [->|Hne]; [naive_solver|].
    destruct (ParseDuration text) as [x|]; [|naive_solver].
    destruct (Z.leb_spec x 0); split; intros Hx.
    - done.
    - destruct Hx as [[? _]|(_ & ? & [= ->])]; [done|lia].
    - injection Hx as ->. right. split; [done|]. split; [lia|done].
    - destruct Hx as [[? _]|(_ & ? & [= ->])]; done. }
  unfold ParseLocal. split.
  - destruct first as [|message|sec]; [done..|]. destruct second; [|done..].
    case_match eqn:Ev; [done|]. bool_prop. rewrite !bind_Ok. intros (ns & H1 & H).
    rewrite bind_Ok in H. destruct H as (d & H2 & [= <-]). apply Hns in H1 as [? ->]. apply Hi in H2.
    exists sec. do 3 (split; [done|]). split; [exact H|]. split; [exact H2|done].
  - intros (sec & -> & -> & Ev & H1 & H2 & H3 & H4). rewrite Ev. simpl.
    apply bind_Ok. exists (lo_Namespaces local). split; [by apply Hns|].
    apply bind_Ok. exists (lo_MinimumInterval local). split; [by apply Hi|].
    destruct local. simpl in *. by subst.
Qed.

(** The watched set names its namespaces. *)
Lemma LoadLocal_named read decode path local s :
  LoadLocal read decode path = Ok local → lo_Namespaces local = Some s → "" ∉ s.
Proof.
  unfold LoadLocal. case_match; [by intros [= <-]|]. destruct (read path) as [raw|]; [|done].
  destruct (decode raw) as [first second]. intros (sec & _ & _ & _ & Hv & _ & _ & Hn)%ParseLocal_accepts Hs.
  assert (Es : s = list_to_set (trim_space <$> is_Namespaces sec)) by (destruct (is_Namespaces sec); congruence).
  rewrite Es, elem_of_list_to_set. intros (x & Ex & Hx)%list_elem_of_fmap.
  rewrite Forall_forall in Hv. specialize (Hv x Hx). by rewrite <- Ex in Hv.
Qed.
