(* ===== verification/Sync.v ===== *)
(** * The inventory synchronizer (internal/inventory/sync.go)

    Scopes, their policies, ticks and pending deltas. [collect] threads a world through the reader it is
    given. The synchronizer as a whole is a transition system: a tick is two steps, the reads happening
    between them without the lock, so policies and acknowledgements interleave with it. *)

From S2P Require Import Prelude GoString GoTime Wire Execution Kube KubeInventory Snapshot Diff InventoryLocal.
From stdpp Require Import options.
Local Open Scope Z_scope.

Definition listLimit : Z := 500.
Definition maxChangesPerDelta : nat := 512.
Definition maxPendingDeltas : nat := 64.

(** ** Observing a scope *)

Record Reader (W : Type) := {
  rd_ListWorkloadIntents : Ctx W → string → Z → W → result Port.Error InventoryPage * W;
  rd_ListConfigMapVersions : Ctx W → string → Z → W → result Port.Error ConfigVersionPage * W;
  rd_ListSecretVersions : Ctx W → string → Z → W → result Port.Error ConfigVersionPage * W;
}.
Arguments rd_ListWorkloadIntents {W}.
Arguments rd_ListConfigMapVersions {W}.
Arguments rd_ListSecretVersions {W}.

(** [kube.InventoryLister] behind the interface. *)
Definition lister {W} (c : InventoryClient W) : Reader W :=
  {| rd_ListWorkloadIntents := ListWorkloadIntents c;
     rd_ListConfigMapVersions := ListConfigMapVersions c;
     rd_ListSecretVersions := ListSecretVersions c |}.

Abbreviation references := (gmap string (gset string)).

Definition noteReferences (into : references) (namespace : string) (names : list string) : references :=
  match names with
  | [] => into
  | _ => <[namespace := list_to_set names ∪ default ∅ (into !! namespace)]> into
  end.

Definition referenced (refs : references) (namespace name : string) : bool :=
  bool_decide (name ∈ default ∅ (refs !! namespace)).

(** [collect]'s local variables. *)
Record collected := {
  cl_Snapshot : Snapshot;
  cl_Truncated : bool;
  cl_ConfigMaps : references;
  cl_Secrets : references;
}.

Definition add_intent (acc : collected) (intent : WorkloadIntent) : collected :=
  let '(key, state) := workloadState intent in
  {| cl_Snapshot := <[key := state]> (cl_Snapshot acc);
     cl_Truncated := cl_Truncated acc;
     cl_ConfigMaps := noteReferences (cl_ConfigMaps acc) (wi_Namespace intent) (wi_ConfigMapRefs intent);
     cl_Secrets := noteReferences (cl_Secrets acc) (wi_Namespace intent) (wi_SecretRefs intent) |}.

Definition add_version (kind : InventoryObjectKind) (refs : references) (acc : collected)
    (version : ConfigVersion) : collected :=
  if referenced refs (cv_Namespace version) (cv_Name version) then
    let '(key, state) := configState kind version in
    {| cl_Snapshot := <[key := state]> (cl_Snapshot acc); cl_Truncated := cl_Truncated acc;
       cl_ConfigMaps := cl_ConfigMaps acc; cl_Secrets := cl_Secrets acc |}
  else acc.

Definition note_truncated (truncated : bool) (acc : collected) : collected :=
  {| cl_Snapshot := cl_Snapshot acc; cl_Truncated := cl_Truncated acc || truncated;
     cl_ConfigMaps := cl_ConfigMaps acc; cl_Secrets := cl_Secrets acc |}.

Definition add_workloads (page : InventoryPage) (acc : collected) : collected :=
  foldl add_intent (note_truncated (ip_Truncated page) acc) (ip_Workloads page).

Definition add_configMaps (page : ConfigVersionPage) (acc : collected) : collected :=
  foldl (add_version OBJECT_CONFIGMAP (cl_ConfigMaps acc)) (note_truncated (cp_Truncated page) acc)
    (cp_Versions page).

Definition add_secrets (page : ConfigVersionPage) (acc : collected) : collected :=
  foldl (add_version OBJECT_SECRET (cl_Secrets acc)) (note_truncated (cp_Truncated page) acc)
    (cp_Versions page).

Section collect.
Context {W : Type} (reader : Reader W) (ctx : Ctx W).

Fixpoint workloads_loop (namespaces : list string) (acc : collected) (w : W)
    : result Port.Error collected * W :=
  match namespaces with
  | [] => (Ok acc, w)
  | namespace :: namespaces =>
      match rd_ListWorkloadIntents reader ctx namespace listLimit w with
      | (Err e, w) => (Err e, w)
      | (Ok page, w) => workloads_loop namespaces (add_workloads page acc) w
      end
  end.

Fixpoint versions_loop (namespaces : list string) (acc : collected) (w : W)
    : result Port.Error collected * W :=
  match namespaces with
  | [] => (Ok acc, w)
  | namespace :: namespaces =>
      match rd_ListConfigMapVersions reader ctx namespace listLimit w with
      | (Err e, w) => (Err e, w)
      | (Ok page, w) =>
          let acc := add_configMaps page acc in
          match rd_ListSecretVersions reader ctx namespace listLimit w with
          | (Err e, w) => (Err e, w)
          | (Ok page, w) => versions_loop namespaces (add_secrets page acc) w
          end
      end
  end.

Definition collect (namespaces : list string) (w : W) : result Port.Error (Snapshot * bool) * W :=
  match workloads_loop namespaces
          {| cl_Snapshot := ∅; cl_Truncated := false; cl_ConfigMaps := ∅; cl_Secrets := ∅ |} w with
  | (Err e, w) => (Err e, w)
  | (Ok acc, w) =>
      match versions_loop namespaces acc w with
      | (Err e, w) => (Err e, w)
      | (Ok acc, w) => (Ok (cl_Snapshot acc, cl_Truncated acc), w)
      end
  end.
End collect.

(** ** Policies *)

(** What [NewSynchronizer] fixes. *)
Record Setup := {
  su_local : Local;
  su_allowedNamespaces : option (gset string);
}.

Definition permits (set : option (gset string)) (namespace : string) : bool :=
  match set with Some s => bool_decide (namespace ∈ s) | None => true end.

Definition namespaceAllowed (su : Setup) (namespace : string) : bool :=
  if negb (permits (lo_Namespaces (su_local su)) namespace) then false
  else permits (su_allowedNamespaces su) namespace.

Definition effectiveNamespaces (su : Setup) (requested : list string) : list string :=
  match requested with
  | _ :: _ => sort_strings (filter (λ n, namespaceAllowed su n = true) requested)
  | [] =>
      match lo_Namespaces (su_local su), su_allowedNamespaces su with
      | Some local, _ => sort_strings (filter (λ n, permits (su_allowedNamespaces su) n = true) (elements local))
      | None, Some allowed => sort_strings (elements allowed)
      | None, None => [""]
      end
  end.

Record scopeState := {
  sc_connectionID : string;
  sc_policyRevision : Z;
  sc_interval : Duration;
  sc_namespaces : list string;
  sc_configVersion : Z;
  sc_snapshot : Snapshot;
  sc_baselined : bool;
  sc_rebaseline : bool;
  sc_nextDue : Time;
  sc_lastCompleted : Time;
  sc_faulted : bool;
  sc_truncated : bool;
  sc_pending : list InventoryDelta;
}.

Definition new_scope (connectionID : string) : scopeState :=
  {| sc_connectionID := connectionID; sc_policyRevision := 0; sc_interval := 0; sc_namespaces := [];
     sc_configVersion := 0; sc_snapshot := ∅; sc_baselined := false; sc_rebaseline := false;
     sc_nextDue := zero_time; sc_lastCompleted := zero_time; sc_faulted := false; sc_truncated := false;
     sc_pending := [] |}.

(** The assignments at the end of [ApplyPolicy]. *)
Definition adopt_policy (revision : Z) (interval : Duration) (namespaces : list string) (rebaseline : bool)
    (now : Time) (s : scopeState) : scopeState :=
  {| sc_connectionID := sc_connectionID s; sc_policyRevision := revision; sc_interval := interval;
     sc_namespaces := namespaces; sc_configVersion := sc_configVersion s + 1;
     sc_snapshot := sc_snapshot s; sc_baselined := sc_baselined s; sc_rebaseline := rebaseline;
     sc_nextDue := now; sc_lastCompleted := sc_lastCompleted s; sc_faulted := sc_faulted s;
     sc_truncated := sc_truncated s; sc_pending := sc_pending s |}.

Definition with_nextDue (t : Time) (s : scopeState) : scopeState :=
  {| sc_connectionID := sc_connectionID s; sc_policyRevision := sc_policyRevision s;
     sc_interval := sc_interval s; sc_namespaces := sc_namespaces s;
     sc_configVersion := sc_configVersion s; sc_snapshot := sc_snapshot s;
     sc_baselined := sc_baselined s; sc_rebaseline := sc_rebaseline s; sc_nextDue := t;
     sc_lastCompleted := sc_lastCompleted s; sc_faulted := sc_faulted s;
     sc_truncated := sc_truncated s; sc_pending := sc_pending s |}.

Definition with_pending (l : list InventoryDelta) (s : scopeState) : scopeState :=
  {| sc_connectionID := sc_connectionID s; sc_policyRevision := sc_policyRevision s;
     sc_interval := sc_interval s; sc_namespaces := sc_namespaces s;
     sc_configVersion := sc_configVersion s; sc_snapshot := sc_snapshot s;
     sc_baselined := sc_baselined s; sc_rebaseline := sc_rebaseline s; sc_nextDue := sc_nextDue s;
     sc_lastCompleted := sc_lastCompleted s; sc_faulted := sc_faulted s;
     sc_truncated := sc_truncated s; sc_pending := l |}.

Definition with_fault (s : scopeState) : scopeState :=
  {| sc_connectionID := sc_connectionID s; sc_policyRevision := sc_policyRevision s;
     sc_interval := sc_interval s; sc_namespaces := sc_namespaces s;
     sc_configVersion := sc_configVersion s; sc_snapshot := sc_snapshot s;
     sc_baselined := sc_baselined s; sc_rebaseline := sc_rebaseline s; sc_nextDue := sc_nextDue s;
     sc_lastCompleted := sc_lastCompleted s; sc_faulted := true;
     sc_truncated := sc_truncated s; sc_pending := sc_pending s |}.

Abbreviation scopes := (gmap string scopeState).

(** [equalNamespaces] *)
Definition equalNamespaces (a b : list string) : bool :=
  (length a =? length b)%nat && forallb (λ '(x, y), (x =? y)%string) (zip a b).

Lemma equalNamespaces_spec a b : equalNamespaces a b = bool_decide (a = b).
Proof.
  unfold equalNamespaces. revert b. induction a as [|x a IH]; intros [|y b]; try done. specialize (IH b). cbn in IH |- *.
  destruct (String.eqb_spec x y) as [->|Hne]; cbn.
  - rewrite IH. apply bool_decide_ext. naive_solver.
  - rewrite andb_false_r. symmetry. apply bool_decide_eq_false. naive_solver.
Qed.

Definition ApplyPolicy (su : Setup) (p : InventorySynchronizationPolicy) (now : Time) (ss : scopes) : scopes :=
  if negb (lo_Enabled (su_local su)) || (ip_ConnectionId p =? "")%string then ss
  else
    let namespaces := effectiveNamespaces su (ip_Namespaces p) in
    let requested := AsDuration (ip_RequestedInterval p) in
    let interval := if requested <? lo_MinimumInterval (su_local su)
                    then lo_MinimumInterval (su_local su) else requested in
    let revision := ip_Revision p in
    match ss !! ip_ConnectionId p with
    | None => <[ip_ConnectionId p := adopt_policy revision interval namespaces false now
                                       (new_scope (ip_ConnectionId p))]> ss
    | Some scope =>
        if (sc_policyRevision scope =? revision) && (sc_interval scope =? interval)
           && equalNamespaces (sc_namespaces scope) namespaces
        then ss
        else
          let rebaseline := if equalNamespaces (sc_namespaces scope) namespaces
                            then sc_rebaseline scope else true in
          <[ip_ConnectionId p := adopt_policy revision interval namespaces rebaseline now scope]> ss
    end.

(** ** Acknowledgements and status *)

(** [sortedScopeIDs]: the keys collected, then sorted. *)
Definition sortedScopeIDs (ss : scopes) : list string := sorted_keys ss.

(** The first delta of the queue with this identifier, removed. *)
Fixpoint remove_delta (id : string) (l : list InventoryDelta) : option (list InventoryDelta) :=
  match l with
  | [] => None
  | d :: l => if (id_DeltaId d =? id)%string then Some l else cons d <$> remove_delta id l
  end.

(** [Ack]; [order] is the order the iteration over the scopes happens to take. *)
Fixpoint Ack (order : list string) (id : string) (ss : scopes) : scopes :=
  match order with
  | [] => ss
  | connectionID :: order =>
      match ss !! connectionID ≫= λ scope, (λ l, with_pending l scope) <$> remove_delta id (sc_pending scope) with
      | Some scope => <[connectionID := scope]> ss
      | None => Ack order id ss
      end
  end.

Definition Pending (ss : scopes) : list InventoryDelta :=
  sortedScopeIDs ss ≫= λ connectionID, default [] (sc_pending <$> ss !! connectionID).

Definition status (s : scopeState) : InventoryScopeStatus :=
  {| is_ConnectionId := sc_connectionID s; is_PolicyRevision := sc_policyRevision s;
     is_LastCompletedAt := if IsZero (sc_lastCompleted s) then None else timestamp_New (sc_lastCompleted s);
     is_Faulted := sc_faulted s; is_Truncated := sc_truncated s |}.

Definition Statuses (ss : scopes) : list InventoryScopeStatus :=
  omap (λ connectionID, status <$> ss !! connectionID) (sortedScopeIDs ss).

(** ** Deltas *)

(** [packDeltas]: the loop runs once even for no changes. [newDeltaID] is the random source, indexed by
    draw. *)
Fixpoint pack_loop (fuel : nat) (newDeltaID : nat → string) (draw : nat) (connectionID : string)
    (revision : Z) (baseline : bool) (observedAt : Time) (changes : list InventoryObjectChange)
    : list InventoryDelta :=
  match fuel with
  | O => []
  | S fuel =>
      let chunk := take maxChangesPerDelta changes in
      let rest := drop maxChangesPerDelta changes in
      {| id_DeltaId := newDeltaID draw; id_ConnectionId := connectionID; id_PolicyRevision := revision;
         id_Baseline := baseline; id_ObservedAt := timestamp_New observedAt; id_Changes := chunk |}
      :: match rest with
         | [] => []
         | _ => pack_loop fuel newDeltaID (S draw) connectionID revision baseline observedAt rest
         end
  end.

Definition packDeltas (newDeltaID : nat → string) (connectionID : string) (revision : Z) (baseline : bool)
    (observedAt : Time) (changes : list InventoryObjectChange) : list InventoryDelta :=
  match changes, baseline with
  | [], false => []
  | _, _ => pack_loop (S (length changes)) newDeltaID 0 connectionID revision baseline observedAt changes
  end.

(** ** Ticks *)

(** What a tick reads before it leaves the lock. *)
Record tick := {
  tk_scope : string;
  tk_namespaces : list string;
  tk_configVersion : Z;
  tk_previous : Snapshot;
  tk_baseline : bool;
  tk_revision : Z;
}.

Definition begin_tick (connectionID : string) (s : scopeState) : tick :=
  {| tk_scope := connectionID; tk_namespaces := sc_namespaces s; tk_configVersion := sc_configVersion s;
     tk_previous := sc_snapshot s; tk_baseline := negb (sc_baselined s) || sc_rebaseline s;
     tk_revision := sc_policyRevision s |}.

Definition tick_changes (t : tick) (current : Snapshot) : list InventoryObjectChange :=
  if tk_baseline t then Baseline current else Diff (tk_previous t) current.

Definition tick_deltas (newDeltaID : nat → string) (t : tick) (observedAt : Time) (current : Snapshot)
    (s : scopeState) : list InventoryDelta :=
  packDeltas newDeltaID (sc_connectionID s) (tk_revision t) (tk_baseline t) observedAt
    (tick_changes t current).

(** The rest of [tick], after the reads came to [outcome]. *)
Definition finish_tick (newDeltaID : nat → string) (t : tick) (observedAt : Time)
    (outcome : result Port.Error (Snapshot * bool)) (s : scopeState) : scopeState :=
  if negb (sc_configVersion s =? tk_configVersion t) then s
  else
    match outcome with
    | Err _ => with_fault s
    | Ok (current, truncated) =>
        let pending := sc_pending s ++ tick_deltas newDeltaID t observedAt current s in
        let overflow := (maxPendingDeltas <? length pending)%nat in
        {| sc_connectionID := sc_connectionID s; sc_policyRevision := sc_policyRevision s;
           sc_interval := sc_interval s; sc_namespaces := sc_namespaces s;
           sc_configVersion := sc_configVersion s; sc_snapshot := current; sc_baselined := true;
           sc_rebaseline := overflow; sc_nextDue := sc_nextDue s; sc_lastCompleted := observedAt;
           sc_faulted := false; sc_truncated := truncated;
           sc_pending := if overflow then [] else pending |}
    end.

(** ** The synchronizer as a transition system *)

Record Synchronizer := {
  sy_scopes : scopes;
  sy_due : list string;              (* scopes [RunDue] still has to tick *)
  sy_tick : option tick;             (* the tick whose reads are running *)
}.

Definition NewSynchronizer : Synchronizer := {| sy_scopes := ∅; sy_due := []; sy_tick := None |}.

Inductive event :=
  | EPolicy (p : InventorySynchronizationPolicy) (now : Time)
  | EAck (order : list string) (id : string)
  | ERunDue (now : Time)
  | EBegin
  | EFinish (newDeltaID : nat → string) (observedAt : Time) (outcome : result Port.Error (Snapshot * bool)).

Definition due (now : Time) (s : scopeState) : bool := negb (now <? sc_nextDue s).

Definition RunDue (now : Time) (ss : scopes) : list string * scopes :=
  (filter (λ id, match ss !! id with Some s => due now s | None => false end = true) (sortedScopeIDs ss),
   (λ s, if due now s then with_nextDue (now + sc_interval s) s else s) <$> ss).

Definition sync_step (su : Setup) (e : event) (s : Synchronizer) : option Synchronizer :=
  match e with
  | EPolicy p now =>
      Some {| sy_scopes := ApplyPolicy su p now (sy_scopes s); sy_due := sy_due s; sy_tick := sy_tick s |}
  | EAck order id =>
      Some {| sy_scopes := Ack order id (sy_scopes s); sy_due := sy_due s; sy_tick := sy_tick s |}
  | ERunDue now =>
      match sy_due s, sy_tick s with
      | [], None => let '(ids, ss) := RunDue now (sy_scopes s) in
                    Some {| sy_scopes := ss; sy_due := ids; sy_tick := None |}
      | _, _ => None
      end
  | EBegin =>
      match sy_due s, sy_tick s with
      | id :: ids, None =>
          scope ← sy_scopes s !! id;
          Some {| sy_scopes := sy_scopes s; sy_due := ids; sy_tick := Some (begin_tick id scope) |}
      | _, _ => None
      end
  | EFinish newDeltaID observedAt outcome =>
      t ← sy_tick s;
      Some {| sy_scopes := alter (finish_tick newDeltaID t observedAt outcome) (tk_scope t) (sy_scopes s);
              sy_due := sy_due s; sy_tick := None |}
  end.
