(* ===== verification/SyncProps.v ===== *)
(** * What the synchronizer guarantees

    Chunking of deltas, the reach of a scope, the bound on the queue, idempotent policies, and the
    refinement that ties them together: what was queued since the last baseline replays to the snapshot
    the scope holds ([queue_replays]). *)

From S2P Require Import Prelude GoString GoTime Wire Execution Kube KubeInventory Snapshot Diff InventoryLocal Sync.
From stdpp Require Import pretty options.
Local Open Scope Z_scope.

(** ** Chunking *)

Definition delta_for (connectionID : string) (revision : Z) (baseline : bool) (observedAt : Time)
    (d : InventoryDelta) : Prop :=
  id_ConnectionId d = connectionID ∧ id_PolicyRevision d = revision ∧ id_Baseline d = baseline
  ∧ id_ObservedAt d = timestamp_New observedAt ∧ (length (id_Changes d) ≤ 512)%nat.

Lemma delta_for_chunk id c r b t (changes : list InventoryObjectChange) :
  delta_for c r b t {| id_DeltaId := id; id_ConnectionId := c; id_PolicyRevision := r; id_Baseline := b;
                       id_ObservedAt := timestamp_New t; id_Changes := take 512 changes |}.
Proof.
  split_and!; [done..|]. change (length (take 512 changes) ≤ 512)%nat. rewrite length_take. lia.
Qed.

Lemma pack_loop_correct fuel ids draw c r b t changes :
  (length changes < fuel)%nat →
  let deltas := pack_loop fuel ids draw c r b t changes in
  (deltas ≫= id_Changes) = changes ∧ Forall (delta_for c r b t) deltas
  ∧ (length deltas = Nat.max 1 ((length changes + 511) / 512))%nat
  ∧ (∀ k d, deltas !! k = Some d → id_DeltaId d = ids (draw + k)%nat)
  ∧ (changes ≠ [] → Forall (λ d, id_Changes d ≠ []) deltas).
Proof.
  revert draw changes. induction fuel as [|fuel IH]; intros draw changes Hf; [lia|]. cbv zeta.
  cbn [pack_loop]. unfold maxChangesPerDelta in *.
  destruct (drop 512 changes) as [|x rest] eqn:E.
  - assert (Hlen : (length changes ≤ 512)%nat) by by apply drop_nil_inv in E.
    split_and!.
    + rewrite bind_cons. cbn [id_Changes]. etrans; [apply app_nil_r|]. by apply take_ge.
    + constructor; [apply delta_for_chunk|constructor].
    + cbn [length]. destruct changes as [|y l]; [done|]. cbn [length] in *.
      assert ((S (length l) + 511) / 512 = 1)%nat as ->; [|lia].
      symmetry. apply (Nat.div_unique _ _ _ (length l)); lia.
    + intros [|k] d; [|done]. intros [= <-]. cbn. f_equal. lia.
    + intros Hne. constructor; [|constructor]. cbn [id_Changes]. by rewrite take_ge.
  - assert (Hlen : (length changes = 512 + length (x :: rest))%nat).
    { rewrite <- E, length_drop. assert (length (drop 512 changes) ≠ 0)%nat by by rewrite E.
      rewrite length_drop in H. lia. }
    destruct (IH (S draw) (x :: rest)) as (H1 & H2 & H3 & H4 & H5); [cbn [length] in *; lia|].
    split_and!.
    + rewrite bind_cons. cbn [id_Changes]. etrans; [apply (f_equal (app _)), H1|].
      rewrite <- E. apply take_drop.
    + constructor; [apply delta_for_chunk|done].
    + cbn [length] in H3 |- *. rewrite H3, Hlen.
      replace (512 + length (x :: rest) + 511)%nat with (length (x :: rest) + 511 + 1 * 512)%nat by lia.
      rewrite Nat.div_add by lia. cbn [length].
      assert (1 ≤ (S (length rest) + 511) / 512)%nat; [|lia].
      apply (Nat.div_le_lower_bound); lia.
    + intros [|k] d; cbn [lookup list_lookup].
      * intros [= <-]. cbn. f_equal. lia.
      * intros Hk. rewrite (H4 _ _ Hk). f_equal. lia.
    + intros _. constructor; [|by apply H5]. cbn [id_Changes]. intros Ht%(f_equal length). rewrite length_take in Ht.
      cbn [length] in *. lia.
Qed.

(** The part of it the refinement uses. *)
Lemma packDeltas_facts ids c r b t changes :
  let deltas := packDeltas ids c r b t changes in
  (deltas ≫= id_Changes) = changes ∧ Forall (delta_for c r b t) deltas
  ∧ (deltas = [] ↔ changes = [] ∧ b = false).
Proof.
  cbv zeta. unfold packDeltas. destruct changes as [|x l].
  - destruct b; [|by split_and!].
    destruct (pack_loop_correct 1 ids 0 c r true t []) as (H1 & H2 & _); [simpl; lia|].
    split_and!; try done. split; [done|]. by intros [_ ?].
  - destruct (pack_loop_correct (S (length (x :: l))) ids 0 c r b t (x :: l)) as (H1 & H2 & _); [lia|].
    split_and!; try done. split; [|by intros [? _]]. intros E. rewrite E in H1. done.
Qed.

(** a tick's changes are cut into deltas of at most 512, in order and without loss, all under the same
    scope, revision, baseline mark and observation time, with fresh identifiers drawn one by one; nothing
    is sent for no changes, except that a baseline of an empty scope is still announced by one delta. *)
Theorem packDeltas_correct ids c r b t changes :
  let deltas := packDeltas ids c r b t changes in
  (deltas ≫= id_Changes) = changes ∧ Forall (delta_for c r b t) deltas
  ∧ (deltas = [] ↔ changes = [] ∧ b = false)
  ∧ (length deltas = if b then Nat.max 1 ((length changes + 511) / 512) else (length changes + 511) / 512)%nat
  ∧ (∀ k d, deltas !! k = Some d → id_DeltaId d = ids k)
  ∧ (changes ≠ [] → Forall (λ d, id_Changes d ≠ []) deltas).
Proof.
  cbv zeta. destruct (packDeltas_facts ids c r b t changes) as (H1 & H2 & H3). cbv zeta in *.
  do 3 (split; [done|]). unfold packDeltas. destruct changes as [|x l].
  - destruct b; [|by split_and!].
    destruct (pack_loop_correct 1 ids 0 c r true t []) as (_ & _ & H4 & H5 & _); [simpl; lia|].
    by split_and!.
  - destruct (pack_loop_correct (S (length (x :: l))) ids 0 c r b t (x :: l)) as (_ & _ & H4 & H5 & H6);
      [lia|].
    split_and!; try done. rewrite H4. destruct b; [done|]. cbn [length].
    assert (1 ≤ (S (length l) + 511) / 512)%nat by (apply Nat.div_le_lower_bound; lia). lia.
Qed.

(** ** Reach *)

Lemma namespaceAllowed_true su n :
  namespaceAllowed su n = true ↔
  permits (lo_Namespaces (su_local su)) n = true ∧ permits (su_allowedNamespaces su) n = true.
Proof. unfold namespaceAllowed. destruct (permits _ n), (permits _ n); simpl; naive_solver. Qed.

(** no policy widens what a scope lists: a listed namespace is permitted by the operator's inventory
    configuration and by the process-wide allowlist; a request keeps exactly its permitted namespaces;
    without one the whole permitted set is listed; the cluster-wide list, the empty name, appears only
    when it was requested or nothing anywhere restricts namespaces. The result is sorted. *)
Theorem effectiveNamespaces_permitted su requested :
  let listed := effectiveNamespaces su requested in
  StronglySorted (not_greater str_ltb) listed
  ∧ (∀ n, n ∈ listed → namespaceAllowed su n = true)
  ∧ (requested ≠ [] → ∀ n, n ∈ listed ↔ n ∈ requested ∧ namespaceAllowed su n = true)
  ∧ (requested = [] → lo_Namespaces (su_local su) ≠ None ∨ su_allowedNamespaces su ≠ None →
       ∀ n, n ∈ listed ↔ namespaceAllowed su n = true)
  ∧ (requested = [] → lo_Namespaces (su_local su) = None → su_allowedNamespaces su = None → listed = [""]).
Proof.
  cbv zeta. unfold effectiveNamespaces, sort_strings. split_and!.
  - destruct requested as [|x l]; [|apply sort_sorted, _].
    repeat case_match; try apply sort_sorted, _. repeat constructor.
  - intros n. destruct requested as [|x l].
    + rewrite namespaceAllowed_true.
      destruct (lo_Namespaces (su_local su)) as [s|]; [|destruct (su_allowedNamespaces su) as [a|]].
      * rewrite sort_elem, list_elem_of_filter, elem_of_elements. intros [H1 H2]. cbn [permits].
        by rewrite bool_decide_eq_true.
      * rewrite sort_elem, elem_of_elements. intros H. cbn [permits]. by rewrite bool_decide_eq_true.
      * done.
    + rewrite sort_elem, list_elem_of_filter. tauto.
  - intros Hr n. destruct requested as [|x l]; [done|]. rewrite sort_elem, list_elem_of_filter. tauto.
  - intros -> Hs n. rewrite namespaceAllowed_true.
    destruct (lo_Namespaces (su_local su)) as [s|]; [|destruct (su_allowedNamespaces su) as [a|]].
    + rewrite sort_elem, list_elem_of_filter, elem_of_elements. cbn [permits].
      rewrite bool_decide_eq_true. tauto.
    + rewrite sort_elem, elem_of_elements. cbn [permits]. rewrite bool_decide_eq_true. tauto.
    + by destruct Hs.
  - by intros -> -> ->.
Qed.

(** ** Policies *)

(** re-sending the policy in force changes nothing, neither the queue nor the schedule nor the
    snapshot, whatever time it arrives at; and a policy touches no other scope. *)
Theorem ApplyPolicy_idempotent su p now now' ss :
  ApplyPolicy su p now' (ApplyPolicy su p now ss) = ApplyPolicy su p now ss
  ∧ ∀ id, id ≠ ip_ConnectionId p → ApplyPolicy su p now ss !! id = ss !! id.
Proof.
  unfold ApplyPolicy. destruct (negb _ || _) eqn:E; [done|].
  set (ns := effectiveNamespaces su (ip_Namespaces p)).
  set (iv := if _ <? _ then _ else _).
  assert (Hsame : ∀ rb sc t, let s := adopt_policy (ip_Revision p) iv ns rb t sc in
    (sc_policyRevision s =? ip_Revision p) && (sc_interval s =? iv) && equalNamespaces (sc_namespaces s) ns
    = true).
  { intros rb sc t. cbn. rewrite !Z.eqb_refl, equalNamespaces_spec. by rewrite bool_decide_eq_true_2. }
  split.
  - destruct (ss !! ip_ConnectionId p) as [sc|] eqn:Hs.
    + destruct (_ && _ && _) eqn:Eq.
      * by rewrite Hs, Eq.
      * rewrite lookup_insert_eq. by rewrite Hsame.
    + rewrite lookup_insert_eq. by rewrite Hsame.
  - intros id Hne. destruct (ss !! ip_ConnectionId p) as [sc|]; [case_match; [done|]|];
      by rewrite lookup_insert_ne.
Qed.

(** ** What a step may do to a scope *)

(** How one scope can change in one step of the synchronizer. *)
Inductive scope_step (su : Setup) (id : string) (t : option tick) : option scopeState → scopeState → Prop :=
  | scope_same s : scope_step su id t (Some s) s
  | scope_policy o s revision interval requested rebaseline now :
      lo_Enabled (su_local su) = true → s = default (new_scope id) o →
      lo_MinimumInterval (su_local su) ≤ interval →
      (rebaseline = false → sc_rebaseline s = false) →
      scope_step su id t o
        (adopt_policy revision interval (effectiveNamespaces su requested) rebaseline now s)
  | scope_ack s delta l : remove_delta delta (sc_pending s) = Some l →
      scope_step su id t (Some s) (with_pending l s)
  | scope_due s next : scope_step su id t (Some s) (with_nextDue next s)
  | scope_tick s tk ids observedAt outcome : t = Some tk → tk_scope tk = id →
      scope_step su id t (Some s) (finish_tick ids tk observedAt outcome s).

Lemma ApplyPolicy_step su p now ss id s' t :
  ApplyPolicy su p now ss !! id = Some s' → scope_step su id t (ss !! id) s'.
Proof.
  unfold ApplyPolicy. destruct (negb _ || _) eqn:E; [intros ->; constructor|].
  apply orb_false_iff in E as [E _]. apply negb_false_iff in E.
  set (iv := if _ <? _ then _ else _).
  assert (Hiv : lo_MinimumInterval (su_local su) ≤ iv).
  { unfold iv. case_match eqn:El; bool_prop; lia. }
  destruct (ss !! ip_ConnectionId p) as [sc|] eqn:Hs.
  - destruct (_ && _ && _); [intros ->; constructor|].
    intros [[<- <-] | [Hne Hid]]%lookup_insert_Some; [|rewrite Hid; constructor].
    rewrite Hs. constructor; [done|done|done|]. by case_match.
  - intros [[<- <-] | [Hne Hid]]%lookup_insert_Some; [|rewrite Hid; constructor].
    rewrite Hs. by constructor.
Qed.

Lemma Ack_step su order delta ss id s' t :
  Ack order delta ss !! id = Some s' → scope_step su id t (ss !! id) s'.
Proof.
  induction order as [|c order IH]; cbn [Ack]; [intros ->; constructor|].
  destruct (ss !! c) as [sc|] eqn:Hc; cbn; [|done].
  destruct (remove_delta delta (sc_pending sc)) as [l|] eqn:El; cbn; [|done].
  intros [[<- <-] | [Hne Hid]]%lookup_insert_Some; [|rewrite Hid; constructor].
  rewrite Hc. by eapply scope_ack.
Qed.

Lemma sync_step_scopes su e s s' id sc' :
  sync_step su e s = Some s' → sy_scopes s' !! id = Some sc' →
  scope_step su id (match e with EFinish _ _ _ => sy_tick s | _ => None end) (sy_scopes s !! id) sc'.
Proof.
  destruct e as [p now|order delta|now| |ids t outcome]; cbn; intros H Hid.
  - injection H as <-. by eapply ApplyPolicy_step.
  - injection H as <-. by eapply Ack_step.
  - destruct (sy_due s); [|done]. destruct (sy_tick s); [done|]. injection H as <-. cbn in Hid.
    rewrite lookup_fmap in Hid. destruct (sy_scopes s !! id); [|done]. cbn in Hid. injection Hid as <-.
    case_match; constructor.
  - destruct (sy_due s) as [|c l]; [done|]. destruct (sy_tick s); [done|].
    destruct (sy_scopes s !! c); [|done]. injection H as <-. cbn in Hid. rewrite Hid. constructor.
  - destruct (sy_tick s) as [tk|] eqn:Et; [|done]. injection H as <-. cbn in Hid.
    apply lookup_alter_Some in Hid as [(<- & sc & Hsc & ->) | [Hne Hsc]].
    + rewrite Hsc. by constructor.
    + rewrite Hsc. constructor.
Qed.

(** ** Runs, with the history of what was queued *)

(** What a step queues for good: the deltas of a completed tick that did not overflow the queue. *)
Definition queued (e : event) (s : Synchronizer) : option (string * list InventoryDelta) :=
  match e, sy_tick s with
  | EFinish ids observedAt (Ok (current, _)), Some t =>
      scope ← sy_scopes s !! tk_scope t;
      let deltas := tick_deltas ids t observedAt current scope in
      if (sc_configVersion scope =? tk_configVersion t)
         && (length (sc_pending scope ++ deltas) <=? maxPendingDeltas)%nat
      then Some (tk_scope t, deltas) else None
  | _, _ => None
  end.

Abbreviation history := (gmap string (list (list InventoryDelta))).

Definition groups (h : history) (id : string) : list (list InventoryDelta) := default [] (h !! id).

Definition record_event (e : event) (s : Synchronizer) (h : history) : history :=
  match queued e s with Some (id, deltas) => <[id := groups h id ++ [deltas]]> h | None => h end.

(** The control plane's side: a baseline replaces the view, anything else is replayed on it. *)
Definition receive_group (view : ledger) (deltas : list InventoryDelta) : ledger :=
  match deltas with
  | [] => view
  | d :: _ => apply_changes (if id_Baseline d then ∅ else view) (deltas ≫= id_Changes)
  end.

Definition view_of (gs : list (list InventoryDelta)) : ledger := foldl receive_group ∅ gs.

Section runs.
Context (su : Setup) (oracle : ObjectKey → string → gmap string string).

(** A revision stands for the shown fields of its object: resource versions by Kubernetes' contract,
    workload revisions as far as the digest is free of collisions. *)
Definition consistent (snapshot : Snapshot) : Prop :=
  ∀ k state, snapshot !! k = Some state → shown_fields (Fields state) = oracle k (Revision state).

Definition event_ok (e : event) : Prop :=
  match e with EFinish _ _ (Ok (current, _)) => consistent current | _ => True end.

Inductive runs : Synchronizer → history → Prop :=
  | runs_new : runs NewSynchronizer ∅
  | runs_step s h e s' :
      runs s h → event_ok e → sync_step su e s = Some s' → runs s' (record_event e s h).

(** *** The invariant *)

Record scope_ok (id : string) (s : scopeState) (gs : list (list InventoryDelta)) : Prop := {
  so_enabled : lo_Enabled (su_local su) = true;
  so_id : sc_connectionID s = id;
  so_interval : lo_MinimumInterval (su_local su) ≤ sc_interval s;
  so_namespaces : ∃ requested, sc_namespaces s = effectiveNamespaces su requested;
  so_pending : (length (sc_pending s) ≤ maxPendingDeltas)%nat;
  so_deltas : Forall (λ d, id_ConnectionId d = id ∧ (length (id_Changes d) ≤ 512)%nat) (sc_pending s);
  so_history : sc_pending s `sublist_of` concat gs;
  so_consistent : sc_baselined s = true → consistent (sc_snapshot s);
  so_view : sc_baselined s = true → sc_rebaseline s = false → view_of gs = shown <$> sc_snapshot s;
}.

(** A running tick was taken from the scope, unless a policy has changed the scope since. *)
Definition tick_ok (t : tick) (ss : scopes) : Prop :=
  ∃ s, ss !! tk_scope t = Some s ∧ tk_configVersion t ≤ sc_configVersion s
    ∧ (tk_configVersion t = sc_configVersion s →
       tk_previous t = sc_snapshot s ∧ tk_baseline t = negb (sc_baselined s) || sc_rebaseline s).

Record sync_ok (s : Synchronizer) (h : history) : Prop := {
  sok_scope id sc : sy_scopes s !! id = Some sc → scope_ok id sc (groups h id);
  sok_absent id : sy_scopes s !! id = None → groups h id = [];
  sok_tick t : sy_tick s = Some t → tick_ok t (sy_scopes s);
}.

(** A completed tick that fits: the view follows. *)
Lemma tick_view ids t observedAt current s gs :
  tick_ok t {[ tk_scope t := s ]} → sc_configVersion s = tk_configVersion t →
  scope_ok (tk_scope t) s gs → consistent current →
  view_of (gs ++ [tick_deltas ids t observedAt current s]) = shown <$> current.
Proof.
  intros (s' & [_ <-]%lookup_singleton_Some & _ & Heq) Hv Hok Hc.
  destruct (Heq (eq_sym Hv)) as [Hprev Hbase]. unfold view_of. rewrite foldl_snoc. fold (view_of gs).
  unfold tick_deltas. set (ds := packDeltas _ _ _ _ _ _).
  destruct (packDeltas_facts ids (sc_connectionID s) (tk_revision t) (tk_baseline t) observedAt
    (tick_changes t current)) as (H1 & H2 & H3). fold ds in H1, H2, H3.
  assert (Hgroup : receive_group (view_of gs) ds
    = apply_changes (if tk_baseline t then ∅ else view_of gs) (tick_changes t current)).
  { destruct ds as [|d l] eqn:E.
    - destruct (proj1 H3 eq_refl) as [-> ->]. done.
    - cbn [receive_group]. rewrite H1. apply Forall_cons in H2 as [(_ & _ & -> & _) _]. done. }
  rewrite Hgroup. unfold tick_changes. destruct (tk_baseline t).
  - apply Baseline_replays.
  - symmetry in Hbase. apply orb_false_iff in Hbase as [Hb%negb_false_iff Hr].
    rewrite (so_view _ _ _ Hok Hb Hr), Hprev. apply Diff_replays'.
    intros k a b Ha Hb' E. rewrite (so_consistent _ _ _ Hok Hb _ _ Ha), (Hc _ _ Hb'). by rewrite E.
Qed.

(** *** Preservation *)

Lemma remove_delta_sublist delta l l' : remove_delta delta l = Some l' → l' `sublist_of` l.
Proof.
  revert l'. induction l as [|d l IH]; intros l'; cbn; [done|]. case_match.
  - intros [= <-]. by constructor.
  - destruct (remove_delta delta l) as [k|]; [|done]. intros [= <-]. constructor. by apply IH.
Qed.

(** Everything but a finishing tick keeps a scope sound, with the same history. *)
Lemma scope_ok_step id t o s' gs :
  (∀ s, o = Some s → scope_ok id s gs) → (o = None → gs = []) →
  scope_step su id t o s' → (∀ s tk ids at_ outcome, o = Some s → s' = finish_tick ids tk at_ outcome s →
    t = Some tk → tk_scope tk = id → scope_ok id s' gs) → scope_ok id s' gs.
Proof.
  intros Hs Hnone Hstep Htick. destruct Hstep as
    [s|o s revision interval requested rebaseline now Hen -> Hiv Hrb|s delta l Hl|s next|s tk ids at_ outcome Ht Hid].
  - by apply Hs.
  - destruct o as [s|]; cbn [default].
    + destruct (Hs s eq_refl). split; cbn; try done; [by eexists|].
      intros Hb Hr. apply so_view0; [done|]. by apply Hrb.
    + rewrite Hnone by done. split; cbn; try done; [by eexists|lia].
  - destruct (Hs s eq_refl). apply remove_delta_sublist in Hl. split; cbn; try done.
    + apply sublist_length in Hl. lia.
    + rewrite Forall_forall in *. intros d Hd. apply so_deltas0.
      by eapply elem_of_submseteq, sublist_submseteq.
    + by etrans.
  - by destruct (Hs s eq_refl).
  - by eapply Htick.
Qed.

Lemma tick_ok_step id t o s' :
  (∀ s, o = Some s → tk_configVersion t ≤ sc_configVersion s
     ∧ (tk_configVersion t = sc_configVersion s →
        tk_previous t = sc_snapshot s ∧ tk_baseline t = negb (sc_baselined s) || sc_rebaseline s)) →
  is_Some o → scope_step su id None o s' →
  tk_configVersion t ≤ sc_configVersion s'
  ∧ (tk_configVersion t = sc_configVersion s' →
     tk_previous t = sc_snapshot s' ∧ tk_baseline t = negb (sc_baselined s') || sc_rebaseline s').
Proof.
  intros Hs [s Ho] Hstep. destruct (Hs s Ho) as [H1 H2]. destruct Hstep; simplify_eq; cbn in *; try done.
  split; [lia|]. intros. lia.
Qed.

Lemma queued_finish e s id ds :
  queued e s = Some (id, ds) →
  ∃ ids observedAt current truncated t scope, e = EFinish ids observedAt (Ok (current, truncated))
    ∧ sy_tick s = Some t ∧ id = tk_scope t ∧ sy_scopes s !! id = Some scope
    ∧ ds = tick_deltas ids t observedAt current scope
    ∧ sc_configVersion scope = tk_configVersion t
    ∧ (length (sc_pending scope ++ ds) ≤ maxPendingDeltas)%nat.
Proof.
  unfold queued. destruct e as [| | | |ids observedAt [[current truncated]|]]; try done.
  destruct (sy_tick s) as [t|]; [|done]. intros H. destruct (sy_scopes s !! tk_scope t) as [scope|] eqn:E; [|done].
  cbn in H. case_match eqn:Hc; [|done]. bool_prop. injection H as <- <-.
  by exists ids, observedAt, current, truncated, t, scope.
Qed.

Lemma groups_record e s h id :
  groups (record_event e s h) id
  = groups h id ++ match queued e s with
                   | Some (k, ds) => if decide (k = id) then [ds] else []
                   | None => []
                   end.
Proof.
  unfold record_event. destruct (queued e s) as [[k ds]|]; [|by rewrite app_nil_r].
  unfold groups. case_decide as D.
  - subst. by rewrite lookup_insert_eq.
  - by rewrite lookup_insert_ne, app_nil_r.
Qed.

(** A finishing tick, with what it adds to the history. *)
Lemma scope_ok_finish ids t observedAt outcome s gs :
  tick_ok t {[ tk_scope t := s ]} → scope_ok (tk_scope t) s gs →
  (∀ current truncated, outcome = Ok (current, truncated) → consistent current) →
  scope_ok (tk_scope t) (finish_tick ids t observedAt outcome s)
    (gs ++ match outcome with
           | Ok (current, _) =>
               let deltas := tick_deltas ids t observedAt current s in
               if (sc_configVersion s =? tk_configVersion t)
                  && (length (sc_pending s ++ deltas) <=? maxPendingDeltas)%nat
               then [deltas] else []
           | Err _ => []
           end).
Proof.
  intros Ht Hok Hc. unfold finish_tick. destruct (Z.eqb_spec (sc_configVersion s) (tk_configVersion t)) as [Hv|Hv].
  2: { cbn. assert (match outcome with Ok (_, _) => [] | Err _ => [] end = @nil (list InventoryDelta)) as ->
         by by destruct outcome as [[]|]. by rewrite app_nil_r. }
  cbn [negb]. destruct outcome as [[current truncated]|e].
  2: { rewrite app_nil_r. by destruct Hok. }
  specialize (Hc _ _ eq_refl). cbn zeta.
  pose proof (packDeltas_facts ids (sc_connectionID s) (tk_revision t) (tk_baseline t) observedAt
    (tick_changes t current)) as (_ & Hd & _). fold (tick_deltas ids t observedAt current s) in Hd.
  pose proof (tick_view ids t observedAt current s gs Ht Hv Hok Hc) as Hview.
  set (ds := tick_deltas ids t observedAt current s) in *.
  destruct Hok as [Hen Hid Hiv Hns Hp Hds Hh Hcs Hvw]. rewrite Nat.ltb_antisym. cbn [andb].
  destruct (Nat.leb_spec (length (sc_pending s ++ ds)) maxPendingDeltas) as [Hle|Hgt]; cbn [negb];
    split; cbn; try done.
  - apply Forall_app. split; [done|]. eapply Forall_impl; [exact Hd|]. intros d (H & _ & _ & _ & ?).
    by rewrite H, Hid.
  - rewrite concat_app. cbn. rewrite app_nil_r. by apply sublist_app.
  - lia.
  - by apply sublist_nil_l.
Qed.

Lemma scope_step_absent id t o s' : scope_step su id t o s' → o = None → ∃ r i q b n,
  s' = adopt_policy r i (effectiveNamespaces su q) b n (new_scope id).
Proof. intros [] E; simplify_eq; cbn. by repeat eexists. Qed.

Definition finishing (e : event) : bool := match e with EFinish _ _ _ => true | _ => false end.

(** No step but a finishing tick queues anything or removes a scope. *)
Lemma sync_step_other e s s' :
  finishing e = false → sync_step su e s = Some s' →
  queued e s = None ∧ (∀ id, is_Some (sy_scopes s !! id) → is_Some (sy_scopes s' !! id))
  ∧ (∀ t, sy_tick s' = Some t → sy_tick s = Some t
       ∨ ∃ scope, sy_scopes s' !! tk_scope t = Some scope ∧ t = begin_tick (tk_scope t) scope).
Proof.
  destruct e as [p now|order delta|now| |]; cbn; intros Hf H; try done.
  - injection H as <-. cbn. split_and!; [done| |by left]. intros id Hid. unfold ApplyPolicy.
    repeat case_match; try done; apply lookup_insert_is_Some'; by right.
  - injection H as <-. cbn. split_and!; [done| |by left]. intros id Hid.
    induction order as [|c order IH]; cbn [Ack]; [done|]. case_match; [|done].
    apply lookup_insert_is_Some'. by right.
  - destruct (sy_due s); [|done]. destruct (sy_tick s); [done|]. injection H as <-. cbn.
    split_and!; [done| |by left]. intros id Hid. rewrite lookup_fmap. by apply fmap_is_Some.
  - destruct (sy_due s) as [|c l]; [done|]. destruct (sy_tick s); [done|].
    destruct (sy_scopes s !! c) as [scope|] eqn:E; [|done]. injection H as <-. cbn. split_and!; [done|done|].
    intros t [= <-]. right. by exists scope.
Qed.

Lemma sync_ok_other e s h s' :
  sync_ok s h → finishing e = false → sync_step su e s = Some s' → sync_ok s' (record_event e s h).
Proof.
  intros [Hsc Hab Ht] Hf H. destruct (sync_step_other _ _ _ Hf H) as (Hq & Hin & Htick).
  unfold record_event. rewrite Hq.
  assert (Hstep : ∀ id sc', sy_scopes s' !! id = Some sc' → scope_step su id None (sy_scopes s !! id) sc').
  { intros id sc' Hid. pose proof (sync_step_scopes _ _ _ _ _ _ H Hid) as Hs. by destruct e. }
  split.
  - intros id sc' Hid. eapply scope_ok_step; [|by apply Hab|by apply Hstep|done]. intros sc E. by apply Hsc.
  - intros id Hid. apply Hab. apply eq_None_not_Some. intros Hs%Hin. rewrite Hid in Hs. by destruct Hs.
  - intros t Hs'. destruct (Htick t Hs') as [Hs | (scope & Hid & ->)].
    + destruct (Ht _ Hs) as (sc & Hid & Hv). destruct (Hin (tk_scope t)) as [sc' Hid']; [by eexists|].
      exists sc'. split; [done|]. apply (tick_ok_step (tk_scope t) t (Some sc)).
      * by intros ? [= <-].
      * by eexists.
      * rewrite <- Hid. by apply Hstep.
    + exists scope. split_and!; [done|cbn; lia|done].
Qed.

Lemma sync_ok_finish ids observedAt outcome s h s' :
  sync_ok s h → event_ok (EFinish ids observedAt outcome) →
  sync_step su (EFinish ids observedAt outcome) s = Some s' →
  sync_ok s' (record_event (EFinish ids observedAt outcome) s h).
Proof.
  intros [Hsc Hab Ht] He H. cbn in H. destruct (sy_tick s) as [t|] eqn:Et; [|done]. injection H as <-.
  destruct (Ht t eq_refl) as (sc & Hid & Hv).
  assert (Hq : queued (EFinish ids observedAt outcome) s
    = match outcome with
      | Ok (current, _) =>
          let deltas := tick_deltas ids t observedAt current sc in
          if (sc_configVersion sc =? tk_configVersion t)
             && (length (sc_pending sc ++ deltas) <=? maxPendingDeltas)%nat
          then Some (tk_scope t, deltas) else None
      | Err _ => None
      end).
  { unfold queued. rewrite Et, Hid. by destruct outcome as [[]|]. }
  split; cbn [sy_scopes sy_tick].
  - intros id sc'. rewrite groups_record, Hq. intros [(<- & x & Hx & ->) | [Hne Hx]]%lookup_alter_Some.
    + rewrite Hid in Hx. injection Hx as <-.
      pose proof (scope_ok_finish ids t observedAt outcome sc (groups h (tk_scope t))) as Hfin.
      destruct outcome as [[current truncated]|e].
      * cbn zeta in *. destruct (_ && _); cbv iota beta in *; [rewrite decide_True by done|]; apply Hfin; try by apply Hsc.
        all: try (exists sc; split; [by rewrite lookup_singleton_eq|done]).
        all: by intros ? ? [= <- <-].
      * apply Hfin; [|by apply Hsc|done]. exists sc. split; [by rewrite lookup_singleton_eq|done].
    + assert (match (match outcome with Ok (_, _) => _ | Err _ => None end) with
              | Some (k, ds) => if decide (k = id) then [ds] else [] | None => [] end = []) as ->.
      { destruct outcome as [[]|]; [|done]. cbn zeta. destruct (_ && _); cbv iota beta; [|done]. by rewrite decide_False. }
      rewrite app_nil_r. by apply Hsc.
  - intros id Hn. apply lookup_alter_None in Hn. rewrite groups_record, Hq.
    rewrite Hab by done. destruct outcome as [[]|]; [|done]. cbn zeta. destruct (_ && _); cbv iota beta; [|done].
    rewrite decide_False; [done|]. intros <-. congruence.
  - done.
Qed.

Lemma runs_ok s h : runs s h → sync_ok s h.
Proof.
  induction 1 as [|s h e s' _ IH He H]; [by split|].
  destruct (finishing e) eqn:Hf; [|by apply sync_ok_other].
  destruct e; try done. by apply sync_ok_finish.
Qed.
End runs.

(** *** When a scope is polled *)

(** Unless it is given another policy, a step moves a scope's due time only by polling it. *)
Definition keeps_time (now : option Time) (s s' : scopeState) : Prop :=
  sc_configVersion s < sc_configVersion s'
  ∨ (sc_configVersion s' = sc_configVersion s ∧ sc_interval s' = sc_interval s
     ∧ (sc_nextDue s' = sc_nextDue s
        ∨ ∃ t, now = Some t ∧ sc_nextDue s ≤ t ∧ sc_nextDue s' = t + sc_interval s)).

Lemma keeps_time_same now s s' :
  sc_configVersion s' = sc_configVersion s → sc_interval s' = sc_interval s → sc_nextDue s' = sc_nextDue s →
  keeps_time now s s'.
Proof. right. auto. Qed.

Lemma sync_step_time su e y y' id s :
  sync_step su e y = Some y' → sy_scopes y !! id = Some s →
  ∃ s', sy_scopes y' !! id = Some s' ∧ keeps_time (match e with ERunDue now => Some now | _ => None end) s s'.
Proof.
  intros H Hid. destruct e as [p now|order delta|now| |ids observedAt outcome]; cbn in H.
  - injection H as <-. cbn. unfold ApplyPolicy. case_match; [by exists s; split; [|apply keeps_time_same]|].
    destruct (decide (ip_ConnectionId p = id)) as [<-|Hne].
    + rewrite Hid. case_match; [by exists s; split; [|apply keeps_time_same]|].
      rewrite lookup_insert_eq. eexists. split; [done|]. left. cbn. lia.
    + exists s. split; [|by apply keeps_time_same]. repeat case_match; try done; by rewrite lookup_insert_ne.
  - injection H as <-. cbn. induction order as [|c order IH]; cbn [Ack]; [by exists s; split; [|apply keeps_time_same]|].
    destruct (sy_scopes y !! c) as [sc|] eqn:Hc; cbn; [|done].
    destruct (remove_delta delta (sc_pending sc)) as [l|]; cbn; [|done]. destruct (decide (c = id)) as [->|Hne].
    + rewrite lookup_insert_eq. eexists. split; [done|]. assert (sc = s) as -> by congruence. by apply keeps_time_same.
    + rewrite lookup_insert_ne by done. by exists s; split; [|apply keeps_time_same].
  - destruct (sy_due y), (sy_tick y); try done. injection H as <-. cbn. rewrite lookup_fmap, Hid. eexists.
    split; [done|]. unfold due. destruct (Z.ltb_spec now (sc_nextDue s)); cbn; [by apply keeps_time_same|].
    right. do 2 (split; [done|]). right. exists now. split_and!; [done|lia|done].
  - destruct (sy_due y), (sy_tick y); try done. apply bind_Some in H as (? & _ & [= <-]).
    by exists s; split; [|apply keeps_time_same].
  - apply bind_Some in H as (t & _ & [= <-]). cbn. destruct (decide (tk_scope t = id)) as [<-|Hne].
    + rewrite lookup_alter_eq, Hid. eexists. split; [done|]. unfold finish_tick.
      by repeat case_match; apply keeps_time_same.
    + rewrite lookup_alter_ne by done. by exists s; split; [|apply keeps_time_same].
Qed.

Fixpoint sync_steps (su : Setup) (es : list event) (s : Synchronizer) : option Synchronizer :=
  match es with [] => Some s | e :: es => s' ← sync_step su e s; sync_steps su es s' end.

Lemma sync_steps_version su es y y' id s :
  sync_steps su es y = Some y' → sy_scopes y !! id = Some s →
  ∃ s', sy_scopes y' !! id = Some s' ∧ sc_configVersion s ≤ sc_configVersion s'.
Proof.
  revert y s. induction es as [|e es IH]; intros y s; cbn [sync_steps]; [intros [= ->] E; exists s; by split|].
  intros (y1 & H1 & H)%bind_Some E. destruct (sync_step_time _ _ _ _ _ _ H1 E) as (s1 & E1 & Ht).
  destruct (IH y1 s1 H E1) as (s' & E' & Hv). exists s'. split; [done|]. destruct Ht as [?|[? _]]; lia.
Qed.

(** Nothing but another policy makes a scope due earlier. *)
Lemma sync_steps_due su es y y' id s s' :
  sync_steps su es y = Some y' → sy_scopes y !! id = Some s → sy_scopes y' !! id = Some s' →
  0 ≤ sc_interval s → sc_configVersion s' = sc_configVersion s → sc_nextDue s ≤ sc_nextDue s'.
Proof.
  revert y s. induction es as [|e es IH]; intros y s; cbn [sync_steps].
  - intros [= ->] E E' _ _. assert (s' = s) as -> by congruence. lia.
  - intros (y1 & H1 & H)%bind_Some E E' Hi Hv. destruct (sync_step_time _ _ _ _ _ _ H1 E) as (s1 & E1 & Ht).
    destruct (sync_steps_version _ _ _ _ _ _ H E1) as (s'' & E'' & Hle).
    assert (s'' = s') as -> by congruence. destruct Ht as [?|(Ev & Ei & Hn)]; [lia|].
    assert (sc_nextDue s1 ≤ sc_nextDue s') by (apply (IH y1 s1); [done..|congruence|congruence]).
    destruct Hn as [?|(t & _ & ? & ?)]; lia.
Qed.

(** Which scopes [RunDue] polls. *)
Lemma polled su now y y' id :
  sync_step su (ERunDue now) y = Some y' → id ∈ sy_due y' →
  ∃ s s', sy_scopes y !! id = Some s ∧ sc_nextDue s ≤ now ∧ sy_scopes y' !! id = Some s'
    ∧ sc_nextDue s' = now + sc_interval s ∧ sc_interval s' = sc_interval s ∧ sc_configVersion s' = sc_configVersion s.
Proof.
  cbn. destruct (sy_due y), (sy_tick y); try done. intros [= <-]. cbn. intros [Hd Hin]%list_elem_of_filter.
  destruct (sy_scopes y !! id) as [s|] eqn:E; [|done]. exists s. unfold due in Hd.
  rewrite lookup_fmap, E. cbn. unfold due. destruct (Z.ltb_spec now (sc_nextDue s)); [done|]. eexists.
  by split_and!.
Qed.


(** C21: the queue is a faithful account of the cluster. In every run, what a scope has queued since the
    start, the deltas still pending among it and in order, replays to exactly the view of the snapshot
    the scope holds, as long as no fresh baseline is owed; when the queue overflowed or the boundary
    moved, one is owed and the next completed tick is a baseline. *)
Theorem queue_replays su oracle s h id scope :
  runs su oracle s h → sy_scopes s !! id = Some scope →
  sc_pending scope `sublist_of` concat (groups h id)
  ∧ (sc_baselined scope = true → sc_rebaseline scope = false →
     view_of (groups h id) = shown <$> sc_snapshot scope)
  ∧ (sc_rebaseline scope = true → tk_baseline (begin_tick id scope) = true).
Proof.
  intros Hr Hid. destruct (sok_scope _ _ _ _ (runs_ok _ _ _ _ Hr) _ _ Hid).
  split_and!; [done|done|]. intros Hb. cbn. rewrite Hb. apply orb_true_r.
Qed.

(** a policy that changes a scope while one of its ticks is reading wins: when the reads return,
    whatever they brought, the tick changes nothing, so no difference is ever taken across two
    boundaries. *)
Theorem policy_supersedes_tick su oracle s h t p now ids observedAt outcome s1 s2 :
  runs su oracle s h → sy_tick s = Some t → ip_ConnectionId p = tk_scope t →
  ApplyPolicy su p now (sy_scopes s) ≠ sy_scopes s →
  sync_step su (EPolicy p now) s = Some s1 → sync_step su (EFinish ids observedAt outcome) s1 = Some s2 →
  sy_scopes s2 = sy_scopes s1.
Proof.
  intros Hr Ht Hp Hne [= <-] H. cbn in H. rewrite Ht in H. injection H as <-. cbn [sy_scopes].
  destruct (sok_tick _ _ _ _ (runs_ok _ _ _ _ Hr) t Ht) as (sc & Hid & Hv & _).
  revert Hne. unfold ApplyPolicy. rewrite Hp, Hid. destruct (negb _ || _); [done|].
  set (iv := if _ <? _ then _ else _). destruct (_ && _ && _); [done|]. intros _.
  rewrite alter_insert_eq. f_equal. unfold finish_tick. cbn [sc_configVersion adopt_policy].
  by rewrite (proj2 (Z.eqb_neq _ _)) by lia.
Qed.

(** a scope whose baseline does not fit the queue never gets one across: with more than 64 times 512
    watched objects every completed tick takes a baseline, overflows and queues nothing, while the scope
    reports itself current, without fault or truncation. *)
Theorem oversized_baseline_never_queued ids t observedAt current s :
  sc_configVersion s = tk_configVersion t → tk_baseline t = true →
  64 * 512 < Z.of_nat (size current) →
  let s' := finish_tick ids t observedAt (Ok (current, false)) s in
  sc_pending s' = [] ∧ tk_baseline (begin_tick (tk_scope t) s') = true
  ∧ sc_faulted s' = false ∧ sc_truncated s' = false ∧ sc_lastCompleted s' = observedAt.
Proof.
  intros Hv Hb Hlen. rewrite <- length_Baseline in Hlen. cbv zeta. unfold finish_tick. rewrite Hv, Z.eqb_refl. cbn [negb].
  assert (Hds : (64 < length (tick_deltas ids t observedAt current s))%nat).
  { unfold tick_deltas, tick_changes. rewrite Hb. unfold packDeltas.
    destruct (Baseline current) as [|x l] eqn:E; [simpl in Hlen; lia|]. cbv iota.
    destruct (pack_loop_correct (S (length (x :: l))) ids 0 (sc_connectionID s) (tk_revision t) true
      observedAt (x :: l)) as (_ & _ & H3 & _); [lia|]. rewrite H3.
    assert (65 ≤ (length (x :: l) + 511) / 512)%nat; [|lia].
    apply Nat2Z.inj_le. rewrite Nat2Z.inj_div. apply Z.div_le_lower_bound; lia. }
  rewrite (proj2 (Nat.ltb_lt _ _)); [done|]. unfold maxPendingDeltas. rewrite length_app. lia.
Qed.

(** ** What a tick observes *)

(** The references noted so far are those of the intents seen. *)
Definition refers (refs : WorkloadIntent → list string) (seen : list WorkloadIntent) (ns name : string) : Prop :=
  ∃ i, i ∈ seen ∧ wi_Namespace i = ns ∧ name ∈ refs i.

Definition noted (refs : WorkloadIntent → list string) (into : references) (seen : list WorkloadIntent) : Prop :=
  ∀ ns name, referenced into ns name = true ↔ refers refs seen ns name.

Lemma referenced_note into ns names ns' name :
  referenced (noteReferences into ns names) ns' name = true ↔
  referenced into ns' name = true ∨ ns = ns' ∧ name ∈ names.
Proof.
  unfold noteReferences, referenced. rewrite !bool_decide_eq_true.
  destruct names as [|x l]; [set_solver|]. destruct (decide (ns = ns')) as [<-|Hne].
  - rewrite lookup_insert_eq. cbn -[list_to_set]. rewrite elem_of_union, elem_of_list_to_set. naive_solver.
  - rewrite lookup_insert_ne by done. naive_solver.
Qed.

Lemma noted_note refs into seen i :
  noted refs into seen → noted refs (noteReferences into (wi_Namespace i) (refs i)) (seen ++ [i]).
Proof.
  intros Hn ns name. rewrite referenced_note, (Hn ns name). unfold refers. split.
  - intros [(j & ? & ? & ?) | [? ?]]; [exists j|exists i]; set_solver.
  - intros (j & Hj & ? & ?). apply elem_of_app in Hj as [Hj|Hj%list_elem_of_singleton]; [left; by exists j|].
    subst j. by right.
Qed.

(** A configuration object of one kind that belongs in the snapshot: a workload seen refers to it. *)
Definition wanted (refs : WorkloadIntent → list string) (seen : list WorkloadIntent)
    (versions : list ConfigVersion) (v : ConfigVersion) : Prop :=
  v ∈ versions ∧ refers refs seen (cv_Namespace v) (cv_Name v).

(** What is in a snapshot: the workloads seen, and the configuration they refer to. *)
Inductive belongs (seen : list WorkloadIntent) (cms secs : list ConfigVersion) : ObjectKey * ObjectState → Prop :=
  | belongs_workload i : i ∈ seen → belongs seen cms secs (workloadState i)
  | belongs_configMap v : wanted wi_ConfigMapRefs seen cms v →
      belongs seen cms secs (configState OBJECT_CONFIGMAP v)
  | belongs_secret v : wanted wi_SecretRefs seen secs v →
      belongs seen cms secs (configState OBJECT_SECRET v).

(** The snapshot holds what belongs, and nothing else. *)
Definition holds (snapshot : Snapshot) seen cms secs : Prop :=
  (∀ k st, snapshot !! k = Some st → belongs seen cms secs (k, st))
  ∧ (∀ x, belongs seen cms secs x → is_Some (snapshot !! x.1)).

Record collected_ok (acc : collected) (seen : list WorkloadIntent) (cms secs : list ConfigVersion) : Prop := {
  ck_configMaps : noted wi_ConfigMapRefs (cl_ConfigMaps acc) seen;
  ck_secrets : noted wi_SecretRefs (cl_Secrets acc) seen;
  ck_snapshot : holds (cl_Snapshot acc) seen cms secs;
}.

(** Storing one object: what it was stored for now belongs, and nothing else does. *)
Lemma holds_insert snapshot seen cms secs seen' cms' secs' k st :
  holds snapshot seen cms secs →
  (∀ x, belongs seen' cms' secs' x ↔ belongs seen cms secs x ∨ x = (k, st)) →
  holds (<[k := st]> snapshot) seen' cms' secs'.
Proof.
  intros [H1 H2] Hb. split.
  - intros k' st' [[<- <-] | [_ Hk]]%lookup_insert_Some; apply Hb; [by right|left; by apply H1].
  - intros x [Hx | ->]%Hb; apply lookup_insert_is_Some'; [right; by apply H2|by left].
Qed.

Lemma holds_ext snapshot seen cms secs seen' cms' secs' :
  holds snapshot seen cms secs → (∀ x, belongs seen' cms' secs' x ↔ belongs seen cms secs x) →
  holds snapshot seen' cms' secs'.
Proof. intros [H1 H2] Hb. split; [intros; by apply Hb, H1|intros x ?%Hb; by apply H2]. Qed.

(** Workloads are all added before any configuration is. *)
Lemma collected_intent acc seen i :
  collected_ok acc seen [] [] → collected_ok (add_intent acc i) (seen ++ [i]) [] [].
Proof.
  intros [H1 H2 H3]. unfold add_intent. destruct (workloadState i) as [key state] eqn:E.
  split; cbn; [by apply noted_note..|]. eapply holds_insert; [done|]. intros x. split.
  - intros [j Hj|v [[]%not_elem_of_nil _]|v [[]%not_elem_of_nil _]].
    apply elem_of_app in Hj as [Hj|Hj%list_elem_of_singleton]; [left; by constructor|subst; by right].
  - intros [[j Hj|v [[]%not_elem_of_nil _]|v [[]%not_elem_of_nil _]] | ->]; [constructor; set_solver|].
    rewrite <- E. constructor. set_solver.
Qed.

Lemma collected_intents intents acc seen :
  collected_ok acc seen [] [] → collected_ok (foldl add_intent acc intents) (seen ++ intents) [] [].
Proof.
  revert acc seen. induction intents as [|i l IH]; intros acc seen H; cbn [foldl]; [by rewrite app_nil_r|].
  rewrite (cons_middle i seen l), app_assoc. by apply IH, collected_intent.
Qed.

Lemma collected_note_truncated acc seen cms secs truncated :
  collected_ok acc seen cms secs → collected_ok (note_truncated truncated acc) seen cms secs.
Proof. by intros []. Qed.

Lemma collected_workloads page acc seen :
  collected_ok acc seen [] [] → collected_ok (add_workloads page acc) (seen ++ ip_Workloads page) [] [].
Proof. intros H. by apply collected_intents, collected_note_truncated. Qed.

Lemma wanted_snoc refs seen versions v x :
  wanted refs seen (versions ++ [v]) x ↔ wanted refs seen versions x
    ∨ x = v ∧ refers refs seen (cv_Namespace v) (cv_Name v).
Proof. unfold wanted. rewrite elem_of_app, list_elem_of_singleton. naive_solver. Qed.

Lemma collected_configMap acc seen cms secs v :
  collected_ok acc seen cms secs →
  collected_ok (add_version OBJECT_CONFIGMAP (cl_ConfigMaps acc) acc v) seen (cms ++ [v]) secs.
Proof.
  intros [H1 H2 H3]. unfold add_version. destruct (referenced _ _ _) eqn:E.
  - apply H1 in E. destruct (configState _ v) as [key state] eqn:Ec. split; cbn; [done..|].
    eapply holds_insert; [done|]. rewrite <- Ec. intros x. split.
    + intros [i Hi|u [Hu|[-> _]]%wanted_snoc|u Hu]; [left; by constructor..|by right|left; by constructor].
    + intros [[i Hi|u Hu|u Hu] | ->]; constructor; try apply wanted_snoc; auto.
  - split; [done..|]. eapply holds_ext; [done|]. intros x. split.
    + intros [i Hi|u [Hu|[-> Hr]]%wanted_snoc|u Hu]; [by constructor..| |by constructor].
      apply H1 in Hr. congruence.
    + intros [i Hi|u Hu|u Hu]; constructor; try apply wanted_snoc; auto.
Qed.

Lemma collected_secret acc seen cms secs v :
  collected_ok acc seen cms secs →
  collected_ok (add_version OBJECT_SECRET (cl_Secrets acc) acc v) seen cms (secs ++ [v]).
Proof.
  intros [H1 H2 H3]. unfold add_version. destruct (referenced _ _ _) eqn:E.
  - apply H2 in E. destruct (configState _ v) as [key state] eqn:Ec. split; cbn; [done..|].
    eapply holds_insert; [done|]. rewrite <- Ec. intros x. split.
    + intros [i Hi|u Hu|u [Hu|[-> _]]%wanted_snoc]; [left; by constructor..|by right].
    + intros [[i Hi|u Hu|u Hu] | ->]; constructor; try apply wanted_snoc; auto.
  - split; [done..|]. eapply holds_ext; [done|]. intros x. split.
    + intros [i Hi|u Hu|u [Hu|[-> Hr]]%wanted_snoc]; [by constructor..|]. apply H2 in Hr. congruence.
    + intros [i Hi|u Hu|u Hu]; constructor; try apply wanted_snoc; auto.
Qed.

(** Adding a version leaves the references as they were. *)
Lemma add_version_references kind refs acc v :
  cl_ConfigMaps (add_version kind refs acc v) = cl_ConfigMaps acc
  ∧ cl_Secrets (add_version kind refs acc v) = cl_Secrets acc
  ∧ cl_Truncated (add_version kind refs acc v) = cl_Truncated acc.
Proof. unfold add_version. case_match; [|done]. by destruct (configState _ _). Qed.

Lemma collected_configMaps versions acc seen cms secs :
  collected_ok acc seen cms secs →
  collected_ok (foldl (add_version OBJECT_CONFIGMAP (cl_ConfigMaps acc)) acc versions) seen (cms ++ versions) secs.
Proof.
  revert acc cms. induction versions as [|v l IH]; intros acc cms H; cbn [foldl]; [by rewrite app_nil_r|].
  rewrite (cons_middle v cms l), app_assoc.
  rewrite <- (proj1 (add_version_references OBJECT_CONFIGMAP (cl_ConfigMaps acc) acc v)) at 1.
  by apply IH, collected_configMap.
Qed.

Lemma collected_secrets versions acc seen cms secs :
  collected_ok acc seen cms secs →
  collected_ok (foldl (add_version OBJECT_SECRET (cl_Secrets acc)) acc versions) seen cms (secs ++ versions).
Proof.
  revert acc secs. induction versions as [|v l IH]; intros acc secs H; cbn [foldl]; [by rewrite app_nil_r|].
  rewrite (cons_middle v secs l), app_assoc.
  rewrite <- (proj1 (proj2 (add_version_references OBJECT_SECRET (cl_Secrets acc) acc v))) at 1.
  by apply IH, collected_secret.
Qed.

(** The answers of the lists a scope makes, in order: the workload page of every namespace, then the
    ConfigMap and Secret pages of every namespace. *)
Section reads.
Context {W : Type} (reader : Reader W) (ctx : Ctx W).

Inductive read_workloads : list string → W → list InventoryPage → W → Prop :=
  | read_workloads_nil w : read_workloads [] w [] w
  | read_workloads_cons ns l w page w1 pages w2 :
      rd_ListWorkloadIntents reader ctx ns listLimit w = (Ok page, w1) →
      read_workloads l w1 pages w2 → read_workloads (ns :: l) w (page :: pages) w2.

Inductive read_versions : list string → W → list (ConfigVersionPage * ConfigVersionPage) → W → Prop :=
  | read_versions_nil w : read_versions [] w [] w
  | read_versions_cons ns l w page w1 page' w2 pages w3 :
      rd_ListConfigMapVersions reader ctx ns listLimit w = (Ok page, w1) →
      rd_ListSecretVersions reader ctx ns listLimit w1 = (Ok page', w2) →
      read_versions l w2 pages w3 → read_versions (ns :: l) w ((page, page') :: pages) w3.

Lemma foldl_truncated {A} (f : collected → A → collected) l acc :
  (∀ acc a, cl_Truncated (f acc a) = cl_Truncated acc) → cl_Truncated (foldl f acc l) = cl_Truncated acc.
Proof. intros Hf. revert acc. induction l as [|a l IH]; intros acc; cbn; [done|]. by rewrite IH, Hf. Qed.

Lemma add_intent_truncated acc i : cl_Truncated (add_intent acc i) = cl_Truncated acc.
Proof. unfold add_intent. by destruct (workloadState i). Qed.

Lemma add_version_truncated kind refs acc v : cl_Truncated (add_version kind refs acc v) = cl_Truncated acc.
Proof. apply (add_version_references kind refs acc v). Qed.

Lemma workloads_loop_reads l acc w acc' w' seen :
  workloads_loop reader ctx l acc w = (Ok acc', w') → collected_ok acc seen [] [] →
  ∃ pages, read_workloads l w pages w' ∧ collected_ok acc' (seen ++ (pages ≫= ip_Workloads)) [] []
    ∧ cl_Truncated acc' = cl_Truncated acc || existsb ip_Truncated pages.
Proof.
  revert acc w seen. induction l as [|ns l IH]; intros acc w seen; cbn [workloads_loop].
  - intros [= -> ->] H. exists []. cbn. rewrite app_nil_r, orb_false_r. split_and!; [apply read_workloads_nil|done|done].
  - destruct (rd_ListWorkloadIntents reader ctx ns listLimit w) as [[page|e] w1] eqn:E; [|done].
    intros Hl H. destruct (IH _ _ _ Hl (collected_workloads page acc seen H)) as (pages & H1 & H2 & H3).
    exists (page :: pages). split_and!; [by econstructor|by rewrite bind_cons, app_assoc|].
    rewrite H3. unfold add_workloads. rewrite foldl_truncated by apply add_intent_truncated.
    cbn. by rewrite orb_assoc.
Qed.

Lemma versions_loop_reads l acc w acc' w' seen cms secs :
  versions_loop reader ctx l acc w = (Ok acc', w') → collected_ok acc seen cms secs →
  ∃ pages, read_versions l w pages w'
    ∧ collected_ok acc' seen (cms ++ (pages ≫= λ p, cp_Versions p.1)) (secs ++ (pages ≫= λ p, cp_Versions p.2))
    ∧ cl_Truncated acc' = cl_Truncated acc || existsb (λ p, cp_Truncated p.1 || cp_Truncated p.2) pages.
Proof.
  revert acc w cms secs. induction l as [|ns l IH]; intros acc w cms secs; cbn [versions_loop].
  - intros [= -> ->] H. exists []. cbn. rewrite !app_nil_r, orb_false_r. split_and!; [apply read_versions_nil|done|done].
  - destruct (rd_ListConfigMapVersions reader ctx ns listLimit w) as [[page|e] w1] eqn:E; [|done].
    destruct (rd_ListSecretVersions reader ctx ns listLimit w1) as [[page'|e] w2] eqn:E'; [|done].
    intros Hl H. apply (collected_note_truncated _ _ _ _ (cp_Truncated page)), (collected_configMaps (cp_Versions page)) in H.
    apply (collected_note_truncated _ _ _ _ (cp_Truncated page')), (collected_secrets (cp_Versions page')) in H.
    destruct (IH _ _ _ _ Hl H) as (pages & H1 & H2 & H3).
    exists ((page, page') :: pages). split_and!; [by econstructor|by rewrite !bind_cons, !app_assoc|].
    rewrite H3. unfold add_secrets, add_configMaps.
    do 2 (rewrite foldl_truncated by apply add_version_truncated; cbn). by rewrite !orb_assoc.
Qed.
End reads.

(** An observation, read back from its pages. *)
Lemma collect_observed {W} (reader : Reader W) ctx namespaces w snapshot truncated w' :
  collect reader ctx namespaces w = (Ok (snapshot, truncated), w') →
  ∃ pages w1 versions,
    read_workloads reader ctx namespaces w pages w1 ∧ read_versions reader ctx namespaces w1 versions w'
    ∧ holds snapshot (pages ≫= ip_Workloads) (versions ≫= λ p, cp_Versions p.1) (versions ≫= λ p, cp_Versions p.2)
    ∧ truncated = existsb ip_Truncated pages || existsb (λ p, cp_Truncated p.1 || cp_Truncated p.2) versions.
Proof.
  unfold collect. set (acc0 := {| cl_Snapshot := ∅ |}).
  assert (H0 : collected_ok acc0 [] [] []).
  { split; [| |split].
    1-2: intros ns name; split; [|by intros (i & []%not_elem_of_nil & _)].
    1-2: unfold referenced; rewrite bool_decide_eq_true; by intros ?%not_elem_of_empty.
    - intros k st ?. by simplify_map_eq.
    - by intros x [? []%not_elem_of_nil|? [[]%not_elem_of_nil _]|? [[]%not_elem_of_nil _]]. }
  destruct (workloads_loop reader ctx namespaces acc0 w) as [[acc|e] w1] eqn:E; [|done].
  destruct (workloads_loop_reads _ _ _ _ _ _ _ _ E H0) as (pages & Hp & Hc & Ht).
  destruct (versions_loop reader ctx namespaces acc w1) as [[acc'|e] w2] eqn:E'; [|done].
  destruct (versions_loop_reads _ _ _ _ _ _ _ _ _ _ E' Hc) as (versions & Hv & Hc' & Ht').
  intros [= <- <- <-]. exists pages, w1, versions. split_and!; [done|done|apply Hc'|]. by rewrite Ht', Ht.
Qed.

(** C40: a completed observation holds what was listed and nothing else: every object of the snapshot is a
    workload some page listed, or a ConfigMap or Secret some page listed and a workload among those
    listed refers to; every such object is in it; and the truncation mark is set exactly when the API
    server cut one of the pages. *)
Theorem collect_exact {W} (reader : Reader W) ctx namespaces w snapshot truncated w' :
  collect reader ctx namespaces w = (Ok (snapshot, truncated), w') →
  ∃ pages w1 versions,
    read_workloads reader ctx namespaces w pages w1 ∧ read_versions reader ctx namespaces w1 versions w'
    ∧ holds snapshot (pages ≫= ip_Workloads) (versions ≫= λ p, cp_Versions p.1) (versions ≫= λ p, cp_Versions p.2)
    ∧ truncated = existsb ip_Truncated pages || existsb (λ p, cp_Truncated p.1 || cp_Truncated p.2) versions.
Proof. apply collect_observed. Qed.

(** ** A concrete run

    One scope, its policy, a first tick that takes the baseline, and a second that finds a change. *)

Definition sample_setup : Setup :=
  {| su_local := {| lo_Enabled := true; lo_Namespaces := None; lo_MinimumInterval := 60 |};
     su_allowedNamespaces := Some {[ "prod"; "dev" ]} |}.
Definition sample_policy (revision : Z) (namespaces : list string) : InventorySynchronizationPolicy :=
  {| ip_ConnectionId := "c1"; ip_Revision := revision; ip_Namespaces := namespaces;
     ip_RequestedInterval := Some 30 |}.

(** The two revisions the run meets. *)
Definition sample_oracle (k : ObjectKey) (revision : string) : gmap string string :=
  if (revision =? "g1.aa")%string then shown_fields {[ "spec.replicas" := "2"; "spec.template" := "t1" ]}
  else shown_fields {[ "spec.replicas" := "3"; "spec.template" := "t1" ]}.

Definition sample_events : list event :=
  [EPolicy (sample_policy 1 ["prod"; "other"]) 1000; ERunDue 1000; EBegin;
   EFinish (λ _, "d1") 1001 (Ok (sample_before, false)); ERunDue 1060; EBegin;
   EFinish (λ _, "d2") 1061 (Ok (sample_after, false))].

Fixpoint run_events (su : Setup) (es : list event) (s : Synchronizer) (h : history)
    : option (Synchronizer * history) :=
  match es with
  | [] => Some (s, h)
  | e :: es => s' ← sync_step su e s; run_events su es s' (record_event e s h)
  end.

Lemma run_events_runs su oracle es s h s' h' :
  runs su oracle s h → Forall (event_ok oracle) es → run_events su es s h = Some (s', h') →
  runs su oracle s' h'.
Proof.
  revert s h. induction es as [|e es IH]; intros s h Hr Hes; cbn [run_events]; [by intros [= -> ->]|].
  apply Forall_cons in Hes as [He Hes]. destruct (sync_step su e s) as [s1|] eqn:E; [|done].
  cbn. apply IH; [by econstructor|done].
Qed.

Lemma sample_events_ok : Forall (event_ok sample_oracle) sample_events.
Proof.
  unfold sample_events. repeat (apply Forall_cons; split); try exact I; [..|apply Forall_nil_2].
  all: unfold sample_before, sample_after; intros k state [<- <-]%lookup_singleton_Some; vm_compute; reflexivity.
Qed.

(** The run's first [n] events. *)
Definition sample_run (n : nat) : Synchronizer * history :=
  default (NewSynchronizer, ∅) (run_events sample_setup (take n sample_events) NewSynchronizer ∅).

Lemma sample_runs n : runs sample_setup sample_oracle (sample_run n).1 (sample_run n).2.
Proof.
  unfold sample_run. destruct (run_events _ _ _ _) as [[s h]|] eqn:E; [|constructor].
  eapply run_events_runs; [constructor| |exact E]. apply Forall_take, sample_events_ok.
Qed.

Definition sample_scope (n : nat) : scopeState :=
  default (new_scope "") (sy_scopes (sample_run n).1 !! "c1").


(** A control plane that sends a new revision with every message has its scope polled as often: the floor
    bounds the interval, not the polls that policies ask for. *)
Example changed_policy_polls_at_once :
  let es := [EPolicy (sample_policy 1 ["prod"]) 1000; ERunDue 1000; EBegin;
             EFinish (λ _, "d1") 1001 (Ok (sample_before, false));
             EPolicy (sample_policy 2 ["prod"]) 1002; ERunDue 1002] in
  sy_due <$> sync_steps sample_setup es NewSynchronizer = Some ["c1"].
Proof. by vm_compute. Qed.

Lemma queue_replays_witness :
  sc_pending (sample_scope 7) = concat (groups (sample_run 7).2 "c1")
  ∧ view_of (groups (sample_run 7).2 "c1") = shown <$> sample_after.
Proof.
  split; [by vm_compute|].
  assert (E : sy_scopes (sample_run 7).1 !! "c1" = Some (sample_scope 7)) by by vm_compute.
  destruct (queue_replays sample_setup sample_oracle _ _ "c1" _ (sample_runs 7) E) as (_ & H & _).
  apply H; by vm_compute.
Defined.

(** A snapshot of [n] objects. *)
Definition big_key (i : nat) : ObjectKey :=
  {| key_Kind := OBJECT_CONFIGMAP; key_Namespace := "prod"; key_Name := pretty i; key_UID := "" |}.
Definition big_snapshot (n : nat) : Snapshot :=
  list_to_map ((λ i, (big_key i, {| Revision := "1"; Fields := ∅ |})) <$> seq 0 n).

Lemma size_big_snapshot n : size (big_snapshot n) = n.
Proof.
  unfold big_snapshot. rewrite map_size_list_to_map.
  - by rewrite length_fmap, length_seq.
  - rewrite <- list_fmap_compose. apply NoDup_fmap_2; [|apply NoDup_seq].
    intros i j [= E]. by apply (inj pretty).
Qed.

Lemma oversized_baseline_never_queued_witness :
  let t := begin_tick "c1" (sample_scope 1) in
  let s' := finish_tick (λ _, "d") t 1061 (Ok (big_snapshot (Z.to_nat 32769), false)) (sample_scope 1) in
  sc_pending s' = [] ∧ tk_baseline (begin_tick "c1" s') = true
  ∧ sc_faulted s' = false ∧ sc_truncated s' = false ∧ sc_lastCompleted s' = 1061.
Proof.
  apply (oversized_baseline_never_queued (λ _, "d") (begin_tick "c1" (sample_scope 1)) 1061
    (big_snapshot (Z.to_nat 32769)) (sample_scope 1)).
  - reflexivity.
  - by vm_compute.
  - rewrite size_big_snapshot, Z2Nat.id by lia. lia.
Defined.

(** One namespace with one deployment, that refers to one of the two ConfigMaps there. *)
Definition sample_intent : WorkloadIntent :=
  {| wi_Kind := "deployment"; wi_Namespace := "prod"; wi_Name := "api"; wi_UID := "u1"; wi_Generation := 1;
     wi_ControllerRevision := ""; wi_Replicas := "2"; wi_Containers := []; wi_ConfigMapRefs := ["settings"];
     wi_SecretRefs := []; wi_TemplateHash := "t1" |}.
Definition sample_version (name : string) : ConfigVersion :=
  {| cv_Namespace := "prod"; cv_Name := name; cv_UID := name; cv_ResourceVersion := "7" |}.
Definition sample_reader : Reader unit :=
  {| rd_ListWorkloadIntents _ _ _ w := (Ok {| ip_Workloads := [sample_intent]; ip_Truncated := false |}, w);
     rd_ListConfigMapVersions _ _ _ w :=
       (Ok {| cp_Versions := [sample_version "settings"; sample_version "other"]; cp_Truncated := true |}, w);
     rd_ListSecretVersions _ _ _ w := (Ok {| cp_Versions := []; cp_Truncated := false |}, w) |}.

Lemma collect_exact_witness :
  ∃ snapshot truncated, collect sample_reader (λ _, None) ["prod"] tt = (Ok (snapshot, truncated), tt)
    ∧ size snapshot = 2%nat ∧ truncated = true
    ∧ ∃ pages w1 versions,
        read_workloads sample_reader (λ _, None) ["prod"] tt pages w1
        ∧ read_versions sample_reader (λ _, None) ["prod"] w1 versions tt
        ∧ holds snapshot (pages ≫= ip_Workloads) (versions ≫= λ p, cp_Versions p.1)
            (versions ≫= λ p, cp_Versions p.2)
        ∧ truncated = existsb ip_Truncated pages || existsb (λ p, cp_Truncated p.1 || cp_Truncated p.2) versions.
Proof.
  eexists _, _. split; [reflexivity|]. split; [by vm_compute|]. split; [by vm_compute|].
  apply (collect_exact sample_reader (λ _, None) ["prod"] tt _ _ tt). reflexivity.
Defined.
