(* ===== verification/Relay.v ===== *)
(** * The session and its inventory (session.AttachInventory, inventory.Synchronizer)

    The composition the process runs: the session calls into the synchronizer when a policy or an
    acknowledgement arrives and takes its pending deltas at every resend; the synchronizer's own clock
    runs beside it. [relay_step] is the product of the two transition systems with exactly those calls
    between them. *)

From S2P Require Import Prelude GoString GoTime Wire Snapshot Diff InventoryLocal Sync SyncProps Session SessionSteps SessionSafety SessionExact SessionMessages SessionLiveness.
From stdpp Require Import options.

(** ** Which deltas a connection carries *)

Definition carries (c : Conn) (d : InventoryDelta) : Prop := offers c (R_InventoryDelta d).

(** The one step that brings deltas to a connection. *)
Lemma perform_carries cfg capacity l s s' i c' d :
  perform cfg capacity l s = Some s' → ss_conns s' !! i = Some c' → carries c' d →
  (∃ c, ss_conns s !! i = Some c ∧ carries c d)
  ∨ ∃ deltas, l = LResendPending deltas ∧ HasInventory cfg = true ∧ d ∈ deltas.
Proof.
  intros H Hc [?|Ho]%(perform_offers _ _ _ _ _ H _ _ _ Hc); [by left|].
  inversion Ho as [? Hp| | | |deltas]; subst; [done|]. right. by exists deltas.
Qed.

(** ** The composition *)

Record Relay := { re_session : State; re_sync : Synchronizer }.

Definition NewRelay : Relay := {| re_session := initial; re_sync := NewSynchronizer |}.

(** A step of the session, with the time and the order of iteration a call into the synchronizer would
    meet; or a step of the synchronizer's own goroutine. *)
Inductive relay_label :=
  | OnSession (l : label) (now : Time) (order : list string)
  | OnClock (e : event).

(** The resend loop offers what [Pending] returns, which it is asked for between two messages. A heartbeat
    may wait to be enqueued after it has asked for the statuses, so what it reports is left open. *)
Definition asked (l : label) (y : Synchronizer) : label :=
  match l with LResendPending _ => LResendPending (Pending (sy_scopes y)) | _ => l end.

Definition call_event (now : Time) (order : list string) (call : InventoryCall) : event :=
  match call with ApplyPolicyCall p => EPolicy p now | AckCall d => EAck order d end.

(** The calls a session step has made, carried out. *)
Fixpoint run_calls (su : Setup) (now : Time) (order : list string) (calls : list InventoryCall)
    (y : Synchronizer) : option Synchronizer :=
  match calls with
  | [] => Some y
  | call :: calls => y ← sync_step su (call_event now order call) y; run_calls su now order calls y
  end.

Definition new_calls (s s' : State) : list InventoryCall := drop (length (ss_inventory s)) (ss_inventory s').

(** What the synchronizer's goroutine does by itself. *)
Definition clock_event (e : event) : bool :=
  match e with ERunDue _ | EBegin | EFinish _ _ _ => true | EPolicy _ _ | EAck _ _ => false end.

(** An iteration over a map visits every key once. *)
Definition iterates (order : list string) (y : Synchronizer) : bool :=
  bool_decide (NoDup order ∧ list_to_set order =@{gset string} dom (sy_scopes y)).

Definition relay_step (cfg : Config) (capacity : nat) (su : Setup) (l : relay_label) (r : Relay) : option Relay :=
  match l with
  | OnSession l now order =>
      if iterates order (re_sync r) then
        s ← perform cfg capacity (asked l (re_sync r)) (re_session r);
        y ← run_calls su now order (new_calls (re_session r) s) (re_sync r);
        Some {| re_session := s; re_sync := y |}
      else None
  | OnClock e =>
      if clock_event e then
        y ← sync_step su e (re_sync r); Some {| re_session := re_session r; re_sync := y |}
      else None
  end.

Fixpoint relay_run (cfg : Config) (capacity : nat) (su : Setup) (ls : list relay_label) (r : Relay)
    : option Relay :=
  match ls with
  | [] => Some r
  | l :: ls => r ← relay_step cfg capacity su l r; relay_run cfg capacity su ls r
  end.

(** What the synchronizer queues is recorded as in its own runs. *)
Definition record_label (l : relay_label) (r : Relay) (h : history) : history :=
  match l with OnSession _ _ _ => h | OnClock e => record_event e (re_sync r) h end.

Definition label_ok (oracle : ObjectKey → string → gmap string string) (l : relay_label) : Prop :=
  match l with OnSession _ _ _ => True | OnClock e => event_ok oracle e end.

Inductive relays (config : Config) (su : Setup) (oracle : ObjectKey → string → gmap string string)
    : Relay → history → Prop :=
  | relays_new : relays config su oracle NewRelay ∅
  | relays_step r h l r' :
      relays config su oracle r h → label_ok oracle l →
      relay_step (New config).1 (New config).2 su l r = Some r' →
      relays config su oracle r' (record_label l r h).

Lemma relay_step_session cfg capacity su l now order r r' :
  relay_step cfg capacity su (OnSession l now order) r = Some r' →
  iterates order (re_sync r) = true ∧ perform cfg capacity (asked l (re_sync r)) (re_session r) = Some (re_session r')
  ∧ run_calls su now order (new_calls (re_session r) (re_session r')) (re_sync r) = Some (re_sync r').
Proof.
  cbn [relay_step]. destruct (iterates _ _); [|done]. intros (s & Hs & (y & Hy & [= <-])%bind_Some)%bind_Some. done.
Qed.

Lemma relay_step_clock cfg capacity su e r r' :
  relay_step cfg capacity su (OnClock e) r = Some r' →
  clock_event e = true ∧ re_session r' = re_session r ∧ sync_step su e (re_sync r) = Some (re_sync r').
Proof.
  cbn [relay_step]. destruct (clock_event e); [|done]. by intros (y & Hy & [= <-])%bind_Some.
Qed.

(** Calls are steps of the synchronizer that queue nothing. *)
Lemma run_calls_runs su oracle now order calls y y' h :
  runs su oracle y h → run_calls su now order calls y = Some y' → runs su oracle y' h.
Proof.
  revert y. induction calls as [|call calls IH]; intros y Hr; cbn [run_calls]; [by intros [= <-]|].
  intros (y1 & H1 & H)%bind_Some. apply (IH y1); [|done].
  assert (Hq : record_event (call_event now order call) y h = h) by (by destruct call).
  rewrite <- Hq. econstructor; [done| |done]. by destruct call.
Qed.

(** Each half of the composition runs as it does alone: the theorems about it hold of the whole. *)
Lemma relays_project config su oracle r h :
  relays config su oracle r h → reachable config (re_session r) ∧ runs su oracle (re_sync r) h.
Proof.
  induction 1 as [|r h l r' _ [IHs IHy] Hok H]; [split; constructor|]. destruct l as [l now order|e].
  - apply relay_step_session in H as (_ & Hs & Hy). split; [by econstructor|]. by eapply run_calls_runs.
  - apply relay_step_clock in H as (_ & -> & Hy). split; [done|]. cbn [record_label]. by econstructor.
Qed.

(** ** What a connection carries was observed and queued *)

Section observed.
Context (config : Config) (su : Setup) (oracle : ObjectKey → string → gmap string string).

(** A delta the synchronizer has queued, for its own scope. *)
Definition was_queued (h : history) (d : InventoryDelta) : Prop :=
  d ∈ concat (groups h (id_ConnectionId d)) ∧ length (id_Changes d) ≤ 512 ∧ lo_Enabled (su_local su) = true.

Lemma elem_of_Pending ss d :
  d ∈ Pending ss ↔ ∃ id scope, ss !! id = Some scope ∧ d ∈ sc_pending scope.
Proof using.
  unfold Pending. rewrite list_elem_of_bind. split.
  - intros (id & Hd & (scope & E)%elem_of_sorted_keys). rewrite E in Hd. by exists id, scope.
  - intros (id & scope & E & Hd). exists id. rewrite E. split; [done|]. apply elem_of_sorted_keys. by exists scope.
Qed.

Lemma pending_was_queued y h d : runs su oracle y h → d ∈ Pending (sy_scopes y) → was_queued h d.
Proof using.
  intros Hr (id & scope & E & Hd)%elem_of_Pending.
  destruct (sok_scope _ _ _ _ (runs_ok _ _ _ _ Hr) _ _ E) as [He _ _ _ _ Hds Hh _ _].
  rewrite Forall_forall in Hds. destruct (Hds d Hd) as [<- Hl]. split; [|done]. by eapply sublist_subseteq.
Qed.

Lemma was_queued_record l r h d : was_queued h d → was_queued (record_label l r h) d.
Proof using.
  intros (Hd & Hl & He). split; [|done]. destruct l as [|e]; [done|]. cbn [record_label].
  rewrite groups_record, concat_app. apply elem_of_app. by left.
Qed.

Lemma carried_was_queued r h i c d :
  relays config su oracle r h → ss_conns (re_session r) !! i = Some c → carries c d →
  HasInventory (New config).1 = true ∧ was_queued h d.
Proof using.
  intros Hr. revert i c d. induction Hr as [|r h l r' Hr IH Hok H]; intros i c d Hc Hd; [done|].
  assert (Hold : ∀ i c d, ss_conns (re_session r) !! i = Some c → carries c d →
    HasInventory (New config).1 = true ∧ was_queued (record_label l r h) d).
  { intros i' c' d' H1 H2. destruct (IH _ _ _ H1 H2). split; [done|]. by apply was_queued_record. }
  destruct l as [l now order|e].
  - apply relay_step_session in H as (_ & Hs & _).
    destruct (perform_carries _ _ _ _ _ _ _ _ Hs Hc Hd) as [(c0 & ? & ?)|(ds & El & HI & Hin)]; [by eapply Hold|].
    split; [done|]. destruct l; try done. injection El as <-. eapply pending_was_queued; [|done].
    by eapply relays_project.
  - apply relay_step_clock in H as (_ & E & _). rewrite E in Hc. by eapply Hold.
Qed.
End observed.

(** C20: nothing reaches the control plane as a change that was not one. Every inventory delta enqueued on
    any connection, in every run of the session and the synchronizer together, is one the synchronizer
    queued from a completed observation of the scope it names, under an operator who left
    synchronization enabled and a build that attached it, and holds at most 512 changes. *)
Theorem deltas_observed config su oracle r h i c d :
  relays config su oracle r h → ss_conns (re_session r) !! i = Some c → R_InventoryDelta d ∈ cn_history c →
  d ∈ concat (groups h (id_ConnectionId d)) ∧ length (id_Changes d) ≤ 512
  ∧ lo_Enabled (su_local su) = true ∧ HasInventory (New config).1 = true.
Proof.
  intros Hr Hc Hd. destruct (carried_was_queued _ _ _ _ _ _ _ d Hr Hc) as [HI (H1 & H2 & H3)]; [by left|done].
Qed.

(** ** What is queued stays until it is acknowledged *)

Lemma ApplyPolicy_pending su p now ss id scope :
  ss !! id = Some scope → ∃ scope', ApplyPolicy su p now ss !! id = Some scope' ∧ sc_pending scope' = sc_pending scope.
Proof.
  intros E. unfold ApplyPolicy. case_match; [eauto|]. destruct (ss !! ip_ConnectionId p) as [s|] eqn:Es.
  - case_match; [eauto|]. destruct (decide (ip_ConnectionId p = id)) as [<-|Hne].
    + rewrite lookup_insert_eq. assert (s = scope) as -> by congruence. eauto.
    + rewrite lookup_insert_ne by done. eauto.
  - rewrite lookup_insert_ne by congruence. eauto.
Qed.

Lemma remove_delta_keeps delta l l' d : remove_delta delta l = Some l' → d ∈ l → d ∈ l' ∨ id_DeltaId d = delta.
Proof.
  revert l'. induction l as [|x l IH]; intros l'; cbn [remove_delta]; [done|].
  destruct (String.eqb_spec (id_DeltaId x) delta) as [<-|Hne].
  - intros [= <-] [-> | Hd]%elem_of_cons; auto.
  - destruct (remove_delta delta l) as [k|]; [|done]. intros [= <-] [-> | Hd]%elem_of_cons; [left; by left|].
    destruct (IH k eq_refl Hd); [left; by right|by right].
Qed.

Lemma Ack_pending order delta ss id scope d :
  ss !! id = Some scope → d ∈ sc_pending scope →
  ∃ scope', Ack order delta ss !! id = Some scope' ∧ (d ∈ sc_pending scope' ∨ id_DeltaId d = delta).
Proof.
  intros E Hd. induction order as [|c order IH]; cbn [Ack]; [eauto|].
  destruct (ss !! c) as [s|] eqn:Es; cbn; [|done].
  destruct (remove_delta delta (sc_pending s)) as [l|] eqn:El; cbn; [|done].
  destruct (decide (c = id)) as [->|Hne].
  - rewrite lookup_insert_eq. eexists. split; [done|]. assert (s = scope) as -> by congruence.
    by eapply remove_delta_keeps.
  - rewrite lookup_insert_ne by done. eauto.
Qed.

Lemma finish_tick_pending ids t observedAt outcome s d :
  d ∈ sc_pending s → let s' := finish_tick ids t observedAt outcome s in d ∈ sc_pending s' ∨ sc_rebaseline s' = true.
Proof.
  intros Hd. unfold finish_tick. case_match; [by left|]. destruct outcome as [[current truncated]|]; [|by left].
  cbn [sc_pending sc_rebaseline]. destruct (_ <? _)%nat; [by right|]. left. apply elem_of_app. by left.
Qed.

(** A pending delta, after any step of the synchronizer. *)
Lemma sync_step_pending su e y y' id scope d :
  sync_step su e y = Some y' → sy_scopes y !! id = Some scope → d ∈ sc_pending scope →
  ∃ scope', sy_scopes y' !! id = Some scope'
    ∧ (d ∈ sc_pending scope' ∨ (sc_rebaseline scope' = true ∧ clock_event e = true)
       ∨ ∃ order, e = EAck order (id_DeltaId d)).
Proof.
  intros H E Hd. destruct e as [p now|order delta|now| |ids observedAt outcome]; cbn [sync_step] in H.
  - injection H as <-. destruct (ApplyPolicy_pending su p now _ _ _ E) as (scope' & E' & Hp).
    exists scope'. rewrite Hp. auto.
  - injection H as <-. destruct (Ack_pending order delta _ _ _ _ E Hd) as (scope' & E' & [Hp | <-]); eauto 6.
  - destruct (sy_due y), (sy_tick y); try done. injection H as <-. cbn [sy_scopes]. rewrite lookup_fmap, E.
    eexists. split; [done|]. left. by case_match.
  - destruct (sy_due y), (sy_tick y); try done. apply bind_Some in H as (? & _ & [= <-]). eauto.
  - apply bind_Some in H as (t & _ & [= <-]). cbn [sy_scopes]. destruct (decide (tk_scope t = id)) as [<-|Hne].
    + rewrite lookup_alter_eq, E. eexists. split; [done|].
      destruct (finish_tick_pending ids t observedAt outcome _ _ Hd); auto.
    + rewrite lookup_alter_ne by done. eauto.
Qed.

(** The call a step of the session makes. *)
Definition received_calls (m : ControlToRelay) : list InventoryCall :=
  match m with C_InventoryPolicy p => [ApplyPolicyCall p] | C_InventoryDeltaAck d => [AckCall d] | _ => [] end.

Definition calls_of (cfg : Config) (l : label) : list InventoryCall :=
  match l with LReceive m => if HasInventory cfg then received_calls m else [] | _ => [] end.

Lemma cancel_worker_inventory id s : ss_inventory (cancel_worker id s) = ss_inventory s.
Proof. unfold cancel_worker. by case_match. Qed.

Lemma cancelAll_inventory i c s : ss_inventory (cancelAll i c s) = ss_inventory s.
Proof.
  unfold cancelAll. simpl.
  apply (map_fold_weak_ind (λ s' _, ss_inventory s' = ss_inventory s)); [done|].
  intros. by rewrite cancel_worker_inventory.
Qed.

Lemma handler_inventory cfg capacity i c a s s' :
  handler cfg capacity i c a s = Some s' → ss_inventory s' = ss_inventory s.
Proof.
  unfold handler. destruct (cn_recv c); intros H; option_steps; [done| |].
  - unfold jobs_cancel. repeat case_match; by rewrite ?cancel_worker_inventory.
  - unfold startJob. case_match eqn:A; [|done]. unfold acquireSlot in A. by option_steps.
Qed.

Lemma worker_step_inventory cfg id w choice s s' :
  worker_step cfg id w choice s = Some s' → ss_inventory s' = ss_inventory s.
Proof.
  unfold worker_step, worker_enqueue. destruct (wk_phase w), choice; intros H; try done; option_steps; try done.
  unfold jobs_remove. by case_match.
Qed.

Lemma receive_inventory cfg i c m s :
  ss_inventory (receive cfg i c m s) = ss_inventory s ++ calls_of cfg (LReceive m).
Proof.
  destruct m; simpl; destruct (HasInventory cfg); rewrite ?app_nil_r; try done;
    unfold dispatchAssignment, settle; by repeat case_match.
Qed.

Lemma perform_calls cfg capacity l s s' :
  perform cfg capacity l s = Some s' → new_calls s s' = calls_of cfg l.
Proof.
  intros H. unfold new_calls. assert (E : ss_inventory s' = ss_inventory s ++ calls_of cfg l).
  2: { by rewrite E, drop_app_length. }
  revert H. unfold perform, sender_run, resend_tick, resend_pending, resend_next, heartbeat_tick, fail, finish.
  destruct l; intros H; try (destruct (live s) as [[i c]|]; [|done]; simpl in H).
  all: try (simpl; rewrite app_nil_r).
  - destruct (live s); option_steps. unfold connect. by case_match.
  - destruct (cn_recv c); option_steps. apply receive_inventory.
  - by eapply handler_inventory.
  - destruct (ss_workers s !! id); [|done]. by eapply worker_step_inventory.
  - by option_steps.
  - by destruct (cn_resend c) as [[|? ?]|[|? ?]|]; option_steps.
  - by destruct (cn_resend c) as [[|? ?]|[|? ?]|]; option_steps.
  - by destruct (cn_resend c) as [[|? ?]|[|? ?]|]; option_steps.
  - by option_steps.
  - unfold watch_step in H. by destruct (cn_watch c), choice; option_steps.
  - by destruct recv; [destruct (cn_recv c)|]; option_steps.
  - destruct (cn_recv c); option_steps; apply (cancelAll_inventory i (with_end true true c)).
Qed.

(** A pending delta, after any step of the whole. *)
Lemma relay_step_pending cfg capacity su l r r' id scope d :
  relay_step cfg capacity su l r = Some r' → sy_scopes (re_sync r) !! id = Some scope → d ∈ sc_pending scope →
  ∃ scope', sy_scopes (re_sync r') !! id = Some scope'
    ∧ (d ∈ sc_pending scope' ∨ sc_rebaseline scope' = true
       ∨ ∃ now order, l = OnSession (LReceive (C_InventoryDeltaAck (id_DeltaId d))) now order).
Proof.
  intros H E Hd. destruct l as [l now order|e].
  - apply relay_step_session in H as (_ & Hs & Hy). rewrite (perform_calls _ _ _ _ _ Hs) in Hy.
    assert (Hc : calls_of cfg (asked l (re_sync r)) = calls_of cfg l) by (by destruct l). rewrite Hc in Hy.
    unfold calls_of in Hy. destruct l as [|m| | | | | | | | | |]; try (injection Hy as <-; by eauto).
    destruct (HasInventory cfg); [|injection Hy as <-; by eauto].
    destruct m; cbn [received_calls run_calls] in Hy; try (injection Hy as <-; by eauto).
    all: apply bind_Some in Hy as (y & Hy & [= <-]);
      destruct (sync_step_pending _ _ _ _ _ _ _ Hy E Hd) as (scope' & E' & [?|[[_ [=]]|(o & [=])]]);
      exists scope'; split; subst; eauto 6.
  - apply relay_step_clock in H as (Hc & _ & Hy).
    destruct (sync_step_pending _ _ _ _ _ _ _ Hy E Hd) as (scope' & E' & [?|[[? _]|(o & ->)]]); [by eauto..|done].
Qed.

(** *** Every pending delta can be sent again *)

Lemma iterates_keys y : iterates (sorted_keys (sy_scopes y)) y = true.
Proof.
  apply bool_decide_eq_true. split; [apply NoDup_sorted_keys|]. apply set_eq. intros k.
  by rewrite elem_of_list_to_set, elem_of_sorted_keys, elem_of_dom.
Qed.

(** A step of the session that makes no call and asks for nothing is the same step of the composition. *)
Lemma relay_step_quiet cfg capacity su now l s s' y :
  asked l y = l → calls_of cfg l = [] → perform cfg capacity l s = Some s' →
  relay_step cfg capacity su (OnSession l now (sorted_keys (sy_scopes y))) {| re_session := s; re_sync := y |}
  = Some {| re_session := s'; re_sync := y |}.
Proof.
  intros Ha Hc H. cbn [relay_step re_sync re_session]. rewrite iterates_keys, Ha, H. cbn [mbind option_bind].
  by rewrite (perform_calls _ _ _ _ _ H), Hc.
Qed.

(** The sender and the resend loop make no calls: what they do alone they do in the composition. *)
Lemma relay_run_outbound cfg capacity su now ls s s' y :
  Forall (outbound (Pending (sy_scopes y))) ls → run_labels cfg capacity ls s = Some s' →
  relay_run cfg capacity su ((λ l, OnSession l now (sorted_keys (sy_scopes y))) <$> ls)
    {| re_session := s; re_sync := y |} = Some {| re_session := s'; re_sync := y |}.
Proof.
  intros Hls. revert s. induction Hls as [|l ls Hl _ IH]; intros s; [by intros [= ->]|].
  cbn [run_labels]. intros (s1 & H1 & H)%bind_Some. cbn [fmap list_fmap relay_run].
  rewrite (relay_step_quiet _ _ _ _ _ _ s1); [by apply IH| |by destruct l|done].
  destruct l; try done; cbn in Hl; by subst.
Qed.

(** C19: at least once, end to end. A delta the synchronizer has pending stays pending through every step of
    the session and of the synchronizer until the control plane acknowledges that very delta or its scope
    owes a fresh baseline, which says all of it again; and from every state with a running connection steps
    of the sender and the resend loop alone, none of whose sends and enqueues fails, bring it onto the
    stream once more and leave the connection running. *)
Theorem pending_delta_delivered config su oracle r h d :
  relays config su oracle r h → d ∈ Pending (sy_scopes (re_sync r)) →
  (∀ l r', relay_step (New config).1 (New config).2 su l r = Some r' →
     d ∈ Pending (sy_scopes (re_sync r'))
     ∨ (∃ now order, l = OnSession (LReceive (C_InventoryDeltaAck (id_DeltaId d))) now order)
     ∨ ∃ scope, sy_scopes (re_sync r') !! id_ConnectionId d = Some scope ∧ sc_rebaseline scope = true)
  ∧ (∀ i c now, HasInventory (New config).1 = true → 0 < OutboundBuffer (New config).1 →
     running (re_session r) = Some (i, c) →
     ∃ ls c', Forall (outbound (Pending (sy_scopes (re_sync r)))) ls
       ∧ relay_run (New config).1 (New config).2 su
           ((λ l, OnSession l now (sorted_keys (sy_scopes (re_sync r)))) <$> ls) r
         = Some {| re_session := set_conn i c' (re_session r); re_sync := re_sync r |}
       ∧ running (set_conn i c' (re_session r)) = Some (i, c')
       ∧ R_InventoryDelta d ∈ drop (cn_sent c) (written c')).
Proof.
  intros Hr Hd. destruct (relays_project _ _ _ _ _ Hr) as [Hreach Hruns]. split.
  - intros l r' H. pose proof Hd as (id & scope & E & Hin)%elem_of_Pending.
    destruct (sok_scope _ _ _ _ (runs_ok _ _ _ _ Hruns) _ _ E) as [_ _ _ _ _ Hds _ _ _].
    rewrite Forall_forall in Hds. destruct (Hds d Hin) as [<- _].
    destruct (relay_step_pending _ _ _ _ _ _ _ _ _ H E Hin) as (scope' & E' & [?|[?|?]]); [|by eauto..].
    left. apply elem_of_Pending. eauto.
  - intros i c now HI Hb Hrun. apply reachable_ok in Hreach.
    destruct (sends_all _ (New config).2 (Pending (sy_scopes (re_sync r))) i c _ Hb Hreach Hrun)
      as (c' & before & order & (ls & Ho & H) & Hl' & _ & Hm).
    apply running_Some in Hrun as [Hl _]. pose proof (live_Some _ _ _ Hl) as (_ & Hc & _).
    pose proof (co_sent _ _ (so_conn _ _ Hreach _ _ Hc)) as Hs.
    exists ls, c'. split; [done|]. split; [destruct r as [s y]; by apply relay_run_outbound|]. split; [done|].
    eapply sent_more_written; [done|done|]. rewrite HI, !elem_of_app. right. right.
    apply list_elem_of_fmap. by exists d.
Qed.

(** ** A concrete run

    A session with an inventory: it connects, a policy arrives, the first tick takes the baseline, and a
    resend puts it on the stream. *)

Definition relay_config : Config :=
  {| OrgID := "org"; RegistrationID := "reg"; Capabilities := []; MaxConcurrentJobs := 1; RelayVersion := "dev";
     ClusterFingerprint := "uid"; LocalPolicyHash := ""; OutboundBuffer := 4; HasInventory := true |}.

Definition relay_labels : list relay_label :=
  [OnSession (LConnect sample_accepted) 1000%Z [];
   OnSession (LReceive (C_InventoryPolicy (sample_policy 1 ["prod"; "other"]))) 1000%Z [];
   OnClock (ERunDue 1000); OnClock EBegin; OnClock (EFinish (λ _, "d1") 1001 (Ok (sample_before, false)));
   OnSession (LResendTick []) 1002%Z ["c1"]; OnSession (LResendPending []) 1002%Z ["c1"];
   OnSession (LResend true) 1002%Z ["c1"]; OnSession (LSend true) 1002%Z ["c1"]].

Fixpoint relay_history (cfg : Config) (capacity : nat) (su : Setup) (ls : list relay_label) (r : Relay)
    (h : history) : option (Relay * history) :=
  match ls with
  | [] => Some (r, h)
  | l :: ls => r' ← relay_step cfg capacity su l r; relay_history cfg capacity su ls r' (record_label l r h)
  end.

Lemma relay_history_relays config su oracle ls r h r' h' :
  relays config su oracle r h → Forall (label_ok oracle) ls →
  relay_history (New config).1 (New config).2 su ls r h = Some (r', h') → relays config su oracle r' h'.
Proof.
  revert r h. induction ls as [|l ls IH]; intros r h Hr Hls; cbn [relay_history]; [by intros [= -> ->]|].
  apply Forall_cons in Hls as [Hl Hls]. destruct (relay_step _ _ _ _ _) as [r1|] eqn:E; [|done].
  cbn. apply IH; [by econstructor|done].
Qed.

Definition relay_sample : Relay * history :=
  default (NewRelay, ∅)
    (relay_history (New relay_config).1 (New relay_config).2 sample_setup relay_labels NewRelay ∅).

Lemma relay_sample_relays : relays relay_config sample_setup sample_oracle relay_sample.1 relay_sample.2.
Proof.
  unfold relay_sample. destruct (relay_history _ _ _ _ _ _) as [[r h]|] eqn:E; [|constructor].
  eapply relay_history_relays; [constructor| |exact E].
  unfold relay_labels. repeat (apply Forall_cons; split); try exact I; [|apply Forall_nil_2].
  pose proof sample_events_ok as H. unfold sample_events in H.
  rewrite !Forall_cons in H. by destruct H as (_ & _ & _ & H & _).
Qed.

Definition relay_conn : Conn := default (newConn intakeShed) (ss_conns (re_session relay_sample.1) !! 0).
Definition relay_delta : InventoryDelta :=
  match cn_history relay_conn with
  | [R_InventoryDelta d] => d
  | _ => {| id_DeltaId := ""; id_ConnectionId := ""; id_PolicyRevision := 0; id_Baseline := false;
            id_ObservedAt := None; id_Changes := [] |}
  end.

Lemma deltas_observed_witness :
  written relay_conn = [R_InventoryDelta relay_delta] ∧ id_DeltaId relay_delta = "d1"
  ∧ relay_delta ∈ concat (groups relay_sample.2 (id_ConnectionId relay_delta)).
Proof.
  assert (E : ss_conns (re_session relay_sample.1) !! 0 = Some relay_conn) by (vm_compute; reflexivity).
  assert (Eh : cn_history relay_conn = [R_InventoryDelta relay_delta]) by (vm_compute; reflexivity).
  split; [vm_compute; reflexivity|]. split; [vm_compute; reflexivity|].
  apply (deltas_observed relay_config sample_setup sample_oracle _ _ _ _ _ relay_sample_relays E).
  rewrite Eh. by left.
Defined.

Lemma pending_delta_delivered_witness :
  ∃ ls c', Forall (outbound [relay_delta]) ls
    ∧ relay_run (New relay_config).1 (New relay_config).2 sample_setup
      ((λ l, OnSession l 0%Z (sorted_keys (sy_scopes (re_sync relay_sample.1)))) <$> ls) relay_sample.1
    = Some {| re_session := set_conn 0 c' (re_session relay_sample.1); re_sync := re_sync relay_sample.1 |}
    ∧ R_InventoryDelta relay_delta ∈ drop 1 (written c').
Proof.
  assert (Ep : Pending (sy_scopes (re_sync relay_sample.1)) = [relay_delta]) by (vm_compute; reflexivity).
  assert (Hd : relay_delta ∈ Pending (sy_scopes (re_sync relay_sample.1))) by (rewrite Ep; by left).
  assert (E : running (re_session relay_sample.1) = Some (0, relay_conn)) by (vm_compute; reflexivity).
  assert (Es : cn_sent relay_conn = 1) by (vm_compute; reflexivity).
  destruct (pending_delta_delivered relay_config sample_setup sample_oracle _ _ _ relay_sample_relays Hd) as [_ H].
  destruct (H 0 relay_conn 0%Z eq_refl ltac:(vm_compute; lia) E) as (ls & c' & H0 & H1 & _ & H2).
  exists ls, c'. rewrite Es in H2. rewrite Ep in H0. split; [assumption|]. split; assumption.
Defined.
