(* ===== verification/Encoding.v ===== *)
(** * Text encodings of Go's standard library

    [strconv.ParseUint] and [ParseInt] in base ten, [net.SplitHostPort], and
    [base64.StdEncoding.DecodeString], as the configuration and the pinned transport use them, each with
    what it accepts. *)

From S2P Require Import Prelude GoString Utf8 GoTime.
From Stdlib Require Import Ascii.
From Stdlib Require String.
From stdpp Require Import options.
Local Open Scope Z_scope.

(** ** strconv *)

(** The loop of [ParseUint], with its cutoff and its wrap-around test. *)
Fixpoint uint_loop (maxVal : Z) (s : string) (n : Z) : option Z :=
  match s with
  | "" => Some n
  | String a t =>
      d ← digit a;
      if (2 ^ 64 - 1) / 10 + 1 <=? n then None else
      let n := wrap_u 64 (n * 10) in
      let n1 := wrap_u 64 (n + d) in
      if (n1 <? n) || (maxVal <? n1) then None else uint_loop maxVal t n1
  end.

Definition ParseUint (s : string) (bitSize : Z) : option Z :=
  if (s =? "")%string then None else uint_loop (2 ^ bitSize - 1) s 0.

(** A sign, then [ParseUint]; an out-of-range magnitude fails the range test here as well. *)
Definition ParseInt (s : string) (bitSize : Z) : option Z :=
  let '(neg, t) :=
    match s with
    | String a t =>
        if Ascii.eqb a "+" then (false, t) else if Ascii.eqb a "-" then (true, t) else (false, s)
    | "" => (false, s)
    end in
  un ← ParseUint t bitSize;
  let cutoff := 2 ^ (bitSize - 1) in
  if (negb neg && (cutoff <=? un)) || (neg && (cutoff <? un)) then None
  else Some (if neg : bool then - un else un).

(** [strconv.Atoi] on a 64-bit platform. *)
Definition Atoi (s : string) : option Z := ParseInt s 64.

(** The digits of a text that is all digits. *)
Definition digits (s : string) : option (list Z) := mapM digit (String.list_ascii_of_string s).

(** What a decimal text denotes. *)
Definition decimal (s : string) (v : Z) : Prop :=
  s ≠ "" ∧ ∃ ds, digits s = Some ds ∧ v = digits_value ds.

Definition signed_decimal (s : string) (v : Z) : Prop :=
  decimal s v ∨ (∃ t, s = String "+"%char t ∧ decimal t v) ∨ (∃ t, s = String "-"%char t ∧ decimal t (- v)).

Lemma digit_range a d : digit a = Some d → 0 ≤ d < 10.
Proof. unfold digit. destruct (_ && _) eqn:E; [|done]. intros [= <-]. apply andb_true_iff in E as [?%Z.leb_le ?%Z.leb_le]. lia. Qed.

Lemma digit_sign d : digit "+"%char = Some d ∨ digit "-"%char = Some d → False.
Proof. by intros [H|H]; vm_compute in H. Qed.

Definition accumulate (n : Z) (ds : list Z) : Z := foldl (λ acc d, acc * 10 + d) n ds.

Lemma accumulate_ge n ds : 0 ≤ n → Forall (λ d, 0 ≤ d < 10) ds → n ≤ accumulate n ds.
Proof.
  intros Hn Hds. revert n Hn. induction Hds as [|d ds Hd _ IH]; intros n Hn; cbn; [lia|].
  etrans; [|apply IH; lia]. lia.
Qed.

Lemma digits_range s ds : digits s = Some ds → Forall (λ d, 0 ≤ d < 10) ds.
Proof.
  unfold digits. intros H%mapM_Some. induction H; constructor; [by eapply digit_range|done].
Qed.

Lemma digits_cons a s ds :
  digits (String a s) = Some ds ↔ ∃ d ds', digit a = Some d ∧ digits s = Some ds' ∧ ds = d :: ds'.
Proof.
  unfold digits. cbn. rewrite bind_Some. split.
  - intros (d & ? & (ds' & ? & [= <-])%bind_Some). by exists d, ds'.
  - intros (d & ds' & ? & H & ->). exists d. split; [done|]. by rewrite H.
Qed.

Lemma uint_loop_Some maxVal s n v :
  maxVal < 2 ^ 64 → 0 ≤ n ≤ maxVal →
  uint_loop maxVal s n = Some v ↔ ∃ ds, digits s = Some ds ∧ v = accumulate n ds ∧ v ≤ maxVal.
Proof.
  intros Hmax. revert n. induction s as [|a s IH]; intros n Hn; cbn [uint_loop].
  - split; [intros [= <-]; exists []; split_and!; [done|done|lia]|]. by intros (ds & [= <-] & -> & _).
  - destruct (digit a) as [d|] eqn:Ed; cbn.
    2: { split; [done|]. intros (ds & (? & ? & ? & _)%digits_cons & _). congruence. }
    pose proof (digit_range _ _ Ed) as Hd.
    assert (Hds : (∃ ds, digits (String a s) = Some ds ∧ v = accumulate n ds ∧ v ≤ maxVal) →
      n * 10 + d ≤ maxVal).
    { intros (ds & (d' & ds' & E & Es & ->)%digits_cons & -> & Hle).
      assert (d' = d) as -> by congruence. cbn in Hle.
      pose proof (accumulate_ge (n * 10 + d) ds' ltac:(lia) (digits_range _ _ Es)).
      unfold accumulate in *. lia. }
    change ((2 ^ 64 - 1) / 10 + 1) with 1844674407370955162. destruct (Z.leb_spec 1844674407370955162 n) as [Hc|Hc].
    { split; [done|]. intros H%Hds. lia. }
    unfold wrap_u. rewrite (Z.mod_small (n * 10)) by lia.
    destruct (Z_lt_le_dec (n * 10 + d) (2 ^ 64)) as [Hlt|Hge].
    2: { assert ((n * 10 + d) mod 2 ^ 64 = n * 10 + d - 2 ^ 64) as ->.
         { symmetry. apply (Z.mod_unique _ _ 1); lia. }
         rewrite (proj2 (Z.ltb_lt _ _)) by lia. cbn. split; [done|].
         intros H%Hds. lia. }
    rewrite Z.mod_small by lia. rewrite (proj2 (Z.ltb_ge _ _)) by lia. cbn [orb].
    destruct (Z.ltb_spec maxVal (n * 10 + d)) as [Hb|Hb].
    { split; [done|]. intros H%Hds. lia. }
    rewrite IH by lia. split.
    + intros (ds & E & -> & ?). exists (d :: ds). split_and!; [|done|done].
      apply digits_cons. by exists d, ds.
    + intros (ds & (d' & ds' & E & Es & ->)%digits_cons & -> & Hle).
      assert (d' = d) as -> by congruence. by exists ds'.
Qed.

(** [ParseUint] accepts the decimal texts whose value fits the width, and nothing else. *)
Lemma ParseUint_Some s bitSize v :
  0 ≤ bitSize ≤ 64 → ParseUint s bitSize = Some v ↔ decimal s v ∧ v < 2 ^ bitSize.
Proof.
  intros Hb. unfold ParseUint, decimal.
  assert (1 ≤ 2 ^ bitSize) by (apply Z.lt_pred_le, Z.pow_pos_nonneg; lia).
  assert (2 ^ bitSize ≤ 2 ^ 64) by (apply Z.pow_le_mono_r; lia).
  destruct (String.eqb_spec s "") as [->|Hne]; [naive_solver|].
  rewrite uint_loop_Some by lia. fold accumulate. split.
  - intros (ds & ? & -> & ?). split; [|lia]. split; [done|]. by exists ds.
  - intros [[_ (ds & ? & ->)] ?]. exists ds. split_and!; [done|done|]. unfold digits_value in *. lia.
Qed.

Lemma decimal_nonneg s v : decimal s v → 0 ≤ v.
Proof.
  intros (_ & ds & H & ->). apply (accumulate_ge 0 ds); [lia|by eapply digits_range].
Qed.

Lemma decimal_not_sign a s v : decimal (String a s) v → a ≠ "+"%char ∧ a ≠ "-"%char.
Proof.
  intros (_ & ds & (d & _ & H & _)%digits_cons & _).
  split; intros ->; eapply digit_sign; [by left|by right].
Qed.

(** [ParseInt] accepts the signed decimal texts whose value fits the width, and nothing else. *)
Lemma ParseInt_Some s v :
  ParseInt s 64 = Some v ↔ signed_decimal s v ∧ - 2 ^ 63 ≤ v < 2 ^ 63.
Proof.
  assert (Hu : ∀ t neg, (un ← ParseUint t 64;
      if (negb neg && (2 ^ (64 - 1) <=? un)) || (neg && (2 ^ (64 - 1) <? un)) then None
      else Some (if neg : bool then - un else un)) = Some v
    ↔ decimal t (if neg then - v else v) ∧ - 2 ^ 63 ≤ v < 2 ^ 63).
  { intros t neg. rewrite bind_Some. setoid_rewrite ParseUint_Some; [|lia]. change (64 - 1) with 63.
    split.
    - intros (un & [Hd Hr] & H). pose proof (decimal_nonneg _ _ Hd).
      destruct neg; cbn in H; case_match eqn:E; simplify_eq; rewrite ?orb_false_r, ?Z.opp_involutive in *;
        bool_prop; split; try done; lia.
    - intros [Hd Hr]. eexists. split; [split; [exact Hd|destruct neg; lia]|].
      pose proof (decimal_nonneg _ _ Hd). destruct neg; cbn [negb andb orb].
      + rewrite (proj2 (Z.ltb_ge _ _)) by lia. by rewrite Z.opp_involutive.
      + rewrite (proj2 (Z.leb_gt _ _)) by lia. done. }
  unfold ParseInt, signed_decimal. destruct s as [|a s].
  - rewrite Hu. naive_solver.
  - destruct (Ascii.eqb_spec a "+") as [->|Hp]; [|destruct (Ascii.eqb_spec a "-") as [->|Hm]]; rewrite Hu.
    + split; [|intros [[[]%decimal_not_sign|[(t & [= ->] & ?)|(t & [=] & _)]] ?]; done].
      intros [? ?]. split; [right; left; by exists s|done].
    + split; [|intros [[[]%decimal_not_sign|[(t & [=] & _)|(t & [= ->] & ?)]] ?]; done].
      intros [? ?]. split; [right; right; by exists s|done].
    + naive_solver.
Qed.

(** ** net.SplitHostPort *)

(** [bytealg.IndexByteString] and [LastIndexByteString]. *)
Fixpoint index_byte (c : ascii) (s : string) : option nat :=
  match s with
  | "" => None
  | String a t => if Ascii.eqb a c then Some O else S <$> index_byte c t
  end.

Fixpoint last_index (c : ascii) (s : string) : option nat :=
  match s with
  | "" => None
  | String a t =>
      match last_index c t with
      | Some i => Some (S i)
      | None => if Ascii.eqb a c then Some O else None
      end
  end.

(** The port starts after the last colon; a bracketed host ends right before it. *)
Definition SplitHostPort (hostport : string) : option (string * string) :=
  i ← last_index ":" hostport;
  '(host, j, k) ←
    match hostport with
    | String c t =>
        if Ascii.eqb c "[" then
          e ← index_byte "]" hostport;
          if (S e =? i)%nat then Some (str_slice 1 e hostport, 1%nat, S e) else None
        else
          let host := str_take i hostport in
          if contains_byte ":" host then None else Some (host, O, O)
    | "" => None
    end;
  if contains_byte "[" (str_drop j hostport) then None
  else if contains_byte "]" (str_drop k hostport) then None
  else Some (host, str_drop (S i) hostport).

Example split_name : SplitHostPort "relay.example.com:443" = Some ("relay.example.com", "443").
Proof. reflexivity. Qed.
Example split_six : SplitHostPort "[::1]:443" = Some ("::1", "443").
Proof. reflexivity. Qed.
Example split_scheme : SplitHostPort "https://host" = Some ("https", "//host").
Proof. reflexivity. Qed.
Example split_bad :
  SplitHostPort "::1:443" = None ∧ SplitHostPort "host" = None ∧ SplitHostPort "[::1]" = None
  ∧ SplitHostPort "[::1]x:443" = None ∧ SplitHostPort "a[b:1" = None.
Proof. done. Qed.

(** ** base64.StdEncoding *)

(** The decoding table of the standard alphabet. *)
Definition b64_value (a : ascii) : option Z :=
  let c := byte a in
  if (65 <=? c) && (c <=? 90) then Some (c - 65)
  else if (97 <=? c) && (c <=? 122) then Some (c - 71)
  else if (48 <=? c) && (c <=? 57) then Some (c + 4)
  else if c =? 43 then Some 62
  else if c =? 47 then Some 63
  else None.

(** One quantum: four six-bit values side by side, read as three bytes. *)
Definition b64_bytes (a b c d : Z) : list Z :=
  let v := ((a * 64 + b) * 64 + c) * 64 + d in
  [v / 65536; v / 256 mod 256; v mod 256].

Fixpoint b64_quanta (s : list ascii) : option (list Z) :=
  match s with
  | [] => Some []
  | c1 :: c2 :: c3 :: c4 :: rest =>
      a ← b64_value c1;
      b ← b64_value c2;
      if Ascii.eqb c3 "=" then
        if Ascii.eqb c4 "=" then match rest with [] => Some (take 1 (b64_bytes a b 0 0)) | _ => None end
        else None
      else
        c ← b64_value c3;
        if Ascii.eqb c4 "=" then match rest with [] => Some (take 2 (b64_bytes a b c 0)) | _ => None end
        else d ← b64_value c4; app (b64_bytes a b c d) <$> b64_quanta rest
  | _ => None
  end.

Definition newline (a : ascii) : bool := (byte a =? 10) || (byte a =? 13).

(** [DecodeString]: line breaks are skipped wherever they are, padding is required, and the bits padding
    leaves over are not checked. *)
Definition DecodeString (s : string) : option (list Z) :=
  b64_quanta (List.filter (λ a, negb (newline a)) (String.list_ascii_of_string s)).

(** The encoder, to say what the decoder accepts. *)
Definition b64_char (v : Z) : ascii :=
  if v <? 26 then chr (v + 65) else if v <? 52 then chr (v + 71) else if v <? 62 then chr (v - 4)
  else if v =? 62 then "+" else "/".

Fixpoint b64_encode (l : list Z) : list ascii :=
  match l with
  | [] => []
  | [x] => [b64_char (x / 4); b64_char (x mod 4 * 16); "="%char; "="%char]
  | [x; y] => [b64_char (x / 4); b64_char (x mod 4 * 16 + y / 16); b64_char (y mod 16 * 4); "="%char]
  | x :: y :: z :: l =>
      b64_char (x / 4) :: b64_char (x mod 4 * 16 + y / 16) :: b64_char (y mod 16 * 4 + z / 64)
      :: b64_char (z mod 64) :: b64_encode l
  end.

Definition StdEncoding (l : list Z) : string := String.string_of_list_ascii (b64_encode l).

Example decode_wrapped : DecodeString "aGVs
bG8=" = Some [104; 101; 108; 108; 111].
Proof. reflexivity. Qed.
Example decode_refuses : DecodeString "aGVsbG8" = None ∧ DecodeString "aGVsbG8=x" = None ∧ DecodeString "a" = None.
Proof. done. Qed.
Example decode_lenient : DecodeString "aGVsbG9=" = DecodeString "aGVsbG8=".
Proof. reflexivity. Qed.

Lemma b64_char_value v : 0 ≤ v < 64 → b64_value (b64_char v) = Some v ∧ b64_char v ≠ "="%char
  ∧ newline (b64_char v) = false.
Proof.
  intros Hv. assert (H : forallb (λ n, let v := Z.of_nat n in
    bool_decide (b64_value (b64_char v) = Some v) && negb (Ascii.eqb (b64_char v) "=")
      && negb (newline (b64_char v))) (seq 0 64) = true) by reflexivity.
  rewrite forallb_forall in H. specialize (H (Z.to_nat v)). cbv zeta in H.
  rewrite Z2Nat.id, !andb_true_iff, !negb_true_iff in H by lia.
  destruct H as [[H1%bool_decide_eq_true H2] H3]; [apply in_seq; lia|].
  split_and!; [done| |done]. intros E. by rewrite E in H2.
Qed.

Lemma b64_quanta_encode l : Forall (λ x, 0 ≤ x < 256) l → b64_quanta (b64_encode l) = Some l.
Proof.
  intros Hl. remember (length l) as n eqn:Hn. revert l Hn Hl. induction (lt_wf n) as [n _ IH].
  intros [|x [|y [|z l]]] -> Hl; [done|..]; rewrite ?Forall_cons in Hl; cbn [b64_encode b64_quanta].
  all: destruct_and!.
  all: repeat (match goal with
    | |- context [b64_value (b64_char ?v)] => rewrite (proj1 (b64_char_value v ltac:(Z.to_euclidean_division_equations; lia)))
    | |- context [Ascii.eqb (b64_char ?v) "="] =>
        rewrite (proj2 (Ascii.eqb_neq _ _) (proj1 (proj2 (b64_char_value v ltac:(Z.to_euclidean_division_equations; lia)))))
    end; cbn [mbind option_bind]).
  all: rewrite ?Ascii.eqb_refl; cbn [take b64_bytes].
  - do 2 f_equal. Z.to_euclidean_division_equations; lia.
  - do 2 f_equal; [Z.to_euclidean_division_equations; lia|]. f_equal. Z.to_euclidean_division_equations; lia.
  - rewrite (IH (length l)) by (simpl; try done; lia). cbn. do 2 f_equal; [Z.to_euclidean_division_equations; lia|].
    do 2 f_equal; [|f_equal]; Z.to_euclidean_division_equations; lia.
Qed.

Lemma b64_encode_chars l : Forall (λ x, 0 ≤ x < 256) l → Forall (λ a, newline a = false) (b64_encode l).
Proof.
  intros Hl. remember (length l) as n eqn:Hn. revert l Hn Hl. induction (lt_wf n) as [n _ IH].
  intros [|x [|y [|z l]]] -> Hl; [done|..]; rewrite ?Forall_cons in Hl; cbn [b64_encode]; destruct_and!.
  all: repeat (apply Forall_cons; split); try apply Forall_nil_2;
    try (apply b64_char_value; Z.to_euclidean_division_equations; lia); try done.
  apply (IH (length l)); [simpl; lia|done|done].
Qed.

(** Encoding a text of bytes and decoding it gives the bytes back. *)
Lemma DecodeString_encode l : Forall (λ x, 0 ≤ x < 256) l → DecodeString (StdEncoding l) = Some l.
Proof.
  intros Hl. unfold DecodeString, StdEncoding. rewrite String.list_ascii_of_string_of_list_ascii.
  rewrite List.forallb_filter_id; [by apply b64_quanta_encode|].
  apply forallb_forall. intros a Ha. apply negb_true_iff.
  pose proof (b64_encode_chars l Hl) as Hc. rewrite Forall_forall in Hc. apply Hc. by apply list_elem_of_In.
Qed.

(** What a pin has to be: the base64 of a SHA-256 digest. *)
Definition valid_pin (pin : string) : Prop := ∃ digest, DecodeString pin = Some digest ∧ length digest = 32%nat.

Lemma valid_pin_encode digest : Forall (λ x, 0 ≤ x < 256) digest → length digest = 32%nat → valid_pin (StdEncoding digest).
Proof. intros Hd Hl. exists digest. by rewrite DecodeString_encode. Qed.
