(* ===== verification/Config.v ===== *)
(** * The process configuration (internal/config/config.go)

    [Load] and the parsers it is made of, over the environment as a lookup function. [configured] says
    what an accepted environment looks like, variable by variable, and [Load_accepts] that [Load] accepts
    exactly those and yields what they say. *)

From S2P Require Import Prelude GoString Utf8 GoTime Regexp Admission Encoding.
From Stdlib Require Import Ascii.
From Stdlib Require String.
From stdpp Require Import options.
Local Open Scope Z_scope.

Definition maxLocalPods : Z := 50.
Definition maxLocalEvents : Z := 200.
Definition maxLocalLogLines : Z := 2000.
Definition maxLocalLogBytes : Z := 256 * 1024.
Definition maxConcurrentJobsCap : Z := 64.
Definition maxAllowedNamespaces : nat := 256.

Record Config := {
  ControlPlaneAddress : string;
  OrgID : string;
  CredentialFile : string;
  BootstrapTokenFile : string;
  KubeconfigPath : string;
  InitialSPKIPins : list string;
  RedactionPolicyFile : string;
  InventoryConfigFile : string;
  LocalMaxPods : Z;
  MaxConcurrentJobs : Z;
  HeartbeatInterval : Duration;
  ResendInterval : Duration;
  LocalMaxEvents : Z;
  LocalMaxLogLines : Z;
  LocalMaxLogBytes : Z;
  AllowedNamespaces : option (gset string);
  EventRetention : Duration;
}.

(** The first problem, by the variable it names. *)
Inductive config_error :=
  | ConfigRequired (key : string)
  | ConfigHostPort (key : string)
  | ConfigRange (key : string) (ceiling : Z)
  | ConfigDuration (key : string)
  | ConfigTooManyNamespaces (key : string)
  | ConfigNotANamespace (key namespace : string)
  | ConfigNoNamespaces (key : string)
  | ConfigNotAPin (key : string)
  | ConfigNoPins (key : string).

Abbreviation environment := (string → option string).

(** ** The parsers *)

Definition required (lookup : environment) (key : string) : result config_error string :=
  match lookup key with
  | Some value => if (trim_space value =? "")%string then Err (ConfigRequired key) else Ok (trim_space value)
  | None => Err (ConfigRequired key)
  end.

(** [None] is an error. *)
Definition validateHostPort (address : string) : option unit :=
  '(host, port) ← SplitHostPort address;
  if (host =? "")%string || contains_byte "/" host then None
  else
    number ← Atoi port;
    if (number <? 1) || (65535 <? number) then None else Some tt.

Definition volumeCap (lookup : environment) (key : string) (ceiling fallback : Z) : result config_error Z :=
  match lookup key with
  | None => Ok fallback
  | Some value =>
      match ParseInt value 64 with
      | None => Err (ConfigRange key ceiling)
      | Some parsed => if (parsed <? 1) || (ceiling <? parsed) then Err (ConfigRange key ceiling) else Ok parsed
      end
  end.

Fixpoint namespaces_loop (key : string) (entries : list string) (allowed : gset string)
    : result config_error (gset string) :=
  match entries with
  | [] => Ok allowed
  | entry :: entries =>
      let namespace := trim_space entry in
      if (namespace =? "")%string then namespaces_loop key entries allowed
      else if (maxAllowedNamespaces <=? size allowed)%nat then Err (ConfigTooManyNamespaces key)
      else if negb (MatchString Identifier.dns1123Label namespace) || (63 <? slen namespace)%nat
      then Err (ConfigNotANamespace key namespace)
      else namespaces_loop key entries ({[ namespace ]} ∪ allowed)
  end.

Definition namespaces (lookup : environment) (key : string) : result config_error (option (gset string)) :=
  match lookup key with
  | None => Ok None
  | Some value =>
      if (trim_space value =? "")%string then Ok None
      else
        allowed ← namespaces_loop key (split_on "," value) ∅;
        if (size allowed =? 0)%nat then Err (ConfigNoNamespaces key) else Ok (Some allowed)
  end.

Definition interval (lookup : environment) (key : string) (fallback : Duration) : result config_error Duration :=
  match lookup key with
  | None => Ok fallback
  | Some value =>
      match ParseDuration value with
      | None => Err (ConfigDuration key)
      | Some parsed => if parsed <=? 0 then Err (ConfigDuration key) else Ok parsed
      end
  end.

Fixpoint pins_loop (key : string) (entries parsed : list string) : result config_error (list string) :=
  match entries with
  | [] => Ok parsed
  | entry :: entries =>
      let pin := trim_space entry in
      if (pin =? "")%string then pins_loop key entries parsed
      else
        match DecodeString pin with
        | None => Err (ConfigNotAPin key)
        | Some digest =>
            if negb (length digest =? 32)%nat then Err (ConfigNotAPin key)
            else pins_loop key entries (parsed ++ [pin])
        end
  end.

Definition pins (lookup : environment) (key : string) : result config_error (list string) :=
  match lookup key with
  | None => Ok []
  | Some value =>
      if (trim_space value =? "")%string then Ok []
      else
        parsed ← pins_loop key (split_on "," value) [];
        match parsed with [] => Err (ConfigNoPins key) | _ => Ok parsed end
  end.

Definition concurrentJobs (lookup : environment) (key : string) (fallback : Z) : result config_error Z :=
  match lookup key with
  | None => Ok fallback
  | Some value =>
      match ParseUint value 32 with
      | None => Err (ConfigRange key maxConcurrentJobsCap)
      | Some jobs => if (jobs <? 1) || (maxConcurrentJobsCap <? jobs)
                     then Err (ConfigRange key maxConcurrentJobsCap) else Ok jobs
      end
  end.

(** ** Load *)

Definition Load (lookup : environment) : result config_error Config :=
  address ← required lookup "RELAY_CONTROL_PLANE_ADDRESS";
  match validateHostPort address with
  | None => Err (ConfigHostPort "RELAY_CONTROL_PLANE_ADDRESS")
  | Some _ =>
      org ← required lookup "RELAY_ORG_ID";
      credential ← required lookup "RELAY_CREDENTIAL_FILE";
      pods ← volumeCap lookup "RELAY_LOCAL_MAX_PODS" maxLocalPods maxLocalPods;
      events ← volumeCap lookup "RELAY_LOCAL_MAX_EVENTS" maxLocalEvents maxLocalEvents;
      lines ← volumeCap lookup "RELAY_LOCAL_MAX_LOG_LINES" maxLocalLogLines maxLocalLogLines;
      bytes ← volumeCap lookup "RELAY_LOCAL_MAX_LOG_BYTES" maxLocalLogBytes maxLocalLogBytes;
      allowed ← namespaces lookup "RELAY_ALLOWED_NAMESPACES";
      retention ← interval lookup "RELAY_EVENT_RETENTION" Hour;
      jobs ← concurrentJobs lookup "RELAY_MAX_CONCURRENT_JOBS" 4;
      heartbeat ← interval lookup "RELAY_HEARTBEAT_INTERVAL" (15 * Second);
      resend ← interval lookup "RELAY_RESEND_INTERVAL" (10 * Second);
      initial ← pins lookup "RELAY_INITIAL_SPKI_PINS";
      Ok {| ControlPlaneAddress := address; OrgID := org; CredentialFile := credential;
            BootstrapTokenFile := default "" (lookup "RELAY_BOOTSTRAP_TOKEN_FILE");
            KubeconfigPath := default "" (lookup "RELAY_KUBECONFIG");
            InitialSPKIPins := initial;
            RedactionPolicyFile := default "" (lookup "RELAY_REDACTION_POLICY_FILE");
            InventoryConfigFile := default "" (lookup "RELAY_INVENTORY_CONFIG_FILE");
            LocalMaxPods := pods; MaxConcurrentJobs := jobs; HeartbeatInterval := heartbeat;
            ResendInterval := resend; LocalMaxEvents := events; LocalMaxLogLines := lines;
            LocalMaxLogBytes := bytes; AllowedNamespaces := allowed; EventRetention := retention |}
  end.

(** ** What is accepted *)

(** A variable that may be left out: its fallback, or a text that denotes the value. *)
Definition setting {A} (variable : option string) (fallback : A) (denotes : string → A → Prop) (v : A) : Prop :=
  match variable with None => v = fallback | Some text => denotes text v end.

Definition bounded_by (ceiling : Z) (text : string) (v : Z) : Prop := signed_decimal text v ∧ 1 ≤ v ≤ ceiling.
Definition positive_duration (text : string) (d : Duration) : Prop := ParseDuration text = Some d ∧ 0 < d.

(** The entries of a comma-separated list that are not blank. *)
Definition items (value : string) : list string :=
  filter (λ e, e ≠ "") (trim_space <$> split_on "," value).

Definition blank (variable : option string) : Prop := ∀ value, variable = Some value → trim_space value = "".

Record configured (lookup : environment) (cfg : Config) : Prop := {
  cf_address : ∃ value host port number,
    lookup "RELAY_CONTROL_PLANE_ADDRESS" = Some value ∧ ControlPlaneAddress cfg = trim_space value
    ∧ SplitHostPort (trim_space value) = Some (host, port) ∧ host ≠ "" ∧ contains_byte "/" host = false
    ∧ signed_decimal port number ∧ 1 ≤ number ≤ 65535;
  cf_org : ∃ value, lookup "RELAY_ORG_ID" = Some value ∧ OrgID cfg = trim_space value ∧ OrgID cfg ≠ "";
  cf_credential : ∃ value, lookup "RELAY_CREDENTIAL_FILE" = Some value
    ∧ CredentialFile cfg = trim_space value ∧ CredentialFile cfg ≠ "";
  cf_files : BootstrapTokenFile cfg = default "" (lookup "RELAY_BOOTSTRAP_TOKEN_FILE")
    ∧ KubeconfigPath cfg = default "" (lookup "RELAY_KUBECONFIG")
    ∧ RedactionPolicyFile cfg = default "" (lookup "RELAY_REDACTION_POLICY_FILE")
    ∧ InventoryConfigFile cfg = default "" (lookup "RELAY_INVENTORY_CONFIG_FILE");
  cf_pods : setting (lookup "RELAY_LOCAL_MAX_PODS") 50 (bounded_by 50) (LocalMaxPods cfg);
  cf_events : setting (lookup "RELAY_LOCAL_MAX_EVENTS") 200 (bounded_by 200) (LocalMaxEvents cfg);
  cf_lines : setting (lookup "RELAY_LOCAL_MAX_LOG_LINES") 2000 (bounded_by 2000) (LocalMaxLogLines cfg);
  cf_bytes : setting (lookup "RELAY_LOCAL_MAX_LOG_BYTES") 262144 (bounded_by 262144) (LocalMaxLogBytes cfg);
  cf_namespaces : match AllowedNamespaces cfg with
    | None => blank (lookup "RELAY_ALLOWED_NAMESPACES")
    | Some allowed => ∃ value, lookup "RELAY_ALLOWED_NAMESPACES" = Some value
        ∧ trim_space value ≠ "" ∧ items value ≠ []
        ∧ Forall (λ e, Identifier.ValidNamespace e = true) (items value)
        ∧ (∀ i e, items value !! i = Some e →
             (size (list_to_set (take i (items value)) : gset string) < 256)%nat)
        ∧ allowed = list_to_set (items value)
    end;
  cf_retention : setting (lookup "RELAY_EVENT_RETENTION") Hour positive_duration (EventRetention cfg);
  cf_jobs : setting (lookup "RELAY_MAX_CONCURRENT_JOBS") 4 (λ text v, decimal text v ∧ 1 ≤ v ≤ 64)
    (MaxConcurrentJobs cfg);
  cf_heartbeat : setting (lookup "RELAY_HEARTBEAT_INTERVAL") (15 * Second) positive_duration
    (HeartbeatInterval cfg);
  cf_resend : setting (lookup "RELAY_RESEND_INTERVAL") (10 * Second) positive_duration (ResendInterval cfg);
  cf_pins : match InitialSPKIPins cfg with
    | [] => blank (lookup "RELAY_INITIAL_SPKI_PINS")
    | pins => ∃ value, lookup "RELAY_INITIAL_SPKI_PINS" = Some value
        ∧ trim_space value ≠ "" ∧ pins = items value
        ∧ Forall valid_pin pins
    end;
}.

Lemma required_Ok lookup key v :
  required lookup key = Ok v ↔ ∃ value, lookup key = Some value ∧ v = trim_space value ∧ v ≠ "".
Proof.
  unfold required. destruct (lookup key) as [value|]; [|naive_solver].
  destruct (String.eqb_spec (trim_space value) "") as [E|E]; [|naive_solver].
  split; [done|]. by intros (? & [= <-] & -> & ?).
Qed.

Lemma validateHostPort_Some address :
  is_Some (validateHostPort address) ↔ ∃ host port number,
    SplitHostPort address = Some (host, port) ∧ host ≠ "" ∧ contains_byte "/" host = false
    ∧ signed_decimal port number ∧ 1 ≤ number ≤ 65535.
Proof.
  unfold validateHostPort, Atoi. destruct (SplitHostPort address) as [[host port]|]; cbn.
  2: { split; [by intros []|]. by intros (? & ? & ? & ? & _). }
  destruct (String.eqb_spec host "") as [->|Hne]; cbn.
  { split; [by intros []|]. intros (? & ? & ? & [= <- <-] & ? & _). done. }
  destruct (contains_byte "/" host) eqn:Ec.
  { split; [by intros []|]. intros (? & ? & ? & [= <- <-] & _ & ? & _). congruence. }
  split.
  - intros [[] H]. destruct (ParseInt port 64) as [n|] eqn:E; [|done]. cbn in H. case_match eqn:Er; [done|].
    bool_prop. apply ParseInt_Some in E as [? _]. exists host, port, n. repeat (split; [done|]). lia.
  - intros (? & ? & n & [= <- <-] & _ & _ & Hd & Hr).
    rewrite (proj2 (ParseInt_Some port n)) by (split; [done|lia]). cbn.
    rewrite (proj2 (Z.ltb_ge _ _)), (proj2 (Z.ltb_ge _ _)) by lia. by eexists.
Qed.

Lemma volumeCap_Ok lookup key ceiling fallback v :
  ceiling < 2 ^ 63 →
  volumeCap lookup key ceiling fallback = Ok v ↔ setting (lookup key) fallback (bounded_by ceiling) v.
Proof.
  intros Hc. unfold volumeCap, setting, bounded_by. destruct (lookup key) as [text|]; [|naive_solver].
  split.
  - destruct (ParseInt text 64) as [n|] eqn:E; [|done]. apply ParseInt_Some in E as [? _].
    case_match eqn:Er; [done|]. bool_prop. intros [= <-]. split; [done|lia].
  - intros [Hd Hr]. rewrite (proj2 (ParseInt_Some text v)) by (split; [done|lia]).
    rewrite (proj2 (Z.ltb_ge _ _)), (proj2 (Z.ltb_ge _ _)) by lia. done.
Qed.

Lemma concurrentJobs_Ok lookup key fallback v :
  concurrentJobs lookup key fallback = Ok v ↔
  setting (lookup key) fallback (λ text v, decimal text v ∧ 1 ≤ v ≤ 64) v.
Proof.
  unfold concurrentJobs, setting, maxConcurrentJobsCap. destruct (lookup key) as [text|]; [|naive_solver].
  split.
  - destruct (ParseUint text 32) as [n|] eqn:E; [|done]. apply ParseUint_Some in E as [? _]; [|lia].
    case_match eqn:Er; [done|]. bool_prop. intros [= <-]. split; [done|lia].
  - intros [Hd Hr]. rewrite (proj2 (ParseUint_Some text 32 v ltac:(lia))) by (split; [done|lia]).
    rewrite (proj2 (Z.ltb_ge _ _)), (proj2 (Z.ltb_ge _ _)) by lia. done.
Qed.

Lemma interval_Ok lookup key fallback v :
  interval lookup key fallback = Ok v ↔ setting (lookup key) fallback positive_duration v.
Proof.
  unfold interval, setting, positive_duration. destruct (lookup key) as [text|]; [|naive_solver].
  destruct (ParseDuration text) as [d|]; [|naive_solver]. destruct (Z.leb_spec d 0); split.
  - done.
  - intros [[= ->] ?]. lia.
  - intros [= ->]. split; [done|lia].
  - by intros [[= ->] ?].
Qed.

Lemma items_cons entry entries :
  filter (λ e, e ≠ "") (trim_space <$> entry :: entries)
  = (if (trim_space entry =? "")%string then [] else [trim_space entry])
    ++ filter (λ e, e ≠ "") (trim_space <$> entries).
Proof.
  rewrite fmap_cons, filter_cons. destruct (String.eqb_spec (trim_space entry) ""); [|by rewrite decide_True].
  by rewrite decide_False by auto.
Qed.

Lemma namespaces_entries_Ok key entries acc allowed :
  let es := filter (λ e, e ≠ "") (trim_space <$> entries) in
  namespaces_loop key entries acc = Ok allowed ↔
  Forall (λ e, Identifier.ValidNamespace e = true) es
  ∧ (∀ i e, es !! i = Some e → (size (acc ∪ list_to_set (take i es)) < 256)%nat)
  ∧ allowed = acc ∪ list_to_set es.
Proof.
  cbv zeta. revert acc. induction entries as [|entry entries IH]; intros acc.
  { cbn. rewrite (right_id_L ∅ (∪)). split; [intros [= <-]; split_and!; [constructor|done|done]|].
    by intros (_ & _ & ->). }
  cbn [namespaces_loop]. rewrite items_cons. destruct (String.eqb_spec (trim_space entry) "") as [E|E]; [apply IH|].
  cbn [app]. set (es := filter _ _) in *. rewrite Forall_cons, Identifier.ValidNamespace_match.
  assert (Hset : ∀ l, acc ∪ list_to_set (trim_space entry :: l) = {[ trim_space entry ]} ∪ acc ∪ list_to_set l).
  { intros l. rewrite list_to_set_cons. set_solver. }
  unfold maxAllowedNamespaces. destruct (Nat.leb_spec 256 (size acc)) as [Hs|Hs].
  { split; [done|]. intros (_ & H & _). specialize (H 0%nat _ eq_refl). cbn in H.
    rewrite (right_id_L ∅ (∪)) in H. lia. }
  destruct (negb _ || _) eqn:Ev.
  - split; [done|]. intros [[[H1 H2] _] _]. rewrite H1 in Ev. apply Nat.ltb_lt in Ev. lia.
  - bool_prop. rewrite IH, Hset. split; intros (H1 & H2 & ->).
    + split_and!; [done|lia|done| |done]. intros [|i] e He; cbn [take lookup list_lookup] in *.
      * cbn. by rewrite (right_id_L ∅ (∪)).
      * rewrite Hset. by eapply H2.
    + split_and!; [tauto| |done]. intros i e He. rewrite <- Hset. apply (H2 (S i) e He).
Qed.

Lemma namespaces_Ok lookup key o :
  namespaces lookup key = Ok o ↔
  match o with
  | None => blank (lookup key)
  | Some allowed => ∃ value, lookup key = Some value
      ∧ trim_space value ≠ "" ∧ items value ≠ []
      ∧ Forall (λ e, Identifier.ValidNamespace e = true) (items value)
      ∧ (∀ i e, items value !! i = Some e →
           (size (list_to_set (take i (items value)) : gset string) < 256)%nat)
      ∧ allowed = list_to_set (items value)
  end.
Proof.
  unfold namespaces, blank. destruct (lookup key) as [value|]; [|destruct o; naive_solver].
  destruct (String.eqb_spec (trim_space value) "") as [E|E]; [destruct o; naive_solver|].
  rewrite bind_Ok. setoid_rewrite namespaces_entries_Ok. fold (items value).
  setoid_rewrite (left_id_L ∅ (∪)). split.
  - intros (allowed & (H1 & H2 & ->) & H). destruct (Nat.eqb_spec (size (list_to_set (items value) : gset string)) 0) as [Hz|Hz]; [done|].
    injection H as <-. exists value. repeat (split; [done|]). split; [|done].
    intros En. rewrite En in Hz. by cbn in Hz.
  - destruct o as [allowed|]; [|intros H; by destruct E; apply H].
    intros (? & [= <-] & _ & Hne & H1 & H2 & ->). eexists. split; [split_and!; done|].
    destruct (Nat.eqb_spec (size (list_to_set (items value) : gset string)) 0) as [Hz|Hz]; [|done].
    exfalso. apply Hne. destruct (items value) as [|x l]; [done|]. exfalso.
    apply size_empty_inv in Hz. cbn in Hz. set_solver.
Qed.

Lemma pins_loop_Ok key entries acc parsed :
  let es := filter (λ e, e ≠ "") (trim_space <$> entries) in
  pins_loop key entries acc = Ok parsed ↔ Forall valid_pin es ∧ parsed = acc ++ es.
Proof.
  cbv zeta. revert acc. induction entries as [|entry entries IH]; intros acc.
  { cbn. rewrite app_nil_r. split; [intros [= <-]; auto|]. by intros (_ & ->). }
  cbn [pins_loop]. rewrite items_cons. destruct (String.eqb_spec (trim_space entry) "") as [E|E]; [apply IH|].
  cbn [app]. rewrite Forall_cons. unfold valid_pin at 1.
  destruct (DecodeString (trim_space entry)) as [digest|]; [|naive_solver].
  destruct (Nat.eqb_spec (length digest) 32) as [Hl|Hl]; cbn [negb]; [|naive_solver].
  rewrite IH, <- app_assoc. naive_solver.
Qed.

Lemma pins_Ok lookup key pins_ :
  pins lookup key = Ok pins_ ↔
  match pins_ with
  | [] => blank (lookup key)
  | _ => ∃ value, lookup key = Some value
      ∧ trim_space value ≠ "" ∧ pins_ = items value ∧ Forall valid_pin pins_
  end.
Proof.
  unfold pins, blank. destruct (lookup key) as [value|]; [|destruct pins_; naive_solver].
  destruct (String.eqb_spec (trim_space value) "") as [E|E]; [destruct pins_; naive_solver|].
  rewrite bind_Ok. setoid_rewrite pins_loop_Ok. fold (items value). cbn [app]. split.
  - intros (parsed & (H1 & ->) & H). destruct (items value) as [|x l] eqn:Ei; [done|]. injection H as <-.
    exists value. by rewrite Ei.
  - destruct pins_ as [|x l]; [intros H; by destruct E; apply H|].
    intros (? & [= <-] & _ & H1 & H2). exists (items value). by rewrite <- H1.
Qed.

Lemma Load_configured lookup cfg : Load lookup = Ok cfg ↔ configured lookup cfg.
Proof.
  unfold Load. rewrite bind_Ok. setoid_rewrite required_Ok. split.
  - intros (address & (value & Ev & -> & Hne) & H).
    destruct (validateHostPort (trim_space value)) as [[]|] eqn:Ea; [|done].
    destruct (proj1 (validateHostPort_Some _) (ex_intro _ _ Ea)) as (host & port & number & Ha).
    repeat (apply bind_Ok in H as (? & ?%required_Ok & H)).
    do 4 (apply bind_Ok in H as (? & Hcap & H); apply volumeCap_Ok in Hcap; [|done]; let H' := fresh in rename Hcap into H').
    apply bind_Ok in H as (? & ?%namespaces_Ok & H).
    apply bind_Ok in H as (? & ?%interval_Ok & H). apply bind_Ok in H as (? & ?%concurrentJobs_Ok & H).
    do 2 (apply bind_Ok in H as (? & ?%interval_Ok & H)). apply bind_Ok in H as (? & ?%pins_Ok & H).
    injection H as <-. split; cbn; [by exists value, host, port, number|done|done|by split_and!|done..|by case_match].
  - destruct cfg. intros [Ha Ho Hc Hf Hp He Hl Hb Hn Hr Hj Hh Hs Hi]. cbn in *.
    destruct Ha as (value & host & port & number & Ev & -> & Hsp & Ha). destruct Hf as (-> & -> & -> & ->).
    assert (Hv : is_Some (validateHostPort (trim_space value))).
    { apply validateHostPort_Some. by exists host, port, number. }
    exists (trim_space value). split.
    { exists value. split_and!; [done|done|]. intros E. by rewrite E in Hsp. }
    destruct Hv as [[] ->].
    rewrite (proj2 (required_Ok _ _ _) Ho). cbn. rewrite (proj2 (required_Ok _ _ _) Hc). cbn.
    rewrite (proj2 (volumeCap_Ok _ _ maxLocalPods maxLocalPods _ eq_refl) Hp). cbn.
    rewrite (proj2 (volumeCap_Ok _ _ maxLocalEvents maxLocalEvents _ eq_refl) He). cbn.
    rewrite (proj2 (volumeCap_Ok _ _ maxLocalLogLines maxLocalLogLines _ eq_refl) Hl). cbn.
    rewrite (proj2 (volumeCap_Ok _ _ maxLocalLogBytes maxLocalLogBytes _ eq_refl) Hb). cbn.
    rewrite (proj2 (namespaces_Ok _ _ _) Hn). cbn. rewrite (proj2 (interval_Ok _ _ _ _) Hr). cbn.
    rewrite (proj2 (concurrentJobs_Ok _ _ _ _) Hj). cbn. rewrite (proj2 (interval_Ok _ _ _ _) Hh). cbn.
    rewrite (proj2 (interval_Ok _ _ _ _) Hs). cbn. assert (Hi' : pins lookup "RELAY_INITIAL_SPKI_PINS" = Ok InitialSPKIPins0)
      by (apply pins_Ok; by destruct InitialSPKIPins0).
    by rewrite Hi'.
Qed.

(** C27: the configuration is accepted exactly when every variable says something the Relay can hold to,
    and is then what the variables say: an address of a bare host and a port, both identities, every
    volume cap within the capability's own maximum, at most 64 concurrent jobs, positive intervals, at
    most 256 namespaces that are all DNS-1123 labels, and pins that are all digests; a variable left out
    has its fallback. Anything else is refused. *)
Theorem Load_accepts lookup cfg : Load lookup = Ok cfg ↔ configured lookup cfg.
Proof. apply Load_configured. Qed.

Lemma setting_bounded ceiling variable v :
  1 ≤ ceiling → setting variable ceiling (bounded_by ceiling) v → 1 ≤ v ≤ ceiling.
Proof. unfold setting, bounded_by. destruct variable; [tauto|lia]. Qed.

Lemma setting_positive variable fallback v :
  0 < fallback → setting variable fallback positive_duration v → 0 < v.
Proof. unfold setting. destruct variable; [by intros _ []|by intros ? ->]. Qed.

(** What [Load] guarantees of the values alone, whatever the environment says. *)
Lemma Load_bounds lookup cfg :
  Load lookup = Ok cfg →
  1 ≤ LocalMaxPods cfg ≤ 50 ∧ 1 ≤ LocalMaxEvents cfg ≤ 200 ∧ 1 ≤ LocalMaxLogLines cfg ≤ 2000
  ∧ 1 ≤ LocalMaxLogBytes cfg ≤ 262144 ∧ 1 ≤ MaxConcurrentJobs cfg ≤ 64
  ∧ 0 < EventRetention cfg ∧ 0 < HeartbeatInterval cfg ∧ 0 < ResendInterval cfg
  ∧ Forall valid_pin (InitialSPKIPins cfg) ∧ AllowedNamespaces cfg ≠ Some ∅.
Proof.
  intros [_ _ _ _ Hp He Hl Hb Hn Hr Hj Hh Hs Hi]%Load_configured.
  apply setting_bounded in Hp, He, Hl, Hb; [|done..]. apply setting_positive in Hr, Hh, Hs; [|done..].
  do 4 (split; [done|]). split; [unfold setting in Hj; destruct (lookup "RELAY_MAX_CONCURRENT_JOBS"); lia|]. do 3 (split; [done|]). split.
  - destruct (InitialSPKIPins cfg); [constructor|]. by destruct Hi as (? & _ & _ & _ & ?).
  - destruct (AllowedNamespaces cfg) as [a|]; [|done]. destruct Hn as (? & _ & _ & Hne & _ & _ & ->).
    intros [= E]. apply Hne. destruct (items _) as [|e l]; [done|]. cbn in E. set_solver.
Qed.

Lemma allowed_named lookup cfg allowed :
  Load lookup = Ok cfg → AllowedNamespaces cfg = Some allowed → "" ∉ allowed.
Proof.
  intros [_ _ _ _ _ _ _ _ Hn _ _ _ _ _]%Load_configured Ha. rewrite Ha in Hn.
  destruct Hn as (value & _ & _ & _ & _ & _ & ->). rewrite elem_of_list_to_set. unfold items.
  by intros [? _]%list_elem_of_filter.
Qed.

Definition sample_environment : environment := λ key,
  if (key =? "RELAY_CONTROL_PLANE_ADDRESS")%string then Some " cp.example.com:443 "
  else if (key =? "RELAY_ORG_ID")%string then Some "org"
  else if (key =? "RELAY_CREDENTIAL_FILE")%string then Some "/var/lib/relay/credential.json"
  else if (key =? "RELAY_ALLOWED_NAMESPACES")%string then Some "prod, ,dev,prod"
  else if (key =? "RELAY_LOCAL_MAX_PODS")%string then Some "+7"
  else if (key =? "RELAY_HEARTBEAT_INTERVAL")%string then Some "1m30s"
  else None.

Example sample_load :
  is_ok (Load sample_environment) = true
  ∧ (ControlPlaneAddress <$> Load sample_environment) = Ok "cp.example.com:443"
  ∧ (AllowedNamespaces <$> Load sample_environment) = Ok (Some {[ "prod"; "dev" ]})
  ∧ (LocalMaxPods <$> Load sample_environment) = Ok 7
  ∧ (HeartbeatInterval <$> Load sample_environment) = Ok (90 * Second).
Proof. by vm_compute. Qed.
