(* ===== verification/Transport.v ===== *)
(** * Key-pinned transport credentials (internal/transport/pinned.go)

    A TLS configuration is the fields the code sets. Its [VerifyPeerCertificate] decides every handshake;
    a configuration without one leaves the decision to standard WebPKI verification. The DER parser is a
    parameter: from a certificate's bytes, those of its SubjectPublicKeyInfo. *)

From S2P Require Import Prelude GoString Sha256 Encoding.
From stdpp Require Import options.

Inductive pin_error :=
  | NoPins
  | NotADigest (index : nat).

Inductive handshake_error := NoCertificate | LeafUnparseable | NoPinMatches.

Inductive tls_version := TLS12.

Record tls_config := {
  ServerName : string;
  MinVersion : tls_version;
  InsecureSkipVerify : bool;
  VerifyPeerCertificate : option (list string → result handshake_error unit);
}.

Fixpoint decodePins_loop (pins : list string) (digests : list (list Z)) : result pin_error (list (list Z)) :=
  match pins with
  | [] => Ok digests
  | pin :: pins =>
      match DecodeString pin with
      | None => Err (NotADigest (length digests))
      | Some raw =>
          if negb (length raw =? 32) then Err (NotADigest (length digests))
          else decodePins_loop pins (digests ++ [raw])
      end
  end.

Definition decodePins (pins : list string) : result pin_error (list (list Z)) :=
  match pins with [] => Err NoPins | _ => decodePins_loop pins [] end.

Lemma decodePins_loop_Ok pins acc digests :
  decodePins_loop pins acc = Ok digests ↔
  Forall valid_pin pins ∧ digests = acc ++ omap DecodeString pins.
Proof.
  revert acc. induction pins as [|pin pins IH]; intros acc; cbn [decodePins_loop omap list_omap].
  - rewrite app_nil_r. split; [by intros [= <-]|by intros [_ ->]].
  - rewrite Forall_cons. unfold valid_pin at 1. destruct (DecodeString pin) as [raw|]; [|naive_solver].
    destruct (Nat.eqb_spec (length raw) 32); cbn [negb]; [|naive_solver].
    rewrite IH, <- app_assoc. naive_solver.
Qed.

Lemma decodePins_Ok pins digests :
  decodePins pins = Ok digests ↔ pins ≠ [] ∧ Forall valid_pin pins ∧ digests = omap DecodeString pins.
Proof.
  unfold decodePins. destruct pins as [|pin pins]; [naive_solver|].
  rewrite decodePins_loop_Ok. naive_solver.
Qed.

Section transport.
Context (parse : string → option string).

Definition verify (digests : list (list Z)) (rawCerts : list string) : result handshake_error unit :=
  match rawCerts with
  | [] => Err NoCertificate
  | leaf :: _ =>
      match parse leaf with
      | None => Err LeafUnparseable
      | Some spki =>
          let presented := Sum256 spki in
          if existsb (λ pinned, bool_decide (presented = pinned)) digests then Ok tt else Err NoPinMatches
      end
  end.

Definition pinnedTLSConfig (serverName : string) (pins : list string) : result pin_error tls_config :=
  digests ← decodePins pins;
  Ok {| ServerName := serverName; MinVersion := TLS12; InsecureSkipVerify := true;
        VerifyPeerCertificate := Some (verify digests) |}.

(** [NewPinnedCredentials] and [NewSystemCredentials], as the configurations gRPC is given. *)
Definition NewPinnedCredentials := pinnedTLSConfig.

Definition NewSystemCredentials (serverName : string) : tls_config :=
  {| ServerName := serverName; MinVersion := TLS12; InsecureSkipVerify := false;
     VerifyPeerCertificate := None |}.

(** Whether a handshake presenting these certificates is accepted; [webpki] is the standard verification
    the flag [InsecureSkipVerify] turns off. *)
Definition accepts (webpki : string → list string → bool) (c : tls_config) (rawCerts : list string) : bool :=
  (InsecureSkipVerify c || webpki (ServerName c) rawCerts)
  && match VerifyPeerCertificate c with Some f => is_ok (f rawCerts) | None => true end.

(** ** Properties *)

Lemma verify_Ok digests rawCerts :
  verify digests rawCerts = Ok tt ↔
  ∃ leaf rest spki, rawCerts = leaf :: rest ∧ parse leaf = Some spki ∧ Sum256 spki ∈ digests.
Proof.
  unfold verify. destruct rawCerts as [|leaf rest]; [naive_solver|].
  destruct (parse leaf) as [spki|] eqn:E; [|naive_solver].
  destruct (existsb _ _) eqn:Ex.
  - apply existsb_exists in Ex as (d & Hd & <-%bool_decide_eq_true). split; [|done]. intros _.
    exists leaf, rest, spki. split_and!; [done|done|by apply list_elem_of_In].
  - split; [done|]. intros (? & ? & s & [= <- <-] & Hs & Hin). exfalso.
    assert (s = spki) as -> by congruence. apply not_true_iff_false in Ex. apply Ex, existsb_exists.
    exists (Sum256 spki). split; [by apply list_elem_of_In|by apply bool_decide_eq_true].
Qed.

Lemma pinned_credentials serverName pins c :
  NewPinnedCredentials serverName pins = Ok c ↔
  pins ≠ [] ∧ Forall valid_pin pins
  ∧ c = {| ServerName := serverName; MinVersion := TLS12; InsecureSkipVerify := true;
           VerifyPeerCertificate := Some (verify (omap DecodeString pins)) |}.
Proof.
  unfold NewPinnedCredentials, pinnedTLSConfig. rewrite bind_Ok. setoid_rewrite decodePins_Ok. naive_solver.
Qed.

(** C30: the pin is the trust decision, and the whole of it. Credentials are built exactly from a
    non-empty list of well-formed pins; they then accept a handshake precisely when the key of the leaf
    certificate hashes to one of the pins, whatever the rest of the chain is and whatever WebPKI would
    have said, so neither a stolen certificate authority nor an unverified one makes a difference. *)
Theorem pinned_exact webpki serverName pins c rawCerts :
  NewPinnedCredentials serverName pins = Ok c →
  pins ≠ [] ∧ Forall valid_pin pins
  ∧ (accepts webpki c rawCerts = true ↔
     ∃ leaf rest spki pin, rawCerts = leaf :: rest ∧ parse leaf = Some spki
       ∧ pin ∈ pins ∧ DecodeString pin = Some (Sum256 spki)).
Proof.
  intros (Hne & Hv & ->)%pinned_credentials. do 2 (split; [done|]). unfold accepts. cbn.
  assert (Hok : ∀ r : result handshake_error unit, is_ok r = true ↔ r = Ok tt)
    by (intros [[]|]; cbn; naive_solver).
  rewrite Hok, verify_Ok. setoid_rewrite list_elem_of_omap. naive_solver.
Qed.
End transport.

(** The digest of [sha256("abc")], and a parser that reads the key off the certificate. *)
Definition sample_pin : string := "ungWv48Bz+pBQUDeXa4iI7ADYaOWF3qctBD/YfIAFa0=".

Lemma pinned_exact_witness :
  ∃ c, NewPinnedCredentials Some "cp" [sample_pin] = Ok c
    ∧ accepts (λ _ _, false) c ["abc"; "intermediate"] = true
    ∧ accepts (λ _ _, true) c ["abd"; "abc"] = false.
Proof.
  eexists. split; [reflexivity|]. split.
  - apply (pinned_exact Some (λ _ _, false) "cp" [sample_pin] _ ["abc"; "intermediate"] eq_refl).
    exists "abc", ["intermediate"], "abc", sample_pin.
    split_and!; [done|done|by apply list_elem_of_singleton|by vm_compute].
  - by vm_compute.
Defined.
