(* ===== verification/AuditTrail.v ===== *)
(** * The audit decorator (internal/audit/executor.go)

    [Execute] runs the executor it wraps, stamps the duration on the result and writes one line to the
    log. The log is part of the world, reached through [emit]; [size] is [proto.Size]. *)

From S2P Require Import Prelude GoString GoTime Wire Execution.
From stdpp Require Import pretty options.
Local Open Scope Z_scope.

Record audit_line := {
  au_job_id : string;
  au_capability : string;
  au_lease_epoch : Z;
  au_outcome : string;
  au_result_bytes : Z;
  au_duration_ms : Z;
}.

(** The enum's [String]. *)
Definition kind_name (k : FailureKind) : string :=
  match k with
  | KIND_UNSPECIFIED => "KIND_UNSPECIFIED"
  | KIND_TIMEOUT => "KIND_TIMEOUT"
  | KIND_CANCELLED => "KIND_CANCELLED"
  | KIND_UNSUPPORTED_CAPABILITY_VERSION => "KIND_UNSUPPORTED_CAPABILITY_VERSION"
  | KIND_ARGUMENTS_REJECTED => "KIND_ARGUMENTS_REJECTED"
  | KIND_RESULT_TOO_LARGE => "KIND_RESULT_TOO_LARGE"
  | KIND_IDENTITY_MISMATCH => "KIND_IDENTITY_MISMATCH"
  | KIND_LOCAL_POLICY_REFUSED => "KIND_LOCAL_POLICY_REFUSED"
  | KIND_INTERNAL => "KIND_INTERNAL"
  end.

Definition GetFailure (r : JobResult) : option FailureKind :=
  match jr_Outcome r with Some (Outcome_Failure k) => Some k | _ => None end.

Definition outcomeLabel (result : option JobResult) : string :=
  match result with
  | None => "none"
  | Some r => match GetFailure r with Some k => kind_name k | None => "result" end
  end.

(** [Duration.Milliseconds] *)
Definition Milliseconds (d : Duration) : Z := Z.quot d 1000000.

Definition with_duration (ms : Z) (r : JobResult) : JobResult :=
  {| jr_JobId := jr_JobId r; jr_LeaseEpoch := jr_LeaseEpoch r; jr_Outcome := jr_Outcome r;
     jr_ExecutionDurationMs := ms |}.

Section audit.
Context {W : Type} (now : W → Time) (emit : audit_line → W → W) (size : option JobResult → Z).

Definition line_for (job : JobAssignment) (result : option JobResult) (duration : Duration) : audit_line :=
  {| au_job_id := ja_JobId job;
     au_capability := ja_CapabilityId job +:+ ".v" +:+ pretty (ja_CapabilityVersion job);
     au_lease_epoch := ja_LeaseEpoch job; au_outcome := outcomeLabel result;
     au_result_bytes := size result; au_duration_ms := Milliseconds duration |}.

(** [Executor.Execute] *)
Definition Execute (inner : Executor W) : Executor W := λ ctx job w,
  let start := now w in
  let '(result, w) := inner ctx job w in
  let duration := now w - start in
  let result := with_duration (Milliseconds duration) <$> result in
  (result, emit (line_for job result duration) w).

#[global] Instance audit_echoes inner : Echoes inner → Echoes (Execute inner).
Proof.
  intros He ctx job w. unfold Execute. destruct (He ctx job w) as (r & w' & -> & Hj & Hl).
  cbn. by eexists _, _.
Qed.

(** The ledger describes what is handed on: the line of a job is written once, about the very result
    that leaves, and depends on its payload through its size and its kind alone. *)
Lemma Execute_accounts inner ctx job w r w' :
  Execute inner ctx job w = (r, w') →
  ∃ r0 w1, inner ctx job w = (r0, w1)
    ∧ r = with_duration (Milliseconds (now w1 - now w)) <$> r0
    ∧ w' = emit (line_for job r (now w1 - now w)) w1.
Proof.
  unfold Execute. destruct (inner ctx job w) as [r0 w1]. intros [= <- <-]. by exists r0, w1.
Qed.
End audit.
