(* ===== verification/Json.v ===== *)
(** * JSON texts (Go's encoding/json)

    What the credential file needs of it: [quote] is how [json.Marshal] writes a string, [value] the
    parser behind [json.Unmarshal]. Strings are unquoted as Go does: an escape that is half of a
    surrogate pair and a byte that is not UTF-8 both become U+FFFD. *)

From S2P Require Import Prelude GoString Utf8 GoTime Decimal Encoding.
From Stdlib Require Import Ascii.
From Stdlib Require String.
From stdpp Require Import options.
Local Open Scope Z_scope.

Definition char (z : Z) : string := String (chr z) "".
Definition dquote : Z := 34.
Definition backslash : Z := 92.

(** ** Writing *)

Definition hex (x : Z) : Z := if x <? 10 then 48 + x else 87 + x.

(** A four-digit escape. *)
Definition u_escape (r : rune) : string :=
  char backslash +:+ "u" +:+ char (hex (r / 4096)) +:+ char (hex (r / 256 mod 16))
  +:+ char (hex (r / 16 mod 16)) +:+ char (hex (r mod 16)).

(** The escapes of one character; every other control character takes the long form. *)
Definition short_escape (r : rune) : option Z :=
  if (r =? dquote) || (r =? backslash) then Some r
  else if r =? 8 then Some 98 else if r =? 12 then Some 102 else if r =? 10 then Some 110
  else if r =? 13 then Some 114 else if r =? 9 then Some 116 else None.

(** Characters HTML would read, the line separators and control characters are escaped too. *)
Definition escape (p : rune * string) : string :=
  let '(r, bytes) := p in
  match short_escape r with
  | Some c => char backslash +:+ char c
  | None =>
      if (r <? 32) || (r =? 60) || (r =? 62) || (r =? 38) || (r =? 0x2028) || (r =? 0x2029)
         || ((r =? RuneError) && (slen bytes =? 1)%nat)
      then u_escape r else bytes
  end.

Definition quote (s : string) : string :=
  char dquote +:+ str_concat (escape <$> decode s) +:+ char dquote.

(** ** Reading strings *)

Definition unhex (a : ascii) : option Z :=
  let c := byte a in
  if (48 <=? c) && (c <=? 57) then Some (c - 48)
  else if (97 <=? c) && (c <=? 102) then Some (c - 87)
  else if (65 <=? c) && (c <=? 70) then Some (c - 55)
  else None.

Definition u4 (s : string) : option (Z * string) :=
  match s with
  | String a (String b (String c (String d t))) =>
      a ← unhex a; b ← unhex b; c ← unhex c; d ← unhex d;
      Some (((a * 16 + b) * 16 + c) * 16 + d, t)
  | _ => None
  end.

Definition escaped_u4 (s : string) : option (Z * string) :=
  match s with
  | String a (String u t) => if (byte a =? backslash) && (byte u =? 117) then u4 t else None
  | _ => None
  end.

(** [utf16.IsSurrogate] and [utf16.DecodeRune] *)
Definition is_surrogate (r : rune) : bool := (0xD800 <=? r) && (r <? 0xE000).
Definition decode_pair (r1 r2 : rune) : option rune :=
  if (0xD800 <=? r1) && (r1 <? 0xDC00) && (0xDC00 <=? r2) && (r2 <? 0xE000)
  then Some ((r1 - 0xD800) * 1024 + (r2 - 0xDC00) + 0x10000) else None.

Definition unescape (a : ascii) : option Z :=
  let c := byte a in
  if (c =? dquote) || (c =? backslash) || (c =? 47) then Some c
  else if c =? 98 then Some 8 else if c =? 102 then Some 12 else if c =? 110 then Some 10
  else if c =? 114 then Some 13 else if c =? 116 then Some 9 else None.

Definition prepend (p : string) (o : option (string * string)) : option (string * string) :=
  '(s, rest) ← o; Some (p +:+ s, rest).

(** The rest of a string after its opening quote: the text it denotes and what follows its closing
    quote. Every round consumes a byte. *)
Fixpoint string_body (fuel : nat) (s : string) : option (string * string) :=
  match fuel with
  | O => None
  | S n =>
      match s with
      | "" => None
      | String a t =>
          if byte a =? dquote then Some ("", t)
          else if byte a =? backslash then
            match t with
            | "" => None
            | String e u =>
                match unescape e with
                | Some c => prepend (char c) (string_body n u)
                | None =>
                    if byte e =? 117 then
                      '(r, u1) ← u4 u;
                      if is_surrogate r then
                        match escaped_u4 u1 ≫= λ '(r2, u2), r' ← decode_pair r r2; Some (r', u2) with
                        | Some (r', u2) => prepend (encode_rune r') (string_body n u2)
                        | None => prepend (encode_rune RuneError) (string_body n u1)
                        end
                      else prepend (encode_rune r) (string_body n u1)
                    else None
                end
            end
          else if byte a <? 32 then None
          else let '(r, w) := decode_first s in prepend (encode_rune r) (string_body n (str_drop w s))
      end
  end.

(** ** Reading values *)

Inductive json :=
  | JNull
  | JBool (b : bool)
  | JNumber (text : string)
  | JString (s : string)
  | JArray (l : list json)
  | JObject (l : list (string * json)).

Fixpoint skip_blank (s : string) : string :=
  match s with
  | String a t =>
      let c := byte a in
      if (c =? 32) || (c =? 9) || (c =? 13) || (c =? 10) then skip_blank t else s
  | "" => s
  end.

(** What follows this text, if it is there. *)
Definition after (p s : string) : option string :=
  if String.prefix p s then Some (str_drop (slen p) s) else None.

Definition digits_of (s : string) : string * string :=
  let '(ds, rest) := leading_digits s in (str_take (length ds) s, rest).

(** The number at the front: sign, integer part without a leading zero, fraction, exponent. *)
Definition number (s : string) : option (string * string) :=
  let '(sign, s1) := match after "-" s with Some t => ("-", t) | None => ("", s) end in
  let '(whole, s2) :=
    match after "0" s1 with Some t => ("0", t) | None => digits_of s1 end in
  if (whole =? "")%string then None else
  '(frac, s3) ←
    match after "." s2 with
    | Some t => let '(ds, t) := digits_of t in if (ds =? "")%string then None else Some ("." +:+ ds, t)
    | None => Some ("", s2)
    end;
  '(expo, s4) ←
    match s3 with
    | String e t =>
        if (byte e =? 101) || (byte e =? 69) then
          let '(sg, t) := match after "+" t with
                          | Some t => ("+", t)
                          | None => match after "-" t with Some t => ("-", t) | None => ("", t) end
                          end in
          let '(ds, t) := digits_of t in
          if (ds =? "")%string then None else Some (String e "" +:+ sg +:+ ds, t)
        else Some ("", s3)
    | "" => Some ("", s3)
    end;
  Some (sign +:+ whole +:+ frac +:+ expo, s4).

Definition maxNestingDepth : Z := 10000.

(** A byte justifies at most two of these calls, so twice the length of the text is enough fuel
    ([value_fuel]). *)
Fixpoint value (fuel : nat) (depth : Z) (s : string) : option (json * string) :=
  match fuel with
  | O => None
  | S n =>
      let s := skip_blank s in
      match s with
      | "" => None
      | String a t =>
          let c := byte a in
          if c =? 123 then
            if maxNestingDepth <? depth + 1 then None else
            match after "}" (skip_blank t) with
            | Some rest => Some (JObject [], rest)
            | None => '(l, rest) ← members n (depth + 1) t; Some (JObject l, rest)
            end
          else if c =? 91 then
            if maxNestingDepth <? depth + 1 then None else
            match after "]" (skip_blank t) with
            | Some rest => Some (JArray [], rest)
            | None => '(l, rest) ← elements n (depth + 1) t; Some (JArray l, rest)
            end
          else if c =? dquote then '(x, rest) ← string_body (S (slen t)) t; Some (JString x, rest)
          else if c =? 116 then rest ← after "true" s; Some (JBool true, rest)
          else if c =? 102 then rest ← after "false" s; Some (JBool false, rest)
          else if c =? 110 then rest ← after "null" s; Some (JNull, rest)
          else '(x, rest) ← number s; Some (JNumber x, rest)
      end
  end
with elements (fuel : nat) (depth : Z) (s : string) : option (list json * string) :=
  match fuel with
  | O => None
  | S n =>
      '(v, s) ← value n depth s;
      let s := skip_blank s in
      match after "," s with
      | Some s => '(l, rest) ← elements n depth s; Some (v :: l, rest)
      | None => rest ← after "]" s; Some ([v], rest)
      end
  end
with members (fuel : nat) (depth : Z) (s : string) : option (list (string * json) * string) :=
  match fuel with
  | O => None
  | S n =>
      s ← after (char dquote) (skip_blank s);
      '(key, s) ← string_body (S (slen s)) s;
      s ← after ":" (skip_blank s);
      '(v, s) ← value n depth s;
      let s := skip_blank s in
      match after "," s with
      | Some s => '(l, rest) ← members n depth s; Some ((key, v) :: l, rest)
      | None => rest ← after "}" s; Some ([(key, v)], rest)
      end
  end.

Definition parse (s : string) : option json :=
  '(v, rest) ← value (2 * slen s + 2) 0 s;
  if (skip_blank rest =? "")%string then Some v else None.

(** ** The fuel is enough

    A round of [string_body] consumes a byte; a value consumes one before its elements or members are
    read, which start with a value at the same place. *)

Lemma bind_same {A B} (m : option A) (f g : A → option B) : (∀ x, m = Some x → f x = g x) → m ≫= f = m ≫= g.
Proof. destruct m; cbn; auto. Qed.

Lemma u4_shorter s r t : u4 s = Some (r, t) → (slen t < slen s)%nat.
Proof.
  unfold u4. do 4 (destruct s as [|? s]; [done|]). intros H. simplify_option_eq. cbn. lia.
Qed.

Lemma escaped_u4_shorter s r t : escaped_u4 s = Some (r, t) → (slen t < slen s)%nat.
Proof.
  unfold escaped_u4. do 2 (destruct s as [|? s]; [done|]). case_match; [|done]. intros ?%u4_shorter. cbn. lia.
Qed.

Lemma skip_blank_shorter s : (slen (skip_blank s) ≤ slen s)%nat.
Proof. induction s as [|a s IH]; [done|]. cbn. case_match; cbn; lia. Qed.

Lemma after_Some p s t : after p s = Some t → s = p +:+ t.
Proof.
  unfold after. destruct (String.prefix p s) eqn:E; [|done]. intros [= <-].
  revert s E. induction p as [|a p IH]; intros s E; [done|]. destruct s as [|b s]; [done|]. cbn in E.
  destruct (ascii_dec a b) as [->|]; [|done]. cbn [slen]. change (String b p +:+ ?x) with (String b (p +:+ x)).
  f_equal. by apply IH.
Qed.

Lemma digits_of_split s ds rest : digits_of s = (ds, rest) → s = ds +:+ rest.
Proof.
  unfold digits_of. destruct (leading_digits s) as [l r] eqn:E. intros [= <- <-]. revert l r E.
  induction s as [|a s IH]; intros l r E; cbn in E; [by injection E as <- <-|].
  destruct (digit a) as [d|]; [|by injection E as <- <-].
  destruct (leading_digits s) as [l' r'] eqn:E'. injection E as <- <-. cbn [length str_take].
  change (String ?x ?y +:+ ?z) with (String x (y +:+ z)). f_equal. by apply IH.
Qed.

(** A number is the text it was read from. *)
Lemma number_split s x rest : number s = Some (x, rest) → s = x +:+ rest ∧ x ≠ "".
Proof.
  unfold number. destruct (match after "-" s with Some t => ("-", t) | None => ("", s) end) as [sign s1] eqn:E1.
  assert (s = sign +:+ s1) as ->.
  { destruct (after "-" s) eqn:Ea; injection E1 as <- <-; [by apply after_Some in Ea|done]. }
  destruct (match after "0" s1 with Some t => ("0", t) | None => digits_of s1 end) as [whole s2] eqn:E2.
  assert (s1 = whole +:+ s2) as ->.
  { destruct (after "0" s1) eqn:Ea; [|by apply digits_of_split]. injection E2 as <- <-. by apply after_Some in Ea. }
  destruct (String.eqb_spec whole "") as [|Hw]; [done|]. intros H.
  apply bind_Some in H as ([frac s3] & Hf & H). apply bind_Some in H as ([expo s4] & He & [= <- <-]).
  assert (s2 = frac +:+ s3) as ->.
  { destruct (after "." s2) as [t|] eqn:Ea; [|by injection Hf as <- <-]. apply after_Some in Ea as ->.
    destruct (digits_of t) as [ds t'] eqn:Ed. apply digits_of_split in Ed as ->.
    destruct (String.eqb_spec ds ""); [done|]. injection Hf as <- <-. by rewrite <- str_app_assoc. }
  assert (s3 = expo +:+ s4) as ->.
  { destruct s3 as [|e t]; [by injection He as <- <-|]. destruct (_ || _); [|by injection He as <- <-].
    destruct (match after "+" t with Some t => ("+", t)
              | None => match after "-" t with Some t => ("-", t) | None => ("", t) end end) as [sg t1] eqn:Es.
    assert (t = sg +:+ t1) as ->.
    { destruct (after "+" t) eqn:Ea; [injection Es as <- <-; by apply after_Some in Ea|].
      destruct (after "-" t) eqn:Eb; injection Es as <- <-; [by apply after_Some in Eb|done]. }
    destruct (digits_of t1) as [ds t2] eqn:Ed. apply digits_of_split in Ed as ->.
    destruct (String.eqb_spec ds ""); [done|]. injection He as <- <-. by rewrite <- !str_app_assoc. }
  split; [by rewrite <- !str_app_assoc|]. intros E. apply (f_equal slen) in E. rewrite !slen_app in E.
  destruct whole; [done|]. cbn in E. lia.
Qed.

Lemma prepend_Some p o x rest : prepend p o = Some (x, rest) → ∃ y, o = Some (y, rest).
Proof. unfold prepend. destruct o as [[y r]|]; [|done]. intros [= _ <-]. by exists y. Qed.

Lemma string_body_shorter n s x rest : string_body n s = Some (x, rest) → (slen rest < slen s)%nat.
Proof.
  revert s x rest. induction n as [|n IH]; intros s x rest; [done|]. cbn [string_body].
  destruct s as [|a t]; [done|]. case_match; [intros [= _ <-]; cbn; lia|]. case_match.
  - destruct t as [|e u]; [done|]. case_match; [intros (y & ?%IH)%prepend_Some; cbn; lia|]. case_match; [|done].
    intros H'. apply bind_Some in H' as ([r u1] & Hu & H'). apply u4_shorter in Hu.
    revert H'. case_match; [|intros (y & ?%IH)%prepend_Some; cbn; lia].
    destruct (escaped_u4 u1 ≫= _) as [[r' u2]|] eqn:E; [|intros (y & ?%IH)%prepend_Some; cbn; lia].
    apply bind_Some in E as ([r2 u3] & Hu3%escaped_u4_shorter & E). apply bind_Some in E as (? & _ & [= _ <-]).
    intros (y & ?%IH)%prepend_Some. cbn. lia.
  - case_match; [done|]. pose proof (decode_first_width (String a t) ltac:(done)) as Hw.
    destruct (decode_first (String a t)) as [r w]. intros (y & Hy%IH)%prepend_Some. rewrite slen_drop in Hy.
    cbn [snd] in Hw. lia.
Qed.

Lemma string_body_fuel n m s : (slen s < n)%nat → (slen s < m)%nat → string_body n s = string_body m s.
Proof.
  revert m s. induction n as [|n IH]; intros [|m] s Hn Hm; try lia. cbn [string_body].
  destruct s as [|a t]; [done|]. cbn [slen] in Hn, Hm. case_match; [done|]. case_match.
  - destruct t as [|e u]; [done|]. cbn [slen] in Hn, Hm. case_match; [f_equal; apply IH; lia|]. case_match; [|done].
    apply bind_same. intros [r u1] Hu%u4_shorter. case_match; [|f_equal; apply IH; lia].
    destruct (escaped_u4 u1 ≫= _) as [[r' u2]|] eqn:E; [|f_equal; apply IH; lia].
    apply bind_Some in E as ([r2 u3] & Hu3%escaped_u4_shorter & E). apply bind_Some in E as (? & _ & [= _ <-]).
    f_equal. apply IH; lia.
  - case_match; [done|]. pose proof (decode_first_width (String a t) ltac:(done)) as Hw.
    destruct (decode_first (String a t)) as [r w]. cbn [snd] in Hw. f_equal. apply IH; rewrite slen_drop; cbn; lia.
Qed.

Lemma after_shorter p s t : after p s = Some t → (slen s = slen p + slen t)%nat.
Proof. intros ->%after_Some. apply slen_app. Qed.

Lemma value_shorter n :
  (∀ d s v rest, value n d s = Some (v, rest) → slen rest < slen s)%nat
  ∧ (∀ d s l rest, elements n d s = Some (l, rest) → slen rest < slen s)%nat
  ∧ (∀ d s l rest, members n d s = Some (l, rest) → slen rest < slen s)%nat.
Proof.
  induction n as [|n (IHv & IHe & IHm)]; [done|]. split_and!; intros d s v rest; cbn [value elements members].
  - pose proof (skip_blank_shorter s) as Hs. destruct (skip_blank s) as [|a t]; [done|]. cbn [slen] in Hs.
    pose proof (skip_blank_shorter t) as Ht.
    repeat (case_match; [try case_match; try done|]).
    all: try (intros [= _ <-]; repeat match goal with H : after _ _ = Some _ |- _ => apply after_shorter in H end; lia).
    all: intros H'; apply bind_Some in H' as (p & Hp & H'); try destruct p as [x r]; injection H' as _ <-.
    all: first [apply IHm in Hp | apply IHe in Hp | apply string_body_shorter in Hp | apply after_shorter in Hp
               | apply number_split in Hp as [E Hx]; apply (f_equal slen) in E; rewrite slen_app in E; destruct x];
         try done; cbn [slen] in *; lia.
  - intros H. apply bind_Some in H as ([x s1] & Hv%IHv & H). pose proof (skip_blank_shorter s1).
    destruct (after "," (skip_blank s1)) as [s2|] eqn:Ea.
    + apply after_shorter in Ea. apply bind_Some in H as ([y r] & Hl%IHe & [= _ <-]). lia.
    + apply bind_Some in H as (r & Hr%after_shorter & [= _ <-]). lia.
  - pose proof (skip_blank_shorter s) as Hs. intros H. apply bind_Some in H as (s1 & H1%after_shorter & H).
    apply bind_Some in H as ([key s2] & H2%string_body_shorter & H). pose proof (skip_blank_shorter s2).
    apply bind_Some in H as (s3 & H3%after_shorter & H). apply bind_Some in H as ([x s4] & Hv%IHv & H).
    pose proof (skip_blank_shorter s4). destruct (after "," (skip_blank s4)) as [s5|] eqn:Ea.
    + apply after_shorter in Ea. apply bind_Some in H as ([y r] & Hl%IHm & [= _ <-]). lia.
    + apply bind_Some in H as (r & Hr%after_shorter & [= _ <-]). lia.
Qed.

Lemma value_fuel' n :
  (∀ m d s, 2 * slen s < n → 2 * slen s < m → value n d s = value m d s)%nat
  ∧ (∀ m d s, 2 * slen s + 1 < n → 2 * slen s + 1 < m → elements n d s = elements m d s)%nat
  ∧ (∀ m d s, 2 * slen s + 1 < n → 2 * slen s + 1 < m → members n d s = members m d s)%nat.
Proof.
  induction n as [|n (IHv & IHe & IHm)]; [split_and!; lia|].
  split_and!; intros [|m] d s Hn Hm; try lia; cbn [value elements members].
  - pose proof (skip_blank_shorter s) as Hs. destruct (skip_blank s) as [|a t]; [done|]. cbn [slen] in Hs.
    case_match; [|case_match; [|done]]; (case_match; [done|]; case_match; [done|]);
      [rewrite (IHm m) by lia|rewrite (IHe m) by lia]; done.
  - rewrite (IHv m) by lia. apply bind_same. intros [v s1] Hv%value_shorter.
    pose proof (skip_blank_shorter s1). destruct (after "," (skip_blank s1)) as [s2|] eqn:Ea; [|done].
    apply after_shorter in Ea. cbn in Ea. by rewrite (IHe m) by lia.
  - pose proof (skip_blank_shorter s). apply bind_same. intros s1 H1%after_shorter. cbn in H1.
    apply bind_same. intros [key s2] H2%string_body_shorter. pose proof (skip_blank_shorter s2).
    apply bind_same. intros s3 H3%after_shorter. cbn in H3. rewrite (IHv m) by lia.
    apply bind_same. intros [v s4] Hv%value_shorter. pose proof (skip_blank_shorter s4).
    destruct (after "," (skip_blank s4)) as [s5|] eqn:Ea; [|done].
    apply after_shorter in Ea. cbn in Ea. by rewrite (IHm m) by lia.
Qed.

(** More fuel than [parse] takes changes nothing. *)
Lemma value_fuel extra d s : value (2 * slen s + 2 + extra) d s = value (2 * slen s + 2) d s.
Proof. apply value_fuel'; lia. Qed.

(** ** Reading back what was written *)

Lemma unhex_hex x : 0 ≤ x < 16 → unhex (chr (hex x)) = Some x.
Proof.
  intros Hx. unfold unhex, hex. destruct (Z.ltb_spec x 10); rewrite byte_chr by lia; decide_z; cbn [andb]; f_equal; lia.
Qed.

Lemma char_app z s : char z +:+ s = String (chr z) s.
Proof. done. Qed.

Lemma u4_escape r s : 0 ≤ r < 65536 →
  u4 (char (hex (r / 4096)) +:+ char (hex (r / 256 mod 16)) +:+ char (hex (r / 16 mod 16))
      +:+ char (hex (r mod 16)) +:+ s) = Some (r, s).
Proof.
  intros Hr. rewrite !char_app. unfold u4.
  rewrite !unhex_hex by (Z.to_euclidean_division_equations; lia). cbn [mbind option_bind].
  do 2 f_equal. Z.to_euclidean_division_equations; lia.
Qed.

Lemma encode_rune_first r : valid_rune r = true →
  ∃ a t, encode_rune r = String a t ∧ (r < 0x80 → a = chr r ∧ t = "") ∧ (0x80 ≤ r → 0x80 ≤ byte a).
Proof.
  intros Hr%valid_rune_spec. unfold encode_rune.
  destruct (decide (r < 0x80)); [|destruct (decide (r < 0x800)); [|destruct (decide (r < 0x10000))]].
  all: assert (valid_rune r = true) as -> by (by apply valid_rune_spec); decide_z; cbn [andb].
  all: eexists _, _; split; [reflexivity|]; split; [intros; try done; lia|intros; try lia].
  all: rewrite byte_chr by (Z.to_euclidean_division_equations; lia); Z.to_euclidean_division_equations; lia.
Qed.

Lemma slen_encode_rune_error : slen (encode_rune RuneError) = 3%nat.
Proof. reflexivity. Qed.

Lemma string_body_escape n r s : valid_rune r = true →
  string_body (S n) (escape (r, encode_rune r) +:+ s) = prepend (encode_rune r) (string_body n s).
Proof.
  intros Hr. destruct (encode_rune_first r Hr) as (a & t & Ea & Hlow & Hhigh). unfold escape.
  destruct (short_escape r) as [c|] eqn:Es.
  - assert (Hc : r = 34 ∧ c = 34 ∨ r = 92 ∧ c = 92 ∨ r = 8 ∧ c = 98 ∨ r = 12 ∧ c = 102 ∨ r = 10 ∧ c = 110
      ∨ r = 13 ∧ c = 114 ∨ r = 9 ∧ c = 116).
    { revert Es. unfold short_escape, dquote, backslash.
      repeat (case_match; bool_prop; [intros [= <-]; lia|]). done. }
    destruct_or?; destruct_and?; subst; reflexivity.
  - destruct (_ || _) eqn:El.
    + assert (Hl : 0 ≤ r < 32 ∨ r = 60 ∨ r = 62 ∨ r = 38 ∨ r = 0x2028 ∨ r = 0x2029).
      { apply orb_true_iff in El as [El | [Er Hlen]%andb_true_iff].
        - apply valid_rune_spec in Hr. bool_prop. lia.
        - apply Z.eqb_eq in Er as ->. by rewrite slen_encode_rune_error in Hlen. }
      unfold u_escape. rewrite <- !str_app_assoc, char_app. cbn [string_body].
      change (byte (chr backslash) =? dquote) with false. change (byte (chr backslash) =? backslash) with true.
      cbv iota. change (unescape "u") with (@None Z). cbv iota. change (byte "u" =? 117) with true. cbv iota.
      change ("u" +:+ ?x) with (String "u" x). cbv iota.
      rewrite (u4_escape r s) by lia.
      cbn [mbind option_bind]. unfold is_surrogate.
      rewrite (proj2 (andb_false_iff _ _)); [done|]. left. apply Z.leb_gt. lia.
    + assert (Hn : r ≠ dquote ∧ r ≠ backslash ∧ 32 ≤ r).
      { revert Es. unfold short_escape. destruct ((r =? dquote) || _) eqn:E1; [done|]. intros _.
        apply orb_false_iff in E1 as [?%Z.eqb_neq ?%Z.eqb_neq]. repeat (apply orb_false_iff in El as [El _]).
        apply Z.ltb_ge in El. done. }
      rewrite Ea. change (String a t +:+ s) with (String a (t +:+ s)). cbn [string_body].
      assert (Hb : byte a ≠ dquote ∧ byte a ≠ backslash ∧ 32 ≤ byte a).
      { unfold dquote, backslash in *. apply valid_rune_spec in Hr. destruct (decide (r < 0x80)) as [Hlt|Hge].
        - destruct (Hlow Hlt) as [-> _]. rewrite byte_chr by lia. lia.
        - pose proof (Hhigh ltac:(lia)). lia. }
      destruct Hb as (H1 & H2 & H3).
      rewrite (proj2 (Z.eqb_neq _ _) H1), (proj2 (Z.eqb_neq _ _) H2), (proj2 (Z.ltb_ge _ _) H3).
      change (String a (t +:+ s)) with (String a t +:+ s). rewrite <- Ea, decode_first_encode by done.
      by rewrite str_drop_app.
Qed.

Lemma string_body_quote rs s fuel :
  Forall (λ r, valid_rune r = true) rs → (length rs < fuel)%nat →
  string_body fuel (str_concat ((λ r, escape (r, encode_rune r)) <$> rs) +:+ char dquote +:+ s)
  = Some (encode_runes rs, s).
Proof.
  intros Hrs. revert fuel. induction Hrs as [|r rs Hr Hrs IH]; intros [|fuel] Hf; cbn [length] in Hf; try lia.
  - done.
  - rewrite fmap_cons, str_concat_cons, <- str_app_assoc, string_body_escape by done.
    rewrite IH by lia. done.
Qed.

Lemma escape_nonempty p : p.2 ≠ "" → escape p ≠ "".
Proof. destruct p as [r c]. cbn. intros Hc. unfold escape. by repeat case_match. Qed.

Lemma valid_runes s : valid_utf8 s = true →
  ∃ rs, s = encode_runes rs ∧ Forall (λ r, valid_rune r = true) rs ∧ decode s = (λ r, (r, encode_rune r)) <$> rs.
Proof.
  intros Hs%String.eqb_eq. exists (runes s). split; [done|]. split; [apply runes_valid|].
  rewrite <- Hs at 1. apply decode_encode, runes_valid.
Qed.

(** A quoted text, read back from behind its opening quote. *)
Lemma string_body_quoted s rest fuel : valid_utf8 s = true →
  (slen (str_concat (escape <$> decode s)) < fuel)%nat →
  string_body fuel (str_concat (escape <$> decode s) +:+ char dquote +:+ rest) = Some (s, rest).
Proof.
  intros (rs & -> & Hrs & ->)%valid_runes. rewrite <- list_fmap_compose. intros Hf.
  apply string_body_quote; [done|]. revert Hf. generalize fuel. clear -Hrs. induction Hrs as [|r rs Hr _ IH];
    intros fuel Hf; [cbn in *; lia|].
  rewrite fmap_cons, str_concat_cons, slen_app in Hf. cbn [length].
  assert (slen (escape (r, encode_rune r)) ≠ O).
  { pose proof (escape_nonempty (r, encode_rune r) (encode_rune_nonempty r)).
    unfold compose. by destruct (escape _). }
  unfold compose in Hf. specialize (IH (fuel - 1)%nat). unfold compose in IH. lia.
Qed.

(** ** The texts around it *)

Lemma prefix_app p s : String.prefix p (p +:+ s) = true.
Proof.
  induction p as [|a p IH]; [by destruct s|]. change (String a p +:+ s) with (String a (p +:+ s)).
  cbn [String.prefix]. by destruct (ascii_dec a a).
Qed.

Lemma after_app p s : after p (p +:+ s) = Some s.
Proof. unfold after. by rewrite prefix_app, str_drop_app. Qed.

Lemma quote_app s rest : quote s +:+ rest = String (chr dquote) (str_concat (escape <$> decode s) +:+ char dquote +:+ rest).
Proof. unfold quote. by rewrite <- !str_app_assoc, char_app. Qed.

(** A quoted text is a value, whatever follows it. *)
Lemma value_quote n d s rest : valid_utf8 s = true → value (S n) d (quote s +:+ rest) = Some (JString s, rest).
Proof.
  intros Hs. rewrite quote_app. cbn [value]. change (skip_blank (String (chr dquote) ?x)) with (String (chr dquote) x).
  cbv iota. change (byte (chr dquote)) with dquote. change (dquote =? 123) with false.
  change (dquote =? 91) with false. rewrite Z.eqb_refl. cbv iota.
  rewrite string_body_quoted; [done|done|]. rewrite slen_app. lia.
Qed.

(** One element, and one member, with what follows. *)
Lemma elements_cons n d s v text l rest :
  value n d s = Some (v, "," +:+ text) → elements n d text = Some (l, rest) →
  elements (S n) d s = Some (v :: l, rest).
Proof.
  intros Hv Hl. cbn [elements]. rewrite Hv. cbn [mbind option_bind].
  change (skip_blank ("," +:+ text)) with ("," +:+ text). cbv zeta. by rewrite after_app, Hl.
Qed.

Lemma elements_last n d s v rest : value n d s = Some (v, "]" +:+ rest) → elements (S n) d s = Some ([v], rest).
Proof.
  intros Hv. cbn [elements]. rewrite Hv. cbn [mbind option_bind].
  change (skip_blank ("]" +:+ rest)) with ("]" +:+ rest). cbv zeta.
  change (after "," ("]" +:+ rest)) with (@None string). by rewrite after_app.
Qed.

Lemma members_key n d key s : valid_utf8 key = true →
  members (S n) d (quote key +:+ ":" +:+ s) =
  ('(v, s) ← value n d s;
   let s := skip_blank s in
   match after "," s with
   | Some s => '(l, rest) ← members n d s; Some ((key, v) :: l, rest)
   | None => rest ← after "}" s; Some ([(key, v)], rest)
   end).
Proof.
  intros Hk. rewrite quote_app. cbn [members].
  change (skip_blank (String (chr dquote) ?x)) with (char dquote +:+ x). rewrite after_app. cbn [mbind option_bind].
  rewrite string_body_quoted; [|done|rewrite slen_app; lia]. cbn [mbind option_bind].
  change (skip_blank (":" +:+ s)) with (":" +:+ s). by rewrite after_app.
Qed.

Lemma members_cons n d key s v text l rest : valid_utf8 key = true →
  value n d s = Some (v, "," +:+ text) → members n d text = Some (l, rest) →
  members (S n) d (quote key +:+ ":" +:+ s) = Some ((key, v) :: l, rest).
Proof.
  intros Hk Hv Hl. rewrite members_key, Hv by done. cbn [mbind option_bind].
  change (skip_blank ("," +:+ text)) with ("," +:+ text). cbv zeta. rewrite after_app, Hl. done.
Qed.

Lemma members_last n d key s v rest : valid_utf8 key = true →
  value n d s = Some (v, "}" +:+ rest) → members (S n) d (quote key +:+ ":" +:+ s) = Some ([(key, v)], rest).
Proof.
  intros Hk Hv. rewrite members_key, Hv by done. cbn [mbind option_bind].
  change (skip_blank ("}" +:+ rest)) with ("}" +:+ rest). cbv zeta.
  change (after "," ("}" +:+ rest)) with (@None string). by rewrite after_app.
Qed.

(** ** Unsigned numbers *)

Lemma digits_digit_text ds : Forall (λ d, 0 ≤ d < 10) ds → digits (digit_text ds) = Some ds.
Proof.
  induction 1 as [|d ds Hd _ IH]; [done|]. rewrite digit_text_cons. apply digits_cons. exists d, ds.
  by rewrite digit_chr.
Qed.

Lemma ParseUint_FormatUint n : 0 ≤ n < 2 ^ 64 → ParseUint (FormatUint n) 64 = Some n.
Proof.
  intros Hn. apply ParseUint_Some; [lia|]. split; [|lia].
  destruct (uint_digits_spec 20 n) as (H1 & H2 & d & ds & H3 & _); [|lia|].
  { change (10 ^ Z.of_nat 20) with 100000000000000000000. lia. }
  split; [unfold FormatUint; by rewrite H3|]. exists (uint_digits 20 n).
  split; [by apply digits_digit_text|done].
Qed.

Lemma value_FormatUint n fuel d s : 0 ≤ n < 2 ^ 64 →
  value (S fuel) d (FormatUint n +:+ "}" +:+ s) = Some (JNumber (FormatUint n), "}" +:+ s).
Proof.
  intros Hn. destruct (uint_digits_spec 20 n) as (H1 & _ & x & ds & H3 & H4); [|lia|].
  { change (10 ^ Z.of_nat 20) with 100000000000000000000. lia. }
  assert (Hx : 0 ≤ x < 10) by (rewrite H3 in H1; by inv H1).
  assert (Hnum : number (FormatUint n +:+ "}" +:+ s) = Some (FormatUint n, "}" +:+ s)).
  { unfold FormatUint. rewrite H3. unfold number.
    assert (after "-" (digit_text (x :: ds) +:+ "}" +:+ s) = None) as ->.
    { rewrite digit_text_cons. unfold after. change (String ?a ?t +:+ ?u) with (String a (t +:+ u)).
      cbn [String.prefix].
      destruct (ascii_dec "-" (chr (48 + x))) as [E|]; [|done].
      apply (f_equal byte) in E. rewrite byte_chr in E by lia. change (byte "-") with 45 in E. lia. }
    destruct (decide (x = 0)) as [->|Hne].
    - destruct (H4 eq_refl) as [_ ->]. done.
    - assert (after "0" (digit_text (x :: ds) +:+ "}" +:+ s) = None) as ->.
      { rewrite digit_text_cons. unfold after. change (String ?a ?t +:+ ?u) with (String a (t +:+ u)).
      cbn [String.prefix].
        destruct (ascii_dec "0" (chr (48 + x))) as [E|]; [|done].
        apply (f_equal byte) in E. rewrite byte_chr in E by lia. change (byte "0") with 48 in E. lia. }
      unfold digits_of. rewrite <- H3, leading_digits_text by done. cbn [fst snd].
      rewrite <- (slen_digit_text (uint_digits 20 n)), str_take_app, H3, digit_text_cons.
      change (String _ _ =? "")%string with false. cbv iota.
      change (after "." ("}" +:+ s)) with (@None string). cbn [mbind option_bind].
      change ("}" +:+ s) with (String "}" s). cbv iota. change ((byte "}" =? 101) || (byte "}" =? 69)) with false.
      cbv iota. cbn [mbind option_bind]. change ("" +:+ ?u) with u. by rewrite !str_app_nil_r. }
  cbn [value]. revert Hnum. unfold FormatUint. rewrite H3, digit_text_cons.
  change (String ?a ?t +:+ ?u) with (String a (t +:+ u)). intros Hnum.
  assert (Hb : byte (chr (48 + x)) = 48 + x) by (apply byte_chr; lia).
  cbn [skip_blank]. rewrite Hb. unfold dquote.
  assert (He : ∀ y, y < 48 ∨ 57 < y → (48 + x =? y) = false) by (intros; apply Z.eqb_neq; lia).
  rewrite !He by lia. cbn [orb]. rewrite Hb, !He by lia. by rewrite Hnum.
Qed.
