(* ===== verification/Identity.v ===== *)
(** * The durable identity (internal/identity/identity.go, enroll.go)

    The credential, the contract a store has to keep ([StoreOk]), first-run enrollment and the load at
    every later start. The registration client is a parameter: it answers a request that travels with
    call metadata. *)

From S2P Require Import Prelude GoString Wire.
From stdpp Require Import pretty options.
Local Open Scope Z_scope.

(** ** identity.go *)

Record Credential := {
  OrgID : string;
  RegistrationID : string;
  Secret : string;
  SPKIPins : list string;
  ProtocolVersion : Z;
}.

Definition credential_String (c : Credential) : string :=
  "identity.Credential{org=" +:+ OrgID c +:+ " registration=" +:+ RegistrationID c
  +:+ " secret=[REDACTED] pins=" +:+ pretty (length (SPKIPins c)) +:+ "}".

(** What a store's [Load] can fail with: nothing stored, or a fault. *)
Inductive store_error :=
  | NotFound
  | StoreFault (message : string).

Record Store (W : Type) := {
  st_Load : W → result store_error Credential * W;
  st_Save : Credential → W → result string unit * W;
}.
Arguments st_Load {W}.
Arguments st_Save {W}.

(** What a store promises for the credentials it can hold: a saved one is loaded again, a failed save
    keeps what was there, and loading changes nothing. *)
Class StoreOk {W} (s : Store W) (storable : Credential → Prop) : Prop := {
  store_saved c w w' : storable c → st_Save s c w = (Ok tt, w') → (st_Load s w').1 = Ok c;
  store_refused c w e w' : st_Save s c w = (Err e, w') → (st_Load s w').1 = (st_Load s w).1;
}.

Inductive identity_error :=
  | BootstrapRequired
  | StorageForbidden (cause : string)
  | EnrollmentRefused
  | RegisterFailed (message : string)
  | LoadFailed (cause : store_error).

(** ** enroll.go *)

Definition BootstrapTokenMetadataKey : string := "opencluster-bootstrap-token".
Definition OrgIDMetadataKey : string := "opencluster-org-id".

Record EnrollmentParams := {
  ep_OrgID : string;
  ep_ProtocolVersion : Z;
  ep_RelayVersion : string;
  ep_ClusterFingerprint : string;
  ep_Capabilities : list CapabilityDescriptor;
}.

Inductive Code := FailedPrecondition | Unauthenticated | PermissionDenied | OtherCode (n : Z).

Record status := { st_Code : Code; st_Message : string }.

Definition refusal_code (c : Code) : bool :=
  match c with FailedPrecondition | Unauthenticated | PermissionDenied => true | OtherCode _ => false end.

Definition metadata : Type := list (string * string).

(** The generated client's one call. *)
Definition Register_client (W : Type) : Type :=
  metadata → RegisterRequest → W → result status RegisterResponse * W.

Definition register_request (p : EnrollmentParams) : RegisterRequest :=
  {| rq_ProtocolVersion := ep_ProtocolVersion p; rq_RelayVersion := ep_RelayVersion p;
     rq_ClusterFingerprint := ep_ClusterFingerprint p; rq_Capabilities := ep_Capabilities p |}.

Definition credential_of (r : RegisterResponse) : Credential :=
  {| OrgID := rp_OrgId r; RegistrationID := rp_RegistrationId r; Secret := rp_Credential r;
     SPKIPins := rp_SpkiPins r; ProtocolVersion := rp_ProtocolVersion r |}.

Section enroll.
Context {W : Type} (register : Register_client W) (store : Store W).

Definition call_metadata (bootstrapToken : string) (p : EnrollmentParams) : metadata :=
  [(BootstrapTokenMetadataKey, bootstrapToken); (OrgIDMetadataKey, ep_OrgID p)].

Definition Enroll (bootstrapToken : string) (params : EnrollmentParams) (w : W)
    : result identity_error Credential * W :=
  match register (call_metadata bootstrapToken params) (register_request params) w with
  | (Err st, w) =>
      (Err (if refusal_code (st_Code st) then EnrollmentRefused else RegisterFailed (st_Message st)), w)
  | (Ok response, w) =>
      if negb (rp_OrgId response =? ep_OrgID params)%string then (Err EnrollmentRefused, w)
      else
        let credential := credential_of response in
        match st_Save store credential w with
        | (Err cause, w) => (Err (StorageForbidden cause), w)
        | (Ok _, w) => (Ok credential, w)
        end
  end.

Definition LoadOnStart (w : W) : result identity_error Credential * W :=
  match st_Load store w with
  | (Ok credential, w) => (Ok credential, w)
  | (Err NotFound, w) => (Err BootstrapRequired, w)
  | (Err (StoreFault m), w) => (Err (LoadFailed (StoreFault m)), w)
  end.

Lemma LoadOnStart_result w :
  (LoadOnStart w).1 = match (st_Load store w).1 with
                      | Ok c => Ok c
                      | Err NotFound => Err BootstrapRequired
                      | Err (StoreFault m) => Err (LoadFailed (StoreFault m))
                      end.
Proof. unfold LoadOnStart. by destruct (st_Load store w) as [[?|[]] ?]. Qed.

(** C29: enrollment is all or nothing. Over a store that keeps its promise, and a registration call that
    leaves the store alone: an enrollment that succeeds has presented the token in the call's metadata,
    was answered under the organization it claimed, and returns exactly the credential the next start
    loads; one that fails, whether refused, misbound, unreachable or not storable, leaves the next start
    finding what this one found, and a misbound credential is never saved at all. *)
Theorem Enroll_all_or_nothing storable `{!StoreOk store storable} token params w r w' :
  (∀ md rq w, (st_Load store (register md rq w).2).1 = (st_Load store w).1) →
  Enroll token params w = (r, w') →
  match r with
  | Ok c => ∃ response w1,
      register [(BootstrapTokenMetadataKey, token); (OrgIDMetadataKey, ep_OrgID params)]
        (register_request params) w = (Ok response, w1)
      ∧ c = credential_of response ∧ OrgID c = ep_OrgID params
      ∧ st_Save store c w1 = (Ok tt, w')
      ∧ (storable c → (LoadOnStart w').1 = Ok c)
  | Err e => (LoadOnStart w').1 = (LoadOnStart w).1
      ∧ (e = EnrollmentRefused → w' = (register (call_metadata token params) (register_request params) w).2)
  end.
Proof.
  intros Hreg. unfold Enroll. pose proof (Hreg (call_metadata token params) (register_request params) w) as Hl.
  destruct (register _ _ w) as [[response|st] w1] eqn:Er; cbn in Hl.
  2: { intros [= <- <-]. by rewrite !LoadOnStart_result, Hl. }
  destruct (String.eqb_spec (rp_OrgId response) (ep_OrgID params)) as [Eo|Eo]; cbn [negb].
  2: { intros [= <- <-]. by rewrite !LoadOnStart_result, Hl. }
  destruct (st_Save store (credential_of response) w1) as [[[]|cause] w2] eqn:Es; intros [= <- <-].
  - exists response, w1. split_and!; try done. intros Hs. by rewrite LoadOnStart_result, (store_saved _ _ _ Hs Es).
  - by rewrite !LoadOnStart_result, (store_refused _ _ _ _ Es), Hl.
Qed.
End enroll.

(** Printing a credential does not depend on its secret. *)
Lemma String_redacts org reg secret secret' pins v :
  credential_String {| OrgID := org; RegistrationID := reg; Secret := secret; SPKIPins := pins; ProtocolVersion := v |}
  = credential_String {| OrgID := org; RegistrationID := reg; Secret := secret'; SPKIPins := pins; ProtocolVersion := v |}.
Proof. done. Qed.

(** ** A concrete enrollment, into a store in memory *)

Definition memory_store : Store (option Credential) :=
  {| st_Load w := (match w with Some c => Ok c | None => Err NotFound end, w);
     st_Save c _ := (Ok tt, Some c) |}.

#[export] Instance memory_store_ok : StoreOk memory_store (λ _, True).
Proof. split; cbn; [by intros c w w' _ [= <-]|done]. Qed.

Definition sample_response : RegisterResponse :=
  {| rp_OrgId := "org"; rp_RegistrationId := "42"; rp_Credential := "secret"; rp_SpkiPins := ["p"];
     rp_ProtocolVersion := 1 |}.
Definition sample_register : Register_client (option Credential) := λ _ _ w, (Ok sample_response, w).
Definition sample_params (org : string) : EnrollmentParams :=
  {| ep_OrgID := org; ep_ProtocolVersion := 1; ep_RelayVersion := "dev"; ep_ClusterFingerprint := "uid";
     ep_Capabilities := [] |}.

Lemma Enroll_all_or_nothing_witness :
  (∃ c, Enroll sample_register memory_store "token" (sample_params "org") None = (Ok c, Some c)
     ∧ (LoadOnStart memory_store (Some c)).1 = Ok c)
  ∧ (LoadOnStart memory_store (Enroll sample_register memory_store "token" (sample_params "other") None).2).1
    = Err BootstrapRequired.
Proof.
  split.
  - exists (credential_of sample_response). split; [reflexivity|].
    destruct (Enroll_all_or_nothing sample_register memory_store (λ _, True) "token" (sample_params "org") None
      (Ok (credential_of sample_response)) (Some (credential_of sample_response)))
      as (response & w1 & _ & _ & _ & _ & H); [done|reflexivity|]. by apply H.
  - destruct (Enroll_all_or_nothing sample_register memory_store (λ _, True) "token" (sample_params "other") None
      (Err EnrollmentRefused) None) as [H _]; [done|reflexivity|]. exact H.
Defined.
