(* ===== verification/FileStore.v ===== *)
(** * The credential file (internal/identity/filestore.go)

    [Module Codec] is the JSON the file holds, [Module Disk] the file operations the code makes, over a
    file system in which a crash loses what was not synchronized, and the rest is the store: [Load],
    [Save] with every operation allowed to fail, and what is on disk at each of its steps. *)

From S2P Require Import Prelude GoString Utf8 Encoding Decimal Json Identity.
From Stdlib Require Import Ascii.
From Stdlib Require String.
From stdpp Require Import options.
Local Open Scope Z_scope.

(** ** The file's content *)
Module Codec.

(** [json.Marshal(storedCredential(c))]: an empty pin list is left out. *)
Definition field (name text : string) : string := quote name +:+ ":" +:+ text.

Definition pin_array (pins : list string) : string := "[" +:+ join "," (quote <$> pins) +:+ "]".

Definition Marshal (c : Credential) : string :=
  "{" +:+ field "org_id" (quote (OrgID c)) +:+ ","
  +:+ field "registration_id" (quote (RegistrationID c)) +:+ ","
  +:+ field "secret" (quote (Secret c)) +:+ ","
  +:+ match SPKIPins c with [] => "" | pins => field "spki_pins" (pin_array pins) +:+ "," end
  +:+ field "protocol_version" (FormatUint (ProtocolVersion c)) +:+ "}".

(** A key matches a field when they are equal but for case, the long s and the Kelvin sign included. *)
Definition fold_rune (r : rune) : rune :=
  if (97 <=? r) && (r <=? 122) then r - 32
  else if r =? 0x17F then 83 else if r =? 0x212A then 75 else r.
Definition matches (key name : string) : bool :=
  bool_decide (fold_rune <$> runes key = fold_rune <$> runes name).

Definition into_string (old : string) (v : json) : option string :=
  match v with JNull => Some old | JString s => Some s | _ => None end.

Definition into_uint32 (old : Z) (v : json) : option Z :=
  match v with
  | JNull => Some old
  | JNumber text => n ← ParseUint text 64; if n <? 2 ^ 32 then Some n else None
  | _ => None
  end.

(** Decoding into a slice reuses its array: a null element leaves what the array held. *)
Fixpoint into_elements (backing : list string) (l : list json) : option (list string) :=
  match l with
  | [] => Some []
  | v :: l => s ← into_string (default "" (head backing)) v; cons s <$> into_elements (tail backing) l
  end.

(** The credential so far, and the array behind its pins. *)
Definition decoding : Type := Credential * list string.

Definition into_pins (backing : list string) (v : json) : option (list string * list string) :=
  match v with
  | JNull => Some ([], [])
  | JArray [] => Some ([], [])
  | JArray l => pins ← into_elements backing l; Some (pins, pins ++ drop (length pins) backing)
  | _ => None
  end.

Definition zero_credential : Credential :=
  {| OrgID := ""; RegistrationID := ""; Secret := ""; SPKIPins := []; ProtocolVersion := 0 |}.

Definition into_member (st : decoding) (m : string * json) : option decoding :=
  let '(c, backing) := st in
  let '(key, v) := m in
  if matches key "org_id" then
    s ← into_string (OrgID c) v;
    Some ({| OrgID := s; RegistrationID := RegistrationID c; Secret := Secret c; SPKIPins := SPKIPins c;
             ProtocolVersion := ProtocolVersion c |}, backing)
  else if matches key "registration_id" then
    s ← into_string (RegistrationID c) v;
    Some ({| OrgID := OrgID c; RegistrationID := s; Secret := Secret c; SPKIPins := SPKIPins c;
             ProtocolVersion := ProtocolVersion c |}, backing)
  else if matches key "secret" then
    s ← into_string (Secret c) v;
    Some ({| OrgID := OrgID c; RegistrationID := RegistrationID c; Secret := s; SPKIPins := SPKIPins c;
             ProtocolVersion := ProtocolVersion c |}, backing)
  else if matches key "spki_pins" then
    '(pins, backing) ← into_pins backing v;
    Some ({| OrgID := OrgID c; RegistrationID := RegistrationID c; Secret := Secret c; SPKIPins := pins;
             ProtocolVersion := ProtocolVersion c |}, backing)
  else if matches key "protocol_version" then
    n ← into_uint32 (ProtocolVersion c) v;
    Some ({| OrgID := OrgID c; RegistrationID := RegistrationID c; Secret := Secret c;
             SPKIPins := SPKIPins c; ProtocolVersion := n |}, backing)
  else Some st.

Definition into_members (st : decoding) (l : list (string * json)) : option decoding :=
  foldl (λ o m, st ← o; into_member st m) (Some st) l.

(** [json.Unmarshal(raw, &stored)] on a zero value; a mismatch anywhere fails the whole. *)
Definition Unmarshal (raw : string) : option Credential :=
  v ← parse raw;
  match v with
  | JNull => Some zero_credential
  | JObject l => fst <$> into_members (zero_credential, []) l
  | _ => None
  end.

(** What a proto3 message can carry: valid text, an unsigned 32-bit version. *)
Definition well_formed (c : Credential) : Prop :=
  valid_utf8 (OrgID c) = true ∧ valid_utf8 (RegistrationID c) = true ∧ valid_utf8 (Secret c) = true
  ∧ Forall (λ p, valid_utf8 p = true) (SPKIPins c) ∧ 0 ≤ ProtocolVersion c < 2 ^ 32.

Lemma slen_quote x : (2 ≤ slen (quote x))%nat.
Proof. unfold quote. rewrite !slen_app. change (slen (char dquote)) with 1%nat. lia. Qed.

Lemma slen_join (l : list string) : Forall (λ x, 1 ≤ slen x)%nat l → (length l ≤ slen (join "," l))%nat.
Proof.
  induction 1 as [|x l Hx Hl IH]; [done|]. destruct l as [|y l]; [cbn in *; lia|].
  rewrite join_cons_cons, !slen_app. cbn [length] in *. lia.
Qed.

Lemma elements_quoted pins fuel d rest : pins ≠ [] → Forall (λ p, valid_utf8 p = true) pins →
  (length pins < fuel)%nat →
  elements fuel d (join "," (quote <$> pins) +:+ "]" +:+ rest) = Some (JString <$> pins, rest).
Proof.
  intros Hne Hv. revert fuel. induction Hv as [|p pins Hp Hv IH]; intros fuel Hf; [done|].
  destruct fuel as [|[|fuel]]; cbn [length] in Hf; [lia..|]. destruct pins as [|q pins].
  - cbn [fmap list_fmap join]. apply elements_last. by apply value_quote.
  - rewrite !fmap_cons, join_cons_cons, <- !str_app_assoc. eapply elements_cons; [by apply value_quote|].
    rewrite <- fmap_cons. apply (IH ltac:(done)). cbn [length] in *. lia.
Qed.

Lemma value_pins pins fuel d rest : pins ≠ [] → Forall (λ p, valid_utf8 p = true) pins →
  (length pins < fuel)%nat → d < 10000 →
  value (S fuel) d (pin_array pins +:+ rest) = Some (JArray (JString <$> pins), rest).
Proof.
  intros Hne Hv Hf Hd. unfold pin_array. rewrite <- !str_app_assoc. cbn [value].
  change (skip_blank ("[" +:+ ?x)) with (String "[" x). cbv iota.
  change (byte "[" =? 123) with false. change (byte "[" =? 91) with true. cbv iota.
  unfold maxNestingDepth. rewrite (proj2 (Z.ltb_ge _ _)) by lia.
  assert (Hq : ∀ x, after "]" (skip_blank (join "," (quote <$> pins) +:+ x)) = None).
  { intros x. destruct pins as [|p [|q pins]]; [done|..]; rewrite ?fmap_cons, ?join_cons_cons, <- ?str_app_assoc;
      cbn [fmap list_fmap join]; by rewrite quote_app. }
  by rewrite Hq, elements_quoted.
Qed.

Lemma value_object fuel d t l rest :
  after "}" (skip_blank t) = None → d < 10000 → members fuel (d + 1) t = Some (l, rest) →
  value (S fuel) d ("{" +:+ t) = Some (JObject l, rest).
Proof.
  intros Ha Hd Hm. cbn [value]. change (skip_blank ("{" +:+ t)) with (String "{" t). cbv iota.
  change (byte "{" =? 123) with true. cbv iota. unfold maxNestingDepth.
  rewrite (proj2 (Z.ltb_ge _ _)) by lia. by rewrite Ha, Hm.
Qed.

(** The members of a marshalled credential. *)
Definition members_of (c : Credential) : list (string * json) :=
  [("org_id", JString (OrgID c)); ("registration_id", JString (RegistrationID c)); ("secret", JString (Secret c))]
  ++ match SPKIPins c with [] => [] | pins => [("spki_pins", JArray (JString <$> pins))] end
  ++ [("protocol_version", JNumber (FormatUint (ProtocolVersion c)))].

Lemma parse_Marshal c : well_formed c → parse (Marshal c) = Some (JObject (members_of c)).
Proof.
  intros (H1 & H2 & H3 & H4 & H5). unfold parse.
  assert (Hlen : (length (SPKIPins c) + 8 ≤ slen (Marshal c))%nat).
  { unfold Marshal, field. rewrite !slen_app. pose proof (slen_quote "org_id"). pose proof (slen_quote (OrgID c)).
    pose proof (slen_quote "registration_id"). pose proof (slen_quote "secret").
    destruct (SPKIPins c) as [|p pins]; [cbn; lia|]. unfold pin_array. rewrite !slen_app.
    pose proof (slen_join (quote <$> p :: pins)) as Hj. rewrite length_fmap in Hj.
    assert (Hq : Forall (λ x, 1 ≤ slen x)%nat (quote <$> p :: pins)).
    { apply Forall_fmap, Forall_true. intros x. unfold compose. pose proof (slen_quote x). lia. }
    specialize (Hj Hq). lia. }
  assert (∃ m, (2 * slen (Marshal c) + 2 = 8 + (length (SPKIPins c) + m))%nat) as [m ->]
    by (exists (2 * slen (Marshal c) + 2 - 8 - length (SPKIPins c))%nat; lia).
  assert (Hm : members (7 + (length (SPKIPins c) + m)) 1 (str_drop 1 (Marshal c)) = Some (members_of c, "")).
  { unfold Marshal, members_of, field. change (str_drop 1 ("{" +:+ ?t)) with t. rewrite <- !str_app_assoc.
    do 3 (eapply members_cons; [done|by apply value_quote|]). destruct (SPKIPins c) as [|p pins] eqn:E.
    - change ("" +:+ ?t) with t. apply members_last; [done|]. apply (value_FormatUint _ _ _ ""). lia.
    - rewrite <- !str_app_assoc. eapply members_cons; [done|apply value_pins; [done|done|cbn; lia|lia]|].
      apply members_last; [done|]. apply (value_FormatUint _ _ _ ""). lia. }
  assert (Hv : value (8 + (length (SPKIPins c) + m)) 0 (Marshal c) = Some (JObject (members_of c), "")).
  { unfold Marshal in *. apply value_object; [|lia|exact Hm]. unfold field. rewrite <- str_app_assoc. by rewrite quote_app. }
  by rewrite Hv.
Qed.

(** What is marshalled is unmarshalled as it was. *)
Lemma Unmarshal_Marshal c : well_formed c → Unmarshal (Marshal c) = Some c.
Proof.
  intros Hc. unfold Unmarshal. rewrite parse_Marshal by done. cbn [mbind option_bind].
  destruct Hc as (_ & _ & _ & _ & Hn). destruct c as [org reg secret pins n]. cbn [ProtocolVersion] in Hn.
  unfold members_of. cbn [OrgID RegistrationID Secret SPKIPins ProtocolVersion].
  assert (Hpins : ∀ l, into_elements [] (JString <$> l) = Some l).
  { intros l. induction l as [|p l IH]; [done|]. rewrite fmap_cons. cbn [into_elements into_string]. cbn. by rewrite IH. }
  assert (Hint : ∀ o, into_uint32 o (JNumber (FormatUint n)) = Some n).
  { intros o. unfold into_uint32. rewrite ParseUint_FormatUint by lia. cbn [mbind option_bind].
    by rewrite (proj2 (Z.ltb_lt _ _)) by lia. }
  assert (Hv : ∀ c b, into_member (c, b) ("protocol_version", JNumber (FormatUint n)) = Some
    ({| OrgID := OrgID c; RegistrationID := RegistrationID c; Secret := Secret c; SPKIPins := SPKIPins c;
        ProtocolVersion := n |}, b)).
  { intros c b. unfold into_member. change (matches "protocol_version" "org_id") with false.
    change (matches "protocol_version" "registration_id") with false.
    change (matches "protocol_version" "secret") with false.
    change (matches "protocol_version" "spki_pins") with false.
    change (matches "protocol_version" "protocol_version") with true. cbv iota. by rewrite Hint. }
  set (v := ("protocol_version", _)) in *. clearbody v.
  unfold into_members. rewrite foldl_app.
  change (foldl _ (Some (zero_credential, [])) [_; _; _]) with
    (Some ({| OrgID := org; RegistrationID := reg; Secret := secret; SPKIPins := []; ProtocolVersion := 0 |},
           @nil string)).
  destruct pins as [|p pins].
  - cbn [app foldl mbind option_bind]. by rewrite Hv.
  - assert (Hp : ∀ c, into_member (c, []) ("spki_pins", JArray (JString <$> p :: pins)) = Some
      ({| OrgID := OrgID c; RegistrationID := RegistrationID c; Secret := Secret c; SPKIPins := p :: pins;
          ProtocolVersion := ProtocolVersion c |}, p :: pins)).
    { intros c. unfold into_member. change (matches "spki_pins" "org_id") with false.
      change (matches "spki_pins" "registration_id") with false. change (matches "spki_pins" "secret") with false.
      change (matches "spki_pins" "spki_pins") with true. cbv iota.
      assert (into_pins [] (JArray (JString <$> p :: pins)) = Some (p :: pins, p :: pins)) as ->; [|done].
      unfold into_pins. rewrite fmap_cons at 1. cbv iota. rewrite Hpins. cbn [mbind option_bind].
      by rewrite drop_nil, app_nil_r. }
    cbn [app foldl mbind option_bind]. rewrite Hp. cbn [mbind option_bind]. by rewrite Hv.
Qed.
End Codec.

(** ** Files *)
Module Disk.

(** An open or named file: its content, whether that content is on disk, its permission bits. *)
Record inode := { in_data : string; in_synced : bool; in_mode : Z }.

(** The directory, every directory a crash may still bring back because its change was not
    synchronized, and the files. *)
Record FS := {
  fs_dir : gmap string nat;
  fs_past : list (gmap string nat);
  fs_inodes : gmap nat inode;
}.

Definition read (path : string) (fs : FS) : option inode := fs_dir fs !! path ≫= λ i, fs_inodes fs !! i.

(** A change of the directory: the one before may come back. *)
Definition set_dir (dir : gmap string nat) (fs : FS) : FS :=
  {| fs_dir := dir; fs_past := fs_dir fs :: fs_past fs; fs_inodes := fs_inodes fs |}.

Definition set_inode (i : nat) (n : inode) (fs : FS) : FS :=
  {| fs_dir := fs_dir fs; fs_past := fs_past fs; fs_inodes := <[i := n]> (fs_inodes fs) |}.

(** [open(O_CREAT|O_EXCL, 0600)]: an empty file under a new name; its number is one that nothing
    refers to. *)
Definition in_use (fs : FS) : gset nat :=
  dom (fs_inodes fs) ∪ ⋃ ((λ dir : gmap string nat, map_img dir) <$> fs_dir fs :: fs_past fs).
Definition new_inode (fs : FS) : nat := fresh (in_use fs).
Definition create (path : string) (umask : Z) (fs : FS) : FS :=
  set_inode (new_inode fs) {| in_data := ""; in_synced := false; in_mode := Z.ldiff 0x180 umask |}
    (set_dir (<[path := new_inode fs]> (fs_dir fs)) fs).

Definition on_inode (i : nat) (f : inode → inode) (fs : FS) : FS :=
  match fs_inodes fs !! i with Some n => set_inode i (f n) fs | None => fs end.

Definition chmod (mode : Z) (n : inode) : inode :=
  {| in_data := in_data n; in_synced := in_synced n; in_mode := mode |}.
Definition append (data : string) (n : inode) : inode :=
  {| in_data := in_data n +:+ data; in_synced := false; in_mode := in_mode n |}.
Definition sync (n : inode) : inode :=
  {| in_data := in_data n; in_synced := true; in_mode := in_mode n |}.

(** [rename(2)] puts one name's file under the other in one step. *)
Definition rename (from to : string) (fs : FS) : FS :=
  match fs_dir fs !! from with
  | Some i => set_dir (delete from (<[to := i]> (fs_dir fs))) fs
  | None => fs
  end.

Definition remove (path : string) (fs : FS) : FS :=
  match fs_dir fs !! path with Some _ => set_dir (delete path (fs_dir fs)) fs | None => fs end.

(** What the name may stand for after a crash. *)
Definition entries (path : string) (fs : FS) : list (option nat) :=
  (λ dir : gmap string nat, dir !! path) <$> fs_dir fs :: fs_past fs.

(** What reading the name may give after a crash: nothing, or a file's content, which is anything at all
    when it was not synchronized. *)
Inductive recovers (path : string) (fs : FS) : option string → Prop :=
  | recovers_nothing : None ∈ entries path fs → recovers path fs None
  | recovers_file i n data : Some i ∈ entries path fs → fs_inodes fs !! i = Some n →
      (in_synced n = true → data = in_data n) → recovers path fs (Some data).
End Disk.

(** ** The store *)

Section filestore.
Context (path : string).

(** What the operations of one [Save] meet: the name drawn for the temporary file, the file mode mask,
    which operations fail, and how much of the content a failing write wrote. *)
Record io := {
  io_temp : gmap string nat → string;  (* given the names that are taken *)
  io_umask : Z;
  io_create : option string;
  io_chmod : option string;
  io_write : option (string * nat);
  io_sync : option string;
  io_close : option string;
  io_rename : option string;
  io_remove : bool;                 (* the deferred removal works *)
}.

(** [Load]; [fault] is what stops the read of a file that is there. *)
Definition Load (fault : option string) (fs : Disk.FS) : result store_error Credential :=
  match Disk.read path fs with
  | None => Err NotFound
  | Some n =>
      match fault with
      | Some e => Err (StoreFault e)
      | None => match Codec.Unmarshal (Disk.in_data n) with
                | None => Err (StoreFault "credential file corrupt")
                | Some c => Ok c
                end
      end
  end.

(** One operation after the other, with the file system after each; the deferred removal comes last
    however [Save] returns. *)
Definition step : Type := Disk.FS → option string * Disk.FS.

Fixpoint run_steps (steps : list step) (fs : Disk.FS) : option string * list Disk.FS * Disk.FS :=
  match steps with
  | [] => (None, [], fs)
  | s :: steps =>
      match s fs with
      | (Some e, fs) => (Some e, [fs], fs)
      | (None, fs) => let '(r, past, last) := run_steps steps fs in (r, fs :: past, last)
      end
  end.

(** An operation on the temporary file's inode, which a failure leaves alone. *)
Definition on_temp (failure : option string) (i : nat) (f : Disk.inode → Disk.inode) : step := λ fs,
  match failure with Some e => (Some e, fs) | None => (None, Disk.on_inode i f fs) end.

Definition write_step (env : io) (i : nat) (payload : string) : step := λ fs,
  match io_write env with
  | Some (e, n) => (Some e, Disk.on_inode i (Disk.append (str_take n payload)) fs)
  | None => (None, Disk.on_inode i (Disk.append payload) fs)
  end.

Definition rename_step (env : io) (temp : string) : step := λ fs,
  match io_rename env with
  | Some e => (Some e, fs)
  | None => (None, Disk.rename temp path fs)
  end.

Definition save_steps (env : io) (temp : string) (i : nat) (payload : string) : list step :=
  [on_temp (io_chmod env) i (Disk.chmod 0x180); write_step env i payload;
   on_temp (io_sync env) i Disk.sync; on_temp (io_close env) i id; rename_step env temp].

(** [Save]: its outcome, the file system after every operation, and the one it leaves. *)
Definition Save (env : io) (credential : Credential) (fs : Disk.FS)
    : result string unit * list Disk.FS * Disk.FS :=
  let payload := Codec.Marshal credential in
  match io_create env with
  | Some e => (Err e, [], fs)
  | None =>
      let temp := io_temp env (Disk.fs_dir fs) in
      let i := Disk.new_inode fs in
      let fs := Disk.create temp (io_umask env) fs in
      let '(outcome, past, last) := run_steps (save_steps env temp i payload) fs in
      let final := if io_remove env then Disk.remove temp last else last in
      (match outcome with Some e => Err e | None => Ok tt end, fs :: past ++ [final], final)
  end.

(** *** What is on disk at every step *)

Section steps.
Context (fs : Disk.FS) (temp payload : string).
Hypothesis temp_free : Disk.fs_dir fs !! temp = None.
Hypothesis temp_other : temp ≠ path.

Local Abbreviation i := (Disk.new_inode fs).

(** The states [Save] goes through: the temporary file beside the old one, the new file in its place, the
    temporary file removed. *)
Definition with_temp : gmap string nat := <[temp := i]> (Disk.fs_dir fs).

Definition staging (dir : gmap string nat) (past : list (gmap string nat)) (n : Disk.inode) : Disk.FS :=
  {| Disk.fs_dir := dir; Disk.fs_past := past; Disk.fs_inodes := <[i := n]> (Disk.fs_inodes fs) |}.

Definition before_rename (n : Disk.inode) : Disk.FS :=
  staging with_temp (Disk.fs_dir fs :: Disk.fs_past fs) n.
Definition after_rename (n : Disk.inode) : Disk.FS :=
  staging (delete temp (<[path := i]> with_temp)) (with_temp :: Disk.fs_dir fs :: Disk.fs_past fs) n.
Definition after_remove (n : Disk.inode) : Disk.FS :=
  staging (delete temp with_temp) (with_temp :: Disk.fs_dir fs :: Disk.fs_past fs) n.

Definition complete : Disk.inode :=
  {| Disk.in_data := payload; Disk.in_synced := true; Disk.in_mode := 0x180 |}.

Definition private (n : Disk.inode) : Prop := Disk.in_data n ≠ "" → Disk.in_mode n = 0x180.

Inductive passes : Disk.FS → Prop :=
  | passes_before n : private n → passes (before_rename n)
  | passes_after : passes (after_rename complete)
  | passes_removed n : private n → passes (after_remove n).

Lemma on_inode_staging dir past n f : Disk.on_inode i f (staging dir past n) = staging dir past (f n).
Proof.
  unfold Disk.on_inode, staging, Disk.set_inode. cbn. by rewrite lookup_insert_eq, insert_insert_eq.
Qed.

Lemma rename_staging n : Disk.rename temp path (before_rename n) = after_rename n.
Proof. unfold Disk.rename, before_rename, staging, with_temp. cbn. by rewrite lookup_insert_eq. Qed.

Lemma remove_before n : Disk.remove temp (before_rename n) = after_remove n.
Proof. unfold Disk.remove, before_rename, staging, with_temp. cbn. by rewrite lookup_insert_eq. Qed.

Lemma remove_after n : Disk.remove temp (after_rename n) = after_rename n.
Proof. unfold Disk.remove, after_rename, staging, with_temp. cbn. by rewrite lookup_delete_eq. Qed.
Ltac stages :=
  repeat (apply Forall_cons; split); try apply Forall_nil_2; by first [apply passes_before|apply passes_after].

Definition created (umask : Z) : Disk.inode :=
  {| Disk.in_data := ""; Disk.in_synced := false; Disk.in_mode := Z.ldiff 0x180 umask |}.

Lemma run_save_steps env umask outcome past last :
  run_steps (save_steps env temp i payload) (before_rename (created umask)) = (outcome, past, last) →
  Forall passes (before_rename (created umask) :: past)
  ∧ match outcome with
    | None => last = after_rename complete
    | Some _ => ∃ n, last = before_rename n ∧ private n
    end.
Proof.
  assert (Hon : ∀ n f, Disk.on_inode i f (before_rename n) = before_rename (f n))
    by (intros; apply on_inode_staging).
  assert (H0 : private (created umask)) by by intros [].
  unfold save_steps, on_temp, write_step, rename_step. cbn [run_steps].
  destruct (io_chmod env) as [e|].
  { intros [= <- <- <-]. split; [stages|by eexists]. }
  rewrite Hon. destruct (io_write env) as [[e k]|]; rewrite Hon.
  { intros [= <- <- <-]. split; [stages|by eexists]. }
  destruct (io_sync env) as [e|].
  { intros [= <- <- <-]. split; [stages|by eexists]. }
  rewrite Hon. destruct (io_close env) as [e|].
  { intros [= <- <- <-]. split; [stages|by eexists]. }
  rewrite Hon. destruct (io_rename env) as [e|].
  { intros [= <- <- <-]. split; [stages|by eexists]. }
  rewrite rename_staging. intros [= <- <- <-].
  split; [stages|done].
Qed.

(** A file system [Save] passes through holds, under the path and after a crash, what was there before or
    the whole new content. *)
Lemma new_inode_fresh : i ∉ Disk.in_use fs.
Proof. unfold Disk.new_inode. apply is_fresh. Qed.

Lemma old_inode_kept dir past n j : j ∈ Disk.in_use fs →
  Disk.fs_inodes (staging dir past n) !! j = Disk.fs_inodes fs !! j.
Proof. intros Hj. unfold staging. cbn. apply lookup_insert_ne. intros <-. by apply new_inode_fresh. Qed.

Lemma entries_in_use j : Some j ∈ Disk.entries path fs → j ∈ Disk.in_use fs.
Proof.
  unfold Disk.entries, Disk.in_use. rewrite list_elem_of_fmap. intros (dir & Hj & Hdir).
  apply elem_of_union_r, elem_of_union_list. exists (map_img dir). split; [|by eapply elem_of_map_img_2].
  apply list_elem_of_fmap. by exists dir.
Qed.

Lemma old_recovers dir past n e r :
  e ∈ Disk.entries path fs →
  match e, r with
  | None, None => True
  | Some j, Some data => ∃ x, Disk.fs_inodes (staging dir past n) !! j = Some x
      ∧ (Disk.in_synced x = true → data = Disk.in_data x)
  | _, _ => False
  end → Disk.recovers path fs r.
Proof.
  intros He. destruct e as [j|], r as [data|]; try done; [|by constructor].
  rewrite old_inode_kept by by apply entries_in_use. intros (x & Hx & Hd). by eapply Disk.recovers_file.
Qed.

Lemma passes_recovers s r : passes s → Disk.recovers path s r →
  Disk.recovers path fs r ∨ r = Some payload.
Proof using temp_free temp_other.
  assert (Hw : with_temp !! path = Disk.fs_dir fs !! path) by by apply lookup_insert_ne.
  assert (Hold : ∀ dir past n, staging dir past n = s →
    (∀ e, e ∈ Disk.entries path s → e ∈ Disk.entries path fs ∨ e = Some i ∧ n = complete) →
    Disk.recovers path s r → Disk.recovers path fs r ∨ r = Some payload).
  { intros dir past n <- Hent [He|j x data He Hx Hd].
    - destruct (Hent _ He) as [?|[? _]]; [left; by constructor|done].
    - destruct (Hent _ He) as [Hf|[[= ->] ->]].
      + left. eapply (old_recovers dir past n (Some j)); [done|]. by exists x.
      + unfold staging in Hx. cbn in Hx. rewrite lookup_insert_eq in Hx. injection Hx as <-.
        right. by rewrite Hd. }
  unfold Disk.entries in Hold. intros Hp. destruct Hp as [n Hn| |n Hn]; eapply Hold; try reflexivity; cbn.
  all: rewrite ?lookup_delete_ne, ?lookup_insert_eq, ?Hw by done; set_solver.
Qed.

Lemma passes_private s n : passes s → Disk.fs_inodes s !! i = Some n → private n.
Proof.
  assert (Hi : ∀ dir past n', Disk.fs_inodes (staging dir past n') !! i = Some n')
    by (intros; unfold staging; cbn; apply lookup_insert_eq).
  intros [n' Hn| |n' Hn] H; unfold before_rename, after_rename, after_remove in H; rewrite Hi in H; by injection H as <-.
Qed.

Lemma read_staging dir past n j : j ∈ Disk.in_use fs → dir !! path = Some j →
  Disk.read path (staging dir past n) = Disk.fs_inodes fs !! j.
Proof. intros Hj Hd. unfold Disk.read. cbn [staging Disk.fs_dir]. rewrite Hd. cbn [mbind option_bind]. by apply old_inode_kept. Qed.

Lemma read_unchanged dir past n : dir !! path = Disk.fs_dir fs !! path →
  Disk.read path (staging dir past n) = Disk.read path fs.
Proof.
  intros Hd. unfold Disk.read at 2. destruct (Disk.fs_dir fs !! path) as [j|] eqn:E.
  - cbn [mbind option_bind]. apply read_staging; [|done]. apply entries_in_use.
    unfold Disk.entries. rewrite fmap_cons, E. by left.
  - unfold Disk.read. cbn [staging Disk.fs_dir]. by rewrite Hd.
Qed.

Lemma read_after_rename : Disk.read path (after_rename complete) = Some complete.
Proof using temp_other.
  unfold Disk.read, after_rename. cbn [staging Disk.fs_dir].
  rewrite lookup_delete_ne, lookup_insert_eq by done. cbn. by rewrite lookup_insert_eq.
Qed.
End steps.

(** The name drawn for the temporary file is free, and never the credential's own. *)
Definition draws_free (env : io) : Prop :=
  ∀ dir : gmap string nat, dir !! io_temp env dir = None ∧ io_temp env dir ≠ path.

(** What one [Save] does, stage by stage. *)
Lemma Save_passes env c fs outcome trace final :
  draws_free env → Save env c fs = (outcome, trace, final) →
  let temp := io_temp env (Disk.fs_dir fs) in
  (outcome = Ok tt ∧ final = after_rename fs temp (complete (Codec.Marshal c))
   ∨ ∃ e, outcome = Err e ∧ (final = fs ∨ (∃ n, final = before_rename fs temp n) ∨ ∃ n, final = after_remove fs temp n))
  ∧ Forall (passes fs temp (Codec.Marshal c)) trace.
Proof.
  intros Henv. destruct (Henv (Disk.fs_dir fs)) as [Hfree Hother]. unfold Save. cbv zeta.
  set (temp := io_temp env (Disk.fs_dir fs)) in *.
  destruct (io_create env) as [e|]; [intros [= <- <- <-]; split; [right; by eauto|constructor]|].
  change (Disk.create temp (io_umask env) fs) with (before_rename fs temp (created (io_umask env))).
  destruct (run_steps _ _) as [[o past] last] eqn:E.
  apply run_save_steps in E as [Hp Hl]. apply Forall_cons in Hp as [Hp0 Hp]. intros [= <- <- <-].
  rewrite Forall_cons, Forall_app, Forall_singleton. destruct o as [e|].
  - destruct Hl as (n & -> & Hn). split.
    + right. exists e. split; [done|]. right. case_match; [right|left; by exists n]. exists n. by apply remove_before.
    + split_and!; [done|done|]. case_match; [rewrite remove_before|]; by constructor.
  - subst last. rewrite remove_after.
    split; [left; by case_match|]. split_and!; [done|done|]. case_match; apply passes_after.
Qed.

Lemma Save_reads env c fs outcome trace final :
  draws_free env → Save env c fs = (outcome, trace, final) →
  match outcome with
  | Ok _ => Disk.read path final = Some (complete (Codec.Marshal c))
  | Err _ => Disk.read path final = Disk.read path fs
  end.
Proof.
  intros Henv H. destruct (Henv (Disk.fs_dir fs)) as [Hfree Hother].
  destruct (Save_passes _ _ _ _ _ _ Henv H) as [[[-> ->]|(e & -> & [->|[[n ->]|[n ->]]])] _].
  - by apply read_after_rename.
  - done.
  - apply read_unchanged. by apply lookup_insert_ne.
  - apply read_unchanged. rewrite lookup_delete_ne by done. by apply lookup_insert_ne.
Qed.

(** C24: saving is atomic. At every step of a save, whichever of its operations fails, a crash leaves the
    path with what it could have held before or with the whole new credential, never a part of it; the
    credential is never on disk with other permission bits than the owner's; a save that succeeds is what
    the path then holds, and one that fails leaves the path as it was. *)
Theorem Save_crash_atomic env c fs outcome trace final :
  draws_free env → Save env c fs = (outcome, trace, final) →
  (∀ s r, s ∈ trace → Disk.recovers path s r →
     Disk.recovers path fs r ∨ r = Some (Codec.Marshal c))
  ∧ (∀ s n, s ∈ trace → Disk.fs_inodes s !! Disk.new_inode fs = Some n →
       Disk.in_data n ≠ "" → Disk.in_mode n = 0x180)
  ∧ match outcome with
    | Ok _ => Disk.read path final
        = Some {| Disk.in_data := Codec.Marshal c; Disk.in_synced := true; Disk.in_mode := 0x180 |}
    | Err _ => Disk.read path final = Disk.read path fs
    end.
Proof.
  intros Henv H. destruct (Henv (Disk.fs_dir fs)) as [Hfree Hother].
  destruct (Save_passes _ _ _ _ _ _ Henv H) as [Hf Hp]. rewrite Forall_forall in Hp. split_and!.
  - intros s r Hs. by apply (passes_recovers fs _ _ Hfree Hother), Hp.
  - intros s n Hs Hn. by eapply passes_private; [by apply Hp|].
  - by eapply Save_reads.
Qed.
End filestore.

(** ** The store, for whoever starts on it *)

Section store.
Context {W : Type} (path : string) (get : W → Disk.FS) (put : Disk.FS → W → W) (environment : W → io)
  (read_fault : W → option string).

Definition NewFileStore : Store W :=
  {| st_Load w := (Load path (read_fault w) (get w), w);
     st_Save c w := let '(outcome, _, final) := Save path (environment w) c (get w) in (outcome, put final w) |}.

(** A file store keeps the promise of [StoreOk] for what a control plane can issue, as long as the
    credential's name is never drawn for a temporary file and its file stays readable. *)
#[global] Instance NewFileStore_ok :
  (∀ f w, get (put f w) = f) → (∀ w, draws_free path (environment w)) → (∀ w, read_fault w = None) →
  StoreOk NewFileStore Codec.well_formed.
Proof.
  intros Hget Henv Hread. split; cbn.
  - intros c w w' Hc. destruct (Save path (environment w) c (get w)) as [[o trace] final] eqn:E.
    intros [= -> <-]. pose proof (Save_reads path _ _ _ _ _ _ (Henv w) E) as H. cbn in H.
    unfold Load. rewrite Hget, H, Hread. cbn [complete Disk.in_data]. by rewrite Codec.Unmarshal_Marshal.
  - intros c w e w'. destruct (Save path (environment w) c (get w)) as [[o trace] final] eqn:E.
    intros [= -> <-]. pose proof (Save_reads path _ _ _ _ _ _ (Henv w) E) as H. cbn in H.
    unfold Load. by rewrite Hget, H, !Hread.
Qed.
End store.

(** C31: the credential survives its file: what is saved is what the next load returns, field by field and
    pin by pin, for every credential a control plane can issue. *)
Theorem Load_Save path env c fs trace final :
  Codec.well_formed c → draws_free path env → Save path env c fs = (Ok tt, trace, final) →
  Load path None final = Ok c.
Proof.
  intros Hc Henv H. apply (Save_reads path _ _ _ _ _ _ Henv) in H. cbn in H. unfold Load.
  rewrite H. cbn [complete Disk.in_data]. by rewrite Codec.Unmarshal_Marshal.
Qed.

(** The directory is not synchronized: what a crash could bring back before a save that succeeded, it can
    still bring back afterwards, the absence of any credential included. *)
Lemma Save_not_durable path env c fs trace final r :
  draws_free path env → Save path env c fs = (Ok tt, trace, final) →
  Disk.recovers path fs r → Disk.recovers path final r.
Proof.
  intros Henv H. destruct (Save_passes path _ _ _ _ _ _ Henv H) as [[[_ ->]|(e & [=] & _)] _].
  assert (He : ∀ e, e ∈ Disk.entries path fs →
    e ∈ Disk.entries path (after_rename path fs (io_temp env (Disk.fs_dir fs)) (complete (Codec.Marshal c)))).
  { intros e He. unfold Disk.entries, after_rename, staging. cbn. right. right. exact He. }
  intros [Hn|i n data Hi Hn Hd]; [constructor; by apply He|].
  eapply Disk.recovers_file; [by apply He| |exact Hd].
  unfold after_rename. by rewrite old_inode_kept by (by eapply entries_in_use).
Qed.

(** ** A concrete save *)

Definition sample_path : string := "/var/lib/relay/credential.json".
Definition sample_credential : Credential :=
  {| OrgID := "org"; RegistrationID := "42"; Secret := "s<e>cret"; SPKIPins := ["p1"; "p2"];
     ProtocolVersion := 1 |}.

(** A name longer than every name that is taken. *)
Definition long_name (dir : gmap string nat) : string :=
  "/var/lib/relay/.credential-" +:+ str_concat (base.elements (dom dir)).
Definition sample_io : io :=
  {| io_temp := long_name; io_umask := 0x12; io_create := None; io_chmod := None;
     io_write := None; io_sync := None; io_close := None; io_rename := None; io_remove := true |}.
Definition empty_disk : Disk.FS := {| Disk.fs_dir := ∅; Disk.fs_past := []; Disk.fs_inodes := ∅ |}.

Lemma slen_str_concat l x : x ∈ l → (slen x ≤ slen (str_concat l))%nat.
Proof.
  induction 1 as [x l|x y l _ IH]; rewrite str_concat_cons, slen_app; lia.
Qed.

Lemma sample_draws_free : draws_free sample_path sample_io.
Proof.
  intros dir. split; [|discriminate]. cbn. apply eq_None_not_Some. intros H.
  assert (Hin : long_name dir ∈ base.elements (dom dir)) by by apply elem_of_elements, elem_of_dom.
  apply slen_str_concat in Hin. unfold long_name in Hin at 1. rewrite slen_app in Hin.
  change (slen "/var/lib/relay/.credential-") with 27%nat in Hin. lia.
Qed.

Lemma Save_crash_atomic_witness :
  ∃ trace final, Save sample_path sample_io sample_credential empty_disk = (Ok tt, trace, final)
    ∧ length trace = 7%nat
    ∧ (∀ s r, s ∈ trace → Disk.recovers sample_path s r →
         Disk.recovers sample_path empty_disk r ∨ r = Some (Codec.Marshal sample_credential))
    ∧ Disk.in_data <$> Disk.read sample_path final = Some (Codec.Marshal sample_credential).
Proof.
  destruct (Save sample_path sample_io sample_credential empty_disk) as [[o trace] final] eqn:E.
  assert (o = Ok tt) as -> by (apply (f_equal (λ x, x.1.1)) in E; cbn [fst] in E; rewrite <- E; by vm_compute).
  assert (Hl : length trace = 7%nat) by (apply (f_equal (λ x, length x.1.2)) in E; cbn [fst snd] in E; rewrite <- E; by vm_compute).
  exists trace, final.
  destruct (Save_crash_atomic sample_path _ _ _ _ _ _ sample_draws_free E) as (H1 & _ & H3).
  split_and!; [done|done|done|]. by rewrite H3.
Defined.

Lemma Load_Save_witness :
  ∃ trace final, Save sample_path sample_io sample_credential empty_disk = (Ok tt, trace, final)
    ∧ Load sample_path None final = Ok sample_credential.
Proof.
  destruct (Save sample_path sample_io sample_credential empty_disk) as [[o trace] final] eqn:E.
  assert (o = Ok tt) as -> by (apply (f_equal (λ x, x.1.1)) in E; cbn [fst] in E; rewrite <- E; by vm_compute).
  exists trace, final. split; [done|].
  apply (Load_Save sample_path sample_io sample_credential empty_disk trace final); [|apply sample_draws_free|exact E].
  split_and!; try done. by repeat constructor.
Defined.

(** A first enrollment whose credential was saved can still find nothing after a crash. *)
Example enrolled_then_lost :
  ∃ trace final, Save sample_path sample_io sample_credential empty_disk = (Ok tt, trace, final)
    ∧ Disk.recovers sample_path final None.
Proof.
  destruct (Save sample_path sample_io sample_credential empty_disk) as [[o trace] final] eqn:E.
  assert (o = Ok tt) as -> by (apply (f_equal (λ x, x.1.1)) in E; cbn [fst] in E; rewrite <- E; by vm_compute).
  exists trace, final. split; [done|].
  eapply Save_not_durable; [apply sample_draws_free|exact E|]. constructor. by left.
Qed.

(** What is read is not only what is written: names are matched by folding case, other members and
    fields left out are ignored. *)
Example lenient_load :
  Codec.Unmarshal (" {" +:+ Codec.field "ORG_id" (quote "o") +:+ ", " +:+ Codec.field "x" "[1,{}]" +:+ "}")
  = Some {| OrgID := "o"; RegistrationID := ""; Secret := ""; SPKIPins := []; ProtocolVersion := 0 |}
  ∧ Codec.Unmarshal "null" = Some Codec.zero_credential ∧ Codec.Unmarshal "{corrupt" = None
  ∧ Codec.Unmarshal "" = None.
Proof. by vm_compute. Qed.
