(* ===== verification/Main.v ===== *)
(** * The composition root (cmd/opencluster-relay/main.go, internal/session/connector.go)

    [run] puts the components together as the process does: configuration, redaction policy, inventory
    constraints, identity, cluster client, capabilities, enrollment, transport, session. Everything
    outside the repository is a field of [Host]. *)

From S2P Require Import Prelude GoString GoTime Utf8 Wire Admission Masking Declared Policy Sweep DryRun Execution Enforcement Kube Logs Events Runtime Session KubeInventory InventoryLocal Sync Encoding Config Transport AuditTrail Identity FileStore.
From stdpp Require Import options.
Local Open Scope Z_scope.

Definition version : string := "dev".
Definition protocolVersion : Z := 1.
Definition startupTimeout : Duration := 30 * Second.
Definition outboundBufferSize : nat := 64.

(** ** Capabilities and their decorators *)

Section composition.
Context {W : Type} (now : W → Time) (range : Runtime.ranging) (sweep_clock : W → nat → Time)
  (emit : audit_line → W → W) (size : option JobResult → Z).

Definition local_policy (cfg : Config.Config) : LocalPolicy.t :=
  {| LocalPolicy.AllowedNamespaces := default ∅ (Config.AllowedNamespaces cfg) |}.

Definition compiledCapabilities (client : Reader.Client W) (cfg : Config.Config) : Registry.t (W := W) :=
  let policy := local_policy cfg in
  let registry := Registry.NewRegistry in
  let registry := Registry.Register registry Runtime.Descriptor
    (Runtime.Execute range now (Reader.workload_reader client)
       {| Runtime.Policy := policy; Runtime.LocalMaxPods := Config.LocalMaxPods cfg |}) in
  let registry := Registry.Register registry Events.Descriptor
    (Events.Execute now (Reader.event_reader client)
       (Events.NewExecutor now
          {| Events.Policy := policy; Events.LocalMaxEvents := Config.LocalMaxEvents cfg;
             Events.RetentionHorizon := Config.EventRetention cfg; Events.Now := None |})) in
  Registry.Register registry Logs.Descriptor
    (Logs.Execute now (Reader.log_reader client)
       {| Logs.Policy := policy; Logs.LocalMaxLines := Config.LocalMaxLogLines cfg;
          Logs.LocalMaxBytes := Config.LocalMaxLogBytes cfg |}).

(** Redaction inside, audit outside. *)
Definition guardedExecutor (inner : Executor W) (guard : Guard) : Executor W :=
  AuditTrail.Execute now emit size (Enforce sweep_clock guard inner).

(** The namespace a job asks to read. *)
Definition job_namespace (job : JobAssignment) : option string :=
  match ja_Arguments job with
  | Some (Args_Logs a) => Some (la_Namespace a)
  | Some (Args_Events a) => Some (ea_Namespace a)
  | Some (Args_Runtime a) => Some (ra_Namespace a)
  | _ => None
  end.

Definition compiled_keys : list (string * Z) :=
  [("kubernetes.workload.runtime", 1); ("kubernetes.namespace.events", 1); ("kubernetes.container.logs", 1)].

Lemma compiled_lookup client cfg k : is_Some (compiledCapabilities client cfg !! k) ↔ k ∈ compiled_keys.
Proof.
  unfold compiledCapabilities, compiled_keys. cbv zeta. unfold Registry.Register, Registry.NewRegistry, Registry.t.
  rewrite !lookup_insert_is_Some'. cbn. rewrite lookup_empty, <- not_eq_None_Some. set_solver.
Qed.

#[global] Instance compiled_echoes client cfg : Echoes (Registry.Execute (compiledCapabilities client cfg)).
Proof.
  apply Registry.registry_echoes. intros k e He. unfold compiledCapabilities, Registry.Register, Registry.t in He. cbv zeta in He.
  do 3 (apply lookup_insert_Some in He as [[_ <-]|[_ He]]; [apply _|]). done.
Qed.

Lemma failure_no_payload job kind (w : W) :
  ∃ r, (Some (Budget.Failure job kind), w) = (Some r, w) ∧ GetResult r = None.
Proof. by exists (Budget.Failure job kind). Qed.

Ltac refused :=
  unfold Logs.Execute, Events.Execute, Runtime.Execute, Logs.GetKubernetesContainerLogsV1,
    Events.GetKubernetesNamespaceEventsV1, Runtime.GetKubernetesWorkloadRuntimeV1;
  destruct (ja_Arguments _) as [[?|?|?]|]; intros; try (apply failure_no_payload); simplify_eq;
  case_match; try (apply failure_no_payload); cbn;
  match goal with H : LocalPolicy.AllowsNamespace _ _ = false |- _ => rewrite H end; apply failure_no_payload.

(** A namespace the operator excluded is excluded from every capability, before anything is read. *)
Lemma compiled_refuses client cfg allowed ns ctx job w :
  Config.AllowedNamespaces cfg = Some allowed → allowed ≠ ∅ → job_namespace job = Some ns → ns ∉ allowed →
  ∃ r, Registry.Execute (compiledCapabilities client cfg) ctx job w = (Some r, w) ∧ GetResult r = None.
Proof.
  intros Ha Hne Hns Hn.
  assert (Hno : LocalPolicy.AllowsNamespace (local_policy cfg) ns = false).
  { unfold LocalPolicy.AllowsNamespace, local_policy. rewrite Ha. cbn. rewrite !bool_decide_eq_false_2; [done|done|].
    intros ?%size_empty_inv. set_solver. }
  unfold Registry.Execute. destruct (_ !! _) as [e|] eqn:E; [|apply failure_no_payload].
  unfold compiledCapabilities, Registry.Register, Registry.t in E. cbv zeta in E. revert Hns. unfold job_namespace.
  apply lookup_insert_Some in E as [[_ <-]|[_ E1]]; [refused|].
  apply lookup_insert_Some in E1 as [[_ <-]|[_ E2]]; [refused|].
  apply lookup_insert_Some in E2 as [[_ <-]|[_ E3]]; [refused|done].
Qed.

(** A job without its arguments is refused by every capability. *)
Lemma compiled_needs_arguments client cfg ctx job w :
  job_namespace job = None →
  ∃ r, Registry.Execute (compiledCapabilities client cfg) ctx job w = (Some r, w) ∧ GetResult r = None.
Proof.
  intros Hns. unfold Registry.Execute. destruct (_ !! _) as [e|] eqn:E; [|apply failure_no_payload].
  assert (Ha : ja_Arguments job = None) by (unfold job_namespace in Hns; by destruct (ja_Arguments job) as [[]|]).
  unfold compiledCapabilities, Registry.Register, Registry.t in E. cbv zeta in E.
  do 3 (apply lookup_insert_Some in E as [[_ <-]|[_ E]];
    [unfold Logs.Execute, Events.Execute, Runtime.Execute, Logs.GetKubernetesContainerLogsV1,
       Events.GetKubernetesNamespaceEventsV1, Runtime.GetKubernetesWorkloadRuntimeV1;
     rewrite Ha; apply failure_no_payload|]).
  done.
Qed.

Lemma GetResult_with_duration ms r : GetResult (with_duration ms r) = GetResult r.
Proof. done. Qed.

(** What comes through the enforcement point, of a result the capabilities produced. *)
Lemma enforced client cfg guard ctx job w :
  ∃ r w1, Enforce sweep_clock guard (Registry.Execute (compiledCapabilities client cfg)) ctx job w = (Some r, w1)
  ∧ jr_JobId r = ja_JobId job ∧ jr_LeaseEpoch r = ja_LeaseEpoch job
  ∧ (∀ m, GetResult r = Some m →
       (ja_CapabilityId job, ja_CapabilityVersion job) ∈ compiled_keys
       ∧ ∃ m0 rep, well_declared m0 = true
           ∧ m = set_redaction rep (swept (default Default (g_policy guard)) "" m0)).
Proof.
  set (inner := Registry.Execute (compiledCapabilities client cfg)).
  destruct (echoes (e := Enforce sweep_clock guard inner) ctx job w) as (r & w1 & E & Hj & Hl).
  exists r, w1. split_and!; [done..|]. intros m Hm.
  destruct (Enforce_hands_on _ _ _ _ _ _ _ _ E) as [(r0 & m0 & rep & Hi & Hm0 & Hd & Hr & _)|[->|[_ Hn]]];
    [|done|congruence].
  split; [|exists m0, rep; split; [done|congruence]].
  apply (compiled_lookup client cfg). unfold inner, Registry.Execute in Hi.
  destruct (compiledCapabilities client cfg !! _) as [e|]; [by eexists|]. by injection Hi as <- _.
Qed.

(** C23: the whole path of a job, from the session to its result. Whatever it asks, it is answered once,
    for that very job and lease; a payload leaves only for a compiled capability and only as the sweep of
    a well-declared one under the policy in force; a namespace outside the operator's allowlist, or free
    text under a faulted policy, is refused before anything is read; and the one line the audit log gains
    is about the result as it leaves, its size the size after masking. *)
Theorem guarded_pipeline lookup cfg client guard ctx job w :
  Config.Load lookup = Ok cfg →
  ∃ r w1 duration,
    guardedExecutor (Registry.Execute (compiledCapabilities client cfg)) guard ctx job w
    = (Some r, emit (line_for size job (Some r) duration) w1)
  ∧ jr_JobId r = ja_JobId job ∧ jr_LeaseEpoch r = ja_LeaseEpoch job
  ∧ (∀ m, GetResult r = Some m →
       (ja_CapabilityId job, ja_CapabilityVersion job) ∈ compiled_keys
       ∧ ∃ m0 rep, well_declared m0 = true
           ∧ m = set_redaction rep (swept (default Default (g_policy guard)) "" m0))
  ∧ (∀ allowed ns, Config.AllowedNamespaces cfg = Some allowed → job_namespace job = Some ns → ns ∉ allowed →
       w1 = w ∧ GetResult r = None)
  ∧ (is_Some (g_fault guard) → carriesFreeText (ja_CapabilityId job) (ja_CapabilityVersion job) = true →
       w1 = w ∧ GetResult r = None).
Proof.
  intros Hload. set (inner := Registry.Execute (compiledCapabilities client cfg)).
  destruct (enforced client cfg guard ctx job w) as (r & w1 & E & Hj & Hl & Hm). fold inner in E.
  exists (with_duration (Milliseconds (now w1 - now w)) r), w1, (now w1 - now w).
  unfold guardedExecutor, AuditTrail.Execute. rewrite E. split_and!; [done..| |].
  - intros allowed ns Ha Hns Hn. assert (Hne : allowed ≠ ∅).
    { intros ->. by apply (Config.Load_bounds _ _ Hload). }
    destruct (compiled_refuses client cfg allowed ns ctx job w Ha Hne Hns Hn) as (r0 & Hi & Hr0).
    revert E. unfold Enforce. case_match; [by intros [= <- <-]|]. unfold inner. rewrite Hi, Hr0. by intros [= <- <-].
  - intros [f Hf] Hc. revert E. unfold Enforce. rewrite Hf, Hc. by intros [= <- <-].
Qed.
End composition.

(** ** The process *)

(** What the process runs in: its environment and files, the decoders and compilers of the libraries,
    the cluster and the control plane. *)
Record Host (W R : Type) := {
  ho_environment : string → option string;
  ho_ReadFile : string → option string;
  ho_Stdin : option string;
  ho_policy_decode : string → decoded * decoded;
  ho_compile : string → option Pattern;
  ho_inventory_decode : string → inventory_document * inventory_document;
  ho_LoadFromFile : string → result Kubeconfig.load_error Kubeconfig.Config;
  ho_build : Kubeconfig.Config → option R;
  ho_has_plugin : R → bool;
  ho_InClusterConfig : option R;
  ho_clientset : R → option (Reader.Client W);
  ho_metadata : R → option (InventoryClient W);
  ho_ParseCertificate : string → option string;
  ho_NewClient : string → tls_config → bool;      (* whether grpc.NewClient succeeds *)
  ho_Register : string → tls_config → Register_client W;
  ho_Store : string → Store W;
}.
Arguments ho_environment {W R}.
Arguments ho_ReadFile {W R}.
Arguments ho_Stdin {W R}.
Arguments ho_policy_decode {W R}.
Arguments ho_compile {W R}.
Arguments ho_inventory_decode {W R}.
Arguments ho_LoadFromFile {W R}.
Arguments ho_build {W R}.
Arguments ho_has_plugin {W R}.
Arguments ho_InClusterConfig {W R}.
Arguments ho_clientset {W R}.
Arguments ho_metadata {W R}.
Arguments ho_ParseCertificate {W R}.
Arguments ho_NewClient {W R}.
Arguments ho_Register {W R}.
Arguments ho_Store {W R}.

Inductive startup_error :=
  | BadConfig (e : config_error)
  | BadPolicy (f : Fault)
  | SampleUnreadable
  | BadInventory (e : local_error)
  | BadIdentity (e : identity_error)
  | BadKubeconfig (e : Kubeconfig.error)
  | NoInClusterConfig
  | NoKubernetesClient
  | NoFingerprint (e : Port.Error)
  | NoTokenFile
  | TokenUnreadable
  | TokenEmpty
  | NoServerName
  | BadPins (e : pin_error)
  | NoControlPlaneClient
  | NoMetadataClient.

(** [NewGRPCConnector]: the identity every attempt presents. *)
Definition RegistrationIDMetadataKey : string := "opencluster-registration-id".
Definition CredentialMetadataKey : string := "opencluster-relay-credential".
Definition connector_metadata (c : Credential) : metadata :=
  [(OrgIDMetadataKey, Identity.OrgID c); (RegistrationIDMetadataKey, Identity.RegistrationID c);
   (CredentialMetadataKey, Secret c)].

(** Each attempt calls [Connect] with that identity appended to the metadata its context carries. *)
Definition NewGRPCConnector {W S E} (client_Connect : metadata → Ctx W → W → result E S * W) (c : Credential)
    : metadata → Ctx W → W → result E S * W := λ outgoing ctx w,
  let outgoing := outgoing ++ connector_metadata c in
  match client_Connect outgoing ctx w with
  | (Err e, w) => (Err e, w)
  | (Ok stream, w) => (Ok stream, w)
  end.

(** What [run] ends in when it serves: what the session is made of. *)
Record serving (W : Type) := {
  sv_Session : Session.Config;
  sv_HeartbeatInterval : Duration;
  sv_ResendInterval : Duration;
  sv_Metadata : metadata;
  sv_Transport : tls_config;
  sv_Executor : Executor W;
  sv_Inventory : option (Setup * Sync.Reader W);
}.
Arguments sv_Session {W}.
Arguments sv_HeartbeatInterval {W}.
Arguments sv_ResendInterval {W}.
Arguments sv_Metadata {W}.
Arguments sv_Transport {W}.
Arguments sv_Executor {W}.
Arguments sv_Inventory {W}.

Inductive outcome (W : Type) :=
  | Exits (e : startup_error)
  | Prints (preview : string)
  | Serves (s : serving W).
Arguments Exits {W}.
Arguments Prints {W}.
Arguments Serves {W}.

(** A step of [run] that can end it. *)
Definition or_exit {A W} (r : result startup_error A) (w : W) (k : A → outcome W * W) : outcome W * W :=
  match r with Ok a => k a | Err e => (Exits e, w) end.
Definition map_error {A E F} (f : E → F) (r : result E A) : result F A :=
  match r with Ok a => Ok a | Err e => Err (f e) end.

Section process.
Context {W R : Type} (host : Host W R) (now : W → Time) (range : Runtime.ranging) (sweep_clock : W → nat → Time)
  (emit : audit_line → W → W) (size : option JobResult → Z) (root : Ctx W).

Definition guard_for (cfg : Config.Config) : Guard :=
  Enforcement.Load (ho_ReadFile host) (ho_policy_decode host) (ho_compile host) (Config.RedactionPolicyFile cfg).

Definition dryRun (guard : Guard) (samplePath : string) : result startup_error string :=
  match g_fault guard with
  | Some fault => Err (BadPolicy fault)
  | None =>
      match (if (samplePath =? "-")%string then ho_Stdin host else ho_ReadFile host samplePath) with
      | None => Err SampleUnreadable
      | Some sample =>
          let policy := default Default (g_policy guard) in
          Ok (Render policy (DryRun policy sample))
      end
  end.

Definition restConfigFor (cfg : Config.Config) : result startup_error R :=
  if negb (Config.KubeconfigPath cfg =? "")%string then
    map_error BadKubeconfig
      (Kubeconfig.LoadKubeconfig (ho_LoadFromFile host) (ho_build host) (ho_has_plugin host)
         (Config.KubeconfigPath cfg))
  else match ho_InClusterConfig host with Some c => Ok c | None => Err NoInClusterConfig end.

Definition clusterFingerprint (client : Reader.Client W) (w : W) : result startup_error string * W :=
  let '(r, w') := Reader.ClusterFingerprint client (WithTimeout now root w startupTimeout) w in
  (map_error NoFingerprint r, w').

Definition readBootstrapToken (path : string) : result startup_error string :=
  match ho_ReadFile host path with
  | None => Err TokenUnreadable
  | Some raw => if (trim_space raw =? "")%string then Err TokenEmpty else Ok (trim_space raw)
  end.

Definition transportCredentials (cfg : Config.Config) (credentialPins : list string)
    : result startup_error tls_config :=
  match SplitHostPort (Config.ControlPlaneAddress cfg) with
  | None => Err NoServerName
  | Some (serverName, _) =>
      let pins := match credentialPins with [] => Config.InitialSPKIPins cfg | _ => credentialPins end in
      match pins with
      | [] => Ok (NewSystemCredentials serverName)
      | _ => map_error BadPins (NewPinnedCredentials (ho_ParseCertificate host) serverName pins)
      end
  end.

Definition enrollment_params (cfg : Config.Config) (fingerprint : string) (capabilities : list CapabilityDescriptor)
    : EnrollmentParams :=
  {| ep_OrgID := Config.OrgID cfg; ep_ProtocolVersion := protocolVersion; ep_RelayVersion := version;
     ep_ClusterFingerprint := fingerprint; ep_Capabilities := capabilities |}.

Definition enroll (cfg : Config.Config) (fingerprint : string) (capabilities : list CapabilityDescriptor)
    (store : Store W) (w : W) : result startup_error Credential * W :=
  match readBootstrapToken (Config.BootstrapTokenFile cfg), transportCredentials cfg [] with
  | Err e, _ => (Err e, w)
  | _, Err e => (Err e, w)
  | Ok token, Ok credentials =>
      if negb (ho_NewClient host (Config.ControlPlaneAddress cfg) credentials) then (Err NoControlPlaneClient, w)
      else
        let '(r, w') := Enroll (ho_Register host (Config.ControlPlaneAddress cfg) credentials) store token
                          (enrollment_params cfg fingerprint capabilities) w in
        (map_error BadIdentity r, w')
  end.

(** The second half of [run], once the identity is known. *)
Definition serve (cfg : Config.Config) (local : Local) (guard : Guard) (config : R)
    (registry : Registry.t (W := W)) (fingerprint : string) (credential : Credential) (w : W)
    : outcome W * W :=
  or_exit (transportCredentials cfg (SPKIPins credential)) w (λ credentials,
    if negb (ho_NewClient host (Config.ControlPlaneAddress cfg) credentials) then (Exits NoControlPlaneClient, w)
    else
      let made inventory :=
        (Serves
           {| sv_Session :=
                {| Session.OrgID := Identity.OrgID credential;
                   Session.RegistrationID := Identity.RegistrationID credential;
                   Capabilities := Registry.Descriptors registry;
                   Session.MaxConcurrentJobs := Config.MaxConcurrentJobs cfg; RelayVersion := version;
                   ClusterFingerprint := fingerprint; LocalPolicyHash := "";
                   OutboundBuffer := outboundBufferSize; HasInventory := lo_Enabled local |};
              sv_HeartbeatInterval := Config.HeartbeatInterval cfg;
              sv_ResendInterval := Config.ResendInterval cfg;
              sv_Metadata := connector_metadata credential; sv_Transport := credentials;
              sv_Executor := guardedExecutor now sweep_clock emit size (Registry.Execute registry) guard;
              sv_Inventory := inventory |}, w) in
      if lo_Enabled local then
        match ho_metadata host config with
        | None => (Exits NoMetadataClient, w)
        | Some client =>
            made (Some ({| su_local := local; su_allowedNamespaces := Config.AllowedNamespaces cfg |}, lister client))
        end
      else made None).

(** [run]; [sample] is the command line's one option, empty when it is not given. *)
Definition run (sample : string) (w : W) : outcome W * W :=
  or_exit (map_error BadConfig (Config.Load (ho_environment host))) w (λ cfg,
  let guard := guard_for cfg in
  if negb (sample =? "")%string then or_exit (dryRun guard sample) w (λ preview, (Prints preview, w))
  else
  or_exit (map_error BadInventory
    (LoadLocal (ho_ReadFile host) (ho_inventory_decode host) (Config.InventoryConfigFile cfg))) w (λ local,
  let store := ho_Store host (Config.CredentialFile cfg) in
  let '(found, w) := LoadOnStart store w in
  match found with
  | Err ((StorageForbidden _ | EnrollmentRefused | RegisterFailed _ | LoadFailed _) as e) => (Exits (BadIdentity e), w)
  | _ =>
      or_exit (restConfigFor cfg) w (λ config,
      match ho_clientset host config with
      | None => (Exits NoKubernetesClient, w)
      | Some client =>
          let '(fingerprint, w) := clusterFingerprint client w in
          or_exit fingerprint w (λ fingerprint,
          let registry := compiledCapabilities now range client cfg in
          match found with
          | Ok credential => serve cfg local guard config registry fingerprint credential w
          | Err _ =>
              if (Config.BootstrapTokenFile cfg =? "")%string then (Exits NoTokenFile, w)
              else
                let '(enrolled, w) := enroll cfg fingerprint (Registry.Descriptors registry) store w in
                or_exit enrolled w (λ credential, serve cfg local guard config registry fingerprint credential w)
          end)
      end)
  end)).
End process.

(** The same host with another registration service behind it. *)
Definition with_register {W R} (register : string → tls_config → Register_client W) (h : Host W R) : Host W R :=
  {| ho_environment := ho_environment h; ho_ReadFile := ho_ReadFile h; ho_Stdin := ho_Stdin h;
     ho_policy_decode := ho_policy_decode h; ho_compile := ho_compile h;
     ho_inventory_decode := ho_inventory_decode h; ho_LoadFromFile := ho_LoadFromFile h;
     ho_build := ho_build h; ho_has_plugin := ho_has_plugin h; ho_InClusterConfig := ho_InClusterConfig h;
     ho_clientset := ho_clientset h; ho_metadata := ho_metadata h;
     ho_ParseCertificate := ho_ParseCertificate h; ho_NewClient := ho_NewClient h;
     ho_Register := register; ho_Store := ho_Store h |}.

Section startup.
Context {W R : Type} (host : Host W R) (now : W → Time) (range : Runtime.ranging) (sweep_clock : W → nat → Time)
  (emit : audit_line → W → W) (size : option JobResult → Z) (root : Ctx W).

Abbreviation run_on h := (run h now range sweep_clock emit size root).
Abbreviation serve_on h := (serve h now sweep_clock emit size).

(** The pins a connection is held to: the credential's, or before there is one the operator's. *)
Definition pins_in_force (cfg : Config.Config) (credentialPins : list string) : list string :=
  match credentialPins with [] => Config.InitialSPKIPins cfg | _ => credentialPins end.

Lemma transportCredentials_Ok cfg pins credentials :
  transportCredentials host cfg pins = Ok credentials →
  ∃ serverName port, SplitHostPort (Config.ControlPlaneAddress cfg) = Some (serverName, port)
    ∧ match pins_in_force cfg pins with
      | [] => credentials = NewSystemCredentials serverName
      | _ => NewPinnedCredentials (ho_ParseCertificate host) serverName (pins_in_force cfg pins) = Ok credentials
      end.
Proof.
  unfold transportCredentials. fold (pins_in_force cfg pins).
  destruct (SplitHostPort _) as [[serverName port]|]; [|done]. intros H. exists serverName, port. split; [done|].
  destruct (pins_in_force cfg pins) as [|p l]; [by injection H as <-|].
  unfold map_error in H. by destruct (NewPinnedCredentials _ _ _); simplify_eq.
Qed.

(** What is served, given the identity. *)
Definition serves_as (cfg : Config.Config) (config : R) (client : Reader.Client W) (credential : Credential)
    (s : serving W) : Prop :=
  Session.OrgID (sv_Session s) = Identity.OrgID credential
  ∧ Session.RegistrationID (sv_Session s) = Identity.RegistrationID credential
  ∧ (Session.MaxConcurrentJobs (sv_Session s) = Config.MaxConcurrentJobs cfg
     ∧ OutboundBuffer (sv_Session s) = outboundBufferSize)
  ∧ Capabilities (sv_Session s) = Registry.Descriptors (compiledCapabilities now range client cfg)
  ∧ (sv_HeartbeatInterval s = Config.HeartbeatInterval cfg ∧ sv_ResendInterval s = Config.ResendInterval cfg)
  ∧ sv_Metadata s = connector_metadata credential
  ∧ sv_Executor s = guardedExecutor now sweep_clock emit size
      (Registry.Execute (compiledCapabilities now range client cfg)) (guard_for host cfg)
  ∧ transportCredentials host cfg (SPKIPins credential) = Ok (sv_Transport s)
  ∧ match sv_Inventory s with
    | Some (setup, reader) => lo_Enabled (su_local setup) = true
        ∧ su_allowedNamespaces setup = Config.AllowedNamespaces cfg
        ∧ LoadLocal (ho_ReadFile host) (ho_inventory_decode host) (Config.InventoryConfigFile cfg) = Ok (su_local setup)
        ∧ ∃ metadata, ho_metadata host config = Some metadata ∧ reader = lister metadata
    | None => HasInventory (sv_Session s) = false
    end.

Lemma serve_Serves cfg local config client fingerprint credential w s w' :
  LoadLocal (ho_ReadFile host) (ho_inventory_decode host) (Config.InventoryConfigFile cfg) = Ok local →
  serve_on host cfg local (guard_for host cfg) config (compiledCapabilities now range client cfg) fingerprint credential w
    = (Serves s, w') →
  w' = w ∧ serves_as cfg config client credential s.
Proof.
  intros Hlocal. unfold serve, or_exit, serves_as. destruct (transportCredentials _ _ _) as [credentials|]; [|done].
  destruct (negb _); [done|]. destruct (lo_Enabled local) eqn:El.
  - destruct (ho_metadata host config) as [mc|] eqn:Emc; [|done]. intros [= <- <-]. split_and!; try done. cbn. split_and!; [done..|]. by exists mc.
  - intros [= <- <-]. by split_and!.
Qed.

Lemma serve_register register cfg local guard config registry fingerprint credential w :
  serve_on (with_register register host) cfg local guard config registry fingerprint credential w
  = serve_on host cfg local guard config registry fingerprint credential w.
Proof. done. Qed.

Lemma LoadOnStart_errors (store : Store W) w e w' :
  LoadOnStart store w = (Err e, w') → e = BootstrapRequired ∨ ∃ c, e = LoadFailed c.
Proof. unfold LoadOnStart. destruct (st_Load store w) as [[c|[]] w1]; intros [= <- <-]; eauto. Qed.

(** With a credential stored, the registration service takes no part. *)
Lemma run_register register sample w :
  (∀ cfg, Config.Load (ho_environment host) = Ok cfg →
     is_ok (LoadOnStart (ho_Store host (Config.CredentialFile cfg)) w).1 = true) →
  run_on (with_register register host) sample w = run_on host sample w.
Proof.
  intros Hok. unfold run.
  change (ho_environment (with_register register host)) with (ho_environment host).
  destruct (Config.Load (ho_environment host)) as [cfg|]; [|done]. cbn [map_error or_exit].
  specialize (Hok cfg eq_refl). destruct (negb _); [done|].
  change (ho_ReadFile (with_register register host)) with (ho_ReadFile host).
  change (ho_inventory_decode (with_register register host)) with (ho_inventory_decode host).
  destruct (map_error BadInventory _) as [local|]; [|done]. cbn [or_exit].
  change (ho_Store (with_register register host)) with (ho_Store host).
  by destruct (LoadOnStart _ w) as [[c|] w1].
Qed.

(** The one way [run] ends in serving. *)
Lemma run_serving sample w s w' :
  run_on host sample w = (Serves s, w') →
  sample = "" ∧ ∃ cfg config client credential,
    Config.Load (ho_environment host) = Ok cfg ∧ restConfigFor host cfg = Ok config
    ∧ ho_clientset host config = Some client ∧ serves_as cfg config client credential s
    ∧ (pins_in_force cfg (SPKIPins credential) ≠ [] → ∃ serverName,
         NewPinnedCredentials (ho_ParseCertificate host) serverName (pins_in_force cfg (SPKIPins credential))
         = Ok (sv_Transport s))
    ∧ ((∃ w1, LoadOnStart (ho_Store host (Config.CredentialFile cfg)) w = (Ok credential, w1)
          ∧ ∀ register, run_on (with_register register host) sample w
              = (Serves s, w'))
       ∨ ∃ w1 w2 tls token fingerprint,
           LoadOnStart (ho_Store host (Config.CredentialFile cfg)) w = (Err BootstrapRequired, w1)
           ∧ readBootstrapToken host (Config.BootstrapTokenFile cfg) = Ok token
           ∧ transportCredentials host cfg [] = Ok tls
           ∧ Enroll (ho_Register host (Config.ControlPlaneAddress cfg) tls)
               (ho_Store host (Config.CredentialFile cfg)) token
               (enrollment_params cfg fingerprint (Capabilities (sv_Session s))) w2 = (Ok credential, w')).
Proof.
  intros H. pose proof H as Hrun. revert H. unfold run at 1, or_exit at 1, map_error at 1.
  destruct (Config.Load (ho_environment host)) as [cfg|] eqn:Ecfg; [|done].
  destruct (String.eqb_spec sample "") as [->|Hs]; cbn [negb].
  2: { unfold or_exit. by destruct (dryRun host (guard_for host cfg) sample). }
  unfold or_exit at 1, map_error at 1.
  destruct (LoadLocal (ho_ReadFile host) _ _) as [local|] eqn:Elocal; [|done].
  destruct (LoadOnStart _ w) as [found w1] eqn:Efound. intros H. split; [done|].
  assert (Hserve : ∀ config client credential, serves_as cfg config client credential s →
    pins_in_force cfg (SPKIPins credential) ≠ [] → ∃ serverName,
      NewPinnedCredentials (ho_ParseCertificate host) serverName (pins_in_force cfg (SPKIPins credential))
      = Ok (sv_Transport s)).
  { intros config client credential (_ & _ & _ & _ & _ & _ & _ & Ht & _) Hne.
    apply transportCredentials_Ok in Ht as (serverName & port & _ & Ht). exists serverName.
    by destruct (pins_in_force cfg (SPKIPins credential)). }
  destruct found as [credential|e].
  - unfold or_exit at 1 in H. destruct (restConfigFor host cfg) as [config|] eqn:Econfig; [|done].
    destruct (ho_clientset host config) as [client|] eqn:Eclient; [|done].
    destruct (clusterFingerprint now root client w1) as [[fingerprint|] w2]; [|done]. cbn [or_exit] in H.
    apply (serve_Serves _ _ _ _ _ _ _ _ _ Elocal) in H as [-> Hs]. exists cfg, config, client, credential. split_and!; [done..|by eapply Hserve|].
    left. exists w1. split; [done|]. intros register. rewrite run_register; [done|].
    intros cfg' E. assert (cfg' = cfg) as -> by congruence. by rewrite Efound.
  - destruct (LoadOnStart_errors _ _ _ _ Efound) as [->|[c ->]]; [|done].
    unfold or_exit at 1 in H. destruct (restConfigFor host cfg) as [config|] eqn:Econfig; [|done].
    destruct (ho_clientset host config) as [client|] eqn:Eclient; [|done].
    destruct (clusterFingerprint now root client w1) as [[fingerprint|] w2]; [|done]. cbn [or_exit] in H.
    destruct (_ =? _)%string; [done|].
    destruct (enroll host cfg fingerprint _ _ w2) as [enrolled w3] eqn:Ee.
    destruct enrolled as [credential|]; [|done]. cbn [or_exit] in H.
    apply (serve_Serves _ _ _ _ _ _ _ _ _ Elocal) in H as [-> Hs]. exists cfg, config, client, credential. split_and!; [done..|by eapply Hserve|].
    right. unfold enroll in Ee. destruct (readBootstrapToken _ _) as [token|] eqn:Et; [|done].
    destruct (transportCredentials host cfg []) as [tls|] eqn:Etls; [|done]. destruct (negb _); [done|].
    destruct (Enroll _ _ _ _ w2) as [r w4] eqn:Een. exists w1, w2, tls, token, fingerprint.
    destruct Hs as (_ & _ & _ & -> & _). split_and!; [done..|].
    destruct r as [c|]; [|done]. injection Ee as <- <-. exact Een.
Qed.

(** C28: what the process serves when it serves. It serves one identity, the durable credential: the one
    its store holds, in which case no enrollment takes part at all, or, when the store holds none, the
    one enrolled with the operator's token, under the organization configured and attesting the very
    capabilities the session advertises, which are the compiled ones. Every call to the control plane
    presents that identity, and is pinned whenever the credential or the operator brought a pin; jobs run
    behind the redaction policy and the audit log, on the client of the cluster configured; and change detection runs only when the operator left
    it enabled, within the operator's namespaces. *)
Theorem run_serves sample w s w' :
  run_on host sample w = (Serves s, w') →
  sample = "" ∧ ∃ cfg config client credential,
    Config.Load (ho_environment host) = Ok cfg ∧ restConfigFor host cfg = Ok config
    ∧ ho_clientset host config = Some client ∧ serves_as cfg config client credential s
    ∧ (pins_in_force cfg (SPKIPins credential) ≠ [] → ∃ serverName,
         NewPinnedCredentials (ho_ParseCertificate host) serverName (pins_in_force cfg (SPKIPins credential))
         = Ok (sv_Transport s))
    ∧ ((∃ w1, LoadOnStart (ho_Store host (Config.CredentialFile cfg)) w = (Ok credential, w1)
          ∧ ∀ register, run_on (with_register register host) sample w
              = (Serves s, w'))
       ∨ ∃ w1 w2 tls token fingerprint,
           LoadOnStart (ho_Store host (Config.CredentialFile cfg)) w = (Err BootstrapRequired, w1)
           ∧ readBootstrapToken host (Config.BootstrapTokenFile cfg) = Ok token
           ∧ transportCredentials host cfg [] = Ok tls
           ∧ Enroll (ho_Register host (Config.ControlPlaneAddress cfg) tls)
               (ho_Store host (Config.CredentialFile cfg)) token
               (enrollment_params cfg fingerprint (Capabilities (sv_Session s))) w2 = (Ok credential, w')).
Proof. apply run_serving. Qed.
End startup.

(** ** A concrete process

    A cluster that answers nothing but its identity, a credential file on a disk, and a control plane that
    registers the organization of the sample environment. *)

Definition dead : Reader.api_error :=
  {| Reader.is_Canceled := false; Reader.is_DeadlineExceeded := false; Reader.IsNotFound := false;
     Reader.IsUnauthorized := false; Reader.IsForbidden := false |}.

Definition sample_client (W : Type) : Reader.Client W :=
  {| Reader.cl_Deployment _ _ _ w := (Err dead, w); Reader.cl_StatefulSet _ _ _ w := (Err dead, w);
     Reader.cl_DaemonSet _ _ _ w := (Err dead, w); Reader.cl_Pod _ _ _ w := (Err dead, w);
     Reader.cl_Pods _ _ _ _ w := (Err dead, w); Reader.cl_Events _ _ _ _ w := (Err dead, w);
     Reader.cl_Logs _ _ _ _ w := (Err dead, w); Reader.cl_NamespaceUID _ _ w := (Ok "uid", w);
     Reader.as_selector _ := "" |}.

(** Jobs run in a world that is the audit log. *)
Definition sample_events_job (namespace : string) : JobAssignment :=
  {| ja_JobId := "j1"; ja_OrgId := "org"; ja_RegistrationId := "42"; ja_LeaseEpoch := 3;
     ja_CapabilityId := "kubernetes.namespace.events"; ja_CapabilityVersion := 1;
     ja_DeadlineBudget := Some Second; ja_IdempotencyKey := ""; ja_CorrelationId := "";
     ja_Arguments := Some (Args_Events
       {| ea_Namespace := namespace; ea_WindowStart := Some 0; ea_WindowEnd := Some 10;
          ea_InvolvedObject := None; ea_MaxEvents := 10 |}) |}.

Lemma guarded_pipeline_witness :
  ∃ cfg r w1 duration, Config.Load sample_environment = Ok cfg
    ∧ guardedExecutor (λ _, 0) (λ _ _, 0) cons (λ _, 7)
        (Registry.Execute (compiledCapabilities (λ _, 0) map_to_list (sample_client (list audit_line)) cfg))
        (guard_of (Ok Default)) (λ _, None) (sample_events_job "kube-system") []
      = (Some r, line_for (λ _, 7) (sample_events_job "kube-system") (Some r) duration :: w1)
    ∧ w1 = [] ∧ jr_JobId r = "j1" ∧ GetResult r = None.
Proof.
  assert (Hout : "kube-system" ∉ ({[ "prod"; "dev" ]} : gset string)) by set_solver.
  assert (Hok : (Config.AllowedNamespaces <$> Config.Load sample_environment) = Ok (Some {[ "prod"; "dev" ]}))
    by (vm_compute; reflexivity).
  destruct (Config.Load sample_environment) as [cfg|] eqn:E; [|done].
  destruct (guarded_pipeline (λ _, 0) map_to_list (λ _ _, 0) cons (λ _, 7) sample_environment cfg
    (sample_client (list audit_line)) (guard_of (Ok Default)) (λ _, None) (sample_events_job "kube-system") [] E)
    as (r & w1 & duration & H & Hj & _ & _ & Hns & _).
  injection Hok as Ha. destruct (Hns _ "kube-system" Ha eq_refl Hout) as [-> Hn].
  exists cfg, r, [], duration. exact (conj eq_refl (conj H (conj eq_refl (conj Hj Hn)))).
Defined.

(** What the control plane answers a registration with, given the pins it sends. *)
Definition sample_registration (pins : list string) : RegisterResponse :=
  {| rp_OrgId := "org"; rp_RegistrationId := "42"; rp_Credential := "secret"; rp_SpkiPins := pins;
     rp_ProtocolVersion := 1 |}.

Definition sample_host (pins : list string) : Host Disk.FS unit :=
  {| ho_environment key := if (key =? "RELAY_BOOTSTRAP_TOKEN_FILE")%string then Some "/token"
                           else sample_environment key;
     ho_ReadFile path := if (path =? "/token")%string then Some "t0ken" else None;
     ho_Stdin := None; ho_policy_decode _ := (DecodedEOF, DecodedEOF); ho_compile _ := None;
     ho_inventory_decode _ := (DocumentEOF, DocumentEOF);
     ho_LoadFromFile _ := Err Kubeconfig.NotExist; ho_build _ := None; ho_has_plugin _ := false;
     ho_InClusterConfig := Some tt; ho_clientset _ := Some (sample_client Disk.FS);
     ho_metadata _ := Some
       {| ic_Deployments _ _ _ w := (Err dead, w); ic_StatefulSets _ _ _ w := (Err dead, w);
          ic_DaemonSets _ _ _ w := (Err dead, w); ic_Metadata _ _ _ _ w := (Err dead, w);
          ic_Marshal _ := None |};
     ho_ParseCertificate := Some; ho_NewClient _ _ := true;
     ho_Register _ _ _ _ w := (Ok (sample_registration pins), w);
     ho_Store path := NewFileStore path id (λ f _, f) (λ _, sample_io) (λ _, None) |}.

Definition sample_run (pins : list string) (w : Disk.FS) : outcome Disk.FS * Disk.FS :=
  run (sample_host pins) (λ _, 0) map_to_list (λ _ _, 0) (λ _ w, w) (λ _, 7) (λ _, None) "" w.

(** The first start enrolls, the second finds what the first one saved. *)
Definition is_served (o : outcome Disk.FS) : bool := match o with Serves _ => true | _ => false end.

Definition sample_store : Store Disk.FS :=
  NewFileStore "/var/lib/relay/credential.json" id (λ f _, f) (λ _, sample_io) (λ _, None).

Lemma run_serves_witness :
  ∃ s w1, sample_run [sample_pin] empty_disk = (Serves s, w1)
    ∧ sv_Metadata s = connector_metadata (credential_of (sample_registration [sample_pin]))
    ∧ (LoadOnStart (sample_store) w1).1
      = Ok (credential_of (sample_registration [sample_pin])).
Proof.
  assert (Hs : is_served (sample_run [sample_pin] empty_disk).1 = true) by (vm_compute; reflexivity).
  assert (Hl : (LoadOnStart sample_store (sample_run [sample_pin] empty_disk).2).1
    = Ok (credential_of (sample_registration [sample_pin]))) by (vm_compute; reflexivity).
  assert (Hp : (Config.CredentialFile <$> Config.Load (ho_environment (sample_host [sample_pin])))
    = Ok "/var/lib/relay/credential.json") by (vm_compute; reflexivity).
  destruct (sample_run [sample_pin] empty_disk) as [[| |s] w1] eqn:E; [discriminate Hs..|].
  exists s, w1. split; [reflexivity|].
  unfold sample_run in E. apply run_serves in E as (_ & cfg & config & client & credential & Hc & _ & _ & Has & _ & Hid).
  destruct Has as (_ & _ & _ & _ & _ & Hm & _). rewrite Hm. split; [|exact Hl]. rewrite Hc in Hp. injection Hp as Hp.
  destruct Hid as [(w0 & H & _)|(w0 & w2 & tls & token & fingerprint & _ & _ & _ & H)].
  - exfalso. change (LoadOnStart (NewFileStore (Config.CredentialFile cfg) id (λ f _, f) (λ _, sample_io) (λ _, None))
      empty_disk = (Ok credential, w0)) in H. rewrite Hp in H. apply (f_equal (is_ok ∘ fst)) in H. by vm_compute in H.
  - clear - H. unfold Enroll in H. cbn [ho_Register sample_host] in H. destruct (negb _); [discriminate H|].
    destruct (st_Save _ _ _) as [[saved|cause] w3]; [|discriminate H]. by injection H as <- _.
Defined.

(** A control plane that sends no pins leaves the session itself, not only the first registration, on the
    system's certificates. *)
Example unpinned_session :
  match sample_run [] empty_disk with
  | (Serves s, _) => sv_Transport s = NewSystemCredentials "cp.example.com"
  | _ => False
  end.
Proof. vm_compute. reflexivity. Qed.

(** Pins that are no digests are stored with the credential before anything looks at them: this start and
    every later one ends in the same refusal, and no later one enrolls again. *)
Example unusable_pins_stored :
  let first := sample_run ["p"] empty_disk in
  first.1 = Exits (BadPins (NotADigest 0)) ∧ (sample_run [sample_pin] first.2).1 = Exits (BadPins (NotADigest 0)).
Proof. vm_compute. by split. Qed.
