(* ===== verification/Typing.v ===== *)
(** * Results are well-typed messages (proto/opencluster/relay/v1)

    A typing of reflective messages against the descriptors of Declared: every field is one of its
    message's, of the declared kind, at most once and in descriptor order, and populated. The payloads the
    capabilities build are well typed, the sweep preserves typing, and so does attaching its report; so
    whatever leaves the relay is a CapabilityResult in the variant of the job's capability. *)

From S2P Require Import Prelude GoString Wire Execution Masking Declared Policy Sweep Payloads Enforcement Kube Logs Events Runtime Config AuditTrail Main.
From stdpp Require Import options.

(** ** The judgement *)

Definition field_named (message name : string) : option field_desc :=
  snd <$> list_find (λ f, fd_Name f = name) (fields_of schema message).

(** The names are some of the declared ones, in their order. *)
Fixpoint in_order (names decls : list string) : bool :=
  match names, decls with
  | [], _ => true
  | _ :: _, [] => false
  | n :: names', d :: decls' => if (n =? d)%string then in_order names' decls' else in_order names decls'
  end.

Fixpoint well_typed (name : string) (m : pmsg) : bool :=
  match m with
  | PMsg descriptor fields =>
      (descriptor =? name)%string
      && in_order fields.*1 (fd_Name <$> fields_of schema name)
      && forallb (λ '(n, v), match field_named name n with
                             | Some f => well_typed_value (fd_Kind f) (fd_IsList f) v
                             | None => false
                             end) fields
  end
with well_typed_value (kind : field_kind) (is_list : bool) (v : pval) : bool :=
  match kind, is_list, v with
  | ScalarKind, false, VScalar _ => true
  | StringKind, false, VString s => negb (s =? "")%string
  | StringKind, true, VStrings l => negb (bool_decide (l = []))
  | MessageKind name false, false, VMessage m => well_typed name m
  | MessageKind name false, true, VMessages l => negb (bool_decide (l = [])) && forallb (well_typed name) l
  | _, _, _ => false
  end.

(** The fields of a message of type [name]. *)
Definition typed_field (name : string) (x : string * pval) : bool :=
  match field_named name x.1 with
  | Some f => well_typed_value (fd_Kind f) (fd_IsList f) x.2
  | None => false
  end.

Definition typed_fields (name : string) (fields : list (string * pval)) : bool := forallb (typed_field name) fields.

Lemma well_typed_eq name d fields :
  well_typed name (PMsg d fields)
  = (d =? name)%string && in_order fields.*1 (fd_Name <$> fields_of schema name) && typed_fields name fields.
Proof. cbn [well_typed]. f_equal. induction fields as [|[n v] l IH]; [done|]. cbn. by rewrite IH. Qed.

Lemma well_typed_PMsg name fields :
  in_order fields.*1 (fd_Name <$> fields_of schema name) = true → typed_fields name fields = true →
  well_typed name (PMsg name fields) = true.
Proof. intros H1 H2. by rewrite well_typed_eq, String.eqb_refl, H1, H2. Qed.

(** ** Building typed messages, field by field *)

Lemma in_order_tail n names decls : in_order (n :: names) decls = true → in_order names decls = true.
Proof.
  revert n names. induction decls as [|d decls IH]; intros n names; [done|]. cbn [in_order].
  destruct (n =? d)%string; [|intros H; destruct names as [|k names]; [done|]; cbn [in_order]].
  - intros H. destruct names as [|k names]; [done|]. cbn [in_order]. case_match; [|done]. by eapply IH.
  - apply IH in H. case_match; [by eapply IH|done].
Qed.

Lemma in_order_skip d names decls : in_order names decls = true → in_order names (d :: decls) = true.
Proof.
  destruct names as [|n names]; [done|]. intros H. cbn [in_order]. case_match; [|done]. by eapply in_order_tail.
Qed.

Lemma in_order_field n l rest decls :
  l.*1 = [] ∨ l.*1 = [n] → in_order rest.*1 decls = true →
  in_order ((l : list (string * pval)) ++ rest).*1 (n :: decls) = true.
Proof.
  intros Hl H. rewrite fmap_app. destruct Hl as [Hl|Hl]; rewrite Hl.
  - by apply in_order_skip.
  - simpl. by rewrite String.eqb_refl.
Qed.

Lemma in_order_last n l decls :
  l.*1 = [] ∨ l.*1 = [n] → in_order (l : list (string * pval)).*1 (n :: decls) = true.
Proof. intros H. rewrite <- (app_nil_r l). apply in_order_field; [done|]. by destruct decls. Qed.

Lemma named_scalar n z : (scalar_field n z).*1 = [] ∨ (scalar_field n z).*1 = [n].
Proof. unfold scalar_field. case_match; auto. Qed.
Lemma named_bool n b : (bool_field n b).*1 = [] ∨ (bool_field n b).*1 = [n].
Proof. destruct b; auto. Qed.
Lemma named_string n s : (string_field n s).*1 = [] ∨ (string_field n s).*1 = [n].
Proof. unfold string_field. case_match; auto. Qed.
Lemma named_strings n l : (strings_field n l).*1 = [] ∨ (strings_field n l).*1 = [n].
Proof. destruct l; auto. Qed.
Lemma named_message n m : (message_field n m).*1 = [] ∨ (message_field n m).*1 = [n].
Proof. destruct m; auto. Qed.
Lemma named_messages n l : (messages_field n l).*1 = [] ∨ (messages_field n l).*1 = [n].
Proof. destruct l; auto. Qed.
Lemma named_time n t : (time_field n t).*1 = [] ∨ (time_field n t).*1 = [n].
Proof. apply named_message. Qed.
Lemma named_duration n d : (duration_field n d).*1 = [] ∨ (duration_field n d).*1 = [n].
Proof. apply named_message. Qed.

Create HintDb typing.
#[export] Hint Resolve named_scalar named_bool named_string named_strings named_message named_messages named_time
  named_duration : typing.

Lemma typed_app name l k : typed_fields name (l ++ k) = typed_fields name l && typed_fields name k.
Proof. apply forallb_app. Qed.

Lemma typed_one name n v kind is_list :
  field_named name n = Some (Field n kind is_list) → well_typed_value kind is_list v = true →
  typed_fields name [(n, v)] = true.
Proof. intros H Hv. unfold typed_fields, typed_field. cbn [forallb fst snd]. rewrite H. cbn. by rewrite Hv. Qed.

Lemma typed_scalar name n z : field_named name n = Some (scalar n) → typed_fields name (scalar_field n z) = true.
Proof. intros H. unfold scalar_field. case_match; [done|]. by eapply typed_one. Qed.
Lemma typed_bool name n b : field_named name n = Some (scalar n) → typed_fields name (bool_field n b) = true.
Proof. intros H. destruct b; [|done]. by eapply typed_one. Qed.
Lemma typed_string name n s : field_named name n = Some (str n) → typed_fields name (string_field n s) = true.
Proof. intros H. unfold string_field. case_match eqn:E; [done|]. eapply typed_one; [done|]. cbn. by rewrite E. Qed.
Lemma typed_strings name n l : field_named name n = Some (strs n) → typed_fields name (strings_field n l) = true.
Proof. intros H. destruct l; [done|]. by eapply typed_one. Qed.
Lemma typed_message name n t m :
  field_named name n = Some (msg n t) → (∀ x, m = Some x → well_typed t x = true) →
  typed_fields name (message_field n m) = true.
Proof. intros H Hm. destruct m as [x|]; [|done]. eapply typed_one; [done|]. by apply Hm. Qed.
Lemma typed_messages name n t l :
  field_named name n = Some (msgs n t) → (∀ x, x ∈ l → well_typed t x = true) →
  typed_fields name (messages_field n l) = true.
Proof.
  intros H Hm. destruct l as [|x l]; [done|]. eapply typed_one; [done|]. cbn [well_typed_value].
  rewrite bool_decide_eq_false_2 by done. apply forallb_forall. intros y Hy. apply Hm. by apply list_elem_of_In.
Qed.
Lemma typed_time name n t :
  field_named name n = Some (msg n Timestamp_name) → typed_fields name (time_field n t) = true.
Proof. intros H. eapply typed_message; [done|]. by intros x (? & _ & ->)%fmap_Some. Qed.
Lemma typed_duration name n d :
  field_named name n = Some (msg n Duration_name) → typed_fields name (duration_field n d) = true.
Proof. intros H. eapply typed_message; [done|]. by intros x [= <-]. Qed.

(** Splits a message into its fields and closes those without a message inside. *)
Ltac typed_message_fields :=
  apply well_typed_PMsg;
  [ match goal with |- in_order _ (fd_Name <$> fields_of schema ?n) = true =>
      let d := eval vm_compute in (fd_Name <$> fields_of schema n) in
      change (fd_Name <$> fields_of schema n) with d end;
    repeat (apply in_order_field; [by auto with typing|]); apply in_order_last; by auto with typing
  | rewrite ?typed_app;
    repeat match goal with |- (_ && _)%bool = true => apply andb_true_iff; split end;
    lazymatch goal with
    | |- typed_fields _ (scalar_field _ _) = true => apply typed_scalar; vm_compute; reflexivity
    | |- typed_fields _ (bool_field _ _) = true => apply typed_bool; vm_compute; reflexivity
    | |- typed_fields _ (string_field _ _) = true => apply typed_string; vm_compute; reflexivity
    | |- typed_fields _ (strings_field _ _) = true => apply typed_strings; vm_compute; reflexivity
    | |- typed_fields _ (time_field _ _) = true => apply typed_time; vm_compute; reflexivity
    | |- typed_fields _ (duration_field _ _) = true => apply typed_duration; vm_compute; reflexivity
    | |- typed_fields _ (message_field _ _) = true => eapply typed_message; [vm_compute; reflexivity|]
    | |- typed_fields _ (messages_field _ _) = true => eapply typed_messages; [vm_compute; reflexivity|]
    end ].

Lemma line_typed l : well_typed (v1 "KubernetesLogLine") (Logs.reflect_line l) = true.
Proof. unfold Logs.reflect_line. typed_message_fields. Qed.

Lemma logs_typed r : well_typed (v1 "KubernetesContainerLogsResultV1") (Logs.reflect r) = true.
Proof.
  unfold Logs.reflect. typed_message_fields. intros x (l & -> & _)%list_elem_of_fmap. apply line_typed.
Qed.

Lemma event_typed e : well_typed (v1 "KubernetesEvent") (Events.reflect_event e) = true.
Proof.
  unfold Events.reflect_event. typed_message_fields. intros x [= <-].
  unfold Events.reflect_involved. typed_message_fields.
Qed.

Lemma events_typed r : well_typed (v1 "KubernetesNamespaceEventsResultV1") (Events.reflect r) = true.
Proof.
  unfold Events.reflect. typed_message_fields. intros x (e & -> & _)%list_elem_of_fmap. apply event_typed.
Qed.

Lemma termination_typed t : well_typed (v1 "KubernetesContainerTermination") (Runtime.reflect_termination t) = true.
Proof. unfold Runtime.reflect_termination. typed_message_fields. Qed.

Lemma state_typed s : well_typed (v1 "KubernetesContainerState") (Runtime.reflect_state s) = true.
Proof.
  unfold Runtime.reflect_state. typed_message_fields. intros x (t & _ & ->)%fmap_Some. apply termination_typed.
Qed.

Lemma container_typed c : well_typed (v1 "KubernetesContainerRuntime") (Runtime.reflect_container c) = true.
Proof.
  unfold Runtime.reflect_container. typed_message_fields.
  - intros x [= <-]. apply state_typed.
  - intros x (t & _ & ->)%fmap_Some. apply termination_typed.
Qed.

Lemma pod_typed p : well_typed (v1 "KubernetesPodRuntime") (Runtime.reflect_pod p) = true.
Proof.
  unfold Runtime.reflect_pod. typed_message_fields. intros x (c & -> & _)%list_elem_of_fmap. apply container_typed.
Qed.

Lemma workload_typed w : well_typed (v1 "KubernetesWorkloadSummary") (Runtime.reflect_workload w) = true.
Proof.
  unfold Runtime.reflect_workload. typed_message_fields. intros x (c & -> & _)%list_elem_of_fmap.
  unfold Runtime.reflect_resources. typed_message_fields.
Qed.

Lemma runtime_typed r : well_typed (v1 "KubernetesWorkloadRuntimeResultV1") (Runtime.reflect r) = true.
Proof.
  unfold Runtime.reflect. typed_message_fields.
  - intros x (w & _ & ->)%fmap_Some. apply workload_typed.
  - intros x (p & -> & _)%list_elem_of_fmap. apply pod_typed.
Qed.

Lemma redacted_typed f : well_typed (v1 "RedactedField") (reflect_redacted f) = true.
Proof.
  replace (reflect_redacted f) with (PMsg (v1 "RedactedField")
    (string_field "field_name" (rf_FieldName f)
     ++ scalar_field "masked_occurrence_count" (rf_MaskedOccurrenceCount f)
     ++ strings_field "rule_ids" (rf_RuleIds f))) by by destruct f as [? ? []].
  typed_message_fields.
Qed.

Lemma report_typed r : well_typed (v1 "RedactionReport") (reflect_report r) = true.
Proof.
  replace (reflect_report r) with (PMsg (v1 "RedactionReport") (messages_field "fields" (reflect_redacted <$> r)))
    by by destruct r.
  typed_message_fields. intros x (f & -> & _)%list_elem_of_fmap. apply redacted_typed.
Qed.

(** ** The sweep keeps a message typed *)

Section sweep.
Context (p : Policy).

Lemma swept_string_nonempty d n path s : s ≠ "" → swept_string p d n path s ≠ "".
Proof.
  intros Hs. unfold swept_string, text. destruct (classify d n) as [c|]; [|done].
  destruct (reads p c path); [|done]. case_bool_decide; [by case_match|by apply mask_nonempty_text].
Qed.

Lemma in_order_names path d fields : (swept_fields p path d fields).*1 = fields.*1.
Proof. unfold swept_fields. rewrite <- list_fmap_compose. by apply list_fmap_ext; intros ? [n v] ?. Qed.

(** Masking changes texts, never the shape of a message or the presence of a field. *)
Lemma swept_typed m : ∀ name path, well_typed name m = true → well_typed name (swept p path m) = true.
Proof.
  apply (pmsg_induction
    (λ m, ∀ name path, well_typed name m = true → well_typed name (swept p path m) = true)
    (λ v, ∀ kind is_list d n path, well_typed_value kind is_list v = true →
            well_typed_value kind is_list (swept_field p d n path v) = true)).
  - intros d fields IH name path. rewrite swept_eq, !well_typed_eq, in_order_names.
    rewrite !andb_true_iff. intros ((Hd & Ho) & Hf). split_and!; [done..|].
    unfold typed_fields in *. rewrite forallb_forall in *.
    intros x (y & -> & Hy)%list_elem_of_In%list_elem_of_fmap. rewrite Forall_forall in IH.
    specialize (IH _ Hy). apply list_elem_of_In, Hf in Hy. destruct y as [n v]. revert Hy. unfold typed_field.
    cbn [fst snd]. destruct (field_named name n) as [f|]; [|done]. apply IH.
  - done.
  - intros s [|  |] [] d n path; try done. cbn. rewrite !negb_true_iff, !String.eqb_neq.
    apply swept_string_nonempty.
  - intros l [|  |] [] d n path; try done. cbn. by destruct l.
  - intros m' IH [| |name []] [] d n path; try done. apply IH.
  - intros l IH [| |name []] [] d n path; try done. cbn [well_typed_value swept_field].
    rewrite !andb_true_iff. intros [Hn Hl]. split; [by destruct l|]. rewrite forallb_forall in *.
    intros x (y & -> & Hy)%list_elem_of_In%list_elem_of_fmap. rewrite Forall_forall in IH.
    apply (IH _ Hy), Hl. by apply list_elem_of_In.
  - done.
Qed.
End sweep.

(** ** What leaves the relay *)

(** A payload as a capability builds it: one field, the capability's variant of the result. *)
Definition variant (field : string) (m : pmsg) : Prop :=
  ∃ t x, field_named (v1 "CapabilityResult") field = Some (msg field t)
    ∧ field ∈ capabilityResults.*2 ∧ m = PMsg (v1 "CapabilityResult") [(field, VMessage x)] ∧ well_typed t x = true.

Lemma variant_swept p field m : variant field m → variant field (swept p "" m).
Proof.
  intros (t & x & Hf & Hr & -> & Hx). exists t, (swept p field x).
  split_and!; [done|done|by destruct field|by apply swept_typed].
Qed.

Lemma variant_names (field : string) : field ∈ capabilityResults.*2 →
  in_order ["redaction"; field] (fd_Name <$> fields_of schema (v1 "CapabilityResult")) = true
  ∧ in_order [field] (fd_Name <$> fields_of schema (v1 "CapabilityResult")) = true ∧ field ≠ "redaction".
Proof.
  unfold capabilityResults. csimpl. rewrite !elem_of_cons, elem_of_nil.
  intros [->|[->|[->|[]]]]; (split_and!; [by vm_compute|by vm_compute|done]).
Qed.

(** A result as it leaves: typed, in the variant of its capability, with at most a report besides. *)
Definition result_of (field : string) (m : pmsg) : Prop :=
  well_typed (v1 "CapabilityResult") m = true ∧ filter (λ n, n ≠ "redaction") (msg_fields m).*1 = [field].

Lemma variant_reported rep field m : variant field m → result_of field (set_redaction rep m).
Proof.
  intros (t & x & Hf & (Ho2 & Ho1 & Hr)%variant_names & -> & Hx).
  assert (Hone : typed_fields (v1 "CapabilityResult") [(field, VMessage x)] = true) by by eapply typed_one.
  unfold set_redaction. rewrite filter_cons_True, filter_nil by done. unfold result_of.
  destruct rep as [r|]; (split; [apply well_typed_PMsg|]).
  - exact Ho2.
  - rewrite typed_app, Hone, andb_true_r. eapply typed_one; [vm_compute; reflexivity|]. apply report_typed.
  - csimpl. rewrite filter_cons_False, filter_cons_True, filter_nil; [done|done|intros H; by apply H].
  - exact Ho1.
  - exact Hone.
  - csimpl. by rewrite filter_cons_True, filter_nil.
Qed.

(** What an executor promises of every payload it returns. *)
Class Yields {W} (e : Executor W) (P : JobAssignment → pmsg → Prop) : Prop :=
  yields ctx job w r w' m : e ctx job w = (Some r, w') → GetResult r = Some m → P job m.

Section yields.
Context {W : Type}.

Lemma Run_yields (clock : W → Time) ctx job read w r w' m :
  Budget.Run clock ctx job read w = (Some r, w') → GetResult r = Some m →
  ∃ c w0, m = Budget.rd_Result (read c w0).1.
Proof.
  unfold Budget.Run. destruct (read _ w) as [rd w1] eqn:E. intros H Hm.
  exists (Budget.exec_ctx clock ctx job w), w. rewrite E. cbn.
  destruct (ctx w1); [by injection H as <- _|].
  destruct (_ && _); injection H as <- _; [done|]. by injection Hm as <-.
Qed.

#[global] Instance logs_yields now reader options :
  Yields (Logs.Execute (W := W) now reader options) (λ _, variant "kubernetes_container_logs_v1").
Proof.
  intros ctx job w r w' m. unfold Logs.Execute. repeat case_match; try by intros [= <- _].
  intros H' (c & w0 & ->)%(Run_yields _ _ _ _ _ _ _ _ H'). case_match. cbn.
  eexists _, _. split_and!; [vm_compute; reflexivity| |reflexivity|apply logs_typed].
  unfold capabilityResults. csimpl. set_solver.
Qed.

#[global] Instance events_yields now reader options :
  Yields (Events.Execute (W := W) now reader options) (λ _, variant "kubernetes_namespace_events_v1").
Proof.
  intros ctx job w r w' m. unfold Events.Execute. repeat case_match; try by intros [= <- _].
  intros H' (c & w0 & ->)%(Run_yields _ _ _ _ _ _ _ _ H'). case_match. cbn.
  eexists _, _. split_and!; [vm_compute; reflexivity| |reflexivity|apply events_typed].
  unfold capabilityResults. csimpl. set_solver.
Qed.

#[global] Instance runtime_yields range now reader options :
  Yields (Runtime.Execute (W := W) range now reader options) (λ _, variant "kubernetes_workload_runtime_v1").
Proof.
  intros ctx job w r w' m. unfold Runtime.Execute. repeat case_match; try by intros [= <- _].
  intros H' (c & w0 & ->)%(Run_yields _ _ _ _ _ _ _ _ H'). case_match. cbn.
  eexists _, _. split_and!; [vm_compute; reflexivity| |reflexivity|apply runtime_typed].
  unfold capabilityResults. csimpl. set_solver.
Qed.
End yields.

(** ** Through the registry, the enforcement point and the audit *)

#[export] Instance registry_yields {W} (r : Registry.t (W := W)) :
  (∀ id version e, r !! (id, version) = Some e →
     ∃ field, (id, version, field) ∈ capabilityResults ∧ Yields e (λ _, variant field)) →
  Yields (Registry.Execute r) (λ job m, ∃ field,
    (ja_CapabilityId job, ja_CapabilityVersion job, field) ∈ capabilityResults ∧ variant field m).
Proof.
  intros Hr ctx job w x w' m. unfold Registry.Execute. destruct (r !! _) as [e|] eqn:E; [|by intros [= <- _]].
  apply Hr in E as (field & Hin & He). intros H Hm. exists field. split; [done|]. exact (He _ _ _ _ _ _ H Hm).
Qed.

#[export] Instance enforce_yields {W} (clock : W → nat → Time) guard inner P :
  Yields inner P →
  Yields (Enforce clock guard inner) (λ job m, ∃ p rep m0, P job m0 ∧ m = set_redaction rep (swept p "" m0)).
Proof.
  intros Hi ctx job w r w' m [(r0 & m0 & rep & H0 & Hm0 & _ & Hr & _)|[->|[_ Hn]]]%Enforce_hands_on Hm;
    [|done|congruence].
  exists (default Default (g_policy guard)), rep, m0. split; [by eapply Hi|]. congruence.
Qed.

#[export] Instance audit_yields {W} (now : W → Time) emit size inner P :
  Yields inner P → Yields (AuditTrail.Execute now emit size inner) P.
Proof.
  intros Hi ctx job w r w' m (r0 & w1 & H & Hr & _)%AuditTrail.Execute_accounts Hm.
  destruct r0 as [r0|]; [|done]. injection Hr as ->. by eapply Hi.
Qed.

(** From the registry of compiled capabilities to what the session is handed. *)
Lemma guarded_typed {W} now range sweep_clock emit size client cfg guard ctx job (w : W) r w' m :
  guardedExecutor now sweep_clock emit size (Registry.Execute (compiledCapabilities now range client cfg)) guard
    ctx job w = (Some r, w') →
  GetResult r = Some m →
  ∃ field, (ja_CapabilityId job, ja_CapabilityVersion job, field) ∈ capabilityResults
    ∧ well_typed (v1 "CapabilityResult") m = true
    ∧ filter (λ n, n ≠ "redaction") (msg_fields m).*1 = [field].
Proof.
  intros H Hm.
  assert (Hy : Yields (Registry.Execute (compiledCapabilities now range client cfg)) (λ job m, ∃ field,
    (ja_CapabilityId job, ja_CapabilityVersion job, field) ∈ capabilityResults ∧ variant field m)).
  { apply registry_yields. intros id version e. unfold compiledCapabilities, Registry.Register, Registry.t.
    cbv zeta. intros He.
    do 3 (apply lookup_insert_Some in He as [[[= <- <-] <-]|[_ He]];
      [eexists; split; [|apply _]; unfold capabilityResults; set_solver|]).
    done. }
  destruct (audit_yields now emit size _ _ (enforce_yields sweep_clock guard _ _ Hy) _ _ _ _ _ _ H Hm)
    as (p & rep & m0 & (field & Hin & Hv) & ->).
  exists field. split; [done|]. exact (variant_reported rep field _ (variant_swept p field m0 Hv)).
Qed.

(** C26: every result that leaves the relay is a well-typed CapabilityResult: each field, at any depth, is one
    the protocol declares for its message, of the declared kind, present once, in order and populated; and it
    is in the variant of the very capability the job named, with nothing beside it but a redaction report,
    whatever the cluster answered and whatever policy masked. *)
Theorem results_well_typed {W} now range sweep_clock emit size client cfg guard ctx job (w : W) r w' m :
  guardedExecutor now sweep_clock emit size (Registry.Execute (compiledCapabilities now range client cfg)) guard
    ctx job w = (Some r, w') →
  GetResult r = Some m →
  ∃ field, (ja_CapabilityId job, ja_CapabilityVersion job, field) ∈ capabilityResults
    ∧ well_typed (v1 "CapabilityResult") m = true
    ∧ filter (λ n, n ≠ "redaction") (msg_fields m).*1 = [field].
Proof. apply guarded_typed. Qed.

(** The configuration the sample environment loads. *)
Definition sample_config : Config.Config.
Proof.
  let c := eval vm_compute in (Config.Load sample_environment) in lazymatch c with Ok ?cfg => exact cfg end.
Defined.

Definition sample_answer : option JobResult :=
  (guardedExecutor (λ _, 0%Z) (λ _ _, 0%Z) cons (λ _, 7%Z)
     (Registry.Execute (compiledCapabilities (λ _, 0%Z) map_to_list (sample_client (list audit_line)) sample_config))
     (guard_of (Ok Default)) (λ _, None) (sample_events_job "prod") []).1.

(** An events job on a cluster that answers nothing still yields a typed result. *)
Lemma results_well_typed_witness :
  ∃ m, sample_answer ≫= GetResult = Some m
    ∧ (msg_fields m).*1 = ["kubernetes_namespace_events_v1"] ∧ well_typed (v1 "CapabilityResult") m = true.
Proof.
  assert (Hn : ((λ m, (msg_fields m).*1) <$> (sample_answer ≫= GetResult)) = Some ["kubernetes_namespace_events_v1"])
    by (vm_compute; reflexivity).
  unfold sample_answer in *. destruct (guardedExecutor _ _ _ _ _ _ _ _ _) as [[r|] w'] eqn:H; [|discriminate].
  cbn [fst] in *. change (Some r ≫= GetResult) with (GetResult r) in *.
  destruct (GetResult r) as [m|] eqn:Em; [|discriminate]. exists m. split_and!; [done|by injection Hn|].
  by destruct (results_well_typed _ _ _ _ _ _ _ _ _ _ _ _ _ _ H Em) as (field & _ & Ht & _).
Defined.
