(* ===== verification/Frame.v ===== *)
(** * What serving does to the world (internal/kube, internal/capabilities, internal/inventory)

    The world is changed by the calls the code makes and by nothing else: the reads a job leads to are
    calls of the clientset in the namespace the job names, made only when the operator's policy allows it,
    and an observation is calls of the metadata client in the namespaces of its scope. [Confined] states
    this of an executor; the registry, the enforcement point and the audit log keep it. *)

From S2P Require Import Prelude GoString Wire Execution Admission Policy Sweep Enforcement Kube KubeInventory Logs Events Runtime InventoryLocal Sync SyncProps Config AuditTrail Main.
From stdpp Require Import options.
Local Open Scope Z_scope.

(** ** Calls *)

(** A call of the clientset that reads the namespace [ns]. *)
Inductive client_call {W} (c : Reader.Client W) (ns : string) (w : W) : W → Prop :=
  | call_Deployment ctx name : client_call c ns w (Reader.cl_Deployment c ctx ns name w).2
  | call_StatefulSet ctx name : client_call c ns w (Reader.cl_StatefulSet c ctx ns name w).2
  | call_DaemonSet ctx name : client_call c ns w (Reader.cl_DaemonSet c ctx ns name w).2
  | call_Pod ctx name : client_call c ns w (Reader.cl_Pod c ctx ns name w).2
  | call_Pods ctx selector limit : client_call c ns w (Reader.cl_Pods c ctx ns selector limit w).2
  | call_Events ctx selector limit : client_call c ns w (Reader.cl_Events c ctx ns selector limit w).2
  | call_Logs ctx pod options : client_call c ns w (Reader.cl_Logs c ctx ns pod options w).2.

(** A call of the inventory's clients that lists in the namespace [ns]; an empty one lists in all. *)
Inductive inventory_call {W} (c : InventoryClient W) (ns : string) (w : W) : W → Prop :=
  | call_Deployments ctx limit : inventory_call c ns w (ic_Deployments c ctx ns limit w).2
  | call_StatefulSets ctx limit : inventory_call c ns w (ic_StatefulSets c ctx ns limit w).2
  | call_DaemonSets ctx limit : inventory_call c ns w (ic_DaemonSets c ctx ns limit w).2
  | call_Metadata ctx resource limit : inventory_call c ns w (ic_Metadata c ctx resource ns limit w).2.

Create HintDb calls.
#[export] Hint Constructors client_call inventory_call : calls.

(** Any number of calls, each in a permitted namespace. *)
Definition reads {W} (call : string → W → W → Prop) (permitted : string → Prop) : W → W → Prop :=
  rtc (λ w w', ∃ ns, permitted ns ∧ call ns w w').

Section reads.
Context {W : Type} (call : string → W → W → Prop).

Lemma reads_refl permitted w : reads call permitted w w.
Proof using. apply rtc_refl. Qed.

Lemma reads_call permitted ns w w' w'' :
  permitted ns → call ns w w' → reads call permitted w' w'' → reads call permitted w w''.
Proof using. intros Hp Hc. apply rtc_l. by exists ns. Qed.

Lemma reads_trans permitted w w' w'' :
  reads call permitted w w' → reads call permitted w' w'' → reads call permitted w w''.
Proof using. intros. by etransitivity. Qed.

Lemma reads_weaken (p q : string → Prop) w w' : (∀ ns, p ns → q ns) → reads call p w w' → reads call q w w'.
Proof using. intros Hpq. apply rtc_subrel. intros x y (ns & ? & ?). exists ns. auto. Qed.
End reads.
#[export] Hint Resolve reads_refl : calls.

(** An executor that reads only what its job permits. *)
Class Confined {W} (call : string → W → W → Prop) (permitted : JobAssignment → string → Prop) (e : Executor W) : Prop :=
  confined ctx job w : reads call (permitted job) w (e ctx job w).2.

(** The namespace of the job, when the policy allows it. *)
Definition asked_for (policy : LocalPolicy.t) (job : JobAssignment) (ns : string) : Prop :=
  job_namespace job = Some ns ∧ LocalPolicy.AllowsNamespace policy ns = true.

(** ** The capabilities *)

Section capabilities.
Context {W : Type} (c : Reader.Client W) (now : W → Time).

Lemma Run_world ctx job read (w : W) : (Budget.Run now ctx job read w).2 = (read (Budget.exec_ctx now ctx job w) w).2.
Proof using. unfold Budget.Run. destruct (read _ w). by repeat case_match. Qed.

(** The rest after a call, on any of its answers. *)
Ltac calling H :=
  let r := fresh "r" in let w := fresh "w" in
  match type of H with client_call _ _ _ (?call).2 => destruct call as [r w] end;
  eapply reads_call; [eassumption|exact H|]; repeat case_match; apply reads_refl.

Lemma GetPod_reads ctx ns name w : client_call c ns w (Reader.GetPod c ctx ns name w).2.
Proof using.
  unfold Reader.GetPod. pose proof (call_Pod c ns w ctx name) as H. by destruct (Reader.cl_Pod _ _ _ _ _).
Qed.

Lemma ContainerLogs_reads ctx request (p : string → Prop) w :
  p (Port.lr_Namespace request) → reads (client_call c) p w (Reader.ContainerLogs c ctx request w).2.
Proof using.
  intros Hp. unfold Reader.ContainerLogs. case_match; [apply reads_refl|].
  pose proof (call_Logs c (Port.lr_Namespace request) w ctx (Port.lr_Pod request) (Reader.log_options request)) as H'.
  calling H'.
Qed.

Lemma ListEvents_reads ctx ns involved limit (p : string → Prop) w :
  p ns → reads (client_call c) p w (Reader.ListEvents c ctx ns involved limit w).2.
Proof using.
  intros Hp. unfold Reader.ListEvents. case_match; [apply reads_refl|].
  match goal with |- context [Reader.cl_Events c ctx ns ?s limit w] =>
    pose proof (call_Events c ns w ctx s limit) as H' end.
  calling H'.
Qed.

Lemma ListPods_reads ctx ns selector limit (p : string → Prop) w :
  p ns → reads (client_call c) p w (Reader.ListPods c ctx ns selector limit w).2.
Proof using.
  intros Hp. unfold Reader.ListPods. case_match; [apply reads_refl|]. case_match; [apply reads_refl|].
  pose proof (call_Pods c ns w ctx selector limit) as H'. calling H'.
Qed.

Lemma fetchWorkload_reads range ctx args (p : string → Prop) w :
  p (ra_Namespace args) →
  reads (client_call c) p w (Runtime.fetchWorkload range (Reader.workload_reader c) ctx args w).2.
Proof using.
  intros Hp. unfold Runtime.fetchWorkload. cbn.
  unfold Reader.GetDeployment, Reader.GetStatefulSet, Reader.GetDaemonSet.
  destruct (ra_WorkloadKind args); try apply reads_refl.
  - pose proof (call_Deployment c (ra_Namespace args) w ctx (ra_WorkloadName args)) as H'. calling H'.
  - pose proof (call_StatefulSet c (ra_Namespace args) w ctx (ra_WorkloadName args)) as H'. calling H'.
  - pose proof (call_DaemonSet c (ra_Namespace args) w ctx (ra_WorkloadName args)) as H'. calling H'.
Qed.

(** Each executor asks nothing before its checks have passed, and then only in the namespace it checked. *)
#[global] Instance logs_confined options :
  Confined (client_call c) (asked_for (Logs.Policy options)) (Logs.Execute now (Reader.log_reader c) options).
Proof using.
  intros ctx job w. unfold Logs.Execute, Logs.GetKubernetesContainerLogsV1.
  destruct (ja_Arguments job) as [[?|?|args]|] eqn:Ea; try apply reads_refl.
  case_match; [apply reads_refl|]. case_match eqn:Hp; [apply reads_refl|]. apply negb_false_iff in Hp.
  assert (Hask : asked_for (Logs.Policy options) job (la_Namespace args))
    by (split; [unfold job_namespace; by rewrite Ea|done]).
  rewrite Run_world. cbn. unfold Logs.read. cbn.
  pose proof (GetPod_reads (Budget.exec_ctx now ctx job w) (la_Namespace args) (la_PodName args) w) as Hpod.
  destruct (Reader.GetPod _ _ _ _ _) as [r w1]. cbn [snd] in Hpod. eapply reads_call; [exact Hask|exact Hpod|].
  destruct r as [pod|e]; [|apply reads_refl]. destruct (Logs.resolveContainer _ _ _) as [o []]; [|apply reads_refl].
  pose proof (ContainerLogs_reads (Budget.exec_ctx now ctx job w) (Logs.log_request options args)
    (asked_for (Logs.Policy options) job) w1 Hask) as Hlogs.
  destruct (Reader.ContainerLogs _ _ _ _) as [r w2]. by destruct r.
Qed.

#[global] Instance events_confined options :
  Confined (client_call c) (asked_for (Events.Policy options)) (Events.Execute now (Reader.event_reader c) options).
Proof using.
  intros ctx job w. unfold Events.Execute, Events.GetKubernetesNamespaceEventsV1.
  destruct (ja_Arguments job) as [[?|args|?]|] eqn:Ea; try apply reads_refl.
  case_match; [apply reads_refl|]. case_match eqn:Hp; [apply reads_refl|]. apply negb_false_iff in Hp.
  assert (Hask : asked_for (Events.Policy options) job (ea_Namespace args))
    by (split; [unfold job_namespace; by rewrite Ea|done]).
  rewrite Run_world. cbn. unfold Events.read. cbn.
  match goal with |- context [Reader.ListEvents c ?x ?n ?i ?l w] =>
    pose proof (ListEvents_reads x n i l (asked_for (Events.Policy options) job) w Hask) as Hev end.
  destruct (Reader.ListEvents _ _ _ _ _ _) as [r w1]. by destruct r.
Qed.

#[global] Instance runtime_confined range options :
  Confined (client_call c) (asked_for (Runtime.Policy options))
    (Runtime.Execute range now (Reader.workload_reader c) options).
Proof using.
  intros ctx job w. unfold Runtime.Execute, Runtime.GetKubernetesWorkloadRuntimeV1.
  destruct (ja_Arguments job) as [[args|?|?]|] eqn:Ea; try apply reads_refl.
  case_match; [apply reads_refl|]. case_match eqn:Hp; [apply reads_refl|]. apply negb_false_iff in Hp.
  assert (Hask : asked_for (Runtime.Policy options) job (ra_Namespace args))
    by (split; [unfold job_namespace; by rewrite Ea|done]).
  rewrite Run_world. cbn. unfold Runtime.read.
  pose proof (fetchWorkload_reads range (Budget.exec_ctx now ctx job w) args
    (asked_for (Runtime.Policy options) job) w Hask) as Hf.
  destruct (Runtime.fetchWorkload _ _ _ _ _) as [[[workload selector]|e] w1]; [|exact Hf].
  destruct (Runtime.RenderSelector _ _) as [rendered|]; [|exact Hf].
  eapply reads_trans; [exact Hf|]. cbn.
  match goal with |- context [Reader.ListPods c ?x ?n ?i ?l w1] =>
    pose proof (ListPods_reads x n i l (asked_for (Runtime.Policy options) job) w1 Hask) as Hpods end.
  destruct (Reader.ListPods _ _ _ _ _ _) as [r w2]. by destruct r.
Qed.
End capabilities.

(** ** Through the registry and the enforcement point *)

#[export] Instance registry_confined {W} call permitted (r : Registry.t (W := W)) :
  (∀ k e, r !! k = Some e → Confined call permitted e) → Confined call permitted (Registry.Execute r).
Proof.
  intros Hr ctx job w. unfold Registry.Execute. destruct (r !! _) as [e|] eqn:E; [|apply reads_refl].
  by apply (Hr _ _ E).
Qed.

#[export] Instance enforce_confined {W} call permitted (clock : W → nat → Time) guard inner :
  Confined call permitted inner → Confined call permitted (Enforce clock guard inner).
Proof.
  intros Hi ctx job w. unfold Enforce. case_match; [apply reads_refl|].
  specialize (Hi ctx job w). destruct (inner ctx job w) as [[r|] w1]; [|exact Hi].
  destruct (GetResult r); [|exact Hi]. by destruct (Sweep _ _ _) as [[]|].
Qed.

#[export] Instance compiled_confined {W} now range (client : Reader.Client W) cfg :
  Confined (client_call client) (asked_for (local_policy cfg))
    (Registry.Execute (compiledCapabilities now range client cfg)).
Proof.
  apply registry_confined. intros k e He. unfold compiledCapabilities, Registry.Register, Registry.t in He.
  cbv zeta in He. apply lookup_insert_Some in He as [[_ <-]|[_ He]]; [by match goal with |- Confined _ _ (Logs.Execute _ _ ?o) => exact (logs_confined client now o) end|].
  apply lookup_insert_Some in He as [[_ <-]|[_ He]]; [by match goal with |- Confined _ _ (Events.Execute _ _ ?o) => exact (events_confined client now o) end|].
  apply lookup_insert_Some in He as [[_ <-]|[_ He]]; [by match goal with |- Confined _ _ (Runtime.Execute _ _ _ ?o) => exact (runtime_confined client now range o) end|done].
Qed.

(** ** Who cancels *)

(** A result says cancelled only when the caller's own context has ended. *)
Class CancelledByCaller {W} (e : Executor W) : Prop :=
  cancelled_by_caller ctx job w r w' :
    e ctx job w = (Some r, w') → GetFailureKind r = KIND_CANCELLED → ∃ v, ctx v ≠ None.

Section cancelling.
Context {W : Type} (now : W → Time).

Lemma Run_cancelled ctx job read (w : W) r w' :
  Budget.Run now ctx job read w = (Some r, w') → GetFailureKind r = KIND_CANCELLED → ∃ v, ctx v ≠ None.
Proof using.
  unfold Budget.Run. destruct (read _ w) as [rd w1]. destruct (ctx w1) as [e|] eqn:E.
  - intros _ _. exists w1. congruence.
  - by case_match; intros [= <- _].
Qed.

#[global] Instance logs_cancelled reader options : CancelledByCaller (Logs.Execute now reader options).
Proof using. intros ctx job w r w'. unfold Logs.Execute. repeat case_match; try (by intros [= <- _]). apply Run_cancelled. Qed.

#[global] Instance events_cancelled reader options : CancelledByCaller (Events.Execute now reader options).
Proof using. intros ctx job w r w'. unfold Events.Execute. repeat case_match; try (by intros [= <- _]). apply Run_cancelled. Qed.

#[global] Instance runtime_cancelled range reader options : CancelledByCaller (Runtime.Execute range now reader options).
Proof using. intros ctx job w r w'. unfold Runtime.Execute. repeat case_match; try (by intros [= <- _]). apply Run_cancelled. Qed.
End cancelling.

#[export] Instance registry_cancelled {W} (r : Registry.t (W := W)) :
  (∀ k e, r !! k = Some e → CancelledByCaller e) → CancelledByCaller (Registry.Execute r).
Proof.
  intros Hr ctx job w x w'. unfold Registry.Execute. destruct (r !! _) as [e|] eqn:E; [|by intros [= <- _]].
  by apply (Hr _ _ E).
Qed.

#[export] Instance compiled_cancelled {W} now range (client : Reader.Client W) cfg :
  CancelledByCaller (Registry.Execute (compiledCapabilities now range client cfg)).
Proof.
  apply registry_cancelled. intros k e He. unfold compiledCapabilities, Registry.Register, Registry.t in He.
  cbv zeta in He. do 3 (apply lookup_insert_Some in He as [[_ <-]|[_ He]]; [apply _|]). done.
Qed.

#[export] Instance enforce_cancelled {W} (clock : W → nat → Time) guard inner :
  CancelledByCaller inner → CancelledByCaller (Enforce clock guard inner).
Proof.
  intros Hi ctx job w r w' [(r0 & m & rep & _ & _ & _ & Hm & _)|[->|[H _]]]%Enforce_hands_on Hc; [|done|by eapply Hi].
  revert Hm Hc. unfold GetResult, GetFailureKind. by destruct (jr_Outcome r) as [[]|].
Qed.

#[export] Instance audit_cancelled {W} (now : W → Time) emit size inner :
  CancelledByCaller inner → CancelledByCaller (AuditTrail.Execute now emit size inner).
Proof.
  intros Hi ctx job w r w' (r0 & w1 & H & Hr & _)%AuditTrail.Execute_accounts Hc.
  destruct r0 as [r0|]; [|done]. injection Hr as ->. by eapply Hi.
Qed.

(** ** Observing a scope *)

Section observing.
Context {W : Type} (c : InventoryClient W) (ctx : Ctx W).

Lemma list_into_reads list intent page (p : string → Prop) ns w :
  p ns → inventory_call c ns w (list w).2 → reads (inventory_call c) p w (list_into list intent page w).2.
Proof using.
  intros Hp Hc. unfold list_into. destruct (list w) as [r w']. eapply reads_call; [exact Hp|exact Hc|].
  destruct r as [[]|]; apply reads_refl.
Qed.

Lemma ListWorkloadIntents_reads ns limit (p : string → Prop) w :
  p ns → reads (inventory_call c) p w (ListWorkloadIntents c ctx ns limit w).2.
Proof using.
  intros Hp. unfold ListWorkloadIntents. case_match; [apply reads_refl|].
  match goal with |- context [list_into ?l ?i ?pg w] =>
    pose proof (list_into_reads l i pg p ns w Hp (call_Deployments c ns w ctx limit)) as H1;
    destruct (list_into l i pg w) as [[p1|e] w1] end; [|exact H1].
  eapply reads_trans; [exact H1|]. cbn [snd].
  match goal with |- context [list_into ?l ?i p1 w1] =>
    pose proof (list_into_reads l i p1 p ns w1 Hp (call_StatefulSets c ns w1 ctx limit)) as H2;
    destruct (list_into l i p1 w1) as [[p2|e] w2] end; [|exact H2].
  eapply reads_trans; [exact H2|]. eapply list_into_reads; [exact Hp|constructor].
Qed.

Lemma listVersions_reads resource ns limit (p : string → Prop) w :
  p ns → reads (inventory_call c) p w (listVersions c ctx resource ns limit w).2.
Proof using.
  intros Hp. unfold listVersions. case_match; [apply reads_refl|].
  pose proof (call_Metadata c ns w ctx resource limit) as Hc.
  destruct (ic_Metadata c ctx resource ns limit w) as [r w']. eapply reads_call; [exact Hp|exact Hc|].
  destruct r as [[]|]; apply reads_refl.
Qed.

Lemma workloads_loop_confined namespaces acc w :
  reads (inventory_call c) (λ ns, ns ∈ namespaces) w (workloads_loop (lister c) ctx namespaces acc w).2.
Proof using.
  revert acc w. induction namespaces as [|ns namespaces IH]; intros acc w; [apply reads_refl|].
  cbn [workloads_loop lister rd_ListWorkloadIntents].
  assert (Hin : ns ∈ ns :: namespaces) by by left.
  pose proof (ListWorkloadIntents_reads ns listLimit (λ x, x ∈ ns :: namespaces) w Hin) as H1.
  destruct (ListWorkloadIntents c ctx ns listLimit w) as [[page|e] w1]; [|exact H1].
  eapply reads_trans; [exact H1|]. eapply reads_weaken; [|apply IH]. intros x ?. by right.
Qed.

Lemma versions_loop_confined namespaces acc w :
  reads (inventory_call c) (λ ns, ns ∈ namespaces) w (versions_loop (lister c) ctx namespaces acc w).2.
Proof using.
  revert acc w. induction namespaces as [|ns namespaces IH]; intros acc w; [apply reads_refl|].
  cbn [versions_loop lister rd_ListConfigMapVersions rd_ListSecretVersions].
  unfold ListConfigMapVersions, ListSecretVersions.
  assert (Hin : ns ∈ ns :: namespaces) by by left.
  pose proof (listVersions_reads configMapResource ns listLimit (λ x, x ∈ ns :: namespaces) w Hin) as H1.
  destruct (listVersions _ _ _ _ _ w) as [[page|e] w1]; [|exact H1]. eapply reads_trans; [exact H1|]. cbn [snd].
  pose proof (listVersions_reads secretResource ns listLimit (λ x, x ∈ ns :: namespaces) w1 Hin) as H2.
  destruct (listVersions _ _ _ _ _ w1) as [[page2|e] w2]; [|exact H2]. eapply reads_trans; [exact H2|].
  eapply reads_weaken; [|apply IH]. intros x ?. by right.
Qed.

Lemma collect_reads namespaces w :
  reads (inventory_call c) (λ ns, ns ∈ namespaces) w (collect (lister c) ctx namespaces w).2.
Proof using.
  unfold collect.
  match goal with |- context [workloads_loop _ _ _ ?acc w] =>
    pose proof (workloads_loop_confined namespaces acc w) as H1;
    destruct (workloads_loop (lister c) ctx namespaces acc w) as [[acc1|e] w1] end; [|exact H1].
  eapply reads_trans; [exact H1|]. cbn [snd].
  pose proof (versions_loop_confined namespaces acc1 w1) as H2.
  by destruct (versions_loop (lister c) ctx namespaces acc1 w1) as [[acc2|e] w2].
Qed.
End observing.
