(* ===== verification/Process.v ===== *)
(** * The whole process (cmd/opencluster-relay/main.go serving)

    What [run] serves, running: the session and its inventory ([Relay]) over a world that holds the
    cluster and the audit log. A worker's executor is the one the composition root made, run on the
    worker's job in the world as it is; an observation is [collect] over the inventory's reader; the rest
    of the world moves by itself. What the components promise one by one is here put together: what
    reaches the stream, what is asked of the cluster, what the audit log says. *)

From S2P Require Import Prelude GoString GoTime Wire Execution Admission Masking Declared Policy Sweep Enforcement Kube Runtime KubeInventory InventoryLocal Sync SyncProps Session SessionSteps SessionSlots SessionSafety SessionExact SessionMessages SessionLiveness SessionProgress Relay Config Transport AuditTrail Identity Main Typing Frame.
From stdpp Require Import options.
Local Open Scope Z_scope.

Definition tickTimeout : Duration := 30 * Second.

Record Process (W : Type) := { pr_relay : Relay; pr_world : W }.
Arguments pr_relay {W}.
Arguments pr_world {W}.

(** The next step: of the session, with what a call into the synchronizer would meet; of a worker whose
    executor runs, in its own context; of the synchronizer's goroutine; of a tick whose reads run, with
    the identifiers its deltas draw. *)
Inductive process_label (W : Type) :=
  | AtSession (l : label) (now : Time) (order : list string)
  | AtExecutor (id : nat) (ctx : Ctx W) (order : list string)
  | AtClock (e : event)
  | AtTick (newDeltaID : nat → string).
Arguments AtSession {W}.
Arguments AtExecutor {W}.
Arguments AtClock {W}.
Arguments AtTick {W}.

(** What executors return is not the environment's choice here; nor is what ticks read ([finishing]). *)
Definition returns (l : label) : bool := match l with LWorker _ (Executed _) => true | _ => false end.

Section process.
Context {W : Type} (now : W → Time) (root : Ctx W) (sv : serving W).

Definition session_config : Session.Config := (New (sv_Session sv)).1.
Definition session_capacity : nat := (New (sv_Session sv)).2.

(** Without an inventory the synchronizer is never called: its policy is off. *)
Definition attached : Setup :=
  match sv_Inventory sv with
  | Some (setup, _) => setup
  | None => {| su_local := {| lo_Enabled := false; lo_Namespaces := None; lo_MinimumInterval := 0 |};
               su_allowedNamespaces := None |}
  end.

Definition relay_at (l : relay_label) (p : Process W) (w : W) : option (Process W) :=
  r ← relay_step session_config session_capacity attached l (pr_relay p);
  Some {| pr_relay := r; pr_world := w |}.

Definition process_step (l : process_label W) (p : Process W) : option (Process W) :=
  match l with
  | AtSession l now order => if returns l then None else relay_at (OnSession l now order) p (pr_world p)
  | AtExecutor id ctx order =>
      worker ← ss_workers (re_session (pr_relay p)) !! id;
      let '(result, w) := sv_Executor sv ctx (wk_job worker) (pr_world p) in
      result ← result;
      relay_at (OnSession (LWorker id (Executed result)) (now w) order) p w
  | AtClock e => if finishing e then None else relay_at (OnClock e) p (pr_world p)
  | AtTick newDeltaID =>
      '(_, reader) ← sv_Inventory sv;
      t ← sy_tick (re_sync (pr_relay p));
      let w := pr_world p in
      let '(outcome, w') := collect reader (WithTimeout now root w tickTimeout) (tk_namespaces t) w in
      relay_at (OnClock (EFinish newDeltaID (now w) outcome)) p w'
  end.

(** The runs from the world [run] left; [env] is what else may happen to it. *)
Inductive processes (env : W → W → Prop) (w0 : W) : Process W → Prop :=
  | processes_start : processes env w0 {| pr_relay := NewRelay; pr_world := w0 |}
  | processes_step p l p' : processes env w0 p → process_step l p = Some p' → processes env w0 p'
  | processes_env p w : processes env w0 p → env (pr_world p) w →
      processes env w0 {| pr_relay := pr_relay p; pr_world := w |}.

(** What a run is answerable for: the assignments received, and the runs of executors, each with its context,
    its job, the world before and after it and what it returned. *)
Inductive occurrence :=
  | Assigned (job : JobAssignment)
  | Ran (ctx : Ctx W) (job : JobAssignment) (before : W) (r : JobResult) (after : W).

Definition occurs (l : process_label W) (p : Process W) : list occurrence :=
  match l with
  | AtSession (LReceive (C_JobAssignment job)) _ _ => [Assigned job]
  | AtExecutor id ctx _ =>
      match ss_workers (re_session (pr_relay p)) !! id with
      | Some worker =>
          match sv_Executor sv ctx (wk_job worker) (pr_world p) with
          | (Some r, w) => [Ran ctx (wk_job worker) (pr_world p) r w]
          | (None, _) => []
          end
      | None => []
      end
  | _ => []
  end.

(** The same runs, with their chronicle. *)
Inductive chronicle (env : W → W → Prop) (w0 : W) : list occurrence → Process W → Prop :=
  | chronicle_start : chronicle env w0 [] {| pr_relay := NewRelay; pr_world := w0 |}
  | chronicle_step h p l p' : chronicle env w0 h p → process_step l p = Some p' →
      chronicle env w0 (h ++ occurs l p) p'
  | chronicle_env h p w : chronicle env w0 h p → env (pr_world p) w →
      chronicle env w0 h {| pr_relay := pr_relay p; pr_world := w |}.

Lemma processes_chronicle env w0 p : processes env w0 p ↔ ∃ h, chronicle env w0 h p.
Proof using.
  split.
  - induction 1 as [|p l p' _ [h IH] H|p w _ [h IH] Hw].
    + eexists. constructor.
    + eexists. by econstructor.
    + eexists. by econstructor.
  - intros [h H]. induction H; by econstructor.
Qed.

(** ** A step of the process is a step of the relay *)

Lemma relay_at_Some l p w p' :
  relay_at l p w = Some p' →
  relay_step session_config session_capacity attached l (pr_relay p) = Some (pr_relay p') ∧ pr_world p' = w.
Proof using. unfold relay_at. by intros (r & Hr & [= <-])%bind_Some. Qed.

(** The kinds of step, with what each does to the world. *)
Inductive steps_as (p p' : Process W) : relay_label → Prop :=
  | steps_session l now order : returns l = false → pr_world p' = pr_world p → steps_as p p' (OnSession l now order)
  | steps_executor id ctx worker r t order :
      ss_workers (re_session (pr_relay p)) !! id = Some worker →
      sv_Executor sv ctx (wk_job worker) (pr_world p) = (Some r, pr_world p') →
      steps_as p p' (OnSession (LWorker id (Executed r)) t order)
  | steps_clock e : finishing e = false → pr_world p' = pr_world p → steps_as p p' (OnClock e)
  | steps_tick ids setup reader t ctx outcome :
      sv_Inventory sv = Some (setup, reader) → sy_tick (re_sync (pr_relay p)) = Some t →
      collect reader ctx (tk_namespaces t) (pr_world p) = (outcome, pr_world p') →
      steps_as p p' (OnClock (EFinish ids (now (pr_world p)) outcome)).

Lemma process_step_relay l p p' :
  process_step l p = Some p' →
  ∃ rl, steps_as p p' rl ∧ relay_step session_config session_capacity attached rl (pr_relay p) = Some (pr_relay p').
Proof using.
  destruct l as [l t order|id ctx order|e|ids]; cbn [process_step].
  - destruct (returns l) eqn:E; [done|]. intros [H Hw]%relay_at_Some. eexists. split; [by constructor|done].
  - intros (worker & Hw & H)%bind_Some. destruct (sv_Executor sv ctx _ _) as [r w] eqn:Ex.
    apply bind_Some in H as (result & -> & [H <-]%relay_at_Some). eexists. split; [by econstructor|done].
  - destruct (finishing e) eqn:E; [done|]. intros [H Hw]%relay_at_Some. eexists. split; [by constructor|done].
  - intros ([setup reader] & Hi & H)%bind_Some. apply bind_Some in H as (t & Ht & H).
    destruct (collect _ _ _ _) as [outcome w] eqn:Ec. apply relay_at_Some in H as [H <-].
    eexists. split; [by econstructor|done].
Qed.

(** The session's part: a step of the session, or none. *)
Lemma steps_as_session p p' rl :
  steps_as p p' rl → relay_step session_config session_capacity attached rl (pr_relay p) = Some (pr_relay p') →
  re_session (pr_relay p') = re_session (pr_relay p)
  ∨ ∃ l, perform session_config session_capacity l (re_session (pr_relay p)) = Some (re_session (pr_relay p'))
    ∧ ∀ id r, l = LWorker id (Executed r) → ∃ worker ctx,
        ss_workers (re_session (pr_relay p)) !! id = Some worker
        ∧ sv_Executor sv ctx (wk_job worker) (pr_world p) = (Some r, pr_world p').
Proof using.
  intros Hs H. destruct rl as [l t order|e].
  - apply relay_step_session in H as (_ & H & _). right. eexists. split; [exact H|]. intros id r El.
    inversion Hs as [l' t' order' Hr|id' ctx worker r' t' order' Hw Hx| |]; subst.
    + by destruct l as [| | |? []| | | | | | | |].
    + injection El as <- <-. by exists worker, ctx.
  - left. by apply relay_step_clock in H as (_ & ? & _).
Qed.

Lemma processes_reachable env w0 p : processes env w0 p → reachable (sv_Session sv) (re_session (pr_relay p)).
Proof using.
  induction 1 as [|p l p' _ IH H|p w _ IH _]; [constructor| |done].
  apply process_step_relay in H as (rl & Hs & H).
  destruct (steps_as_session _ _ _ Hs H) as [->|(l' & Hl & _)]; [done|]. by econstructor.
Qed.

(** ** Promises of every result *)

(** A promise that outlives steps of the world, holds of the session's own refusals and is kept by the
    executor holds of every result in the process. *)
Lemma processes_results env w0 (P : W → JobResult → Prop) :
  (∀ w w' r, env w w' → P w r → P w' r) →
  (∀ l p p' r, processes env w0 p → process_step l p = Some p' → P (pr_world p) r → P (pr_world p') r) →
  (∀ w j e, P w (identityMismatch j e)) → (∀ w j e, P w (unsupportedCapability j e)) →
  (∀ job ctx w r w', admissible session_config job →
     sv_Executor sv ctx job w = (Some r, w') → P w' r) →
  ∀ p, processes env w0 p → results_are (P (pr_world p)) (re_session (pr_relay p)).
Proof using.
  intros Henv Hstep Hm Hu Hx p Hp. induction Hp as [|p l p' Hp IH H|p w Hp IH Hw].
  - apply results_are_initial.
  - pose proof (Hstep l p p') as Hkeep. pose proof H as (rl & Hs & Hr)%process_step_relay.
    assert (IH' : results_are (P (pr_world p')) (re_session (pr_relay p)))
      by (eapply results_are_weaken; [|exact IH]; by auto).
    destruct (steps_as_session _ _ _ Hs Hr) as [->|(l' & Hl & He)]; [done|].
    eapply perform_results; [apply Hm|apply Hu| |exact IH'|exact Hl].
    intros id worker r El Hworker _ _. destruct (He _ _ El) as (worker' & ctx & Hw' & Hexec).
    assert (worker' = worker) as -> by congruence. eapply Hx; [|exact Hexec].
    apply processes_reachable in Hp. apply reachable_ok in Hp.
    by destruct (so_worker _ _ Hp _ _ Hworker).
  - eapply results_are_weaken; [|exact IH]. intros r. by apply Henv.
Qed.
(** ** What every run of an executor answers to *)

(** A step of the session in a run, and what it writes down. *)
Lemma process_step_occurs l p p' :
  process_step l p = Some p' →
  re_session (pr_relay p') = re_session (pr_relay p)
  ∨ ∃ sl, perform session_config session_capacity sl (re_session (pr_relay p)) = Some (re_session (pr_relay p'))
    ∧ (∀ job, sl = LReceive (C_JobAssignment job) → Assigned job ∈ occurs l p)
    ∧ ∀ id r, sl = LWorker id (Executed r) → ∃ worker ctx w',
        ss_workers (re_session (pr_relay p)) !! id = Some worker
        ∧ sv_Executor sv ctx (wk_job worker) (pr_world p) = (Some r, w')
        ∧ occurs l p = [Ran ctx (wk_job worker) (pr_world p) r w'].
Proof using.
  destruct l as [l t order|id ctx order|e|ids]; cbn [process_step].
  - destruct (returns l) eqn:Er; [done|].
    intros [(_ & H & _)%relay_step_session _]%relay_at_Some. right. eexists. split; [exact H|]. split.
    + intros job E. destruct l as [|m| | | | | | | | | |]; try done. cbn in E. injection E as ->. by left.
    + intros id r E. by destruct l as [| | |? []| | | | | | | |].
  - intros (worker & Hw & H)%bind_Some. destruct (sv_Executor sv ctx _ _) as [r w] eqn:Ex.
    apply bind_Some in H as (result & -> & [(_ & H & _)%relay_step_session _]%relay_at_Some).
    right. eexists. split; [exact H|]. split; [done|]. intros id' r E. injection E as <- <-.
    exists worker, ctx, w. split_and!; [done..|]. cbn [occurs]. by rewrite Hw, Ex.
  - destruct (finishing e); [done|]. intros [(_ & ? & _)%relay_step_clock _]%relay_at_Some. by left.
  - intros ([setup reader] & _ & H)%bind_Some. apply bind_Some in H as (t & _ & H).
    destruct (collect _ _ _ _) as [outcome w]. apply relay_at_Some in H as [(_ & ? & _)%relay_step_clock _]. by left.
Qed.

(** A result was returned by a run of an executor, of an admissible job assigned before. *)
Definition ran (h : list occurrence) (r : JobResult) : Prop :=
  ∃ ctx job w1 w2 h1 h2, h = h1 ++ Ran ctx job w1 r w2 :: h2 ∧ Assigned job ∈ h1
    ∧ admissible session_config job ∧ sv_Executor sv ctx job w1 = (Some r, w2).

Lemma ran_more h k r : ran h r → ran (h ++ k) r.
Proof using.
  intros (ctx & job & w1 & w2 & h1 & h2 & -> & H). exists ctx, job, w1, w2, h1, (h2 ++ k). by rewrite <- app_assoc.
Qed.

(** Every job in the process was assigned, and every payload returned by such a run. *)
Record answerable (h : list occurrence) (s : State) : Prop := {
  an_workers id worker : ss_workers s !! id = Some worker → Assigned (wk_job worker) ∈ h;
  an_admits i c job : ss_conns s !! i = Some c → cn_recv c = RAdmit job → Assigned job ∈ h;
  an_results : results_are (λ r, is_Some (GetResult r) → ran h r) s;
}.

Lemma answerable_step h k s s' l :
  session_ok session_config s → answerable h s →
  perform session_config session_capacity l s = Some s' →
  (∀ job, l = LReceive (C_JobAssignment job) → Assigned job ∈ k) →
  (∀ id r, l = LWorker id (Executed r) → ∃ worker ctx w w',
     ss_workers s !! id = Some worker ∧ sv_Executor sv ctx (wk_job worker) w = (Some r, w')
     ∧ k = [Ran ctx (wk_job worker) w r w']) →
  answerable (h ++ k) s'.
Proof using.
  intros Hok [Hw Ha Hr] H Hassigned Hran. split.
  - intros id w' Hw'. apply elem_of_app. left.
    destruct (perform_descends _ _ _ _ _ H id w' Hw') as [(w & Hid & _ & -> & _)|(_ & _ & _ & c & Hl & Hc)];
      [by eapply Hw|]. apply live_Some in Hl as (_ & Hl & _). by eapply Ha.
  - intros i c' job Hc' Hjob. apply elem_of_app.
    destruct (perform_admits _ _ _ _ _ H i c' job Hc' Hjob) as [(c & Hc & Hj)|E]; [left; by eapply Ha|right; by apply Hassigned].
  - eapply perform_results; [| | | |exact H]; [by intros ? ? [? ?]..| |].
    + intros id worker r El Hworker _ _ _. destruct (Hran id r El) as (worker' & ctx & w & w' & Hworker' & Hx & ->).
      simplify_eq. exists ctx, (wk_job worker), w, w', h, []. split_and!; [done|by eapply Hw| |done].
      by destruct (so_worker _ _ Hok _ _ Hworker).
    + eapply results_are_weaken; [|exact Hr]. intros r HP Hs. by apply ran_more, HP.
Qed.

Lemma chronicle_answerable env w0 h p : chronicle env w0 h p → answerable h (re_session (pr_relay p)).
Proof using.
  induction 1 as [|h p l p' Hp IH H|h p w _ IH _]; [|destruct (process_step_occurs _ _ _ H) as [->|(sl & Hs & Ha & Hr)]|done].
  - split; [done..|]. apply results_are_initial.
  - destruct IH as [Hw Ha Hr]. split.
    + intros id worker Hid. apply elem_of_app. left. by eapply Hw.
    + intros i c job Hc Hj. apply elem_of_app. left. by eapply Ha.
    + eapply results_are_weaken; [|exact Hr]. intros r HP Hs. by apply ran_more, HP.
  - assert (Hproc : processes env w0 p) by (apply processes_chronicle; by eexists).
    apply processes_reachable in Hproc. eapply answerable_step; [by apply reachable_ok in Hproc|exact IH|exact Hs|exact Ha|].
    intros id r El. destruct (Hr id r El) as (worker & ctx & w' & ? & ? & ?). by exists worker, ctx, (pr_world p), w'.
Qed.
End process.
Arguments occurrence W : clear implicits.
Arguments Assigned {W}.
Arguments Ran {W}.

(** ** Runs *)

(** The sender's steps that succeed, the moves of one worker, and its executor's run in the context [ctx]. *)
Inductive own_label {W} (id : nat) (ctx : Ctx W) : process_label W → Prop :=
  | own_sends now order : own_label id ctx (AtSession (LSend true) now order)
  | own_moves choice now order : choice = Proceed ∨ choice = Enqueued true →
      own_label id ctx (AtSession (LWorker id choice) now order)
  | own_executes order : own_label id ctx (AtExecutor id ctx order).

Definition process_run {W} now root (sv : serving W) (id : nat) (ctx : Ctx W) : Process W → Process W → Prop :=
  rtc (λ p p', ∃ l, own_label id ctx l ∧ process_step now root sv l p = Some p').

Definition with_session {W} (s : State) (p : Process W) : Process W :=
  {| pr_relay := {| re_session := s; re_sync := re_sync (pr_relay p) |}; pr_world := pr_world p |}.

(** What the sender and a worker do by themselves they do in the process. *)
Lemma goes_process {W} now root (sv : serving W) id ctx p s' :
  goes (session_config sv) (session_capacity sv) id (re_session (pr_relay p)) s' →
  process_run now root sv id ctx p (with_session s' p).
Proof.
  intros (ls & Hls & H). destruct p as [[s y] w]. unfold with_session. cbn in *. revert s H.
  induction Hls as [|l ls Hl _ IH]; intros s; [intros [= ->]; apply rtc_refl|].
  cbn [run_labels]. intros (s1 & H1 & H)%bind_Some. eapply rtc_l; [|by apply IH].
  exists (AtSession l 0 (sorted_keys (sy_scopes y))). split; [destruct Hl as [->|[-> | ->]]; constructor; auto|].
  cbn [process_step]. assert (returns l = false) as -> by (by destruct Hl as [->|[-> | ->]]).
  unfold relay_at. cbn [pr_relay pr_world].
  rewrite (relay_step_quiet _ _ _ _ _ _ s1); [done| | |done]; by destruct Hl as [->|[-> | ->]].
Qed.

(** An executor that answers, taken as a step. *)
Lemma executor_step {W} now root (sv : serving W) id ctx p worker r w' s' :
  ss_workers (re_session (pr_relay p)) !! id = Some worker →
  sv_Executor sv ctx (wk_job worker) (pr_world p) = (Some r, w') →
  worker_step (session_config sv) id worker (Executed r) (re_session (pr_relay p)) = Some s' →
  process_run now root sv id ctx p
    {| pr_relay := {| re_session := s'; re_sync := re_sync (pr_relay p) |}; pr_world := w' |}.
Proof.
  intros Hw Hx Hs. apply rtc_once. destruct p as [[s y] w]. cbn in *.
  exists (AtExecutor id ctx (sorted_keys (sy_scopes y))). split; [constructor|].
  cbn [process_step pr_relay pr_world re_session].
  rewrite Hw. cbn [mbind option_bind]. rewrite Hx. cbn [mbind option_bind]. unfold relay_at. cbn [pr_relay].
  rewrite (relay_step_quiet _ _ _ _ _ _ s'); [done..|]. cbn. by rewrite Hw.
Qed.

(** ** What a tick may list *)

(** A property of the synchronizer the steps it takes keep, the composition keeps; what its own goroutine
    does is the step's label. *)
Lemma relay_step_sync cfg capacity su (I : Synchronizer → Prop) l r r' :
  (∀ e y y', (clock_event e = true → l = OnClock e) → sync_step su e y = Some y' → I y → I y') →
  relay_step cfg capacity su l r = Some r' → I (re_sync r) → I (re_sync r').
Proof.
  intros HI H Hr. destruct l as [l t order|e].
  - apply relay_step_session in H as (_ & _ & H). revert Hr H. generalize (re_sync r) as y.
    induction (new_calls _ _) as [|call calls IH]; intros y Hy; cbn [run_calls]; [by intros [= <-]|].
    intros (y1 & H1 & H)%bind_Some. eapply IH; [|exact H]. eapply HI; [|exact H1|exact Hy]. by destruct call.
  - apply relay_step_clock in H as (_ & _ & H). by eapply HI.
Qed.

(** Every scope, and the tick that is reading, lists what some policy asked for within the operator's bounds. *)
Definition within (su : Setup) (y : Synchronizer) : Prop :=
  (∀ id scope, sy_scopes y !! id = Some scope → ∃ requested, sc_namespaces scope = effectiveNamespaces su requested)
  ∧ ∀ t, sy_tick y = Some t → ∃ requested, tk_namespaces t = effectiveNamespaces su requested.

Lemma finish_tick_namespaces ids t observedAt outcome s :
  sc_namespaces (finish_tick ids t observedAt outcome s) = sc_namespaces s.
Proof. unfold finish_tick. by repeat case_match. Qed.

Lemma scope_step_namespaces su id t o s' :
  (∀ s, o = Some s → ∃ requested, sc_namespaces s = effectiveNamespaces su requested) →
  scope_step su id t o s' → ∃ requested, sc_namespaces s' = effectiveNamespaces su requested.
Proof.
  intros Ho H. inversion H; subst; cbn; rewrite ?finish_tick_namespaces; eauto.
Qed.

Lemma sync_step_within su e y y' : sync_step su e y = Some y' → within su y → within su y'.
Proof.
  intros H [Hs Ht].
  assert (Hs' : ∀ id scope, sy_scopes y' !! id = Some scope →
    ∃ requested, sc_namespaces scope = effectiveNamespaces su requested).
  { intros id scope Hid. eapply scope_step_namespaces; [|by eapply sync_step_scopes]. intros s E. by eapply Hs. }
  split; [done|]. intros t Htick. destruct (finishing e) eqn:Hf.
  - destruct e; try done. cbn in H. apply bind_Some in H as (t' & _ & [= <-]). done.
  - destruct (sync_step_other _ _ _ _ Hf H) as (_ & _ & Hb). destruct (Hb t Htick) as [?|(scope & Hid & ->)]; [eauto|].
    by eapply Hs'.
Qed.

Lemma processes_within {W} now root (sv : serving W) env w0 p :
  processes now root sv env w0 p → within (attached sv) (re_sync (pr_relay p)).
Proof.
  induction 1 as [|p l p' _ IH H|p w _ IH _]; [split; [intros id scope|]; done| |done].
  apply process_step_relay in H as (rl & _ & H). revert IH.
  eapply relay_step_sync; [|exact H]. intros e y y' _. apply sync_step_within.
Qed.

(** ** What a started process does *)

Section started.
Context {W R : Type} (host : Host W R) (now : W → Time) (range : Runtime.ranging) (sweep_clock : W → nat → Time)
  (emit : audit_line → W → W) (proto_size : option JobResult → Z) (root : Ctx W).

(** The namespaces the operator's allowlist leaves. *)
Definition permitted (cfg : Config.Config) (ns : string) : Prop :=
  ∀ allowed, Config.AllowedNamespaces cfg = Some allowed → ns ∈ allowed.

(** The run of an executor on [job] from the world [w] that may return the result [r] with the payload [m]: [r]
    answers [job], which is of this relay and advertised; [m] is well-typed, in the job's variant, and the
    sweep, under the policy in force, of what the capability returned in this very run; and all that this run
    asked of the cluster was in the job's namespace, which the operator permits. *)
Record lawful_run (cfg : Config.Config) (client : Reader.Client W) (session : Session.Config)
    (ctx : Ctx W) (job : JobAssignment) (w : W) (r : JobResult) (m : pmsg) : Prop := {
  lw_answers : jr_JobId r = ja_JobId job ∧ jr_LeaseEpoch r = ja_LeaseEpoch job;
  lw_admissible : admissible session job;
  lw_typed : ∃ field, (ja_CapabilityId job, ja_CapabilityVersion job, field) ∈ capabilityResults
    ∧ well_typed (v1 "CapabilityResult") m = true ∧ filter (λ n, n ≠ "redaction") (msg_fields m).*1 = [field];
  lw_read : ∃ ns r0 m0 rep w1,
    job_namespace job = Some ns ∧ permitted cfg ns
    ∧ Registry.Execute (compiledCapabilities now range client cfg) ctx job w = (Some r0, w1)
    ∧ rtc (client_call client ns) w w1
    ∧ GetResult r0 = Some m0 ∧ well_declared m0 = true
    ∧ m = set_redaction rep (swept (default Default (g_policy (guard_for host cfg))) "" m0);
  lw_fault : carriesFreeText (ja_CapabilityId job) (ja_CapabilityVersion job) = true →
    g_fault (guard_for host cfg) = None;
}.

(** A result with a payload comes from such a run, of a job whose assignment was received before. *)
Definition lawful (cfg : Config.Config) (client : Reader.Client W) (session : Session.Config)
    (h : list (occurrence W)) (r : JobResult) : Prop :=
  ∀ m, GetResult r = Some m → ∃ ctx job w1 w2 h1 h2,
    h = h1 ++ Ran ctx job w1 r w2 :: h2 ∧ Assigned job ∈ h1 ∧ lawful_run cfg client session ctx job w1 r m.

Lemma enforce_no_payload guard inner ctx job (w : W) r0 r w' :
  inner ctx job w = (Some r0, w) → GetResult r0 = None →
  Enforce sweep_clock guard inner ctx job w = (Some r, w') → GetResult r = None.
Proof using. intros Hi Hr0. unfold Enforce. case_match; [by intros [= <- _]|]. rewrite Hi, Hr0. by intros [= <- _]. Qed.

(** An allowed read is in a permitted namespace, and what the registry reads is allowed. *)
Lemma registry_reads lookup cfg client ctx job ns w :
  Config.Load lookup = Ok cfg → job_namespace job = Some ns →
  rtc (client_call client ns) w (Registry.Execute (compiledCapabilities now range client cfg) ctx job w).2.
Proof using.
  intros Hload Hns. pose proof (confined (Confined := compiled_confined now range client cfg) ctx job w) as Hc.
  unfold reads in Hc. revert Hc. apply rtc_subrel. intros x y (ns' & [Hns' _] & Hcall). by simplify_eq.
Qed.

Lemma executed_lawful lookup cfg client session ctx job w r w' m :
  Config.Load lookup = Ok cfg → admissible session job →
  guardedExecutor now sweep_clock emit proto_size (Registry.Execute (compiledCapabilities now range client cfg))
    (guard_for host cfg) ctx job w = (Some r, w') →
  GetResult r = Some m → lawful_run cfg client session ctx job w r m.
Proof using.
  intros Hload Hadm H Hm. pose proof (guarded_typed _ _ _ _ _ _ _ _ _ _ _ _ _ _ H Hm) as Htyped.
  destruct (echoes (e := guardedExecutor now sweep_clock emit proto_size
    (Registry.Execute (compiledCapabilities now range client cfg)) (guard_for host cfg)) ctx job w) as (r' & w1 & E' & Hj & Hl).
  rewrite H in E'. injection E' as <- <-.
  apply AuditTrail.Execute_accounts in H as (r1 & w1 & E & Hr & _). destruct r1 as [r1|]; [|done]. injection Hr as ->.
  rewrite GetResult_with_duration in Hm.
  destruct (job_namespace job) as [ns|] eqn:Hns.
  2: { destruct (compiled_needs_arguments now range client cfg ctx job w Hns) as (r0 & Hi & Hr0).
       pose proof (enforce_no_payload _ _ _ _ _ _ _ _ Hi Hr0 E). congruence. }
  split; [done..| |].
  - destruct (Enforce_hands_on _ _ _ _ _ _ _ _ E) as [(r0 & m0 & rep & Hi & Hm0 & Hd & Hswept & _)|[->|[_ Hn]]];
      [|done|congruence].
    exists ns, r0, m0, rep, w1. split_and!; [done| |done| |done|done|congruence].
    + intros allowed Ha. destruct (decide (ns ∈ allowed)) as [|Hnot]; [done|]. exfalso.
      assert (Hne : allowed ≠ ∅) by (intros ->; by apply (Config.Load_bounds _ _ Hload)).
      destruct (compiled_refuses now range client cfg allowed ns ctx job w Ha Hne Hns Hnot) as (r2 & Hi2 & Hr2).
      congruence.
    + pose proof (registry_reads lookup cfg client ctx job ns w Hload Hns) as Hreads. by rewrite Hi in Hreads.
  - intros Hfree. destruct (g_fault (guard_for host cfg)) as [f|] eqn:Hg; [|done]. exfalso.
    revert E. unfold Enforce. rewrite Hg, Hfree. by intros [= <- _].
Qed.

(** What serving may do to the world: read a permitted namespace for a job; list one for change detection,
    which the inventory's own configuration permits as well; write an audit line. *)
Inductive effect (cfg : Config.Config) (client : Reader.Client W) (inventory : option (Local * InventoryClient W))
    (w : W) : W → Prop :=
  | effect_read ns w' : permitted cfg ns → client_call client ns w w' → effect cfg client inventory w w'
  | effect_list local metadata ns w' : inventory = Some (local, metadata) → permitted cfg ns →
      permits (lo_Namespaces local) ns = true → inventory_call metadata ns w w' → effect cfg client inventory w w'
  | effect_audit line : effect cfg client inventory w (emit line w).

Lemma allows_permitted lookup cfg ns :
  Config.Load lookup = Ok cfg → LocalPolicy.AllowsNamespace (local_policy cfg) ns = true → permitted cfg ns.
Proof using.
  intros Hload H allowed Ha. revert H. unfold LocalPolicy.AllowsNamespace, local_policy. rewrite Ha. cbn.
  destruct (bool_decide (size allowed = 0%nat)) eqn:E; [|by rewrite bool_decide_eq_true].
  apply bool_decide_eq_true in E. apply size_empty_iff, leibniz_equiv in E. subst.
  by destruct (Config.Load_bounds _ _ Hload) as (_ & _ & _ & _ & _ & _ & _ & _ & _ & Hne).
Qed.

(** An executor's run: reads in the job's namespace, then one audit line about its result. *)
Lemma executor_effects cfg client inventory lookup guard ctx job w r w' :
  Config.Load lookup = Ok cfg →
  guardedExecutor now sweep_clock emit proto_size (Registry.Execute (compiledCapabilities now range client cfg)) guard
    ctx job w = (r, w') →
  ∃ w1 duration, rtc (effect cfg client inventory) w w1 ∧ w' = emit (line_for proto_size job r duration) w1.
Proof using.
  intros Hload (r0 & w1 & H & _ & ->)%AuditTrail.Execute_accounts. exists w1. eexists. split; [|reflexivity].
  pose proof (confined (Confined := enforce_confined _ _ sweep_clock guard _ (compiled_confined now range client cfg))
    ctx job w) as Hc.
  rewrite H in Hc. cbn in Hc. unfold reads in Hc. revert Hc. apply rtc_subrel.
  intros x y (ns & [_ Hp] & Hcall). eapply effect_read; [|exact Hcall]. by eapply allows_permitted.
Qed.

Lemma listed_permitted cfg (sv : serving W) setup reader requested ns :
  sv_Inventory sv = Some (setup, reader) → su_allowedNamespaces setup = Config.AllowedNamespaces cfg →
  ns ∈ effectiveNamespaces (attached sv) requested →
  permitted cfg ns ∧ permits (lo_Namespaces (su_local setup)) ns = true.
Proof using.
  unfold attached. intros -> Ha Hin.
  destruct (effectiveNamespaces_permitted setup requested) as (_ & Hall & _).
  apply Hall in Hin. apply namespaceAllowed_true in Hin as [H1 H2]. split; [|done].
  intros allowed E. rewrite Ha, E in H2. cbn in H2. by apply bool_decide_eq_true in H2.
Qed.

Lemma started sample w0 sv w :
  run host now range sweep_clock emit proto_size root sample w0 = (Serves sv, w) →
  ∃ cfg config client credential, Config.Load (ho_environment host) = Ok cfg ∧ ho_clientset host config = Some client
    ∧ serves_as host now range sweep_clock emit proto_size cfg config client credential sv.
Proof using.
  intros (_ & cfg & config & client & credential & Hload & _ & Hclient & Has & _)%run_serving.
  by exists cfg, config, client, credential.
Qed.

(** C1: nothing unswept, unasked or out of bounds ever reaches the stream. In every run of a started
    process, whatever the control plane sends, the cluster answers and the loops, workers, sender and
    reconnects interleave, a result that carries a payload on any connection was returned, in that run, by
    the executor's run on a job whose assignment the relay had received before, and which is of this
    organization and registration and for an advertised capability; the payload is a well-typed
    CapabilityResult in that capability's variant, and is the sweep, under the policy the process started
    with, of what the capability returned in that very run; every call of the cluster's client in that run
    was in the namespace the job names, which is on the operator's allowlist when there is one; and under a
    policy that failed to load no capability that can carry free text has a payload at all. *)
Theorem stream_lawful sample w0 sv w env h p i c r :
  run host now range sweep_clock emit proto_size root sample w0 = (Serves sv, w) →
  chronicle now root sv env w h p →
  ss_conns (re_session (pr_relay p)) !! i = Some c → R_JobResult r ∈ cn_history c →
  ∃ cfg config client, Config.Load (ho_environment host) = Ok cfg ∧ ho_clientset host config = Some client
    ∧ lawful cfg client (New (sv_Session sv)).1 h r.
Proof using.
  intros (cfg & config & client & credential & Hload & Hclient & Has)%started Hp Hc Hr.
  exists cfg, config, client. split_and!; [done..|]. destruct Has as (_ & _ & _ & _ & _ & _ & Hx & _).
  destruct (an_results _ _ _ (chronicle_answerable _ _ _ _ _ _ _ Hp)) as [_ Hres].
  intros m Hm. destruct (Hres i c r Hc (or_introl Hr)) as (ctx & job & w1 & w2 & h1 & h2 & -> & Hin & Hadm & Hexec);
    [by eexists|].
  exists ctx, job, w1, w2, h1, h2. split_and!; [done..|]. rewrite Hx in Hexec. by eapply executed_lawful.
Qed.

(** The cluster's inventory, as the process was given it. *)
Definition inventory_of (config : R) (sv : serving W) : option (Local * InventoryClient W) :=
  '(setup, _) ← sv_Inventory sv; metadata ← ho_metadata host config; Some (su_local setup, metadata).

Lemma step_effects sv cfg config client credential env w0 l p p' :
  Config.Load (ho_environment host) = Ok cfg →
  serves_as host now range sweep_clock emit proto_size cfg config client credential sv →
  processes now root sv env w0 p → process_step now root sv l p = Some p' →
  rtc (effect cfg client (inventory_of config sv)) (pr_world p) (pr_world p').
Proof using.
  intros Hload Has Hp H. apply processes_within in Hp as [_ Hwithin].
  apply process_step_relay in H as (rl & Hs & _).
  destruct Has as (_ & _ & _ & _ & _ & _ & Hx & _ & Hinv).
  destruct Hs as [l' t order _ ->|id ctx worker r t order _ Hexec|e _ ->|ids setup reader t ctx outcome Hi Ht Hcoll].
  - apply rtc_refl.
  - rewrite Hx in Hexec. apply (executor_effects cfg client (inventory_of config sv) _ _ _ _ _ _ _ Hload) in Hexec
      as (w1 & d & Hr & ->).
    eapply rtc_r; [exact Hr|]. constructor.
  - apply rtc_refl.
  - rewrite Hi in Hinv. destruct Hinv as (_ & Ha & _ & metadata & Hm & ->).
    destruct (Hwithin t Ht) as (requested & Hn).
    pose proof (collect_reads metadata ctx (tk_namespaces t) (pr_world p)) as Hr. rewrite Hcoll in Hr.
    revert Hr. apply rtc_subrel. intros x y (ns & Hin & Hcall). rewrite Hn in Hin.
    destruct (listed_permitted cfg sv setup _ requested ns Hi Ha Hin) as [H1 H2].
    eapply effect_list; [|exact H1|exact H2|exact Hcall]. unfold inventory_of. by rewrite Hi; cbn; rewrite Hm.
Qed.

(** C2: the process as a whole does to the world only what the operator allowed. Every step of a started
    process, in every run, changes the world by a sequence of permitted effects alone: calls of the
    cluster's client in a namespace of the allowlist, calls of the inventory's client in one that the
    inventory configuration permits as well, and audit lines; in particular it makes no call of any
    other namespace, whatever the control plane asks. *)
Theorem effects_confined sample w0 sv w env p l p' :
  run host now range sweep_clock emit proto_size root sample w0 = (Serves sv, w) →
  processes now root sv env w p → process_step now root sv l p = Some p' →
  ∃ cfg config client, Config.Load (ho_environment host) = Ok cfg ∧ ho_clientset host config = Some client
    ∧ rtc (effect cfg client (inventory_of config sv)) (pr_world p) (pr_world p').
Proof using.
  intros (cfg & config & client & credential & Hload & Hclient & Has)%started Hp H.
  exists cfg, config, client. split_and!; [done..|]. by eapply step_effects.
Qed.

(** The log, read off the world: an emitted line is in it, and nothing takes one out. *)
Record ledger (env : W → W → Prop) (log : W → list audit_line) : Prop := {
  ld_emit line w : line ∈ log (emit line w) ∧ log w ⊆ log (emit line w);
  ld_client config client ns w w' : ho_clientset host config = Some client → client_call client ns w w' →
    log w ⊆ log w';
  ld_metadata config metadata ns w w' : ho_metadata host config = Some metadata → inventory_call metadata ns w w' →
    log w ⊆ log w';
  ld_env w w' : env w w' → log w ⊆ log w';
}.

Lemma effects_keep_log env log cfg config client sv w w' :
  ledger env log → ho_clientset host config = Some client →
  rtc (effect cfg client (inventory_of config sv)) w w' → log w ⊆ log w'.
Proof using.
  intros Hlog Hclient. induction 1 as [|x y z Hxy _ IH]; [done|]. etrans; [|exact IH].
  inversion Hxy as [ns ? _ Hc|local metadata ns ? Hi _ _ Hc|line]; subst.
  - by eapply ld_client.
  - unfold inventory_of in Hi. apply bind_Some in Hi as ([setup reader] & _ & (md & Hm & [= _ <-])%bind_Some).
    by eapply ld_metadata.
  - by apply (ld_emit _ _ Hlog).
Qed.

(** An answer of the session's own, to an assignment it does not dispatch. *)
Definition own_refusal (r : JobResult) : Prop :=
  ∃ job epoch, r = identityMismatch job epoch ∨ r = unsupportedCapability job epoch.

(** The audit log has a line for this very result of this very job. *)
Definition accounted (session : Session.Config) (lines : list audit_line) (r : JobResult) : Prop :=
  ∃ job duration, admissible session job ∧ jr_JobId r = ja_JobId job ∧ jr_LeaseEpoch r = ja_LeaseEpoch job
    ∧ line_for proto_size job (Some r) duration ∈ lines.

(** C4: the audit log knows of everything that left. In every run of a started process whose log nothing
    but the process writes, every result on any connection, queued or sent, first time or resent, is either
    one of the session's two refusals of assignments it never dispatched, or has its line in the log: of
    the job it answers, under its lease, with the outcome and the size of what was sent. *)
Theorem results_accounted sample w0 sv w env log p i c r :
  run host now range sweep_clock emit proto_size root sample w0 = (Serves sv, w) →
  ledger env log → processes now root sv env w p →
  ss_conns (re_session (pr_relay p)) !! i = Some c → R_JobResult r ∈ cn_history c →
  own_refusal r ∨ accounted (New (sv_Session sv)).1 (log (pr_world p)) r.
Proof using.
  intros (cfg & config & client & credential & Hload & Hclient & Has)%started Hlog Hp Hc Hr.
  set (P := λ v r, own_refusal r ∨ accounted (New (sv_Session sv)).1 (log v) r).
  assert (Hmono : ∀ v v' r, log v ⊆ log v' → P v r → P v' r).
  { intros v v' r' Hv [?|(job & d & ? & ? & ? & ?)]; [by left|]. right. exists job, d. auto. }
  assert (H : results_are (P (pr_world p)) (re_session (pr_relay p))).
  { apply (processes_results now root sv env w P); try done.
    - intros v v' r' He. apply Hmono. by eapply ld_env.
    - intros l p1 p2 r' Hp1 H1. apply Hmono. eapply effects_keep_log; [done..|]. by eapply step_effects.
    - intros v j e. left. by exists j, e; left.
    - intros v j e. left. by exists j, e; right.
    - intros job ctx v r' v' Hadm H. right. destruct Has as (_ & _ & _ & _ & _ & _ & Hx & _).
      rewrite Hx in H. pose proof H as (v1 & d & _ & ->)%(executor_effects cfg client None _ _ _ _ _ _ _ Hload).
      unfold guardedExecutor in H.
      destruct (echoes (e := AuditTrail.Execute now emit proto_size (Enforce sweep_clock (guard_for host cfg)
        (Registry.Execute (compiledCapabilities now range client cfg)))) ctx job v) as (r1 & v2 & H1 & Hj & Hl).
      rewrite H1 in H. injection H as <- _. exists job, d. split_and!; [done..|]. exact (proj1 (ld_emit _ _ Hlog _ _)). }
  destruct H as [_ H]. eapply (H i c r Hc). by left.
Qed.

Lemma New_OutboundBuffer c : OutboundBuffer (New c).1 = OutboundBuffer c.
Proof using. unfold New. by case_match. Qed.

(** An answer: retained until it is acknowledged, and written to the stream since. *)
Definition answered (job : JobAssignment) (r : JobResult) (c : Conn) (s : State) (c' : Conn) (s' : State) : Prop :=
  jr_JobId r = ja_JobId job ∧ jr_LeaseEpoch r = ja_LeaseEpoch job
  ∧ ss_unacked s' = <[ja_JobId job := r]> (ss_unacked s)
  ∧ resultMessage r ∈ drop (cn_sent c) (written c').

(** Its slot is given back, and nothing retained. *)
Definition abandoned (job : JobAssignment) (c : Conn) (s s' : State) : Prop :=
  (ja_JobId job ∉ cn_explicit c) ∧ ss_unacked s' = ss_unacked s ∧ ss_outstanding s' = pred (ss_outstanding s).

(** C5: an admitted job can always be answered. From every state of a started process with a running
    connection, a job the connection has admitted, whatever its worker still has to do before its executor
    runs, comes to its end by steps of the sender and of its own worker alone, with its executor run in the
    context [ctx], whatever the cluster then answers: the worker is gone, the connection still runs, and the
    job's result is on the stream and retained; only when that very context can end, and the control plane
    has not asked for it, is the job abandoned instead and its slot given back. *)
Theorem admitted_job_answered sample w0 sv w env p i c id worker (ctx : Ctx W) :
  run host now range sweep_clock emit proto_size root sample w0 = (Serves sv, w) →
  processes now root sv env w p →
  running (re_session (pr_relay p)) = Some (i, c) →
  ss_workers (re_session (pr_relay p)) !! id = Some worker → wk_conn worker = i →
  wk_phase worker = PAck ∨ wk_phase worker = PStarted ∨ wk_phase worker = PExecute →
  ∃ p' c', process_run now root sv id ctx p p' ∧ running (re_session (pr_relay p')) = Some (i, c')
    ∧ ss_workers (re_session (pr_relay p')) !! id = None
    ∧ ((∃ r, answered (wk_job worker) r c (re_session (pr_relay p)) c' (re_session (pr_relay p')))
       ∨ ((∃ v, ctx v ≠ None) ∧ abandoned (wk_job worker) c (re_session (pr_relay p)) (re_session (pr_relay p')))).
Proof using.
  intros (cfg & config & client & credential & Hload & Hclient & Has)%started Hp Hrun Hw Hi Hphase.
  destruct Has as (_ & _ & (_ & Hbuf) & _ & _ & _ & Hx & _).
  assert (Hb : (0 < OutboundBuffer (session_config sv))%nat)
    by (unfold session_config; rewrite New_OutboundBuffer, Hbuf; unfold outboundBufferSize; lia).
  set (job := wk_job worker) in *.
  pose proof (processes_reachable _ _ _ _ _ _ Hp) as Hok%reachable_ok.
  apply (running_up _ _ _ _ Hok) in Hrun as Hu. pose proof (live_Some _ _ _ (up_live _ _ _ Hu)) as (_ & Hc & _).
  assert (Hst : stands id job i (wk_phase worker) (re_session (pr_relay p)) c).
  { split; [done|by eapply co_sent, so_conn|]. exists (wk_cancelled worker). rewrite Hw. subst job i. by destruct worker. }
  destruct (goes_to_executor _ (session_capacity sv) Hb id job i _ _ _ Hst Hphase)
    as (s1 & c1 & Hg1 & Hst1 & Hpre & Eu1 & Eo1 & Ee1).
  apply (goes_process now root _ _ ctx) in Hg1. set (p1 := with_session s1 p) in *. destruct (sd_worker _ _ _ _ _ _ Hst1) as (b & Hw1).
  destruct (echoes (e := AuditTrail.Execute now emit proto_size (Enforce sweep_clock (guard_for host cfg)
    (Registry.Execute (compiledCapabilities now range client cfg)))) ctx job (pr_world p)) as (r & w2 & Hr & Hj & He).
  assert (Hexec : sv_Executor sv ctx job (pr_world p1) = (Some r, w2)) by by rewrite Hx.
  set (s2 := set_phase id (worker_at job i PExecute b) (PClear r) s1).
  assert (Hstep : worker_step (session_config sv) id (worker_at job i PExecute b) (Executed r) s1 = Some s2).
  { unfold worker_step. cbn [wk_phase worker_at wk_job]. unfold echoes_job.
    by rewrite Hj, He, String.eqb_refl, Z.eqb_refl. }
  pose proof (executor_step now root sv id ctx p1 _ r w2 s2 Hw1 Hexec Hstep) as Hrun2.
  set (p2 := {| pr_relay := _; pr_world := w2 |}) in Hrun2.
  assert (Hst2 : stands id job i (PClear r) s2 c1).
  { split; [by destruct (sd_up _ _ _ _ _ _ Hst1); split|exact (sd_sent _ _ _ _ _ _ Hst1)|]. exists b. apply lookup_insert_eq. }
  destruct (goes_from_result _ (session_capacity sv) Hb id job i r s2 c1 Hst2)
    as (s3 & c3 & Hg3 & Hu3 & Hgone & Hend).
  apply (goes_process now root sv id ctx p2 s3) in Hg3. exists (with_session s3 p2), c3. split_and!; [|by apply up_running|done|].
  - etrans; [exact Hg1|]. by etrans.
  - destruct Hend as [(Hcan & Hnot & Eu & Eo)|(Eu & Hin)]; [right|left].
    + split; [|unfold abandoned; cbn in *; rewrite <- Ee1; split_and!; [done|congruence..]].
      unfold isCancelled in Hcan. apply bool_decide_eq_true in Hcan.
      by eapply (cancelled_by_caller (e := AuditTrail.Execute now emit proto_size (Enforce sweep_clock _ _))).
    + exists r. unfold answered. cbn in *. split_and!; [done|done|congruence|].
      eapply sublist_subseteq; [|exact Hin]. apply prefix_length in Hpre.
      pose proof (sd_sent _ _ _ _ _ _ Hst) as Hsent.
      replace (length (cn_history c1)) with (cn_sent c + (length (cn_history c1) - cn_sent c))%nat by lia.
      rewrite <- drop_drop. apply sublist_drop.
Qed.
End started.

(** ** A concrete process

    A stored credential, a cluster with one event that quotes a password, an audit log for a world. The
    control plane assigns one job in a permitted namespace; it runs and its result is enqueued. *)

Definition sample_log : Type := list audit_line.

Definition leaky_event : Port.Event :=
  {| Port.ev_Type := "Warning"; Port.ev_Reason := "Failed"; Port.ev_Message := "login password=hunter2 refused";
     Port.ev_InvolvedKind := "Pod"; Port.ev_InvolvedName := "p"; Port.ev_InvolvedUID := "";
     Port.ev_SourceComponent := "kubelet";
     Port.ev_Count := 1; Port.ev_FirstTimestamp := 1; Port.ev_LastTimestamp := 5; Port.ev_EventTime := zero_time |}.

Definition process_client : Reader.Client sample_log :=
  {| Reader.cl_Deployment _ _ _ w := (Err dead, w); Reader.cl_StatefulSet _ _ _ w := (Err dead, w);
     Reader.cl_DaemonSet _ _ _ w := (Err dead, w); Reader.cl_Pod _ _ _ w := (Err dead, w);
     Reader.cl_Pods _ _ _ _ w := (Err dead, w); Reader.cl_Events _ _ _ _ w := (Ok ([leaky_event], ""), w);
     Reader.cl_Logs _ _ _ _ w := (Err dead, w); Reader.cl_NamespaceUID _ _ w := (Ok "uid", w);
     Reader.as_selector _ := "" |}.

(** A daemon set in every namespace, listed where it is asked for. *)
Definition agent (ns : string) : Workload :=
  {| wl_Meta := {| Port.om_Name := "agent"; Port.om_Namespace := ns; Port.om_UID := ""; Port.om_Generation := 1;
                   Port.om_CreationTimestamp := 0 |};
     wl_Annotations := ∅; wl_Replicas := None;
     wl_Spec := {| sp_Containers := []; sp_InitContainers := []; sp_Volumes := [];
                   sp_ImagePullSecrets := [] |} |}.

Definition process_lists : InventoryClient sample_log :=
  {| ic_Deployments _ _ _ w := (Ok ([], ""), w); ic_StatefulSets _ _ _ w := (Ok ([], ""), w);
     ic_DaemonSets _ ns _ w := (Ok ([agent ns], ""), w); ic_Metadata _ _ _ _ w := (Ok ([], ""), w);
     ic_Marshal _ := None |}.

Definition process_host : Host sample_log unit :=
  {| ho_environment := sample_environment; ho_ReadFile _ := None; ho_Stdin := None;
     ho_policy_decode _ := (DecodedEOF, DecodedEOF); ho_compile _ := None;
     ho_inventory_decode _ := (DocumentEOF, DocumentEOF);
     ho_LoadFromFile _ := Err Kubeconfig.NotExist; ho_build _ := None; ho_has_plugin _ := false;
     ho_InClusterConfig := Some tt; ho_clientset _ := Some process_client;
     ho_metadata _ := Some process_lists;
     ho_ParseCertificate := Some; ho_NewClient _ _ := true;
     ho_Register _ _ _ _ w := (Ok (sample_registration []), w);
     ho_Store _ := {| st_Load w := (Ok (credential_of (sample_registration [])), w);
                      st_Save _ w := (Ok tt, w) |} |}.

Fixpoint process_labels (sv : serving sample_log) (ls : list (process_label sample_log)) (p : Process sample_log)
    : option (Process sample_log) :=
  match ls with
  | [] => Some p
  | l :: ls => p ← process_step (λ _, 0) (λ _, None) sv l p; process_labels sv ls p
  end.

Definition at_session (l : label) : process_label sample_log := AtSession l 0 [].

(** To the executor, and from it to the end. *)
Definition sample_admitted : list (process_label sample_log) :=
  at_session <$> [LConnect sample_accepted; LReceive (C_JobAssignment (sample_events_job "prod")); LHandler true].
Definition sample_executed : list (process_label sample_log) :=
  (at_session <$> [LWorker 0 (Enqueued true); LWorker 0 (Enqueued true)]) ++ [AtExecutor 0 (λ _, None) []].
Definition sample_delivered : list (process_label sample_log) :=
  at_session <$> [LWorker 0 Proceed; LWorker 0 Proceed; LWorker 0 Proceed; LWorker 0 (Enqueued true)].

Definition process_outcome : outcome sample_log * sample_log :=
  run process_host (λ _, 0) map_to_list (λ _ _, 0) cons (λ _, 7) (λ _, None) "" [].

Definition sample_process (ls : list (process_label sample_log)) : option (serving sample_log * Process sample_log) :=
  match process_outcome with
  | (Serves sv, w) => p ← process_labels sv ls {| pr_relay := NewRelay; pr_world := w |}; Some (sv, p)
  | _ => None
  end.

(** What they write down. *)
Fixpoint process_occurs (sv : serving sample_log) (ls : list (process_label sample_log)) (p : Process sample_log)
    : list (occurrence sample_log) :=
  match ls with
  | [] => []
  | l :: ls =>
      occurs sv l p ++ match process_step (λ _, 0) (λ _, None) sv l p with
                       | Some p => process_occurs sv ls p
                       | None => []
                       end
  end.

Lemma process_labels_chronicle sv ls h p p' w :
  chronicle (λ _, 0) (λ _, None) sv eq w h p → process_labels sv ls p = Some p' →
  chronicle (λ _, 0) (λ _, None) sv eq w (h ++ process_occurs sv ls p) p'.
Proof.
  revert h p. induction ls as [|l ls IH]; intros h p Hp; [intros [= <-]; by rewrite app_nil_r|].
  cbn [process_labels process_occurs]. intros (p1 & H1 & H)%bind_Some. rewrite H1, app_assoc.
  eapply IH; [|exact H]. by econstructor.
Qed.

Lemma sample_process_Some ls sv p :
  sample_process ls = Some (sv, p) →
  ∃ w, process_outcome = (Serves sv, w) ∧ processes (λ _, 0) (λ _, None) sv eq w p
    ∧ chronicle (λ _, 0) (λ _, None) sv eq w (process_occurs sv ls {| pr_relay := NewRelay; pr_world := w |}) p.
Proof.
  unfold sample_process. destruct process_outcome as [[| |s] w]; [done..|].
  intros (p' & H & [= <- <-])%bind_Some. exists w.
  assert (Hc : chronicle (λ _, 0) (λ _, None) s eq w (process_occurs s ls {| pr_relay := NewRelay; pr_world := w |}) p').
  { eapply (process_labels_chronicle _ _ []); [constructor|exact H]. }
  split_and!; [done| |exact Hc]. apply processes_chronicle. by eexists.
Qed.

(** The last message of the connection, when it is a result. *)
Definition last_result (p : Process sample_log) : option (Conn * JobResult) :=
  c ← ss_conns (re_session (pr_relay p)) !! 0%nat;
  match last (cn_history c) with Some (R_JobResult r) => Some (c, r) | _ => None end.

Definition sample_end : list (process_label sample_log) := sample_admitted ++ sample_executed ++ sample_delivered.

(** What the witnesses below compute: the fields of the last payload, and the message of its one event. *)
Definition event_message (m : pmsg) : string :=
  match m with
  | PMsg _ [_; (_, VMessage (PMsg _ (_ :: (_, VMessages [PMsg _ (_ :: _ :: (_, VString text) :: _)]) :: _)))] => text
  | _ => ""
  end.

Definition sample_payload (p : Process sample_log) : option (list string * string) :=
  '(_, r) ← last_result p; m ← GetResult r; Some ((msg_fields m).*1, event_message m).

Lemma last_result_Some p c r :
  last_result p = Some (c, r) → ss_conns (re_session (pr_relay p)) !! 0%nat = Some c ∧ R_JobResult r ∈ cn_history c.
Proof.
  unfold last_result. intros (c' & Hc & H)%bind_Some. destruct (last (cn_history c')) as [[]|] eqn:E; try done.
  injection H as <- <-. split; [done|]. apply last_Some in E as (l & ->). set_solver.
Qed.

Lemma sample_end_payload :
  ('(_, p) ← sample_process sample_end; sample_payload p) 
  = Some (["redaction"; "kubernetes_namespace_events_v1"], "login [redacted:builtin.credential_assignment] refused").
Proof. vm_compute. reflexivity. Qed.

Lemma stream_lawful_witness :
  ∃ sv p c r m h, sample_process sample_end = Some (sv, p) ∧ last_result p = Some (c, r) ∧ GetResult r = Some m
    ∧ (msg_fields m).*1 = ["redaction"; "kubernetes_namespace_events_v1"]
    ∧ event_message m = "login [redacted:builtin.credential_assignment] refused"
    ∧ ∃ cfg config client, Config.Load sample_environment = Ok cfg ∧ ho_clientset process_host config = Some client
      ∧ lawful process_host (λ _, 0) map_to_list cfg client (New (sv_Session sv)).1 h r.
Proof.
  pose proof sample_end_payload as H. apply bind_Some in H as ([sv p] & Hp & H).
  apply bind_Some in H as ([c r] & Hl & (m & Hm & H)%bind_Some).
  apply sample_process_Some in Hp as Hstart. destruct Hstart as (w & Hrun & _ & Hc).
  exists sv, p, c, r, m, (process_occurs sv sample_end {| pr_relay := NewRelay; pr_world := w |}).
  split_and!; [exact Hp|exact Hl|exact Hm|by injection H|by injection H|].
  apply last_result_Some in Hl as [Hconn Hr].
  exact (stream_lawful process_host (λ _, 0) map_to_list (λ _ _, 0) cons (λ _, 7) (λ _, None) "" [] sv w eq _ p 0%nat c r
    Hrun Hc Hconn Hr).
Defined.

(** Its chronicle: the assignment, and the one run of the executor. *)
Example sample_chronicle :
  match sample_process sample_end, process_outcome with
  | Some (sv, _), (_, w) =>
      (λ o, match o with Assigned job => (ja_JobId job, "assigned") | Ran _ job _ _ _ => (ja_JobId job, "ran") end)
        <$> process_occurs sv sample_end {| pr_relay := NewRelay; pr_world := w |}
      = [("j1", "assigned"); ("j1", "ran")]
  | _, _ => False
  end.
Proof. vm_compute. reflexivity. Qed.

Lemma sample_ledger : ledger process_host cons eq id.
Proof.
  split.
  - intros line w. unfold id. set_solver.
  - intros config client ns w w' [= <-] Hc. by destruct Hc.
  - intros config metadata ns w w' [= <-] Hc. by destruct Hc.
  - by intros w w' ->.
Qed.

Lemma results_accounted_witness :
  ∃ sv p c r, sample_process sample_end = Some (sv, p) ∧ last_result p = Some (c, r) ∧ is_Some (GetResult r)
    ∧ (own_refusal r ∨ accounted (λ _, 7) (New (sv_Session sv)).1 (pr_world p) r).
Proof.
  pose proof sample_end_payload as H. apply bind_Some in H as ([sv p] & Hp & H).
  apply bind_Some in H as ([c r] & Hl & (m & Hm & H)%bind_Some). exists sv, p, c, r.
  split_and!; [exact Hp|exact Hl|by exists m|].
  apply sample_process_Some in Hp as (w & Hrun & Hp & _). apply last_result_Some in Hl as [Hc Hr].
  exact (results_accounted process_host (λ _, 0) map_to_list (λ _ _, 0) cons (λ _, 7) (λ _, None) "" [] sv w eq id p
    0%nat c r Hrun sample_ledger Hp Hc Hr).
Defined.

(** The executor's step, from the state before it. *)
Definition sample_before_executor : list (process_label sample_log) := sample_admitted ++ take 2 sample_executed.

Lemma effects_confined_witness :
  ∃ sv p p', sample_process sample_before_executor = Some (sv, p)
    ∧ process_step (λ _, 0) (λ _, None) sv (AtExecutor 0 (λ _, None) []) p = Some p'
    ∧ pr_world p = [] ∧ length (pr_world p') = 1%nat
    ∧ ∃ cfg config client, Config.Load sample_environment = Ok cfg ∧ ho_clientset process_host config = Some client
      ∧ rtc (effect cons cfg client (inventory_of process_host config sv)) (pr_world p) (pr_world p').
Proof.
  assert (H : ('(sv, p) ← sample_process sample_before_executor;
    p' ← process_step (λ _, 0) (λ _, None) sv (AtExecutor 0 (λ _, None) []) p;
    Some (pr_world p, length (pr_world p'))) = Some ([], 1%nat)) by (vm_compute; reflexivity).
  apply bind_Some in H as ([sv p] & Hp & (p' & Hs & H)%bind_Some). exists sv, p, p'.
  injection H as Hw Hw'. split_and!; [exact Hp|exact Hs|exact Hw|exact Hw'|].
  apply sample_process_Some in Hp as (w & Hrun & Hp & _).
  exact (effects_confined process_host (λ _, 0) map_to_list (λ _ _, 0) cons (λ _, 7) (λ _, None) "" [] sv w eq p _ p'
    Hrun Hp Hs).
Defined.

Lemma admitted_job_answered_witness :
  ∃ sv p c worker, sample_process sample_admitted = Some (sv, p)
    ∧ running (re_session (pr_relay p)) = Some (0%nat, c)
    ∧ ss_workers (re_session (pr_relay p)) !! 0%nat = Some worker ∧ wk_phase worker = PAck
    ∧ ∃ p' c' r, process_run (λ _, 0) (λ _, None) sv 0 (λ _, None) p p'
      ∧ answered (wk_job worker) r c (re_session (pr_relay p)) c' (re_session (pr_relay p')).
Proof.
  assert (H : ('(sv, p) ← sample_process sample_admitted; '(i, _) ← running (re_session (pr_relay p));
    worker ← ss_workers (re_session (pr_relay p)) !! 0%nat;
    Some (i, wk_conn worker, match wk_phase worker with PAck => true | _ => false end)) = Some (0%nat, 0%nat, true))
    by (vm_compute; reflexivity).
  apply bind_Some in H as ([sv p] & Hp & ([i c] & Hl & (worker & Hw & H)%bind_Some)%bind_Some).
  injection H as -> Hi Hph. assert (Hack : wk_phase worker = PAck) by by destruct (wk_phase worker).
  exists sv, p, c, worker. split_and!; [exact Hp|exact Hl|exact Hw|exact Hack|].
  apply sample_process_Some in Hp as (w & Hrun & Hp & _).
  destruct (admitted_job_answered process_host (λ _, 0) map_to_list (λ _ _, 0) cons (λ _, 7) (λ _, None) "" [] sv w eq p
    0%nat c 0%nat worker (λ _, None) Hrun Hp Hl Hw Hi (or_introl Hack))
    as (p' & c' & Hsteps & _ & _ & [[r Hr]|[[v Hv] _]]); [|destruct (Hv eq_refl)].
  exists p', c', r. exact (conj Hsteps Hr).
Defined.

(** An assignment of another organization's is refused and leaves no line in the audit log. *)
Definition mismatched_job : JobAssignment :=
  {| ja_JobId := "j2"; ja_OrgId := "other"; ja_RegistrationId := "42"; ja_LeaseEpoch := 3;
     ja_CapabilityId := "kubernetes.namespace.events"; ja_CapabilityVersion := 1; ja_DeadlineBudget := None;
     ja_IdempotencyKey := ""; ja_CorrelationId := ""; ja_Arguments := None |}.

Example mismatch_unaudited :
  ('(_, p) ← sample_process (at_session <$>
       [LConnect sample_accepted; LReceive (C_JobAssignment mismatched_job); LHandler true]);
   '(_, r) ← last_result p; Some (r, pr_world p))
  = Some (identityMismatch "j2" 3, []).
Proof. vm_compute. reflexivity. Qed.
