(* ===== verification/Confinement.v ===== *)
(** * What change detection discloses (internal/inventory, over internal/kube/inventory.go)

    A list in a namespace names objects of that namespace: this the API server promises, and it is the
    one thing assumed here ([confined_lists]). Then every object any delta on any connection speaks of lies
    in a namespace the operator allowed: observations hold nothing else, and neither do the snapshots kept,
    the differences taken between them and the deltas packed from those. *)

From S2P Require Import Prelude GoString GoTime Wire Execution Kube Runtime KubeInventory Snapshot Diff InventoryLocal Sync SyncProps Session SessionSteps SessionSafety SessionExact SessionMessages Relay Config AuditTrail Identity Main Frame Process.
From stdpp Require Import options.
Local Open Scope Z_scope.

(** ** From pages to snapshots *)

(** What the API server promises of a list in one namespace. *)
Record confined_lists {W} (c : InventoryClient W) : Prop := {
  cl_deployments ctx ns limit w items continue w' :
    ns ≠ "" → ic_Deployments c ctx ns limit w = (Ok (items, continue), w') →
    Forall (λ x, Port.om_Namespace (wl_Meta x) = ns) items;
  cl_statefulsets ctx ns limit w items continue w' :
    ns ≠ "" → ic_StatefulSets c ctx ns limit w = (Ok (items, continue), w') →
    Forall (λ x, Port.om_Namespace (wl_Meta x) = ns) items;
  cl_daemonsets ctx ns limit w items continue w' :
    ns ≠ "" → ic_DaemonSets c ctx ns limit w = (Ok (items, continue), w') →
    Forall (λ x, Port.om_Namespace (wl_Meta x) = ns) items;
  cl_metadata ctx resource ns limit w items continue w' :
    ns ≠ "" → ic_Metadata c ctx resource ns limit w = (Ok (items, continue), w') →
    Forall (λ x, md_Namespace x = ns) items;
}.

Section pages.
Context {W : Type} (c : InventoryClient W) (Hc : confined_lists c) (ctx : Ctx W).

Lemma list_into_confined list intent page (w : W) page' w' ns :
  (∀ x, wi_Namespace (intent x) = Port.om_Namespace (wl_Meta x)) →
  (∀ items continue w1, list w = (Ok (items, continue), w1) → Forall (λ x, Port.om_Namespace (wl_Meta x) = ns) items) →
  list_into list intent page w = (Ok page', w') →
  Forall (λ i, wi_Namespace i = ns) (ip_Workloads page) → Forall (λ i, wi_Namespace i = ns) (ip_Workloads page').
Proof using.
  intros Hi Hl. unfold list_into. destruct (list w) as [[[items continue]|e] w1] eqn:E; [|done].
  intros [= <- <-] Hp. cbn. apply Forall_app. split; [done|]. apply Forall_fmap.
  eapply Forall_impl; [by eapply Hl|]. intros x Hx. cbn. by rewrite Hi.
Qed.

Lemma ListWorkloadIntents_confined ns limit w page w' :
  ns ≠ "" → ListWorkloadIntents c ctx ns limit w = (Ok page, w') →
  Forall (λ i, wi_Namespace i = ns) (ip_Workloads page).
Proof using Hc.
  intros Hns. unfold ListWorkloadIntents. case_match; [done|].
  destruct (list_into _ _ _ w) as [[p1|e] w1] eqn:E1; [|done].
  destruct (list_into _ _ p1 w1) as [[p2|e] w2] eqn:E2; [|done]. intros E3.
  eapply list_into_confined in E1; [| |intros; by eapply cl_deployments|]; [|done..].
  eapply list_into_confined in E2; [| |intros; by eapply cl_statefulsets|]; [|done..].
  eapply list_into_confined in E3; [| |intros; by eapply cl_daemonsets|]; done.
Qed.

Lemma listVersions_confined resource ns limit w page w' :
  ns ≠ "" → listVersions c ctx resource ns limit w = (Ok page, w') →
  Forall (λ v, cv_Namespace v = ns) (cp_Versions page).
Proof using Hc.
  intros Hns. unfold listVersions. case_match; [done|].
  destruct (ic_Metadata _ _ _ _ _ w) as [[[items continue]|e] w1] eqn:E; [|done]. intros [= <- <-]. cbn.
  apply Forall_fmap. eapply Forall_impl; [by eapply cl_metadata|]. done.
Qed.
End pages.

(** Snapshots, changes and deltas that speak only of objects in the namespaces [ok]. *)
Definition keys_in (ok : string → Prop) (s : Snapshot) : Prop := ∀ k, is_Some (s !! k) → ok (key_Namespace k).
Definition changes_in (ok : string → Prop) (l : list InventoryObjectChange) : Prop := Forall (λ c, ok (oc_Namespace c)) l.

Section confined.
Context (ok : string → Prop).

(** An observation of named namespaces holds objects of those. *)
Lemma collect_confined {W} (c : InventoryClient W) ctx namespaces w snapshot truncated w' :
  confined_lists c → (∀ ns, ns ∈ namespaces → ns ≠ "" ∧ ok ns) →
  collect (lister c) ctx namespaces w = (Ok (snapshot, truncated), w') → keys_in ok snapshot.
Proof using.
  intros Hc Hns (pages & w1 & versions & Hp & Hv & [Hin _] & _)%collect_observed k [st Hk]. specialize (Hin k st Hk).
  assert (Hpages : Forall (λ page, Forall (λ i, ok (wi_Namespace i)) (ip_Workloads page)) pages).
  { clear - Hc Hns Hp. induction Hp as [|ns l w page w1 pages w2 H _ IH]; constructor.
    - destruct (Hns ns) as [H1 H2]; [by left|].
      eapply Forall_impl; [eapply ListWorkloadIntents_confined; [exact Hc|exact H1|exact H]|]. by intros i ->.
    - apply IH. intros x ?. apply Hns. by right. }
  assert (Hversions : Forall (λ p, Forall (λ v, ok (cv_Namespace v)) (cp_Versions p.1)
                                 ∧ Forall (λ v, ok (cv_Namespace v)) (cp_Versions p.2)) versions).
  { clear - Hc Hns Hv. induction Hv as [|ns l w page w1 page' w2 pages w3 H H' _ IH]; constructor.
    - destruct (Hns ns) as [H1 H2]; [by left|]. split; (eapply Forall_impl;
        [eapply listVersions_confined; [exact Hc|exact H1|first [exact H|exact H']]|]; by intros v ->).
    - apply IH. intros x ?. apply Hns. by right. }
  rewrite Forall_forall in Hpages. rewrite Forall_forall in Hversions.
  inversion Hin as [i Hi E|v [Hv' _] E|v [Hv' _] E]; subst; cbn in *.
  - apply list_elem_of_bind in Hi as (page & Hi & Hpage). specialize (Hpages page Hpage).
    rewrite Forall_forall in Hpages. by apply Hpages.
  - apply list_elem_of_bind in Hv' as (p & Hi & Hpage). destruct (Hversions p Hpage) as [H _].
    rewrite Forall_forall in H. by apply H.
  - apply list_elem_of_bind in Hv' as (p & Hi & Hpage). destruct (Hversions p Hpage) as [_ H].
    rewrite Forall_forall in H. by apply H.
Qed.

(** ** From snapshots to deltas *)

Lemma Diff_in previous current : keys_in ok previous → keys_in ok current → changes_in ok (Diff previous current).
Proof using.
  intros Hp Hcur. unfold Diff, changes_in. apply Forall_app. split; apply Forall_forall; intros x Hx;
    apply list_elem_of_omap in Hx as (k & Hk%elem_of_sortedKeys & Hx).
  - apply Hcur in Hk. unfold present_change in Hx. destruct (current !! k) as [st|]; [|done]. cbn in Hx.
    by repeat case_match; simplify_eq.
  - apply Hp in Hk. unfold deleted_change in Hx. by case_match; simplify_eq.
Qed.

Lemma Baseline_in current : keys_in ok current → changes_in ok (Baseline current).
Proof using.
  intros Hcur. unfold Baseline. apply Forall_forall. intros x (k & Hk%elem_of_sortedKeys & Hx)%list_elem_of_omap.
  apply fmap_Some in Hx as (st & _ & ->). cbn. by apply Hcur.
Qed.

Definition deltas_in (l : list InventoryDelta) : Prop := Forall (λ d, changes_in ok (id_Changes d)) l.

Lemma packDeltas_in ids id revision baseline observedAt changes :
  changes_in ok changes → deltas_in (packDeltas ids id revision baseline observedAt changes).
Proof using.
  intros H. destruct (packDeltas_correct ids id revision baseline observedAt changes) as (E & _).
  apply Forall_forall. intros d Hd. apply Forall_forall. intros x Hx. unfold changes_in in H.
  rewrite Forall_forall in H. apply H. rewrite <- E. apply list_elem_of_bind. eauto.
Qed.

(** ** The synchronizer *)

Definition scope_in (s : scopeState) : Prop := keys_in ok (sc_snapshot s) ∧ deltas_in (sc_pending s).

Definition sync_in (y : Synchronizer) : Prop :=
  (∀ id s, sy_scopes y !! id = Some s → scope_in s) ∧ ∀ t, sy_tick y = Some t → keys_in ok (tk_previous t).

Lemma remove_delta_in delta l l' : remove_delta delta l = Some l' → deltas_in l → deltas_in l'.
Proof using.
  unfold deltas_in. revert l'. induction l as [|d l IH]; intros l'; cbn [remove_delta]; [done|].
  rewrite Forall_cons. case_match; [by intros [= ->] []|].
  destruct (remove_delta delta l) as [k|]; [|done]. intros [= <-] [Hd Hl]. constructor; [done|by apply IH].
Qed.

Lemma finish_tick_in ids t observedAt outcome s :
  scope_in s → keys_in ok (tk_previous t) →
  (∀ current truncated, outcome = Ok (current, truncated) → keys_in ok current) →
  scope_in (finish_tick ids t observedAt outcome s).
Proof using.
  intros [Hs Hp] Ht Ho. unfold finish_tick. case_match; [done|]. destruct outcome as [[current truncated]|e]; [|done].
  specialize (Ho _ _ eq_refl). split; [done|]. cbn [sc_pending]. case_match; [constructor|].
  apply Forall_app. split; [done|]. unfold tick_deltas, tick_changes. apply packDeltas_in.
  case_match; [by apply Baseline_in|by apply Diff_in].
Qed.

Lemma scope_step_in su id t o s' :
  (∀ s, o = Some s → scope_in s) →
  (∀ s ids tk observedAt outcome, o = Some s → t = Some tk →
     s' = finish_tick ids tk observedAt outcome s → scope_in s') →
  scope_step su id t o s' → scope_in s'.
Proof using.
  intros Ho Hf H. inversion H as [s|o' s ? ? ? ? ? ? Es|s delta l Hr|s|s tk ids oa outcome Et]; subst; [by apply Ho| | | |].
  - assert (Hs : scope_in (default (new_scope id) o)) by (destruct o; [by apply Ho|split; [by intros k []|constructor]]).
    exact Hs.
  - destruct (Ho s eq_refl). split; [done|]. cbn. by eapply remove_delta_in.
  - exact (Ho s eq_refl).
  - by eapply Hf.
Qed.

Lemma sync_step_in su e y y' :
  (∀ ids observedAt current truncated, e = EFinish ids observedAt (Ok (current, truncated)) → keys_in ok current) →
  sync_step su e y = Some y' → sync_in y → sync_in y'.
Proof using.
  intros He H [Hs Ht]. destruct (finishing e) eqn:Hf.
  - destruct e as [| | | |ids observedAt outcome]; try done. cbn in H. apply bind_Some in H as (t & Et & [= <-]).
    split; [|done]. cbn [sy_scopes]. intros id s Hid. apply lookup_alter_Some in Hid as [(_ & s0 & H0 & ->)|[_ ?]];
      [|by eapply Hs].
    apply finish_tick_in; [by eapply Hs|by apply Ht|]. intros current truncated ->. by eapply He.
  - destruct (sync_step_other _ _ _ _ Hf H) as (_ & _ & Hb).
    assert (Hs' : ∀ id s, sy_scopes y' !! id = Some s → scope_in s).
    { intros id s Hid. eapply scope_step_in; [| |by eapply sync_step_scopes].
      - intros s0 E. by eapply Hs.
      - intros s0 ids tk oa outcome _ Etk. by destruct e. }
    split; [done|]. intros t Et. destruct (Hb t Et) as [?|(s & Hid & ->)]; [by apply Ht|]. exact (proj1 (Hs' _ _ Hid)).
Qed.
End confined.

(** ** The process *)

(** What a connection carries, and what the synchronizer holds, speaks of the namespaces [ok]. *)
Record disclosed_in (ok : string → Prop) (r : Relay) : Prop := {
  di_sync : sync_in ok (re_sync r);
  di_carried i c d : ss_conns (re_session r) !! i = Some c → carries c d → changes_in ok (id_Changes d);
}.

Lemma Pending_in ok y d : sync_in ok y → d ∈ Pending (sy_scopes y) → changes_in ok (id_Changes d).
Proof.
  intros [Hs _] (id & scope & Hid & Hd)%elem_of_Pending. destruct (Hs _ _ Hid) as [_ Hp].
  unfold deltas_in in Hp. rewrite Forall_forall in Hp. by apply Hp.
Qed.

Lemma relay_step_in ok cfg capacity su l r r' :
  (∀ ids observedAt current truncated, l = OnClock (EFinish ids observedAt (Ok (current, truncated))) →
     keys_in ok current) →
  relay_step cfg capacity su l r = Some r' → disclosed_in ok r → disclosed_in ok r'.
Proof.
  intros Hl H [Hy Hc]. split.
  - revert Hy. eapply relay_step_sync; [|exact H]. intros e y y' He Hstep. eapply sync_step_in; [|exact Hstep].
    intros ids observedAt current truncated ->. eapply Hl. by apply He.
  - intros i c d Hi Hd. destruct l as [l t order|e].
    + apply relay_step_session in H as (_ & H & _).
      destruct (perform_carries _ _ _ _ _ _ _ _ H Hi Hd) as [(c0 & H0 & Hd0)|(deltas & El & _ & Hin)]; [by eapply Hc|].
      destruct l; try done. injection El as <-. by eapply Pending_in.
    + apply relay_step_clock in H as (_ & E & _). rewrite E in Hi. by eapply Hc.
Qed.

Section process.
Context {W : Type} (now : W → Time) (root : Ctx W) (sv : serving W).

(** A property of observations holds of what the process discloses. *)
Lemma processes_in ok env w0 p :
  (∀ setup reader ctx requested w current truncated w', sv_Inventory sv = Some (setup, reader) →
     collect reader ctx (effectiveNamespaces setup requested) w = (Ok (current, truncated), w') →
     keys_in ok current) →
  processes now root sv env w0 p → disclosed_in ok (pr_relay p).
Proof using.
  intros Hok. induction 1 as [|p l p' Hp IH H|p w _ IH _]; [split; done| |done].
  apply process_step_relay in H as (rl & Hs & H). eapply relay_step_in; [|exact H|exact IH].
  intros ids observedAt current truncated ->. apply processes_within in Hp as [_ Hwithin].
  inversion Hs as [| |e Hf _|ids' setup reader t ctx outcome Hi Ht Hcoll]; subst; [done|].
  destruct (Hwithin t Ht) as (requested & Hn). unfold attached in Hn. rewrite Hi in Hn. rewrite Hn in Hcoll.
  by eapply Hok.
Qed.
End process.

Section started.
Context {W R : Type} (host : Host W R) (now : W → Time) (range : Runtime.ranging) (sweep_clock : W → nat → Time)
  (emit : audit_line → W → W) (proto_size : option JobResult → Z) (root : Ctx W).

(** The namespaces change detection may watch: the operator's, narrowed by the inventory's configuration. *)
Definition watched (cfg : Config.Config) (local : Local) (ns : string) : Prop :=
  permitted cfg ns ∧ permits (lo_Namespaces local) ns = true.

(** A name that is watched is the name of a namespace, or every namespace is watched. *)
Lemma watched_named cfg local :
  Config.Load (ho_environment host) = Ok cfg →
  LoadLocal (ho_ReadFile host) (ho_inventory_decode host) (Config.InventoryConfigFile cfg) = Ok local →
  watched cfg local "" → ∀ ns, watched cfg local ns.
Proof using.
  intros Hload Hlocal [Hp Hl] ns. split.
  - intros allowed Ha. destruct (Config.allowed_named _ _ _ Hload Ha). by apply Hp.
  - destruct (lo_Namespaces local) as [s|] eqn:Es; [|done]. cbn in Hl. apply bool_decide_eq_true in Hl.
    by destruct (LoadLocal_named _ _ _ _ _ Hlocal Es).
Qed.

(** C3: change detection tells of nothing the operator did not open. In every run of a started process, over
    a cluster whose lists in a namespace hold only objects of it, every object any delta on any connection
    speaks of, as created, modified or deleted, in a baseline or a difference, first sent or resent, lies in
    a namespace of the operator's allowlist, when there is one, that the inventory configuration does not
    narrow away either; whatever namespaces the control plane's policies ask for. *)
Theorem deltas_confined sample w0 sv w env p i c d change :
  run host now range sweep_clock emit proto_size root sample w0 = (Serves sv, w) →
  (∀ config metadata, ho_metadata host config = Some metadata → confined_lists metadata) →
  processes now root sv env w p →
  ss_conns (re_session (pr_relay p)) !! i = Some c → R_InventoryDelta d ∈ cn_history c → change ∈ id_Changes d →
  ∃ cfg local, Config.Load (ho_environment host) = Ok cfg
    ∧ LoadLocal (ho_ReadFile host) (ho_inventory_decode host) (Config.InventoryConfigFile cfg) = Ok local
    ∧ lo_Enabled local = true ∧ watched cfg local (oc_Namespace change).
Proof using.
  intros (cfg & config & client & credential & Hload & _ & Has)%started Hlists Hp Hc Hd Hchange.
  destruct Has as (_ & _ & _ & _ & _ & _ & _ & _ & Hinv). exists cfg.
  destruct (sv_Inventory sv) as [[setup reader]|] eqn:Hi.
  - destruct Hinv as (Hon & Ha & Hlocal & metadata & Hm & ->). exists (su_local setup). do 3 (split; [done|]).
    assert (H : disclosed_in (watched cfg (su_local setup)) (pr_relay p)).
    { eapply processes_in; [|exact Hp]. rewrite Hi. intros ? ? ctx requested w1 current truncated w2 [= <- <-] Hcoll.
      assert (Hin : ∀ ns, ns ∈ effectiveNamespaces setup requested → watched cfg (su_local setup) ns).
      { intros ns Hns. eapply listed_permitted; [exact Hi|exact Ha|]. unfold attached. by rewrite Hi. }
      destruct (decide ("" ∈ effectiveNamespaces setup requested)) as [Hempty|Hne].
      - intros k _. by apply (watched_named _ _ Hload Hlocal), Hin.
      - eapply collect_confined; [by eapply Hlists| |exact Hcoll]. intros ns Hns. split; [by intros ->|by apply Hin]. }
    assert (Hd' : changes_in (watched cfg (su_local setup)) (id_Changes d)) by (eapply (di_carried _ _ H); [exact Hc|by left]).
    unfold changes_in in Hd'. rewrite Forall_forall in Hd'. by apply Hd'.
  - exfalso. assert (H : disclosed_in (λ _, False) (pr_relay p)) by (eapply processes_in; [by rewrite Hi|exact Hp]).
    assert (Hd' : changes_in (λ _, False) (id_Changes d)) by (eapply (di_carried _ _ H); [exact Hc|by left]).
    unfold changes_in in Hd'. rewrite Forall_forall in Hd'. by apply (Hd' change).
Qed.
End started.

(** ** A concrete process

    Every namespace of the cluster runs the same daemon set; the operator allows two namespaces; the control
    plane asks for one of those and for the system's. *)

Lemma process_lists_confined : confined_lists process_lists.
Proof.
  split.
  1-2, 4: by intros ? ? ? ? ? ? ? ? _ [= <- _ _] || by intros ? ? ? ? ? ? ? _ [= <- _ _].
  intros ctx ns limit w items continue w' _ [= <- _ _]. by constructor.
Qed.

Definition sample_watching : list (process_label sample_log) :=
  [AtSession (LConnect sample_accepted) 1000 [];
   AtSession (LReceive (C_InventoryPolicy (sample_policy 1 ["kube-system"; "prod"]))) 1000 [];
   AtClock (ERunDue 1000); AtClock EBegin; AtTick (λ _, "d1");
   AtSession (LResendTick []) 1002 ["c1"]; AtSession (LResendPending []) 1002 ["c1"];
   AtSession (LResend true) 1002 ["c1"]].

Definition last_delta (p : Process sample_log) : option (Conn * InventoryDelta) :=
  c ← ss_conns (re_session (pr_relay p)) !! 0%nat;
  match last (cn_history c) with Some (R_InventoryDelta d) => Some (c, d) | _ => None end.

Lemma deltas_confined_witness :
  ∃ sv p c d change, sample_process sample_watching = Some (sv, p) ∧ last_delta p = Some (c, d)
    ∧ id_Changes d = [change] ∧ oc_Name change = "agent" ∧ oc_Namespace change = "prod"
    ∧ ∃ cfg local, Config.Load sample_environment = Ok cfg ∧ watched cfg local "prod".
Proof.
  assert (H : ('(_, p) ← sample_process sample_watching; '(_, d) ← last_delta p;
    Some ((λ x, (oc_Name x, oc_Namespace x)) <$> id_Changes d)) = Some [("agent", "prod")]) by (vm_compute; reflexivity).
  apply bind_Some in H as ([sv p] & Hp & ([c d] & Hd & H)%bind_Some).
  destruct (id_Changes d) as [|change [|]] eqn:Ec; try discriminate H.
  injection H as Hn Hns. exists sv, p, c, d, change. split_and!; [exact Hp|exact Hd|exact Ec|exact Hn|exact Hns|].
  apply sample_process_Some in Hp as (w & Hrun & Hp & _). revert Hd. unfold last_delta.
  intros (c' & Hc & Hd)%bind_Some. destruct (last (cn_history c')) as [[ | | | | | | | | |delta]|] eqn:El; try discriminate Hd.
  injection Hd as <- <-.
  destruct (deltas_confined process_host (λ _, 0) map_to_list (λ _ _, 0) cons (λ _, 7) (λ _, None) "" [] sv w eq p
    0%nat c' delta change Hrun) as (cfg & local & H1 & _ & _ & H2).
  - intros config metadata [= <-]. exact process_lists_confined.
  - exact Hp.
  - exact Hc.
  - apply last_Some in El as (l & ->). apply elem_of_app. right. by left.
  - rewrite Ec. by left.
  - exists cfg, local. rewrite <- Hns. exact (conj H1 H2).
Defined.
